(* ===== verification/_CoqProject ===== *)
-Q . S2P
Prelude.v
Key.v
Spec.v
Memtable.v
Iterators.v
Coding.v
Batch.v
Env.v
Externals.v
Wal.v
Format.v
Bloom.v
Block.v
Properties.v
Cache.v
Table.v
Reader.v
Version.v
TableCache.v
Options.v
Metrics.v
Compact.v
Mvcc.v
DbState.v
DbRead.v
DbMem.v
DbFlush.v
DbInv.v
DbFlushOk.v
DbCompact.v
DbCompactIo.v
DbLevels.v
DbWrite.v
DbSettled.v
DbCompactOk.v
DbCompactRun.v
DbGroup.v
DbWriteOk.v
DbCommitOk.v
DbOpen.v
DbCrash.v
DbFaults.v
DbSession.v
DbSessionOk.v
DbFlushCrash.v
DbWriteCrash.v
DbReadFaults.v
DbUnlocked.v
DbCompactReads.v
Fuzz.v
DbQueue.v
DbQueueOk.v
DbLinear.v
DbFindings.v
