(* ===== verification/Prelude.v ===== *)
(** * TyLsmDB: a verification of the log-structured store

    The repository is an embedded key-value store written in Rust.  A write
    goes to a write-ahead log and to a sorted table in memory; full memory
    tables become sorted files of level 0; compactions merge files into deeper
    levels and drop versions no reader can see; a manifest records which files
    make up the store, and [CURRENT] names the manifest.  Readers see the
    newest version at or below a sequence number; snapshots fix that number,
    transactions check at their commit that nothing they read has changed.
    The library models that code function by function and proves what a client
    relies on, up to the calls of [DB].

    ** The parts and where they are modelled

    Sources are relative to [src/src/].  A definition has the name of the
    function it models, with a prefix when several types have a method of that
    name ([bm_get], [sl_get]: the two memtables; [db_get]: [DB::get]).

    - [Prelude.v]: results and errors ([error.rs]), the state and error monad
      [M], loops, machine integers, the laws of an order, sorting.
    - [Key.v] ([key/]): internal keys and their order.  [Spec.v]: what a read
      of a multiset of versions returns, the reference of all read theorems.
    - [Coding.v], [Bloom.v], [Options.v], [Metrics.v]: [util/coding.rs],
      [util/bloom.rs] with [table/filter.rs], [options.rs], [metrics.rs] with
      [util/rate_limiter.rs].  [f64] arithmetic is that of [SpecFloat].
    - [Memtable.v] ([memtable/]), [Iterators.v] ([iterator/]), [Batch.v]
      ([batch.rs]).
    - [Env.v] ([env/]): files, directories and file names.  The file system is
      a value [Fs] with a list of events, the oracle, that makes any single
      operation fail, also after part of a write or with a short read; an
      empty oracle is a file system that does not fail.
    - [Wal.v] ([wal/]): the record format, the writer and the reader.
    - [Format.v], [Block.v], [Properties.v], [Table.v], [Reader.v]
      ([table/]): handles and index, blocks, table properties, the builder,
      the reader and its iterators.  [Cache.v], [TableCache.v]: [cache/].
    - [Version.v] ([version/]): versions, edits, the manifest, the version set.
    - [Compact.v] ([compact/], and [split_compaction_entries] of [db.rs]).
    - [Mvcc.v] ([mvcc/]): watermark, snapshots, transactions, against the
      interface [Database] of what they call.
    - [db.rs]: [DbState.v] (state, batches, rotation), [DbRead.v] (reads,
      scans, conflict check), [DbFlush.v], [DbCompact.v], [DbWrite.v] (write
      path, commit, recovery, [DB::open]), [DbQueue.v] (the queue of writers,
      their condition variables and the steps of their threads).  The other
      [Db*] files are proofs:
      [DbMem.v] (memtables), [DbInv.v] (the layout of an open database),
      [DbFlushOk.v], [DbSettled.v] (a database between two calls), [DbLevels.v],
      [DbCompactIo.v], [DbCompactOk.v], [DbCompactRun.v], [DbCompactReads.v]
      (compaction), [DbGroup.v] (group commit), [DbWriteOk.v], [DbCommitOk.v]
      (transactions on the database), [DbOpen.v], [DbCrash.v], [DbSession.v] and
      [DbSessionOk.v] (the contract of the store), [DbFaults.v] (runs on a file
      system that fails), [DbFlushCrash.v] (a flush that stops anywhere),
      [DbWriteCrash.v] (a write that stops anywhere), [DbReadFaults.v] (reads
      that meet I/O errors), [DbUnlocked.v] (reads that have released their
      lock), [DbQueueOk.v] (the queue),
      [DbLinear.v] (writers and readers), [DbFindings.v] (runs that go wrong).
    - [Fuzz.v] ([bin/fuzz_model.rs]): the fuzz target.

    ** State and operations

    A method is a function [M S A := S -> res A * S]: it threads the state it
    may change and returns [Ok], an error of the source, or [Panic] where the
    code would panic (an index out of range, a failed [expect], overflow of a
    capacity).  [Db] is [DBInner] with the file system: what its mutexes hold
    in one record.  A method is one step in most theorems.  Not all of them hold
    a lock throughout: a call of [DB::write] is also modelled as the steps of
    its thread ([DbQueue.v]), and point reads, scans and the conflict check
    release the lock on the state before they search the tables they cloned.
    A read is the composition of its two parts ([get_opt_halves],
    [scan_iter_halves]); [unlocked_read_same] lets other threads change the
    database between them, and the answer is the one of the moment the lock was
    held as long as the files of its tables stay.  A compaction may delete
    them, and such a read fails ([late_get_after_compaction]).

    ** What is proved

    - Formats: what the encoders write the decoders read back (varints, keys,
      batches, blocks, properties, filters, edits, tables), for all inputs in
      the widths of the format; a block whose checksum is wrong is reported;
      decoders and the log reader are total.
    - Data structures: both memtables against the specification of reads, and
      against each other; merging, concatenation and row iterators against
      sorted unions and live rows; the block cache; point reads, seeks and
      scans of a table file with any contents of the cache.
    - Versions: edits change what they name; file numbers are fresh; recovery
      of a manifest gives back the files of every level, the last sequence, the
      log number and the manifest number, and a file counter above every number
      in use; the running counter itself is not restored, since allocations are
      not logged ([recover_restores]).  A crash inside [log_and_apply] or
      [set_current] leaves the old or the new state.
    - Compaction: the output holds exactly the versions a reader at or above
      the watermark may need; what the picker picks. [execute_compaction] of a
      task on all of level 0 or on one table of a deeper level, with outputs
      that fit ([task_fits]), reads its tables, writes and installs the new
      ones, logs the edits, moves the state to the new version and deletes the
      inputs: the database is in order again and no read of now or through a
      live snapshot changes ([compaction_keeps_reads]). A task is placed in the levels by
      [DbLevels.v] ([Place]: level 0 or a deeper one, [plug]: the levels
      around it), its reads are those of Compact's [compaction_live], its
      edits and files are followed by [rebuilt] in [DbCompactOk.v].
    - MVCC: the watermark is the oldest live snapshot for every sequence of
      creations, clones and drops; transactions read their snapshot and their
      own writes, and those that pass the conflict check serialize at their
      commit; the conflict check is exact.
    - The database: [state_ok] (sorted runs, newer above older, disjoint files
      below level 0, consistent versions) and [layout] (files, caches,
      manifest, log and counters in step with the state) are kept by every
      operation within the conditions of its lemma; reads and scans return the
      specification's answer; the batches of a group that do not opt out of the log are logged before any
      of the group is applied, and failures apply nothing; after a stop
      anywhere in the logging of a group without such batches, opening gives
      the acknowledged writes and whole batches only.
    - Failures: a run is [careful] when it reports an I/O error or does what
      the run without failures does, and changes no file but those it names; a
      judgement with a rule per construct of the code, and with a class for
      iterators ([CarefulIterator]).  From it: a read, scan or conflict check on
      a failing file system gives the right answer or the error, and leaves the
      cache in step with the files ([failing_reads_honest]); a flush stopped at
      any operation leaves files from which opening gives everything the
      database had, if no more than one memtable has entries, the mutable one
      or one that a write has just frozen ([flush_crash_keeps_all], by the four
      stages of its edits, [FlushStage]); and a [DB::write] of one batch
      stopped anywhere, in its log, after it or in the flush it causes, is kept
      or lost as a whole ([write_crash_keeps_whole]).  With two frozen
      memtables, which one group can cause, a flush forgets the log of the
      second ([DbFindings.frozen_memtable_lost]); and a compaction that stops
      can lose data, as it logs the deletion of its inputs first
      ([DbFindings.interrupted_compaction_loses]).  All of this is about a
      process that stops: the bytes written so far are in the files, so no
      theorem would notice a missing [sync_all].
    - Concurrent writers: the calls of [DB::write] take their steps in any
      order, with anything happening to the database in between.  The queue
      stays well formed, every caller is answered unless the leader of its
      group panics, each batch is given to the database at most once and a
      success was applied, and logged unless it opted out; a call alone computes [db_write].  Where
      every step has room ([step_room]), writes and reads of now are
      linearizable ([writes_linearize]): a read sees the groups applied before
      it, in their order; reads are one step there, and no writer compacts.
    - The contract of the store: [session_refines_map].  A map with snapshots
      and serializable transactions is the abstract machine ([model_step]), and
      sequences of calls on the database (writes, reads, scans, snapshots,
      transactions that overlap, flushes, compactions), down to the bytes in its
      files, simulate it, also across reopening.  [DbCommitOk.v] shows that the
      database keeps the interface [DatabaseOk] the transactions of [Mvcc.v] are
      proved against, and that a commit writes or conflicts.  What a call
      needs is [request_ok]: the log on and no write that opts out of it, room
      for what it writes, and for a compaction outputs that fit and a task on
      all of level 0 or on one table of a deeper level, which is what every
      pick makes but a manual one whose range cuts level 0.
      [DbFindings.v] shows what happens without these.  The fuzz target, which
      compares the database with an ordered map, passes on every input whose
      calls have room ([fuzz_case_passes]).

    ** Bounds, fuel and parameters

    Loops of the source that end by consuming their input are recursive on
    fuel taken from its length; theorems say that the fuel is enough
    ([wal_for_each_total], and the functional theorems of the iterators and
    readers, which give a result for all inputs).  Additions of the source
    wrap where a release build wraps; theorems assume room where a counter
    would wrap ([2^64] sequence numbers, [2^62] file numbers) and lengths
    below the widths of the formats.

    Code outside the repository is a parameter: the checksum and the
    compressor ([Externals], with the laws a codec has), the concurrent skip
    list of the crossbeam crate ([arena_skip_map]: an ordered map), the
    iteration order of hash maps ([HashOrder], [NumberHashOrder]: some key of
    the map) and messages of the operating system ([OsMessages]).  Each has a
    concrete instance, with which the examples are evaluated.

    ** Not modelled

    [main.rs] opens a database and prints its path; [util/crc.rs] is one call
    of a crate; [main] of the fuzz target reads its input.  In [DbQueue.v] the
    parts of a leader's work on the database (admission, log and apply, flush)
    are single steps, and poisoned locks are not modelled.  Worker threads of a
    compaction run one after the other.  Time is a counter without a bound
    that sleeping advances.  Loss of power is not modelled, only a process that
    stops. *)

From Stdlib Require Export ZArith Lia.
From Stdlib Require Import Sorting.Sorted.
From stdpp Require Export base gmap sets list strings.
From stdpp Require Import sorting.

#[global] Open Scope Z_scope.
#[global] Set Default Goal Selector "!".

(** ** Machine integers

    Unsigned integers of the source are values of [Z]; a cast [x as u32] is a
    reduction modulo the width.  [usize] is 64 bits wide. *)

Abbreviation u8 := Z (only parsing).
Abbreviation u32 := Z (only parsing).
Abbreviation u64 := Z (only parsing).
Abbreviation usize := Z (only parsing).
Abbreviation bytes := (list Z) (only parsing).

Definition wrap (w z : Z) : Z := z mod 2 ^ w.
Abbreviation wrap8 := (wrap 8).
Abbreviation wrap32 := (wrap 32).
Abbreviation wrap64 := (wrap 64).

Definition u8_ok (z : Z) : Prop := 0 <= z < 2 ^ 8.
Definition u32_ok (z : Z) : Prop := 0 <= z < 2 ^ 32.
Definition u64_ok (z : Z) : Prop := 0 <= z < 2 ^ 64.
Definition u64_max : Z := 2 ^ 64 - 1.

(** [Vec::len]. *)
Definition len {A} (l : list A) : Z := Z.of_nat (length l).

Lemma len_nonneg {A} (l : list A) : 0 <= len l.
Proof. unfold len. lia. Qed.

Lemma len_app {A} (l k : list A) : len (l ++ k) = len l + len k.
Proof. unfold len. rewrite length_app. lia. Qed.

Lemma len_cons {A} (x : A) (l : list A) : len (x :: l) = 1 + len l.
Proof. unfold len. simpl length. lia. Qed.

Lemma len_nil {A} : len (@nil A) = 0.
Proof. reflexivity. Qed.

Lemma to_nat_len {A} (l : list A) : Z.to_nat (len l) = length l.
Proof. unfold len. lia. Qed.

Lemma wrap_small w z : 0 <= z < 2 ^ w -> wrap w z = z.
Proof. apply Z.mod_small. Qed.

Lemma wrap_range w z : 0 <= w -> 0 <= wrap w z < 2 ^ w.
Proof. intros. apply Z.mod_pos_bound. lia. Qed.

(** A length of less than [2^32] survives the cast to [u32]. *)
Lemma wrap32_len {A} (l : list A) : len l < 2 ^ 32 -> wrap32 (len l) = len l.
Proof. intros. apply wrap_small. pose proof (len_nonneg l). lia. Qed.

(** ** Little-endian words ([to_le_bytes], [from_le_bytes]) *)

Fixpoint to_le_bytes (n : nat) (v : Z) : bytes :=
  match n with
  | O => []
  | S n => v mod 256 :: to_le_bytes n (v / 256)
  end.

Definition from_le_bytes (bs : bytes) : Z :=
  foldr (fun b acc => b + 256 * acc) 0 bs.

Lemma length_to_le_bytes n v : length (to_le_bytes n v) = n.
Proof. revert v; induction n; simpl; congruence. Qed.

Lemma from_to_le_bytes n v :
  0 <= v < 256 ^ Z.of_nat n -> from_le_bytes (to_le_bytes n v) = v.
Proof.
  revert v; induction n as [|n IH]; intros v Hv.
  - simpl in *. change (256 ^ 0) with 1 in Hv. lia.
  - cbn [to_le_bytes]. unfold from_le_bytes. cbn [foldr].
    fold (from_le_bytes (to_le_bytes n (v / 256))).
    rewrite Nat2Z.inj_succ, Z.pow_succ_r in Hv by lia.
    rewrite IH.
    + rewrite Z.add_comm. symmetry. apply Z.div_mod. lia.
    + split; [apply Z.div_pos; lia | apply Z.div_lt_upper_bound; lia].
Qed.

(** ** Errors and outcomes

    [res] is what a call produces: the two constructors of Rust's [Result]
    with the [Error] of [error.rs], and [Panic] for an [expect], an index out
    of range or an [unwrap] that fails. *)

Inductive io_kind : Type :=
  | NotFound
  | UnexpectedEof
  | InvalidData
  | OtherIo.

#[export] Instance io_kind_eq_dec : EqDecision io_kind.
Proof. solve_decision. Defined.

Inductive error : Type :=
  | InvalidArgument (msg : string)
  | Corruption (msg : string)
  | Io (kind : io_kind)
  | Closed
  | Unsupported (feature : string)
  | TransactionConflict (msg : string).

#[export] Instance error_eq_dec : EqDecision error.
Proof. solve_decision. Defined.

Inductive res (A : Type) : Type :=
  | Ok (a : A)
  | Err (e : error)
  | Panic.
Arguments Ok {A} _.
Arguments Err {A} _.
Arguments Panic {A}.

#[export] Instance res_eq_dec {A} `{EqDecision A} : EqDecision (res A).
Proof. solve_decision. Defined.

Definition res_ok {A} (r : res A) : option A :=
  match r with Ok a => Some a | _ => None end.

Definition is_err {A} (r : res A) : bool :=
  match r with Err _ => true | _ => false end.

(** A loop whose body may return an error. *)
Fixpoint fold_res {A B} (f : B -> A -> res A) (acc : A) (xs : list B) : res A :=
  match xs with
  | [] => Ok acc
  | x :: xs =>
      match f x acc with
      | Ok acc => fold_res f acc xs
      | Err e => Err e
      | Panic => Panic
      end
  end.

(** ** The state and error monad

    A method [fn f(&mut self) -> Result<A>] is a function [M S A] from the
    state it mutates to its outcome and the state it leaves, an error's
    included.  A parser over [&mut &[u8]] is the case [S = bytes]. *)

Definition M (S A : Type) : Type := S -> res A * S.

#[export] Instance M_ret {S} : MRet (M S) := fun A a s => (Ok a, s).
#[export] Instance M_bind {S} : MBind (M S) := fun A B f m s =>
  match m s with
  | (Ok a, s') => f a s'
  | (Err e, s') => (Err e, s')
  | (Panic, s') => (Panic, s')
  end.

#[export] Instance res_ret : MRet res := fun A a => Ok a.
#[export] Instance res_bind : MBind res := fun A B f m =>
  match m with
  | Ok a => f a
  | Err e => Err e
  | Panic => Panic
  end.

#[export] Instance res_fmap : FMap res := fun A B f m =>
  match m with
  | Ok a => Ok (f a)
  | Err e => Err e
  | Panic => Panic
  end.

Definition fail {S A} (e : error) : M S A := fun s => (Err e, s).
Definition panic {S A} : M S A := fun s => (Panic, s).
Definition lift {S A} (r : res A) : M S A := fun s => (r, s).
Definition get_state {S} : M S S := fun s => (Ok s, s).
Definition put_state {S} (s : S) : M S unit := fun _ => (Ok tt, s).
Definition modify {S} (f : S -> S) : M S unit := fun s => (Ok tt, f s).

(** Running a method of a component inside the state that holds it. *)
Definition zoom {S T A} (get : S -> T) (set : T -> S -> S) (m : M T A) : M S A :=
  fun s => let '(r, t) := m (get s) in (r, set t s).

(** A block with a local object [l] that its methods mutate, dropped at the
    end. *)
Definition with_local {L S A} (l : L) (m : M (L * S) A) : M S A :=
  fun s => let '(r, (_, s)) := m (l, s) in (r, s).

Lemma bind_ok {S A B} (m : M S A) (f : A -> M S B) s a s' :
  m s = (Ok a, s') -> mbind f m s = f a s'.
Proof. intros H. unfold mbind, M_bind. by rewrite H. Qed.

Lemma bind_get_state {S B} (f : S -> M S B) s : mbind f get_state s = f s s.
Proof. done. Qed.

Lemma bind_modify {S B} (g : S -> S) (f : unit -> M S B) s :
  mbind f (modify g) s = f tt (g s).
Proof. done. Qed.

Lemma bind_err {S A B} (m : M S A) (f : A -> M S B) s e s' :
  m s = (Err e, s') -> mbind f m s = (Err e, s').
Proof. intros H. unfold mbind, M_bind. by rewrite H. Qed.

Lemma bind_assoc {S A B C} (m : M S A) (f : A -> M S B) (g : B -> M S C) s :
  mbind g (mbind f m) s = mbind (fun a => mbind g (f a)) m s.
Proof. unfold mbind, M_bind. by destruct (m s) as [[]]. Qed.

Lemma bind_ext {S A B} (m : M S A) (f g : A -> M S B) s :
  (forall a s, f a s = g a s) -> mbind f m s = mbind g m s.
Proof. intros E. unfold mbind, M_bind. destruct (m s) as [[]]; [apply E | done..]. Qed.

Lemma bind_ret {S A B} (a : A) (f : A -> M S B) s : mbind f (mret a) s = f a s.
Proof. done. Qed.

Lemma bind_inv {S A B} (m : M S A) (f : A -> M S B) s b s' :
  mbind f m s = (Ok b, s') -> exists a s1, m s = (Ok a, s1) /\ f a s1 = (Ok b, s').
Proof.
  unfold mbind, M_bind. destruct (m s) as [[a|e|] s1]; intros H; try discriminate.
  eauto.
Qed.

(** A method that returns or fails, whatever the state. *)
Definition no_panic {S A} (m : M S A) : Prop := forall s, (m s).1 <> Panic.

Lemma no_panic_bind {S A B} (m : M S A) (f : A -> M S B) :
  no_panic m -> (forall a, no_panic (f a)) -> no_panic (mbind f m).
Proof.
  intros Hm Hf s. unfold mbind, M_bind. specialize (Hm s).
  destruct (m s) as [[a|e|] s']; [apply Hf | done | done].
Qed.

Lemma no_panic_zoom {S T A} (get : S -> T) set (m : M T A) :
  no_panic m -> no_panic (zoom get set m).
Proof. intros Hm s. unfold zoom. specialize (Hm (get s)). by destruct (m (get s)). Qed.

(** [for _ in 0..n]: the body threads the locals the loop mutates. *)
Fixpoint for_range {S A} (n : nat) (body : A -> M S A) (acc : A) : M S A :=
  match n with
  | O => mret acc
  | S n => acc ← body acc; for_range n body acc
  end.

(** [for x in xs]. *)
Fixpoint for_each {S A X} (xs : list X) (body : X -> A -> M S A) (acc : A) : M S A :=
  match xs with
  | [] => mret acc
  | x :: xs => acc ← body x acc; for_each xs body acc
  end.

(** A counted loop that decodes items and pushes them reads back the
    concatenation of their encodings. *)
Lemma for_range_decode {A X} (enc : X -> bytes) (push : A -> X -> A)
    (body : A -> M bytes A) (xs : list X) (acc : A) (rest : bytes) :
  Forall (fun x => forall acc rest, body acc (enc x ++ rest) = (Ok (push acc x), rest)) xs ->
  for_range (length xs) body acc (concat (map enc xs) ++ rest)
  = (Ok (foldl push acc xs), rest).
Proof.
  intros H. revert acc. induction H as [|x xs Hx _ IH]; intros acc; simpl; [done|].
  rewrite <- app_assoc. erewrite bind_ok by apply Hx. apply IH.
Qed.

Lemma for_each_app {S A X} (xs ys : list X) (body : X -> A -> M S A) acc s a s' :
  for_each xs body acc s = (Ok a, s') ->
  for_each (xs ++ ys) body acc s = for_each ys body a s'.
Proof.
  revert acc s. induction xs as [|x xs IH]; intros acc s; simpl.
  - by intros [= -> ->].
  - intros H. apply bind_inv in H as (a1 & s1 & H1 & H2).
    erewrite bind_ok by exact H1. by apply IH.
Qed.

Lemma for_each_snoc_inv {S A X} (xs : list X) x (body : X -> A -> M S A) acc s a s' :
  for_each (xs ++ [x]) body acc s = (Ok a, s') ->
  exists a1 s1, for_each xs body acc s = (Ok a1, s1) /\ body x a1 s1 = (Ok a, s').
Proof.
  revert acc s. induction xs as [|y xs IH]; intros acc s; cbn [app for_each].
  - intros (a1 & s1 & E & [= <- <-])%bind_inv. by exists acc, s.
  - intros (a1 & s1 & E & (a2 & s2 & E2 & E3)%IH)%bind_inv.
    exists a2, s2. by rewrite (bind_ok _ _ _ _ _ E).
Qed.

Lemma foldl_push {X} (xs acc : list X) : foldl (fun l x => l ++ [x]) acc xs = acc ++ xs.
Proof.
  revert acc. induction xs as [|x xs IH]; intros acc; simpl; [by rewrite app_nil_r|].
  rewrite IH. by rewrite <- app_assoc.
Qed.

(** An element is none of the listed ones when it differs from each of them. *)
Ltac not_among :=
  let Hin := fresh in
  intros Hin; repeat (let E := fresh in apply elem_of_cons in Hin as [E | Hin]; [revert E |]);
  try (by apply elem_of_nil in Hin).

Lemma elem_of_concat {A} (x : A) (ls : list (list A)) :
  x ∈ concat ls <-> exists l, x ∈ l /\ l ∈ ls.
Proof.
  induction ls as [|l ls IH]; cbn [concat].
  - rewrite elem_of_nil. split; [done|]. by intros (l & _ & Hl%elem_of_nil).
  - rewrite elem_of_app, IH. split.
    + intros [Hx | (k & Hx & Hk)]; [exists l | exists k]; (split; [done|]); by constructor.
    + intros (k & Hx & [-> | Hk]%elem_of_cons); [by left | right; by exists k].
Qed.

Lemma concat_nonempty_length {A} (ls : list (list A)) :
  Forall (fun l => l <> []) ls -> (length ls <= length (concat ls))%nat.
Proof.
  induction 1 as [|l ls Hl _ IH]; [simpl; lia|]. cbn [concat length]. rewrite length_app.
  destruct l; [done | simpl; lia].
Qed.

Lemma bind_res_inv {A B} (m : res A) (f : A -> res B) b :
  mbind f m = Ok b -> exists a, m = Ok a /\ f a = Ok b.
Proof. destruct m; simpl; intros H; try discriminate. eauto. Qed.

(** ** Orders

    The orders the code relies on are [Ord] implementations; their laws are
    an interface, so that the lemmas on sorted lists are proved once. *)

Class OrdLaws {K : Type} (cmp : K -> K -> comparison) : Prop := {
  ord_eq : forall a b, cmp a b = Eq <-> a = b;
  ord_antisym : forall a b, cmp b a = CompOpp (cmp a b);
  ord_trans : forall a b c, cmp a b = Lt -> cmp b c = Lt -> cmp a c = Lt
}.

#[export] Instance Z_ord : OrdLaws Z.compare.
Proof.
  split.
  - apply Z.compare_eq_iff.
  - intros. apply Z.compare_antisym.
  - intros a b c. rewrite !Z.compare_lt_iff. lia.
Qed.

(** [Ordering::then_with]. *)
Definition then_with (c d : comparison) : comparison :=
  match c with Eq => d | _ => c end.

(** [<], [<=], [>=], [>] of an [Ord]. *)
Definition ltb {K} (cmp : K -> K -> comparison) (a b : K) : bool :=
  match cmp a b with Lt => true | _ => false end.
Definition leb {K} (cmp : K -> K -> comparison) (a b : K) : bool :=
  match cmp a b with Gt => false | _ => true end.

Section ord.
Context {K : Type} (cmp : K -> K -> comparison) `{!OrdLaws cmp}.

Lemma ord_refl a : cmp a a = Eq.
Proof. by apply ord_eq. Qed.

Lemma ord_gt_lt a b : cmp a b = Gt <-> cmp b a = Lt.
Proof. rewrite (ord_antisym (cmp:=cmp) a b). destruct (cmp a b); simpl; split; congruence. Qed.

Lemma ord_irrefl a : cmp a a <> Lt.
Proof. rewrite ord_refl. discriminate. Qed.

Lemma ord_asym a b : cmp a b = Lt -> cmp b a <> Lt.
Proof. intros H1 H2. by apply (ord_irrefl a), (ord_trans a b a). Qed.

(** [a <= b] as a proposition. *)
Definition ord_le (a b : K) : Prop := cmp a b <> Gt.

Lemma ord_le_lteq a b : ord_le a b <-> cmp a b = Lt \/ a = b.
Proof.
  unfold ord_le. rewrite <- (ord_eq (cmp:=cmp) a b). destruct (cmp a b); intuition congruence.
Qed.

Lemma ord_le_refl a : ord_le a a.
Proof. apply ord_le_lteq. by right. Qed.

Lemma ord_le_trans a b c : ord_le a b -> ord_le b c -> ord_le a c.
Proof.
  rewrite !ord_le_lteq. intros [H1 | ->] [H2 | ->]; auto.
  left. by apply (ord_trans a b c).
Qed.

Lemma ord_lt_le_trans a b c : cmp a b = Lt -> ord_le b c -> cmp a c = Lt.
Proof. rewrite ord_le_lteq. intros H1 [H2 | ->]; [by apply (ord_trans a b c) | done]. Qed.

Lemma ord_le_lt_trans a b c : ord_le a b -> cmp b c = Lt -> cmp a c = Lt.
Proof. rewrite ord_le_lteq. intros [H1 | ->] H2; [by apply (ord_trans a b c) | done]. Qed.

Lemma ord_lt_le a b : cmp a b = Lt -> ord_le a b.
Proof. intros H. apply ord_le_lteq. by left. Qed.

Lemma ord_not_le a b : ~ ord_le a b <-> cmp b a = Lt.
Proof.
  unfold ord_le. rewrite <- ord_gt_lt. destruct (cmp a b); intuition congruence.
Qed.

Lemma ord_le_or a b : ord_le a b \/ cmp b a = Lt.
Proof. rewrite <- ord_gt_lt. unfold ord_le. destruct (cmp a b); auto; left; congruence. Qed.

Lemma ord_le_total a b : ord_le a b \/ ord_le b a.
Proof.
  unfold ord_le. rewrite (ord_antisym (cmp:=cmp) a b). destruct (cmp a b); simpl; intuition congruence.
Qed.

Lemma ord_le_antisym a b : ord_le a b -> ord_le b a -> a = b.
Proof.
  rewrite !ord_le_lteq. intros [H1 | ->] [H2 | E]; auto.
  by apply ord_asym in H1.
Qed.

Lemma ltb_lt a b : ltb cmp a b = true <-> cmp a b = Lt.
Proof. unfold ltb. destruct (cmp a b); split; congruence. Qed.

Lemma leb_le a b : leb cmp a b = true <-> ord_le a b.
Proof. unfold leb, ord_le. destruct (cmp a b); split; congruence. Qed.

Lemma ltb_leb a b : ltb cmp a b = negb (leb cmp b a).
Proof. unfold ltb, leb. rewrite (ord_antisym (cmp:=cmp) a b). by destruct (cmp a b). Qed.

Lemma ord_total3 a b : cmp a b = Lt \/ a = b \/ cmp b a = Lt.
Proof.
  rewrite <- (ord_eq (cmp:=cmp) a b), <- (ord_gt_lt a b). destruct (cmp a b); auto.
Qed.
End ord.

#[export] Instance nat_ord : OrdLaws Nat.compare.
Proof.
  split.
  - apply Nat.compare_eq_iff.
  - intros. apply Nat.compare_antisym.
  - intros a b c. rewrite !Nat.compare_lt_iff. lia.
Qed.

(** The lexicographic product of two orders. *)
Definition pair_cmp {K L} (c : K -> K -> comparison) (d : L -> L -> comparison)
    (x y : K * L) : comparison :=
  then_with (c x.1 y.1) (d x.2 y.2).

#[export] Instance pair_ord {K L} (c : K -> K -> comparison) (d : L -> L -> comparison)
    `{!OrdLaws c, !OrdLaws d} : OrdLaws (pair_cmp c d).
Proof.
  unfold pair_cmp, then_with. split.
  - intros [a b] [a' b']; simpl. destruct (c a a') eqn:E.
    + apply (ord_eq (cmp := c)) in E as ->. rewrite (ord_eq (cmp := d)). split; congruence.
    + split; [done|]. intros [= <- <-]. by rewrite (ord_refl c) in E.
    + split; [done|]. intros [= <- <-]. by rewrite (ord_refl c) in E.
  - intros [a b] [a' b']; simpl.
    rewrite (ord_antisym (cmp := c) a a'), (ord_antisym (cmp := d) b b').
    by destruct (c a a').
  - intros [a1 b1] [a2 b2] [a3 b3]; simpl.
    destruct (c a1 a2) eqn:E1; try done; intros H1;
      [apply (ord_eq (cmp := c)) in E1 as -> |].
    + destruct (c a2 a3) eqn:E2; try done. apply (ord_trans (cmp := d)). done.
    + destruct (c a2 a3) eqn:E2; try done; intros H2;
        [apply (ord_eq (cmp := c)) in E2 as <-; by rewrite E1 |].
      by rewrite (ord_trans (cmp := c) _ _ _ E1 E2).
Qed.

(** The lexicographic order of [[u8]]. *)
Fixpoint bytes_cmp (l k : bytes) : comparison :=
  match l, k with
  | [], [] => Eq
  | [], _ :: _ => Lt
  | _ :: _, [] => Gt
  | a :: l, b :: k => then_with (a ?= b) (bytes_cmp l k)
  end.

#[export] Instance bytes_ord : OrdLaws bytes_cmp.
Proof.
  split.
  - induction a as [|x a IH]; intros [|y b]; simpl; split; try congruence.
    + unfold then_with. destruct (Z.compare_spec x y); try discriminate.
      intros ->%IH. congruence.
    + intros [= -> ->]. rewrite Z.compare_refl. by apply IH.
  - induction a as [|x a IH]; intros [|y b]; simpl; auto.
    rewrite (Z.compare_antisym x y). destruct (x ?= y); simpl; auto.
  - induction a as [|x a IH]; intros [|y b] [|z c]; simpl; try congruence.
    unfold then_with.
    destruct (Z.compare_spec x y) as [->|?|?], (Z.compare_spec y z) as [->|?|?];
      intros H1 H2; try discriminate.
    all: try (match goal with |- context [?a ?= ?c] =>
      destruct (Z.compare_spec a c) as [?|?|?] end); try lia; eauto.
Qed.

(** Pairs compared by their keys. *)
Definition key_lt {K V} (cmp : K -> K -> comparison) (x y : K * V) : Prop :=
  cmp x.1 y.1 = Lt.
Definition key_le {K V} (cmp : K -> K -> comparison) (x y : K * V) : Prop :=
  ord_le cmp x.1 y.1.

#[export] Instance key_le_dec {K V} (cmp : K -> K -> comparison) (x y : K * V) :
  Decision (key_le cmp x y).
Proof. unfold key_le, ord_le. apply _. Defined.

(** ** Sorted association lists

    [BTreeMap<K, V>] is its list of pairs in ascending key order; iteration
    is the list itself.  [insert] replaces the value of a present key. *)

Section btree.
Context {K V : Type} (cmp : K -> K -> comparison).

Fixpoint bt_insert (k : K) (v : V) (m : list (K * V)) : list (K * V) :=
  match m with
  | [] => [(k, v)]
  | (k', v') :: m' =>
      match cmp k k' with
      | Lt => (k, v) :: m
      | Eq => (k', v) :: m'
      | Gt => (k', v') :: bt_insert k v m'
      end
  end.

Fixpoint bt_get (k : K) (m : list (K * V)) : option V :=
  match m with
  | [] => None
  | (k', v') :: m' => match cmp k k' with Eq => Some v' | _ => bt_get k m' end
  end.

Fixpoint bt_remove (k : K) (m : list (K * V)) : list (K * V) :=
  match m with
  | [] => []
  | (k', v') :: m' =>
      match cmp k k' with Eq => m' | _ => (k', v') :: bt_remove k m' end
  end.

(** [range(k..)]: the entries whose key is at least [k], in order. *)
Definition bt_range_from (k : K) (m : list (K * V)) : list (K * V) :=
  filter (fun e => leb cmp k e.1 = true) m.

Definition bt_first (m : list (K * V)) : option (K * V) := head m.

Abbreviation sorted := (StronglySorted (key_lt cmp)).

Context `{!OrdLaws cmp}.

Lemma bt_insert_elem k v m e :
  e ∈ bt_insert k v m -> e = (k, v) \/ e ∈ m.
Proof.
  induction m as [|[k' v'] m IH]; simpl.
  - set_solver.
  - destruct (cmp k k') eqn:E; rewrite !elem_of_cons; try tauto.
    apply ord_eq in E as ->. tauto.
Qed.

Lemma bt_insert_sorted k v m : sorted m -> sorted (bt_insert k v m).
Proof.
  induction m as [|[k' v'] m IH]; simpl; intros Hs.
  - repeat constructor.
  - apply StronglySorted_inv in Hs as [Hs Hf].
    destruct (cmp k k') eqn:E.
    + by constructor.
    + constructor; [by constructor|]. constructor; [done|].
      eapply Forall_impl; [exact Hf|]. intros [k'' v'']; unfold key_lt; simpl.
      intros. by apply (ord_trans k k').
    + constructor; [by apply IH|]. apply Forall_forall. intros e He.
      apply bt_insert_elem in He as [-> | He].
      * unfold key_lt. simpl. by apply ord_gt_lt.
      * rewrite Forall_forall in Hf. by apply Hf.
Qed.

Lemma bt_insert_in k v m e :
  sorted m -> e ∈ bt_insert k v m <-> e = (k, v) \/ (e ∈ m /\ e.1 <> k).
Proof.
  induction m as [|[k' v'] m IH]; simpl; intros Hs.
  - rewrite list_elem_of_singleton, elem_of_nil. tauto.
  - apply StronglySorted_inv in Hs as [Hs Hf].
    rewrite Forall_forall in Hf. unfold key_lt in Hf; simpl in Hf.
    assert (Hne : forall e, e ∈ m -> cmp k k' <> Gt -> e.1 <> k).
    { intros e' He' Hc Hk. apply Hf in He'. rewrite Hk in He'.
      by apply Hc, ord_gt_lt. }
    destruct (cmp k k') eqn:E; rewrite !elem_of_cons.
    + apply ord_eq in E as ->. split.
      * intros [-> | He]; [by left|]. right. split; [by right|]. by apply Hne.
      * intros [-> | [[-> | He] Hk]]; [by left | simpl in Hk; congruence | by right].
    + split.
      * intros [-> | [-> | He]]; [by left | |].
        -- right. split; [by left|]. simpl. intros ->. by apply ord_irrefl in E.
        -- right. split; [by right|]. by apply Hne.
      * tauto.
    + rewrite (IH Hs). split.
      * intros [-> | [-> | [He Hk]]]; [|by left|tauto].
        right. split; [by left|]. simpl. intros ->.
        rewrite ord_refl in E by done. discriminate.
      * tauto.
Qed.

Lemma bt_get_in k v m : sorted m -> bt_get k m = Some v <-> (k, v) ∈ m.
Proof.
  induction m as [|[k' v'] m IH]; simpl; intros Hs; [by rewrite elem_of_nil|].
  apply StronglySorted_inv in Hs as [Hs Hf]. rewrite elem_of_cons.
  destruct (cmp k k') eqn:E.
  - apply ord_eq in E as ->. split; [intros [= ->]; by left|].
    intros [[= ->] | He]; [done|].
    rewrite Forall_forall in Hf. apply Hf in He. by apply ord_irrefl in He.
  - rewrite IH by done. split; [by right|]. intros [[= -> ->]|]; [|done].
    by apply ord_irrefl in E.
  - rewrite IH by done. split; [by right|]. intros [[= -> ->]|]; [|done].
    rewrite ord_refl in E by done. discriminate.
Qed.

Lemma bt_remove_in k m e : sorted m -> e ∈ bt_remove k m <-> e ∈ m /\ e.1 <> k.
Proof.
  induction m as [|[k' v'] m IH]; simpl; intros Hs;
    [rewrite elem_of_nil; tauto|].
  apply StronglySorted_inv in Hs as [Hs Hf]. rewrite Forall_forall in Hf.
  destruct (cmp k k') eqn:E; rewrite ?elem_of_cons, ?IH by done.
  - apply ord_eq in E as ->. split.
    + intros He. split; [by right|]. intros Hk. apply Hf in He.
      unfold key_lt in He. simpl in He. rewrite Hk in He. by apply ord_irrefl in He.
    + intros [[-> | He] Hk]; [simpl in Hk; congruence | done].
  - split; [|tauto]. intros [-> | He]; [|tauto]. split; [by left|].
    simpl. intros ->. by apply ord_irrefl in E.
  - split; [|tauto]. intros [-> | He]; [|tauto]. split; [by left|].
    simpl. intros ->. rewrite ord_refl in E by done. discriminate.
Qed.

Lemma bt_remove_sorted k m : sorted m -> sorted (bt_remove k m).
Proof.
  induction m as [|[k' v'] m IH]; simpl; intros Hs; [done|].
  pose proof Hs as Hs0. apply StronglySorted_inv in Hs as [Hs Hf].
  destruct (cmp k k'); [done|..].
  all: constructor; [by apply IH|]; apply Forall_forall; intros e He;
    rewrite Forall_forall in Hf; apply Hf; by apply bt_remove_in in He as [? _].
Qed.

Lemma bt_insert_keys k v m k' : sorted m -> k' ∈ (bt_insert k v m).*1 <-> k' = k \/ k' ∈ m.*1.
Proof.
  intros Hs. rewrite !list_elem_of_fmap. split.
  - intros ([k1 w] & -> & [[= -> ->]|[He _]]%bt_insert_in); [by left | right; by exists (k1, w) | done].
  - intros Hk. destruct (cmp k' k) eqn:E.
    1: { apply ord_eq in E as ->. exists (k, v). split; [done|]. apply bt_insert_in; [done | by left]. }
    all: assert (k' <> k) as Hne by (intros ->; by rewrite ord_refl in E);
      destruct Hk as [?|(e & -> & He)]; [done|]; exists e; (split; [done|]); apply bt_insert_in; auto.
Qed.

Lemma bt_get_insert_eq k v m : sorted m -> bt_get k (bt_insert k v m) = Some v.
Proof.
  intros Hs. apply bt_get_in; [by apply bt_insert_sorted|]. apply bt_insert_in; [done|]. by left.
Qed.

Lemma bt_get_insert_ne k k' v m :
  sorted m -> k' <> k -> bt_get k' (bt_insert k v m) = bt_get k' m.
Proof.
  intros Hs Hne. apply option_eq. intros w.
  rewrite !bt_get_in, bt_insert_in by (done || by apply bt_insert_sorted). cbn.
  split; [intros [[= -> ->]|[? _]] | intros ?; right]; done.
Qed.

Lemma bt_get_remove_eq k m : sorted m -> bt_get k (bt_remove k m) = None.
Proof.
  intros Hs. destruct (bt_get k (bt_remove k m)) as [v|] eqn:E; [|done].
  apply bt_get_in in E; [|by apply bt_remove_sorted]. apply bt_remove_in in E as [_ E]; done.
Qed.

Lemma bt_get_remove_ne k k' m :
  sorted m -> k' <> k -> bt_get k' (bt_remove k m) = bt_get k' m.
Proof.
  intros Hs Hne. apply option_eq. intros w.
  rewrite !bt_get_in, bt_remove_in by (done || by apply bt_remove_sorted). cbn. tauto.
Qed.

Lemma bt_get_none k m : sorted m -> bt_get k m = None <-> forall v, (k, v) ∉ m.
Proof.
  intros Hs. split.
  - intros H v Hv. apply bt_get_in in Hv; [congruence | done].
  - intros H. destruct (bt_get k m) as [v|] eqn:E; [|done].
    apply bt_get_in in E; [|done]. by apply H in E.
Qed.
End btree.

(** ** [slice::sort_by], a stable sort *)

Section sort.
Context {A : Type} (cmp : A -> A -> comparison).

Fixpoint sort_insert (x : A) (l : list A) : list A :=
  match l with
  | [] => [x]
  | y :: l' => match cmp x y with Gt => y :: sort_insert x l' | _ => x :: l end
  end.

Definition sort_by (l : list A) : list A := foldr sort_insert [] l.

Lemma sort_insert_perm x l : sort_insert x l ≡ₚ x :: l.
Proof.
  induction l as [|y l IH]; simpl; [done|].
  destruct (cmp x y); [done..|]. rewrite IH. apply Permutation_swap.
Qed.

Lemma sort_by_perm l : sort_by l ≡ₚ l.
Proof.
  induction l as [|x l IH]; simpl; [done|]. by rewrite sort_insert_perm, IH.
Qed.

Lemma sort_by_elem x l : x ∈ sort_by l <-> x ∈ l.
Proof. by rewrite sort_by_perm. Qed.

Lemma sort_by_length l : length (sort_by l) = length l.
Proof. by rewrite sort_by_perm. Qed.

Lemma sort_by_id l :
  StronglySorted (fun x y => cmp x y <> Gt) l -> sort_by l = l.
Proof.
  induction 1 as [|x l Hs IH Hf]; simpl; [done|]. rewrite IH.
  destruct Hf as [|y l Hy]; simpl; [done|]. by destruct (cmp x y).
Qed.
End sort.

(** Sorting by a key of the elements. *)
Section sort_on.
Context {A K : Type} (f : A -> K) (cmp : K -> K -> comparison) `{!OrdLaws cmp}.

Definition cmp_on (x y : A) : comparison := cmp (f x) (f y).
Definition le_on (x y : A) : Prop := ord_le cmp (f x) (f y).

Lemma sort_insert_sorted x l :
  StronglySorted le_on l -> StronglySorted le_on (sort_insert cmp_on x l).
Proof.
  induction 1 as [|y l Hs IH Hf]; simpl; [repeat constructor|].
  destruct (cmp_on x y) eqn:E.
  1,2: constructor; [by constructor|]; constructor;
    [unfold le_on, ord_le, cmp_on in *; congruence|];
    eapply Forall_impl; [exact Hf|]; intros z Hz;
    apply (ord_le_trans cmp _ (f y)); [unfold ord_le, cmp_on in *; congruence | exact Hz].
  constructor; [done|]. rewrite Forall_forall in Hf |- *. intros z Hz.
  rewrite sort_insert_perm, elem_of_cons in Hz. destruct Hz as [-> | Hz].
  - apply (ord_lt_le cmp). by apply ord_gt_lt.
  - by apply Hf.
Qed.

Lemma sort_on_sorted l : StronglySorted le_on (sort_by cmp_on l).
Proof.
  induction l as [|x l IH]; simpl; [constructor|]. by apply sort_insert_sorted.
Qed.
End sort_on.

(** Sorting pairs by their key. *)
Definition cmp_key {K V} (cmp : K -> K -> comparison) : K * V -> K * V -> comparison :=
  cmp_on fst cmp.

Lemma sort_by_sorted {K V} (cmp : K -> K -> comparison) `{!OrdLaws cmp} (l : list (K * V)) :
  StronglySorted (key_le cmp) (sort_by (cmp_key cmp) l).
Proof. apply (sort_on_sorted fst cmp). Qed.

(** Sorting pairs by key: the smallest element can be taken out first, and
    filtering commutes with sorting. *)
Section sort_more.
Context {K V : Type} (cmp : K -> K -> comparison) `{!OrdLaws cmp}.
Implicit Types (x y : K * V) (l : list (K * V)).

Lemma sort_extract l1 x l2 :
  Forall (fun y => key_lt cmp x y) l1 -> Forall (fun y => key_le cmp x y) l2 ->
  sort_by (cmp_key cmp) (l1 ++ x :: l2) = x :: sort_by (cmp_key cmp) (l1 ++ l2).
Proof.
  intros H1 H2. induction H1 as [|y l1 Hy _ IH]; simpl.
  - destruct (sort_by (cmp_key cmp) l2) as [|z l] eqn:E; simpl; [done|].
    assert (z ∈ l2) as Hz by (rewrite <- (sort_by_elem (cmp_key cmp)), E; by left).
    rewrite Forall_forall in H2. apply H2 in Hz. unfold cmp_key, cmp_on, key_le, ord_le in *.
    by destruct (cmp x.1 z.1).
  - rewrite IH. simpl. unfold cmp_key, cmp_on at 1. unfold key_lt in Hy. apply ord_gt_lt in Hy; [|done].
    by rewrite Hy.
Qed.

Lemma sort_insert_filter (P : K * V -> Prop) `{!forall x, Decision (P x)} x l :
  StronglySorted (key_le cmp) l ->
  filter P (sort_insert (cmp_key cmp) x l)
  = if decide (P x) then sort_insert (cmp_key cmp) x (filter P l) else filter P l.
Proof.
  induction 1 as [|y l Hs IH Hf].
  { simpl. destruct (decide (P x)); [by rewrite filter_cons_True | by rewrite filter_cons_False]. }
  cbn [sort_insert]. destruct (cmp_key cmp x y) eqn:E.
  3: { rewrite !(filter_cons _ y), IH. destruct (decide (P x)), (decide (P y)); simpl; try done.
       by rewrite E. }
  all: rewrite (filter_cons _ x); destruct (decide (P x)); [|done].
  all: rewrite (filter_cons _ y); destruct (decide (P y)); [by simpl; rewrite E|].
  all: destruct (filter P l) as [|z l'] eqn:Ef; [done|]; simpl.
  all: assert (z ∈ l) as Hz by
    (apply (list_elem_of_filter P); rewrite Ef; by left).
  all: rewrite Forall_forall in Hf; apply Hf in Hz;
    assert (ord_le cmp x.1 z.1) as Hxz by
      (apply (ord_le_trans cmp _ y.1); [unfold ord_le, cmp_key, cmp_on in *; congruence | exact Hz]).
  all: unfold cmp_key, cmp_on, ord_le in *; by destruct (cmp x.1 z.1).
Qed.

Lemma sort_by_filter (P : K * V -> Prop) `{!forall x, Decision (P x)} l :
  filter P (sort_by (cmp_key cmp) l) = sort_by (cmp_key cmp) (filter P l).
Proof.
  induction l as [|x l IH]; [done|]. cbn [sort_by foldr].
  fold (sort_by (cmp_key cmp) l). rewrite sort_insert_filter by by apply sort_by_sorted.
  rewrite IH, (filter_cons _ x). by destruct (decide (P x)).
Qed.

Lemma sort_by_key_id l : StronglySorted (key_le cmp) l -> sort_by (cmp_key cmp) l = l.
Proof. intros H. by apply sort_by_id. Qed.

Lemma bt_range_from_sorted k l :
  StronglySorted (key_le cmp) l -> StronglySorted (key_le cmp) (bt_range_from cmp k l).
Proof.
  unfold bt_range_from. induction 1 as [|x l Hs IH Hf]; [constructor|].
  rewrite filter_cons. destruct (decide _); [|done]. constructor; [done|].
  apply Forall_forall. intros y [_ Hy]%list_elem_of_filter. rewrite Forall_forall in Hf. auto.
Qed.
End sort_more.

(** ** [slice::partition_point]

    The number of leading elements that satisfy the predicate: what the
    standard library documents for a partitioned slice. *)

Fixpoint partition_point {A} (p : A -> bool) (l : list A) : nat :=
  match l with
  | [] => O
  | x :: l => if p x then S (partition_point p l) else O
  end.

Lemma partition_point_le {A} (p : A -> bool) l : (partition_point p l <= length l)%nat.
Proof. induction l as [|x l IH]; simpl; [lia|]. destruct (p x); lia. Qed.

Lemma filter_all {A} (P : A -> Prop) `{!forall x, Decision (P x)} (l : list A) :
  Forall P l -> filter P l = l.
Proof. induction 1; [done|]. rewrite filter_cons_True by done. by f_equal. Qed.

Lemma filter_none {A} (P : A -> Prop) `{!forall x, Decision (P x)} (l : list A) :
  Forall (fun x => ~ P x) l -> filter P l = [].
Proof. induction 1; [done|]. by rewrite filter_cons_False by done. Qed.

Lemma Forall2_and_l {A B} (P : A -> B -> Prop) (Q : A -> Prop) l k :
  Forall2 P l k -> Forall Q l -> Forall2 (fun a b => P a b /\ Q a) l k.
Proof. induction 1; intros Hq; inversion_clear Hq; constructor; auto. Qed.

Lemma filter_iff_in {A} (P Q : A -> Prop) `{!forall x, Decision (P x), !forall x, Decision (Q x)} (l : list A) :
  (forall x, x ∈ l -> P x <-> Q x) -> filter P l = filter Q l.
Proof.
  induction l as [|x l IH]; intros Hl; [done|].
  assert (P x <-> Q x) as Hx by (apply Hl; by left).
  rewrite !filter_cons, IH by (intros y Hy; apply Hl; by right).
  destruct (decide (P x)), (decide (Q x)); tauto.
Qed.

(** On a list sorted by key, the entries from the partition point of
    [key < k] on are those whose key is at least [k]. *)
Lemma drop_partition_point {K V} (cmp : K -> K -> comparison) `{!OrdLaws cmp}
    (k : K) (l : list (K * V)) :
  StronglySorted (key_le cmp) l ->
  drop (partition_point (fun e => ltb cmp e.1 k) l) l = bt_range_from cmp k l.
Proof.
  unfold bt_range_from. induction 1 as [|x l Hs IH Hf]; simpl; [done|].
  rewrite ltb_leb by done. destruct (leb cmp k x.1) eqn:E; simpl.
  - rewrite filter_cons_True by done. f_equal. symmetry. apply filter_all.
    apply Forall_forall. intros y Hy. rewrite Forall_forall in Hf. apply Hf in Hy.
    apply leb_le. apply leb_le in E. by apply (ord_le_trans cmp _ x.1).
  - rewrite filter_cons_False by congruence. done.
Qed.
