(* ===== verification/Key.v ===== *)
(** * Internal keys

    [src/key/]: user keys with their sequence number and kind, the order the
    whole store is sorted by, and the value records of
    [src/memtable/btree.rs] that every component exchanges. *)

From stdpp Require Import base list gmap.
From S2P Require Import Prelude.

Inductive ValueType : Type :=
  | VPut
  | VDelete.

#[export] Instance ValueType_eq_dec : EqDecision ValueType.
Proof. solve_decision. Defined.

(** [value_type as u8]: the discriminants of the enum. *)
Definition value_type_u8 (t : ValueType) : u8 :=
  match t with VPut => 1 | VDelete => 2 end.

Record InternalKey : Type := mkInternalKey {
  user_key : bytes;
  sequence : u64;
  value_type : ValueType
}.

#[export] Instance InternalKey_eq_dec : EqDecision InternalKey.
Proof. solve_decision. Defined.

(** [compare_user_key] of [comparator.rs]. *)
Definition compare_user_key (left right : bytes) : comparison := bytes_cmp left right.

(** [impl Ord for InternalKey]: user key ascending, sequence descending, then
    the kind. *)
Definition ikey_cmp (self other : InternalKey) : comparison :=
  then_with
    (then_with (bytes_cmp (user_key self) (user_key other))
       (sequence other ?= sequence self))
    (value_type_u8 (value_type self) ?= value_type_u8 (value_type other)).

(** [ValueRecord] of [memtable/btree.rs]. *)
Inductive ValueRecord : Type :=
  | RPut (value : bytes)
  | RDelete.

#[export] Instance ValueRecord_eq_dec : EqDecision ValueRecord.
Proof. solve_decision. Defined.

(** [into_visible_value] of [db.rs] and [transaction.rs]. *)
Definition into_visible_value (r : ValueRecord) : option bytes :=
  match r with RPut value => Some value | RDelete => None end.

Abbreviation entry := (InternalKey * ValueRecord)%type (only parsing).

(** The kind of a key agrees with its record, as [put] and [delete] build
    them. *)
Definition kind_of (r : ValueRecord) : ValueType :=
  match r with RPut _ => VPut | RDelete => VDelete end.
Definition entry_ok (e : entry) : Prop := value_type e.1 = kind_of e.2.

(** ** The order *)

Lemma value_type_u8_inj t t' : value_type_u8 t = value_type_u8 t' -> t = t'.
Proof. by destruct t, t'. Qed.

(** [a < b], spelled out. *)
Lemma ikey_lt_spec a b :
  ikey_cmp a b = Lt <->
  bytes_cmp (user_key a) (user_key b) = Lt \/
  user_key a = user_key b /\
    (sequence b < sequence a \/
     sequence a = sequence b /\
       value_type_u8 (value_type a) < value_type_u8 (value_type b)).
Proof.
  unfold ikey_cmp.
  destruct (bytes_cmp (user_key a) (user_key b)) eqn:E1; simpl.
  - apply (ord_eq (cmp := bytes_cmp)) in E1.
    destruct (Z.compare_spec (sequence b) (sequence a)); simpl;
      rewrite ?Z.compare_lt_iff; intuition (congruence || lia).
  - tauto.
  - split; [discriminate|]. intros [|[E _]]; [discriminate|].
    rewrite E, (ord_refl bytes_cmp) in E1. discriminate.
Qed.

#[export] Instance ikey_ord : OrdLaws ikey_cmp.
Proof.
  split.
  - intros [k s t] [k' s' t']. unfold ikey_cmp; simpl. split.
    + destruct (bytes_cmp k k') eqn:E1; simpl; try discriminate.
      apply (ord_eq (cmp := bytes_cmp)) in E1 as ->.
      destruct (Z.compare_spec s' s); simpl; try discriminate. subst.
      intros E3%Z.compare_eq_iff%value_type_u8_inj. by subst.
    + intros [= -> -> ->]. by rewrite (ord_refl bytes_cmp), !Z.compare_refl.
  - intros [k s t] [k' s' t']. unfold ikey_cmp; simpl.
    rewrite (ord_antisym (cmp := bytes_cmp) k k'), (Z.compare_antisym s' s),
      (Z.compare_antisym (value_type_u8 t) (value_type_u8 t')).
    destruct (bytes_cmp k k'); simpl; auto. destruct (s' ?= s); simpl; auto.
  - intros a b c. rewrite !ikey_lt_spec.
    intros [H1 | [E1 H1]] [H2 | [E2 H2]].
    + left. by apply (ord_trans (cmp := bytes_cmp) _ (user_key b)).
    + left. by rewrite <- E2.
    + left. by rewrite E1.
    + right. split; [congruence | lia].
Qed.

(** [a <= b], spelled out. *)
Lemma ikey_le_spec a b :
  ord_le ikey_cmp a b <->
  bytes_cmp (user_key a) (user_key b) = Lt \/
  user_key a = user_key b /\
    (sequence b < sequence a \/
     sequence a = sequence b /\
       value_type_u8 (value_type a) <= value_type_u8 (value_type b)).
Proof.
  rewrite ord_le_lteq, ikey_lt_spec by apply _. split.
  - intros [H | ->]; [intuition lia | right; split; [done | lia]].
  - intros [H | [E [H | [Es H]]]]; [by left; left | by left; right; auto |].
    destruct (decide (value_type_u8 (value_type a) = value_type_u8 (value_type b)))
      as [Et%value_type_u8_inj | Hne].
    + right. destruct a, b; simpl in *; congruence.
    + left. right. split; [done|]. right. split; [done | lia].
Qed.

(** The order of internal keys refines the order of user keys. *)
Lemma ikey_le_user_key a b :
  ord_le ikey_cmp a b -> ord_le bytes_cmp (user_key a) (user_key b).
Proof.
  rewrite ikey_le_spec, ord_le_lteq by apply _. intuition.
Qed.

(** The seek key of a read: [(key, read_seq, Put)] is at or below exactly the
    versions of [key] visible at [read_seq] and everything of a larger key. *)
Lemma seek_key_le key read_seq k :
  ord_le ikey_cmp (mkInternalKey key read_seq VPut) k <->
  bytes_cmp key (user_key k) = Lt \/ (key = user_key k /\ sequence k <= read_seq).
Proof.
  rewrite ikey_le_spec. simpl. destruct k as [uk s []]; simpl; intuition lia.
Qed.
