(* ===== verification/Spec.v ===== *)
(** * What a read returns

    The abstract side of the store: its contents are a list of versions
    ([entry]), a read at a sequence number returns the newest version it may
    see, and a scan the live rows of a range.  The memtables, the tables, the
    iterators, compaction and the database are all proved against these
    definitions.  [Bound] and [within_bounds] are [std::ops::Bound] and the
    function of that name in [memtable/btree.rs], [memtable/mod.rs] and
    [iterator/db_iterator.rs]. *)

From Stdlib Require Import Sorting.Sorted.
From stdpp Require Import base list gmap.
From S2P Require Import Prelude Key.

Inductive Bound : Type :=
  | Included (b : bytes)
  | Excluded (b : bytes)
  | Unbounded.

Definition within_bounds (key : bytes) (lower upper : Bound) : bool :=
  let lower_ok :=
    match lower with
    | Included bound => leb bytes_cmp bound key
    | Excluded bound => ltb bytes_cmp bound key
    | Unbounded => true
    end in
  let upper_ok :=
    match upper with
    | Included bound => leb bytes_cmp key bound
    | Excluded bound => ltb bytes_cmp key bound
    | Unbounded => true
    end in
  lower_ok && upper_ok.

(** ** Reads *)

(** The versions a read of [key] at [read_seq] may see. *)
Definition visible (key : bytes) (read_seq : u64) (e : entry) : bool :=
  bool_decide (user_key e.1 = key) && (sequence e.1 <=? read_seq).

(** The newest of them: the least in the order of internal keys, the first
    one when there are several. *)
Fixpoint newest_entry (key : bytes) (read_seq : u64) (es : list entry) : option entry :=
  match es with
  | [] => None
  | e :: es =>
      if visible key read_seq e then
        match newest_entry key read_seq es with
        | Some e' => if leb ikey_cmp e.1 e'.1 then Some e else Some e'
        | None => Some e
        end
      else newest_entry key read_seq es
  end.

Definition newest (key : bytes) (read_seq : u64) (es : list entry) : option ValueRecord :=
  snd <$> newest_entry key read_seq es.

(** What a read of a user sees: a tombstone is an absent key. *)
Definition live (key : bytes) (s : u64) (es : list entry) : option bytes :=
  newest key s es ≫= into_visible_value.

(** The key has a version newer than [s]. *)
Definition changed_since (key : bytes) (s : u64) (es : list entry) : Prop :=
  exists e, e ∈ es /\ user_key e.1 = key /\ s < sequence e.1.

(** [es'] is [es] without versions that nobody needs who reads at or above
    [wm] or asks for changes since then. *)
Record collected (wm : u64) (es es' : list entry) : Prop := mkCollected {
  co_sub : es' ⊆ es;
  co_kept : forall e, e ∈ es -> wm < sequence e.1 -> e ∈ es';
  co_live : forall key s, wm <= s -> live key s es' = live key s es
}.

Lemma collected_changed wm es es' key s :
  collected wm es es' -> wm <= s -> changed_since key s es' <-> changed_since key s es.
Proof.
  intros [Hsub Hk _] Hs. split; intros (e & He & Hu & Hq); exists e; (split; [|done]).
  - by apply Hsub.
  - apply Hk; [done | lia].
Qed.

(** A read above every sequence number sees what a read at the highest one
    sees. *)
Lemma live_above key last s es :
  Forall (fun e : entry => sequence e.1 <= last) es -> last <= s -> live key s es = live key last es.
Proof.
  intros Hes Hs. unfold live, newest. do 2 f_equal. induction Hes as [|e es He Hes IH]; [done|].
  cbn [newest_entry]. rewrite IH. unfold visible.
  destruct (Z.leb_spec (sequence e.1) s), (Z.leb_spec (sequence e.1) last); done || lia.
Qed.

(** Two contents that no read at [low] or later tells apart. *)
Definition same_reads (low : u64) (es es' : list entry) : Prop :=
  forall key s, low <= s -> newest key s es = newest key s es'.

(** An internal key has one record. *)
Definition consistent (es : list entry) : Prop :=
  forall e e', e ∈ es -> e' ∈ es -> e.1 = e'.1 -> e = e'.

Lemma consistent_forall es :
  Forall (fun e => Forall (fun e' => e.1 = e'.1 -> e = e') es) es <-> consistent es.
Proof.
  unfold consistent. rewrite Forall_forall. setoid_rewrite Forall_forall. naive_solver.
Qed.

#[export] Instance consistent_dec es : Decision (consistent es).
Proof.
  destruct (decide (Forall (fun e => Forall (fun e' => e.1 = e'.1 -> e = e') es) es)) as [H | H].
  - left. by apply consistent_forall.
  - right. by rewrite <- consistent_forall.
Defined.

Abbreviation sorted_entries := (StronglySorted (key_le ikey_cmp)).

Lemma visible_spec key s e : visible key s e = true <-> user_key e.1 = key /\ sequence e.1 <= s.
Proof. unfold visible. rewrite andb_true_iff, bool_decide_eq_true. by rewrite Z.leb_le. Qed.

Lemma newest_entry_some key s es e :
  newest_entry key s es = Some e ->
  e ∈ es /\ visible key s e = true /\
  forall e', e' ∈ es -> visible key s e' = true -> ord_le ikey_cmp e.1 e'.1.
Proof.
  revert e. induction es as [|x es IH]; intros e; simpl; [done|].
  destruct (visible key s x) eqn:Ev.
  - destruct (newest_entry key s es) as [y|] eqn:En.
    + destruct (IH y eq_refl) as (Hy & Hv & Hle).
      destruct (leb ikey_cmp x.1 y.1) eqn:El; intros [= <-].
      * apply leb_le in El. split; [by left|]. split; [done|]. intros e' He' Hv'.
        apply elem_of_cons in He' as [-> | He']; [by apply ord_le_refl; apply _|].
        apply (ord_le_trans ikey_cmp _ y.1); auto.
      * split; [by right|]. split; [done|]. intros e' He' Hv'.
        apply elem_of_cons in He' as [-> | He']; [|by auto].
        destruct (ord_le_total ikey_cmp x.1 y.1) as [H|H]; [|done].
        apply leb_le in H. congruence.
    + intros [= <-]. split; [by left|]. split; [done|]. intros e' He' Hv'.
      apply elem_of_cons in He' as [-> | He']; [by apply ord_le_refl; apply _|].
      exfalso. clear IH Ev. revert En. induction es as [|z es IHes]; simpl; [by apply not_elem_of_nil in He'|].
      apply elem_of_cons in He' as [-> | He'].
      * rewrite Hv'. destruct (newest_entry key s es); [by destruct (leb _ _ _)|done].
      * destruct (visible key s z); [|auto].
        destruct (newest_entry key s es); [by destruct (leb _ _ _)|done].
  - intros H. destruct (IH _ H) as (He & Hv & Hle). split; [by right|]. split; [done|].
    intros e' He' Hv'. apply elem_of_cons in He' as [-> | He']; [congruence | auto].
Qed.

Lemma newest_entry_none key s es :
  newest_entry key s es = None <-> forall e, e ∈ es -> visible key s e = false.
Proof.
  induction es as [|x es IH]; simpl.
  - split; [|done]. by intros _ e He%elem_of_nil.
  - split.
    + intros H e He. apply elem_of_cons in He. destruct (visible key s x) eqn:Ev.
      * destruct (newest_entry key s es); [by destruct (leb _ _ _)|done].
      * destruct He as [-> | He]; [done | by apply IH].
    + intros H. rewrite (H x) by left. apply IH. intros e He. apply H. by right.
Qed.

(** The specification determines the result where keys are consistent. *)
Lemma newest_entry_unique key s es e :
  consistent es -> e ∈ es -> visible key s e = true ->
  (forall e', e' ∈ es -> visible key s e' = true -> ord_le ikey_cmp e.1 e'.1) ->
  newest_entry key s es = Some e.
Proof.
  intros Hc He Hv Hle. destruct (newest_entry key s es) as [x|] eqn:En.
  - apply newest_entry_some in En as (Hx & Hvx & Hlex). f_equal. apply Hc; [done..|].
    apply (ord_le_antisym ikey_cmp); auto.
  - rewrite newest_entry_none in En. rewrite En in Hv by done. done.
Qed.

Lemma newest_entry_ext key s es es' :
  consistent es -> (forall e, visible key s e = true -> e ∈ es <-> e ∈ es') ->
  newest_entry key s es = newest_entry key s es'.
Proof.
  intros Hc Hin. destruct (newest_entry key s es') as [e|] eqn:En.
  - apply newest_entry_some in En as (He & Hv & Hle). apply newest_entry_unique; [done| | done |].
    + by apply Hin.
    + intros e' He' Hv'. apply Hle; [by apply Hin | done].
  - rewrite newest_entry_none in *. intros e He. destruct (visible key s e) eqn:Ev; [|done].
    apply Hin in He; [|done]. by rewrite En in Ev.
Qed.

Lemma newest_ext key s es es' :
  consistent es -> (forall e, visible key s e = true -> e ∈ es <-> e ∈ es') ->
  newest key s es = newest key s es'.
Proof. intros Hc Hin. unfold newest. by rewrite (newest_entry_ext _ _ _ _ Hc Hin). Qed.

Lemma newest_perm key s es es' : consistent es -> es ≡ₚ es' -> newest key s es = newest key s es'.
Proof. intros Hc Hp. apply newest_ext; [done|]. intros e _. by rewrite Hp. Qed.

(** Searching [l] before [k]: right when what [l] holds of the key is newer
    than what [k] holds. *)
Definition newer_than (key : bytes) (l k : list entry) : Prop :=
  forall e e', e ∈ l -> e' ∈ k -> user_key e.1 = key -> user_key e'.1 = key ->
    ord_le ikey_cmp e.1 e'.1.

Lemma newest_entry_app key s l k :
  newer_than key l k ->
  newest_entry key s (l ++ k)
  = match newest_entry key s l with Some e => Some e | None => newest_entry key s k end.
Proof.
  induction l as [|x l IH]; intros Hn; simpl; [done|].
  rewrite IH by (intros e e' He; apply Hn; by right).
  destruct (visible key s x) eqn:Ev; [|done].
  destruct (newest_entry key s l) as [y|] eqn:El; [by destruct (leb _ _ _)|].
  destruct (newest_entry key s k) as [z|] eqn:Ek; [|done].
  apply newest_entry_some in Ek as (Hz & Hvz & _). apply visible_spec in Ev as [Hx _].
  apply visible_spec in Hvz as [Hzk _].
  assert (leb ikey_cmp x.1 z.1 = true) as ->; [|done].
  apply leb_le. apply Hn; [by left | done..].
Qed.

Lemma newest_app key s l k :
  newer_than key l k ->
  newest key s (l ++ k)
  = match newest key s l with Some r => Some r | None => newest key s k end.
Proof.
  intros Hn. unfold newest. rewrite newest_entry_app by done.
  by destruct (newest_entry key s l).
Qed.

(** In a sorted list the first visible version is the newest. *)
Definition first_visible (key : bytes) (s : u64) (es : list entry) : option entry :=
  head (filter (fun e => visible key s e = true) es).

Lemma newest_entry_sorted key s es :
  sorted_entries es -> newest_entry key s es = first_visible key s es.
Proof.
  unfold first_visible. induction 1 as [|x es Hs IH Hf]; simpl; [done|].
  destruct (visible key s x) eqn:Ev.
  - rewrite filter_cons_True by done. simpl.
    destruct (newest_entry key s es) as [y|] eqn:En; [|done].
    apply newest_entry_some in En as (Hy & _). rewrite Forall_forall in Hf.
    apply Hf, leb_le in Hy. unfold key_le in Hy. by rewrite Hy.
  - by rewrite filter_cons_False by congruence.
Qed.

#[export] Instance same_reads_equiv low : Equivalence (same_reads low).
Proof.
  split.
  - by intros es key s Hs.
  - intros es es' H key s Hs. by rewrite H.
  - intros es1 es2 es3 H1 H2 key s Hs. by rewrite H1, H2.
Qed.

Lemma same_reads_weaken low low' es es' :
  low <= low' -> same_reads low es es' -> same_reads low' es es'.
Proof. intros Hl H key s Hs. apply H. lia. Qed.

#[export] Instance newest_proper low key s :
  (low <= s) -> Proper (same_reads low ==> eq) (newest key s).
Proof. intros Hs es es' H. by apply H. Qed.

(** ** Scans *)

(** The rows of a scan: the live keys within the bounds, in ascending order,
    each with the value a read returns. *)
Definition scan_spec (lower upper : Bound) (read_seq : u64) (es : list entry)
    (rows : list (bytes * bytes)) : Prop :=
  StronglySorted (key_lt bytes_cmp) rows /\
  forall k v, (k, v) ∈ rows <->
    within_bounds k lower upper = true /\ newest k read_seq es = Some (RPut v).

Lemma sorted_lt_unique {K V} (cmp : K -> K -> comparison) `{!OrdLaws cmp} (l k : list (K * V)) :
  StronglySorted (key_lt cmp) l -> StronglySorted (key_lt cmp) k ->
  (forall e, e ∈ l <-> e ∈ k) -> l = k.
Proof.
  intros Hl. revert k. induction Hl as [|x l Hl IH Hf]; intros k Hk Hin.
  { destruct k as [|y k]; [done|]. exfalso. apply (not_elem_of_nil y), Hin. by left. }
  destruct Hk as [|y k Hk Hfk].
  { exfalso. apply (not_elem_of_nil x), Hin. by left. }
  rewrite Forall_forall in Hf, Hfk. unfold key_lt in Hf, Hfk.
  assert (x = y) as ->.
  { assert (x ∈ y :: k) as Hx by (apply Hin; by left).
    assert (y ∈ x :: l) as Hy by (apply Hin; by left).
    apply elem_of_cons in Hx as [-> | Hx]; [done|].
    apply elem_of_cons in Hy as [-> | Hy]; [done|].
    apply Hfk in Hx. apply Hf in Hy. by apply (ord_asym cmp) in Hx. }
  f_equal. apply IH; [done|]. intros e. split; intros He.
  - assert (e ∈ y :: k) as H by (apply Hin; by right).
    apply elem_of_cons in H as [-> | H]; [|done].
    apply Hf in He. by apply (ord_irrefl cmp) in He.
  - assert (e ∈ y :: l) as H by (apply Hin; by right).
    apply elem_of_cons in H as [-> | H]; [|done].
    apply Hfk in He. by apply (ord_irrefl cmp) in He.
Qed.

(** A scan has one answer. *)
Lemma scan_spec_unique lo hi s es rows rows' :
  scan_spec lo hi s es rows -> scan_spec lo hi s es rows' -> rows = rows'.
Proof.
  intros [H1 H2] [H1' H2']. apply (sorted_lt_unique bytes_cmp); [done..|].
  intros [k v]. by rewrite H2, H2'.
Qed.

#[export] Instance scan_spec_proper low lo hi s :
  (low <= s) -> Proper (same_reads low ==> eq ==> iff) (scan_spec lo hi s).
Proof.
  intros Hs es es' H rows ? <-. unfold scan_spec.
  split; (intros [H1 H2]; split; [done|]; intros k v; rewrite H2, (H k s Hs); tauto).
Qed.

Lemma scan_spec_ext lo hi s es es' rows :
  consistent es -> es' ≡ₚ es -> scan_spec lo hi s es' rows -> scan_spec lo hi s es rows.
Proof.
  intros Hc Hp [H1 H2]. split; [done|]. intros k v. rewrite H2.
  by rewrite (newest_perm k s es es' Hc) by done.
Qed.

(** ** Scanning a sorted list

    The rows of a sorted list of entries, from left to right: the first
    version of each user key that is visible and within the bounds, unless it
    is a tombstone.  [seen] are the user keys already decided. *)
Fixpoint live_rows (lower upper : Bound) (read_seq : u64) (seen : gset bytes)
    (es : list entry) : list (bytes * bytes) :=
  match es with
  | [] => []
  | e :: es =>
      let uk := user_key e.1 in
      if (sequence e.1 <=? read_seq) && within_bounds uk lower upper && bool_decide (uk ∉ seen)
      then
        let row := match e.2 with RPut value => [(uk, value)] | RDelete => [] end in
        row ++ live_rows lower upper read_seq ({[uk]} ∪ seen) es
      else live_rows lower upper read_seq seen es
  end.

Section live_rows.
Context (lo hi : Bound) (s : u64).

Lemma live_rows_elem seen es k v :
  sorted_entries es ->
  ((k, v) ∈ live_rows lo hi s seen es) <->
  (k ∉ seen) /\ within_bounds k lo hi = true /\ newest k s es = Some (RPut v).
Proof.
  intros Hs. unfold newest. rewrite newest_entry_sorted by done. unfold first_visible.
  revert seen. induction Hs as [|e es Hs IH Hf]; intros seen; simpl.
  { rewrite elem_of_nil. split; [done | by intros (_ & _ & ?)]. }
  destruct (visible k s e) eqn:Ev.
  - rewrite filter_cons_True by done. simpl. apply visible_spec in Ev as [Hk Hle].
    rewrite Hk. apply Z.leb_le in Hle. rewrite Hle. simpl.
    destruct (within_bounds k lo hi) eqn:Eb; simpl;
      [case_bool_decide as Hn|]; simpl; rewrite ?elem_of_app, ?IH;
      [| split; intuition congruence..].
    clear IH Hf Hs. destruct e.2 as [w|]; [rewrite list_elem_of_singleton | rewrite elem_of_nil];
      rewrite not_elem_of_union, not_elem_of_singleton; intuition congruence.
  - rewrite filter_cons_False by congruence.
    destruct (_ && _ && _) eqn:Ec; [|by apply IH].
    apply andb_true_iff in Ec as [[Hle _]%andb_true_iff _]. rewrite elem_of_app, IH.
    assert (user_key e.1 <> k).
    { intros Hk. apply Z.leb_le in Hle. assert (visible k s e = true); [|congruence].
      by apply visible_spec. }
    destruct e.2 as [w|]; [rewrite list_elem_of_singleton | rewrite elem_of_nil];
      rewrite not_elem_of_union, not_elem_of_singleton; intuition congruence.
Qed.

Lemma live_rows_key seen es row :
  row ∈ live_rows lo hi s seen es ->
  (row.1 ∉ seen) /\ exists e, e ∈ es /\ user_key e.1 = row.1.
Proof.
  revert seen. induction es as [|e es IH]; intros seen; simpl; [by intros ?%elem_of_nil|].
  destruct (_ && _ && _) eqn:Ec.
  - apply andb_true_iff in Ec as [_ Hn]. apply bool_decide_eq_true in Hn.
    rewrite elem_of_app. intros [Hr | Hr].
    + destruct e.2; [apply list_elem_of_singleton in Hr as -> | by apply elem_of_nil in Hr].
      split; [done|]. exists e. split; [by left | done].
    + apply IH in Hr as (Hn' & e' & He' & Hk). split; [set_solver|].
      exists e'. split; [by right | done].
  - intros Hr. apply IH in Hr as (Hn' & e' & He' & Hk). split; [done|].
    exists e'. split; [by right | done].
Qed.

Lemma live_rows_sorted seen es :
  sorted_entries es -> StronglySorted (key_lt bytes_cmp) (live_rows lo hi s seen es).
Proof.
  intros Hs. revert seen. induction Hs as [|e es Hs IH Hf]; intros seen; simpl; [constructor|].
  destruct (_ && _ && _) eqn:Ec; [|by apply IH].
  destruct e.2 as [w|]; simpl; [|by apply IH]. constructor; [by apply IH|].
  apply Forall_forall. intros row Hr. apply live_rows_key in Hr as (Hn & e' & He' & Hk).
  rewrite Forall_forall in Hf. apply Hf, ikey_le_user_key in He'.
  rewrite Hk in He'. apply (ord_le_lteq bytes_cmp) in He' as [Hlt | Heq]; [done|].
  rewrite Heq in Hn. set_solver.
Qed.

(** The reference scan meets the specification. *)
Lemma live_rows_scan es : sorted_entries es -> scan_spec lo hi s es (live_rows lo hi s ∅ es).
Proof.
  intros Hs. split; [by apply live_rows_sorted|]. intros k v.
  rewrite live_rows_elem by done. pose proof (not_elem_of_empty (C := gset bytes) k). tauto.
Qed.
End live_rows.
