(* ===== verification/Memtable.v ===== *)
(** * Memtables

    [src/memtable/]: the arena, the B-tree memtable, the skip-list memtable
    and the enum that dispatches to them.  The skip list itself is the crate
    [crossbeam_skiplist], a parameter ([SkipMap]) whose law is that it is an
    ordered map. *)

From Stdlib Require Import Sorting.Sorted.
From stdpp Require Import base list gmap.
From S2P Require Import Prelude Key Spec.

(** [std::mem::size_of::<InternalKey>()] on a 64-bit target: a [Vec], a [u64]
    and a one-byte enum, padded. *)
Definition INTERNAL_KEY_SIZE : usize := 40.

(** ** [btree.rs] *)

Record BTreeMemTable : Type := mkBTreeMemTable {
  bm_map : list entry;
  bm_approximate_size : usize
}.

Definition bm_new : BTreeMemTable := mkBTreeMemTable [] 0.

Definition bm_put (seq : u64) (key value : bytes) (self : BTreeMemTable) : BTreeMemTable :=
  mkBTreeMemTable
    (bt_insert ikey_cmp (mkInternalKey key seq VPut) (RPut value) (bm_map self))
    (bm_approximate_size self + (len key + len value + INTERNAL_KEY_SIZE)).

Definition bm_delete (seq : u64) (key : bytes) (self : BTreeMemTable) : BTreeMemTable :=
  mkBTreeMemTable
    (bt_insert ikey_cmp (mkInternalKey key seq VDelete) RDelete (bm_map self))
    (bm_approximate_size self + (len key + INTERNAL_KEY_SIZE)).

(** The loop of [get]: the first entry of the key, unless a larger key comes
    first. *)
Fixpoint get_loop (key : bytes) (es : list entry) : option ValueRecord :=
  match es with
  | [] => None
  | (internal_key, value) :: es =>
      match bytes_cmp (user_key internal_key) key with
      | Eq => Some value
      | Gt => None
      | Lt => get_loop key es
      end
  end.

Definition bm_get (key : bytes) (read_seq : u64) (self : BTreeMemTable) : option ValueRecord :=
  let seek_key := mkInternalKey key read_seq VPut in
  get_loop key (bt_range_from ikey_cmp seek_key (bm_map self)).

(** The body of the scan loop; [seen] holds the user keys already met. *)
Definition scan_step (lower upper : Bound) (read_seq : u64)
    (acc : gset bytes * list (bytes * bytes)) (e : entry) :
    gset bytes * list (bytes * bytes) :=
  let '(seen, rows) := acc in
  let '(internal_key, value) := e in
  if read_seq <? sequence internal_key then acc
  else
    let user_key := user_key internal_key in
    if negb (within_bounds user_key lower upper) then acc
    else if bool_decide (user_key ∈ seen) then acc
    else
      let seen := {[user_key]} ∪ seen in
      match value with
      | RPut value => (seen, rows ++ [(user_key, value)])
      | RDelete => (seen, rows)
      end.

Definition bm_scan (lower upper : Bound) (read_seq : u64) (self : BTreeMemTable) :
    list (bytes * bytes) :=
  (foldl (scan_step lower upper read_seq) (∅, []) (bm_map self)).2.

Definition bm_is_empty (self : BTreeMemTable) : bool :=
  match bm_map self with [] => true | _ => false end.

Definition bm_entries (self : BTreeMemTable) : list entry := bm_map self.

(** [visible_scan] of [memtable/mod.rs]. *)
Definition visible_scan (entries : list entry) (lower upper : Bound) (read_seq : u64) :
    list (bytes * bytes) :=
  (foldl (scan_step lower upper read_seq) (∅, []) entries).2.

(** ** [arena.rs] *)

Record Arena : Type := mkArena {
  arena_chunks : list bytes;
  arena_bytes : usize
}.

Definition arena_new : Arena := mkArena [] 0.

(** The returned slice shares the bytes the arena keeps: both are the value
    allocated, and neither is written again. *)
Definition arena_allocate (bs : bytes) (self : Arena) : bytes * Arena :=
  (bs, mkArena (arena_chunks self ++ [bs]) (arena_bytes self + len bs)).

(** ** [skiplist.rs] *)

Record ArenaInternalKey : Type := mkArenaInternalKey {
  ak_user_key : bytes;
  ak_sequence : u64;
  ak_value_type : ValueType
}.

Definition arena_ikey_cmp (self other : ArenaInternalKey) : comparison :=
  then_with
    (then_with (bytes_cmp (ak_user_key self) (ak_user_key other))
       (ak_sequence other ?= ak_sequence self))
    (value_type_u8 (ak_value_type self) ?= value_type_u8 (ak_value_type other)).

Definition to_internal_key (k : ArenaInternalKey) : InternalKey :=
  mkInternalKey (ak_user_key k) (ak_sequence k) (ak_value_type k).

Inductive ArenaValueRecord : Type :=
  | APut (value : bytes)
  | ADelete.

Definition to_value_record (r : ArenaValueRecord) : ValueRecord :=
  match r with APut value => RPut value | ADelete => RDelete end.

(** [crossbeam_skiplist::SkipMap]: an ordered map. *)
Class SkipMap (K V : Type) (cmp : K -> K -> comparison) : Type := {
  skip_map : Type;
  sm_new : skip_map;
  sm_insert : K -> V -> skip_map -> skip_map;
  sm_iter : skip_map -> list (K * V);
  sm_range_from : K -> skip_map -> list (K * V);
  sm_len : skip_map -> usize
}.
Arguments skip_map {K V cmp} _.

Class SkipMapOk {K V cmp} (S : SkipMap K V cmp) : Prop := {
  sm_iter_new : sm_iter sm_new = [];
  sm_iter_insert : forall k v m, sm_iter (sm_insert k v m) = bt_insert cmp k v (sm_iter m);
  sm_range : forall k m, sm_range_from k m = bt_range_from cmp k (sm_iter m);
  sm_len_iter : forall m, sm_len m = len (sm_iter m)
}.

Abbreviation arena_skip_map := (SkipMap ArenaInternalKey ArenaValueRecord arena_ikey_cmp).

(** The laws can be met: a sorted association list. *)
#[export] Instance toy_skip_map : arena_skip_map := {|
  skip_map := list (ArenaInternalKey * ArenaValueRecord);
  sm_new := [];
  sm_insert := bt_insert arena_ikey_cmp;
  sm_iter m := m;
  sm_range_from k m := bt_range_from arena_ikey_cmp k m;
  sm_len m := len m
|}.

#[export] Instance toy_skip_map_ok : SkipMapOk toy_skip_map.
Proof. by split. Qed.

Section skiplist.
Context `{S : arena_skip_map}.

Record SkipListMemTable : Type := mkSkipListMemTable {
  sl_map : skip_map S;
  sl_arena : Arena
}.

Definition sl_new : SkipListMemTable := mkSkipListMemTable sm_new arena_new.

Definition sl_put (seq : u64) (key value : bytes) (self : SkipListMemTable) : SkipListMemTable :=
  let '(key, arena) := arena_allocate key (sl_arena self) in
  let '(value, arena) := arena_allocate value arena in
  mkSkipListMemTable (sm_insert (mkArenaInternalKey key seq VPut) (APut value) (sl_map self)) arena.

Definition sl_delete (seq : u64) (key : bytes) (self : SkipListMemTable) : SkipListMemTable :=
  let '(key, arena) := arena_allocate key (sl_arena self) in
  mkSkipListMemTable (sm_insert (mkArenaInternalKey key seq VDelete) ADelete (sl_map self)) arena.

Fixpoint sl_get_loop (key : bytes) (es : list (ArenaInternalKey * ArenaValueRecord)) :
    option ValueRecord :=
  match es with
  | [] => None
  | (k, v) :: es =>
      match bytes_cmp (ak_user_key k) key with
      | Eq => Some (to_value_record v)
      | Gt => None
      | Lt => sl_get_loop key es
      end
  end.

Definition sl_get (key : bytes) (read_seq : u64) (self : SkipListMemTable) : option ValueRecord :=
  let seek_key := mkArenaInternalKey key read_seq VPut in
  sl_get_loop key (sm_range_from seek_key (sl_map self)).

Definition sl_entries (self : SkipListMemTable) : list entry :=
  map (fun e => (to_internal_key e.1, to_value_record e.2)) (sm_iter (sl_map self)).

Definition sl_scan (lower upper : Bound) (read_seq : u64) (self : SkipListMemTable) :
    list (bytes * bytes) :=
  visible_scan (sl_entries self) lower upper read_seq.

Definition sl_approximate_size (self : SkipListMemTable) : usize :=
  arena_bytes (sl_arena self) + sm_len (sl_map self) * INTERNAL_KEY_SIZE.

Definition sl_is_empty (self : SkipListMemTable) : bool := sm_len (sl_map self) =? 0.

(** ** [mod.rs] *)

Inductive MemTableKind : Type :=
  | KBTree
  | KSkipList.

Inductive MemTable : Type :=
  | MBTree (table : BTreeMemTable)
  | MSkipList (table : SkipListMemTable).

Definition mt_new (kind : MemTableKind) : MemTable :=
  match kind with
  | KBTree => MBTree bm_new
  | KSkipList => MSkipList sl_new
  end.

Definition mt_kind (self : MemTable) : MemTableKind :=
  match self with MBTree _ => KBTree | MSkipList _ => KSkipList end.

Definition mt_put (seq : u64) (key value : bytes) (self : MemTable) : MemTable :=
  match self with
  | MBTree table => MBTree (bm_put seq key value table)
  | MSkipList table => MSkipList (sl_put seq key value table)
  end.

Definition mt_delete (seq : u64) (key : bytes) (self : MemTable) : MemTable :=
  match self with
  | MBTree table => MBTree (bm_delete seq key table)
  | MSkipList table => MSkipList (sl_delete seq key table)
  end.

Definition mt_get (key : bytes) (read_seq : u64) (self : MemTable) : option ValueRecord :=
  match self with
  | MBTree table => bm_get key read_seq table
  | MSkipList table => sl_get key read_seq table
  end.

Definition mt_scan (lower upper : Bound) (read_seq : u64) (self : MemTable) :
    list (bytes * bytes) :=
  match self with
  | MBTree table => bm_scan lower upper read_seq table
  | MSkipList table => sl_scan lower upper read_seq table
  end.

Definition mt_approximate_size (self : MemTable) : usize :=
  match self with
  | MBTree table => bm_approximate_size table
  | MSkipList table => sl_approximate_size table
  end.

Definition mt_is_empty (self : MemTable) : bool :=
  match self with
  | MBTree table => bm_is_empty table
  | MSkipList table => sl_is_empty table
  end.

Definition mt_entries (self : MemTable) : list entry :=
  match self with
  | MBTree table => bm_entries table
  | MSkipList table => sl_entries table
  end.
End skiplist.
Arguments SkipListMemTable S : clear implicits.
Arguments MemTable S : clear implicits.

(** ** Correctness *)

(** The loop of [get] over the range from the seek key finds the newest
    visible version. *)
Lemma get_loop_newest key s es :
  sorted_entries es ->
  get_loop key (bt_range_from ikey_cmp (mkInternalKey key s VPut) es) = newest key s es.
Proof.
  intros Hs. unfold newest. rewrite newest_entry_sorted by done.
  unfold bt_range_from, first_visible.
  induction Hs as [|[k v] es Hs IH Hf]; [done|].
  destruct (leb ikey_cmp (mkInternalKey key s VPut) k) eqn:El.
  - rewrite filter_cons_True by done. simpl.
    apply leb_le, seek_key_le in El as [Hlt | [Hk Hseq]].
    + apply ord_gt_lt in Hlt as Hgt; [|apply _]. rewrite Hgt.
      rewrite filter_none; [done|]. apply Forall_cons. split.
      * intros [Hv _]%visible_spec. simpl in Hv. subst. by apply (ord_irrefl bytes_cmp) in Hlt.
      * eapply Forall_impl; [exact Hf|]. intros e He [Hv _]%visible_spec.
        apply ikey_le_user_key in He. simpl in He. subst.
        by apply (ord_not_le bytes_cmp) in Hlt.
    + rewrite <- Hk, ord_refl by apply _. rewrite filter_cons_True; [done|].
      by apply visible_spec.
  - rewrite filter_cons_False by (simpl; congruence). rewrite IH.
    rewrite filter_cons_False; [done|]. intros [Hv Hseq]%visible_spec. simpl in *.
    assert (leb ikey_cmp (mkInternalKey key s VPut) k = true); [|congruence].
    apply leb_le, seek_key_le. right. by subst.
Qed.

Lemma scan_steps lo hi s es seen rows :
  (foldl (scan_step lo hi s) (seen, rows) es).2 = rows ++ live_rows lo hi s seen es.
Proof.
  revert seen rows. induction es as [|[k v] es IH]; intros seen rows; simpl;
    [by rewrite app_nil_r|].
  rewrite Z.ltb_antisym. destruct (sequence k <=? s); simpl; [|apply IH].
  destruct (within_bounds (user_key k) lo hi); simpl; [|apply IH].
  destruct (decide (user_key k ∈ seen)).
  - rewrite bool_decide_eq_true_2 by done. rewrite bool_decide_eq_false_2 by set_solver. apply IH.
  - rewrite bool_decide_eq_false_2 by done. rewrite bool_decide_eq_true_2 by done.
    destruct v; rewrite IH; [by rewrite <- app_assoc | done].
Qed.

Lemma visible_scan_live es lo hi s : visible_scan es lo hi s = live_rows lo hi s ∅ es.
Proof. unfold visible_scan. by rewrite scan_steps. Qed.

Lemma sorted_lt_entries (es : list entry) :
  StronglySorted (key_lt ikey_cmp) es -> sorted_entries es.
Proof.
  induction 1 as [|e es Hs IH Hf]; [constructor|]. constructor; [done|].
  eapply Forall_impl; [exact Hf|]. intros e'. apply ord_lt_le. apply _.
Qed.

(** A write to a memtable, and what it puts there. *)
Inductive MemOp : Type :=
  | OpPut (seq : u64) (key value : bytes)
  | OpDelete (seq : u64) (key : bytes).

Definition op_entry (op : MemOp) : entry :=
  match op with
  | OpPut seq key value => (mkInternalKey key seq VPut, RPut value)
  | OpDelete seq key => (mkInternalKey key seq VDelete, RDelete)
  end.

Definition op_size (op : MemOp) : usize :=
  match op with
  | OpPut _ key value => len key + len value + INTERNAL_KEY_SIZE
  | OpDelete _ key => len key + INTERNAL_KEY_SIZE
  end.

Section memtable_ok.
Context `{S : arena_skip_map}.

Definition mt_apply (op : MemOp) (t : MemTable S) : MemTable S :=
  match op with
  | OpPut seq key value => mt_put seq key value t
  | OpDelete seq key => mt_delete seq key t
  end.

(** The memtable after a history of writes. *)
Definition mt_run (kind : MemTableKind) (ops : list MemOp) : MemTable S :=
  foldl (fun t op => mt_apply op t) (mt_new kind) ops.

Context `{!SkipMapOk S}.

Lemma map_bt_insert k v m :
  map (fun e => (to_internal_key e.1, to_value_record e.2)) (bt_insert arena_ikey_cmp k v m)
  = bt_insert ikey_cmp (to_internal_key k) (to_value_record v)
      (map (fun e => (to_internal_key e.1, to_value_record e.2)) m).
Proof.
  induction m as [|[k' v'] m IH]; simpl; [done|].
  change (ikey_cmp (to_internal_key k) (to_internal_key k')) with (arena_ikey_cmp k k').
  destruct (arena_ikey_cmp k k'); simpl; by rewrite ?IH.
Qed.

Lemma mt_apply_entries op t :
  mt_entries (mt_apply op t) = bt_insert ikey_cmp (op_entry op).1 (op_entry op).2 (mt_entries t).
Proof.
  destruct op, t; simpl; try done; unfold sl_entries; simpl;
    rewrite sm_iter_insert, map_bt_insert; done.
Qed.

Lemma mt_new_entries kind : mt_entries (mt_new kind) = [].
Proof. destruct kind; simpl; [done|]. unfold sl_entries. simpl. by rewrite sm_iter_new. Qed.

Lemma mt_run_snoc kind ops op : mt_run kind (ops ++ [op]) = mt_apply op (mt_run kind ops).
Proof. unfold mt_run. by rewrite foldl_app. Qed.

(** A memtable is a sorted map at all times. *)
Lemma mt_run_sorted kind ops : StronglySorted (key_lt ikey_cmp) (mt_entries (mt_run kind ops)).
Proof.
  induction ops as [|op ops IH] using rev_ind.
  - unfold mt_run. simpl. rewrite mt_new_entries. constructor.
  - rewrite mt_run_snoc, mt_apply_entries. apply bt_insert_sorted; [apply _ | done].
Qed.

Lemma mt_run_elem kind ops e :
  consistent (map op_entry ops) ->
  e ∈ mt_entries (mt_run kind ops) <-> e ∈ map op_entry ops.
Proof.
  induction ops as [|op ops IH] using rev_ind; intros Hc.
  - unfold mt_run. simpl. by rewrite mt_new_entries.
  - rewrite map_app in *. simpl in *.
    assert (consistent (map op_entry ops)) as Hc' by (intros x y Hx Hy; apply Hc; rewrite elem_of_app; by left).
    rewrite mt_run_snoc, mt_apply_entries, (bt_insert_in ikey_cmp) by apply mt_run_sorted.
    rewrite <- surjective_pairing, elem_of_app, list_elem_of_singleton, IH by done.
    split; [tauto|]. intros [He | ->]; [|by left].
    destruct (decide (e.1 = (op_entry op).1)) as [E|]; [|by right].
    left. apply Hc; [rewrite elem_of_app, ?list_elem_of_singleton; tauto.. | done].
Qed.

Lemma sl_get_loop_map key m :
  sl_get_loop key m = get_loop key (map (fun e => (to_internal_key e.1, to_value_record e.2)) m).
Proof. induction m as [|[k v] m IH]; simpl; [done|]. by rewrite IH. Qed.

Lemma map_range_from k m :
  map (fun e => (to_internal_key e.1, to_value_record e.2)) (bt_range_from arena_ikey_cmp k m)
  = bt_range_from ikey_cmp (to_internal_key k)
      (map (fun e => (to_internal_key e.1, to_value_record e.2)) m).
Proof.
  unfold bt_range_from. induction m as [|[k' v'] m IH]; [done|].
  change (map ?f (?e :: m)) with (f e :: map f m).
  destruct (leb ikey_cmp (to_internal_key k) (to_internal_key k')) eqn:E.
  - rewrite !filter_cons_True by exact E. cbn [map]. by rewrite IH.
  - rewrite !filter_cons_False; [done | by simpl; rewrite E |].
    change (leb ikey_cmp (to_internal_key k) (to_internal_key k') <> true). by rewrite E.
Qed.

(** Both memtables are their entries: one loop and one scan. *)
Lemma mt_get_entries key s t :
  mt_get key s t
  = get_loop key (bt_range_from ikey_cmp (mkInternalKey key s VPut) (mt_entries t)).
Proof.
  destruct t; simpl; [done|]. unfold sl_get, sl_entries.
  by rewrite sm_range, sl_get_loop_map, map_range_from.
Qed.

Lemma mt_scan_entries lo hi s t : mt_scan lo hi s t = live_rows lo hi s ∅ (mt_entries t).
Proof.
  destruct t; simpl; [unfold bm_scan | unfold sl_scan, visible_scan]; by rewrite scan_steps.
Qed.

Lemma mt_is_empty_entries t : mt_is_empty t = match mt_entries t with [] => true | _ => false end.
Proof.
  destruct t; simpl; [done|]. unfold sl_is_empty, sl_entries. rewrite sm_len_iter.
  destruct (sm_iter _); [done|]. rewrite len_cons. simpl. pose proof (len_nonneg l).
  by apply Z.eqb_neq; lia.
Qed.

(** C28: after any history of writes in which an internal key is not
    written with two different values, [get] of either memtable returns the
    newest version of the key visible at the read sequence: a put's value, a
    tombstone, or nothing when no version is visible. *)
Theorem memtable_get_newest kind ops key read_seq :
  consistent (map op_entry ops) ->
  mt_get key read_seq (mt_run kind ops) = newest key read_seq (map op_entry ops).
Proof.
  intros Hc. pose proof (mt_run_sorted kind ops) as Hs.
  rewrite mt_get_entries, get_loop_newest by by apply sorted_lt_entries.
  symmetry. apply newest_ext; [done|]. intros e _. by rewrite mt_run_elem.
Qed.

(** the rows a memtable's [scan] returns are the live keys within
    the bounds, in ascending order, with the values [get] returns. *)
Theorem memtable_scan_rows kind ops lower upper read_seq :
  consistent (map op_entry ops) ->
  scan_spec lower upper read_seq (map op_entry ops)
    (mt_scan lower upper read_seq (mt_run kind ops)).
Proof.
  intros Hc. pose proof (mt_run_sorted kind ops) as Hs.
  rewrite mt_scan_entries.
  destruct (live_rows_scan lower upper read_seq _ (sorted_lt_entries _ Hs)) as [H1 H2].
  split; [done|]. intros k v. rewrite H2. erewrite (newest_ext k read_seq (map op_entry ops));
    [done | done |]. intros e _. by rewrite mt_run_elem.
Qed.

Lemma mt_run_entries_kind kind kind' ops :
  mt_entries (mt_run kind ops) = mt_entries (mt_run kind' ops).
Proof.
  induction ops as [|op ops IH] using rev_ind.
  - unfold mt_run. simpl. by rewrite !mt_new_entries.
  - by rewrite !mt_run_snoc, !mt_apply_entries, IH.
Qed.

(** the two kinds of memtable cannot be told apart by reads: after
    the same writes they hold the same entries and answer every [get], [scan]
    and [is_empty] alike. *)
Theorem memtable_kinds_agree ops :
  let b := mt_run KBTree ops in
  let l := mt_run KSkipList ops in
  mt_entries b = mt_entries l /\
  (forall key s, mt_get key s b = mt_get key s l) /\
  (forall lo hi s, mt_scan lo hi s b = mt_scan lo hi s l) /\
  mt_is_empty b = mt_is_empty l.
Proof.
  intros b l. pose proof (mt_run_entries_kind KBTree KSkipList ops) as E. fold b l in E.
  split; [done|]. split; [|split].
  - intros key s. by rewrite !mt_get_entries, E.
  - intros lo hi s. by rewrite !mt_scan_entries, E.
  - by rewrite !mt_is_empty_entries, E.
Qed.
End memtable_ok.

(** ** The properties on a short history *)

Section memtable_examples.
#[local] Existing Instance toy_skip_map.

Definition example_ops : list MemOp :=
  [OpPut 1 [1] [10]; OpPut 2 [2] [20]; OpDelete 3 [1]; OpPut 4 [] [40]].

Lemma memtable_get_newest_witness :
  consistent (map op_entry example_ops) /\
  mt_get [1] 2 (mt_run KSkipList example_ops) = newest [1] 2 (map op_entry example_ops) /\
  newest [1] 2 (map op_entry example_ops) = Some (RPut [10]).
Proof.
  assert (consistent (map op_entry example_ops)) as Hc by by apply (bool_decide_unpack _); vm_compute.
  split; [exact Hc|]. split; [by apply memtable_get_newest | by vm_compute].
Defined.

Lemma memtable_scan_rows_witness :
  consistent (map op_entry example_ops) /\
  scan_spec Unbounded (Included [2]) 4 (map op_entry example_ops) [([], [40]); ([2], [20])].
Proof.
  assert (consistent (map op_entry example_ops)) as Hc by by apply (bool_decide_unpack _); vm_compute.
  split; [exact Hc|].
  exact (memtable_scan_rows KBTree example_ops Unbounded (Included [2]) 4 Hc).
Defined.

Lemma memtable_kinds_agree_witness :
  mt_entries (mt_run KBTree example_ops) = mt_entries (mt_run KSkipList example_ops) /\
  len (mt_entries (mt_run KBTree example_ops)) = 4.
Proof. split; [apply (memtable_kinds_agree example_ops) | by vm_compute]. Defined.
End memtable_examples.
