(* ===== verification/Iterators.v ===== *)
(** * Iterators

    [src/iterator/]: the interface of a storage iterator, the iterator over a
    list of entries, the merging and the concatenating iterators, and the
    iterator over the rows of the database.

    [StorageIterator] is the trait; [W] is the world its methods run in (the
    file system and the block cache for a table).  [StorageIteratorOk] is what
    an implementation promises and a client relies on. *)

From Stdlib Require Import Sorting.Sorted.
From stdpp Require Import base list gmap sorting.
From S2P Require Import Prelude Key Spec Memtable.

(** ** [storage_iterator.rs] *)

Class StorageIterator (I W : Type) : Type := {
  it_is_valid : I -> bool;
  it_key : I -> res InternalKey;
  it_value : I -> res ValueRecord;
  it_next : M (I * W) unit;
  it_seek : InternalKey -> M (I * W) unit
}.

(** [it_rep i rest]: [i] stands before the entries [rest].  [it_fresh i all]:
    [i] has not moved yet and runs over [all].  The contract holds in the
    worlds [ok] describes (no I/O failure, a cache that agrees with the
    files), and the methods stay in them. *)
Class IteratorModel (I : Type) : Type := {
  it_fresh : I -> list entry -> Prop;
  it_rep : I -> list entry -> Prop
}.

Class StorageIteratorOk (I W : Type) (ok : W -> Prop)
    `{!StorageIterator I W, !IteratorModel I} : Prop := {
  it_fresh_rep : forall i all, it_fresh i all -> it_rep i all;
  it_valid_ok : forall i rest,
    it_rep i rest -> it_is_valid i = match rest with [] => false | _ => true end;
  it_key_ok : forall i e rest, it_rep i (e :: rest) -> it_key i = Ok e.1;
  it_value_ok : forall i e rest, it_rep i (e :: rest) -> it_value i = Ok e.2;
  it_next_ok : forall i rest w,
    it_rep i rest -> ok w ->
    exists i' w', it_next (i, w) = (Ok tt, (i', w')) /\ it_rep i' (tail rest) /\ ok w';
  it_seek_ok : forall i all w k,
    it_fresh i all -> sorted_entries all -> ok w ->
    exists i' w', it_seek k (i, w) = (Ok tt, (i', w')) /\
      it_rep i' (bt_range_from ikey_cmp k all) /\ ok w'
}.

(** Reading an iterator to its end: the way every client uses one. *)
Fixpoint drain {I W} `{!StorageIterator I W} (fuel : nat) : M (I * W) (list entry) :=
  match fuel with
  | O => panic
  | S fuel =>
      s ← get_state;
      if negb (it_is_valid s.1) then mret []
      else
        key ← lift (it_key s.1);
        value ← lift (it_value s.1);
        _ ← it_next;
        rest ← drain fuel;
        mret ((key, value) :: rest)
  end.

Lemma drain_ok {I W} (ok : W -> Prop)
    `{!StorageIterator I W, !IteratorModel I, !StorageIteratorOk I W ok} fuel (i : I) rest w :
  it_rep i rest -> ok w -> (length rest < fuel)%nat ->
  exists i' w', drain fuel (i, w) = (Ok rest, (i', w')) /\ ok w'.
Proof.
  revert i rest w. induction fuel as [|fuel IH]; intros i rest w Hr Hw Hf; [lia|].
  cbn [drain]. rewrite bind_get_state. cbn [fst].
  rewrite (it_valid_ok _ _ Hr). destruct rest as [|[k v] rest]; cbn [negb]; [by exists i, w|].
  rewrite (it_key_ok _ _ _ Hr), (it_value_ok _ _ _ Hr). erewrite !bind_ok by done.
  destruct (it_next_ok _ _ _ Hr Hw) as (i1 & w1 & E & Hr1 & Hw1). erewrite bind_ok by exact E.
  simpl in Hf. destruct (IH i1 rest w1) as (i2 & w2 & E2 & Hw2); [done|done|lia|].
  erewrite bind_ok by exact E2. by exists i2, w2.
Qed.

(** A [Vec] indexed by a [usize]: out of range is a panic. *)
Definition index_vec {A} (l : list A) (i : nat) : res A :=
  match l !! i with Some x => Ok x | None => Panic end.

Record EntryIterator : Type := mkEntryIterator {
  ei_entries : list entry;
  ei_index : nat
}.

Definition entry_iter_new (entries : list entry) : EntryIterator :=
  mkEntryIterator (sort_by (cmp_key ikey_cmp) entries) 0.

Definition entry_iter_is_valid (self : EntryIterator) : bool :=
  bool_decide (ei_index self < length (ei_entries self))%nat.

Definition entry_iter_next (self : EntryIterator) : EntryIterator :=
  if bool_decide (ei_index self < length (ei_entries self))%nat
  then mkEntryIterator (ei_entries self) (S (ei_index self))
  else self.

Definition entry_iter_seek (key : InternalKey) (self : EntryIterator) : EntryIterator :=
  mkEntryIterator (ei_entries self)
    (partition_point (fun e : entry => ltb ikey_cmp e.1 key) (ei_entries self)).

#[export] Instance entry_storage_iterator {W} : StorageIterator EntryIterator W := {|
  it_is_valid := entry_iter_is_valid;
  it_key self := fst <$> index_vec (ei_entries self) (ei_index self);
  it_value self := snd <$> index_vec (ei_entries self) (ei_index self);
  it_next := modify (fun s => (entry_iter_next s.1, s.2));
  it_seek key := modify (fun s => (entry_iter_seek key s.1, s.2))
|}.

(** [Box<dyn StorageIterator>] over two implementations. *)
#[export] Instance sum_storage_iterator {I J W} `{!StorageIterator I W, !StorageIterator J W} :
    StorageIterator (I + J) W := {|
  it_is_valid self := match self with inl i => it_is_valid i | inr j => it_is_valid j end;
  it_key self := match self with inl i => it_key i | inr j => it_key j end;
  it_value self := match self with inl i => it_value i | inr j => it_value j end;
  it_next s :=
    match s.1 with
    | inl i => let '(r, (i, w)) := it_next (i, s.2) in (r, (inl i, w))
    | inr j => let '(r, (j, w)) := it_next (j, s.2) in (r, (inr j, w))
    end;
  it_seek k s :=
    match s.1 with
    | inl i => let '(r, (i, w)) := it_seek k (i, s.2) in (r, (inl i, w))
    | inr j => let '(r, (j, w)) := it_seek k (j, s.2) in (r, (inr j, w))
    end
|}.

(** [Iterator::min_by]: the first of the least elements. *)
Fixpoint min_by_from {A} (compare : A -> A -> res comparison) (best : A) (l : list A) : res A :=
  match l with
  | [] => Ok best
  | y :: l =>
      c ← compare best y;
      match c with
      | Gt => min_by_from compare y l
      | _ => min_by_from compare best l
      end
  end.

Definition min_by {A} (compare : A -> A -> res comparison) (l : list A) : res (option A) :=
  match l with
  | [] => Ok None
  | x :: l => Some <$> min_by_from compare x l
  end.

(** [iter().enumerate()] from an index on. *)
Fixpoint enumerate {A} (i : nat) (l : list A) : list (nat * A) :=
  match l with [] => [] | x :: l => (i, x) :: enumerate (S i) l end.

(** ** [merge_iterator.rs] and [two_merge_iterator.rs] *)

Section merge.
Context {I W : Type} `{!StorageIterator I W}.

Record MergeIterator : Type := mkMergeIterator {
  mi_children : list I;
  mi_current : option nat
}.

Definition child_compare (left right : nat * I) : res comparison :=
  lk ← it_key left.2;
  rk ← it_key right.2;
  mret (then_with (ikey_cmp lk rk) (left.1 ?= right.1)%nat).

Definition valid_children (children : list I) : list (nat * I) :=
  filter (fun c => it_is_valid c.2 = true) (enumerate 0 children).

Definition pick_current (children : list I) : res (option nat) :=
  fmap (M := option) fst <$> min_by child_compare (valid_children children).

Definition merge_iter_new (children : list I) : res MergeIterator :=
  current ← pick_current children;
  mret (mkMergeIterator children current).

Definition merge_repick : M (MergeIterator * W) unit :=
  s ← get_state;
  current ← lift (pick_current (mi_children s.1));
  modify (fun s => (mkMergeIterator (mi_children s.1) current, s.2)).

(** A method of [children[i]]. *)
Definition on_child (i : nat) (m : M (I * W) unit) : M (MergeIterator * W) unit := fun s =>
  match mi_children s.1 !! i with
  | None => (Panic, s)
  | Some c =>
      let '(r, (c, w)) := m (c, s.2) in
      (r, (mkMergeIterator (<[i := c]> (mi_children s.1)) (mi_current s.1), w))
  end.

Definition current_child (self : MergeIterator) : res I :=
  match mi_current self with
  | None => Panic
  | Some i => index_vec (mi_children self) i
  end.

Definition merge_iter_is_valid (self : MergeIterator) : bool :=
  match mi_current self with Some _ => true | None => false end.

Definition merge_iter_key (self : MergeIterator) : res InternalKey :=
  c ← current_child self; it_key c.

Definition merge_iter_value (self : MergeIterator) : res ValueRecord :=
  c ← current_child self; it_value c.

Definition merge_iter_next : M (MergeIterator * W) unit :=
  s ← get_state;
  _ ← match mi_current s.1 with
      | Some current => on_child current it_next
      | None => mret tt
      end;
  merge_repick.

Definition merge_iter_seek (key : InternalKey) : M (MergeIterator * W) unit :=
  s ← get_state;
  _ ← for_each (seq 0 (length (mi_children s.1))) (fun i _ => on_child i (it_seek key)) tt;
  merge_repick.

Definition two_merge_iter_new (left right : I) : res MergeIterator :=
  merge_iter_new [left; right].
End merge.
Arguments MergeIterator I : clear implicits.

#[export] Instance merge_storage_iterator {I W} `{!StorageIterator I W} :
    StorageIterator (MergeIterator I) W := {|
  it_is_valid := merge_iter_is_valid;
  it_key := merge_iter_key;
  it_value := merge_iter_value;
  it_next := merge_iter_next;
  it_seek := merge_iter_seek
|}.

(** [TwoMergeIterator] wraps a merging iterator over two children and forwards
    every method to it. *)
Record TwoMergeIterator (I : Type) : Type := mkTwoMergeIterator { tm_inner : MergeIterator I }.
Arguments mkTwoMergeIterator {I} _.
Arguments tm_inner {I} _.

Definition on_tm {I W} (m : M (MergeIterator I * W) unit) : M (TwoMergeIterator I * W) unit :=
  zoom (fun s => (tm_inner s.1, s.2)) (fun t _ => (mkTwoMergeIterator t.1, t.2)) m.

#[export] Instance two_merge_storage_iterator {I W} `{!StorageIterator I W} :
    StorageIterator (TwoMergeIterator I) W := {|
  it_is_valid self := merge_iter_is_valid (tm_inner self);
  it_key self := merge_iter_key (tm_inner self);
  it_value self := merge_iter_value (tm_inner self);
  it_next := on_tm merge_iter_next;
  it_seek key := on_tm (merge_iter_seek key)
|}.

(** ** [concat_iterator.rs] *)

Section concat.
Context {I W : Type} `{!StorageIterator I W}.

Record ConcatIterator : Type := mkConcatIterator {
  ci_children : list I;
  ci_current : nat
}.

(** The loop of [skip_empty], over the children from [current] on. *)
Fixpoint skip_empty_from (current : nat) (rest : list I) : nat :=
  match rest with
  | [] => current
  | c :: rest => if it_is_valid c then current else skip_empty_from (S current) rest
  end.

Definition skip_empty (self : ConcatIterator) : ConcatIterator :=
  mkConcatIterator (ci_children self)
    (skip_empty_from (ci_current self) (drop (ci_current self) (ci_children self))).

Definition concat_iter_new (children : list I) : ConcatIterator :=
  skip_empty (mkConcatIterator children 0).

Definition concat_iter_is_valid (self : ConcatIterator) : bool :=
  match ci_children self !! ci_current self with
  | Some c => it_is_valid c
  | None => false
  end.

Definition concat_iter_key (self : ConcatIterator) : res InternalKey :=
  c ← index_vec (ci_children self) (ci_current self); it_key c.

Definition concat_iter_value (self : ConcatIterator) : res ValueRecord :=
  c ← index_vec (ci_children self) (ci_current self); it_value c.

Definition on_concat_child (i : nat) (m : M (I * W) unit) : M (ConcatIterator * W) unit :=
  fun s =>
  match ci_children s.1 !! i with
  | None => (Panic, s)
  | Some c =>
      let '(r, (c, w)) := m (c, s.2) in
      (r, (mkConcatIterator (<[i := c]> (ci_children s.1)) (ci_current s.1), w))
  end.

Definition concat_iter_next : M (ConcatIterator * W) unit :=
  s ← get_state;
  if bool_decide (ci_current s.1 < length (ci_children s.1))%nat then
    _ ← on_concat_child (ci_current s.1) it_next;
    modify (fun s => (skip_empty s.1, s.2))
  else mret tt.

(** The loop of [seek], over the children from [index] on; its result is the
    new [current]. *)
Fixpoint concat_seek_loop (key : InternalKey) (index n : nat) : M (ConcatIterator * W) nat :=
  match n with
  | O => mret index
  | S n =>
      _ ← on_concat_child index (it_seek key);
      s ← get_state;
      match ci_children s.1 !! index with
      | Some c => if it_is_valid c then mret index else concat_seek_loop key (S index) n
      | None => panic
      end
  end.

Definition concat_iter_seek (key : InternalKey) : M (ConcatIterator * W) unit :=
  s ← get_state;
  current ← concat_seek_loop key 0 (length (ci_children s.1));
  modify (fun s => (mkConcatIterator (ci_children s.1) current, s.2)).
End concat.
Arguments ConcatIterator I : clear implicits.

#[export] Instance concat_storage_iterator {I W} `{!StorageIterator I W} :
    StorageIterator (ConcatIterator I) W := {|
  it_is_valid := concat_iter_is_valid;
  it_key := concat_iter_key;
  it_value := concat_iter_value;
  it_next := concat_iter_next;
  it_seek := concat_iter_seek
|}.

(** ** [db_iterator.rs] *)

Section db_iterator.
Context {I W : Type} `{!StorageIterator I W}.

Record DBIterator : Type := mkDBIterator {
  dbi_inner : I;
  dbi_lower : Bound;
  dbi_upper : Bound;
  dbi_read_seq : u64;
  dbi_seen : gset bytes;
  dbi_current : option (bytes * bytes)
}.

Definition dbi_with_inner (inner : I) (self : DBIterator) : DBIterator :=
  mkDBIterator inner (dbi_lower self) (dbi_upper self) (dbi_read_seq self) (dbi_seen self)
    (dbi_current self).

Definition dbi_with_seen (seen : gset bytes) (self : DBIterator) : DBIterator :=
  mkDBIterator (dbi_inner self) (dbi_lower self) (dbi_upper self) (dbi_read_seq self) seen
    (dbi_current self).

Definition dbi_with_current (current : option (bytes * bytes)) (self : DBIterator) :
    DBIterator :=
  mkDBIterator (dbi_inner self) (dbi_lower self) (dbi_upper self) (dbi_read_seq self)
    (dbi_seen self) current.

Definition on_inner (m : M (I * W) unit) : M (DBIterator * W) unit :=
  zoom (fun s => (dbi_inner s.1, s.2)) (fun t s => (dbi_with_inner t.1 s.1, t.2)) m.

Definition modify_dbi (f : DBIterator -> DBIterator) : M (DBIterator * W) unit :=
  modify (fun s => (f s.1, s.2)).

(** The loop of [advance_to_next_visible]; [fuel] bounds the iterations and a
    run that exhausts it does not return. *)
Fixpoint advance_loop (fuel : nat) : M (DBIterator * W) unit :=
  match fuel with
  | O => panic
  | S fuel =>
      s ← get_state;
      let self := s.1 in
      if negb (it_is_valid (dbi_inner self)) then mret tt
      else
        internal_key ← lift (it_key (dbi_inner self));
        value ← lift (it_value (dbi_inner self));
        _ ← on_inner it_next;
        if dbi_read_seq self <? sequence internal_key then advance_loop fuel
        else
          let user_key := user_key internal_key in
          if negb (within_bounds user_key (dbi_lower self) (dbi_upper self))
          then advance_loop fuel
          else if bool_decide (user_key ∈ dbi_seen self) then advance_loop fuel
          else
            _ ← modify_dbi (fun self => dbi_with_seen ({[user_key]} ∪ dbi_seen self) self);
            match value with
            | RPut value => modify_dbi (dbi_with_current (Some (user_key, value)))
            | RDelete => advance_loop fuel
            end
  end.

Definition advance_to_next_visible (fuel : nat) : M (DBIterator * W) unit :=
  _ ← modify_dbi (dbi_with_current None);
  advance_loop fuel.

Definition lower_bound_seek_key (lower : Bound) : option InternalKey :=
  match lower with
  | Included key => Some (mkInternalKey key u64_max VPut)
  | Excluded key => Some (mkInternalKey key 0 VDelete)
  | Unbounded => None
  end.

Definition seek_to_lower_bound : M (DBIterator * W) unit :=
  s ← get_state;
  match lower_bound_seek_key (dbi_lower s.1) with
  | Some target => on_inner (it_seek target)
  | None => mret tt
  end.

Definition dbi_try_new (fuel : nat) (inner : I) (lower upper : Bound) (read_seq : u64) :
    M W DBIterator :=
  with_local (mkDBIterator inner lower upper read_seq ∅ None)
    (_ ← seek_to_lower_bound; _ ← advance_to_next_visible fuel; s ← get_state; mret s.1).

(** [new]: an error of [try_new] is a failed [expect]. *)
Definition dbi_new (fuel : nat) (inner : I) (lower upper : Bound) (read_seq : u64) :
    M W DBIterator := fun w =>
  match dbi_try_new fuel inner lower upper read_seq w with
  | (Err _, w) => (Panic, w)
  | r => r
  end.

Definition dbi_is_valid (self : DBIterator) : bool :=
  match dbi_current self with Some _ => true | None => false end.
Definition dbi_key (self : DBIterator) : option bytes := fst <$> dbi_current self.
Definition dbi_value (self : DBIterator) : option bytes := snd <$> dbi_current self.

Definition dbi_next (fuel : nat) : M (DBIterator * W) unit :=
  s ← get_state;
  match dbi_current s.1 with
  | Some _ => advance_to_next_visible fuel
  | None => mret tt
  end.

(** The loop of [collect], with a bound on the rows. *)
Fixpoint dbi_collect_loop (fuel n : nat) (rows : list (bytes * bytes)) :
    M (DBIterator * W) (list (bytes * bytes)) :=
  match n with
  | O => panic
  | S n =>
      s ← get_state;
      if dbi_is_valid s.1 then
        match dbi_key s.1, dbi_value s.1 with
        | Some key, Some value =>
            _ ← dbi_next fuel; dbi_collect_loop fuel n (rows ++ [(key, value)])
        | _, _ => panic
        end
      else mret rows
  end.

Definition dbi_collect (fuel : nat) : M (DBIterator * W) (list (bytes * bytes)) :=
  dbi_collect_loop fuel fuel [].
End db_iterator.
Arguments DBIterator I : clear implicits.

(** ** The contract, for each iterator *)

#[export] Instance entry_model : IteratorModel EntryIterator := {|
  it_fresh i all := ei_index i = 0%nat /\ ei_entries i = all;
  it_rep i rest := drop (ei_index i) (ei_entries i) = rest
|}.

Lemma drop_cons_lookup {A} n (l : list A) x r : drop n l = x :: r -> l !! n = Some x.
Proof. intros H. rewrite <- (Nat.add_0_r n), <- lookup_drop, H. done. Qed.

#[export] Instance entry_iterator_ok {W} (ok : W -> Prop) : StorageIteratorOk EntryIterator W ok.
Proof.
  split; simpl.
  - intros i all [-> <-]. done.
  - intros i rest <-. unfold entry_iter_is_valid.
    destruct (drop (ei_index i) (ei_entries i)) as [|e r] eqn:E.
    + apply bool_decide_eq_false_2. apply (f_equal length) in E.
      rewrite length_drop in E. simpl in E. lia.
    + apply bool_decide_eq_true_2. by apply drop_cons_lookup, lookup_lt_Some in E.
  - intros i e rest H. unfold index_vec. by rewrite (drop_cons_lookup _ _ _ _ H).
  - intros i e rest H. unfold index_vec. by rewrite (drop_cons_lookup _ _ _ _ H).
  - intros i rest w H Hw. eexists _, w. split; [reflexivity|]. split; [|done].
    rewrite <- H. simpl. unfold entry_iter_next. case_bool_decide as Hlt; simpl.
    + change (S (ei_index i)) with (1 + ei_index i)%nat. rewrite Nat.add_comm, <- drop_drop.
      by destruct (drop (ei_index i) (ei_entries i)).
    + by rewrite drop_ge by lia.
  - intros i all w k [_ <-] Hs Hw. eexists _, w. split; [reflexivity|]. split; [|done].
    simpl. apply drop_partition_point; [apply _ | done].
Qed.

Lemma entry_iter_new_fresh es : it_fresh (entry_iter_new es) (sort_by (cmp_key ikey_cmp) es).
Proof. done. Qed.

#[export] Instance sum_model {I J} `{!IteratorModel I, !IteratorModel J} :
    IteratorModel (I + J) := {|
  it_fresh s all := match s with inl i => it_fresh i all | inr j => it_fresh j all end;
  it_rep s rest := match s with inl i => it_rep i rest | inr j => it_rep j rest end
|}.

#[export] Instance sum_iterator_ok {I J W} (ok : W -> Prop)
    `{!StorageIterator I W, !StorageIterator J W, !IteratorModel I, !IteratorModel J,
      !StorageIteratorOk I W ok, !StorageIteratorOk J W ok} :
  StorageIteratorOk (I + J) W ok.
Proof.
  split.
  - intros [i|j] all; simpl; apply it_fresh_rep.
  - intros [i|j] rest; simpl; apply it_valid_ok.
  - intros [i|j] e rest; simpl; apply it_key_ok.
  - intros [i|j] e rest; simpl; apply it_value_ok.
  - intros [i|j] rest w H Hw; simpl in *;
      destruct (it_next_ok _ _ _ H Hw) as (i' & w' & E & Hr & Hw'); rewrite E;
      by eexists _, _.
  - intros [i|j] all w k H Hs Hw; simpl in *;
      destruct (it_seek_ok _ _ _ k H Hs Hw) as (i' & w' & E & Hr & Hw'); rewrite E;
      by eexists _, _.
Qed.

(** *** The least element *)

Lemma min_by_from_spec {A K} (cmp : K -> K -> comparison) `{!OrdLaws cmp} (f : A -> K)
    (compare : A -> A -> res comparison) best l :
  (forall x y, x ∈ best :: l -> y ∈ best :: l -> compare x y = Ok (cmp (f x) (f y))) ->
  exists m, min_by_from compare best l = Ok m /\ m ∈ best :: l /\
    forall x, x ∈ best :: l -> ord_le cmp (f m) (f x).
Proof.
  revert best. induction l as [|y l IH]; intros best Hc.
  { exists best. split; [done|]. split; [by left|]. intros x Hx.
    apply list_elem_of_singleton in Hx as ->. by apply ord_le_refl. }
  simpl. rewrite Hc by (rewrite !elem_of_cons; tauto). simpl.
  destruct (cmp (f best) (f y)) eqn:E.
  3: { destruct (IH y) as (m & Em & Hm & Hle).
       { intros x z Hx Hz. apply Hc; by right. }
       exists m. split; [done|]. split; [by right|]. intros x Hx.
       apply elem_of_cons in Hx as [-> | Hx]; [|by apply Hle].
       apply (ord_le_trans cmp _ (f y)); [apply Hle; by left|].
       apply ord_lt_le; [done|]. by apply ord_gt_lt. }
  all: destruct (IH best) as (m & Em & Hm & Hle);
    [intros x z Hx Hz; apply Hc; apply elem_of_cons in Hx, Hz; rewrite !elem_of_cons; tauto|].
  all: exists m; split; [done|]; split; [apply elem_of_cons in Hm; rewrite !elem_of_cons; tauto|].
  all: intros x Hx; apply elem_of_cons in Hx as [-> | [-> | Hx]%elem_of_cons];
    [apply Hle; by left | | apply Hle; by right].
  all: apply (ord_le_trans cmp _ (f best)); [apply Hle; by left | unfold ord_le; congruence].
Qed.

Lemma elem_of_enumerate {A} i (l : list A) j x :
  (j, x) ∈ enumerate i l <-> exists n, j = (i + n)%nat /\ l !! n = Some x.
Proof.
  revert i. induction l as [|y l IH]; intros i; simpl.
  - rewrite elem_of_nil. split; [done|]. by intros (n & _ & H).
  - rewrite elem_of_cons, IH. split.
    + intros [[= -> ->] | (n & -> & Hn)]; [exists 0%nat | exists (S n)]; split; auto; lia.
    + intros ([|n] & -> & Hn).
      * left. injection Hn as ->. f_equal. lia.
      * right. exists n. split; [lia | done].
Qed.

(** *** Merging *)

Section merge_ok.
Context {I W : Type} (ok : W -> Prop)
  `{!StorageIterator I W, !IteratorModel I, !StorageIteratorOk I W ok}.

(** What [pick_current] finds: the least head, the first child having it. *)
Definition least_head (rests : list (list entry)) (i : nat) (e : entry) : Prop :=
  forall j e' r', rests !! j = Some (e' :: r') ->
    ord_le ikey_cmp e.1 e'.1 /\ ((j < i)%nat -> ikey_cmp e.1 e'.1 = Lt).

Lemma valid_children_elem children rests i c :
  Forall2 it_rep children rests ->
  (i, c) ∈ valid_children children <->
  exists e r, children !! i = Some c /\ rests !! i = Some (e :: r).
Proof.
  intros Hr. unfold valid_children. rewrite list_elem_of_filter, elem_of_enumerate. simpl. split.
  - intros (Hv & n & -> & Hn). destruct (Forall2_lookup_l _ _ _ _ _ Hr Hn) as (rest & Hl & Hrep).
    rewrite (it_valid_ok _ _ Hrep) in Hv. destruct rest as [|e r]; [done|]. eauto.
  - intros (e & r & Hc & Hl). destruct (Forall2_lookup_l _ _ _ _ _ Hr Hc) as (rest & Hl' & Hrep).
    rewrite Hl in Hl'. injection Hl' as <-. split; [|eauto].
    by rewrite (it_valid_ok _ _ Hrep).
Qed.

Lemma pick_current_spec children rests :
  Forall2 it_rep children rests ->
  exists current, pick_current children = Ok current /\
    match current with
    | None => Forall (fun r => r = []) rests
    | Some i => exists c e r, children !! i = Some c /\ rests !! i = Some (e :: r) /\
        least_head rests i e
    end.
Proof.
  intros Hr. pose proof (fun i c => valid_children_elem children rests i c Hr) as Hin.
  assert (forall i c e r, (i, c) ∈ valid_children children -> rests !! i = Some (e :: r) ->
    it_key c = Ok e.1) as Hkey.
  { intros i c e r (e' & r' & Hc & Hl)%Hin Hl'. rewrite Hl in Hl'. injection Hl' as -> ->.
    destruct (Forall2_lookup_l _ _ _ _ _ Hr Hc) as (rest & Hl' & Hrep).
    rewrite Hl in Hl'. injection Hl' as <-. by apply (it_key_ok c e r). }
  set (f := fun x : nat * I =>
    (match it_key x.2 with Ok k => k | _ => mkInternalKey [] 0 VPut end, x.1)).
  unfold pick_current, min_by. destruct (valid_children children) as [|x l] eqn:El.
  { exists None. split; [done|]. apply Forall_lookup. intros i [|e r] Hi; [done|].
    destruct (Forall2_lookup_r _ _ _ _ _ Hr Hi) as (c & Hc & _).
    assert ((i, c) ∈ []) as H by (apply Hin; eauto). by apply elem_of_nil in H. }
  rewrite <- El in Hin, Hkey.
  destruct (min_by_from_spec (pair_cmp ikey_cmp Nat.compare) f child_compare x l)
    as ([i c] & Em & Hm & Hle).
  { intros [j cj] [k ck] Hj Hk. rewrite <- El in Hj, Hk.
    apply Hin in Hj as Hj'. apply Hin in Hk as Hk'.
    destruct Hj' as (ej & rj & _ & Hlj), Hk' as (ek & rk & _ & Hlk).
    unfold child_compare, f. cbn [fst snd].
    rewrite (Hkey _ _ _ _ Hj Hlj), (Hkey _ _ _ _ Hk Hlk). done. }
  rewrite Em. exists (Some i). split; [done|]. rewrite <- El in Hm, Hle.
  apply Hin in Hm as (e & r & Hc & Hl). exists c, e, r. split; [done|]. split; [done|].
  intros j e' r' Hj. destruct (Forall2_lookup_r _ _ _ _ _ Hr Hj) as (cj & Hcj & _).
  assert ((i, c) ∈ valid_children children) as Hi by (apply Hin; eauto).
  assert ((j, cj) ∈ valid_children children) as Hj' by (apply Hin; eauto).
  specialize (Hle _ Hj'). unfold f, ord_le, pair_cmp in Hle. cbn [fst snd] in Hle.
  rewrite (Hkey _ _ _ _ Hi Hl), (Hkey _ _ _ _ Hj' Hj) in Hle. unfold then_with, ord_le in *.
  destruct (ikey_cmp e.1 e'.1); [|done..].
  split; [done|]. intros Hlt. exfalso. apply Hle. by apply Nat.compare_gt_iff.
Qed.

Lemma concat_elem_lookup {A} (x : A) (ls : list (list A)) :
  x ∈ concat ls <-> exists j l, ls !! j = Some l /\ x ∈ l.
Proof.
  rewrite list_elem_of_In, in_concat. split.
  - intros (l & Hl & Hx). apply list_elem_of_In, list_elem_of_lookup in Hl as [j Hj].
    exists j, l. by rewrite list_elem_of_In.
  - intros (j & l & Hj & Hx). exists l. split; [|by apply list_elem_of_In].
    apply list_elem_of_In. by apply list_elem_of_lookup_2 in Hj.
Qed.

(** The least head comes first in the sorted union. *)
Lemma merge_head rests i e r :
  Forall sorted_entries rests -> rests !! i = Some (e :: r) -> least_head rests i e ->
  sort_by (cmp_key ikey_cmp) (concat rests)
  = e :: sort_by (cmp_key ikey_cmp) (concat (<[i := r]> rests)).
Proof.
  intros Hs Hi Hle. pose proof (lookup_lt_Some _ _ _ Hi) as Hlt.
  assert (Hmem : forall j l x, rests !! j = Some l -> x ∈ l ->
    ord_le ikey_cmp e.1 x.1 /\ ((j < i)%nat -> ikey_cmp e.1 x.1 = Lt)).
  { intros j [|y l] x Hj Hx; [by apply elem_of_nil in Hx|].
    destruct (Hle _ _ _ Hj) as [H1 H2].
    assert (ord_le ikey_cmp y.1 x.1) as Hyx.
    { apply elem_of_cons in Hx as [-> | Hx]; [by apply ord_le_refl; apply _|].
      rewrite Forall_lookup in Hs. apply Hs in Hj. apply StronglySorted_inv in Hj as [_ Hf].
      rewrite Forall_forall in Hf. by apply Hf. }
    split; [by apply (ord_le_trans ikey_cmp _ y.1)|].
    intros Hji. apply (ord_lt_le_trans ikey_cmp _ y.1); auto. }
  rewrite <- (take_drop_middle rests i (e :: r)) at 1 by done.
  rewrite insert_take_drop by done. rewrite !concat_app. cbn [concat].
  rewrite <- (app_comm_cons _ _ e).
  apply sort_extract; [apply _| |]; apply Forall_forall; intros x Hx.
  - apply concat_elem_lookup in Hx as (j & l & Hj & Hx).
    apply lookup_take_Some in Hj as [Hj Hji]. unfold key_lt. by apply (Hmem j l).
  - unfold key_le. apply elem_of_app in Hx as [Hx | Hx].
    + apply (Hmem i (e :: r)); [done | by right].
    + apply concat_elem_lookup in Hx as (j & l & Hj & Hx).
      rewrite lookup_drop in Hj. by apply (Hmem (S i + j)%nat l).
Qed.

Lemma merge_all_empty (rests : list (list entry)) : Forall (fun r => r = []) rests -> concat rests = [].
Proof. induction 1 as [|r rests -> _ IH]; done. Qed.
End merge_ok.

(** The children of a merging iterator stand before [rests]. *)
Definition merging {I} `{!IteratorModel I} (children : list I) (rests : list (list entry))
    (rest : list entry) : Prop :=
  Forall2 it_rep children rests /\ Forall sorted_entries rests /\
  rest = sort_by (cmp_key ikey_cmp) (concat rests).

Section merge_model.
Context {I W : Type} `{!StorageIterator I W, !IteratorModel I}.

#[export] Instance merge_model : IteratorModel (MergeIterator I) := {|
  it_fresh m all := pick_current (mi_children m) = Ok (mi_current m) /\
    exists alls, Forall2 it_fresh (mi_children m) alls /\ Forall sorted_entries alls /\
      all = sort_by (cmp_key ikey_cmp) (concat alls);
  it_rep m rest := pick_current (mi_children m) = Ok (mi_current m) /\
    exists rests, merging (mi_children m) rests rest
|}.

Context (ok : W -> Prop) `{!StorageIteratorOk I W ok}.

Lemma fresh_reps (children : list I) alls :
  Forall2 it_fresh children alls -> Forall2 it_rep children alls.
Proof. intros H. eapply Forall2_impl; [exact H|]. intros. by apply it_fresh_rep. Qed.

Lemma merge_repick_ok (m : MergeIterator I) (w : W) rests rest :
  merging (mi_children m) rests rest ->
  exists current, merge_repick (m, w) = (Ok tt, (mkMergeIterator (mi_children m) current, w)) /\
    it_rep (mkMergeIterator (mi_children m) current) rest.
Proof.
  intros Hm. destruct Hm as (Hr & Hs & ->).
  destruct (pick_current_spec ok _ _ Hr) as (current & E & _).
  exists current. split.
  - unfold merge_repick. rewrite bind_get_state. cbn [fst].
    erewrite bind_ok by (unfold lift; by rewrite E). done.
  - split; [done|]. by exists rests.
Qed.

(** What a merging iterator shows is the head of the sorted union. *)
Lemma merge_current (m : MergeIterator I) rest :
  it_rep m rest ->
  match mi_current m with
  | None => rest = []
  | Some i => exists c e r rests, mi_children m !! i = Some c /\ it_rep c (e :: r) /\
      merging (mi_children m) rests rest /\ rests !! i = Some (e :: r) /\
      rest = e :: sort_by (cmp_key ikey_cmp) (concat (<[i := r]> rests))
  end.
Proof.
  intros [Hp (rests & Hr & Hs & ->)].
  destruct (pick_current_spec ok _ _ Hr) as (current & E & H). rewrite E in Hp.
  injection Hp as <-. destruct current as [i|].
  - destruct H as (c & e & r & Hc & Hl & Hle). exists c, e, r, rests.
    split; [done|]. split; [|split; [by split|split; [done|by apply merge_head]]].
    destruct (Forall2_lookup_l _ _ _ _ _ Hr Hc) as (rest & Hl' & Hrep).
    rewrite Hl in Hl'. by injection Hl' as <-.
  - by rewrite merge_all_empty.
Qed.

Lemma merge_seek_loop k (dn todo : list I) alls (cur : option nat) (w : W) drests :
  Forall2 it_rep dn drests -> Forall2 it_fresh todo alls -> Forall sorted_entries alls ->
  ok w ->
  exists children w',
    for_each (seq (length dn) (length todo)) (fun i (_ : unit) => on_child i (it_seek k)) tt
      (mkMergeIterator (dn ++ todo) cur, w) = (Ok tt, (mkMergeIterator children cur, w')) /\
    Forall2 it_rep children (drests ++ map (bt_range_from ikey_cmp k) alls) /\ ok w'.
Proof.
  intros Hd Hf. revert dn w drests Hd.
  induction Hf as [|c all todo alls Hc Hf IH]; intros dn w drests Hd Hs Hw.
  { exists dn, w. simpl. rewrite !app_nil_r. done. }
  apply Forall_cons in Hs as [Hs1 Hs].
  destruct (it_seek_ok _ _ _ k Hc Hs1 Hw) as (c' & w1 & E & Hrep & Hw1).
  cbn [length seq for_each]. erewrite bind_ok.
  2: { unfold on_child. cbn [fst snd mi_children mi_current].
       rewrite list_lookup_middle by done. rewrite E. reflexivity. }
  rewrite insert_app_r_alt, Nat.sub_diag by done. cbn [list_insert insert].
  destruct (IH (dn ++ [c']) w1 (drests ++ [bt_range_from ikey_cmp k all])) as (ch & w' & E' & Hr & Hw');
    [by apply Forall2_app; [|constructor; [|constructor]] | done | done |].
  rewrite length_app, Nat.add_comm, <- app_assoc in E'. exists ch, w'.
  split; [exact E'|]. by rewrite <- app_assoc in Hr.
Qed.

(** The union of the ranges is the range of the union. *)
Lemma merge_ranges k (alls : list (list entry)) :
  sort_by (cmp_key ikey_cmp) (concat (map (bt_range_from ikey_cmp k) alls))
  = bt_range_from ikey_cmp k (sort_by (cmp_key ikey_cmp) (concat alls)).
Proof.
  unfold bt_range_from. rewrite sort_by_filter by apply _. f_equal.
  induction alls as [|l alls IH]; [done|]. cbn [map concat].
  by rewrite filter_app, IH.
Qed.

#[export] Instance merge_iterator_ok : StorageIteratorOk (MergeIterator I) W ok.
Proof.
  split.
  - intros m all [Hp (alls & Hf & Hs & ->)]. split; [done|]. exists alls.
    split; [by apply fresh_reps | done].
  - intros m rest Hr. apply merge_current in Hr. simpl. unfold merge_iter_is_valid.
    destruct (mi_current m); [|by subst]. by destruct Hr as (c & e & r & rests & _ & _ & _ & _ & ->).
  - intros m e rest Hr. apply merge_current in Hr. simpl.
    unfold merge_iter_key, current_child, index_vec. destruct (mi_current m); [|done].
    destruct Hr as (c & e' & r & rests & -> & Hrep & _ & _ & [= -> _]). simpl.
    by apply (it_key_ok c e' r).
  - intros m e rest Hr. apply merge_current in Hr. simpl.
    unfold merge_iter_value, current_child, index_vec. destruct (mi_current m); [|done].
    destruct Hr as (c & e' & r & rests & -> & Hrep & _ & _ & [= -> _]). simpl.
    by apply (it_value_ok c e' r).
  - intros m rest w Hr Hw. apply merge_current in Hr as Hcur. simpl.
    unfold merge_iter_next. rewrite bind_get_state. cbn [fst].
    destruct (mi_current m) as [i|] eqn:Ei.
    + destruct Hcur as (c & e & r & rests & Hc & Hrep & (Hreps & Hs & _) & Hl & ->).
      destruct (it_next_ok _ _ _ Hrep Hw) as (c' & w' & E & Hrep' & Hw').
      erewrite bind_ok by (unfold on_child; cbn [fst snd]; rewrite Hc, E; reflexivity).
      destruct (merge_repick_ok (mkMergeIterator (<[i:=c']> (mi_children m)) (mi_current m)) w'
        (<[i:=r]> rests) (sort_by (cmp_key ikey_cmp) (concat (<[i:=r]> rests))))
        as (cur & E' & Hrep2).
      { split; [by apply Forall2_insert|]. split; [|done]. apply Forall_insert; [done|].
        rewrite Forall_lookup in Hs. by apply Hs, StronglySorted_inv in Hl as [? _]. }
      rewrite E'. by eexists _, w'.
    + subst. erewrite bind_ok by done. destruct Hr as [_ [rests Hm]].
      destruct (merge_repick_ok m w rests [] Hm) as (cur & E' & Hrep2).
      rewrite E'. by eexists _, w.
  - intros m all w k [Hp (alls & Hf & Hs & ->)] Hss Hw. simpl.
    unfold merge_iter_seek. rewrite bind_get_state. cbn [fst].
    destruct (merge_seek_loop k [] (mi_children m) alls (mi_current m) w []) as (ch & w' & E & Hr & Hw');
      [done..|].
    destruct m as [children cur]. cbn [mi_children mi_current app length] in *.
    erewrite bind_ok by exact E.
    destruct (merge_repick_ok (mkMergeIterator ch cur) w'
      (map (bt_range_from ikey_cmp k) alls) (bt_range_from ikey_cmp k
        (sort_by (cmp_key ikey_cmp) (concat alls)))) as (cur' & E' & Hrep).
    { split; [done|]. split; [|by rewrite merge_ranges].
      apply Forall_map. eapply Forall_impl; [exact Hs|]. intros l Hl.
      apply bt_range_from_sorted, Hl. }
    rewrite E'. by eexists _, w'.
Qed.

(** A merging iterator over fresh children is fresh. *)
Lemma merge_iter_new_fresh (children : list I) alls :
  Forall2 it_fresh children alls -> Forall sorted_entries alls ->
  exists m, merge_iter_new children = Ok m /\
    it_fresh m (sort_by (cmp_key ikey_cmp) (concat alls)).
Proof.
  intros Hf Hs. destruct (pick_current_spec ok _ _ (fresh_reps _ _ Hf)) as (cur & E & _).
  exists (mkMergeIterator children cur). unfold merge_iter_new. rewrite E.
  split; [done|]. split; [done|]. by exists alls.
Qed.

#[export] Instance two_merge_model : IteratorModel (TwoMergeIterator I) := {|
  it_fresh m all := it_fresh (tm_inner m) all;
  it_rep m rest := it_rep (tm_inner m) rest
|}.

#[export] Instance two_merge_iterator_ok : StorageIteratorOk (TwoMergeIterator I) W ok.
Proof.
  split.
  - intros m all. exact (it_fresh_rep (tm_inner m) all).
  - intros m rest. exact (it_valid_ok (tm_inner m) rest).
  - intros m e rest. exact (it_key_ok (tm_inner m) e rest).
  - intros m e rest. exact (it_value_ok (tm_inner m) e rest).
  - intros m rest w H Hw. destruct (it_next_ok (tm_inner m) _ _ H Hw) as (i' & w' & E & Hr & Hw').
    simpl in *. unfold on_tm, zoom. cbn [fst snd]. rewrite E. by eexists _, w'.
  - intros m all w k H Hs Hw. destruct (it_seek_ok (tm_inner m) _ _ k H Hs Hw) as (i' & w' & E & Hr & Hw').
    simpl in *. unfold on_tm, zoom. cbn [fst snd]. rewrite E. by eexists _, w'.
Qed.
End merge_model.

(** *** Concatenation *)

(** The remaining entries are those of the children from the current one on,
    which has some unless there is none. *)
Definition head_nonempty (rests : list (list entry)) : Prop :=
  match rests with [] => True | r :: _ => r <> [] end.

Section concat_model.
Context {I W : Type} `{!StorageIterator I W, !IteratorModel I}.

#[export] Instance concat_model : IteratorModel (ConcatIterator I) := {|
  it_fresh c all := ci_current c = skip_empty_from 0 (ci_children c) /\
    exists alls, Forall2 it_fresh (ci_children c) alls /\ all = concat alls;
  it_rep c rest := exists rests,
    Forall2 it_rep (drop (ci_current c) (ci_children c)) rests /\
    head_nonempty rests /\ rest = concat rests
|}.

Context (ok : W -> Prop) `{!StorageIteratorOk I W ok}.

Lemma skip_empty_ok pre (cs : list I) rests :
  Forall2 it_rep cs rests ->
  exists rests',
    Forall2 it_rep (drop (skip_empty_from (length pre) cs) (pre ++ cs)) rests' /\
    head_nonempty rests' /\ concat rests' = concat rests.
Proof.
  intros Hr. revert pre. induction Hr as [|c r cs rests Hc Hr IH]; intros pre; simpl.
  { exists []. by rewrite app_nil_r, drop_all. }
  rewrite (it_valid_ok _ _ Hc). destruct r as [|e r].
  - destruct (IH (pre ++ [c])) as (rests' & H). exists rests'.
    by rewrite length_app, Nat.add_comm, <- app_assoc in H.
  - exists ((e :: r) :: rests). rewrite drop_app_length. split; [by constructor|]. done.
Qed.

Lemma concat_current (c : ConcatIterator I) rest :
  it_rep c rest ->
  match rest with
  | [] => ci_children c !! ci_current c = None
  | e :: _ => exists i r rests, ci_children c !! ci_current c = Some i /\ it_rep i (e :: r) /\
      Forall2 it_rep (drop (S (ci_current c)) (ci_children c)) rests /\
      rest = e :: r ++ concat rests
  end.
Proof.
  intros (rests & Hr & Hh & ->).
  destruct (drop (ci_current c) (ci_children c)) as [|i cs] eqn:E; inversion Hr as [|? r ? rs Hi Hrs]; subst.
  - simpl. apply lookup_ge_None. apply (f_equal length) in E. rewrite length_drop in E.
    simpl in E. lia.
  - simpl in Hh. destruct r as [|e r]; [done|]. simpl.
    exists i, r, rs. split; [by apply drop_cons_lookup in E|]. split; [done|]. split; [|done].
    change (S (ci_current c)) with (1 + ci_current c)%nat.
    by rewrite Nat.add_comm, <- drop_drop, E.
Qed.

Lemma concat_seek_loop_ok k pre todo alls (cur : nat) (w : W) :
  Forall2 it_fresh todo alls -> sorted_entries (concat alls) -> ok w ->
  exists children current w',
    concat_seek_loop k (length pre) (length todo)
      (mkConcatIterator (pre ++ todo) cur, w)
      = (Ok current, (mkConcatIterator children cur, w')) /\
    it_rep (mkConcatIterator children current) (bt_range_from ikey_cmp k (concat alls)) /\ ok w'.
Proof.
  intros Hf. revert pre w. induction Hf as [|c all todo alls Hc Hf IH]; intros pre w Hs Hw.
  { exists pre, (length pre), w. simpl. rewrite app_nil_r. split; [done|]. split; [|done].
    exists []. simpl. by rewrite drop_all. }
  cbn [concat] in Hs. apply StronglySorted_app in Hs as (Hlt & Hs1 & Hs2).
  destruct (it_seek_ok _ _ _ k Hc Hs1 Hw) as (c' & w1 & E & Hrep & Hw1).
  cbn [length concat_seek_loop]. erewrite bind_ok.
  2: { unfold on_concat_child. cbn [fst snd ci_children ci_current].
       rewrite list_lookup_middle by done. rewrite E. reflexivity. }
  rewrite insert_app_r_alt, Nat.sub_diag by done. cbn [list_insert insert].
  rewrite bind_get_state. cbn [fst ci_children]. rewrite list_lookup_middle by done.
  rewrite (it_valid_ok _ _ Hrep). unfold bt_range_from. cbn [concat]. rewrite filter_app.
  fold (bt_range_from ikey_cmp k all) (bt_range_from ikey_cmp k (concat alls)).
  destruct (bt_range_from ikey_cmp k all) as [|e r] eqn:Er.
  - destruct (IH (pre ++ [c']) w1 Hs2 Hw1) as (ch & cur' & w' & E' & H & Hw').
    rewrite length_app, Nat.add_comm, <- app_assoc in E'. by exists ch, cur', w'.
  - eexists _, _, _. split; [reflexivity|]. split; [|done].
    exists ((e :: r) :: alls). cbn [ci_children ci_current]. rewrite drop_app_length.
    split; [constructor; [done|]; eapply Forall2_impl; [exact Hf|]; intros; by apply it_fresh_rep|].
    split; [done|]. cbn [concat]. f_equal. apply filter_all. apply Forall_forall. intros x Hx.
    assert (e ∈ bt_range_from ikey_cmp k all) as He by (rewrite Er; by left).
    apply list_elem_of_filter in He as [Hke He]. apply leb_le in Hke. apply leb_le.
    apply (ord_le_trans ikey_cmp _ e.1); [done|]. by apply Hlt.
Qed.

#[export] Instance concat_iterator_ok : StorageIteratorOk (ConcatIterator I) W ok.
Proof.
  split.
  - intros c all [Hc (alls & Hf & ->)]. destruct (skip_empty_ok [] (ci_children c) alls) as (rests & Hr & Hh & E).
    { eapply Forall2_impl; [exact Hf|]. intros. by apply it_fresh_rep. }
    exists rests. by rewrite Hc.
  - intros c rest Hr. apply concat_current in Hr. simpl. unfold concat_iter_is_valid.
    destruct rest as [|e rest]; [by rewrite Hr|]. destruct Hr as (i & r & rests & -> & Hi & _).
    by rewrite (it_valid_ok _ _ Hi).
  - intros c e rest Hr. apply concat_current in Hr as (i & r & rests & Hl & Hi & _). simpl.
    unfold concat_iter_key, index_vec. rewrite Hl. by apply (it_key_ok i e r).
  - intros c e rest Hr. apply concat_current in Hr as (i & r & rests & Hl & Hi & _). simpl.
    unfold concat_iter_value, index_vec. rewrite Hl. by apply (it_value_ok i e r).
  - intros c rest w Hr Hw. apply concat_current in Hr as Hc. simpl. unfold concat_iter_next.
    rewrite bind_get_state. cbn [fst]. destruct rest as [|e rest].
    { rewrite bool_decide_eq_false_2 by (by apply lookup_ge_None, Nat.le_ngt in Hc).
      eexists _, w. done. }
    destruct Hc as (i & r & rests & Hl & Hi & Hrs & [= ->]).
    rewrite bool_decide_eq_true_2 by by apply lookup_lt_Some in Hl.
    destruct (it_next_ok _ _ _ Hi Hw) as (i' & w' & E & Hi' & Hw').
    erewrite bind_ok by (unfold on_concat_child; cbn [fst snd]; rewrite Hl, E; reflexivity).
    eexists _, w'. split; [reflexivity|]. split; [|done]. cbn [fst ci_children ci_current].
    unfold skip_empty. cbn [ci_children ci_current].
    destruct c as [children cur]. cbn [ci_children ci_current] in *.
    apply list_elem_of_split_length in Hl as (pre & post & -> & ->).
    rewrite insert_app_r_alt, Nat.sub_diag by done. cbn [list_insert insert].
    rewrite drop_app_length. change (pre ++ i :: post) with (pre ++ [i] ++ post) in Hrs.
    rewrite app_assoc, drop_app_length' in Hrs by (rewrite length_app; simpl; lia).
    destruct (skip_empty_ok pre (i' :: post) (r :: rests)) as (rests' & Hr' & Hh & Ec);
      [by constructor|].
    by exists rests'.
  - intros c all w k [_ (alls & Hf & ->)] Hs Hw. simpl. unfold concat_iter_seek.
    rewrite bind_get_state. cbn [fst].
    destruct (concat_seek_loop_ok k [] (ci_children c) alls (ci_current c) w Hf Hs Hw)
      as (ch & cur & w' & E & H & Hw').
    destruct c as [children cur0]. cbn [ci_children ci_current length app] in *.
    erewrite bind_ok by exact E. by eexists _, w'.
Qed.

Lemma concat_iter_new_fresh (children : list I) alls :
  Forall2 it_fresh children alls -> it_fresh (concat_iter_new children) (concat alls).
Proof. intros Hf. split; [done|]. by exists alls. Qed.
End concat_model.

(** *** The iterator over rows *)

Lemma live_rows_range lo hi s seen target es :
  Forall (fun e : entry => leb ikey_cmp target e.1 = false ->
    within_bounds (user_key e.1) lo hi = false) es ->
  live_rows lo hi s seen (bt_range_from ikey_cmp target es) = live_rows lo hi s seen es.
Proof.
  intros H. revert seen. unfold bt_range_from. induction H as [|e es He H IH]; intros seen; [done|].
  destruct (leb ikey_cmp target e.1) eqn:E.
  - rewrite filter_cons_True by done. cbn [live_rows]. by rewrite !IH.
  - rewrite filter_cons_False by congruence. cbn [live_rows]. rewrite He by done.
    by rewrite andb_false_r, IH.
Qed.

(** What lies below the seek key is outside the bounds. *)
Lemma seek_target_below lo hi target e :
  lower_bound_seek_key lo = Some target -> u64_ok (sequence e) ->
  leb ikey_cmp target e = false -> within_bounds (user_key e) lo hi = false.
Proof.
  intros Ht Hs Hl. unfold within_bounds.
  assert (~ ord_le ikey_cmp target e) as Hn by (intros H; apply leb_le in H; congruence).
  destruct lo as [b|b|]; simpl in Ht; [| |done]; injection Ht as <-.
  - destruct (leb bytes_cmp b (user_key e)) eqn:E; [|done]. exfalso. apply Hn, seek_key_le.
    apply leb_le, (ord_le_lteq bytes_cmp) in E as [E|E]; [by left | right].
    split; [done|]. unfold u64_ok, u64_max in *. lia.
  - destruct (ltb bytes_cmp b (user_key e)) eqn:E; [|done]. exfalso. apply Hn, ikey_le_spec.
    left. by apply ltb_lt in E.
Qed.

Section db_iterator_ok.
Context {I W : Type} (ok : W -> Prop)
  `{!StorageIterator I W, !IteratorModel I, !StorageIteratorOk I W ok}.

(** The rows still to come. *)
Definition pending (it : DBIterator I) (rest : list entry) : list (bytes * bytes) :=
  live_rows (dbi_lower it) (dbi_upper it) (dbi_read_seq it) (dbi_seen it) rest.

(** The loop goes round: the rest of the run is the induction hypothesis. *)
Ltac continue_with IH :=
  let it' := fresh "it" in let H5 := fresh "H" in
  destruct IH as (it' & ? & ? & ? & ? & ? & ? & H5); [by auto with lia..|];
  eexists it', _, _; repeat split; try done; destruct (dbi_current it'); [lia | done].

Lemma advance_loop_ok fuel (it : DBIterator I) rest (w : W) :
  it_rep (dbi_inner it) rest -> ok w -> (length rest < fuel)%nat -> dbi_current it = None ->
  exists it' w' rest', advance_loop fuel (it, w) = (Ok tt, (it', w')) /\
    it_rep (dbi_inner it') rest' /\ ok w' /\
    pending it rest = match dbi_current it' with Some row => row :: pending it' rest' | None => [] end /\
    match dbi_current it' with Some _ => (length rest' < length rest)%nat | None => True end.
Proof.
  revert it rest w. induction fuel as [|fuel IH]; intros it rest w Hr Hw Hlen Hn; [lia|].
  cbn [advance_loop]. rewrite bind_get_state. cbv zeta. cbn [fst].
  rewrite (it_valid_ok _ _ Hr). destruct rest as [|[k v] rest]; simpl.
  { exists it, w, []. by rewrite Hn. }
  rewrite (it_key_ok _ _ _ Hr), (it_value_ok _ _ _ Hr). erewrite !bind_ok by done. cbn [fst snd].
  destruct (it_next_ok _ _ _ Hr Hw) as (i' & w' & E & Hr' & Hw'). cbn [tail] in Hr'.
  set (it1 := dbi_with_inner i' it).
  erewrite bind_ok by (unfold on_inner, zoom; cbn [fst snd]; by rewrite E).
  cbn [fst snd]. fold it1. simpl in Hlen. unfold pending. cbn [live_rows fst snd].
  rewrite Z.ltb_antisym. destruct (sequence k <=? dbi_read_seq it); cbn [negb andb].
  2: continue_with (IH it1 rest w').
  destruct (within_bounds (user_key k) (dbi_lower it) (dbi_upper it)); cbn [negb andb].
  2: continue_with (IH it1 rest w').
  destruct (decide (user_key k ∈ dbi_seen it)) as [Hin|Hin].
  { rewrite bool_decide_eq_true_2 by done. rewrite (bool_decide_eq_false_2 (_ ∉ _)) by tauto.
    continue_with (IH it1 rest w'). }
  rewrite bool_decide_eq_false_2 by done. rewrite bool_decide_eq_true_2 by done.
  unfold modify_dbi. rewrite bind_modify. cbn [fst snd].
  destruct v as [value|].
  - eexists _, w', rest. split; [reflexivity|]. cbn. split; [done|]. split; [done|]. split; [done|lia].
  - set (it2 := dbi_with_seen _ it1). continue_with (IH it2 rest w').
Qed.

(** What is left to collect: the current row and those to come. *)
Definition remaining_rows (it : DBIterator I) (rest : list entry) : list (bytes * bytes) :=
  match dbi_current it with Some row => row :: pending it rest | None => [] end.

Lemma dbi_collect_loop_ok fuel n (it : DBIterator I) rest rows (w : W) :
  it_rep (dbi_inner it) rest -> ok w ->
  (dbi_current it <> None -> (length rest < fuel)%nat) ->
  (length (remaining_rows it rest) < n)%nat ->
  exists it' w', dbi_collect_loop fuel n rows (it, w)
    = (Ok (rows ++ remaining_rows it rest), (it', w')) /\ ok w'.
Proof.
  revert it rest rows w. induction n as [|n IH]; intros it rest rows w Hr Hw Hf Hn; [lia|].
  cbn [dbi_collect_loop]. rewrite bind_get_state. cbn [fst].
  unfold dbi_is_valid, dbi_key, dbi_value, remaining_rows in *.
  destruct (dbi_current it) as [row|] eqn:Ec; simpl.
  2: { exists it, w. by rewrite app_nil_r. }
  unfold dbi_next, advance_to_next_visible. set (it0 := dbi_with_current None it).
  destruct (advance_loop_ok fuel it0 rest w) as (it' & w' & rest' & E & Hr' & Hw' & Hp & Hl);
    [by auto..|].
  erewrite bind_ok.
  2: { rewrite bind_get_state. cbn [fst]. rewrite Ec. unfold modify_dbi. rewrite bind_modify.
       exact E. }
  change (pending it0 rest) with (pending it rest) in Hp.
  destruct (IH it' rest' (rows ++ [(row.1, row.2)]) w') as (it2 & w2 & E2 & Hw2); [done..| | |].
  - intros Hne. destruct (dbi_current it'); [|done]. specialize (Hf ltac:(done)). lia.
  - rewrite <- Hp. simpl in Hn. lia.
  - rewrite E2, <- Hp, <- app_assoc, <- surjective_pairing. by eexists _, w2.
Qed.

(** Opening the iterator over all entries of [inner] and collecting it. *)
Lemma dbi_rows_ok fuel (inner : I) lo hi read_seq all (w : W) :
  it_fresh inner all -> sorted_entries all -> ok w ->
  Forall (fun e : entry => u64_ok (sequence e.1)) all -> (length all < fuel)%nat ->
  exists it w1 it' w2 rows, dbi_try_new fuel inner lo hi read_seq w = (Ok it, w1) /\
    dbi_collect fuel (it, w1) = (Ok rows, (it', w2)) /\ ok w1 /\ ok w2 /\
    scan_spec lo hi read_seq all rows.
Proof.
  intros Hf Hs Hw Hseq Hfuel. unfold dbi_try_new, with_local.
  set (it0 := mkDBIterator inner lo hi read_seq ∅ None).
  assert (exists i' w0 rest, seek_to_lower_bound (it0, w) = (Ok tt, (dbi_with_inner i' it0, w0)) /\
    it_rep i' rest /\ ok w0 /\ (length rest <= length all)%nat /\
    live_rows lo hi read_seq ∅ rest = live_rows lo hi read_seq ∅ all)
    as (i' & w0 & rest & Es & Hr & Hw0 & Hlen & Hlive).
  { unfold seek_to_lower_bound. rewrite bind_get_state. cbn [fst it0 dbi_lower].
    destruct (lower_bound_seek_key lo) as [target|] eqn:El.
    - destruct (it_seek_ok _ _ _ target Hf Hs Hw) as (i' & w0 & E & Hr & Hw0).
      exists i', w0, (bt_range_from ikey_cmp target all). split.
      { unfold on_inner, zoom. cbn [fst snd]. change (dbi_inner it0) with inner. by rewrite E. }
      split; [done|]. split; [done|]. split; [apply length_filter|].
      apply live_rows_range. eapply Forall_impl; [exact Hseq|]. intros e He.
      by apply seek_target_below.
    - exists inner, w, all. split; [done|]. split; [by apply it_fresh_rep | done]. }
  erewrite bind_ok by exact Es.
  set (it1 := dbi_with_current None (dbi_with_inner i' it0)).
  destruct (advance_loop_ok fuel it1 rest w0) as (it & w1 & rest' & E & Hr' & Hw1 & Hp & Hl);
    [done..|lia|done|].
  erewrite bind_ok by exact E. rewrite bind_get_state. cbn [fst].
  change (pending it1 rest) with (live_rows lo hi read_seq ∅ rest) in Hp.
  fold (remaining_rows it rest') in Hp. rewrite Hlive in Hp.
  assert (length (live_rows lo hi read_seq ∅ all) <= length all)%nat as Hrows.
  { clear. generalize (∅ : gset bytes). induction all as [|e all IH]; intros seen; simpl; [lia|].
    destruct (_ && _); [|specialize (IH seen); lia]. rewrite length_app.
    specialize (IH ({[user_key e.1]} ∪ seen)). destruct e.2; simpl; lia. }
  destruct (dbi_collect_loop_ok fuel fuel it rest' [] w1) as (it' & w2 & Ec & Hw2); [done..| | |].
  { intros Hne. destruct (dbi_current it); [lia | done]. }
  { rewrite <- Hp. lia. }
  eexists it, w1, it', w2, _. split; [done|]. split; [exact Ec|]. split; [done|].
  split; [done|]. rewrite <- Hp. by apply live_rows_scan.
Qed.

End db_iterator_ok.

(** ** Scans over merged iterators *)

Section merged.
Context {I W : Type} (ok : W -> Prop)
  `{!StorageIterator I W, !IteratorModel I} {HI : StorageIteratorOk I W ok}.

(** A scan over iterators of sorted entries, through the row iterator. *)
Lemma merged_rows_ok fuel (children : list I) alls lower upper read_seq (w : W) :
  Forall2 it_fresh children alls -> Forall sorted_entries alls -> ok w ->
  consistent (concat alls) ->
  Forall (fun e : entry => u64_ok (sequence e.1)) (concat alls) ->
  (length (concat alls) < fuel)%nat ->
  exists m it w1 it' w2 rows,
    merge_iter_new children = Ok m /\
    dbi_try_new fuel m lower upper read_seq w = (Ok it, w1) /\
    dbi_collect fuel (it, w1) = (Ok rows, (it', w2)) /\ ok w1 /\ ok w2 /\
    scan_spec lower upper read_seq (concat alls) rows.
Proof.
  intros Hf Hs Hw Hc Hseq Hfuel.
  destruct (merge_iter_new_fresh ok children alls Hf Hs) as (m & E & Hm).
  pose proof (sort_by_perm (cmp_key ikey_cmp) (concat alls)) as Hp.
  destruct (dbi_rows_ok ok fuel m lower upper read_seq _ w Hm)
    as (it & w1 & it' & w2 & rows & E1 & E2 & Hw1 & Hw2 & H);
    [by apply sort_by_sorted; apply _ | done | by rewrite Hp | by rewrite Hp |].
  exists m, it, w1, it', w2, rows. do 5 (split; [done|]).
  by apply (scan_spec_ext _ _ _ _ _ _ Hc Hp).
Qed.

(** a merging iterator over iterators of sorted entries is an iterator
    over their sorted union: reading it to its end yields every entry of every
    child, in the order of internal keys, with nothing lost or repeated. *)
Theorem merge_iterator_union (children : list I) alls (w : W) :
  Forall2 it_fresh children alls -> Forall sorted_entries alls -> ok w ->
  let union := sort_by (cmp_key ikey_cmp) (concat alls) in
  (union ≡ₚ concat alls) /\ sorted_entries union /\
  exists m, merge_iter_new children = Ok m /\
    forall fuel, (length union < fuel)%nat ->
      exists m' w', drain fuel (m, w) = (Ok union, (m', w')).
Proof.
  intros Hf Hs Hw union. split; [apply sort_by_perm|]. split; [by apply sort_by_sorted; apply _|].
  destruct (merge_iter_new_fresh ok children alls Hf Hs) as (m & E & Hm). exists m.
  split; [done|]. intros fuel Hfuel. apply it_fresh_rep in Hm.
  destruct (drain_ok ok fuel m union w Hm Hw Hfuel) as (m' & w' & E' & _). by exists m', w'.
Qed.

(** C25: a scan over any iterators of sorted entries (memtables, tables)
    whose entries do not contradict each other: building the merging iterator
    and the row iterator and collecting it succeeds, with a bound on the work
    that only depends on the number of entries, and returns the live rows of
    the range in ascending order, each with the newest visible value. *)
Theorem merged_scan_rows fuel (children : list I) alls lower upper read_seq (w : W) :
  Forall2 it_fresh children alls -> Forall sorted_entries alls -> ok w ->
  consistent (concat alls) ->
  Forall (fun e : entry => u64_ok (sequence e.1)) (concat alls) ->
  (length (concat alls) < fuel)%nat ->
  exists m it w1 it' w2 rows,
    merge_iter_new children = Ok m /\
    dbi_try_new fuel m lower upper read_seq w = (Ok it, w1) /\
    dbi_collect fuel (it, w1) = (Ok rows, (it', w2)) /\
    scan_spec lower upper read_seq (concat alls) rows.
Proof.
  intros Hf Hs Hw Hc Hseq Hfuel.
  destruct (merged_rows_ok fuel children alls lower upper read_seq w)
    as (m & it & w1 & it' & w2 & rows & E & E1 & E2 & _ & _ & H); [done..|].
  by exists m, it, w1, it', w2, rows.
Qed.
End merged.

(** ** Two sorted runs merged *)

Section merged_examples.

Definition example_runs : list (list entry) :=
  [[(mkInternalKey [1] 3 VDelete, RDelete); (mkInternalKey [2] 2 VPut, RPut [20])];
   [(mkInternalKey [1] 1 VPut, RPut [10]); (mkInternalKey [3] 4 VPut, RPut [30])]].

Definition example_children : list EntryIterator := map entry_iter_new example_runs.

Lemma example_runs_sorted : Forall sorted_entries example_runs.
Proof. by apply (bool_decide_unpack _); vm_compute. Qed.

Lemma example_children_fresh : Forall2 it_fresh example_children example_runs.
Proof. by repeat constructor. Qed.

Lemma merge_iterator_union_witness :
  exists m, merge_iter_new (W := unit) example_children = Ok m /\
    exists m' w', drain 5 (m, tt) = (Ok (sort_by (cmp_key ikey_cmp) (concat example_runs)), (m', w')).
Proof.
  destruct (merge_iterator_union (fun _ : unit => True) example_children example_runs tt
    example_children_fresh example_runs_sorted I) as (_ & _ & m & E & H).
  exists m. split; [exact E|]. apply H. by vm_compute; lia.
Defined.

Lemma merged_scan_rows_witness :
  exists rows, scan_spec Unbounded (Included [3]) 4 (concat example_runs) rows /\
    exists m it w1 it' w2, merge_iter_new (W := unit) example_children = Ok m /\
      dbi_try_new 5 m Unbounded (Included [3]) 4 tt = (Ok it, w1) /\
      dbi_collect 5 (it, w1) = (Ok rows, (it', w2)).
Proof.
  destruct (merged_scan_rows (fun _ : unit => True) 5 example_children example_runs Unbounded
    (Included [3]) 4 tt example_children_fresh example_runs_sorted I)
    as (m & it & w1 & it' & w2 & rows & E & E1 & E2 & H);
    [by apply (bool_decide_unpack _); vm_compute | by apply (bool_decide_unpack _); vm_compute
    | by vm_compute; lia |].
  exists rows. split; [exact H|]. by exists m, it, w1, it', w2.
Defined.
End merged_examples.
