(* ===== verification/Coding.v ===== *)
(** * Variable-length integers and byte slices

    [src/util/coding.rs].  A decoder [fn f(src: &mut &[u8]) -> Result<A>] is a
    function of type [M bytes A]. *)

From stdpp Require Import base list.
From S2P Require Import Prelude.

Definition require_non_empty (input : bytes) (context : string) : res unit :=
  match input with
  | [] => Err (InvalidArgument (context ++ " must not be empty"))
  | _ => Ok tt
  end.

(** The loop [while value >= 0x80].  A [u64] has at most ten groups of seven
    bits, so fuel [10] is enough ([put_var_loop_fuel]). *)
Fixpoint put_var_loop (fuel : nat) (dst : bytes) (value : u64) : bytes :=
  match fuel with
  | O => dst
  | S fuel =>
      if value >=? 0x80
      then put_var_loop fuel (dst ++ [Z.lor (wrap8 value) 0x80]) (Z.shiftr value 7)
      else dst ++ [wrap8 value]
  end.

Definition put_var_u64 (dst : bytes) (value : u64) : bytes := put_var_loop 10 dst value.

Definition put_var_u32 (dst : bytes) (value : u32) : bytes := put_var_u64 dst value.

(** [(0..64).step_by(7)]. *)
Definition var_shifts : list Z := [0; 7; 14; 21; 28; 35; 42; 49; 56; 63].

Fixpoint get_var_loop (shifts : list Z) (result : u64) : M bytes u64 :=
  match shifts with
  | [] => fail (Corruption "varint u64 overflow")
  | shift :: shifts => fun src =>
      match src with
      | [] => (Err (Corruption "truncated varint"), src)
      | byte :: rest =>
          let result := Z.lor result (wrap64 (Z.shiftl (Z.land byte 0x7f) shift)) in
          if byte <? 0x80 then (Ok result, rest) else get_var_loop shifts result rest
      end
  end.

Definition get_var_u64 : M bytes u64 := get_var_loop var_shifts 0.

Definition get_var_u32 : M bytes u32 :=
  value ← get_var_u64;
  if value <? 2 ^ 32 then mret value else fail (Corruption "varint u32 overflow").

Definition take_bytes (n : usize) : M bytes bytes := fun src =>
  if len src <? n
  then (Err (Corruption "truncated byte slice"), src)
  else (Ok (take (Z.to_nat n) src), drop (Z.to_nat n) src).

(** [src.is_empty()] and [take_bytes(src, 1)?.first()]. *)
Definition src_is_empty : M bytes bool := fun src =>
  (Ok (match src with [] => true | _ => false end), src).

Definition take_u8 : M bytes u8 :=
  b ← take_bytes 1;
  match b with
  | [] => panic
  | x :: _ => mret x
  end.

(** ** Bit lemmas *)

Lemma lor_add_disjoint acc a s :
  0 <= s -> 0 <= acc < 2 ^ s -> 0 <= a -> Z.lor acc (a * 2 ^ s) = acc + a * 2 ^ s.
Proof.
  intros Hs Hacc Ha.
  assert (Z.land acc (a * 2 ^ s) = 0) as H.
  { apply Z.bits_inj'. intros n Hn. rewrite Z.land_spec, Z.bits_0.
    destruct (Z.lt_ge_cases n s).
    - rewrite Z.mul_pow2_bits_low by lia. apply andb_false_r.
    - assert (Z.testbit acc n = false) as ->; [|done].
      destruct (decide (acc = 0)) as [->|]; [apply Z.bits_0|].
      apply Z.bits_above_log2; [lia|].
      apply Z.log2_lt_pow2; [lia|].
      apply Z.lt_le_trans with (2 ^ s); [lia|]. apply Z.pow_le_mono_r; lia. }
  rewrite <- Z.lxor_lor by done. symmetry. by apply Z.add_nocarry_lxor.
Qed.

Lemma land_7f b : 0 <= b -> Z.land b 0x7f = b mod 128.
Proof. intros. change 0x7f with (Z.ones 7). by apply Z.land_ones. Qed.

(** The continuation byte of [value]: seven low bits and the high bit. *)
Lemma cont_byte value :
  0 <= value ->
  Z.lor (wrap8 value) 0x80 = value mod 128 + 128.
Proof.
  intros Hv. unfold wrap. change (2 ^ 8) with 256.
  pose proof (Z.mod_pos_bound value 128 ltac:(lia)).
  assert (value mod 256 = value mod 128 \/ value mod 256 = value mod 128 + 128) as H'.
  { rewrite (Z.mod_eq value 128), (Z.mod_eq value 256) by lia.
    pose proof (Z.div_mod value 128 ltac:(lia)).
    assert (value / 256 = (value / 128) / 2) as -> by (rewrite Z.div_div by lia; done).
    pose proof (Z.div_mod (value / 128) 2 ltac:(lia)).
    pose proof (Z.mod_pos_bound (value / 128) 2 ltac:(lia)). lia. }
  assert (forall x, 0 <= x < 128 -> Z.lor x 128 = x + 128) as Hlor.
  { intros x Hx. change 128 with (1 * 2 ^ 7). by apply lor_add_disjoint. }
  destruct H' as [-> | ->]; [by apply Hlor|].
  rewrite <- Hlor by done. rewrite <- Z.lor_assoc. done.
Qed.

(** ** Varints *)

(** The bytes of the varint encoding, without the destination. *)
Fixpoint varint_bytes (fuel : nat) (value : u64) : bytes :=
  match fuel with
  | O => []
  | S fuel =>
      if value >=? 0x80
      then (value mod 128 + 128) :: varint_bytes fuel (value / 128)
      else [value]
  end.

Abbreviation enc_var := (varint_bytes 10) (only parsing).

Lemma put_var_loop_bytes fuel dst value :
  0 <= value -> put_var_loop fuel dst value = dst ++ varint_bytes fuel value.
Proof.
  revert dst value; induction fuel as [|fuel IH]; intros dst value Hv; simpl.
  - by rewrite app_nil_r.
  - rewrite Z.geb_leb. destruct (0x80 <=? value) eqn:E.
    + rewrite cont_byte by done. rewrite Z.shiftr_div_pow2 by lia.
      change (2 ^ 7) with 128. rewrite IH by (apply Z.div_pos; lia).
      by rewrite <- app_assoc.
    + apply Z.leb_gt in E. unfold wrap. rewrite Z.mod_small by lia. done.
Qed.

Lemma put_var_u64_bytes dst value :
  0 <= value -> put_var_u64 dst value = dst ++ enc_var value.
Proof. apply put_var_loop_bytes. Qed.

Lemma put_var_u32_bytes dst value :
  0 <= value -> put_var_u32 dst value = dst ++ enc_var value.
Proof. apply put_var_loop_bytes. Qed.

(** Ten iterations are enough for a [u64]: more fuel changes nothing. *)
Lemma varint_bytes_fuel n value :
  0 <= value < 128 ^ Z.of_nat n -> (0 < n)%nat -> forall k,
  varint_bytes (n + k) value = varint_bytes n value.
Proof.
  revert value; induction n as [|n IH]; intros value Hv Hn k; [lia|]. simpl.
  rewrite Z.geb_leb. destruct (0x80 <=? value) eqn:E; [|done].
  apply Z.leb_le in E. f_equal.
  rewrite Nat2Z.inj_succ, Z.pow_succ_r in Hv by lia.
  destruct n as [|n]; [simpl in Hv; change (128 ^ 0) with 1 in Hv; lia|].
  apply IH; [|lia].
  split; [apply Z.div_pos; lia | apply Z.div_lt_upper_bound; lia].
Qed.

Lemma put_var_loop_fuel dst value k :
  u64_ok value -> put_var_loop (10 + k) dst value = put_var_u64 dst value.
Proof.
  intros [Hv1 Hv2]. unfold put_var_u64. rewrite !put_var_loop_bytes by done.
  rewrite varint_bytes_fuel; [done| |lia].
  split; [done|]. eapply Z.lt_trans; [exact Hv2 | by vm_compute].
Qed.

Lemma varint_bytes_length fuel value : (length (varint_bytes fuel value) <= fuel)%nat.
Proof.
  revert value; induction fuel as [|fuel IH]; intros value; simpl; [lia|].
  rewrite Z.geb_leb. destruct (0x80 <=? value); simpl; [|lia].
  specialize (IH (value / 128)). lia.
Qed.

Lemma varint_bytes_u8 fuel value :
  0 <= value -> Forall u8_ok (varint_bytes fuel value).
Proof.
  revert value; induction fuel as [|fuel IH]; intros value Hv; simpl; [constructor|].
  rewrite Z.geb_leb. destruct (0x80 <=? value) eqn:E.
  - constructor.
    + unfold u8_ok. pose proof (Z.mod_pos_bound value 128 ltac:(lia)). lia.
    + apply IH. apply Z.div_pos; lia.
  - apply Z.leb_gt in E. repeat constructor; lia.
Qed.

Lemma varint_bytes_ne value : varint_bytes 10 value <> [].
Proof. simpl. rewrite Z.geb_leb. destruct (0x80 <=? value); discriminate. Qed.

(** The shifts from position [i] of the loop on. *)
Lemma get_var_loop_roundtrip fuel i acc value rest :
  (fuel + i = 10)%nat -> (0 < fuel)%nat ->
  0 <= acc < 2 ^ (7 * Z.of_nat i) ->
  0 <= value -> value * 2 ^ (7 * Z.of_nat i) < 2 ^ 64 ->
  get_var_loop (drop i var_shifts) acc (varint_bytes fuel value ++ rest)
  = (Ok (acc + value * 2 ^ (7 * Z.of_nat i)), rest).
Proof.
  revert i acc value; induction fuel as [|fuel IH]; intros i acc value Hi Hf Hacc Hv Hlt;
    [lia|].
  set (p := 2 ^ (7 * Z.of_nat i)) in *.
  assert (Hp : 0 < p) by (apply Z.pow_pos_nonneg; lia).
  assert (drop i var_shifts = 7 * Z.of_nat i :: drop (S i) var_shifts) as ->.
  { do 10 (destruct i as [|i]; [done|]). lia. }
  assert (Hstep : forall b, 0 <= b -> b mod 128 * p < 2 ^ 64 ->
    Z.lor acc (wrap64 (Z.shiftl (Z.land b 0x7f) (7 * Z.of_nat i))) = acc + b mod 128 * p).
  { intros b Hb Hbp. rewrite land_7f, Z.shiftl_mul_pow2 by lia.
    pose proof (Z.mod_pos_bound b 128 ltac:(lia)).
    rewrite wrap_small; [|fold p; split; [nia | done]].
    apply lor_add_disjoint; lia. }
  cbn [varint_bytes]. rewrite Z.geb_leb. destruct (0x80 <=? value) eqn:E.
  - apply Z.leb_le in E. pose proof (Z.mod_pos_bound value 128 ltac:(lia)) as Hm.
    pose proof (Z.div_mod value 128 ltac:(lia)) as Hdm.
    cbn [app get_var_loop].
    rewrite Hstep; [| lia | rewrite Z.add_mod, Z.mod_mod, Z.mod_same, Z.add_0_r, Z.mod_mod by lia; nia].
    assert ((value mod 128 + 128 <? 0x80) = false) as -> by (apply Z.ltb_ge; lia).
    replace ((value mod 128 + 128) mod 128) with (value mod 128)
      by (rewrite Z.add_mod, Z.mod_mod, Z.mod_same, Z.add_0_r, Z.mod_mod by lia; done).
    assert (2 ^ (7 * Z.of_nat (S i)) = 128 * p) as Hp'.
    { rewrite Nat2Z.inj_succ. replace (7 * Z.succ (Z.of_nat i)) with (7 + 7 * Z.of_nat i) by lia.
      rewrite Z.pow_add_r by lia. done. }
    destruct (decide (fuel = 0)%nat) as [->|].
    { exfalso. assert (i = 9%nat) as -> by lia. unfold p in Hlt. simpl in Hlt. lia. }
    assert (0 <= value / 128) by (apply Z.div_pos; lia).
    rewrite IH; rewrite ?Hp'; [do 2 f_equal; nia | lia.. | nia | lia | nia].
  - apply Z.leb_gt in E. cbn [app get_var_loop].
    rewrite Hstep; [| lia | rewrite Z.mod_small by lia; done].
    assert ((value <? 0x80) = true) as -> by (apply Z.ltb_lt; lia).
    by rewrite Z.mod_small by lia.
Qed.

Lemma get_var_u64_enc value rest :
  u64_ok value -> get_var_u64 (enc_var value ++ rest) = (Ok value, rest).
Proof.
  intros [Hv1 Hv2]. unfold get_var_u64.
  change var_shifts with (drop 0 var_shifts).
  rewrite get_var_loop_roundtrip; simpl Z.of_nat; simpl Z.mul; change (2 ^ 0) with 1; try lia.
  do 2 f_equal. lia.
Qed.

Lemma get_var_u32_enc value rest :
  u32_ok value -> get_var_u32 (enc_var value ++ rest) = (Ok value, rest).
Proof.
  intros [Hv1 Hv2]. unfold get_var_u32.
  erewrite bind_ok; [|apply get_var_u64_enc; unfold u64_ok; lia].
  apply Z.ltb_lt in Hv2. by rewrite Hv2.
Qed.

Lemma take_bytes_app bs rest n :
  n = len bs -> take_bytes n (bs ++ rest) = (Ok bs, rest).
Proof.
  intros ->. unfold take_bytes. rewrite len_app. pose proof (len_nonneg rest).
  assert ((len bs + len rest <? len bs) = false) as -> by (apply Z.ltb_ge; lia).
  by rewrite to_nat_len, take_app_length, drop_app_length.
Qed.

Lemma take_u8_cons b rest : take_u8 (b :: rest) = (Ok b, rest).
Proof.
  unfold take_u8. erewrite bind_ok; [|by apply (take_bytes_app [b] rest)]. done.
Qed.

(** ** Automation for round trips

    [codec] holds, for each decoder, the lemma that it reads back what the
    matching encoder wrote; [parse_step] runs one decoder of a bind. *)

Create HintDb codec.

Lemma u32_ok_wrap z : u32_ok (wrap32 z).
Proof. apply wrap_range. lia. Qed.

Lemma u64_ok_wrap32 z : u64_ok (wrap32 z).
Proof. unfold u64_ok. pose proof (wrap_range 32 z ltac:(lia)). lia. Qed.

#[export] Hint Resolve get_var_u64_enc get_var_u32_enc take_bytes_app take_u8_cons
  u32_ok_wrap u64_ok_wrap32 : codec.
#[export] Hint Extern 1 (u64_ok _) => (unfold u64_ok, u32_ok in *; lia) : codec.
#[export] Hint Extern 1 (u32_ok _) => (unfold u64_ok, u32_ok in *; lia) : codec.

Ltac parse_step :=
  erewrite bind_ok by (solve [eauto with codec]); cbv beta.
Ltac parse_steps :=
  rewrite <- ?app_assoc; cbn [app]; repeat (parse_step; rewrite <- ?app_assoc; cbn [app]).

(** ** Decoders do not panic

    [total m]: on any bytes, [m] returns a value or an error, never panics,
    and never leaves more bytes than it was given. *)

Definition total {A} (m : M bytes A) : Prop :=
  forall s, match m s with
            | (Ok _, s') => (length s' <= length s)%nat
            | (Err _, _) => True
            | (Panic, _) => False
            end.

(** A value costs at least one byte. *)
Definition consumes {A} (m : M bytes A) : Prop :=
  forall s a s', m s = (Ok a, s') -> (length s' < length s)%nat.

Create HintDb total.

Lemma total_ret {A} (a : A) : total (mret a).
Proof. intros s. unfold mret, M_ret. lia. Qed.

Lemma total_fail {A} e : total (@fail bytes A e).
Proof. by intros s. Qed.

Lemma total_lift {A} (r : res A) : r <> Panic -> total (lift r).
Proof. intros H s. unfold lift. by destruct r. Qed.

Lemma total_bind {A B} (m : M bytes A) (f : A -> M bytes B) :
  total m -> (forall a, total (f a)) -> total (mbind f m).
Proof.
  intros Hm Hf s. specialize (Hm s). unfold mbind, M_bind.
  destruct (m s) as [[a|e|] s']; [|done..]. specialize (Hf a s').
  destruct (f a s') as [[b|e|] s'']; [lia | done..].
Qed.

Lemma consumes_bind {A B} (m : M bytes A) (f : A -> M bytes B) :
  consumes m -> (forall a, total (f a)) -> consumes (mbind f m).
Proof.
  intros Hm Hf s b s' H. apply bind_inv in H as (a & s1 & H1 & H2).
  apply Hm in H1. specialize (Hf a s1). rewrite H2 in Hf. lia.
Qed.

Lemma total_for_range {A} n (body : A -> M bytes A) acc :
  (forall a, total (body a)) -> total (for_range n body acc).
Proof.
  intros Hb. revert acc. induction n as [|n IH]; intros acc; simpl; [apply total_ret|].
  by apply total_bind.
Qed.

Lemma get_var_loop_consumes shifts acc s a s' :
  get_var_loop shifts acc s = (Ok a, s') -> (length s' < length s)%nat.
Proof.
  revert acc s. induction shifts as [|sh shs IH]; intros acc s; simpl; [done|].
  destruct s as [|b s]; [done|]. destruct (b <? 0x80).
  - intros [= _ <-]. simpl. lia.
  - intros H%IH. simpl. lia.
Qed.

Lemma get_var_loop_no_panic shifts acc s : (get_var_loop shifts acc s).1 <> Panic.
Proof.
  revert acc s. induction shifts as [|sh shs IH]; intros acc s; simpl; [done|].
  destruct s as [|b s]; [done|]. by destruct (b <? 0x80).
Qed.

Lemma get_var_u64_consumes : consumes get_var_u64.
Proof. intros s a s'. apply get_var_loop_consumes. Qed.

Lemma get_var_u64_total : total get_var_u64.
Proof.
  intros s. pose proof (get_var_loop_no_panic var_shifts 0 s) as H.
  pose proof (get_var_loop_consumes var_shifts 0 s) as H'. unfold get_var_u64.
  destruct (get_var_loop var_shifts 0 s) as [[a|e|] s']; [|done..].
  specialize (H' _ _ eq_refl). lia.
Qed.

Lemma get_var_u32_consumes : consumes get_var_u32.
Proof.
  apply consumes_bind; [apply get_var_u64_consumes|]. intros a.
  destruct (a <? 2 ^ 32); [apply total_ret | apply total_fail].
Qed.

Lemma get_var_u32_total : total get_var_u32.
Proof.
  apply total_bind; [apply get_var_u64_total|]. intros a.
  destruct (a <? 2 ^ 32); [apply total_ret | apply total_fail].
Qed.

Lemma take_bytes_total n : total (take_bytes n).
Proof. intros s. unfold take_bytes. destruct (len s <? n); [done|]. rewrite length_drop. lia. Qed.

Lemma take_u8_total : total take_u8.
Proof.
  intros [|b s]; [done|]. rewrite take_u8_cons. simpl. lia.
Qed.

Lemma src_is_empty_total : total src_is_empty.
Proof. intros s. simpl. lia. Qed.

#[export] Hint Resolve total_ret total_fail total_lift total_for_range get_var_u64_total
  get_var_u32_total take_bytes_total take_u8_total src_is_empty_total
  get_var_u32_consumes get_var_u64_consumes : total.

(** Walks through the binds and branches of a decoder. *)
Ltac solve_total :=
  repeat first
    [ solve [eauto with total]
    | progress intros
    | apply total_bind
    | match goal with |- total (match ?x with _ => _ end) => destruct x end
    | match goal with |- total (let _ := _ in _) => cbv zeta end ].
