(* ===== verification/Batch.v ===== *)
(** * Write batches

    [src/batch.rs]: the records of a batch and their WAL payload. *)

From stdpp Require Import base list.
From S2P Require Import Prelude Coding.

Inductive BatchRecord : Type :=
  | BPut (key value : bytes)
  | BDelete (key : bytes).

#[export] Instance BatchRecord_eq_dec : EqDecision BatchRecord.
Proof. solve_decision. Defined.

Definition record_key (record : BatchRecord) : bytes :=
  match record with BPut key _ | BDelete key => key end.

Record WriteBatch : Type := mkWriteBatch { records : list BatchRecord }.

#[export] Instance WriteBatch_eq_dec : EqDecision WriteBatch.
Proof. solve_decision. Defined.

Definition batch_new : WriteBatch := mkWriteBatch [].

Definition batch_put (self : WriteBatch) (key value : bytes) : WriteBatch :=
  mkWriteBatch (records self ++ [BPut key value]).

Definition batch_delete (self : WriteBatch) (key : bytes) : WriteBatch :=
  mkWriteBatch (records self ++ [BDelete key]).

Definition batch_is_empty (self : WriteBatch) : bool :=
  match records self with [] => true | _ => false end.

(** One iteration of the encoder's loop. *)
Definition encode_record (dst : bytes) (record : BatchRecord) : bytes :=
  match record with
  | BPut key value =>
      let dst := dst ++ [1] in
      let dst := put_var_u32 dst (wrap32 (len key)) in
      let dst := dst ++ key in
      let dst := put_var_u32 dst (wrap32 (len value)) in
      dst ++ value
  | BDelete key =>
      let dst := dst ++ [2] in
      let dst := put_var_u32 dst (wrap32 (len key)) in
      let dst := dst ++ key in
      put_var_u32 dst 0
  end.

Definition encode_with_sequence (self : WriteBatch) (start_sequence : u64) : bytes :=
  let dst := put_var_u32 [] (wrap32 (len (records self))) in
  let dst := put_var_u64 dst start_sequence in
  foldl encode_record dst (records self).

(** One iteration of the decoder's loop. *)
Definition decode_record (batch : WriteBatch) : M bytes WriteBatch :=
  value_type ← take_u8;
  key_len ← get_var_u32;
  key ← take_bytes key_len;
  value_len ← get_var_u32;
  value ← take_bytes value_len;
  if value_type =? 1 then mret (batch_put batch key value)
  else if value_type =? 2 then
    match value with
    | [] => mret (batch_delete batch key)
    | _ => fail (Corruption "delete record must not carry a value")
    end
  else fail (Corruption "unknown batch record type").

Definition decode_payload_m : M bytes (u64 * WriteBatch) :=
  count ← get_var_u32;
  start_sequence ← get_var_u64;
  batch ← for_range (Z.to_nat count) decode_record batch_new;
  empty ← src_is_empty;
  if (empty : bool) then mret (start_sequence, batch)
  else fail (Corruption "trailing batch payload bytes").

Definition decode_payload (payload : bytes) : res (u64 * WriteBatch) :=
  (decode_payload_m payload).1.

(** ** Encoded form *)

Definition record_bytes (record : BatchRecord) : bytes :=
  match record with
  | BPut key value =>
      1 :: varint_bytes 10 (wrap32 (len key)) ++ key
        ++ varint_bytes 10 (wrap32 (len value)) ++ value
  | BDelete key => 2 :: varint_bytes 10 (wrap32 (len key)) ++ key ++ varint_bytes 10 0
  end.

(** What fits the format: keys and values shorter than [2^32] bytes. *)
Definition record_fits (record : BatchRecord) : Prop :=
  match record with
  | BPut key value => len key < 2 ^ 32 /\ len value < 2 ^ 32
  | BDelete key => len key < 2 ^ 32
  end.

Definition batch_fits (batch : WriteBatch) : Prop :=
  len (records batch) < 2 ^ 32 /\ Forall record_fits (records batch).

Lemma encode_record_bytes dst record : encode_record dst record = dst ++ record_bytes record.
Proof.
  destruct record as [key value|key]; simpl encode_record; unfold record_bytes;
    rewrite !put_var_u32_bytes by (apply u32_ok_wrap || lia);
    by rewrite <- !app_assoc.
Qed.

Lemma foldl_encode_record records dst :
  foldl encode_record dst records = dst ++ concat (map record_bytes records).
Proof.
  revert dst. induction records as [|r rs IH]; intros dst; simpl;
    [by rewrite app_nil_r|].
  rewrite IH, encode_record_bytes. by rewrite <- app_assoc.
Qed.

Lemma encode_with_sequence_bytes batch start_sequence :
  u64_ok start_sequence ->
  encode_with_sequence batch start_sequence =
  varint_bytes 10 (wrap32 (len (records batch)))
    ++ varint_bytes 10 start_sequence ++ concat (map record_bytes (records batch)).
Proof.
  intros [H _]. unfold encode_with_sequence.
  rewrite foldl_encode_record, put_var_u64_bytes, put_var_u32_bytes
    by (done || apply u32_ok_wrap).
  by rewrite <- app_assoc.
Qed.

Lemma decode_record_bytes batch record rest :
  record_fits record ->
  decode_record batch (record_bytes record ++ rest)
  = (Ok (mkWriteBatch (records batch ++ [record])), rest).
Proof.
  destruct record as [key value|key]; intros Hf; simpl in Hf.
  - destruct Hf as [Hk Hv]. unfold decode_record, record_bytes.
    rewrite !wrap32_len by done. pose proof (len_nonneg key). pose proof (len_nonneg value).
    parse_steps. done.
  - unfold decode_record, record_bytes. rewrite !wrap32_len by done.
    pose proof (len_nonneg key). parse_steps.
    erewrite bind_ok by (by apply (take_bytes_app [])). done.
Qed.

Lemma decode_payload_encode batch start_sequence :
  batch_fits batch -> u64_ok start_sequence ->
  decode_payload (encode_with_sequence batch start_sequence) = Ok (start_sequence, batch).
Proof.
  intros [Hn Hf] Hs. unfold decode_payload, decode_payload_m.
  rewrite encode_with_sequence_bytes by done.
  rewrite wrap32_len by done. pose proof (len_nonneg (records batch)).
  parse_steps. rewrite to_nat_len.
  rewrite <- (app_nil_r (concat _)).
  erewrite bind_ok by (apply (for_range_decode record_bytes
    (fun b r => mkWriteBatch (records b ++ [r])));
    eapply Forall_impl; [exact Hf|]; intros r Hr acc rest; by apply decode_record_bytes).
  assert (forall acc rs, foldl (fun b r => mkWriteBatch (records b ++ [r])) acc rs
    = mkWriteBatch (records acc ++ rs)) as ->.
  { intros acc rs. revert acc. induction rs as [|r rs IH]; intros [rs0]; simpl;
      [by rewrite app_nil_r|]. rewrite IH. simpl. by rewrite <- app_assoc. }
  by destruct batch.
Qed.

Lemma decode_record_total batch : total (decode_record batch).
Proof. unfold decode_record. solve_total. Qed.

#[export] Hint Resolve decode_record_total : total.

Lemma decode_payload_no_panic payload : decode_payload payload <> Panic.
Proof.
  assert (total decode_payload_m) as H by (unfold decode_payload_m; solve_total).
  specialize (H payload). unfold decode_payload. by destruct (decode_payload_m payload) as [[]].
Qed.

(** ** Properties *)

(** C34: decoding the WAL payload of a batch gives back the batch and its
    first sequence number, for every batch the format can hold (fewer than
    [2^32] records, keys and values shorter than [2^32] bytes). *)
Theorem batch_roundtrip batch start_sequence :
  batch_fits batch -> u64_ok start_sequence ->
  decode_payload (encode_with_sequence batch start_sequence) = Ok (start_sequence, batch).
Proof. apply decode_payload_encode. Qed.

Lemma batch_roundtrip_witness :
  let batch := mkWriteBatch [BPut [107; 49] [118]; BDelete [107; 50]] in
  batch_fits batch /\ u64_ok 300 /\
  decode_payload (encode_with_sequence batch 300) = Ok (300, batch).
Proof.
  assert (batch_fits (mkWriteBatch [BPut [107; 49] [118]; BDelete [107; 50]])) as Hf
    by (split; [done | repeat constructor]).
  split; [exact Hf|]. split; [done|]. by apply batch_roundtrip.
Defined.
