(* ===== verification/Env.v ===== *)
(** * Files and the environment

    [src/env/]: the operations of [Env], [WritableFile] and [ReadableFile] as
    [FsEnv] implements them, over an explicit file system; the file names; the
    [CURRENT] pointer.

    The file system [Fs] maps a path to its bytes.  [fs_oracle] decides, one
    event per fallible operation, whether it succeeds, fails (a failing write
    may still have written a prefix) or, for [read], returns fewer bytes than
    asked.  An empty oracle means every operation succeeds in full.

    What is written is in the file at once, so [sync_all] can fail but saves
    nothing: a crash, in the theorems about crashes, is a stop of the process,
    not a loss of power. *)

From stdpp Require Import base gmap list strings.
From Stdlib Require Import Strings.Ascii.
From S2P Require Import Prelude.

Inductive io_event : Type :=
  | IoDone
  | IoFail (n : nat)
  | IoShort (n : nat).

Record Fs : Type := mkFs {
  fs_files : gmap string bytes;
  fs_dirs : gset string;
  fs_oracle : list io_event
}.

Definition set_files (f : gmap string bytes -> gmap string bytes) (fs : Fs) : Fs :=
  mkFs (f (fs_files fs)) (fs_dirs fs) (fs_oracle fs).

Definition next_event : M Fs io_event := fun fs =>
  match fs_oracle fs with
  | [] => (Ok IoDone, fs)
  | e :: es => (Ok e, mkFs (fs_files fs) (fs_dirs fs) es)
  end.

(** An operation that fails as a whole or succeeds. *)
Definition fallible {A} (m : M Fs A) : M Fs A :=
  e ← next_event;
  match e with
  | IoFail _ => fail (Io OtherIo)
  | _ => m
  end.

(** [Path::join]. *)
Definition path_join (dir name : string) : string := dir ++ "/" ++ name.

(** ** [WritableFile] *)

Record WritableFileOptions : Type := mkWritableFileOptions {
  wo_create : bool;
  wo_truncate : bool;
  wo_append : bool;
  wo_read : bool
}.

Definition writable_create : WritableFileOptions :=
  mkWritableFileOptions true true false false.
Definition writable_append : WritableFileOptions :=
  mkWritableFileOptions true false true true.

Record WritableFile : Type := mkWritableFile {
  wf_path : string;
  wf_append : bool;
  wf_pos : nat
}.

Definition open_writable (path : string) (options : WritableFileOptions) : M Fs WritableFile :=
  fallible (fun fs =>
    match fs_files fs !! path with
    | None =>
        if wo_create options
        then (Ok (mkWritableFile path (wo_append options) 0), set_files (<[path := []]>) fs)
        else (Err (Io NotFound), fs)
    | Some _ =>
        (Ok (mkWritableFile path (wo_append options) 0),
         if wo_truncate options then set_files (<[path := []]>) fs else fs)
    end).

(** Bytes written at a position; a gap is filled with zeros. *)
Definition write_at (pos : nat) (bs contents : bytes) : bytes :=
  take pos contents ++ replicate (pos - length contents) 0 ++ bs
    ++ drop (pos + length bs) contents.

Definition do_write (bs : bytes) (s : WritableFile * Fs) : WritableFile * Fs :=
  let '(f, fs) := s in
  let contents := default [] (fs_files fs !! wf_path f) in
  let pos := if wf_append f then length contents else wf_pos f in
  (mkWritableFile (wf_path f) (wf_append f) (pos + length bs),
   set_files (<[wf_path f := write_at pos bs contents]>) fs).

(** [write_all]: a failure leaves a prefix of the bytes written. *)
Definition write_all (bs : bytes) : M (WritableFile * Fs) unit := fun s =>
  match next_event s.2 with
  | (Ok (IoFail n), fs) => (Err (Io OtherIo), do_write (take n bs) (s.1, fs))
  | (_, fs) => (Ok tt, do_write bs (s.1, fs))
  end.

Definition sync_all : M (WritableFile * Fs) unit :=
  zoom snd (fun fs s => (s.1, fs)) (fallible (mret tt)).

(** ** [ReadableFile]

    The bytes are those of the file when it was opened: the code reads only
    files that nothing writes at the same time (a WAL before its writer is
    opened, a manifest likewise, tables once renamed into place), and an open
    handle survives the removal of the file. *)

Record ReadableFile : Type := mkReadableFile {
  rf_data : bytes;
  rf_pos : Z
}.

Definition rf_rest (f : ReadableFile) : bytes := drop (Z.to_nat (rf_pos f)) (rf_data f).

Definition open_readable (path : string) : M Fs ReadableFile :=
  fallible (fun fs =>
    match fs_files fs !! path with
    | None => (Err (Io NotFound), fs)
    | Some data => (Ok (mkReadableFile data 0), fs)
    end).

Definition advance (f : ReadableFile) (n : Z) : ReadableFile :=
  mkReadableFile (rf_data f) (rf_pos f + n).

(** [read(dst)] with [n = dst.len()]: between one byte and [n] of what is
    left, or none at the end of the file. *)
Definition rf_read (n : usize) : M (ReadableFile * Fs) bytes := fun s =>
  let '(f, fs) := s in
  match next_event fs with
  | (Ok (IoFail _), fs) => (Err (Io OtherIo), (f, fs))
  | (Ok (IoShort k), fs) =>
      let chunk := take (S k) (take (Z.to_nat n) (rf_rest f)) in
      (Ok chunk, (advance f (len chunk), fs))
  | (_, fs) =>
      let chunk := take (Z.to_nat n) (rf_rest f) in
      (Ok chunk, (advance f (len chunk), fs))
  end.

Definition rf_read_exact (n : usize) : M (ReadableFile * Fs) bytes := fun s =>
  let '(f, fs) := s in
  match next_event fs with
  | (Ok (IoFail _), fs) => (Err (Io OtherIo), (f, fs))
  | (_, fs) =>
      if len (rf_rest f) <? n
      then (Err (Io UnexpectedEof), (advance f (len (rf_rest f)), fs))
      else (Ok (take (Z.to_nat n) (rf_rest f)), (advance f n, fs))
  end.

(** [seek(SeekFrom::Start(pos))]. *)
Definition rf_seek (pos : u64) : M (ReadableFile * Fs) unit := fun s =>
  let '(f, fs) := s in
  match next_event fs with
  | (Ok (IoFail _), fs) => (Err (Io OtherIo), (f, fs))
  | (_, fs) => (Ok tt, (mkReadableFile (rf_data f) pos, fs))
  end.

Definition rf_len : M (ReadableFile * Fs) u64 := fun s =>
  let '(f, fs) := s in
  match next_event fs with
  | (Ok (IoFail _), fs) => (Err (Io OtherIo), (f, fs))
  | (_, fs) => (Ok (len (rf_data f)), (f, fs))
  end.

(** ** The other operations of [Env] *)

Definition create_dir_all (path : string) : M Fs unit :=
  fallible (fun fs =>
    (Ok tt, mkFs (fs_files fs) ({[path]} ∪ fs_dirs fs) (fs_oracle fs))).

Definition env_exists (path : string) (fs : Fs) : bool :=
  bool_decide (path ∈ fs_dirs fs \/ is_Some (fs_files fs !! path)).

Definition rename (from to : string) : M Fs unit :=
  fallible (fun fs =>
    match fs_files fs !! from with
    | None => (Err (Io NotFound), fs)
    | Some data => (Ok tt, set_files (fun m => <[to := data]> (delete from m)) fs)
    end).

Definition metadata_len (path : string) : M Fs u64 :=
  fallible (fun fs =>
    match fs_files fs !! path with
    | None => (Err (Io NotFound), fs)
    | Some data => (Ok (len data), fs)
    end).

Definition remove_file (path : string) : M Fs unit :=
  fallible (fun fs =>
    match fs_files fs !! path with
    | None => (Err (Io NotFound), fs)
    | Some _ => (Ok tt, set_files (delete path) fs)
    end).

(** A directory that cannot be opened is not synced, and no error. *)
Definition sync_directory (path : string) : M Fs unit := fun fs =>
  match fallible (mret tt) fs with
  | (Ok _, fs) => fallible (mret tt) fs
  | (_, fs) => (Ok tt, fs)
  end.

(** ** Strings

    A Rust string is its UTF-8 bytes; the names the store writes are ASCII. *)

Fixpoint string_bytes (s : string) : bytes :=
  match s with
  | EmptyString => []
  | String c s => Z.of_N (N_of_ascii c) :: string_bytes s
  end.

Fixpoint bytes_string (bs : bytes) : string :=
  match bs with
  | [] => EmptyString
  | b :: bs => String (ascii_of_N (Z.to_N b)) (bytes_string bs)
  end.

Definition in_range (lo hi b : Z) : bool := (lo <=? b) && (b <=? hi).

(** Well-formed UTF-8 (the check of [read_to_string]). *)
Fixpoint utf8_valid (bs : bytes) : bool :=
  match bs with
  | [] => true
  | b0 :: r0 =>
      if in_range 0 0x7f b0 then utf8_valid r0
      else match r0 with
      | [] => false
      | b1 :: r1 =>
          if in_range 0xc2 0xdf b0 then in_range 0x80 0xbf b1 && utf8_valid r1
          else match r1 with
          | [] => false
          | b2 :: r2 =>
              if in_range 0xe0 0xef b0 then
                in_range (if b0 =? 0xe0 then 0xa0 else 0x80)
                  (if b0 =? 0xed then 0x9f else 0xbf) b1
                && in_range 0x80 0xbf b2 && utf8_valid r2
              else match r2 with
              | [] => false
              | b3 :: r3 =>
                  in_range 0xf0 0xf4 b0
                  && in_range (if b0 =? 0xf0 then 0x90 else 0x80)
                       (if b0 =? 0xf4 then 0x8f else 0xbf) b1
                  && in_range 0x80 0xbf b2 && in_range 0x80 0xbf b3 && utf8_valid r3
              end
          end
      end
  end.

Definition read_to_string (path : string) : M Fs string :=
  fallible (fun fs =>
    match fs_files fs !! path with
    | None => (Err (Io NotFound), fs)
    | Some data =>
        if utf8_valid data then (Ok (bytes_string data), fs)
        else (Err (Io InvalidData), fs)
    end).

(** ** File names ([env/file.rs]) *)

Fixpoint dec_digits (fuel : nat) (n : Z) : bytes :=
  match fuel with
  | O => []
  | S fuel => (if n <? 10 then [] else dec_digits fuel (n / 10)) ++ [48 + n mod 10]
  end.

(** [{number:06}]: decimal, padded with zeros to six digits; a [u64] has at
    most twenty. *)
Definition fmt06 (number : u64) : string :=
  let digits := dec_digits 20 number in
  bytes_string (replicate (6 - length digits) 48 ++ digits).

Definition wal_file_name (number : u64) : string := fmt06 number ++ ".wal".
Definition table_file_name (number : u64) : string := fmt06 number ++ ".sst".
Definition manifest_file_name (number : u64) : string := "MANIFEST-" ++ fmt06 number.

(** [str::parse::<u64>]: an optional [+], then digits without overflow. *)
Fixpoint parse_digits (acc : Z) (bs : bytes) : option Z :=
  match bs with
  | [] => Some acc
  | b :: bs =>
      if in_range 48 57 b then
        let acc := acc * 10 + (b - 48) in
        if acc <? 2 ^ 64 then parse_digits acc bs else None
      else None
  end.

Definition parse_u64 (s : string) : option u64 :=
  match string_bytes s with
  | [] => None
  | [43] => None
  | 43 :: bs => parse_digits 0 bs
  | bs => parse_digits 0 bs
  end.

Definition strip_prefix (prefix s : string) : option string :=
  if String.prefix prefix s
  then Some (String.substring (String.length prefix) (String.length s - String.length prefix) s)
  else None.

Definition parse_manifest_number (name : string) : option u64 :=
  rest ← strip_prefix "MANIFEST-" name; parse_u64 rest.

(** ** The [CURRENT] file *)

Definition CURRENT_FILE : string := "CURRENT".
Definition CURRENT_TMP_FILE : string := "CURRENT.tmp".

(** A writable file's method inside a function on the environment. *)
Definition with_writable {A} (f : WritableFile) (m : M (WritableFile * Fs) A) :
    M Fs (A * WritableFile) := fun fs =>
  match m (f, fs) with
  | (Ok a, (f, fs)) => (Ok (a, f), fs)
  | (Err e, (_, fs)) => (Err e, fs)
  | (Panic, (_, fs)) => (Panic, fs)
  end.

Definition set_current_with_env (db_path manifest_name : string) : M Fs unit :=
  let tmp_path := path_join db_path CURRENT_TMP_FILE in
  let current_path := path_join db_path CURRENT_FILE in
  file ← open_writable tmp_path writable_create;
  _ ← with_writable file
        (_ ← write_all (string_bytes manifest_name);
         _ ← write_all [10];
         sync_all);
  _ ← rename tmp_path current_path;
  sync_directory db_path.

(** [trim_end_matches(['\r', '\n'])]. *)
Fixpoint drop_newlines (bs : bytes) : bytes :=
  match bs with
  | b :: bs' => if (b =? 10) || (b =? 13) then drop_newlines bs' else bs
  | [] => []
  end.
Definition trim_end_newlines (s : string) : string :=
  bytes_string (reverse (drop_newlines (reverse (string_bytes s)))).

Definition read_current_with_env (db_path : string) : M Fs string :=
  current ← read_to_string (path_join db_path CURRENT_FILE);
  let manifest_name := trim_end_newlines current in
  match manifest_name with
  | EmptyString => fail (Corruption "CURRENT is empty")
  | _ => mret manifest_name
  end.

(** ** Sequential writing *)

(** The handle [f] writes at the end of its file, whose bytes are [c]. *)
Definition writes_at_end (f : WritableFile) (fs : Fs) (c : bytes) : Prop :=
  fs_files fs !! wf_path f = Some c /\ (wf_append f = true \/ wf_pos f = length c).

Lemma write_at_end bs c : write_at (length c) bs c = c ++ bs.
Proof.
  unfold write_at. rewrite firstn_all, Nat.sub_diag, drop_ge by lia. simpl.
  by rewrite app_nil_r.
Qed.

Lemma next_event_files fs : fs_files (next_event fs).2 = fs_files fs.
Proof. unfold next_event. by destruct (fs_oracle fs). Qed.

Lemma do_write_at_end bs f fs c :
  writes_at_end f fs c ->
  exists f', do_write bs (f, fs) = (f', set_files (<[wf_path f := c ++ bs]>) fs)
    /\ wf_path f' = wf_path f
    /\ writes_at_end f' (set_files (<[wf_path f := c ++ bs]>) fs) (c ++ bs).
Proof.
  intros [Hc Hpos]. unfold do_write. rewrite Hc. simpl.
  assert ((if wf_append f then length c else wf_pos f) = length c) as ->.
  { destruct Hpos as [-> | ->]; [done|]. by destruct (wf_append f). }
  rewrite write_at_end. eexists; split; [done|]. split; [done|].
  split; simpl; [by rewrite lookup_insert_eq|].
  right. by rewrite length_app.
Qed.

(** Whatever the environment does, [write_all] appends a prefix of its
    argument, the whole of it when it reports success, and touches no other
    file. *)
Lemma write_all_prefix bs f fs c :
  writes_at_end f fs c ->
  exists r f' fs' w,
    write_all bs (f, fs) = (r, (f', fs')) /\ wf_path f' = wf_path f /\
    w `prefix_of` bs /\ (r = Ok tt -> w = bs) /\
    writes_at_end f' fs' (c ++ w) /\
    fs_files fs' = <[wf_path f := c ++ w]> (fs_files fs).
Proof.
  intros Hw.
  assert (Hw' : writes_at_end f (next_event fs).2 c).
  { unfold writes_at_end in *. by rewrite next_event_files. }
  unfold write_all. simpl snd. simpl fst.
  destruct (next_event fs) as [e fs1] eqn:E. simpl in Hw'.
  assert (Hf : fs_files fs1 = fs_files fs) by (rewrite <- (next_event_files fs), E; done).
  assert (Hall : forall n, exists f', do_write (take n bs) (f, fs1)
      = (f', set_files (<[wf_path f := c ++ take n bs]>) fs1) /\ wf_path f' = wf_path f /\
      writes_at_end f' (set_files (<[wf_path f := c ++ take n bs]>) fs1) (c ++ take n bs))
    by (intros; by apply do_write_at_end).
  assert (Hok : exists f', do_write bs (f, fs1)
      = (f', set_files (<[wf_path f := c ++ bs]>) fs1) /\ wf_path f' = wf_path f /\
      writes_at_end f' (set_files (<[wf_path f := c ++ bs]>) fs1) (c ++ bs))
    by (by apply do_write_at_end).
  destruct Hok as (f0 & E0 & Hp0 & Hw0).
  destruct e as [[|n|n]|err|].
  2: { destruct (Hall n) as (f' & Ef & Hp & Hw1). rewrite Ef.
       eexists _, _, _, _. split; [done|]. split; [done|].
       split; [apply prefix_take|]. split; [done|]. split; [done|]. simpl. by rewrite Hf. }
  all: rewrite E0; eexists _, _, _, bs; split; [done|]; split; [done|]; split; [done|];
    split; [done|]; split; [done|]; simpl; by rewrite Hf.
Qed.

Lemma write_all_no_panic bs : no_panic (write_all bs).
Proof.
  intros [f fs]. unfold write_all, next_event. cbn [fst snd].
  by destruct (fs_oracle fs) as [|[|n|n] es].
Qed.

Lemma sync_all_no_panic : no_panic sync_all.
Proof.
  apply no_panic_zoom. intros fs. unfold fallible, mbind, M_bind, next_event.
  by destruct (fs_oracle fs) as [|[|n|n] es].
Qed.

(** With an environment that does not fail. *)
Lemma write_all_ok bs f fs c :
  writes_at_end f fs c -> fs_oracle fs = [] ->
  exists f', write_all bs (f, fs) = (Ok tt, (f', set_files (<[wf_path f := c ++ bs]>) fs))
    /\ wf_path f' = wf_path f
    /\ writes_at_end f' (set_files (<[wf_path f := c ++ bs]>) fs) (c ++ bs).
Proof.
  intros Hw Ho. unfold write_all, next_event. cbn [fst snd]. rewrite Ho.
  destruct (do_write_at_end bs f fs c Hw) as (f' & E & Hp & Hw'). rewrite E. eauto.
Qed.

Lemma sync_all_files r f fs f' fs' :
  sync_all (f, fs) = (r, (f', fs')) -> f' = f /\ fs_files fs' = fs_files fs.
Proof.
  unfold sync_all, zoom, fallible, mbind, M_bind. simpl.
  destruct (next_event fs) as [e fs1] eqn:E.
  pose proof (next_event_files fs) as H. rewrite E in H. simpl in H.
  destruct e as [[]| |]; intros [= <- <- <-]; auto.
Qed.

Lemma sync_all_ok f fs : fs_oracle fs = [] -> sync_all (f, fs) = (Ok tt, (f, fs)).
Proof.
  intros Ho. unfold sync_all, zoom, fallible, mbind, M_bind, next_event. simpl. by rewrite Ho.
Qed.

(** ** Reading without failures *)

Definition no_fail (e : io_event) : Prop := match e with IoFail _ => False | _ => True end.

(** An environment whose reads may be short but do not fail. *)
Definition reads_ok (fs : Fs) : Prop := Forall no_fail (fs_oracle fs).

Lemma rf_read_exact_ok n f fs :
  fs_oracle fs = [] -> 0 <= n <= len (rf_rest f) ->
  rf_read_exact n (f, fs) = (Ok (take (Z.to_nat n) (rf_rest f)), (advance f n, fs)).
Proof.
  intros Ho Hn. unfold rf_read_exact, next_event. rewrite Ho.
  assert ((len (rf_rest f) <? n) = false) as -> by (apply Z.ltb_ge; lia). done.
Qed.

Lemma rf_rest_advance f n :
  0 <= rf_pos f -> 0 <= n -> rf_rest (advance f n) = drop (Z.to_nat n) (rf_rest f).
Proof.
  intros. unfold rf_rest, advance. simpl. rewrite drop_drop. f_equal. lia.
Qed.

Lemma rf_rest_seek data pos : rf_rest (mkReadableFile data pos) = drop (Z.to_nat pos) data.
Proof. done. Qed.

(** ** Strings and file names *)

Lemma ascii_of_N_Z b : u8_ok b -> Z.of_N (N_of_ascii (ascii_of_N (Z.to_N b))) = b.
Proof.
  intros [H1 H2]. rewrite N_ascii_embedding by (change 256%N with (Z.to_N 256); lia). lia.
Qed.

Lemma string_bytes_string bs : Forall u8_ok bs -> string_bytes (bytes_string bs) = bs.
Proof. induction 1; simpl; [done|]. rewrite ascii_of_N_Z by done. by f_equal. Qed.

Lemma bytes_string_bytes s : bytes_string (string_bytes s) = s.
Proof.
  induction s as [|c s IH]; simpl; [done|]. by rewrite N2Z.id, ascii_N_embedding, IH.
Qed.

Lemma string_bytes_app s t : string_bytes (s ++ t) = string_bytes s ++ string_bytes t.
Proof. induction s as [|c s IH]; simpl; [done|]. by f_equal. Qed.

Lemma dec_digits_range fuel n :
  0 <= n -> Forall (fun b => in_range 48 57 b = true) (dec_digits fuel n).
Proof.
  revert n. induction fuel as [|fuel IH]; intros n Hn; simpl; [constructor|].
  pose proof (Z.mod_pos_bound n 10 ltac:(lia)).
  apply Forall_app. split.
  - destruct (n <? 10); [constructor|]. apply IH. apply Z.div_pos; lia.
  - repeat constructor. unfold in_range. apply andb_true_iff. split; apply Z.leb_le; lia.
Qed.

Lemma parse_digits_app acc xs ys v :
  parse_digits acc xs = Some v -> parse_digits acc (xs ++ ys) = parse_digits v ys.
Proof.
  revert acc. induction xs as [|x xs IH]; intros acc; simpl; [congruence|].
  destruct (in_range 48 57 x); [|discriminate].
  destruct (_ <? 2 ^ 64); [|discriminate]. apply IH.
Qed.

Lemma parse_digits_zeros k ys :
  parse_digits 0 (replicate k 48 ++ ys) = parse_digits 0 ys.
Proof. induction k as [|k IH]; simpl; [done|]. exact IH. Qed.

Lemma parse_dec_digits fuel n :
  0 <= n < 10 ^ Z.of_nat fuel -> n < 2 ^ 64 -> (0 < fuel)%nat ->
  parse_digits 0 (dec_digits fuel n) = Some n.
Proof.
  revert n. induction fuel as [|fuel IH]; intros n Hn H64 Hf; [lia|]. cbn [dec_digits].
  pose proof (Z.mod_pos_bound n 10 ltac:(lia)) as Hm.
  pose proof (Z.div_mod n 10 ltac:(lia)) as Hdm.
  assert (Hlast : forall acc, acc = n / 10 -> parse_digits acc [48 + n mod 10] = Some n).
  { intros acc ->. cbn [parse_digits].
    assert (in_range 48 57 (48 + n mod 10) = true) as ->
      by (unfold in_range; apply andb_true_iff; split; apply Z.leb_le; lia).
    assert (n / 10 * 10 + (48 + n mod 10 - 48) = n) as -> by lia.
    by apply Z.ltb_lt in H64 as ->. }
  destruct (n <? 10) eqn:E.
  - apply Hlast. apply Z.ltb_lt in E. symmetry. apply Z.div_small. lia.
  - apply Z.ltb_ge in E. rewrite Nat2Z.inj_succ, Z.pow_succ_r in Hn by lia.
    destruct fuel as [|fuel]; [change (10 ^ Z.of_nat 0) with 1 in Hn; lia|].
    assert (0 <= n / 10 < 10 ^ Z.of_nat (S fuel))
      by (split; [apply Z.div_pos; lia | apply Z.div_lt_upper_bound; lia]).
    erewrite parse_digits_app by (apply IH; [done | nia | lia]). by apply Hlast.
Qed.

Lemma digit_u8 b : in_range 48 57 b = true -> u8_ok b.
Proof. unfold in_range, u8_ok. rewrite andb_true_iff, !Z.leb_le. lia. Qed.

Lemma fmt06_bytes n :
  u64_ok n -> string_bytes (fmt06 n)
  = replicate (6 - length (dec_digits 20 n)) 48 ++ dec_digits 20 n.
Proof.
  intros [Hn _]. unfold fmt06. apply string_bytes_string. apply Forall_app. split.
  - apply Forall_forall. intros x Hx. apply list.elem_of_replicate in Hx as [-> _].
    unfold u8_ok. lia.
  - eapply Forall_impl; [by apply dec_digits_range | apply digit_u8].
Qed.

Lemma parse_digits_parse_u64 s :
  Forall (fun b => in_range 48 57 b = true) (string_bytes s) -> s <> EmptyString ->
  parse_u64 s = parse_digits 0 (string_bytes s).
Proof.
  intros Hd Hne. unfold parse_u64. destruct (string_bytes s) as [|b bs] eqn:E.
  - destruct s; [done | discriminate].
  - apply Forall_cons in Hd as [Hb _]. unfold in_range in Hb.
    apply andb_true_iff in Hb as [Hb _]. apply Z.leb_le in Hb.
    assert (b <> 43) by lia.
    destruct b as [|p|p]; try done.
    do 6 (try destruct p as [p|p|]; try done); lia.
Qed.

Lemma parse_fmt06 n : u64_ok n -> parse_u64 (fmt06 n) = Some n.
Proof.
  intros Hn. pose proof Hn as [Hn1 Hn2].
  rewrite parse_digits_parse_u64; rewrite ?fmt06_bytes by done.
  - rewrite parse_digits_zeros. apply parse_dec_digits; [|done|lia].
    split; [done|]. eapply Z.lt_trans; [exact Hn2 | by vm_compute].
  - apply Forall_app. split; [|by apply dec_digits_range].
    apply Forall_forall. intros x Hx. by apply list.elem_of_replicate in Hx as [-> _].
  - intros E. assert (string_bytes (fmt06 n) = []) as H by by rewrite E.
    rewrite fmt06_bytes in H by done. apply app_eq_nil in H as [_ H].
    cbn [dec_digits] in H. by apply app_eq_nil in H as [_ H].
Qed.

Lemma fallible_inv {A} (m : M Fs A) fs :
  exists fs1, fs_files fs1 = fs_files fs /\ fs_dirs fs1 = fs_dirs fs /\
    (fallible m fs = (Err (Io OtherIo), fs1) \/ fallible m fs = m fs1).
Proof.
  exists (next_event fs).2. rewrite next_event_files. split; [done|].
  split; [unfold next_event; by destruct (fs_oracle fs)|].
  unfold fallible, mbind, M_bind, next_event.
  destruct (fs_oracle fs) as [|[|n|n] es]; simpl; auto.
Qed.

Lemma fallible_reads {A} (m : M Fs A) fs :
  reads_ok fs ->
  exists fs1, fs_files fs1 = fs_files fs /\ reads_ok fs1 /\ fallible m fs = m fs1.
Proof.
  intros Hr. exists (next_event fs).2. rewrite next_event_files. split; [done|].
  unfold reads_ok, fallible, mbind, M_bind, next_event in *.
  destruct (fs_oracle fs) as [|e es] eqn:E; cbn [fst snd fs_oracle]; [by rewrite E|].
  apply Forall_cons in Hr as [He Hr]. by destruct e.
Qed.

Lemma reads_ok_nil fs : fs_oracle fs = [] -> reads_ok fs.
Proof. unfold reads_ok. by intros ->. Qed.

Lemma fallible_ok {A} (m : M Fs A) fs : fs_oracle fs = [] -> fallible m fs = m fs.
Proof. intros Ho. unfold fallible, mbind, M_bind, next_event. by rewrite Ho. Qed.

(** ** Calls that cannot fail

    A call in an environment without failures leaves none behind, and makes no
    directory. *)

Definition calm {S A} (fs_of : S -> Fs) (m : M S A) : Prop := forall s,
  fs_oracle (fs_of s) = [] ->
  fs_oracle (fs_of (m s).2) = [] /\ fs_dirs (fs_of (m s).2) = fs_dirs (fs_of s).

Lemma calm_bind {S A B} (fs_of : S -> Fs) (m : M S A) (f : A -> M S B) :
  calm fs_of m -> (forall a, calm fs_of (f a)) -> calm fs_of (mbind f m).
Proof.
  intros Hm Hf s Ho. unfold mbind, M_bind. specialize (Hm s Ho).
  destruct (m s) as [[a|e|] s1]; cbn [snd] in *; [|done..].
  destruct Hm as [Ho1 Hd1]. destruct (Hf a s1 Ho1) as [Ho2 Hd2]. split; congruence.
Qed.

Lemma calm_ret {S A} (fs_of : S -> Fs) (a : A) : calm fs_of (mret a : M S A).
Proof. done. Qed.
Lemma calm_fail {S A} (fs_of : S -> Fs) e : calm fs_of (fail e : M S A).
Proof. done. Qed.
Lemma calm_lift {S A} (fs_of : S -> Fs) r : calm fs_of (lift r : M S A).
Proof. done. Qed.
Lemma calm_get {S} (fs_of : S -> Fs) : calm fs_of (get_state : M S S).
Proof. done. Qed.

Lemma calm_fallible {A} (m : M Fs A) : calm id m -> calm id (fallible m).
Proof. intros Hm fs Ho. rewrite fallible_ok by done. by apply Hm. Qed.

Lemma calm_zoom {S T A} (f : T -> Fs) (g : S -> Fs) (get : S -> T) set (m : M T A) :
  (forall s, f (get s) = g s) -> (forall t s, g (set t s) = f t) ->
  calm f m -> calm g (zoom get set m).
Proof.
  intros Hget Hset Hm s Ho. unfold zoom. specialize (Hm (get s)). rewrite Hget in Hm.
  specialize (Hm Ho). destruct (m (get s)) as [r t]. cbn [snd] in *. by rewrite Hset.
Qed.

Lemma calm_local {L A} (l : L) (m : M (L * Fs) A) : calm snd m -> calm id (with_local l m).
Proof.
  intros Hm fs Ho. unfold with_local. specialize (Hm (l, fs) Ho).
  by destruct (m (l, fs)) as [r [l' fs']].
Qed.

Lemma calm_for_each {S A Y} (fs_of : S -> Fs) (ys : list Y) (body : Y -> A -> M S A) acc :
  (forall y a, calm fs_of (body y a)) -> calm fs_of (for_each ys body acc).
Proof.
  intros Hb. revert acc. induction ys as [|y ys IH]; intros acc; [apply calm_ret|].
  apply calm_bind; [apply Hb | apply IH].
Qed.

Lemma calm_open_readable path : calm id (open_readable path).
Proof.
  apply calm_fallible. intros fs Ho. cbn [id] in *. by destruct (fs_files fs !! path).
Qed.

Lemma calm_open_writable path options : calm id (open_writable path options).
Proof.
  apply calm_fallible. intros fs Ho. cbn [id] in *.
  destruct (fs_files fs !! path); [by destruct (wo_truncate options) | by destruct (wo_create options)].
Qed.

Lemma calm_rf_read n : calm snd (rf_read n).
Proof. intros [f fs] Ho. cbn [snd] in *. unfold rf_read, next_event. rewrite Ho. by cbn. Qed.

Lemma calm_rf_read_exact n : calm snd (rf_read_exact n).
Proof.
  intros [f fs] Ho. cbn [snd] in *. unfold rf_read_exact, next_event. rewrite Ho.
  by destruct (len (rf_rest f) <? n).
Qed.

Lemma calm_write_all bs : calm snd (write_all bs).
Proof.
  intros [f fs] Ho. cbn [snd] in Ho. unfold write_all, next_event. cbn [fst snd]. by rewrite Ho.
Qed.

Lemma calm_sync_all : calm snd sync_all.
Proof. eapply (calm_zoom id); [done | done | by apply calm_fallible]. Qed.

Lemma calm_rename from to : calm id (rename from to).
Proof. apply calm_fallible. intros fs Ho. cbn [id] in *. by destruct (fs_files fs !! from). Qed.

Lemma calm_with_writable {A} f (m : M (WritableFile * Fs) A) : calm snd m -> calm id (with_writable f m).
Proof.
  intros Hm fs Ho. unfold with_writable. specialize (Hm (f, fs) Ho).
  by destruct (m (f, fs)) as [[a|e|] [f' fs']].
Qed.

Lemma calm_sync_directory path : calm id (sync_directory path).
Proof.
  intros fs Ho. unfold sync_directory. cbn [id] in *. rewrite fallible_ok by done. cbn.
  by rewrite fallible_ok by done.
Qed.

Lemma calm_set_current db name : calm id (set_current_with_env db name).
Proof.
  apply calm_bind; [apply calm_open_writable|]. intros f.
  apply calm_bind; [|intros _; apply calm_bind; [apply calm_rename|]; intros _; apply calm_sync_directory].
  apply calm_with_writable. apply calm_bind; [apply calm_write_all|]. intros _.
  apply calm_bind; [apply calm_write_all | intros _; apply calm_sync_all].
Qed.

(** A calm call that leaves the files as they are leaves the file system as
    it is. *)
Lemma calm_same {A} (m : M Fs A) fs r fs' :
  calm id m -> fs_oracle fs = [] -> m fs = (r, fs') -> fs_files fs' = fs_files fs -> fs' = fs.
Proof.
  intros Hm Ho E Hf. destruct (Hm fs Ho) as [Ho' Hd]. rewrite E in Ho', Hd. cbn in Ho', Hd.
  destruct fs, fs'; cbn in *; congruence.
Qed.

Lemma path_join_inj dir a b : path_join dir a = path_join dir b -> a = b.
Proof.
  unfold path_join. intros H. apply (f_equal string_bytes) in H.
  rewrite !string_bytes_app in H. apply app_inv_head, app_inv_head in H.
  apply (f_equal bytes_string) in H. by rewrite !bytes_string_bytes in H.
Qed.

Lemma current_tmp_ne db : path_join db CURRENT_FILE <> path_join db CURRENT_TMP_FILE.
Proof. intros H%path_join_inj. discriminate. Qed.

Lemma strip_prefix_app p s : strip_prefix p (p ++ s) = Some s.
Proof.
  unfold strip_prefix.
  assert (String.prefix p (p ++ s) = true) as ->.
  { induction p as [|c p IH]; simpl; [by destruct s|].
    by destruct (ascii_dec c c). }
  f_equal. induction p as [|c p IH]; [|exact IH].
  change ("" ++ s)%string with s. rewrite Nat.sub_0_r.
  change (String.length "") with 0%nat. induction s as [|c s IH]; [done|]. cbn [String.length String.substring]. by rewrite IH.
Qed.

Lemma open_writable_truncate path fs r fs' :
  open_writable path writable_create fs = (r, fs') ->
  match r with
  | Ok f => wf_path f = path /\ writes_at_end f fs' [] /\
      fs_files fs' = <[path := []]> (fs_files fs)
  | _ => fs_files fs' = fs_files fs
  end.
Proof.
  unfold open_writable. intros H.
  match type of H with fallible ?m _ = _ =>
    destruct (fallible_inv m fs) as (fs1 & Hf & _ & [E | E]) end; rewrite E in H.
  - injection H as <- <-. by rewrite Hf.
  - destruct (fs_files fs1 !! path) eqn:Ep; injection H as <- <-; simpl;
      (split; [done|]; split; [split; simpl; [by rewrite lookup_insert_eq | auto] | by rewrite Hf]).
Qed.

Lemma open_writable_create_ok path fs :
  fs_oracle fs = [] ->
  exists f, open_writable path writable_create fs = (Ok f, set_files (<[path := []]>) fs) /\
    wf_path f = path /\ writes_at_end f (set_files (<[path := []]>) fs) [].
Proof.
  intros Ho. unfold open_writable. rewrite fallible_ok by done.
  destruct (fs_files fs !! path); eexists; (split; [reflexivity|]);
    (split; [done|]); (split; [by simpl; rewrite lookup_insert_eq | by right]).
Qed.

(** The body of [set_current]: the temporary file is complete when the writes
    report success, and only the temporary file changes. *)
Lemma write_current_tmp name f fs c r fs' :
  writes_at_end f fs c ->
  with_writable f (_ ← write_all (string_bytes name); _ ← write_all [10]; sync_all) fs
    = (r, fs') ->
  exists w, fs_files fs' = <[wf_path f := w]> (fs_files fs) /\
    forall a, r = Ok a -> w = c ++ string_bytes name ++ [10].
Proof.
  intros Hw. unfold with_writable, mbind, M_bind.
  destruct (write_all_prefix (string_bytes name) f fs c Hw)
    as (r1 & f1 & fs1 & w1 & E1 & Hp1 & _ & Hr1 & Hw1 & Hf1).
  rewrite E1. destruct r1 as [[]|e|].
  2, 3: intros [= <- <-]; eexists; (split; [exact Hf1 | done]).
  destruct (write_all_prefix [10] f1 fs1 (c ++ w1) Hw1)
    as (r2 & f2 & fs2 & w2 & E2 & Hp2 & _ & Hr2 & Hw2 & Hf2).
  rewrite E2. rewrite Hf1, Hp1, insert_insert_eq in Hf2. destruct r2 as [[]|e|].
  2, 3: intros [= <- <-]; eexists; (split; [exact Hf2 | done]).
  destruct (sync_all (f2, fs2)) as [r3 [f3 fs3]] eqn:E3.
  apply sync_all_files in E3 as [-> Hf3].
  assert (w1 = string_bytes name) as -> by auto. assert (w2 = [10]) as -> by auto.
  rewrite <- app_assoc in Hf2.
  destruct r3 as [[]|e|]; intros [= <- <-]; eexists;
    (split; [rewrite Hf3; exact Hf2 | done]).
Qed.

Lemma sync_directory_files path fs r fs' :
  sync_directory path fs = (r, fs') -> fs_files fs' = fs_files fs.
Proof.
  unfold sync_directory. destruct (fallible_inv (mret tt) fs) as (fs1 & Hf1 & _ & [-> | ->]);
    [by intros [= _ <-]|]. cbn.
  destruct (fallible_inv (mret tt) fs1) as (fs2 & Hf2 & _ & [-> | ->]); intros [= _ <-]; congruence.
Qed.

(** Replacing [CURRENT] is atomic: whatever fails, the pointer is the old one
    or the complete new one, and a reported success means the new one. *)
Lemma set_current_cases db name fs r fs' :
  set_current_with_env db name fs = (r, fs') ->
  (fs_files fs' !! path_join db CURRENT_FILE = fs_files fs !! path_join db CURRENT_FILE
     /\ r <> Ok tt
   \/ fs_files fs' !! path_join db CURRENT_FILE = Some (string_bytes name ++ [10])) /\
  (forall p, p <> path_join db CURRENT_FILE -> p <> path_join db CURRENT_TMP_FILE ->
     fs_files fs' !! p = fs_files fs !! p).
Proof.
  pose proof (current_tmp_ne db) as Hne.
  unfold set_current_with_env. set (tmp := path_join db CURRENT_TMP_FILE) in *.
  set (cur := path_join db CURRENT_FILE) in *. unfold mbind at 1, M_bind at 1.
  destruct (open_writable tmp writable_create fs) as [r1 fs1] eqn:E1.
  apply open_writable_truncate in E1. destruct r1 as [f|e|].
  2, 3: intros [= <- <-]; rewrite E1; split; auto.
  destruct E1 as (Hp & Hw & Hf1). unfold mbind at 1, M_bind at 1.
  match goal with |- context [with_writable f ?m fs1] =>
    destruct (with_writable f m fs1) as [r2 fs2] eqn:E2 end.
  eapply write_current_tmp in E2 as (w & Hf2 & Hr2); [|exact Hw].
  rewrite Hp, Hf1, insert_insert_eq in Hf2.
  assert (Hother : forall p, p <> tmp -> fs_files fs2 !! p = fs_files fs !! p)
    by (intros; by rewrite Hf2, lookup_insert_ne).
  destruct r2 as [[u f']|e|].
  2, 3: intros [= <- <-]; split; auto.
  specialize (Hr2 _ eq_refl). unfold mbind, M_bind, rename at 1.
  match goal with |- context [fallible ?m fs2] =>
    destruct (fallible_inv m fs2) as (fs3 & Hf3 & _ & [E3 | E3]); rewrite E3 end.
  { intros [= <- <-]. rewrite Hf3. split; auto. }
  rewrite Hf3, Hf2, lookup_insert_eq. subst w. simpl.
  intros Hf4%sync_directory_files. rewrite Hf4. simpl. rewrite Hf3, Hf2, lookup_insert_eq.
  split; [by right|]. intros p Hp1 Hp2. by rewrite lookup_insert_ne, lookup_delete_ne, lookup_insert_ne by done.
Qed.

Lemma utf8_valid_ascii bs :
  Forall (fun b => in_range 0 0x7f b = true) bs -> utf8_valid bs = true.
Proof. induction 1 as [|b bs Hb _ IH]; simpl; [done|]. by rewrite Hb. Qed.

Lemma manifest_name_bytes n :
  u64_ok n -> string_bytes (manifest_file_name n)
  = string_bytes "MANIFEST-" ++ replicate (6 - length (dec_digits 20 n)) 48 ++ dec_digits 20 n.
Proof. intros. unfold manifest_file_name. by rewrite string_bytes_app, fmt06_bytes. Qed.

Lemma manifest_name_ascii n :
  u64_ok n -> Forall (fun b => in_range 45 0x7f b = true) (string_bytes (manifest_file_name n)).
Proof.
  intros Hn. rewrite manifest_name_bytes by done. apply Forall_app. split.
  { vm_compute. repeat constructor. }
  apply Forall_app. split.
  - apply Forall_forall. intros x Hx. by apply list.elem_of_replicate in Hx as [-> _].
  - eapply Forall_impl; [apply dec_digits_range, Hn|]. intros b.
    unfold in_range. rewrite !andb_true_iff, !Z.leb_le. lia.
Qed.

Lemma drop_newlines_id bs :
  match bs with b :: _ => b <> 10 /\ b <> 13 | [] => True end -> drop_newlines bs = bs.
Proof.
  destruct bs as [|b bs]; simpl; [done|]. intros [H1 H2].
  by apply Z.eqb_neq in H1 as ->, H2 as ->.
Qed.

Lemma trim_end_newline s :
  Forall (fun b => in_range 45 0x7f b = true) (string_bytes s) ->
  trim_end_newlines (bytes_string (string_bytes s ++ [10])) = s.
Proof.
  intros H. unfold trim_end_newlines. rewrite string_bytes_string.
  - rewrite reverse_snoc. simpl drop_newlines. rewrite drop_newlines_id.
    + by rewrite reverse_involutive, bytes_string_bytes.
    + destruct (reverse (string_bytes s)) as [|b bs] eqn:E; [done|].
      assert (b ∈ string_bytes s) as Hb by (apply elem_of_reverse; rewrite E; by left).
      rewrite Forall_forall in H. apply H in Hb. unfold in_range in Hb.
      apply andb_true_iff in Hb as [Hb _]. apply Z.leb_le in Hb. lia.
  - apply Forall_app. split; [|repeat constructor; done].
    eapply Forall_impl; [exact H|]. intros b. unfold in_range, u8_ok.
    rewrite andb_true_iff, !Z.leb_le. lia.
Qed.

Lemma read_current_ok db fs name :
  reads_ok fs -> name <> EmptyString ->
  Forall (fun b => in_range 45 0x7f b = true) (string_bytes name) ->
  fs_files fs !! path_join db CURRENT_FILE = Some (string_bytes name ++ [10]) ->
  exists fs', read_current_with_env db fs = (Ok name, fs') /\
    fs_files fs' = fs_files fs /\ reads_ok fs'.
Proof.
  intros Hr Hne Hn Hf. unfold read_current_with_env, read_to_string, mbind, M_bind.
  match goal with |- context [fallible ?m _] =>
    destruct (fallible_reads m fs Hr) as (fs1 & Hf1 & Hr1 & ->) end.
  rewrite Hf1, Hf, utf8_valid_ascii.
  - rewrite trim_end_newline by done. exists fs1. by destruct name.
  - apply Forall_app. split; [|by repeat constructor].
    eapply Forall_impl; [exact Hn|]. intros b. unfold in_range.
    rewrite !andb_true_iff, !Z.leb_le. lia.
Qed.

Lemma set_current_ok db name fs :
  fs_oracle fs = [] ->
  exists fs', set_current_with_env db name fs = (Ok tt, fs') /\ fs_oracle fs' = [] /\
    fs_files fs' = <[path_join db CURRENT_FILE := string_bytes name ++ [10]]>
      (delete (path_join db CURRENT_TMP_FILE) (fs_files fs)).
Proof.
  intros Ho. unfold set_current_with_env.
  set (tmp := path_join db CURRENT_TMP_FILE). set (cur := path_join db CURRENT_FILE).
  destruct (open_writable tmp writable_create fs) as [r1 fs1] eqn:E1.
  assert (exists f, r1 = Ok f) as [f ->].
  { revert E1. unfold open_writable. rewrite fallible_ok by done.
    destruct (fs_files fs !! tmp); intros [= <- <-]; eauto. }
  assert (Ho1 : fs_oracle fs1 = []).
  { revert E1. unfold open_writable. rewrite fallible_ok by done.
    destruct (fs_files fs !! tmp); intros [= _ <-]; done. }
  pose proof (open_writable_truncate _ _ _ _ E1) as (Hp & Hw & Hf1).
  erewrite bind_ok by exact E1. unfold with_writable, mbind, M_bind.
  destruct (write_all_ok (string_bytes name) f fs1 [] Hw Ho1) as (f2 & E2 & Hp2 & Hw2).
  rewrite E2.
  destruct (write_all_ok [10] f2 _ _ Hw2 Ho1) as (f3 & E3 & Hp3 & Hw3). rewrite E3.
  rewrite sync_all_ok by done. unfold rename. rewrite fallible_ok by done.
  destruct Hw3 as [Hw3 _]. rewrite Hp3, Hp2, Hp in Hw3. simpl in Hw3. rewrite ?Hp2, ?Hp in Hw3.
  simpl. rewrite ?Hp2, ?Hp, Hw3. unfold sync_directory. rewrite fallible_ok by done.
  cbn. rewrite fallible_ok by done.
  eexists. split; [done|]. split; [done|]. simpl. rewrite Hf1.
  f_equal. by rewrite !delete_insert_eq.
Qed.

(** ** File names are told apart

    Tables, logs, manifests, the temporary files of tables and the two names
    of [CURRENT] differ in their last or their first byte. *)

Lemma fmt06_inj n m : u64_ok n -> u64_ok m -> fmt06 n = fmt06 m -> n = m.
Proof. intros Hn Hm E. apply parse_fmt06 in Hn, Hm. congruence. Qed.

Lemma string_app_inj_r (s t suffix : string) : (s ++ suffix = t ++ suffix)%string -> s = t.
Proof.
  intros E. apply (f_equal string_bytes) in E. rewrite !string_bytes_app in E.
  apply app_inv_tail in E. apply (f_equal bytes_string) in E. by rewrite !bytes_string_bytes in E.
Qed.

Lemma table_file_name_inj n m :
  u64_ok n -> u64_ok m -> table_file_name n = table_file_name m -> n = m.
Proof. intros Hn Hm E%string_app_inj_r. by apply fmt06_inj. Qed.

Lemma wal_file_name_inj n m :
  u64_ok n -> u64_ok m -> wal_file_name n = wal_file_name m -> n = m.
Proof. intros Hn Hm E%string_app_inj_r. by apply fmt06_inj. Qed.

Definition last_byte (s : string) : option Z := last (string_bytes s).

Lemma last_byte_app s t b : last_byte t = Some b -> last_byte (s ++ t) = Some b.
Proof. unfold last_byte. intros H. by rewrite string_bytes_app, last_app, H. Qed.

Lemma last_byte_table n : last_byte (table_file_name n) = Some 116.
Proof. by apply last_byte_app. Qed.
Lemma last_byte_table_tmp n : last_byte (table_file_name n ++ ".tmp") = Some 112.
Proof. by apply last_byte_app. Qed.
Lemma last_byte_wal n : last_byte (wal_file_name n) = Some 108.
Proof. by apply last_byte_app. Qed.

Lemma dec_digits_last n : last (dec_digits 20 n) = Some (48 + n mod 10).
Proof. cbn [dec_digits]. by rewrite last_snoc. Qed.

Lemma last_byte_manifest n : u64_ok n -> last_byte (manifest_file_name n) = Some (48 + n mod 10).
Proof.
  intros Hn. unfold last_byte. rewrite manifest_name_bytes by done.
  by rewrite app_assoc, last_app, dec_digits_last.
Qed.

(** The first byte of a number is a digit. *)
Lemma table_tmp_not_current n : u64_ok n -> (table_file_name n ++ ".tmp")%string <> CURRENT_TMP_FILE.
Proof.
  intros Hn E. apply (f_equal string_bytes) in E.
  unfold table_file_name in E. rewrite !string_bytes_app, fmt06_bytes in E by done.
  pose proof (dec_digits_range 20 n ltac:(apply Hn)) as Hd.
  pose proof (dec_digits_last n) as Hl.
  destruct (6 - length (dec_digits 20 n))%nat; [|discriminate E].
  destruct (dec_digits 20 n) as [|x xs]; [done|]. injection E as Ex _.
  apply Forall_inv in Hd. by subst x.
Qed.

(** Equal paths in one directory are equal names; different names by their
    last bytes. *)
Ltac names_differ :=
  first
  [ let E := fresh in intros E; apply path_join_inj in E; apply (f_equal last_byte) in E;
    rewrite ?last_byte_table, ?last_byte_table_tmp, ?last_byte_wal, ?last_byte_manifest in E by done;
    cbn in E; first [discriminate E | injection E as E; Z.to_euclidean_division_equations; lia] ].

Lemma table_wal_ne dir n m : path_join dir (table_file_name n) <> path_join dir (wal_file_name m).
Proof. names_differ. Qed.
Lemma table_tmp_ne dir n m :
  path_join dir (table_file_name n) <> path_join dir (table_file_name m ++ ".tmp").
Proof. names_differ. Qed.
Lemma wal_tmp_ne dir n m :
  path_join dir (wal_file_name n) <> path_join dir (table_file_name m ++ ".tmp").
Proof. names_differ. Qed.
Lemma table_manifest_ne dir n m :
  u64_ok m -> path_join dir (table_file_name n) <> path_join dir (manifest_file_name m).
Proof. intros Hm. names_differ. Qed.
Lemma wal_manifest_ne dir n m :
  u64_ok m -> path_join dir (wal_file_name n) <> path_join dir (manifest_file_name m).
Proof. intros Hm. names_differ. Qed.
Lemma tmp_manifest_ne dir n m :
  u64_ok m -> path_join dir (table_file_name n ++ ".tmp") <> path_join dir (manifest_file_name m).
Proof. intros Hm. names_differ. Qed.
Lemma table_current_ne dir n : path_join dir (table_file_name n) <> path_join dir CURRENT_FILE.
Proof. names_differ. Qed.
Lemma wal_current_ne dir n : path_join dir (wal_file_name n) <> path_join dir CURRENT_FILE.
Proof. names_differ. Qed.
(** The names a new version set writes. *)
Definition created_names : list string := [CURRENT_FILE; CURRENT_TMP_FILE; manifest_file_name 1].

Lemma file_name_not_created name b :
  last_byte name = Some b -> b = 116 \/ b = 108 -> name ∉ created_names.
Proof.
  intros Hl Hb Hin. unfold created_names in Hin.
  repeat (apply elem_of_cons in Hin as [-> | Hin]); [..|by apply elem_of_nil in Hin];
    cbn in Hl; injection Hl as <-; lia.
Qed.

Lemma table_not_created n : table_file_name n ∉ created_names.
Proof. eapply file_name_not_created; [apply last_byte_table | by left]. Qed.
Lemma wal_not_created n : wal_file_name n ∉ created_names.
Proof. eapply file_name_not_created; [apply last_byte_wal | by right]. Qed.

Lemma tmp_current_ne dir n :
  path_join dir (table_file_name n ++ ".tmp") <> path_join dir CURRENT_FILE.
Proof. names_differ. Qed.

(** ** Properties *)

(** C32: installing a new CURRENT file, interrupted by any failure
    at any of its steps, leaves either the old CURRENT or the complete new one,
    and touches no other file than its temporary one; when it reports success
    the new one is installed. *)
Theorem set_current_atomic db name fs :
  forall r fs', set_current_with_env db name fs = (r, fs') ->
  (fs_files fs' !! path_join db CURRENT_FILE = fs_files fs !! path_join db CURRENT_FILE
     /\ r <> Ok tt
   \/ fs_files fs' !! path_join db CURRENT_FILE = Some (string_bytes name ++ [10])) /\
  (forall p, p <> path_join db CURRENT_FILE -> p <> path_join db CURRENT_TMP_FILE ->
     fs_files fs' !! p = fs_files fs !! p).
Proof. intros r fs'. apply set_current_cases. Qed.

(** in an environment that does not fail, the CURRENT file
    that was written names the manifest that [read_current] then returns, and
    the number in that name is read back, for every 64-bit number. *)
Theorem current_names_manifest db n fs :
  u64_ok n -> fs_oracle fs = [] ->
  exists fs' fs'', set_current_with_env db (manifest_file_name n) fs = (Ok tt, fs') /\
    read_current_with_env db fs' = (Ok (manifest_file_name n), fs'') /\
    parse_manifest_number (manifest_file_name n) = Some n.
Proof.
  intros Hn Ho. destruct (set_current_ok db (manifest_file_name n) fs Ho) as (fs' & E & Ho' & Hf).
  destruct (read_current_ok db fs' (manifest_file_name n)) as (fs'' & E' & _);
    [by apply reads_ok_nil | done | by apply manifest_name_ascii | by rewrite Hf, lookup_insert_eq |].
  exists fs', fs''. split; [done|]. split; [done|].
  unfold parse_manifest_number, manifest_file_name. rewrite strip_prefix_app.
  by apply parse_fmt06.
Qed.

Lemma set_current_atomic_witness :
  let fs := mkFs {[ "db/CURRENT"%string := [77; 10] ]} ∅ [IoDone; IoFail 3] in
  exists fs', set_current_with_env "db" "MANIFEST-000002" fs = (Err (Io OtherIo), fs') /\
    fs_files fs' !! "db/CURRENT.tmp"%string = Some (take 3 (string_bytes "MANIFEST-000002")) /\
    fs_files fs' !! "db/CURRENT"%string = Some [77; 10].
Proof.
  intros fs. eexists. split; [by vm_compute|]. split; [by vm_compute|].
  destruct (proj1 (set_current_atomic "db" "MANIFEST-000002" fs _ _ ltac:(by vm_compute)))
    as [[H _] | H]; [exact H | by vm_compute in H].
Defined.

Lemma current_names_manifest_witness :
  let fs := mkFs ∅ ∅ [] in
  u64_ok 1000001 /\ fs_oracle fs = [] /\
  exists fs' fs'', set_current_with_env "db" (manifest_file_name 1000001) fs = (Ok tt, fs') /\
    read_current_with_env "db" fs' = (Ok (manifest_file_name 1000001), fs'') /\
    parse_manifest_number (manifest_file_name 1000001) = Some 1000001.
Proof. split; [done|]. split; [done|]. by apply current_names_manifest. Defined.
