(* ===== verification/Externals.v ===== *)
(** * Code outside the repository

    The crates the sources call are parameters: [crc32c::crc32c] (called by
    [src/util/crc.rs]) and [zstd::stream::{encode_all, decode_all}].  What the
    sources rely on is [ExternalsOk]: the checksum is a [u32], and decoding
    what was encoded gives it back.  [toy_externals] is a concrete instance,
    used by the witnesses. *)

From stdpp Require Import base list.
From S2P Require Import Prelude.

Class Externals : Type := {
  crc32c : bytes -> u32;
  zstd_encode_all : bytes -> res bytes;
  zstd_decode_all : bytes -> res bytes
}.

Class ExternalsOk (X : Externals) : Prop := {
  crc32c_u32 : forall bs, u32_ok (crc32c bs);
  zstd_roundtrip : forall bs c, zstd_encode_all bs = Ok c -> zstd_decode_all c = Ok bs
}.

(** A checksum and a codec that satisfy the laws. *)
#[export] Instance toy_externals : Externals := {|
  crc32c bs := foldl (fun h b => (h * 31 + b + 1) mod 2 ^ 32) 7 bs;
  zstd_encode_all bs := Ok (0x28 :: bs);
  zstd_decode_all bs :=
    match bs with 0x28 :: bs => Ok bs | _ => Err (Io OtherIo) end
|}.

#[export] Instance toy_externals_ok : ExternalsOk toy_externals.
Proof.
  split.
  - intros bs. simpl. assert (forall bs h, u32_ok h ->
      u32_ok (foldl (fun h b => (h * 31 + b + 1) mod 2 ^ 32) h bs)) as H.
    { clear bs. induction bs as [|b bs IH]; intros h Hh; simpl; [done|].
      apply IH. apply Z.mod_pos_bound. done. }
    apply H. unfold u32_ok. lia.
  - intros bs c [= <-]. done.
Qed.
