(* ===== verification/Wal.v ===== *)
(** * The write-ahead log

    [src/wal/]: records of a checksum, a length, a type and a payload; the
    writer appends, the reader stops at the end of the file or at a record
    that is cut off, and reports a bad type or checksum.  The manifest uses
    the same records. *)

From stdpp Require Import base gmap list strings.
From S2P Require Import Prelude Externals Env.

Definition WAL_RECORD_HEADER_SIZE : usize := 9.

Inductive WalRecordType : Type := Full.

Definition record_type_u8 (t : WalRecordType) : u8 := match t with Full => 1 end.

Definition record_type_from_u8 (value : u8) : res WalRecordType :=
  if value =? 1 then Ok Full else Err (Corruption "unknown WAL record type").

Record WalWriter : Type := mkWalWriter { ww_file : WritableFile }.
Record WalReader : Type := mkWalReader { wr_file : ReadableFile }.

(** A method of the file inside a method of the writer or of the reader. *)
Definition on_ww {A} (m : M (WritableFile * Fs) A) : M (WalWriter * Fs) A :=
  zoom (fun s => (ww_file s.1, s.2)) (fun t _ => (mkWalWriter t.1, t.2)) m.
Definition on_wr {A} (m : M (ReadableFile * Fs) A) : M (WalReader * Fs) A :=
  zoom (fun s => (wr_file s.1, s.2)) (fun t _ => (mkWalReader t.1, t.2)) m.

Section wal.
Context `{X : Externals}.

(** ** Writer *)

Definition wal_create (path : string) : M Fs WalWriter :=
  file ← open_writable path writable_append;
  mret (mkWalWriter file).

(** The four writes of a record, shared by [WalWriter::append] and
    [ManifestWriter::append]. *)
Definition write_record (payload : bytes) : M (WritableFile * Fs) unit :=
  let record_type := record_type_u8 Full in
  let crc_input := record_type :: payload in
  let checksum := crc32c crc_input in
  _ ← write_all (to_le_bytes 4 checksum);
  _ ← write_all (to_le_bytes 4 (wrap32 (len payload)));
  _ ← write_all [record_type];
  write_all payload.

Definition wal_append (payload : bytes) : M (WalWriter * Fs) unit :=
  on_ww (write_record payload).

Definition wal_sync : M (WalWriter * Fs) unit := on_ww sync_all.

(** ** Reader *)

Definition wal_open (path : string) : M Fs WalReader :=
  file ← open_readable path;
  mret (mkWalReader file).

(** The loop of [read_exact_or_eof]; every read but the last shortens the
    buffer, so one step per byte and one more are enough. *)
Fixpoint read_exact_or_eof_loop (fuel : nat) (n : usize) (read_any : bool) (dst : bytes) :
    M (ReadableFile * Fs) (bool * bytes) :=
  if n =? 0 then mret (read_any, dst)
  else match fuel with
  | O => panic
  | S fuel =>
      chunk ← rf_read n;
      match chunk with
      | [] => mret (false, dst)
      | _ => read_exact_or_eof_loop fuel (n - len chunk) true (dst ++ chunk)
      end
  end.

Definition read_exact_or_eof (n : usize) : M (ReadableFile * Fs) (bool * bytes) :=
  read_exact_or_eof_loop (Z.to_nat n) n false [].

Definition read_record : M (WalReader * Fs) (option bytes) :=
  '(complete, header) ← on_wr (read_exact_or_eof WAL_RECORD_HEADER_SIZE);
  if negb complete then mret None
  else
    let expected_checksum := from_le_bytes (take 4 header) in
    let payload_len := from_le_bytes (take 4 (drop 4 header)) in
    match header !! 8%nat with
    | None => panic
    | Some t =>
        record_type ← lift (record_type_from_u8 t);
        '(complete, payload) ← on_wr (read_exact_or_eof payload_len);
        if negb complete then mret None
        else
          let crc_input := record_type_u8 record_type :: payload in
          let actual_checksum := crc32c crc_input in
          if expected_checksum =? actual_checksum then mret (Some payload)
          else fail (Corruption "WAL checksum mismatch")
    end.

(** [while let Some(payload) = reader.read_record()? { .. }], the loop of
    [recover_wal] and of [ManifestReader::read_all].  Every record that is
    read consumes at least its header, so one step per byte and one more are
    enough ([wal_for_each_total]). *)
Fixpoint wal_loop {A} (fuel : nat) (body : bytes -> A -> res A) (acc : A) :
    M (WalReader * Fs) A :=
  match fuel with
  | O => panic
  | S fuel =>
      record ← read_record;
      match record with
      | None => mret acc
      | Some payload => acc ← lift (body payload acc); wal_loop fuel body acc
      end
  end.

Definition wal_for_each {A} (body : bytes -> A -> res A) (acc : A) :
    M (WalReader * Fs) A := fun s =>
  wal_loop (S (length (rf_rest (wr_file s.1)))) body acc s.

(** ** The bytes of a record *)

Definition wal_record (payload : bytes) : bytes :=
  to_le_bytes 4 (crc32c (1 :: payload)) ++ to_le_bytes 4 (wrap32 (len payload))
    ++ [1] ++ payload.

Lemma wal_record_length payload : length (wal_record payload) = (9 + length payload)%nat.
Proof. unfold wal_record. by rewrite !length_app, !length_to_le_bytes. Qed.

(** ** Writing *)

(** A prefix of the first part, or the first part and a prefix of the rest. *)
Lemma prefix_of_app_l {A} (w a b : list A) : w `prefix_of` a -> w `prefix_of` a ++ b.
Proof. apply prefix_app_r. Qed.

Lemma write_all_bind {B} (a b : bytes) (k : M (WritableFile * Fs) B) f fs c :
  writes_at_end f fs c ->
  (forall f' fs', writes_at_end f' fs' (c ++ a) -> wf_path f' = wf_path f ->
    fs_files fs' = <[wf_path f := c ++ a]> (fs_files fs) ->
    exists r f'' fs'' w, k (f', fs') = (r, (f'', fs'')) /\ wf_path f'' = wf_path f' /\
      w `prefix_of` b /\ (forall x, r = Ok x -> w = b) /\
      writes_at_end f'' fs'' ((c ++ a) ++ w) /\
      fs_files fs'' = <[wf_path f' := (c ++ a) ++ w]> (fs_files fs')) ->
  exists r f'' fs'' w, (_ ← write_all a; k) (f, fs) = (r, (f'', fs'')) /\
    wf_path f'' = wf_path f /\
    w `prefix_of` a ++ b /\ (forall x, r = Ok x -> w = a ++ b) /\
    writes_at_end f'' fs'' (c ++ w) /\
    fs_files fs'' = <[wf_path f := c ++ w]> (fs_files fs).
Proof.
  intros Hw Hk. destruct (write_all_prefix a f fs c Hw)
    as (r1 & f1 & fs1 & w1 & E1 & Hp1 & Hpre & Hr1 & Hw1 & Hf1).
  unfold mbind, M_bind. rewrite E1. destruct r1 as [[]|e|].
  - rewrite (Hr1 eq_refl) in *.
    destruct (Hk f1 fs1 Hw1 Hp1 Hf1) as (r2 & f2 & fs2 & w2 & E2 & Hp2 & Hpre2 & Hr2 & Hw2 & Hf2).
    rewrite E2. rewrite <- app_assoc in Hw2, Hf2.
    rewrite Hp1, Hf1, insert_insert_eq in Hf2.
    eexists r2, f2, fs2, (a ++ w2). split; [done|]. split; [congruence|].
    split; [by apply prefix_app|]. split; [|done].
    intros x Hx. by rewrite (Hr2 x Hx).
  - eexists _, _, _, w1. split; [done|]. split; [done|].
    split; [by apply prefix_of_app_l|]. done.
  - eexists _, _, _, w1. split; [done|]. split; [done|].
    split; [by apply prefix_of_app_l|]. done.
Qed.

(** Appending a record, whatever the environment does: a prefix of the
    record is written, the whole record when the call succeeds. *)
Lemma write_record_prefix payload f fs c :
  writes_at_end f fs c ->
  exists r f' fs' w, write_record payload (f, fs) = (r, (f', fs')) /\
    wf_path f' = wf_path f /\
    w `prefix_of` wal_record payload /\ (forall x, r = Ok x -> w = wal_record payload) /\
    writes_at_end f' fs' (c ++ w) /\
    fs_files fs' = <[wf_path f := c ++ w]> (fs_files fs).
Proof.
  intros Hw. unfold write_record, wal_record. cbv zeta. simpl record_type_u8.
  apply write_all_bind; [done|]. intros f1 fs1 Hw1 Hp1 Hf1.
  apply write_all_bind; [done|]. intros f2 fs2 Hw2 Hp2 Hf2.
  apply write_all_bind; [done|]. intros f3 fs3 Hw3 Hp3 Hf3.
  destruct (write_all_prefix payload f3 fs3 _ Hw3)
    as (r4 & f4 & fs4 & w4 & E4 & Hp4 & Hpre & Hr4 & Hw4 & Hf4).
  eexists r4, f4, fs4, w4. split; [done|]. split; [done|]. split; [done|].
  split; [|done]. intros [] ->. auto.
Qed.

(** ** Reading *)

Lemma rf_read_spec n f fs :
  reads_ok fs -> 0 < n ->
  exists chunk rest fs', rf_read n (f, fs) = (Ok chunk, (advance f (len chunk), fs')) /\
    rf_rest f = chunk ++ rest /\ len chunk <= n /\ (chunk = [] -> rest = []) /\
    reads_ok fs' /\ fs_files fs' = fs_files fs.
Proof.
  intros Hr Hn.
  assert (forall k fs', (0 < k)%nat -> Z.of_nat k <= n -> reads_ok fs' ->
    fs_files fs' = fs_files fs ->
    rf_read n (f, fs)
      = (Ok (take k (rf_rest f)), (advance f (len (take k (rf_rest f))), fs')) ->
    exists chunk rest fs', rf_read n (f, fs) = (Ok chunk, (advance f (len chunk), fs')) /\
    rf_rest f = chunk ++ rest /\ len chunk <= n /\ (chunk = [] -> rest = []) /\
    reads_ok fs' /\ fs_files fs' = fs_files fs) as H.
  { intros k fs' Hk Hkn Hr' Hf' E. exists (take k (rf_rest f)), (drop k (rf_rest f)), fs'.
    split; [done|]. split; [by rewrite take_drop|].
    split; [unfold len; rewrite length_take; lia|]. split; [|done].
    destruct (rf_rest f); [by rewrite drop_nil|]. by destruct k; [lia|]. }
  revert H. unfold rf_read, next_event. unfold reads_ok in Hr.
  destruct (fs_oracle fs) as [|e es] eqn:Eo; intros H.
  - eapply (H (Z.to_nat n) fs); [lia | lia | unfold reads_ok; rewrite Eo; constructor | done..].
  - apply Forall_cons in Hr as [He Hr]. destruct e as [|k|k]; [|done|].
    + eapply (H (Z.to_nat n)); [lia | lia | | | done]; done.
    + eapply (H (S k `min` Z.to_nat n)%nat); [lia | lia | | | by rewrite take_take]; done.
Qed.

Lemma advance_advance f a b : advance (advance f a) b = advance f (a + b).
Proof. unfold advance. simpl. f_equal. lia. Qed.

Lemma read_exact_or_eof_loop_spec fuel n read_any dst f fs :
  reads_ok fs -> 0 <= rf_pos f -> 0 <= n -> (Z.to_nat n <= fuel)%nat ->
  exists fs', reads_ok fs' /\ fs_files fs' = fs_files fs /\
    read_exact_or_eof_loop fuel n read_any dst (f, fs) =
    if n =? 0 then (Ok (read_any, dst), (f, fs'))
    else if len (rf_rest f) <? n
    then (Ok (false, dst ++ rf_rest f), (advance f (len (rf_rest f)), fs'))
    else (Ok (true, dst ++ take (Z.to_nat n) (rf_rest f)), (advance f n, fs')).
Proof.
  revert n read_any dst f fs. induction fuel as [|fuel IH];
    intros n read_any dst f fs Hr Hp Hn Hfuel.
  { assert (n = 0) as -> by lia. eauto. }
  cbn [read_exact_or_eof_loop]. destruct (n =? 0) eqn:En; [by eauto|].
  apply Z.eqb_neq in En.
  destruct (rf_read_spec n f fs Hr ltac:(lia))
    as (chunk & rest & fs1 & E & Hrest & Hc & Hnil & Hr1 & Hf1).
  erewrite bind_ok by exact E.
  pose proof (len_nonneg chunk). pose proof (len_nonneg rest).
  destruct chunk as [|b bs].
  - rewrite Hrest, (Hnil eq_refl). exists fs1. split; [done|]. split; [done|]. simpl.
    rewrite len_nil. assert ((0 <? n) = true) as -> by (apply Z.ltb_lt; lia).
    by rewrite app_nil_r.
  - set (chunk := b :: bs) in *.
    assert (Hpos : 0 < len chunk)
      by (unfold chunk; rewrite len_cons; pose proof (len_nonneg bs); lia).
    destruct (IH (n - len chunk) true (dst ++ chunk) (advance f (len chunk)) fs1)
      as (fs2 & Hr2 & Hf2 & E2); [done | simpl; lia | lia | lia |].
    exists fs2. split; [done|]. split; [congruence|]. rewrite E2.
    rewrite rf_rest_advance, to_nat_len by lia.
    rewrite Hrest, drop_app_length, len_app, !advance_advance, <- !app_assoc.
    assert (Ht : take (Z.to_nat n) (chunk ++ rest)
      = chunk ++ take (Z.to_nat (n - len chunk)) rest).
    { rewrite take_app_ge by (unfold len in *; lia). do 2 f_equal. unfold len. lia. }
    destruct (Z.eqb_spec (n - len chunk) 0) as [E3|E3].
    + assert ((len chunk + len rest <? n) = false) as -> by (apply Z.ltb_ge; lia).
      rewrite Ht, E3, app_nil_r. do 3 f_equal. lia.
    + replace (len chunk + len rest <? n) with (len rest <? n - len chunk)
        by (destruct (Z.ltb_spec (len rest) (n - len chunk)),
              (Z.ltb_spec (len chunk + len rest) n); done || lia).
      destruct (len rest <? n - len chunk); [done|]. rewrite Ht. do 3 f_equal. lia.
Qed.

Lemma read_exact_or_eof_spec n f fs :
  reads_ok fs -> 0 <= rf_pos f -> 0 <= n ->
  exists fs', reads_ok fs' /\ fs_files fs' = fs_files fs /\
    read_exact_or_eof n (f, fs) =
    if n =? 0 then (Ok (false, []), (f, fs'))
    else if len (rf_rest f) <? n
    then (Ok (false, rf_rest f), (advance f (len (rf_rest f)), fs'))
    else (Ok (true, take (Z.to_nat n) (rf_rest f)), (advance f n, fs')).
Proof. intros. by apply (read_exact_or_eof_loop_spec _ n false []). Qed.

(** What a reader makes of the bytes that are left: the specification of
    [read_record], with no file, no buffer and no short read. *)
Definition parse_record (rest : bytes) : res (option (bytes * bytes)) :=
  if len rest <? 9 then Ok None
  else
    let payload_len := from_le_bytes (take 4 (drop 4 rest)) in
    let body := drop 9 rest in
    if negb (nth 8 rest 0 =? 1) then Err (Corruption "unknown WAL record type")
    else if (payload_len =? 0) || (len body <? payload_len) then Ok None
    else
      let payload := take (Z.to_nat payload_len) body in
      if from_le_bytes (take 4 rest) =? crc32c (1 :: payload)
      then Ok (Some (payload, drop (Z.to_nat payload_len) body))
      else Err (Corruption "WAL checksum mismatch").

Definition reader_rest (rd : WalReader) : bytes := rf_rest (wr_file rd).
Definition reader_ok (rd : WalReader) : Prop :=
  0 <= rf_pos (wr_file rd) /\ Forall u8_ok (rf_data (wr_file rd)).

Lemma from_le_bytes_nonneg bs : Forall u8_ok bs -> 0 <= from_le_bytes bs.
Proof.
  induction 1 as [|b bs [H _] _ IH]; simpl; [done|].
  fold (from_le_bytes bs). lia.
Qed.

Lemma on_wr_read n rd fs :
  reads_ok fs -> 0 <= rf_pos (wr_file rd) -> 0 <= n ->
  exists fs', reads_ok fs' /\ fs_files fs' = fs_files fs /\
    on_wr (read_exact_or_eof n) (rd, fs) =
    if n =? 0 then (Ok (false, []), (rd, fs'))
    else if len (reader_rest rd) <? n
    then (Ok (false, reader_rest rd),
          (mkWalReader (advance (wr_file rd) (len (reader_rest rd))), fs'))
    else (Ok (true, take (Z.to_nat n) (reader_rest rd)),
          (mkWalReader (advance (wr_file rd) n), fs')).
Proof.
  intros Hr Hp Hn. destruct (read_exact_or_eof_spec n (wr_file rd) fs Hr Hp Hn)
    as (fs' & Hr' & Hf' & E).
  exists fs'. split; [done|]. split; [done|]. unfold on_wr, zoom, reader_rest in *.
  simpl. rewrite E. destruct (n =? 0); [by destruct rd|].
  by destruct (_ <? n).
Qed.

Lemma read_record_spec rd fs :
  reads_ok fs -> reader_ok rd ->
  exists rd' fs' r, read_record (rd, fs) = (r, (rd', fs')) /\
    reads_ok fs' /\ fs_files fs' = fs_files fs /\ reader_ok rd' /\
    match parse_record (reader_rest rd) with
    | Ok None => r = Ok None
    | Ok (Some (payload, rest)) => r = Ok (Some payload) /\ reader_rest rd' = rest
    | Err e => r = Err e
    | Panic => False
    end.
Proof.
  intros Hr [Hp Hd]. unfold read_record, WAL_RECORD_HEADER_SIZE.
  destruct (on_wr_read 9 rd fs Hr Hp ltac:(lia)) as (fs1 & Hr1 & Hf1 & E1).
  set (rest := reader_rest rd) in *. simpl (9 =? 0) in E1.
  assert (Hrest : Forall u8_ok rest) by (by apply Forall_drop).
  unfold parse_record. destruct (len rest <? 9) eqn:E9.
  { erewrite bind_ok by exact E1. simpl. eexists _, fs1, _. split; [done|].
    split; [done|]. split; [done|]. split; [|done].
    split; [|done]. simpl. pose proof (len_nonneg rest). lia. }
  erewrite bind_ok by exact E1. cbv beta iota. cbn [negb].
  apply Z.ltb_ge in E9.
  assert (H8 : take (Z.to_nat 9) rest !! 8%nat = Some (nth 8 rest 0)).
  { rewrite lookup_take_lt by lia.
    destruct (lookup_lt_is_Some_2 rest 8) as [x Hx]; [unfold len in E9; lia|].
    by rewrite nth_lookup, Hx. }
  rewrite H8. change (Z.to_nat 9) with 9%nat. rewrite !take_take, skipn_firstn_comm, take_take.
  simpl (4 `min` _)%nat.
  set (plen := from_le_bytes (take 4 (drop 4 rest))).
  assert (Hplen : 0 <= plen) by (by apply from_le_bytes_nonneg, Forall_take, Forall_drop).
  unfold record_type_from_u8.
  destruct (nth 8 rest 0 =? 1) eqn:Et; cbn [negb].
  2: { eexists _, fs1, _. split; [done|]. split; [done|]. split; [done|].
       split; [|done]. split; [simpl; lia | done]. }
  erewrite bind_ok by reflexivity.
  set (rd1 := mkWalReader (advance (wr_file rd) 9)).
  assert (Hrd1 : reader_rest rd1 = drop 9 rest).
  { unfold rd1, reader_rest. simpl. by rewrite rf_rest_advance. }
  destruct (on_wr_read plen rd1 fs1 Hr1 ltac:(simpl; lia) Hplen) as (fs2 & Hr2 & Hf2 & E2).
  rewrite Hrd1 in E2. pose proof (len_nonneg (drop 9 rest)).
  destruct (plen =? 0); [|destruct (len (drop 9 rest) <? plen)]; cbn [orb].
  1, 2: erewrite bind_ok by exact E2; simpl; eexists _, fs2, _; split; [done|];
    split; [done|]; split; [congruence|]; split; [|done]; split; [simpl; lia | done].
  erewrite bind_ok by exact E2. cbv beta iota. cbn [negb record_type_u8].
  destruct (_ =? crc32c _); (eexists _, fs2, _; split; [done|]; split; [done|];
    split; [congruence|]; split; [split; [simpl; lia | done]|]); [|done].
  split; [done|]. unfold reader_rest. cbn [wr_file].
  change (advance (wr_file rd) 9) with (wr_file rd1).
  rewrite rf_rest_advance by (simpl; lia). by rewrite <- Hrd1.
Qed.

(** The same loop on bytes. *)
Fixpoint replay {A} (fuel : nat) (body : bytes -> A -> res A) (acc : A) (rest : bytes) :
    res A :=
  match fuel with
  | O => Panic
  | S fuel =>
      match parse_record rest with
      | Ok None => Ok acc
      | Ok (Some (payload, rest)) =>
          match body payload acc with
          | Ok acc => replay fuel body acc rest
          | Err e => Err e
          | Panic => Panic
          end
      | Err e => Err e
      | Panic => Panic
      end
  end.

Definition replay_all {A} (body : bytes -> A -> res A) (acc : A) (rest : bytes) : res A :=
  replay (S (length rest)) body acc rest.

Lemma wal_loop_replay {A} fuel (body : bytes -> A -> res A) acc rd fs :
  reads_ok fs -> reader_ok rd ->
  exists rd' fs', wal_loop fuel body acc (rd, fs)
      = (replay fuel body acc (reader_rest rd), (rd', fs')) /\
    reads_ok fs' /\ fs_files fs' = fs_files fs.
Proof.
  revert acc rd fs. induction fuel as [|fuel IH]; intros acc rd fs Hr Hrd; [by eauto|].
  cbn [wal_loop replay].
  destruct (read_record_spec rd fs Hr Hrd) as (rd1 & fs1 & r & E & Hr1 & Hf1 & Hrd1 & Hm).
  destruct (parse_record (reader_rest rd)) as [[[payload rest]|]|e|].
  - destruct Hm as [-> Hrest]. erewrite bind_ok by exact E. cbv beta iota.
    unfold lift, mbind, M_bind. destruct (body payload acc) as [acc'|e|]; [|by eauto..].
    rewrite <- Hrest. destruct (IH acc' rd1 fs1 Hr1 Hrd1) as (rd2 & fs2 & E2 & Hr2 & Hf2).
    exists rd2, fs2. split; [exact E2|]. split; [done | congruence].
  - subst r. erewrite bind_ok by exact E. eauto.
  - subst r. erewrite bind_err by exact E. eauto.
  - done.
Qed.

Lemma wal_for_each_replay {A} (body : bytes -> A -> res A) acc rd fs :
  reads_ok fs -> reader_ok rd ->
  exists rd' fs', wal_for_each body acc (rd, fs)
      = (replay_all body acc (reader_rest rd), (rd', fs')) /\
    reads_ok fs' /\ fs_files fs' = fs_files fs.
Proof. intros. by apply wal_loop_replay. Qed.

Lemma parse_record_shrinks rest payload rest' :
  parse_record rest = Ok (Some (payload, rest')) -> (length rest' < length rest)%nat.
Proof.
  unfold parse_record. destruct (len rest <? 9) eqn:E; [done|]. apply Z.ltb_ge in E.
  destruct (negb _); [done|]. destruct (_ || _); [done|]. destruct (_ =? _); [|done].
  intros [= _ <-]. rewrite !length_drop. unfold len in E. lia.
Qed.

Lemma parse_record_no_panic rest : parse_record rest <> Panic.
Proof. unfold parse_record. repeat case_match; done. Qed.

(** One step per byte is enough: the loop of a reader terminates. *)
Lemma replay_no_panic {A} fuel (body : bytes -> A -> res A) acc rest :
  (forall p a, body p a <> Panic) -> (length rest < fuel)%nat ->
  replay fuel body acc rest <> Panic.
Proof.
  intros Hb. revert acc rest. induction fuel as [|fuel IH]; intros acc rest Hf; [lia|].
  simpl. destruct (parse_record rest) as [[[p r]|]|e|] eqn:E; try done.
  - apply parse_record_shrinks in E. destruct (body p acc) eqn:Eb; [|done|by apply Hb in Eb].
    apply IH. lia.
  - by apply parse_record_no_panic in E.
Qed.

(** More fuel changes nothing. *)
Lemma replay_fuel {A} fuel k (body : bytes -> A -> res A) acc rest :
  (length rest < fuel)%nat -> replay (fuel + k) body acc rest = replay fuel body acc rest.
Proof.
  revert acc rest. induction fuel as [|fuel IH]; intros acc rest Hf; [lia|]. simpl.
  destruct (parse_record rest) as [[[p r]|]|e|] eqn:E; try done.
  apply parse_record_shrinks in E. destruct (body p acc); [|done..]. apply IH. lia.
Qed.

(** ** Records read back *)

Context `{HX : !ExternalsOk X}.

(** What the log carries: a payload that is not empty and whose length fits
    the length field.  An empty payload reads back as the end of the log
    ([empty_payload_ends_log]). *)
Definition loggable (payload : bytes) : Prop := payload <> [] /\ len payload < 2 ^ 32.

Lemma wal_record_fields payload rest :
  len payload < 2 ^ 32 ->
  let r := wal_record payload ++ rest in
  from_le_bytes (take 4 r) = crc32c (1 :: payload) /\
  from_le_bytes (take 4 (drop 4 r)) = len payload /\
  nth 8 r 0 = 1 /\ drop 9 r = payload ++ rest.
Proof.
  intros Hl r. unfold r, wal_record. rewrite wrap32_len by done.
  set (c := to_le_bytes 4 (crc32c (1 :: payload))).
  set (n := to_le_bytes 4 (len payload)).
  assert (Hc : length c = 4%nat) by apply length_to_le_bytes.
  assert (Hn : length n = 4%nat) by apply length_to_le_bytes.
  rewrite <- !app_assoc.
  assert (from_le_bytes c = crc32c (1 :: payload)) as <-.
  { apply from_to_le_bytes. apply crc32c_u32. }
  assert (from_le_bytes n = len payload) as <-.
  { apply from_to_le_bytes. pose proof (len_nonneg payload). split; [done|].
    by change (256 ^ Z.of_nat 4) with (2 ^ 32). }
  destruct c as [|c0 [|c1 [|c2 [|c3 [|]]]]]; try discriminate Hc.
  destruct n as [|n0 [|n1 [|n2 [|n3 [|]]]]]; try discriminate Hn. done.
Qed.

Lemma parse_record_full payload rest :
  loggable payload ->
  parse_record (wal_record payload ++ rest) = Ok (Some (payload, rest)).
Proof.
  intros [Hne Hl]. destruct (wal_record_fields payload rest Hl) as (H1 & H2 & H3 & H4).
  unfold parse_record. rewrite H1, H2, H3, H4.
  pose proof (len_nonneg payload). pose proof (len_nonneg rest).
  assert ((len (wal_record payload ++ rest) <? 9) = false) as ->.
  { apply Z.ltb_ge. unfold len. rewrite length_app, wal_record_length. lia. }
  assert ((len payload =? 0) = false) as ->.
  { apply Z.eqb_neq. destruct payload; [done|]. rewrite len_cons.
    pose proof (len_nonneg payload). lia. }
  assert ((len (payload ++ rest) <? len payload) = false) as ->.
  { apply Z.ltb_ge. rewrite len_app. lia. }
  simpl. by rewrite to_nat_len, take_app_length, drop_app_length, Z.eqb_refl.
Qed.

Lemma parse_record_torn payload w x :
  len payload < 2 ^ 32 -> wal_record payload = w ++ x -> x <> [] ->
  parse_record w = Ok None.
Proof.
  intros Hl Hw Hx. unfold parse_record. destruct (len w <? 9) eqn:E9; [done|].
  apply Z.ltb_ge in E9. unfold len in E9.
  destruct (wal_record_fields payload [] Hl) as (_ & H2 & H3 & H4).
  rewrite app_nil_r, Hw in H2, H3, H4. rewrite app_nil_r in H4.
  rewrite app_nth1 in H3 by lia. rewrite !drop_app_le in H2, H4 by lia.
  rewrite take_app_le in H2 by (rewrite length_drop; lia).
  rewrite H2, H3. simpl.
  assert ((len (drop 9 w) <? len payload) = true) as ->; [|by rewrite orb_true_r].
  apply Z.ltb_lt. rewrite <- H4, len_app. destruct x; [done|]. rewrite len_cons.
  pose proof (len_nonneg x). lia.
Qed.

(** The bytes of a log whose last record may be cut off. *)
Definition torn_tail (t : bytes) : Prop :=
  t = [] \/ exists payload x,
    len payload < 2 ^ 32 /\ wal_record payload = t ++ x /\ x <> [].

Lemma parse_torn_tail t : torn_tail t -> parse_record t = Ok None.
Proof.
  intros [-> | (p & x & Hl & Hw & Hx)]; [done|]. by eapply parse_record_torn.
Qed.

Definition log_bytes (payloads : list bytes) : bytes := concat (map wal_record payloads).

Lemma replay_log {A} (body : bytes -> A -> res A) payloads acc t fuel :
  Forall loggable payloads -> parse_record t = Ok None ->
  (length payloads < fuel)%nat ->
  replay fuel body acc (log_bytes payloads ++ t) = fold_res body acc payloads.
Proof.
  intros Hl Ht. unfold log_bytes. revert acc fuel.
  induction Hl as [|p ps Hp _ IH]; intros acc fuel Hf;
    (destruct fuel as [|fuel]; [simpl in Hf; lia|]);
    cbn [map concat app replay fold_res].
  - by rewrite Ht.
  - rewrite <- app_assoc, parse_record_full by done.
    destruct (body p acc); [|done..]. apply IH. simpl in Hf. lia.
Qed.

Lemma log_bytes_length payloads : (length payloads <= length (log_bytes payloads))%nat.
Proof.
  unfold log_bytes. induction payloads as [|p ps IH]; [simpl; lia|].
  cbn [map concat length]. rewrite length_app, wal_record_length. lia.
Qed.

Lemma replay_all_log {A} (body : bytes -> A -> res A) payloads acc t :
  Forall loggable payloads -> parse_record t = Ok None ->
  replay_all body acc (log_bytes payloads ++ t) = fold_res body acc payloads.
Proof.
  intros. apply replay_log; [done..|]. rewrite length_app.
  pose proof (log_bytes_length payloads). lia.
Qed.

(** ** Properties *)

(** Appending to an open log in an environment that does not fail. *)
Lemma wal_append_prefix payload w fs c :
  writes_at_end (ww_file w) fs c ->
  exists r w' fs' b, wal_append payload (w, fs) = (r, (w', fs')) /\
    wf_path (ww_file w') = wf_path (ww_file w) /\
    b `prefix_of` wal_record payload /\ (forall x, r = Ok x -> b = wal_record payload) /\
    writes_at_end (ww_file w') fs' (c ++ b) /\
    fs_files fs' = <[wf_path (ww_file w) := c ++ b]> (fs_files fs).
Proof.
  intros Hw. destruct (write_record_prefix payload (ww_file w) fs c Hw)
    as (r & f' & fs' & b & E & Hp & Hpre & Hr & Hw' & Hf).
  exists r, (mkWalWriter f'), fs', b. split; [|done].
  unfold wal_append, on_ww, zoom. simpl. by rewrite E.
Qed.

Lemma wal_append_no_panic payload : no_panic (wal_append payload).
Proof.
  apply no_panic_zoom. unfold write_record.
  repeat (apply no_panic_bind; [apply write_all_no_panic | intros _]). apply write_all_no_panic.
Qed.

Lemma wal_sync_no_panic : no_panic wal_sync.
Proof. apply no_panic_zoom, sync_all_no_panic. Qed.

Definition collect_payload (payload : bytes) (acc : list bytes) : res (list bytes) :=
  Ok (acc ++ [payload]).

Lemma fold_collect payloads acc :
  fold_res collect_payload acc payloads = Ok (acc ++ payloads).
Proof.
  revert acc. induction payloads as [|p ps IH]; intros acc; simpl; [by rewrite app_nil_r|].
  rewrite IH. by rewrite <- app_assoc.
Qed.

(** A prefix of a record is the record or a torn tail. *)
Lemma prefix_torn payload b :
  loggable payload -> b `prefix_of` wal_record payload ->
  b = wal_record payload \/ parse_record b = Ok None.
Proof.
  intros [_ Hl] [x Hx]. destruct x as [|y x].
  - left. by rewrite app_nil_r in Hx.
  - right. by eapply parse_record_torn.
Qed.

(** C18: a record is appended to a log in an environment that may fail
    after any number of its bytes; replaying what is then in the file gives the
    records before it, and the new one exactly when it is whole: an append
    that reported success is recovered, a torn one is dropped, and nothing else
    is ever read. *)
Theorem wal_crash_prefix payloads payload w fs rd fs_read :
  Forall loggable payloads -> loggable payload ->
  writes_at_end (ww_file w) fs (log_bytes payloads) ->
  forall r w' fs', wal_append payload (w, fs) = (r, (w', fs')) ->
  fs_files fs' !! wf_path (ww_file w) = Some (rf_data (wr_file rd)) ->
  rf_pos (wr_file rd) = 0 -> reader_ok rd -> reads_ok fs_read ->
  exists recovered, (wal_for_each collect_payload [] (rd, fs_read)).1 = Ok recovered /\
    (recovered = payloads ++ [payload] \/ recovered = payloads /\ r <> Ok tt).
Proof.
  intros Hl Hp Hw r w' fs' E Hdata Hpos Hrd Hreads.
  destruct (wal_append_prefix payload w fs _ Hw)
    as (r1 & w1 & fs1 & b & E1 & _ & Hpre & Hr & Hw1 & Hf).
  rewrite E in E1. injection E1 as <- <- <-.
  rewrite Hf, lookup_insert_eq in Hdata. injection Hdata as Hdata.
  destruct (wal_for_each_replay collect_payload [] rd fs_read Hreads Hrd)
    as (rd' & fs'' & E2 & _). rewrite E2. simpl.
  assert (reader_rest rd = log_bytes payloads ++ b) as ->.
  { unfold reader_rest, rf_rest. by rewrite Hpos, Hdata. }
  destruct (prefix_torn payload b Hp Hpre) as [-> | Ht].
  - assert (log_bytes payloads ++ wal_record payload = log_bytes (payloads ++ [payload]) ++ [])
      as -> by (unfold log_bytes; by rewrite map_app, concat_app, !app_nil_r; simpl;
                rewrite app_nil_r).
    rewrite replay_all_log, fold_collect; [eauto | by apply Forall_app; auto | done].
  - rewrite replay_all_log, fold_collect by done. eexists; split; [done|].
    destruct (decide (r = Ok tt)) as [->|]; [|by right].
    rewrite (Hr tt eq_refl) in Ht.
    pose proof (parse_record_full payload [] Hp) as Hfull. rewrite app_nil_r in Hfull.
    congruence.
Qed.

(** C38: replaying a log of arbitrary bytes ends, with a record for the
    callback, an error or the end of the log, and never panics, as long as the
    callback does not. *)
Theorem wal_for_each_total {A} (body : bytes -> A -> res A) acc rd fs :
  (forall p a, body p a <> Panic) -> reads_ok fs -> reader_ok rd ->
  (wal_for_each body acc (rd, fs)).1 <> Panic.
Proof.
  intros Hb Hr Hrd. destruct (wal_for_each_replay body acc rd fs Hr Hrd) as (? & ? & E & _).
  rewrite E. apply replay_no_panic; [done | lia].
Qed.

Lemma replay_log_err {A} (body : bytes -> A -> res A) payloads acc acc' t fuel e :
  Forall loggable payloads -> fold_res body acc payloads = Ok acc' ->
  parse_record t = Err e -> (length payloads < fuel)%nat ->
  replay fuel body acc (log_bytes payloads ++ t) = Err e.
Proof.
  intros Hl. unfold log_bytes. revert acc fuel.
  induction Hl as [|p ps Hp _ IH]; intros acc fuel Hb Ht Hf;
    (destruct fuel as [|fuel]; [simpl in Hf; lia|]);
    cbn [map concat app replay fold_res] in *.
  - by rewrite Ht.
  - rewrite <- app_assoc, parse_record_full by done.
    destruct (body p acc); [|done..]. apply IH; [done..|]. simpl in Hf. lia.
Qed.

(** Four stray bytes in front of a record shift its length field onto the
    type byte. *)
Lemma parse_shifted_record torn payload :
  length torn = 4%nat -> len payload < 2 ^ 32 -> len payload mod 256 <> 1 ->
  parse_record (torn ++ wal_record payload) = Err (Corruption "unknown WAL record type").
Proof.
  intros Ht Hl Hn. unfold parse_record, wal_record.
  rewrite wrap32_len by done. set (c := to_le_bytes 4 (crc32c _)).
  assert (Hc : length c = 4%nat) by apply length_to_le_bytes.
  destruct torn as [|t0 [|t1 [|t2 [|t3 [|]]]]]; try discriminate Ht.
  destruct c as [|c0 [|c1 [|c2 [|c3 [|]]]]]; try discriminate Hc.
  cbn [to_le_bytes app nth].
  apply Z.eqb_neq in Hn. rewrite Hn. cbn [negb].
  match goal with |- context [len ?l <? 9] => assert ((len l <? 9) = false) as -> end;
    [|done].
  apply Z.ltb_ge. rewrite !len_cons. pose proof (len_nonneg payload). lia.
Qed.

Lemma wal_create_existing path c fs :
  fs_files fs !! path = Some c -> fs_oracle fs = [] ->
  exists w, wal_create path fs = (Ok w, fs) /\ wf_path (ww_file w) = path /\
    writes_at_end (ww_file w) fs c.
Proof.
  intros Hf Ho. exists (mkWalWriter (mkWritableFile path true 0)).
  unfold wal_create, open_writable, mbind, M_bind. rewrite fallible_ok by done. rewrite Hf.
  simpl. split; [done|]. split; [done|]. split; [done | by left].
Qed.

Lemma write_record_ok payload f fs c :
  writes_at_end f fs c -> fs_oracle fs = [] ->
  exists f', write_record payload (f, fs)
    = (Ok tt, (f', set_files (<[wf_path f := c ++ wal_record payload]>) fs)) /\
    wf_path f' = wf_path f /\
    writes_at_end f' (set_files (<[wf_path f := c ++ wal_record payload]>) fs)
      (c ++ wal_record payload).
Proof.
  intros Hw Ho. unfold write_record, mbind, M_bind.
  cbn [fst snd record_type_u8]. cbv zeta.
  destruct (write_all_ok (to_le_bytes 4 (crc32c (1 :: payload))) _ _ _ Hw Ho)
    as (f1 & E1 & P1 & W1). rewrite E1.
  destruct (write_all_ok (to_le_bytes 4 (wrap32 (len payload))) _ _ _ W1 Ho)
    as (f2 & E2 & P2 & W2). rewrite E2.
  destruct (write_all_ok [1] _ _ _ W2 Ho) as (f3 & E3 & P3 & W3). rewrite E3.
  destruct (write_all_ok payload _ _ _ W3 Ho) as (f4 & E4 & P4 & W4). rewrite E4.
  exists f4.
  assert (Hp4 : wf_path f4 = wf_path f) by congruence.
  assert (Hp3 : wf_path f3 = wf_path f) by congruence.
  assert (Hp2 : wf_path f2 = wf_path f) by congruence.
  rewrite Hp3, Hp2, P1 in W4 |- *. unfold set_files in *. cbn [fs_files fs_dirs fs_oracle] in *.
  rewrite !insert_insert_eq in *. unfold wal_record. rewrite <- !app_assoc in *.
  by split_and!.
Qed.

Lemma wal_append_ok payload w fs c :
  writes_at_end (ww_file w) fs c -> fs_oracle fs = [] ->
  exists w', wal_append payload (w, fs)
    = (Ok tt, (w', set_files (<[wf_path (ww_file w) := c ++ wal_record payload]>) fs)) /\
    wf_path (ww_file w') = wf_path (ww_file w) /\
    writes_at_end (ww_file w')
      (set_files (<[wf_path (ww_file w) := c ++ wal_record payload]>) fs)
      (c ++ wal_record payload).
Proof.
  intros Hw Ho. destruct (write_record_ok payload _ _ _ Hw Ho) as (f & E & H).
  exists (mkWalWriter f). unfold wal_append, on_ww, zoom. cbn [fst snd]. by rewrite E.
Qed.

(** C39: a log whose last record was torn replays cleanly, but it
    is reopened for appending without being cut: after a next record is
    appended, with success, a replay fails, and the acknowledged record is
    lost (shown for a tail of four bytes). *)
Theorem append_after_torn_tail path payloads torn payload fs :
  Forall loggable payloads -> length torn = 4%nat ->
  len payload < 2 ^ 32 -> len payload mod 256 <> 1 ->
  fs_files fs !! path = Some (log_bytes payloads ++ torn) -> fs_oracle fs = [] ->
  replay_all collect_payload [] (log_bytes payloads ++ torn) = Ok payloads /\
  exists w w' fs' contents, wal_create path fs = (Ok w, fs) /\
    wal_append payload (w, fs) = (Ok tt, (w', fs')) /\
    fs_files fs' !! path = Some contents /\
    replay_all collect_payload [] contents
    = Err (Corruption "unknown WAL record type").
Proof.
  intros Hl Ht Hp Hn Hf Ho. split.
  { assert (Hnone : parse_record torn = Ok None).
    { unfold parse_record. assert ((len torn <? 9) = true) as ->; [|done].
      apply Z.ltb_lt. unfold len. rewrite Ht. lia. }
    by rewrite replay_all_log, fold_collect. }
  destruct (wal_create_existing path _ fs Hf Ho) as (w & Ec & Hpath & Hw).
  destruct (wal_append_ok payload w fs _ Hw Ho) as (w' & Ea & Hp' & Hw').
  destruct Hw' as [Hc _]. rewrite Hp', Hpath in Hc. rewrite Hpath in Ea.
  eexists w, w', _, _. split; [done|]. split; [done|]. split; [exact Hc|].
  unfold replay_all. rewrite <- app_assoc.
  eapply replay_log_err; [done | apply fold_collect | by apply parse_shifted_record |].
  rewrite length_app. pose proof (log_bytes_length payloads). lia.
Qed.

(** a record with an empty payload is read as the end of the log:
    whatever follows it is never replayed. *)
Theorem empty_payload_ends_log payloads rest :
  Forall loggable payloads ->
  replay_all collect_payload [] (log_bytes payloads ++ wal_record [] ++ rest) = Ok payloads.
Proof.
  intros Hl. rewrite replay_all_log, fold_collect; [done | done |].
  destruct (wal_record_fields [] rest) as (_ & H2 & H3 & _); [done|].
  unfold parse_record. rewrite H2, H3. by destruct (_ <? 9).
Qed.
(** ** The bytes of a log are bytes *)

Lemma to_le_bytes_u8 k v : Forall u8_ok (to_le_bytes k v).
Proof.
  revert v. induction k as [|k IH]; intros v; cbn [to_le_bytes]; constructor; [|done].
  apply Z.mod_pos_bound. lia.
Qed.

Lemma wal_record_u8 payload : Forall u8_ok payload -> Forall u8_ok (wal_record payload).
Proof.
  intros Hp. unfold wal_record.
  repeat (apply Forall_app; split); try apply to_le_bytes_u8; [by repeat constructor | done].
Qed.

Lemma log_bytes_u8 payloads : Forall (Forall u8_ok) payloads -> Forall u8_ok (log_bytes payloads).
Proof.
  intros Hp. unfold log_bytes. induction Hp; cbn [map concat]; [constructor|].
  apply Forall_app. split; [by apply wal_record_u8 | done].
Qed.

(** ** Reading without failures *)

Lemma calm_wal_open path : calm id (wal_open path).
Proof. apply calm_bind; [apply calm_open_readable | intros f; apply calm_ret]. Qed.

Lemma calm_read_exact_or_eof_loop fuel n read_any dst :
  calm snd (read_exact_or_eof_loop fuel n read_any dst).
Proof.
  revert n read_any dst. induction fuel as [|fuel IH]; intros n read_any dst;
    cbn [read_exact_or_eof_loop]; destruct (n =? 0); try done.
  apply calm_bind; [apply calm_rf_read|]. intros [|b chunk]; [done | apply IH].
Qed.

Lemma calm_read_record : calm snd read_record.
Proof.
  assert (forall n, calm snd (on_wr (read_exact_or_eof n))) as Hn
    by (intros n; by eapply calm_zoom; [| |apply calm_read_exact_or_eof_loop]).
  apply calm_bind; [apply Hn|]. intros [[] header]; [|done]. cbn [negb]. cbv zeta.
  destruct (header !! 8%nat) as [t|]; [|done].
  apply calm_bind; [apply calm_lift|]. intros ty.
  apply calm_bind; [apply Hn|]. intros [[] payload]; [|done]. cbn [negb]. cbv zeta.
  by destruct (_ =? _).
Qed.

Lemma calm_wal_for_each {A} (body : bytes -> A -> res A) (acc : A) : calm snd (wal_for_each body acc).
Proof.
  intros s. unfold wal_for_each. generalize (S (length (rf_rest (wr_file s.1)))) as fuel.
  intros fuel. revert s. change (calm snd (wal_loop fuel body acc)). revert acc.
  induction fuel as [|fuel IH]; intros acc; cbn [wal_loop]; [done|].
  apply calm_bind; [apply calm_read_record|]. intros [payload|]; [|done].
  apply calm_bind; [apply calm_lift | apply IH].
Qed.
End wal.

(** ** The properties at concrete logs *)

Section wal_examples.
#[local] Existing Instance toy_externals.

(** The third record of a log is torn in its header. *)
Definition example_log : list bytes := [[1; 2]; [3]].
Definition example_torn_fs : Fs :=
  mkFs {[ "db/1.wal"%string := log_bytes example_log ]} ∅ [IoDone; IoFail 2].

Lemma example_log_loggable : Forall loggable example_log.
Proof. by repeat (apply List.Forall_cons; [done|]). Qed.

Lemma wal_crash_prefix_witness :
  let w := mkWalWriter (mkWritableFile "db/1.wal" true 0) in
  (wal_append [4] (w, example_torn_fs)).1 = Err (Io OtherIo) /\
  exists rd recovered, rf_data (wr_file rd) = log_bytes example_log ++ take 6 (wal_record [4]) /\
    (wal_for_each collect_payload [] (rd, mkFs ∅ ∅ [])).1 = Ok recovered /\
    recovered = example_log.
Proof.
  intros w. split; [by vm_compute|].
  set (rd := mkWalReader (mkReadableFile (log_bytes example_log ++ take 6 (wal_record [4])) 0)).
  destruct (wal_append [4] (w, example_torn_fs)) as [r [w' fs']] eqn:E.
  assert (fs_files fs' !! "db/1.wal"%string = Some (rf_data (wr_file rd))) as Hd.
  { replace fs' with (wal_append [4] (w, example_torn_fs)).2.2 by by rewrite E. by vm_compute. }
  destruct (wal_crash_prefix example_log [4] w example_torn_fs rd (mkFs ∅ ∅ [])
    example_log_loggable ltac:(done) ltac:(split; [by vm_compute | by left]) r w' fs' E Hd
    eq_refl ltac:(split; [done|]; by vm_compute; repeat constructor) (reads_ok_nil (mkFs ∅ ∅ []) eq_refl))
    as (recovered & Er & Hcases).
  exists rd, recovered. split; [done|]. split; [exact Er|].
  assert ((wal_for_each collect_payload [] (rd, mkFs ∅ ∅ [])).1 = Ok example_log) as Ev
    by by vm_compute.
  rewrite Er in Ev. by injection Ev.
Defined.

Lemma wal_for_each_total_witness :
  let rd := mkWalReader (mkReadableFile [1; 2; 3; 4; 0; 0; 0; 0; 1; 7; 9] 0) in
  (wal_for_each collect_payload [] (rd, mkFs ∅ ∅ [IoShort 0])).1 <> Panic.
Proof.
  apply wal_for_each_total; [done | by repeat constructor |].
  split; [done|]. by repeat (apply List.Forall_cons; [done|]).
Defined.

Lemma append_after_torn_tail_witness :
  let fs := mkFs {[ "db/1.wal"%string := log_bytes example_log ++ [5; 6; 7; 8] ]} ∅ [] in
  exists w w' fs' contents, wal_create "db/1.wal" fs = (Ok w, fs) /\
    wal_append [9; 9] (w, fs) = (Ok tt, (w', fs')) /\
    fs_files fs' !! "db/1.wal"%string = Some contents /\
    replay_all collect_payload [] contents = Err (Corruption "unknown WAL record type").
Proof.
  apply (append_after_torn_tail "db/1.wal" example_log [5; 6; 7; 8] [9; 9]);
    [apply example_log_loggable | done..].
Defined.

Lemma empty_payload_ends_log_witness :
  replay_all collect_payload [] (log_bytes example_log ++ wal_record [] ++ wal_record [7])
  = Ok example_log.
Proof. apply (empty_payload_ends_log example_log), example_log_loggable. Defined.
End wal_examples.
