(* ===== verification/Format.v ===== *)
(** * The fixed formats of a table file

    [src/table/format.rs]: block handles, internal keys, the footer. *)

From stdpp Require Import base list strings.
From S2P Require Import Prelude Key Coding.

Definition TABLE_MAGIC : u64 := 0x54594c534d444201.
Definition FOOTER_SIZE : usize := 40.
Definition BLOCK_TRAILER_SIZE : usize := 5.

Inductive CompressionType : Type :=
  | CNone
  | CZstd.

#[export] Instance CompressionType_eq_dec : EqDecision CompressionType.
Proof. solve_decision. Defined.

Definition compression_u8 (c : CompressionType) : u8 :=
  match c with CNone => 0 | CZstd => 1 end.

Definition compression_from_u8 (value : u8) : res CompressionType :=
  if value =? 0 then Ok CNone
  else if value =? 1 then Ok CZstd
  else Err (Corruption "unknown block compression type").

Record BlockHandle : Type := mkBlockHandle {
  bh_offset : u64;
  bh_size : u64
}.

#[export] Instance BlockHandle_eq_dec : EqDecision BlockHandle.
Proof. solve_decision. Defined.

Definition encode_fixed (self : BlockHandle) (dst : bytes) : bytes :=
  let dst := dst ++ to_le_bytes 8 (bh_offset self) in
  dst ++ to_le_bytes 8 (bh_size self).

Definition decode_fixed (src : bytes) : res BlockHandle :=
  if negb (len src =? 16) then Err (Corruption "invalid block handle length")
  else
    let offset := from_le_bytes (take 8 src) in
    let size := from_le_bytes (drop 8 src) in
    Ok (mkBlockHandle offset size).

Definition encode_internal_key (key : InternalKey) (dst : bytes) : bytes :=
  let dst := put_var_u32 dst (wrap32 (len (user_key key))) in
  let dst := dst ++ user_key key in
  let dst := put_var_u64 dst (sequence key) in
  dst ++ [value_type_u8 (value_type key)].

Definition decode_value_type (value : u8) : res ValueType :=
  if value =? 1 then Ok VPut
  else if value =? 2 then Ok VDelete
  else Err (Corruption "unknown value type").

Definition decode_internal_key : M bytes InternalKey :=
  key_len ← get_var_u32;
  user_key ← take_bytes key_len;
  sequence ← get_var_u64;
  t ← take_u8;
  value_type ← lift (decode_value_type t);
  mret (mkInternalKey user_key sequence value_type).

Definition encode_footer (properties index : BlockHandle) : bytes :=
  let footer := encode_fixed properties [] in
  let footer := encode_fixed index footer in
  footer ++ to_le_bytes 8 TABLE_MAGIC.

Definition decode_footer (src : bytes) : res (BlockHandle * BlockHandle) :=
  if negb (len src =? FOOTER_SIZE) then Err (Corruption "invalid table footer length")
  else
    properties ← decode_fixed (take 16 src);
    index ← decode_fixed (take 16 (drop 16 src));
    let magic := from_le_bytes (drop 32 src) in
    if negb (magic =? TABLE_MAGIC) then Err (Corruption "invalid table magic")
    else Ok (properties, index).

(** ** Encoded forms *)

Definition ikey_bytes (key : InternalKey) : bytes :=
  varint_bytes 10 (wrap32 (len (user_key key))) ++ user_key key
    ++ varint_bytes 10 (sequence key) ++ [value_type_u8 (value_type key)].

(** Keys the formats can carry. *)
Definition ikey_fits (key : InternalKey) : Prop :=
  len (user_key key) < 2 ^ 32 /\ u64_ok (sequence key).

Lemma encode_internal_key_bytes key dst :
  0 <= sequence key -> encode_internal_key key dst = dst ++ ikey_bytes key.
Proof.
  intros Hs. unfold encode_internal_key, ikey_bytes.
  rewrite put_var_u32_bytes, put_var_u64_bytes by (done || apply u32_ok_wrap).
  by rewrite <- !app_assoc.
Qed.

Lemma decode_value_type_u8 t : decode_value_type (value_type_u8 t) = Ok t.
Proof. by destruct t. Qed.

Lemma lift_value_type t s :
  @lift bytes _ (decode_value_type (value_type_u8 t)) s = (Ok t, s).
Proof. unfold lift. by rewrite decode_value_type_u8. Qed.

#[export] Hint Resolve lift_value_type : codec.

Lemma decode_internal_key_bytes key rest :
  ikey_fits key -> decode_internal_key (ikey_bytes key ++ rest) = (Ok key, rest).
Proof.
  intros [Hl Hs]. unfold decode_internal_key, ikey_bytes.
  rewrite wrap32_len by done. pose proof (len_nonneg (user_key key)).
  parse_steps. by destruct key.
Qed.

#[export] Hint Resolve decode_internal_key_bytes : codec.

Definition handle_ok (h : BlockHandle) : Prop := u64_ok (bh_offset h) /\ u64_ok (bh_size h).

Lemma from_to_le_u64 v : u64_ok v -> from_le_bytes (to_le_bytes 8 v) = v.
Proof. intros. apply from_to_le_bytes. by change (256 ^ Z.of_nat 8) with (2 ^ 64). Qed.

Lemma encode_fixed_app h dst : encode_fixed h dst = dst ++ encode_fixed h [].
Proof. unfold encode_fixed. by rewrite <- !app_assoc. Qed.

Lemma length_encode_fixed h : length (encode_fixed h []) = 16%nat.
Proof. unfold encode_fixed. by rewrite !length_app, !length_to_le_bytes. Qed.

Lemma decode_encode_fixed h : handle_ok h -> decode_fixed (encode_fixed h []) = Ok h.
Proof.
  intros [Ho Hs]. unfold decode_fixed. unfold len. rewrite length_encode_fixed.
  simpl negb. cbv iota. unfold encode_fixed. cbn [app].
  rewrite take_app_length', drop_app_length' by (by rewrite length_to_le_bytes).
  rewrite !from_to_le_u64 by done. by destruct h.
Qed.

Lemma length_encode_footer p i : length (encode_footer p i) = 40%nat.
Proof.
  unfold encode_footer. rewrite (encode_fixed_app i), !length_app, !length_encode_fixed.
  by rewrite length_to_le_bytes.
Qed.

Lemma decode_encode_footer p i :
  handle_ok p -> handle_ok i -> decode_footer (encode_footer p i) = Ok (p, i).
Proof.
  intros Hp Hi. unfold decode_footer. unfold len. rewrite length_encode_footer.
  change (negb (Z.of_nat 40 =? FOOTER_SIZE)) with false. cbv iota.
  unfold encode_footer. rewrite (encode_fixed_app i), <- app_assoc.
  rewrite take_app_length' by (by rewrite length_encode_fixed).
  change 32%nat with (16 + 16)%nat. rewrite <- drop_drop.
  rewrite !drop_app_length' by (by rewrite length_encode_fixed).
  rewrite take_app_length' by (by rewrite length_encode_fixed).
  rewrite !decode_encode_fixed by done. unfold mbind, res_bind. cbv beta iota zeta.
  rewrite from_to_le_u64 by (unfold u64_ok, TABLE_MAGIC; lia).
  by rewrite Z.eqb_refl.
Qed.

Lemma decode_value_type_no_panic t : decode_value_type t <> Panic.
Proof. unfold decode_value_type. by repeat case_match. Qed.

#[export] Hint Resolve decode_value_type_no_panic : total.

Lemma decode_internal_key_total : total decode_internal_key.
Proof. unfold decode_internal_key. solve_total. Qed.

#[export] Hint Resolve decode_internal_key_total : total.
