(* ===== verification/Bloom.v ===== *)
(** * Bloom filters

    [src/util/bloom.rs] and [src/table/filter.rs]. *)

From stdpp Require Import base list.
From S2P Require Import Prelude Coding.

Definition DEFAULT_BITS_PER_KEY : usize := 10.

Record BloomFilter : Type := mkBloomFilter {
  bf_bits : bytes;
  bf_bit_len : usize;
  bf_probes : u32
}.

(** [hash ^= byte; hash = hash.wrapping_mul(16_777_619)]. *)
Definition bloom_hash (key : bytes) : u32 :=
  foldl (fun hash byte => wrap32 (Z.lxor hash byte * 16777619)) 2166136261 key.

Definition rotate_right32 (n x : Z) : u32 :=
  Z.lor (Z.shiftr x n) (wrap32 (Z.shiftl x (32 - n))).

(** [hash.wrapping_add(probe.wrapping_mul(delta)) as usize % bit_len]. *)
Definition bit_position (hash delta probe : u32) (bit_len : usize) : usize :=
  wrap32 (hash + wrap32 (probe * delta)) mod bit_len.

(** [bytes.split_last()], then the length of the bit array. *)
Definition from_bytes (bs : bytes) : option BloomFilter :=
  match last bs with
  | None => None
  | Some probes =>
      let data := take (length bs - 1) bs in
      match get_var_u32 data with
      | (Ok bit_len, src) => Some (mkBloomFilter src bit_len (Z.max probes 1))
      | _ => None
      end
  end.

(** The loop of [may_contain] from probe [probe] on; [None] is the panic of
    [self.bits[..]] out of range. *)
Fixpoint probe_loop (n : nat) (self : BloomFilter) (hash delta probe : u32) : option bool :=
  match n with
  | O => Some true
  | S n =>
      let bit_pos := bit_position hash delta probe (bf_bit_len self) in
      match bf_bits self !! Z.to_nat (bit_pos / 8) with
      | None => None
      | Some b =>
          if Z.land b (Z.shiftl 1 (bit_pos mod 8)) =? 0 then Some false
          else probe_loop n self hash delta (probe + 1)
      end
  end.

Definition bloom_may_contain (self : BloomFilter) (key : bytes) : option bool :=
  if bf_bit_len self =? 0 then Some true
  else
    let hash := bloom_hash key in
    let delta := rotate_right32 17 hash in
    probe_loop (Z.to_nat (bf_probes self)) self hash delta 0.

(** The probe count: [((10 as f64) * 0.69).round() as u32], clamped: 7. *)
Definition bloom_probes : u32 := Z.max 1 (Z.min 30 ((DEFAULT_BITS_PER_KEY * 69 + 50) / 100)).

Definition set_bit (bits : bytes) (bit_pos : usize) : bytes :=
  alter (fun b => Z.lor b (Z.shiftl 1 (bit_pos mod 8))) (Z.to_nat (bit_pos / 8)) bits.

Fixpoint set_probes (n : nat) (bit_len : usize) (hash delta probe : u32) (bits : bytes) : bytes :=
  match n with
  | O => bits
  | S n =>
      set_probes n bit_len hash delta (probe + 1)
        (set_bit bits (bit_position hash delta probe bit_len))
  end.

Definition add_key (bit_len : usize) (bits key : bytes) : bytes :=
  let hash := bloom_hash key in
  let delta := rotate_right32 17 hash in
  set_probes (Z.to_nat bloom_probes) bit_len hash delta 0 bits.

Definition bloom_bit_len (keys : list bytes) : usize :=
  Z.max (len keys * DEFAULT_BITS_PER_KEY) 64.

Definition build_bloom_filter (keys : list bytes) : bytes :=
  match keys with
  | [] => []
  | _ =>
      let bit_len := bloom_bit_len keys in
      let byte_len := (bit_len + 7) / 8 in
      let bits := foldl (add_key bit_len) (replicate (Z.to_nat byte_len) 0) keys in
      let encoded := put_var_u32 [] (wrap32 bit_len) in
      let encoded := encoded ++ bits in
      encoded ++ [wrap8 bloom_probes]
  end.

(** [TableFilter] of [table/filter.rs]. *)
Record TableFilter : Type := mkTableFilter { tf_bloom : option BloomFilter }.

Definition filter_from_keys (keys : list bytes) : bytes := build_bloom_filter keys.
Definition filter_decode (bs : bytes) : TableFilter := mkTableFilter (from_bytes bs).
Definition filter_may_contain (self : TableFilter) (key : bytes) : option bool :=
  match tf_bloom self with
  | None => Some true
  | Some filter => bloom_may_contain filter key
  end.

(** ** No false negatives *)

(** The bit that a probe tests. *)
Definition bit_set (bits : bytes) (bit_pos : usize) : Prop :=
  exists b, bits !! Z.to_nat (bit_pos / 8) = Some b /\ Z.testbit b (bit_pos mod 8) = true.

Lemma land_bit b k :
  0 <= k -> (Z.land b (Z.shiftl 1 k) =? 0) = negb (Z.testbit b k).
Proof.
  intros Hk. rewrite Z.shiftl_1_l. destruct (Z.testbit b k) eqn:E; simpl.
  - apply Z.eqb_neq. intros H. apply (f_equal (fun z => Z.testbit z k)) in H.
    rewrite Z.land_spec, E, Z.pow2_bits_true, Z.bits_0 in H by done. discriminate.
  - apply Z.eqb_eq. apply Z.bits_inj'. intros n Hn.
    rewrite Z.land_spec, Z.bits_0. destruct (decide (n = k)) as [->|Hne].
    + by rewrite E.
    + rewrite Z.pow2_bits_false by done. apply andb_false_r.
Qed.

Lemma set_bit_length bits p : length (set_bit bits p) = length bits.
Proof. apply length_alter. Qed.

Lemma set_bit_mono bits p q : 0 <= p -> bit_set bits q -> bit_set (set_bit bits p) q.
Proof.
  intros Hp (b & Hb & Ht). unfold bit_set, set_bit.
  destruct (decide (Z.to_nat (p / 8) = Z.to_nat (q / 8))) as [E|E].
  - rewrite E, list_lookup_alter_eq, Hb. eexists; split; [done|].
    rewrite Z.lor_spec, Ht. done.
  - rewrite list_lookup_alter_ne by done. eauto.
Qed.

Lemma set_bit_set bits p :
  0 <= p -> (Z.to_nat (p / 8) < length bits)%nat -> bit_set (set_bit bits p) p.
Proof.
  intros Hp Hl. unfold bit_set, set_bit. rewrite list_lookup_alter_eq.
  destruct (lookup_lt_is_Some_2 bits _ Hl) as [b ->].
  eexists; split; [done|]. rewrite Z.shiftl_1_l, Z.lor_spec, Z.pow2_bits_true.
  - apply orb_true_r.
  - apply Z.mod_pos_bound. lia.
Qed.

Lemma bit_position_range h d p n : 0 < n -> 0 <= bit_position h d p n < n.
Proof. intros. by apply Z.mod_pos_bound. Qed.

Section build.
Context (bit_len : usize) (Hbits : 0 < bit_len).

(** Enough bytes for [bit_len] bits. *)
Definition enough (bits : bytes) : Prop := bit_len <= 8 * len bits.

Lemma byte_index bits p :
  enough bits -> 0 <= p < bit_len -> (Z.to_nat (p / 8) < length bits)%nat.
Proof.
  unfold enough, len. intros He Hp.
  assert (p / 8 < Z.of_nat (length bits)) by (apply Z.div_lt_upper_bound; lia). lia.
Qed.

Lemma set_probes_length n h d p bits :
  length (set_probes n bit_len h d p bits) = length bits.
Proof.
  revert p bits. induction n as [|n IH]; intros p bits; simpl; [done|].
  by rewrite IH, set_bit_length.
Qed.

Lemma set_probes_mono n h d p bits q :
  bit_set bits q -> bit_set (set_probes n bit_len h d p bits) q.
Proof.
  revert p bits. induction n as [|n IH]; intros p bits Hq; simpl; [done|].
  apply IH, set_bit_mono; [|done]. by apply bit_position_range.
Qed.

Lemma set_probes_set n h d p bits i :
  enough bits -> 0 <= i < Z.of_nat n ->
  bit_set (set_probes n bit_len h d p bits) (bit_position h d (p + i) bit_len).
Proof.
  revert p bits i. induction n as [|n IH]; intros p bits i He Hi; [lia|]. simpl.
  pose proof (bit_position_range h d p bit_len Hbits).
  destruct (decide (i = 0)) as [->|].
  - rewrite Z.add_0_r. apply set_probes_mono, set_bit_set; [lia|]. by apply byte_index.
  - replace (p + i) with (p + 1 + (i - 1)) by lia. apply IH; [|lia].
    unfold enough, len in *. by rewrite set_bit_length.
Qed.

Lemma add_key_length bits key : length (add_key bit_len bits key) = length bits.
Proof. apply set_probes_length. Qed.

Lemma fold_add_key_length keys bits :
  length (foldl (add_key bit_len) bits keys) = length bits.
Proof.
  revert bits. induction keys as [|k ks IH]; intros bits; simpl; [done|].
  by rewrite IH, add_key_length.
Qed.

Lemma fold_add_key_mono keys bits q :
  bit_set bits q -> bit_set (foldl (add_key bit_len) bits keys) q.
Proof.
  revert bits. induction keys as [|k ks IH]; intros bits Hq; simpl; [done|].
  by apply IH, set_probes_mono.
Qed.

Lemma fold_add_key_set keys bits key i :
  enough bits -> key ∈ keys -> 0 <= i < bloom_probes ->
  bit_set (foldl (add_key bit_len) bits keys)
    (bit_position (bloom_hash key) (rotate_right32 17 (bloom_hash key)) i bit_len).
Proof.
  intros He Hk Hi. revert bits He. induction Hk as [key ks | key k ks _ IH]; intros bits He;
    simpl.
  - apply fold_add_key_mono. unfold add_key.
    pose proof (set_probes_set (Z.to_nat bloom_probes) (bloom_hash key)
      (rotate_right32 17 (bloom_hash key)) 0 bits i He ltac:(lia)) as H.
    by rewrite Z.add_0_l in H.
  - apply IH. unfold enough, len in *. by rewrite add_key_length.
Qed.

Lemma probe_loop_true n bits probes h d p :
  (forall i, 0 <= i < Z.of_nat n -> bit_set bits (bit_position h d (p + i) bit_len)) ->
  probe_loop n (mkBloomFilter bits bit_len probes) h d p = Some true.
Proof.
  revert p. induction n as [|n IH]; intros p Hb; simpl; [done|].
  destruct (Hb 0 ltac:(lia)) as (b & Hl & Ht). rewrite Z.add_0_r in Hl, Ht.
  rewrite Hl, land_bit, Ht; [|apply Z.mod_pos_bound; lia]. simpl.
  apply IH. intros i Hi. replace (p + 1 + i) with (p + (i + 1)) by lia. apply Hb. lia.
Qed.
End build.

(** Decoding a built filter. *)
Lemma from_bytes_build keys :
  keys <> [] -> bloom_bit_len keys < 2 ^ 32 ->
  exists bits, from_bytes (build_bloom_filter keys)
      = Some (mkBloomFilter bits (bloom_bit_len keys) bloom_probes) /\
    bits = foldl (add_key (bloom_bit_len keys))
      (replicate (Z.to_nat ((bloom_bit_len keys + 7) / 8)) 0) keys.
Proof.
  intros Hne Hlt. eexists. split; [|done]. unfold build_bloom_filter.
  destruct keys as [|k ks] eqn:Ek; [done|]. rewrite <- Ek in *.
  assert (64 <= bloom_bit_len keys) by (unfold bloom_bit_len; lia).
  unfold from_bytes. rewrite last_snoc, length_app. simpl length.
  rewrite Nat.add_sub, take_app_length.
  rewrite wrap_small by lia. rewrite put_var_u32_bytes by lia. cbn [app].
  rewrite get_var_u32_enc by (unfold u32_ok; lia). done.
Qed.

(** ** Properties *)

Lemma bloom_member keys key :
  key ∈ keys -> bloom_bit_len keys < 2 ^ 32 ->
  filter_may_contain (filter_decode (filter_from_keys keys)) key = Some true.
Proof.
  intros Hk Hlt. assert (Hne : keys <> []) by (by intros ->; apply elem_of_nil in Hk).
  unfold filter_may_contain, filter_decode, filter_from_keys. simpl.
  destruct (from_bytes_build keys Hne Hlt) as (bits & -> & ->).
  assert (64 <= bloom_bit_len keys) by (unfold bloom_bit_len; lia).
  unfold bloom_may_contain. simpl bf_bit_len. simpl bf_probes.
  assert ((bloom_bit_len keys =? 0) = false) as -> by (apply Z.eqb_neq; lia).
  apply probe_loop_true. intros i Hi. rewrite Z.add_0_l.
  apply fold_add_key_set; [lia | | done | done].
  unfold enough, len. rewrite length_replicate.
  pose proof (Z.div_mod (bloom_bit_len keys + 7) 8 ltac:(lia)).
  pose proof (Z.mod_pos_bound (bloom_bit_len keys + 7) 8 ltac:(lia)). lia.
Qed.

Lemma probe_loop_total n f h d p :
  0 < bf_bit_len f <= 8 * len (bf_bits f) -> is_Some (probe_loop n f h d p).
Proof.
  intros Hb. revert p. induction n as [|n IH]; intros p; simpl; [by eexists|].
  pose proof (bit_position_range h d p (bf_bit_len f) ltac:(lia)) as Hp.
  set (q := bit_position h d p (bf_bit_len f)) in *.
  pose proof (Z.div_mod q 8 ltac:(lia)). pose proof (Z.mod_pos_bound q 8 ltac:(lia)).
  destruct (lookup_lt_is_Some_2 (bf_bits f) (Z.to_nat (q / 8))) as [b ->]; [unfold len in *; lia|].
  destruct (_ =? 0); [by eexists | apply IH].
Qed.

(** Asking a filter that was built never indexes out of range. *)
Lemma built_filter_total keys key :
  bloom_bit_len keys < 2 ^ 32 ->
  is_Some (filter_may_contain (filter_decode (filter_from_keys keys)) key).
Proof.
  intros Hlt. destruct keys as [|k ks] eqn:Ek; [by eexists|]. rewrite <- Ek in *.
  assert (keys <> []) as Hne by by rewrite Ek.
  unfold filter_may_contain, filter_decode, filter_from_keys. simpl.
  destruct (from_bytes_build keys Hne Hlt) as (bits & -> & ->).
  assert (64 <= bloom_bit_len keys) by (unfold bloom_bit_len; lia).
  unfold bloom_may_contain. simpl bf_bit_len.
  assert ((bloom_bit_len keys =? 0) = false) as -> by (apply Z.eqb_neq; lia).
  apply probe_loop_total. cbn [bf_bit_len bf_bits]. unfold len.
  rewrite fold_add_key_length, length_replicate.
  pose proof (Z.div_mod (bloom_bit_len keys + 7) 8 ltac:(lia)).
  pose proof (Z.mod_pos_bound (bloom_bit_len keys + 7) 8 ltac:(lia)). lia.
Qed.

(** The filter of less than [2^32] bits fits in the properties block. *)
Lemma filter_from_keys_len keys :
  10 * len keys < 2 ^ 32 -> len (filter_from_keys keys) < 2 ^ 32.
Proof.
  intros Hn. unfold filter_from_keys, build_bloom_filter. destruct keys as [|k keys]; [done|].
  cbv zeta. set (n := bloom_bit_len (k :: keys)).
  assert (64 <= n < 2 ^ 32) as Hn' by (unfold n, bloom_bit_len, DEFAULT_BITS_PER_KEY; lia).
  rewrite !len_app. rewrite put_var_u32_bytes by (apply wrap_range; lia). cbn [app].
  unfold len. rewrite fold_add_key_length, length_replicate.
  pose proof (varint_bytes_length 10 (wrap32 n)).
  pose proof (Z.div_mod (n + 7) 8 ltac:(lia)).
  pose proof (Z.mod_pos_bound (n + 7) 8 ltac:(lia)). cbn [length].
  rewrite Z2Nat.id by lia. lia.
Qed.

(** A filter of no key admits every key. *)
Lemma empty_filter_may_contain key :
  filter_may_contain (filter_decode (filter_from_keys [])) key = Some true.
Proof. done. Qed.

(** C31: the filter built from the user keys of a table never answers that
    one of them is absent, and asking it for any key at all terminates
    without an index out of range. *)
Theorem bloom_no_false_negative keys key :
  bloom_bit_len keys < 2 ^ 32 ->
  exists answer, filter_may_contain (filter_decode (filter_from_keys keys)) key = Some answer /\
    (key ∈ keys -> answer = true).
Proof.
  intros Hlt. destruct (built_filter_total keys key Hlt) as [b Eb]. exists b. split; [done|].
  intros Hk. apply (bloom_member keys key Hk) in Hlt. congruence.
Qed.

Lemma bloom_no_false_negative_witness :
  bloom_bit_len [[1]; [2]] < 2 ^ 32 /\
  exists answer, filter_may_contain (filter_decode (filter_from_keys [[1]; [2]])) [2] = Some answer /\
    ([2] ∈ [[1]; [2]] -> answer = true).
Proof. split; [by vm_compute|]. apply (bloom_no_false_negative [[1]; [2]] [2]). by vm_compute. Defined.
