(* ===== verification/Block.v ===== *)
(** * Data blocks

    [src/table/block_builder.rs], [block.rs] and [block_iterator.rs]: entries
    with the prefix of the previous user key left out, restart points, and the
    decoder. *)

From stdpp Require Import base list strings.
From S2P Require Import Prelude Key Coding Format.

(** ** [BlockBuilder] *)

Record BlockBuilder : Type := mkBlockBuilder {
  bb_data : bytes;
  bb_restarts : list u32;
  bb_last_user_key : bytes;
  bb_entry_count : usize;
  bb_restart_interval : usize
}.

Definition block_builder_new (restart_interval : usize) : BlockBuilder :=
  mkBlockBuilder [] [] [] 0 (Z.max restart_interval 1).

Fixpoint shared_prefix_len (l r : bytes) : usize :=
  match l, r with
  | x :: l, y :: r => if x =? y then 1 + shared_prefix_len l r else 0
  | _, _ => 0
  end.

Definition value_bytes (value : ValueRecord) : bytes :=
  match value with RPut v => v | RDelete => [] end.

Definition block_add (self : BlockBuilder) (key : InternalKey) (value : ValueRecord) :
    BlockBuilder :=
  let restart := bb_entry_count self mod bb_restart_interval self =? 0 in
  let restarts :=
    if restart then bb_restarts self ++ [wrap32 (len (bb_data self))] else bb_restarts self in
  let shared_len :=
    if restart then 0 else shared_prefix_len (bb_last_user_key self) (user_key key) in
  let unshared := drop (Z.to_nat shared_len) (user_key key) in
  let data := put_var_u32 (bb_data self) (wrap32 shared_len) in
  let data := put_var_u32 data (wrap32 (len unshared)) in
  let data := put_var_u32 data (wrap32 (len (value_bytes value))) in
  let data := data ++ [value_type_u8 (kind_of value)] in
  let data := put_var_u64 data (sequence key) in
  let data := data ++ unshared in
  let data := data ++ value_bytes value in
  mkBlockBuilder data restarts (user_key key) (bb_entry_count self + 1)
    (bb_restart_interval self).

Definition block_is_empty (self : BlockBuilder) : bool := bb_entry_count self =? 0.

Definition block_approximate_size (self : BlockBuilder) : usize :=
  len (bb_data self) + len (bb_restarts self) * 4 + 4.

Definition block_finish (self : BlockBuilder) : bytes :=
  let restarts := match bb_restarts self with [] => [0] | r => r end in
  let data := foldl (fun data offset => data ++ to_le_bytes 4 offset) (bb_data self) restarts in
  data ++ to_le_bytes 4 (wrap32 (len restarts)).

(** ** [Block::decode] *)

Record Block : Type := mkBlock { block_entries : list entry }.

(** One iteration of [while !src.is_empty()]. *)
Definition decode_entry (last_user_key : bytes) : M bytes entry :=
  shared_len ← get_var_u32;
  unshared_len ← get_var_u32;
  value_len ← get_var_u32;
  t ← take_u8;
  value_type ← lift (decode_value_type t);
  sequence ← get_var_u64;
  if len last_user_key <? shared_len
  then fail (Corruption "block entry shared prefix is too long")
  else
    unshared ← take_bytes unshared_len;
    value ← take_bytes value_len;
    let user_key := take (Z.to_nat shared_len) last_user_key ++ unshared in
    match value_type with
    | VPut => mret (mkInternalKey user_key sequence value_type, RPut value)
    | VDelete =>
        match value with
        | [] => mret (mkInternalKey user_key sequence value_type, RDelete)
        | _ => fail (Corruption "delete block entry carries value bytes")
        end
    end.

(** The loop; every iteration consumes at least five bytes, so one step per
    byte is enough ([decode_entries_fuel]). *)
Fixpoint decode_entries (fuel : nat) (last_user_key : bytes) (entries : list entry) :
    M bytes (list entry) :=
  empty ← src_is_empty;
  if (empty : bool) then mret entries
  else match fuel with
  | O => panic
  | S fuel =>
      e ← decode_entry last_user_key;
      decode_entries fuel (user_key e.1) (entries ++ [e])
  end.

Definition block_decode (bs : bytes) : res Block :=
  if len bs <? 4 then Err (Corruption "block missing restart count")
  else
    let restart_count_pos := len bs - 4 in
    let restart_count := from_le_bytes (drop (Z.to_nat restart_count_pos) bs) in
    let restart_bytes := restart_count * 4 in
    if 2 ^ 64 <=? restart_bytes then Err (Corruption "restart count overflow")
    else if restart_count_pos <? restart_bytes
    then Err (Corruption "invalid restart section")
    else
      let data_end := restart_count_pos - restart_bytes in
      let src := take (Z.to_nat data_end) bs in
      entries ← (decode_entries (length src) [] [] src).1;
      Ok (mkBlock entries).

(** ** [BlockIterator] *)

Record BlockIterator : Type := mkBlockIterator {
  bi_entries : list entry;
  bi_index : nat
}.

Definition block_iter_new (bs : bytes) : res BlockIterator :=
  block ← block_decode bs;
  Ok (mkBlockIterator (block_entries block) 0).

Definition bi_seek_to_first (self : BlockIterator) : BlockIterator :=
  mkBlockIterator (bi_entries self) 0.

Definition bi_seek (self : BlockIterator) (target : InternalKey) : BlockIterator :=
  mkBlockIterator (bi_entries self)
    (partition_point (fun e : entry => ltb ikey_cmp e.1 target) (bi_entries self)
       `min` length (bi_entries self)).

Definition bi_next (self : BlockIterator) : BlockIterator :=
  if (bi_index self <? length (bi_entries self))%nat
  then mkBlockIterator (bi_entries self) (S (bi_index self)) else self.

Definition bi_is_valid (self : BlockIterator) : bool :=
  (bi_index self <? length (bi_entries self))%nat.

Definition bi_key (self : BlockIterator) : option InternalKey :=
  fst <$> bi_entries self !! bi_index self.
Definition bi_value (self : BlockIterator) : option ValueRecord :=
  snd <$> bi_entries self !! bi_index self.

(** ** The bytes of an entry *)

Definition block_entry_bytes (shared_len : usize) (e : entry) : bytes :=
  let unshared := drop (Z.to_nat shared_len) (user_key e.1) in
  varint_bytes 10 (wrap32 shared_len) ++ varint_bytes 10 (wrap32 (len unshared))
    ++ varint_bytes 10 (wrap32 (len (value_bytes e.2)))
    ++ [value_type_u8 (kind_of e.2)] ++ varint_bytes 10 (sequence e.1)
    ++ unshared ++ value_bytes e.2.

(** What fits the block format. *)
Definition entry_fits (e : entry) : Prop :=
  ikey_fits e.1 /\ len (value_bytes e.2) < 2 ^ 32 /\ entry_ok e.

Definition builder_shared (self : BlockBuilder) (key : bytes) : usize :=
  if bb_entry_count self mod bb_restart_interval self =? 0 then 0
  else shared_prefix_len (bb_last_user_key self) key.

Lemma shared_prefix_len_spec l r :
  0 <= shared_prefix_len l r <= len l /\ shared_prefix_len l r <= len r /\
  take (Z.to_nat (shared_prefix_len l r)) l = take (Z.to_nat (shared_prefix_len l r)) r.
Proof.
  revert r. induction l as [|x l IH]; intros [|y r]; cbn [shared_prefix_len];
    rewrite ?len_cons, ?len_nil.
  1: split_and!; first [done | lia].
  1: pose proof (len_nonneg r); split_and!; first [done | lia].
  1: pose proof (len_nonneg l); split_and!; first [done | lia].
  pose proof (len_nonneg l). pose proof (len_nonneg r).
  destruct (Z.eqb_spec x y) as [->|]; [|split_and!; first [done | lia]].
  destruct (IH r) as (H1 & H2 & H3). split_and!; try lia.
  replace (Z.to_nat (1 + shared_prefix_len l r)) with (S (Z.to_nat (shared_prefix_len l r)))
    by lia.
  simpl. by rewrite H3.
Qed.

Lemma block_add_data self e :
  0 <= sequence e.1 ->
  bb_data (block_add self e.1 e.2)
  = bb_data self ++ block_entry_bytes (builder_shared self (user_key e.1)) e.
Proof.
  intros Hs. unfold block_add, block_entry_bytes, builder_shared. cbv zeta. cbn [bb_data].
  set (sh := if _ =? 0 then 0 else _).
  rewrite put_var_u64_bytes by done.
  rewrite !put_var_u32_bytes by apply u32_ok_wrap.
  by rewrite <- !app_assoc.
Qed.

Lemma kind_of_entry e : entry_ok e -> mkInternalKey (user_key e.1) (sequence e.1) (kind_of e.2) = e.1.
Proof. destruct e as [[k s t] r]. unfold entry_ok. simpl. by intros ->. Qed.

(** Decoding an entry whose prefix is shared with the previous key. *)
Lemma decode_entry_bytes last shared e rest :
  entry_fits e -> 0 <= shared <= len last -> shared <= len (user_key e.1) ->
  take (Z.to_nat shared) last = take (Z.to_nat shared) (user_key e.1) ->
  decode_entry last (block_entry_bytes shared e ++ rest) = (Ok e, rest).
Proof.
  intros ([Hk Hs] & Hv & Hok) Hsh Hsk Ht. unfold decode_entry, block_entry_bytes. cbv zeta.
  set (unshared := drop _ (user_key e.1)).
  assert (Hu : len unshared <= len (user_key e.1))
    by (unfold unshared, len; rewrite length_drop; lia).
  pose proof (len_nonneg unshared). pose proof (len_nonneg (value_bytes e.2)).
  rewrite (wrap_small 32 shared), !wrap32_len by lia.
  parse_steps.
  assert ((len last <? shared) = false) as -> by (apply Z.ltb_ge; lia).
  parse_steps. rewrite Ht. unfold unshared. rewrite take_drop.
  pose proof (kind_of_entry e Hok) as Hkind.
  destruct e as [k [v|]]; simpl in *; by rewrite Hkind.
Qed.

Definition block_add_all (b : BlockBuilder) (es : list entry) : BlockBuilder :=
  foldl (fun b (e : entry) => block_add b e.1 e.2) b es.

(** The data section the builder writes for a list of entries. *)
Fixpoint entry_stream (interval count : Z) (last : bytes) (es : list entry) : bytes :=
  match es with
  | [] => []
  | e :: es =>
      block_entry_bytes
        (if count mod interval =? 0 then 0 else shared_prefix_len last (user_key e.1)) e
      ++ entry_stream interval (count + 1) (user_key e.1) es
  end.

Lemma block_add_all_data b es :
  Forall entry_fits es ->
  bb_data (block_add_all b es) = bb_data b
    ++ entry_stream (bb_restart_interval b) (bb_entry_count b) (bb_last_user_key b) es.
Proof.
  intros H. revert b. induction H as [|e es [[_ He] _] _ IH]; intros b;
    [by rewrite app_nil_r|].
  cbn [block_add_all foldl entry_stream]. fold (block_add_all (block_add b e.1 e.2) es).
  rewrite IH, block_add_data by apply He. by rewrite <- app_assoc.
Qed.

Lemma block_add_all_restarts b es :
  0 <= bb_entry_count b -> len (bb_restarts b) <= bb_entry_count b ->
  bb_entry_count (block_add_all b es) = bb_entry_count b + len es /\
  len (bb_restarts (block_add_all b es)) <= bb_entry_count b + len es.
Proof.
  revert b. induction es as [|e es IH]; intros b Hc Hr; cbn [block_add_all foldl].
  - rewrite len_nil. lia.
  - fold (block_add_all (block_add b e.1 e.2) es).
    destruct (IH (block_add b e.1 e.2)) as [H1 H2].
    + simpl. lia.
    + simpl. destruct (_ =? 0); rewrite ?len_app, ?len_cons, ?len_nil; lia.
    + rewrite len_cons. simpl in H1, H2. lia.
Qed.

Lemma block_entry_bytes_ne sh e : block_entry_bytes sh e <> [].
Proof.
  unfold block_entry_bytes. intros H. apply app_eq_nil in H as [H _].
  by apply varint_bytes_ne in H.
Qed.

Lemma decode_entries_stream interval count last es acc fuel :
  Forall entry_fits es -> (length es <= fuel)%nat ->
  decode_entries fuel last acc (entry_stream interval count last es) = (Ok (acc ++ es), []).
Proof.
  intros H. revert count last acc fuel.
  induction H as [|e es He _ IH]; intros count last acc fuel Hf.
  { destruct fuel; simpl; by rewrite app_nil_r. }
  destruct fuel as [|fuel]; simpl in Hf; [lia|].
  cbn [decode_entries entry_stream]. set (sh := if _ =? 0 then 0 else _).
  assert (0 <= sh <= len last /\ sh <= len (user_key e.1) /\
    take (Z.to_nat sh) last = take (Z.to_nat sh) (user_key e.1)) as (Hs1 & Hs2 & Hs3).
  { unfold sh. destruct (_ =? 0); [|apply shared_prefix_len_spec].
    pose proof (len_nonneg last). pose proof (len_nonneg (user_key e.1)).
    split_and!; first [done | lia]. }
  destruct (block_entry_bytes sh e) as [|b bs] eqn:Eb; [by apply block_entry_bytes_ne in Eb|].
  cbn [app]. erewrite bind_ok by reflexivity. cbv iota.
  change (b :: bs ++ ?r) with ((b :: bs) ++ r). rewrite <- Eb.
  erewrite bind_ok by (by apply decode_entry_bytes).
  rewrite IH by lia. by rewrite <- app_assoc.
Qed.

Lemma entry_stream_length interval count last es :
  (length es <= length (entry_stream interval count last es))%nat.
Proof.
  revert count last. induction es as [|e es IH]; intros count last; [simpl; lia|].
  cbn [entry_stream length]. rewrite length_app.
  destruct (block_entry_bytes _ e) eqn:Eb; [by apply block_entry_bytes_ne in Eb|].
  specialize (IH (count + 1) (user_key e.1)). simpl. lia.
Qed.

Lemma block_finish_bytes b :
  block_finish b =
  let restarts := match bb_restarts b with [] => [0] | r => r end in
  bb_data b ++ concat (map (to_le_bytes 4) restarts) ++ to_le_bytes 4 (wrap32 (len restarts)).
Proof.
  unfold block_finish. cbv zeta. set (rs := match bb_restarts b with [] => _ | _ => _ end).
  rewrite app_assoc. f_equal. generalize (bb_data b) as d. clearbody rs.
  induction rs as [|r rs IH]; intros d; cbn [foldl map concat]; [by rewrite app_nil_r|].
  by rewrite IH, <- app_assoc.
Qed.

Lemma concat_le4_length rs : length (concat (map (to_le_bytes 4) rs)) = (4 * length rs)%nat.
Proof.
  induction rs as [|r rs IH]; [done|]. cbn [map concat length].
  rewrite length_app, length_to_le_bytes, IH. lia.
Qed.

(** Decoding a finished block whose data section is [data]. *)
Lemma block_decode_finish b :
  len (bb_restarts b) < 2 ^ 32 ->
  block_decode (block_finish b)
  = entries ← (decode_entries (length (bb_data b)) [] [] (bb_data b)).1; Ok (mkBlock entries).
Proof.
  intros Hr. rewrite block_finish_bytes. cbv zeta.
  set (rs := match bb_restarts b with [] => [0] | r => r end).
  assert (Hrs : 0 < len rs < 2 ^ 32).
  { unfold rs. destruct (bb_restarts b) as [|r0 rs0] eqn:E; [unfold len; simpl; lia|].
    rewrite len_cons in *. pose proof (len_nonneg rs0). lia. }
  set (tail := concat (map (to_le_bytes 4) rs)).
  assert (Ht : len tail = 4 * len rs) by (unfold tail, len; rewrite concat_le4_length; lia).
  pose proof (len_nonneg (bb_data b)).
  unfold block_decode. rewrite app_assoc.
  set (front := bb_data b ++ tail).
  assert (Hf : len front = len (bb_data b) + 4 * len rs) by (unfold front; rewrite len_app; lia).
  assert (Hl4 : len (to_le_bytes 4 (wrap32 (len rs))) = 4)
    by (unfold len at 1; by rewrite length_to_le_bytes).
  rewrite len_app, Hl4.
  assert ((len front + 4 <? 4) = false) as -> by (apply Z.ltb_ge; lia). cbv zeta.
  rewrite Z.add_simpl_r, to_nat_len, drop_app_length, from_to_le_bytes
    by (apply u32_ok_wrap).
  rewrite (wrap_small 32) by lia.
  assert ((2 ^ 64 <=? len rs * 4) = false) as -> by (apply Z.leb_gt; lia).
  assert ((len front <? len rs * 4) = false) as -> by (apply Z.ltb_ge; lia).
  replace (len front - len rs * 4) with (len (bb_data b)) by lia.
  unfold front. rewrite <- app_assoc, to_nat_len, take_app_length. done.
Qed.

Lemma block_roundtrip_builder interval es :
  Forall entry_fits es -> len es < 2 ^ 32 ->
  block_decode (block_finish (block_add_all (block_builder_new interval) es))
  = Ok (mkBlock es).
Proof.
  intros He Hn.
  destruct (block_add_all_restarts (block_builder_new interval) es) as [_ Hr];
    [done | done |]. simpl in Hr.
  rewrite block_decode_finish by lia. rewrite block_add_all_data by done. cbn [bb_data app
    block_builder_new].
  rewrite decode_entries_stream; [done | done |]. apply entry_stream_length.
Qed.

(** ** Decoding arbitrary bytes *)

Lemma decode_entry_total last : total (decode_entry last).
Proof. unfold decode_entry. solve_total. Qed.

Lemma decode_entry_consumes last : consumes (decode_entry last).
Proof. unfold decode_entry. apply consumes_bind; [eauto with total|]. solve_total. Qed.

(** One step per byte of the data section is enough. *)
Lemma decode_entries_fuel fuel last acc src :
  (length src <= fuel)%nat -> (decode_entries fuel last acc src).1 <> Panic.
Proof.
  revert last acc src. induction fuel as [|fuel IH]; intros last acc src Hf.
  - by destruct src; [|simpl in Hf; lia].
  - cbn [decode_entries]. erewrite bind_ok by reflexivity. destruct src as [|b src]; [done|].
    pose proof (decode_entry_total last (b :: src)) as Ht.
    pose proof (decode_entry_consumes last (b :: src)) as Hc.
    unfold mbind, M_bind. destruct (decode_entry last (b :: src)) as [[e|err|] s']; [|done..].
    specialize (Hc _ _ eq_refl). apply IH. simpl in *. lia.
Qed.

Lemma block_decode_no_panic bs : block_decode bs <> Panic.
Proof.
  unfold block_decode. destruct (_ <? _); [done|]. cbv zeta.
  destruct (_ <=? _); [done|]. destruct (_ <? _); [done|].
  match goal with |- context [decode_entries _ _ _ ?src] =>
    pose proof (decode_entries_fuel (length src) [] [] src ltac:(lia)) as H;
    destruct (decode_entries (length src) [] [] src) as [[]] end; done.
Qed.

(** ** Properties *)

(** C35: decoding a finished block gives back the entries that were added,
    whatever the restart interval: prefix compression, restart points and the
    trailer lose nothing. *)
Theorem block_roundtrip interval es :
  Forall entry_fits es -> len es < 2 ^ 32 ->
  block_decode (block_finish (block_add_all (block_builder_new interval) es))
  = Ok (mkBlock es).
Proof. apply block_roundtrip_builder. Qed.

Lemma block_roundtrip_witness :
  let es := [(mkInternalKey [97; 98; 99] 7 VPut, RPut [1]);
             (mkInternalKey [97; 98; 100] 3 VDelete, RDelete)] in
  Forall entry_fits es /\
  block_decode (block_finish (block_add_all (block_builder_new 16) es)) = Ok (mkBlock es).
Proof.
  intros es. assert (Forall entry_fits es) as Hf.
  { apply List.Forall_cons; [by repeat split|]. apply List.Forall_cons; [by repeat split|].
    apply List.Forall_nil. }
  split; [exact Hf|]. by apply block_roundtrip.
Defined.
