(* ===== verification/Properties.v ===== *)
(** * Table properties

    [src/table/properties.rs]: the properties block of a table. *)

From stdpp Require Import base list strings.
From S2P Require Import Prelude Key Coding Format.

Record TableProperties : Type := mkTableProperties {
  tp_num_entries : u64;
  tp_smallest_key : option InternalKey;
  tp_largest_key : option InternalKey;
  tp_filter : bytes
}.

Definition encode_optional_key (key : option InternalKey) (dst : bytes) : bytes :=
  match key with
  | Some key => let dst := dst ++ [1] in encode_internal_key key dst
  | None => dst ++ [0]
  end.

Definition properties_encode (self : TableProperties) : bytes :=
  let dst := put_var_u64 [] (tp_num_entries self) in
  let dst := encode_optional_key (tp_smallest_key self) dst in
  let dst := encode_optional_key (tp_largest_key self) dst in
  let dst := put_var_u32 dst (wrap32 (len (tp_filter self))) in
  dst ++ tp_filter self.

Definition decode_optional_key : M bytes (option InternalKey) := fun src =>
  match src with
  | [] => (Ok None, src)
  | tag :: rest =>
      if tag =? 0 then (Ok None, rest)
      else (key ← decode_internal_key; mret (Some key)) rest
  end.

Definition properties_decode_m : M bytes TableProperties :=
  num_entries ← get_var_u64;
  smallest_key ← decode_optional_key;
  largest_key ← decode_optional_key;
  empty ← src_is_empty;
  filter ←
    (if (empty : bool) then mret []
     else filter_len ← get_var_u32; take_bytes filter_len);
  mret (mkTableProperties num_entries smallest_key largest_key filter).

Definition properties_decode (bs : bytes) : res TableProperties := (properties_decode_m bs).1.

(** ** Round trip *)

Definition optional_key_bytes (key : option InternalKey) : bytes :=
  match key with Some key => 1 :: ikey_bytes key | None => [0] end.

Definition optional_key_fits (key : option InternalKey) : Prop :=
  match key with Some key => ikey_fits key | None => True end.

Lemma encode_optional_key_bytes key dst :
  optional_key_fits key -> encode_optional_key key dst = dst ++ optional_key_bytes key.
Proof.
  destruct key as [key|]; [|done]. intros [_ [Hs _]]. simpl.
  rewrite encode_internal_key_bytes by done. by rewrite <- app_assoc.
Qed.

Lemma decode_optional_key_bytes key rest :
  optional_key_fits key ->
  decode_optional_key (optional_key_bytes key ++ rest) = (Ok key, rest).
Proof.
  destruct key as [key|]; [|done]. intros Hk. unfold decode_optional_key. simpl.
  erewrite bind_ok by (by apply decode_internal_key_bytes). done.
Qed.

#[export] Hint Resolve decode_optional_key_bytes : codec.

Definition properties_fit (p : TableProperties) : Prop :=
  u64_ok (tp_num_entries p) /\ optional_key_fits (tp_smallest_key p) /\
  optional_key_fits (tp_largest_key p) /\ len (tp_filter p) < 2 ^ 32.

Lemma properties_decode_encode p :
  properties_fit p -> properties_decode (properties_encode p) = Ok p.
Proof.
  intros (Hn & Hs & Hl & Hf). unfold properties_decode, properties_encode. cbv zeta.
  pose proof (len_nonneg (tp_filter p)).
  rewrite wrap32_len, put_var_u32_bytes, !encode_optional_key_bytes, put_var_u64_bytes
    by (done || apply Hn).
  unfold properties_decode_m. cbn [app]. rewrite <- !app_assoc. do 3 parse_step.
  destruct (varint_bytes 10 (len (tp_filter p))) as [|b bs] eqn:E;
    [by apply varint_bytes_ne in E|].
  cbn [app]. erewrite bind_ok by reflexivity. cbv beta iota.
  erewrite bind_ok.
  2: { change (b :: bs ++ tp_filter p) with ((b :: bs) ++ tp_filter p). rewrite <- E.
       erewrite bind_ok by (apply get_var_u32_enc; unfold u32_ok; lia).
       rewrite <- (app_nil_r (tp_filter p)) at 2. by apply take_bytes_app. }
  by destruct p.
Qed.

Lemma decode_optional_key_total : total decode_optional_key.
Proof.
  intros [|tag rest]; [simpl; lia|]. unfold decode_optional_key.
  destruct (tag =? 0); [simpl; lia|].
  assert (total (key ← decode_internal_key; mret (Some key))) as H by solve_total.
  specialize (H rest). revert H.
  generalize (key ← decode_internal_key; mret (Some key)) as m.
  intros m. destruct (m rest) as [[]]; simpl; [lia | done..].
Qed.

#[export] Hint Resolve decode_optional_key_total : total.

Lemma properties_decode_no_panic bs : properties_decode bs <> Panic.
Proof.
  assert (total properties_decode_m) as H by (unfold properties_decode_m; solve_total).
  specialize (H bs). unfold properties_decode. by destruct (properties_decode_m bs) as [[]].
Qed.
