(* ===== verification/Cache.v ===== *)
(** * Block cache

    [src/cache/block_cache.rs]: decoded blocks by table number and offset,
    with a bound on the number of entries and hit statistics.

    Eviction removes the first key of a [HashMap], whose iteration order is
    unspecified: the choice is the parameter [HashOrder]. *)

From stdpp Require Import base gmap list.
From S2P Require Import Prelude Key Block.

Class HashOrder : Type := {
  hash_first : forall V : Type, gmap (Z * Z) V -> option (Z * Z)
}.

(** [keys().next()]: a key of the map, when there is one. *)
Class HashOrderOk (H : HashOrder) : Prop := {
  hash_first_some : forall V (m : gmap (Z * Z) V) k, hash_first V m = Some k -> is_Some (m !! k);
  hash_first_none : forall V (m : gmap (Z * Z) V), hash_first V m = None -> m = ∅
}.

#[export] Instance toy_hash_order : HashOrder := {|
  hash_first V m := fst <$> head (map_to_list m)
|}.

#[export] Instance toy_hash_order_ok : HashOrderOk toy_hash_order.
Proof.
  split.
  - intros V m k. simpl. destruct (map_to_list m) as [|[k' v] l] eqn:E; [done|].
    intros [= <-]. exists v. apply elem_of_map_to_list. rewrite E. by left.
  - intros V m. simpl. destruct (map_to_list m) as [|[k' v] l] eqn:E; [|done].
    intros _. by apply map_to_list_empty_iff.
Qed.

Record CacheStats : Type := mkCacheStats { hits : u64; misses : u64 }.

Record BlockCache : Type := mkBlockCache {
  bc_blocks : gmap (Z * Z) Block;
  bc_max_entries : usize;
  bc_stats : CacheStats
}.

Definition block_cache_new (capacity_bytes : usize) : BlockCache :=
  let max_entries := Z.max (capacity_bytes / 4096) 1 in
  mkBlockCache ∅ max_entries (mkCacheStats 0 0).

Definition block_cache_get (table_number block_offset : u64) (self : BlockCache) :
    option Block * BlockCache :=
  let block := bc_blocks self !! (table_number, block_offset) in
  let stats :=
    match block with
    | Some _ => mkCacheStats (wrap64 (hits (bc_stats self) + 1)) (misses (bc_stats self))
    | None => mkCacheStats (hits (bc_stats self)) (wrap64 (misses (bc_stats self) + 1))
    end in
  (block, mkBlockCache (bc_blocks self) (bc_max_entries self) stats).

Section cache.
Context `{H : HashOrder}.

Definition block_cache_insert (table_number block_offset : u64) (block : Block)
    (self : BlockCache) : BlockCache :=
  let blocks :=
    if bc_max_entries self <=? Z.of_nat (size (bc_blocks self)) then
      match hash_first Block (bc_blocks self) with
      | Some key => delete key (bc_blocks self)
      | None => bc_blocks self
      end
    else bc_blocks self in
  mkBlockCache (<[(table_number, block_offset) := block]> blocks)
    (bc_max_entries self) (bc_stats self).

(** ** What the cache holds *)

(** Every cached block of table [t] is the one that [blocks] gives for its
    offset. *)
Definition cache_agrees (t : Z) (blocks : Z -> option Block) (c : BlockCache) : Prop :=
  forall off b, bc_blocks c !! (t, off) = Some b -> blocks off = Some b.

Lemma cache_get_agrees t blocks c off :
  cache_agrees t blocks c -> cache_agrees t blocks (block_cache_get t off c).2.
Proof. done. Qed.

Lemma cache_get_blocks t off c : bc_blocks (block_cache_get t off c).2 = bc_blocks c.
Proof. done. Qed.

Lemma cache_insert_cases t off b c k b' :
  bc_blocks (block_cache_insert t off b c) !! k = Some b' ->
  (k = (t, off) /\ b' = b) \/ bc_blocks c !! k = Some b'.
Proof.
  unfold block_cache_insert. cbn [bc_blocks].
  destruct (decide (k = (t, off))) as [->|Hne].
  - rewrite lookup_insert_eq. intros [= ->]. by left.
  - rewrite lookup_insert_ne by done. intros Hk. right. revert Hk.
    destruct (_ <=? _); [|done]. destruct (hash_first _ _) as [k'|]; [|done].
    rewrite lookup_delete. by case_decide.
Qed.

Lemma cache_insert_agrees t blocks c off b :
  cache_agrees t blocks c -> blocks off = Some b ->
  cache_agrees t blocks (block_cache_insert t off b c).
Proof.
  intros Hc Hb off' b' [[[= ->] ->] | Hk]%cache_insert_cases; [done|]. by apply Hc.
Qed.

(** Inserting for one table leaves the others' blocks as they were. *)
Lemma cache_insert_agrees_other t t' blocks c off b :
  t <> t' -> cache_agrees t blocks c ->
  cache_agrees t blocks (block_cache_insert t' off b c).
Proof.
  intros Hne Hc off' b' [[[= -> _] _] | Hk]%cache_insert_cases; [done|]. by apply Hc.
Qed.

Context `{HO : !HashOrderOk H}.

(** The number of entries stays within the bound. *)
Definition cache_bounded (c : BlockCache) : Prop :=
  1 <= bc_max_entries c /\ Z.of_nat (size (bc_blocks c)) <= bc_max_entries c.

Lemma size_insert_le (m : gmap (Z * Z) Block) k b : (size (<[k:=b]> m) <= S (size m))%nat.
Proof.
  destruct (m !! k) eqn:E.
  - rewrite map_size_insert_Some by eauto. lia.
  - by rewrite map_size_insert_None.
Qed.

Lemma cache_insert_bounded t off b c :
  cache_bounded c -> cache_bounded (block_cache_insert t off b c).
Proof.
  intros [H1 H2]. split; [done|]. unfold block_cache_insert. cbn [bc_blocks bc_max_entries].
  pose proof (size_insert_le (bc_blocks c) (t, off) b) as Hle.
  destruct (Z.leb_spec (bc_max_entries c) (Z.of_nat (size (bc_blocks c)))) as [Hfull|]; [|lia].
  destruct (hash_first Block (bc_blocks c)) as [k|] eqn:E.
  - apply hash_first_some in E as [b' Hk].
    pose proof (size_insert_le (delete k (bc_blocks c)) (t, off) b) as Hle'.
    assert (size (bc_blocks c) = S (size (delete k (bc_blocks c)))) as Hs.
    { rewrite <- (insert_delete_id (bc_blocks c) k b' Hk) at 1.
      by rewrite map_size_insert_None by apply lookup_delete_eq. }
    lia.
  - apply hash_first_none in E. rewrite E, map_size_empty in Hfull. lia.
Qed.

Lemma cache_get_bounded t off c : cache_bounded c -> cache_bounded (block_cache_get t off c).2.
Proof. done. Qed.

(** ** Properties *)

(** C37: the block cache never holds more blocks than its capacity (at
    least one), a block that was just inserted is found, and an insertion
    changes no other lookup except by evicting. *)
Theorem block_cache_lookup_after_insert capacity t off b c :
  cache_bounded (block_cache_new capacity) /\
  (cache_bounded c ->
    cache_bounded (block_cache_insert t off b c) /\
    (block_cache_get t off (block_cache_insert t off b c)).1 = Some b /\
    (forall t' off' b', (t', off') <> (t, off) ->
      (block_cache_get t' off' (block_cache_insert t off b c)).1 = Some b' ->
      (block_cache_get t' off' c).1 = Some b')).
Proof.
  split; [split; simpl; [lia | rewrite map_size_empty; lia]|].
  intros Hc. split; [by apply cache_insert_bounded|]. split.
  - unfold block_cache_get, block_cache_insert. simpl. by rewrite lookup_insert_eq.
  - intros t' off' b' Hne Hb. simpl in *. apply cache_insert_cases in Hb as [[]|]; done.
Qed.
End cache.

Lemma block_cache_lookup_after_insert_witness :
  let c := block_cache_insert 1 0 (mkBlock []) (block_cache_new 1) in
  cache_bounded c /\ (block_cache_get 2 0 (block_cache_insert 2 0 (mkBlock []) c)).1
    = Some (mkBlock []).
Proof.
  assert (cache_bounded (block_cache_insert 1 0 (mkBlock []) (block_cache_new 1))) as Hc
    by (apply (block_cache_lookup_after_insert 1 1 0 (mkBlock []) (block_cache_new 1));
        apply (block_cache_lookup_after_insert 1 1 0 (mkBlock []) (block_cache_new 1))).
  split; [exact Hc|].
  apply (proj1 (proj2 (proj2 (block_cache_lookup_after_insert 1 2 0 (mkBlock []) _) Hc))).
Defined.
