(* ===== verification/Table.v ===== *)
(** * Writing tables

    [src/table/builder.rs]: data blocks, the properties block, the index block
    and the footer, each block followed by its compression type and checksum. *)

From stdpp Require Import base gmap list strings.
From S2P Require Import Prelude Key Coding Externals Env Format Bloom Block Properties.

Record IndexEntry : Type := mkIndexEntry {
  ie_first_key : InternalKey;
  ie_last_key : InternalKey;
  ie_handle : BlockHandle
}.

Record SSTableBuilder : Type := mkSSTableBuilder {
  sb_path : string;
  sb_file : WritableFile;
  sb_offset : u64;
  sb_block_size : usize;
  sb_current_block : BlockBuilder;
  sb_current_block_first_key : option InternalKey;
  sb_index_entries : list IndexEntry;
  sb_smallest_key : option InternalKey;
  sb_largest_key : option InternalKey;
  sb_filter_keys : list bytes;
  sb_num_entries : u64;
  sb_compression : CompressionType
}.

Definition sb_with_file (f : WritableFile) (b : SSTableBuilder) : SSTableBuilder :=
  mkSSTableBuilder (sb_path b) f (sb_offset b) (sb_block_size b) (sb_current_block b)
    (sb_current_block_first_key b) (sb_index_entries b) (sb_smallest_key b)
    (sb_largest_key b) (sb_filter_keys b) (sb_num_entries b) (sb_compression b).

Definition sb_with_offset (offset : u64) (b : SSTableBuilder) : SSTableBuilder :=
  mkSSTableBuilder (sb_path b) (sb_file b) offset (sb_block_size b) (sb_current_block b)
    (sb_current_block_first_key b) (sb_index_entries b) (sb_smallest_key b)
    (sb_largest_key b) (sb_filter_keys b) (sb_num_entries b) (sb_compression b).

Definition sb_with_block (block : BlockBuilder) (first_key : option InternalKey)
    (b : SSTableBuilder) : SSTableBuilder :=
  mkSSTableBuilder (sb_path b) (sb_file b) (sb_offset b) (sb_block_size b) block
    first_key (sb_index_entries b) (sb_smallest_key b)
    (sb_largest_key b) (sb_filter_keys b) (sb_num_entries b) (sb_compression b).

Definition sb_with_index (index : list IndexEntry) (b : SSTableBuilder) : SSTableBuilder :=
  mkSSTableBuilder (sb_path b) (sb_file b) (sb_offset b) (sb_block_size b) (sb_current_block b)
    (sb_current_block_first_key b) index (sb_smallest_key b)
    (sb_largest_key b) (sb_filter_keys b) (sb_num_entries b) (sb_compression b).

(** A method of the file inside a method of the builder. *)
Definition on_sb {A} (m : M (WritableFile * Fs) A) : M (SSTableBuilder * Fs) A :=
  zoom (fun s => (sb_file s.1, s.2)) (fun t s => (sb_with_file t.1 s.1, t.2)) m.

Definition modify_sb (f : SSTableBuilder -> SSTableBuilder) : M (SSTableBuilder * Fs) unit :=
  modify (fun s => (f s.1, s.2)).

(** The restart interval of every data block. *)
Definition restart_interval : usize := 16.

Definition encode_index_entry (dst : bytes) (e : IndexEntry) : bytes :=
  let dst := encode_internal_key (ie_first_key e) dst in
  let dst := encode_internal_key (ie_last_key e) dst in
  let dst := put_var_u64 dst (bh_offset (ie_handle e)) in
  put_var_u64 dst (bh_size (ie_handle e)).

Definition encode_index_entries (entries : list IndexEntry) : bytes :=
  let dst := put_var_u32 [] (wrap32 (len entries)) in
  foldl encode_index_entry dst entries.

Section table.
Context `{X : Externals}.

Definition compress_block (block : bytes) (compression : CompressionType) : res bytes :=
  match compression with
  | CNone => Ok block
  | CZstd => zstd_encode_all block
  end.

Definition sst_create_with_env (path : string) (block_size : usize)
    (compression : CompressionType) : M Fs SSTableBuilder :=
  file ← open_writable path writable_create;
  mret (mkSSTableBuilder path file 0 (Z.max block_size 1) (block_builder_new restart_interval)
    None [] None None [] 0 compression).

Definition write_block (block : bytes) : M (SSTableBuilder * Fs) BlockHandle :=
  self ← get_state;
  let b := self.1 in
  block ← lift (compress_block block (sb_compression b));
  let handle := mkBlockHandle (sb_offset b) (len block) in
  _ ← on_sb (write_all block);
  let compression := compression_u8 (sb_compression b) in
  let checksum := crc32c (compression :: block) in
  _ ← on_sb (write_all [compression]);
  _ ← on_sb (write_all (to_le_bytes 4 checksum));
  _ ← modify_sb (fun b => sb_with_offset (sb_offset b + len block + BLOCK_TRAILER_SIZE) b);
  mret handle.

Definition flush_current_block : M (SSTableBuilder * Fs) unit :=
  self ← get_state;
  let b := self.1 in
  if block_is_empty (sb_current_block b) then mret tt
  else match sb_current_block_first_key b, sb_largest_key b with
  | Some first_key, Some last_key =>
      let block := block_finish (sb_current_block b) in
      _ ← modify_sb (sb_with_block (block_builder_new restart_interval) None);
      handle ← write_block block;
      modify_sb (fun b =>
        sb_with_index (sb_index_entries b ++ [mkIndexEntry first_key last_key handle]) b)
  | _, _ => panic
  end.

(** The fields [add] sets before it looks at the block size. *)
Definition sst_push (key : InternalKey) (value : ValueRecord) (b : SSTableBuilder) :
    SSTableBuilder :=
  mkSSTableBuilder (sb_path b) (sb_file b) (sb_offset b) (sb_block_size b)
    (block_add (sb_current_block b) key value)
    (match sb_current_block_first_key b with None => Some key | k => k end)
    (sb_index_entries b)
    (match sb_smallest_key b with None => Some key | k => k end)
    (Some key)
    (sb_filter_keys b ++ [user_key key])
    (sb_num_entries b + 1) (sb_compression b).

Definition sst_add (key : InternalKey) (value : ValueRecord) : M (SSTableBuilder * Fs) unit :=
  _ ← modify_sb (sst_push key value);
  self ← get_state;
  let b := self.1 in
  if sb_block_size b <=? block_approximate_size (sb_current_block b)
  then flush_current_block
  else mret tt.

Definition sst_finish : M (SSTableBuilder * Fs) unit :=
  _ ← flush_current_block;
  self ← get_state;
  let b := self.1 in
  let properties := mkTableProperties (sb_num_entries b) (sb_smallest_key b) (sb_largest_key b)
    (filter_from_keys (sb_filter_keys b)) in
  let properties_block := properties_encode properties in
  properties_handle ← write_block properties_block;
  self ← get_state;
  let index_block := encode_index_entries (sb_index_entries self.1) in
  index_handle ← write_block index_block;
  let footer := encode_footer properties_handle index_handle in
  _ ← on_sb (write_all footer);
  _ ← modify_sb (fun b => sb_with_offset (sb_offset b + len footer) b);
  on_sb sync_all.

(** ** The bytes of a table *)

(** A block as it is stored: compressed, with its trailer. *)
Definition stored (compression : CompressionType) (cblock : bytes) : bytes :=
  cblock ++ [compression_u8 compression]
    ++ to_le_bytes 4 (crc32c (compression_u8 compression :: cblock)).

Lemma stored_length c b : length (stored c b) = (length b + 5)%nat.
Proof. unfold stored. rewrite !length_app, length_to_le_bytes. simpl. lia. Qed.

(** The builder is in step with its file: everything so far is [c], and the
    offset is its length. *)
Definition sb_in_step (b : SSTableBuilder) (fs : Fs) (c : bytes) : Prop :=
  writes_at_end (sb_file b) fs c /\ sb_offset b = len c /\ fs_oracle fs = [].

Lemma on_sb_write bs b fs c :
  writes_at_end (sb_file b) fs c -> fs_oracle fs = [] ->
  exists f', on_sb (write_all bs) (b, fs)
    = (Ok tt, (sb_with_file f' b, set_files (<[wf_path (sb_file b) := c ++ bs]>) fs)) /\
    wf_path f' = wf_path (sb_file b) /\
    writes_at_end f' (set_files (<[wf_path (sb_file b) := c ++ bs]>) fs) (c ++ bs).
Proof.
  intros Hw Ho. destruct (write_all_ok bs _ _ _ Hw Ho) as (f' & E & Hp & Hw').
  exists f'. split; [|done]. unfold on_sb, zoom. simpl. by rewrite E.
Qed.

Lemma set_files_twice p c c' fs :
  set_files (<[p := c']>) (set_files (<[p := c]>) fs) = set_files (<[p := c']>) fs.
Proof. unfold set_files. simpl. by rewrite insert_insert_eq. Qed.

Lemma write_block_ok block cblock b fs c :
  sb_in_step b fs c -> compress_block block (sb_compression b) = Ok cblock ->
  exists f', write_block block (b, fs)
    = (Ok (mkBlockHandle (len c) (len cblock)),
       (sb_with_offset (len (c ++ stored (sb_compression b) cblock)) (sb_with_file f' b),
        set_files (<[wf_path (sb_file b) := c ++ stored (sb_compression b) cblock]>) fs)) /\
    wf_path f' = wf_path (sb_file b) /\
    writes_at_end f'
      (set_files (<[wf_path (sb_file b) := c ++ stored (sb_compression b) cblock]>) fs)
      (c ++ stored (sb_compression b) cblock).
Proof.
  intros (Hw & Hoff & Ho) Hc. unfold write_block. rewrite bind_get_state. cbv zeta.
  cbn [fst]. rewrite Hc. erewrite bind_ok by reflexivity.
  destruct (on_sb_write cblock b fs c Hw Ho) as (f1 & E1 & P1 & W1).
  erewrite bind_ok by exact E1. set (cu := compression_u8 (sb_compression b)).
  destruct (on_sb_write [cu] (sb_with_file f1 b) _ _ W1 Ho) as (f2 & E2 & P2 & W2).
  erewrite bind_ok by exact E2.
  set (ck := to_le_bytes 4 (crc32c (cu :: cblock))).
  destruct (on_sb_write ck (sb_with_file f2 (sb_with_file f1 b)) _ _ W2 Ho)
    as (f3 & E3 & P3 & W3).
  erewrite bind_ok by exact E3. exists f3.
  cbn [sb_with_file sb_file] in *. rewrite P2, P1 in *.
  rewrite !set_files_twice in *. rewrite <- !app_assoc in *.
  unfold modify_sb. rewrite bind_modify. unfold stored. fold cu ck.
  split; [|split; [congruence | done]]. unfold mret, M_ret. rewrite Hoff. do 3 f_equal.
  unfold sb_with_offset, sb_with_file. cbn. rewrite Hoff. f_equal.
  assert (length ck = 4%nat) by apply length_to_le_bytes.
  unfold len, BLOCK_TRAILER_SIZE. rewrite !length_app. simpl length. lia.
Qed.

(** Creating a table from entries: the part shared by [write_l0_table] and
    [write_compaction_output] of [db.rs]. *)
Definition build_table (path : string) (block_size : usize) (compression : CompressionType)
    (entries : list entry) : M Fs unit :=
  builder ← sst_create_with_env path block_size compression;
  with_local builder
    (_ ← for_each entries (fun (e : entry) (_ : unit) => sst_add e.1 e.2) tt;
     sst_finish).

(** ** The layout

    [chunks] are the entries of the data blocks, in order. *)

Context (comp : CompressionType).

Definition cblock (block : bytes) : bytes :=
  match compress_block block comp with Ok c => c | _ => [] end.

(** Compressing does not fail (always so without compression). *)
Definition compression_succeeds : Prop :=
  forall block, compress_block block comp = Ok (cblock block).

Definition chunk_block (c : list entry) : bytes :=
  block_finish (block_add_all (block_builder_new restart_interval) c).

Definition chunk_stored (c : list entry) : bytes := stored comp (cblock (chunk_block c)).

Definition data_area (chunks : list (list entry)) : bytes := concat (map chunk_stored chunks).

Fixpoint chunk_index (off : Z) (chunks : list (list entry)) : list IndexEntry :=
  match chunks with
  | [] => []
  | c :: cs =>
      match head c, last c with
      | Some f, Some l =>
          [mkIndexEntry f.1 l.1 (mkBlockHandle off (len (cblock (chunk_block c))))]
      | _, _ => []
      end ++ chunk_index (off + len (chunk_stored c)) cs
  end.

Definition table_properties (es : list entry) : TableProperties :=
  mkTableProperties (len es) (fst <$> head es) (fst <$> last es)
    (filter_from_keys (map (fun e : entry => user_key e.1) es)).

Definition table_bytes (chunks : list (list entry)) : bytes :=
  let es := concat chunks in
  let data := data_area chunks in
  let props := cblock (properties_encode (table_properties es)) in
  let index := cblock (encode_index_entries (chunk_index 0 chunks)) in
  let props_off := len data in
  let index_off := len (data ++ stored comp props) in
  ((data ++ stored comp props) ++ stored comp index)
    ++ encode_footer (mkBlockHandle props_off (len props)) (mkBlockHandle index_off (len index)).

Lemma chunk_index_app off cs c :
  chunk_index off (cs ++ [c])
  = chunk_index off cs ++ chunk_index (off + len (data_area cs)) [c].
Proof.
  revert off. induction cs as [|c0 cs IH]; intros off.
  - cbn [app data_area map concat]. rewrite len_nil, Z.add_0_r. done.
  - cbn [app chunk_index data_area map concat]. rewrite IH, <- app_assoc. cbn [chunk_index].
    fold (data_area cs). rewrite len_app, Z.add_assoc. done.
Qed.

Lemma data_area_app cs c : data_area (cs ++ [c]) = data_area cs ++ chunk_stored c.
Proof. unfold data_area. rewrite map_app, concat_app. simpl. by rewrite app_nil_r. Qed.

(** What a builder has written and holds, after the entries of [chunks] and
    [cur]. *)
(** The split of entries into blocks: a block is closed by the entry that
    brings it to the block size. *)
Definition chunk_step (block_size : usize) (acc : list (list entry) * list entry) (e : entry) :
    list (list entry) * list entry :=
  let cur := acc.2 ++ [e] in
  if block_size <=? block_approximate_size (block_add_all (block_builder_new restart_interval) cur)
  then (acc.1 ++ [cur], []) else (acc.1, cur).

Definition chunk_entries (block_size : usize) (es : list entry) : list (list entry) :=
  let '(chunks, cur) := foldl (chunk_step (Z.max block_size 1)) ([], []) es in
  match cur with [] => chunks | _ => chunks ++ [cur] end.

Lemma chunk_steps_concat block_size es acc :
  let acc' := foldl (chunk_step block_size) acc es in
  concat acc'.1 ++ acc'.2 = (concat acc.1 ++ acc.2) ++ es.
Proof.
  revert acc. induction es as [|e es IH]; intros [chunks cur]; [by rewrite app_nil_r|].
  cbn [foldl]. rewrite IH. unfold chunk_step. cbn [fst snd].
  destruct (_ <=? _); cbn [fst snd]; rewrite ?concat_app; cbn [concat];
    rewrite ?app_nil_r, <- !app_assoc; done.
Qed.

Record builder_inv (path : string) (fs0 : Fs) (b : SSTableBuilder) (fs : Fs)
    (chunks : list (list entry)) (cur : list entry) : Prop := mkBuilderInv {
  bi_fs : fs = set_files (<[path := data_area chunks]>) fs0;
  bi_path : wf_path (sb_file b) = path;
  bi_step : sb_in_step b fs (data_area chunks);
  bi_comp : sb_compression b = comp;
  bi_block : sb_current_block b = block_add_all (block_builder_new restart_interval) cur;
  bi_first : sb_current_block_first_key b = fst <$> head cur;
  bi_idx : sb_index_entries b = chunk_index 0 chunks;
  bi_props : mkTableProperties (sb_num_entries b) (sb_smallest_key b) (sb_largest_key b)
    (filter_from_keys (sb_filter_keys b)) = table_properties (concat chunks ++ cur);
  bi_keys : sb_filter_keys b = map (fun e : entry => user_key e.1) (concat chunks ++ cur);
  bi_ne : Forall (fun c => c <> []) chunks
}.

Lemma block_is_empty_add_all es :
  block_is_empty (block_add_all (block_builder_new restart_interval) es)
  = match es with [] => true | _ => false end.
Proof.
  unfold block_is_empty.
  destruct (block_add_all_restarts (block_builder_new restart_interval) es) as [-> _];
    [done | done |]. simpl. destruct es as [|e es]; [done|].
  apply Z.eqb_neq. rewrite len_cons. pose proof (len_nonneg es). lia.
Qed.

Context (Hcomp : compression_succeeds).

Lemma flush_current_block_ok path fs0 b fs chunks cur :
  builder_inv path fs0 b fs chunks cur ->
  exists b' fs', flush_current_block (b, fs) = (Ok tt, (b', fs')) /\
    builder_inv path fs0 b' fs' (match cur with [] => chunks | _ => chunks ++ [cur] end) [] /\
    sb_block_size b' = sb_block_size b.
Proof.
  intros [Hfs Hpath Hstep Hc Hblk Hfst Hidx Hprops Hkeys Hne].
  unfold flush_current_block. rewrite bind_get_state. cbv zeta. cbn [fst].
  rewrite Hblk, block_is_empty_add_all. destruct cur as [|e cur].
  { exists b, fs. split; [done|]. split; [by constructor | done]. }
  rewrite Hfst. cbn [head fmap option_fmap option_map].
  assert (exists l, last (e :: cur) = Some l /\ sb_largest_key b = Some l.1) as (l & Hl & Hlk).
  { destruct (last_is_Some (e :: cur)) as [_ [l Hl]]; [done|]. exists l. split; [done|].
    injection Hprops as _ _ -> _. rewrite last_app, Hl. done. }
  rewrite Hlk. unfold modify_sb. rewrite bind_modify. cbn [fst snd].
  set (b1 := sb_with_block (block_builder_new restart_interval) None b).
  destruct (write_block_ok (chunk_block (e :: cur)) (cblock (chunk_block (e :: cur))) b1 fs
    (data_area chunks)) as (f' & E & Hp' & Hw'); [done | by rewrite <- Hcomp; simpl; rewrite Hc|].
  erewrite bind_ok by exact E. unfold modify. cbn [fst snd].
  change (sb_compression b1) with (sb_compression b) in *. rewrite Hc in *.
  change (sb_file b1) with (sb_file b) in *. rewrite Hpath in *.
  fold (chunk_stored (e :: cur)) in *. rewrite <- data_area_app in *.
  eexists _, _. split; [done|]. split; [|done].
  rewrite Hfs, set_files_twice in *. constructor; cbn; try done.
  - split; [done|]. split; [done|]. apply Hstep.
  - rewrite chunk_index_app, Hidx. cbn [chunk_index head]. rewrite Hl, app_nil_r.
    by rewrite Z.add_0_l.
  - by rewrite concat_app, app_nil_r; cbn [concat]; rewrite app_nil_r.
  - by rewrite concat_app, app_nil_r; cbn [concat]; rewrite app_nil_r.
  - apply Forall_app. split; [done|]. by constructor.
Qed.

Lemma head_snoc {A} (l : list A) x :
  head (l ++ [x]) = match head l with None => Some x | y => y end.
Proof. by destruct l. Qed.

Lemma sst_push_inv path fs0 b fs chunks cur e :
  builder_inv path fs0 b fs chunks cur ->
  builder_inv path fs0 (sst_push e.1 e.2 b) fs chunks (cur ++ [e]).
Proof.
  intros [Hfs Hpath Hstep Hc Hblk Hfst Hidx Hprops Hkeys Hne].
  constructor; cbn; try done.
  - unfold block_add_all. rewrite foldl_app, Hblk. done.
  - rewrite Hfst, head_snoc. by destruct (head cur).
  - injection Hprops as Hn Hs Hl Hf. rewrite Hs, Hn. unfold table_properties.
    rewrite Hkeys. f_equal.
    + by rewrite app_assoc, (len_app _ [e]).
    + rewrite app_assoc, head_snoc. by destruct (head (concat chunks ++ cur)).
    + by rewrite app_assoc, last_snoc.
    + by rewrite app_assoc, (map_app _ _ [e]).
  - by rewrite Hkeys, app_assoc, (map_app _ _ [e]).
Qed.

Lemma chunk_close_concat (chunks : list (list entry)) (cur : list entry) :
  concat (match cur with [] => chunks | _ => chunks ++ [cur] end) = concat chunks ++ cur.
Proof. destruct cur; [by rewrite app_nil_r|]. rewrite concat_app. cbn [concat]. by rewrite app_nil_r. Qed.

Lemma sst_add_ok path fs0 b fs chunks cur e :
  builder_inv path fs0 b fs chunks cur ->
  let '(chunks', cur') := chunk_step (sb_block_size b) (chunks, cur) e in
  exists b' fs', sst_add e.1 e.2 (b, fs) = (Ok tt, (b', fs')) /\
    builder_inv path fs0 b' fs' chunks' cur' /\ sb_block_size b' = sb_block_size b.
Proof.
  intros Hinv. apply (sst_push_inv _ _ _ _ _ _ e) in Hinv as Hinv'.
  unfold chunk_step. cbn [fst snd]. rewrite <- (bi_block _ _ _ _ _ _ Hinv').
  unfold sst_add, modify_sb. rewrite bind_modify, bind_get_state. cbv zeta. cbn [fst snd].
  change (sb_block_size (sst_push e.1 e.2 b)) with (sb_block_size b).
  destruct (_ <=? _).
  - destruct (flush_current_block_ok _ _ _ _ _ _ Hinv') as (b' & fs' & E & Hi & Hs).
    exists b', fs'. split; [exact E|]. split; [|exact Hs].
    by destruct (cur ++ [e]) eqn:El; [destruct cur|].
  - eexists _, _. split; [done|]. by split; [exact Hinv'|].
Qed.

Lemma sst_add_all_ok path fs0 es b fs chunks cur :
  builder_inv path fs0 b fs chunks cur ->
  let '(chunks', cur') := foldl (chunk_step (sb_block_size b)) (chunks, cur) es in
  exists b' fs', for_each es (fun (e : entry) (_ : unit) => sst_add e.1 e.2) tt (b, fs)
      = (Ok tt, (b', fs')) /\
    builder_inv path fs0 b' fs' chunks' cur'.
Proof.
  revert b fs chunks cur. induction es as [|e es IH]; intros b fs chunks cur Hinv.
  { by exists b, fs. }
  cbn [for_each foldl]. pose proof (sst_add_ok _ _ _ _ _ _ e Hinv) as Hadd.
  destruct (chunk_step _ (chunks, cur) e) as [ch1 cu1].
  destruct Hadd as (b1 & fs1 & E1 & H1 & Hs1). specialize (IH b1 fs1 ch1 cu1 H1). rewrite Hs1 in IH.
  destruct (foldl _ _ es) as [ch2 cu2]. destruct IH as (b2 & fs2 & E2 & H2).
  exists b2, fs2. split; [|done]. by rewrite (bind_ok _ _ _ _ _ E1).
Qed.

(** The footer and the two last blocks. *)
Lemma sst_finish_ok path fs0 b fs chunks cur :
  builder_inv path fs0 b fs chunks cur ->
  let chunks' := match cur with [] => chunks | _ => chunks ++ [cur] end in
  exists b', sst_finish (b, fs)
    = (Ok tt, (b', set_files (<[path := table_bytes chunks']>) fs0)) /\
    concat chunks' = concat chunks ++ cur /\ Forall (fun c => c <> []) chunks'.
Proof.
  intros Hinv ch. unfold sst_finish.
  destruct (flush_current_block_ok _ _ _ _ _ _ Hinv) as (b1 & fs1 & E1 & H1 & _).
  erewrite bind_ok by exact E1. rewrite bind_get_state. cbv zeta. cbn [fst].
  fold ch in H1. assert (Hch : concat ch = concat chunks ++ cur) by apply chunk_close_concat.
  destruct H1 as [Hfs Hpath Hstep Hc _ _ Hidx Hprops _ Hne]. rewrite Hprops, app_nil_r.
  set (cp := cblock (properties_encode (table_properties (concat ch)))).
  destruct (write_block_ok (properties_encode (table_properties (concat ch))) cp b1 fs1
    (data_area ch) Hstep) as (f2 & E2 & P2 & W2); [by rewrite Hc; apply Hcomp|].
  erewrite bind_ok by exact E2. rewrite bind_get_state. cbn [fst].
  cbn [sb_index_entries sb_with_offset sb_with_file]. rewrite Hidx.
  rewrite Hc, Hpath in *. set (c2 := data_area ch ++ stored comp cp) in *.
  set (b2 := sb_with_offset (len c2) (sb_with_file f2 b1)) in *.
  set (ci := cblock (encode_index_entries (chunk_index 0 ch))).
  destruct (write_block_ok (encode_index_entries (chunk_index 0 ch)) ci b2
    (set_files (<[path := c2]>) fs1) c2) as (f3 & E3 & P3 & W3).
  { split; [exact W2|]. split; [done|]. apply Hstep. }
  { subst b2. cbn. by rewrite Hc. }
  erewrite bind_ok by exact E3.
  change (sb_compression b2) with (sb_compression b1) in *.
  change (sb_file b2) with f2 in *. rewrite Hc, P2 in *.
  set (b3 := sb_with_offset _ _).
  destruct (on_sb_write (encode_footer (mkBlockHandle (len (data_area ch)) (len cp))
    (mkBlockHandle (len c2) (len ci))) b3
    (set_files (<[path := c2 ++ stored comp ci]>) (set_files (<[path := c2]>) fs1))
    (c2 ++ stored comp ci)) as (f4 & E4 & P4 & W4); [exact W3 | apply Hstep |].
  cbv zeta. erewrite bind_ok by exact E4. unfold modify_sb. rewrite bind_modify. cbn [fst snd].
  change (wf_path (sb_file b3)) with (wf_path f3). rewrite P3, !set_files_twice, Hfs, set_files_twice.
  unfold on_sb, zoom. cbn [fst snd sb_with_offset sb_with_file sb_file].
  rewrite sync_all_ok by (rewrite Hfs in Hstep; apply Hstep).
  eexists. split; [reflexivity|]. done.
Qed.

(** A table built from entries, without I/O failures: the file is the layout
    of the split of the entries into blocks, and no other file changes. *)
Lemma build_table_ok path block_size es fs :
  fs_oracle fs = [] ->
  let chunks := chunk_entries block_size es in
  build_table path block_size comp es fs
    = (Ok tt, set_files (<[path := table_bytes chunks]>) fs) /\
  concat chunks = es /\ Forall (fun c => c <> []) chunks.
Proof.
  intros Ho chunks. unfold build_table, sst_create_with_env.
  destruct (open_writable_create_ok path fs Ho) as (f & Ef & Hp & Hw).
  rewrite (bind_ok _ _ fs _ _ (bind_ok _ _ fs _ _ Ef)). unfold with_local.
  set (b0 := mkSSTableBuilder _ _ _ _ _ _ _ _ _ _ _ _).
  assert (builder_inv path fs b0 (set_files (<[path := []]>) fs) [] []) as H0.
  { by constructor; cbn. }
  pose proof (sst_add_all_ok _ _ es _ _ _ _ H0) as Hall.
  change (sb_block_size b0) with (Z.max block_size 1) in Hall. subst chunks. unfold chunk_entries.
  pose proof (chunk_steps_concat (Z.max block_size 1) es ([], [])) as Hc.
  destruct (foldl (chunk_step (Z.max block_size 1)) ([], []) es) as [ch cur].
  destruct Hall as (b1 & fs1 & E1 & H1). erewrite bind_ok by exact E1.
  destruct (sst_finish_ok _ _ _ _ _ _ H1) as (b2 & E2 & Hc' & Hne).
  cbn [fst snd concat app] in Hc. rewrite E2. split; [done|]. split; [by rewrite Hc', Hc | done].
Qed.
End table.
