(* ===== verification/Reader.v ===== *)
(** * Reading tables

    [src/table/reader.rs]: opening a table, point reads through the block
    cache, all entries, and the storage iterator over a table. *)

From Stdlib Require Import Sorting.Sorted.
From stdpp Require Import base gmap list strings sorting.
From S2P Require Import Prelude Key Spec Coding Externals Env Iterators Format Bloom Block.
From S2P Require Import Properties Cache Table.

(** The file system and the block cache the readers share. *)
Record RW : Type := mkRW {
  rw_fs : Fs;
  rw_cache : BlockCache
}.

Definition on_fs {A} (m : M Fs A) : M RW A :=
  zoom rw_fs (fun fs w => mkRW fs (rw_cache w)) m.

Definition on_file {A} (m : M (ReadableFile * Fs) A) : M (ReadableFile * RW) A :=
  zoom (fun s => (s.1, rw_fs s.2)) (fun t s => (t.1, mkRW t.2 (rw_cache s.2))) m.

Definition on_cache {A} (m : BlockCache -> A * BlockCache) : M (ReadableFile * RW) A := fun s =>
  let '(a, c) := m (rw_cache s.2) in (Ok a, (s.1, mkRW (rw_fs s.2) c)).

(** [vec![0_u8; n]]: a capacity above [isize::MAX] panics. *)
Definition isize_max : Z := 2 ^ 63 - 1.
Definition vec_zeroed {S} (n : usize) : M S unit :=
  if isize_max <? n then panic else mret tt.

Definition index_may_contain_user_key (index : IndexEntry) (user_key : bytes) : bool :=
  leb bytes_cmp (Key.user_key (ie_first_key index)) user_key
  && leb bytes_cmp user_key (Key.user_key (ie_last_key index)).

Definition decode_index_entry (entries : list IndexEntry) : M bytes (list IndexEntry) :=
  first_key ← decode_internal_key;
  last_key ← decode_internal_key;
  offset ← get_var_u64;
  size ← get_var_u64;
  mret (entries ++ [mkIndexEntry first_key last_key (mkBlockHandle offset size)]).

Definition decode_index_entries_m : M bytes (list IndexEntry) :=
  count ← get_var_u32;
  entries ← for_range (Z.to_nat count) decode_index_entry [];
  is_empty ← src_is_empty;
  if (is_empty : bool) then mret entries else fail (Corruption "trailing index bytes").

Definition decode_index_entries (bs : bytes) : res (list IndexEntry) :=
  (decode_index_entries_m bs).1.

Record SSTableReader : Type := mkSSTableReader {
  sr_path : string;
  sr_index : list IndexEntry;
  sr_properties : TableProperties;
  sr_filter : TableFilter
}.

Section reader.
Context `{X : Externals} `{H : HashOrder}.

Definition read_block (handle : BlockHandle) : M (ReadableFile * Fs) bytes :=
  _ ← rf_seek (bh_offset handle);
  _ ← vec_zeroed (bh_size handle);
  block ← rf_read_exact (bh_size handle);
  trailer ← rf_read_exact BLOCK_TRAILER_SIZE;
  compression ← lift (compression_from_u8 (nth 0 trailer 0));
  let expected := from_le_bytes (drop 1 trailer) in
  let checksum_input := nth 0 trailer 0 :: block in
  let actual := crc32c checksum_input in
  if negb (expected =? actual) then fail (Corruption "SSTable block checksum mismatch")
  else
    match compression with
    | CNone => mret block
    | CZstd => lift (zstd_decode_all block)
    end.

Definition sst_open_with_env (path : string) : M Fs SSTableReader :=
  file ← open_readable path;
  with_local file
    (file_len ← rf_len;
     if file_len <? FOOTER_SIZE then fail (Corruption "SSTable is too small")
     else
       _ ← rf_seek (file_len - FOOTER_SIZE);
       footer ← rf_read_exact FOOTER_SIZE;
       handles ← lift (decode_footer footer);
       properties_block ← read_block handles.1;
       properties ← lift (properties_decode properties_block);
       index_block ← read_block handles.2;
       index ← lift (decode_index_entries index_block);
       mret (mkSSTableReader path index properties (filter_decode (tp_filter properties)))).

(** Both copies of [read_decoded_block] (the method and the function); the
    cache is the one of the world when [block_cache] is set. *)
Definition read_decoded_block (index : IndexEntry) (table_number : u64) (block_cache : bool)
    (fill_cache : bool) : M (ReadableFile * RW) Block :=
  cached ←
    (if fill_cache && block_cache
     then on_cache (block_cache_get table_number (bh_offset (ie_handle index)))
     else mret None);
  match cached with
  | Some block => mret block
  | None =>
      block_bytes ← on_file (read_block (ie_handle index));
      block ← lift (block_decode block_bytes);
      _ ←
        (if fill_cache && block_cache
         then on_cache (fun c =>
           (tt, block_cache_insert table_number (bh_offset (ie_handle index)) block c))
         else mret tt);
      mret block
  end.

(** The first entry of a block with the user key and a visible sequence. *)
Fixpoint find_visible (user_key : bytes) (read_seq : u64) (es : list entry) :
    option ValueRecord :=
  match es with
  | [] => None
  | (key, value) :: es =>
      if bool_decide (Key.user_key key = user_key) && (sequence key <=? read_seq)
      then Some value
      else find_visible user_key read_seq es
  end.

Fixpoint get_blocks (user_key : bytes) (read_seq table_number : u64) (block_cache : bool)
    (fill_cache : bool) (indexes : list IndexEntry) :
    M (ReadableFile * RW) (option ValueRecord) :=
  match indexes with
  | [] => mret None
  | index :: indexes =>
      let continue := get_blocks user_key read_seq table_number block_cache fill_cache indexes in
      if negb (index_may_contain_user_key index user_key) then continue
      else
        block ← read_decoded_block index table_number block_cache fill_cache;
        match find_visible user_key read_seq (block_entries block) with
        | Some value => mret (Some value)
        | None => continue
        end
  end.

Definition might_contain (self : SSTableReader) (user_key : bytes) : res bool :=
  match filter_may_contain (sr_filter self) user_key with
  | Some b => Ok b
  | None => Panic
  end.

Definition get_with_cache (self : SSTableReader) (user_key : bytes) (read_seq : u64)
    (table_number : u64) (block_cache fill_cache : bool) : M RW (option ValueRecord) :=
  may ← lift (might_contain self user_key);
  if negb may then mret None
  else
    file ← on_fs (open_readable (sr_path self));
    with_local file
      (get_blocks user_key read_seq table_number block_cache fill_cache (sr_index self)).

Definition sst_get (self : SSTableReader) (user_key : bytes) (read_seq : u64) :
    M RW (option ValueRecord) :=
  get_with_cache self user_key read_seq 0 false false.

Definition entries_with_cache (self : SSTableReader) (table_number : u64)
    (block_cache fill_cache : bool) : M RW (list entry) :=
  file ← on_fs (open_readable (sr_path self));
  with_local file
    (for_each (sr_index self)
       (fun index entries =>
          block ← read_decoded_block index table_number block_cache fill_cache;
          mret (entries ++ block_entries block)) []).

Definition sst_entries (self : SSTableReader) : M RW (list entry) :=
  entries_with_cache self 0 false true.

Definition smallest_key (self : SSTableReader) : option InternalKey :=
  tp_smallest_key (sr_properties self).
Definition largest_key (self : SSTableReader) : option InternalKey :=
  tp_largest_key (sr_properties self).

(** [TableIterator]. *)
Record TableIterator : Type := mkTableIterator {
  ti_entries : list entry;
  ti_index : nat
}.

Definition sst_iter (self : SSTableReader) : M RW TableIterator :=
  entries ← sst_entries self;
  mret (mkTableIterator entries 0).

Definition table_iter_next (self : TableIterator) : option entry * TableIterator :=
  match ti_entries self !! ti_index self with
  | Some item => (Some item, mkTableIterator (ti_entries self) (S (ti_index self)))
  | None => (None, self)
  end.

(** ** [SSTableStorageIterator] *)

Record SSTableStorageIterator : Type := mkSSTableStorageIterator {
  si_file : ReadableFile;
  si_index : list IndexEntry;
  si_table_number : u64;
  si_block_cache : bool;
  si_fill_cache : bool;
  si_block_index : nat;
  si_current_block : option Block;
  si_entry_index : nat
}.

Definition si_with_file (file : ReadableFile) (self : SSTableStorageIterator) :
    SSTableStorageIterator :=
  mkSSTableStorageIterator file (si_index self) (si_table_number self) (si_block_cache self)
    (si_fill_cache self) (si_block_index self) (si_current_block self) (si_entry_index self).

Definition si_with_position (block_index : nat) (current_block : option Block)
    (entry_index : nat) (self : SSTableStorageIterator) : SSTableStorageIterator :=
  mkSSTableStorageIterator (si_file self) (si_index self) (si_table_number self)
    (si_block_cache self) (si_fill_cache self) block_index current_block entry_index.

Definition on_si_file {A} (m : M (ReadableFile * RW) A) : M (SSTableStorageIterator * RW) A :=
  zoom (fun s => (si_file s.1, s.2)) (fun t s => (si_with_file t.1 s.1, t.2)) m.

Definition modify_si (f : SSTableStorageIterator -> SSTableStorageIterator) :
    M (SSTableStorageIterator * RW) unit :=
  modify (fun s => (f s.1, s.2)).

(** The loop of [load_block_at], over the index entries from [block_index]
    on. *)
Fixpoint load_blocks (block_index : nat) (rest : list IndexEntry) :
    M (SSTableStorageIterator * RW) unit :=
  match rest with
  | [] => mret tt
  | index :: rest =>
      s ← get_state;
      let self := s.1 in
      block ← on_si_file (read_decoded_block index (si_table_number self)
        (si_block_cache self) (si_fill_cache self));
      match block_entries block with
      | _ :: _ => modify_si (si_with_position block_index (Some block) 0)
      | [] =>
          _ ← modify_si (si_with_position (S block_index) None 0);
          load_blocks (S block_index) rest
      end
  end.

Definition load_block_at (index : nat) : M (SSTableStorageIterator * RW) unit :=
  _ ← modify_si (si_with_position index None 0);
  s ← get_state;
  load_blocks index (drop index (si_index s.1)).

Definition advance_to_next_block : M (SSTableStorageIterator * RW) unit :=
  s ← get_state;
  load_block_at (S (si_block_index s.1)).

Definition storage_iter (self : SSTableReader) (table_number : u64)
    (block_cache fill_cache : bool) : M RW SSTableStorageIterator :=
  file ← on_fs (open_readable (sr_path self));
  let iter := mkSSTableStorageIterator file (sr_index self) table_number block_cache
    fill_cache 0 None 0 in
  with_local iter (_ ← load_block_at 0; s ← get_state; mret s.1).

Definition si_is_valid (self : SSTableStorageIterator) : bool :=
  match si_current_block self with
  | Some block => bool_decide (si_entry_index self < length (block_entries block))%nat
  | None => false
  end.

Definition si_entry (self : SSTableStorageIterator) : res entry :=
  match si_current_block self with
  | Some block => index_vec (block_entries block) (si_entry_index self)
  | None => Panic
  end.

Definition si_next : M (SSTableStorageIterator * RW) unit :=
  s ← get_state;
  if negb (si_is_valid s.1) then mret tt
  else
    _ ← modify_si (fun self =>
      si_with_position (si_block_index self) (si_current_block self)
        (S (si_entry_index self)) self);
    s ← get_state;
    if negb (si_is_valid s.1) then advance_to_next_block else mret tt.

Definition si_seek (key : InternalKey) : M (SSTableStorageIterator * RW) unit :=
  s ← get_state;
  let block_index :=
    Nat.min (partition_point (fun e => ltb ikey_cmp (ie_last_key e) key) (si_index s.1))
      (length (si_index s.1)) in
  _ ← load_block_at block_index;
  s ← get_state;
  match si_current_block s.1 with
  | Some block =>
      let entry_index :=
        partition_point (fun e : entry => ltb ikey_cmp e.1 key) (block_entries block) in
      _ ← modify_si (fun self =>
        si_with_position (si_block_index self) (si_current_block self) entry_index self);
      if bool_decide (length (block_entries block) <= entry_index)%nat
      then advance_to_next_block
      else mret tt
  | None => mret tt
  end.

#[export] Instance sst_storage_iterator : StorageIterator SSTableStorageIterator RW := {|
  it_is_valid := si_is_valid;
  it_key self := fst <$> si_entry self;
  it_value self := snd <$> si_entry self;
  it_next := si_next;
  it_seek := si_seek
|}.
End reader.

(** ** The index block *)

Definition index_entry_fits (ie : IndexEntry) : Prop :=
  ikey_fits (ie_first_key ie) /\ ikey_fits (ie_last_key ie) /\ handle_ok (ie_handle ie).

Definition index_entry_bytes (ie : IndexEntry) : bytes :=
  ikey_bytes (ie_first_key ie) ++ ikey_bytes (ie_last_key ie)
    ++ varint_bytes 10 (bh_offset (ie_handle ie)) ++ varint_bytes 10 (bh_size (ie_handle ie)).

Lemma encode_index_entry_bytes dst ie :
  index_entry_fits ie -> encode_index_entry dst ie = dst ++ index_entry_bytes ie.
Proof.
  intros ([_ [Hf _]] & [_ [Hl _]] & [Ho _] & [Hs _]). unfold encode_index_entry. cbv zeta.
  rewrite put_var_u64_bytes, put_var_u64_bytes, !encode_internal_key_bytes by done.
  unfold index_entry_bytes. by rewrite <- !app_assoc.
Qed.

Lemma decode_index_entry_bytes ie acc rest :
  index_entry_fits ie ->
  decode_index_entry acc (index_entry_bytes ie ++ rest) = (Ok (acc ++ [ie]), rest).
Proof.
  intros (Hf & Hl & Ho & Hs). unfold decode_index_entry, index_entry_bytes.
  rewrite <- !app_assoc.
  erewrite bind_ok by (by apply decode_internal_key_bytes).
  erewrite bind_ok by (by apply decode_internal_key_bytes).
  parse_steps. by destruct ie as [? ? []].
Qed.

Lemma decode_encode_index_entries ies :
  Forall index_entry_fits ies -> len ies < 2 ^ 32 ->
  decode_index_entries (encode_index_entries ies) = Ok ies.
Proof.
  intros H Hn. unfold encode_index_entries. cbv zeta. rewrite wrap32_len by done.
  pose proof (len_nonneg ies). rewrite put_var_u32_bytes by done. cbn [app].
  assert (forall dst, foldl encode_index_entry dst ies = dst ++ concat (map index_entry_bytes ies))
    as ->.
  { clear Hn H0. induction H as [|ie ies Hie H IH]; intros dst; [by rewrite app_nil_r|].
    cbn [foldl map concat]. by rewrite IH, encode_index_entry_bytes, <- app_assoc. }
  unfold decode_index_entries, decode_index_entries_m.
  erewrite bind_ok by (apply get_var_u32_enc; unfold u32_ok; lia).
  rewrite to_nat_len. rewrite <- (app_nil_r (concat _)).
  erewrite bind_ok.
  2: { apply (for_range_decode index_entry_bytes (fun l x => l ++ [x])).
       eapply Forall_impl; [exact H|]. intros ie Hie acc rest.
       by apply decode_index_entry_bytes. }
  erewrite bind_ok by done. cbv iota beta. rewrite foldl_push. done.
Qed.

(** ** Correctness: a table that was written

    A table is the layout [table_bytes chunks] of [Table]; [table_fits] bounds
    its sizes by the widths of the fields that hold them. *)

Section reader_ok.
Context `{X : Externals} `{HX : !ExternalsOk X} `{H : HashOrder}.
Context (comp : CompressionType) (Hcomp : compression_succeeds comp).

Record table_fits (chunks : list (list entry)) : Prop := mkTableFits {
  tf_nonempty : Forall (fun c => c <> []) chunks;
  tf_entries : Forall entry_fits (concat chunks);
  tf_count : 10 * len (concat chunks) < 2 ^ 32;
  tf_size : len (table_bytes comp chunks) <= isize_max
}.

Lemma decompress_cblock block :
  match comp with
  | CNone => Ok (cblock comp block)
  | CZstd => zstd_decode_all (cblock comp block)
  end = Ok block.
Proof.
  pose proof (Hcomp block) as E. unfold compress_block in E. destruct comp.
  - by rewrite E.
  - by apply zstd_roundtrip.
Qed.

Lemma compression_from_to_u8 c : compression_from_u8 (compression_u8 c) = Ok c.
Proof. by destruct c. Qed.

(** Reading any bytes laid out as a block with its trailer. *)
Lemma read_block_raw pre cb cu c ck post f fs :
  rf_data f = pre ++ cb ++ ([cu] ++ to_le_bytes 4 ck) ++ post ->
  compression_from_u8 cu = Ok c -> u32_ok ck -> len cb <= isize_max -> fs_oracle fs = [] ->
  exists f', read_block (mkBlockHandle (len pre) (len cb)) (f, fs)
    = (if ck =? crc32c (cu :: cb)
       then match c with CNone => Ok cb | CZstd => zstd_decode_all cb end
       else Err (Corruption "SSTable block checksum mismatch"), (f', fs)) /\
    rf_data f' = rf_data f.
Proof.
  intros Hd Hcu Hck Hl Ho. set (tr := [cu] ++ to_le_bytes 4 ck) in *.
  assert (length tr = 5%nat) as Htr by (subst tr; rewrite length_app, length_to_le_bytes; done).
  unfold read_block. cbn [bh_offset bh_size].
  erewrite bind_ok by (unfold rf_seek, next_event; by rewrite Ho).
  assert ((isize_max <? len cb) = false) as Hi by (apply Z.ltb_ge; lia).
  erewrite bind_ok by (unfold vec_zeroed; by rewrite Hi).
  set (f1 := mkReadableFile (rf_data f) (len pre)).
  assert (rf_rest f1 = cb ++ tr ++ post) as Hr1.
  { unfold rf_rest. cbn. by rewrite Hd, to_nat_len, drop_app_length. }
  pose proof (len_nonneg cb). pose proof (len_nonneg post). pose proof (len_nonneg pre).
  erewrite bind_ok.
  2: { apply rf_read_exact_ok; [done|]. rewrite Hr1, !len_app. unfold len in *. lia. }
  rewrite Hr1, to_nat_len, take_app_length.
  assert (rf_rest (advance f1 (len cb)) = tr ++ post) as Hr2.
  { rewrite rf_rest_advance by (cbn [f1 rf_pos]; lia).
    by rewrite Hr1, to_nat_len, drop_app_length. }
  erewrite bind_ok.
  2: { apply rf_read_exact_ok; [done|]. rewrite Hr2, len_app. unfold len at 1. rewrite Htr.
       unfold BLOCK_TRAILER_SIZE. lia. }
  rewrite Hr2. change (Z.to_nat BLOCK_TRAILER_SIZE) with 5%nat.
  rewrite take_app_length' by done. change (nth 0 tr 0) with cu.
  erewrite bind_ok by (unfold lift; by rewrite Hcu).
  cbv zeta. change (drop 1 tr) with (to_le_bytes 4 ck).
  rewrite from_to_le_bytes by exact Hck.
  exists (advance (advance f1 (len cb)) BLOCK_TRAILER_SIZE). split; [|done].
  destruct (ck =? crc32c (cu :: cb)); cbn [negb]; by destruct c.
Qed.

(** A block read back from where it was written. *)
Lemma read_block_ok block pre post f fs :
  rf_data f = pre ++ stored comp (cblock comp block) ++ post ->
  len (cblock comp block) <= isize_max -> fs_oracle fs = [] ->
  exists f', read_block (mkBlockHandle (len pre) (len (cblock comp block))) (f, fs)
    = (Ok block, (f', fs)) /\ rf_data f' = rf_data f.
Proof.
  intros Hd Hl Ho. unfold stored in Hd. rewrite <- app_assoc in Hd.
  destruct (read_block_raw _ _ _ comp _ _ f fs Hd (compression_from_to_u8 _)
    (crc32c_u32 (X := X) _) Hl Ho) as (f' & E & Hf').
  rewrite Z.eqb_refl, decompress_cblock in E. by exists f'.
Qed.

(** The index of the layout and the blocks it points to. *)
Fixpoint blocks_at (off : Z) (chunks : list (list entry)) (o : Z) : option Block :=
  match chunks with
  | [] => None
  | c :: cs => if o =? off then Some (mkBlock c) else blocks_at (off + len (chunk_stored comp c)) cs o
  end.

Definition index_points (off : Z) (chunks : list (list entry)) (ie : IndexEntry)
    (c : list entry) : Prop :=
  exists pre post f l,
    data_area comp chunks = pre ++ chunk_stored comp c ++ post /\
    head c = Some f /\ last c = Some l /\
    ie = mkIndexEntry f.1 l.1
      (mkBlockHandle (off + len pre) (len (cblock comp (chunk_block c)))) /\
    blocks_at off chunks (off + len pre) = Some (mkBlock c).

Lemma chunk_index_points off chunks :
  Forall (fun c => c <> []) chunks ->
  Forall2 (index_points off chunks) (chunk_index comp off chunks) chunks.
Proof.
  intros Hne. revert off. induction Hne as [|c chunks Hc Hne IH]; intros off; [constructor|].
  cbn [chunk_index]. destruct (last_is_Some c) as [_ [l Hl]]; [done|].
  destruct c as [|f c0] eqn:Ec; [done|]. rewrite <- Ec in *.
  replace (head c) with (Some f) by by rewrite Ec. rewrite Hl. cbn [app].
  constructor.
  - exists [], (data_area comp chunks), f, l. split; [done|]. split; [by rewrite Ec|].
    split; [done|]. rewrite len_nil, Z.add_0_r. split; [done|]. cbn [blocks_at].
    by rewrite Z.eqb_refl.
  - eapply Forall2_impl; [apply IH|]. intros ie c' (pre & post & f' & l' & Hd & Hh & Hla & -> & Hb).
    exists (chunk_stored comp c ++ pre), post, f', l'. cbn [data_area map concat].
    fold (data_area comp chunks). rewrite Hd, <- app_assoc. split; [done|]. split; [done|].
    split; [done|]. rewrite len_app, Z.add_assoc. split; [done|]. cbn [blocks_at].
    assert (off + len (chunk_stored comp c) + len pre <> off) as Hneq.
    { pose proof (len_nonneg pre). unfold chunk_stored, len at 1. rewrite stored_length. lia. }
    apply Z.eqb_neq in Hneq. by rewrite Hneq.
Qed.
(** The states in which reads of tables succeed: no I/O failure, and a cache
    that holds the blocks the tables have ([tables] gives the files, and the
    blocks of each table number by their offset). *)
Record Tables : Type := mkTables {
  tb_fs : Fs;
  tb_blocks :> Z -> Z -> option Block
}.

Definition rw_inv (tables : Tables) (w : RW) : Prop :=
  (fs_oracle (rw_fs w) = [] /\ rw_fs w = tb_fs tables) /\
  forall t, cache_agrees t (tables t) (rw_cache w).

Context (tables : Tables).

Lemma rw_inv_insert t off b w :
  rw_inv tables w -> tables t off = Some b ->
  rw_inv tables (mkRW (rw_fs w) (block_cache_insert t off b (rw_cache w))).
Proof.
  intros [Ho Hc] Hb. split; [done|]. intros t'. cbn [rw_cache].
  destruct (decide (t' = t)) as [->|Hne];
    [by apply cache_insert_agrees | by apply cache_insert_agrees_other].
Qed.

Context (chunks : list (list entry)) (Hfits : table_fits chunks).

Lemma table_bytes_data : exists rest, table_bytes comp chunks = data_area comp chunks ++ rest.
Proof. unfold table_bytes. rewrite <- !app_assoc. eauto. Qed.

Lemma chunk_in_table pre c post :
  data_area comp chunks = pre ++ chunk_stored comp c ++ post ->
  len (cblock comp (chunk_block c)) <= isize_max /\
  exists post', table_bytes comp chunks
    = pre ++ stored comp (cblock comp (chunk_block c)) ++ post'.
Proof.
  intros Hd. destruct table_bytes_data as [rest Ht]. rewrite Hd, <- !app_assoc in Ht.
  split; [|by eauto]. pose proof (tf_size _ Hfits) as Hl. rewrite Ht in Hl.
  rewrite len_app in Hl. pose proof (len_nonneg pre).
  unfold chunk_stored, len in *. rewrite !length_app, stored_length in Hl. lia.
Qed.

Lemma chunk_decodes c :
  c ∈ chunks -> block_decode (chunk_block c) = Ok (mkBlock c).
Proof.
  intros Hc. pose proof (tf_entries _ Hfits) as He. pose proof (tf_count _ Hfits) as Hn.
  apply list_elem_of_split in Hc as (l1 & l2 & ->).
  rewrite concat_app in He, Hn. cbn [concat] in He, Hn.
  rewrite !Forall_app in He. rewrite !len_app in Hn.
  pose proof (len_nonneg (concat l1)). pose proof (len_nonneg (concat l2)).
  apply block_roundtrip_builder; [apply He | lia].
Qed.

(** Reading the block of an index entry, through the cache or not. *)
Lemma read_decoded_block_ok ie c t bc fill f w :
  index_points 0 chunks ie c -> c ∈ chunks -> rf_data f = table_bytes comp chunks ->
  rw_inv tables w -> (fill && bc = true -> tables t = blocks_at 0 chunks) ->
  exists f' w', read_decoded_block ie t bc fill (f, w) = (Ok (mkBlock c), (f', w')) /\
    rf_data f' = rf_data f /\ rw_inv tables w' /\ rw_fs w' = rw_fs w.
Proof.
  intros (pre & post & fst_e & l & Hd & _ & _ & -> & Hb) Hin Hf Hw Ht.
  rewrite Z.add_0_l in Hb. unfold read_decoded_block. cbn [ie_handle bh_offset].
  destruct (chunk_in_table _ _ _ Hd) as (Hl & post' & Htb). rewrite Htb in Hf.
  destruct Hw as [[Ho Hfs0] Hc].
  destruct (read_block_ok (chunk_block c) pre post' f (rw_fs w) Hf Hl Ho) as (f' & Er & Hf').
  assert (on_file (read_block (mkBlockHandle (0 + len pre) (len (cblock comp (chunk_block c)))))
    (f, w) = (Ok (chunk_block c), (f', w))) as Er'.
  { unfold on_file, zoom. cbn [fst snd]. rewrite Z.add_0_l, Er. cbn. by destruct w. }
  destruct (fill && bc) eqn:Ebc.
  - erewrite bind_ok by (unfold on_cache, block_cache_get; cbn [fst snd]; reflexivity).
    destruct (bc_blocks (rw_cache w) !! (t, 0 + len pre)) as [b|] eqn:Eg.
    + pose proof (Hc t _ _ Eg) as Hbt. rewrite Ht, Z.add_0_l, Hb in Hbt by done.
      injection Hbt as <-. eexists f, _. split; [reflexivity|]. split; [done|]. split; [|done].
      split; [done|]. exact Hc.
    + set (w1 := mkRW _ _).
      assert (on_file (read_block (mkBlockHandle (0 + len pre) (len (cblock comp (chunk_block c)))))
        (f, w1) = (Ok (chunk_block c), (f', w1))) as Er1.
      { unfold on_file, zoom. cbn [fst snd]. rewrite Z.add_0_l. cbn [rw_fs w1]. by rewrite Er. }
      cbv beta iota. erewrite bind_ok by exact Er1.
      erewrite bind_ok by (unfold lift; by rewrite chunk_decodes).
      erewrite bind_ok by (unfold on_cache; cbn [fst snd]; reflexivity).
      eexists f', _. split; [reflexivity|]. split; [done|]. split; [|done].
      apply (rw_inv_insert _ _ _ w1); [by split | by rewrite Ht, Z.add_0_l].
  - erewrite bind_ok by done. cbv beta iota. erewrite bind_ok by exact Er'.
    erewrite bind_ok by (unfold lift; by rewrite chunk_decodes).
    erewrite bind_ok by done. exists f', w. done.
Qed.
Lemma index_fits : Forall index_entry_fits (chunk_index comp 0 chunks).
Proof.
  apply Forall_lookup. intros i ie Hi.
  destruct (Forall2_lookup_l _ _ _ _ _ (chunk_index_points 0 chunks (tf_nonempty _ Hfits)) Hi)
    as (c & Hc & pre & post & f & l & Hd & Hh & Hl & -> & _).
  assert (Forall entry_fits c) as Hef.
  { pose proof (tf_entries _ Hfits) as He. apply list_elem_of_lookup_2 in Hc.
    apply list_elem_of_split in Hc as (l1 & l2 & E). rewrite E, concat_app in He.
    cbn [concat] in He. rewrite !Forall_app in He. apply He. }
  rewrite Forall_forall in Hef. rewrite Z.add_0_l.
  destruct (chunk_in_table _ _ _ Hd) as (Hsz & post' & Ht). split; [|split]; cbn.
  - apply Hef. rewrite head_lookup in Hh. by apply list_elem_of_lookup_2 in Hh.
  - apply Hef. rewrite last_lookup in Hl. by apply list_elem_of_lookup_2 in Hl.
  - pose proof (tf_size _ Hfits) as Htot. rewrite Ht, len_app in Htot.
    pose proof (len_nonneg (stored comp (cblock comp (chunk_block c)) ++ post')).
    pose proof (len_nonneg pre). pose proof (len_nonneg (cblock comp (chunk_block c))).
    unfold isize_max in *. split; cbn; unfold u64_ok; lia.
Qed.
Definition table_reader (path : string) : SSTableReader :=
  mkSSTableReader path (chunk_index comp 0 chunks) (table_properties (concat chunks))
    (filter_decode (tp_filter (table_properties (concat chunks)))).

Lemma table_properties_fit : properties_fit (table_properties (concat chunks)).
Proof.
  pose proof (tf_entries _ Hfits) as He. rewrite Forall_forall in He.
  pose proof (tf_count _ Hfits) as Hn. pose proof (len_nonneg (concat chunks)).
  split; [unfold u64_ok; cbn; lia|]. split; [|split].
  - cbn. destruct (head (concat chunks)) as [e|] eqn:E; [|done]. cbn. apply He.
    rewrite head_lookup in E. by apply list_elem_of_lookup_2 in E.
  - cbn. destruct (last (concat chunks)) as [e|] eqn:E; [|done]. cbn. apply He.
    rewrite last_lookup in E. by apply list_elem_of_lookup_2 in E.
  - cbn. apply filter_from_keys_len. unfold len in *. rewrite length_map. lia.
Qed.

(** The layout of a table file: data, the two metadata blocks, the footer. *)
Let data := data_area comp chunks.
Let props := properties_encode (table_properties (concat chunks)).
Let index := encode_index_entries (chunk_index comp 0 chunks).
Let hp := mkBlockHandle (len data) (len (cblock comp props)).
Let hi := mkBlockHandle (len (data ++ stored comp (cblock comp props))) (len (cblock comp index)).
Let body := (data ++ stored comp (cblock comp props)) ++ stored comp (cblock comp index).

Lemma table_layout : table_bytes comp chunks = body ++ encode_footer hp hi.
Proof. done. Qed.

Lemma table_len : len (table_bytes comp chunks) = len body + FOOTER_SIZE.
Proof. rewrite table_layout, len_app. unfold len at 2. by rewrite length_encode_footer. Qed.

Lemma body_len :
  len body = len data + (len (cblock comp props) + 5) + (len (cblock comp index) + 5).
Proof. unfold body. rewrite !len_app. unfold len. rewrite !stored_length. lia. Qed.

Lemma handles_fit :
  len (cblock comp props) <= isize_max /\ len (cblock comp index) <= isize_max /\
  decode_footer (encode_footer hp hi) = Ok (hp, hi).
Proof.
  pose proof table_len as Ht. pose proof body_len as Hb. pose proof (tf_size _ Hfits) as Hsz.
  pose proof (len_nonneg data). pose proof (len_nonneg (cblock comp props)).
  pose proof (len_nonneg (cblock comp index)). unfold FOOTER_SIZE, isize_max in *.
  assert (len (stored comp (cblock comp props)) = len (cblock comp props) + 5) as Hst
    by (unfold len; rewrite stored_length; lia).
  split; [lia|]. split; [lia|].
  apply decode_encode_footer; split; unfold u64_ok, hp, hi; cbn [bh_offset bh_size];
    rewrite ?len_app, ?Hst; lia.
Qed.

Lemma index_decodes : decode_index_entries index = Ok (chunk_index comp 0 chunks).
Proof.
  apply decode_encode_index_entries; [apply index_fits|].
  pose proof (tf_count _ Hfits). pose proof (tf_nonempty _ Hfits) as Hne.
  pose proof (Forall2_length _ _ _ (chunk_index_points 0 chunks Hne)).
  pose proof (concat_nonempty_length _ Hne). unfold len in *. lia.
Qed.

Lemma sst_open_ok path fs :
  fs_files fs !! path = Some (table_bytes comp chunks) -> fs_oracle fs = [] ->
  sst_open_with_env path fs = (Ok (table_reader path), fs).
Proof.
  intros Hfile Ho. unfold sst_open_with_env. destruct handles_fit as (Hlp & Hli & Ef).
  erewrite bind_ok.
  2: { unfold open_readable. rewrite fallible_ok by done. rewrite Hfile. reflexivity. }
  unfold with_local. set (f0 := mkReadableFile (table_bytes comp chunks) 0).
  erewrite bind_ok by (unfold rf_len, next_event; by rewrite Ho). cbn [rf_data f0].
  assert ((len (table_bytes comp chunks) <? FOOTER_SIZE) = false) as ->
    by (apply Z.ltb_ge; rewrite table_len; pose proof (len_nonneg body); lia).
  erewrite bind_ok by (unfold rf_seek, next_event; by rewrite Ho). cbn [rf_data f0].
  rewrite table_len, Z.add_simpl_r. set (f1 := mkReadableFile _ (len body)).
  assert (rf_rest f1 = encode_footer hp hi) as Hr1.
  { unfold rf_rest. cbn. by rewrite table_layout, to_nat_len, drop_app_length. }
  erewrite bind_ok.
  2: { apply rf_read_exact_ok; [done|]. rewrite Hr1. unfold len. by rewrite length_encode_footer. }
  rewrite Hr1, take_ge by by rewrite length_encode_footer.
  erewrite bind_ok by (unfold lift; by rewrite Ef). cbn [fst snd].
  destruct (read_block_ok props data (stored comp (cblock comp index) ++ encode_footer hp hi)
    (advance f1 40) fs) as (f2 & E2 & Hf2); [|done|done|].
  { cbn [rf_data advance f1]. rewrite table_layout. unfold body. by rewrite <- !app_assoc. }
  erewrite bind_ok by exact E2.
  erewrite bind_ok by (unfold lift, props; by rewrite properties_decode_encode by apply table_properties_fit).
  destruct (read_block_ok index (data ++ stored comp (cblock comp props)) (encode_footer hp hi)
    f2 fs) as (f3 & E3 & Hf3); [|done|done|].
  { rewrite Hf2. cbn [rf_data advance f1]. rewrite table_layout. unfold body. by rewrite <- !app_assoc. }
  erewrite bind_ok by exact E3. erewrite bind_ok by (unfold lift; by rewrite index_decodes). done.
Qed.

(** *** All entries *)

Definition points_to (ies : list IndexEntry) (cs : list (list entry)) : Prop :=
  Forall2 (index_points 0 chunks) ies cs /\ Forall (fun c => c ∈ chunks) cs.

Lemma index_points_to : points_to (chunk_index comp 0 chunks) chunks.
Proof.
  split; [apply chunk_index_points, Hfits|]. by apply Forall_forall.
Qed.

Lemma points_to_cons ie ies c cs :
  points_to (ie :: ies) (c :: cs) -> index_points 0 chunks ie c /\ c ∈ chunks /\ points_to ies cs.
Proof.
  intros [H1 H2]. apply Forall2_cons in H1 as [? ?]. apply Forall_cons in H2 as [? ?]. done.
Qed.

Lemma entries_loop_ok t bc fill ies cs f w acc :
  points_to ies cs -> rf_data f = table_bytes comp chunks -> rw_inv tables w ->
  (fill && bc = true -> tables t = blocks_at 0 chunks) ->
  exists f' w', for_each ies
      (fun index entries =>
         block ← read_decoded_block index t bc fill; mret (entries ++ block_entries block))
      acc (f, w) = (Ok (acc ++ concat cs), (f', w')) /\
    rw_inv tables w' /\ rw_fs w' = rw_fs w.
Proof.
  intros Hp Hf Hw Ht. revert ies f w acc Hp Hf Hw.
  induction cs as [|c cs IH]; intros ies f w acc Hp Hf Hw.
  { destruct Hp as [Hp _]. inversion Hp; subst. exists f, w. cbn. by rewrite app_nil_r. }
  pose proof Hp as [Hp' _]. inversion Hp' as [|ie ? ies' ?]; subst. clear Hp'.
  apply points_to_cons in Hp as (Hie & Hc & Hp). cbn [for_each].
  destruct (read_decoded_block_ok _ _ t bc fill f w Hie Hc Hf Hw Ht) as (f1 & w1 & E & Hf1 & Hw1 & Hfs).
  erewrite bind_ok by (erewrite bind_ok by exact E; reflexivity).
  destruct (IH ies' f1 w1 (acc ++ c) Hp) as (f2 & w2 & E2 & Hw2 & Hfs2); [congruence | done |].
  exists f2, w2. cbn [block_entries concat]. rewrite E2, app_assoc. split; [done|].
  split; [done | congruence].
Qed.

Lemma on_fs_open_ok path w :
  fs_files (rw_fs w) !! path = Some (table_bytes comp chunks) -> rw_inv tables w ->
  on_fs (open_readable path) w = (Ok (mkReadableFile (table_bytes comp chunks) 0), w).
Proof.
  intros Hfile [[Ho _] _]. unfold on_fs, zoom, open_readable.
  rewrite fallible_ok, Hfile by done. by destruct w.
Qed.

Lemma entries_with_cache_ok path t bc fill w :
  fs_files (rw_fs w) !! path = Some (table_bytes comp chunks) -> rw_inv tables w ->
  (fill && bc = true -> tables t = blocks_at 0 chunks) ->
  exists w', entries_with_cache (table_reader path) t bc fill w = (Ok (concat chunks), w') /\
    rw_inv tables w' /\ rw_fs w' = rw_fs w.
Proof.
  intros Hfile Hw Ht. unfold entries_with_cache. erewrite bind_ok by by apply on_fs_open_ok.
  unfold with_local.
  destruct (entries_loop_ok t bc fill _ _ (mkReadableFile (table_bytes comp chunks) 0) w []
    index_points_to) as (f' & w' & E & H'); [done..|].
  exists w'. cbn [table_reader sr_index]. by rewrite E.
Qed.

(** *** Point reads *)

Context (Hsorted : sorted_entries (concat chunks)).

Lemma find_visible_newest key s es :
  sorted_entries es -> find_visible key s es = newest key s es.
Proof.
  intros Hs. unfold newest. rewrite newest_entry_sorted by done. unfold first_visible.
  clear Hs. induction es as [|[k v] es IH]; [done|].
  change (find_visible key s ((k, v) :: es))
    with (if visible key s (k, v) then Some v else find_visible key s es).
  destruct (visible key s (k, v)) eqn:E.
  - by rewrite filter_cons_True.
  - by rewrite filter_cons_False by congruence.
Qed.

(** An index entry whose range does not cover the key has no version of it. *)
Lemma index_skip ie c key e :
  index_points 0 chunks ie c -> sorted_entries c -> e ∈ c ->
  index_may_contain_user_key ie key = false -> user_key e.1 <> key.
Proof.
  intros (pre & post & f & l & Hd & Hh & Hl & -> & _) Hs He. unfold index_may_contain_user_key.
  cbn [ie_first_key ie_last_key]. intros Hm <-. apply andb_false_iff in Hm.
  assert (ord_le ikey_cmp f.1 e.1 /\ ord_le ikey_cmp e.1 l.1) as [H1 H2].
  { split.
    - destruct c as [|f' c]; [done|]. injection Hh as ->.
      apply StronglySorted_inv in Hs as [_ Hf]. rewrite Forall_forall in Hf.
      apply elem_of_cons in He as [-> | He]; [by apply ord_le_refl; apply _ | by apply Hf].
    - apply last_Some in Hl as [c' ->]. apply StronglySorted_app in Hs as (Hlt & _ & _).
      apply elem_of_app in He as [He | ->%list_elem_of_singleton].
      + apply Hlt; [done | by left].
      + by apply ord_le_refl; apply _. }
  apply ikey_le_user_key in H1, H2. apply leb_le in H1, H2.
  destruct Hm as [Hm | Hm]; congruence.
Qed.

Lemma get_blocks_ok key s t bc fill ies cs f w :
  points_to ies cs -> sorted_entries (concat cs) ->
  rf_data f = table_bytes comp chunks -> rw_inv tables w ->
  (fill && bc = true -> tables t = blocks_at 0 chunks) ->
  exists f' w', get_blocks key s t bc fill ies (f, w) = (Ok (newest key s (concat cs)), (f', w')) /\
    rw_inv tables w' /\ rw_fs w' = rw_fs w.
Proof.
  intros Hp Hs Hf Hw Ht. revert ies f w Hp Hs Hf Hw.
  induction cs as [|c cs IH]; intros ies f w Hp Hs Hf Hw.
  { destruct Hp as [Hp _]. inversion Hp; subst. by exists f, w. }
  pose proof Hp as [Hp' _]. inversion Hp' as [|ie ? ies' ?]; subst. clear Hp'.
  apply points_to_cons in Hp as (Hie & Hc & Hp). cbn [get_blocks concat] in *.
  apply StronglySorted_app in Hs as (Hlt & Hs1 & Hs2).
  assert (newer_than key c (concat cs)) as Hn by (intros e e' He He' _ _; by apply Hlt).
  rewrite (newest_app _ _ _ _ Hn).
  destruct (index_may_contain_user_key ie key) eqn:Em; cbn [negb].
  - destruct (read_decoded_block_ok _ _ t bc fill f w Hie Hc Hf Hw Ht) as (f1 & w1 & E & Hf1 & Hw1 & Hfs).
    erewrite bind_ok by exact E. cbn [block_entries]. rewrite find_visible_newest by done.
    destruct (newest key s c) as [v|]; [by exists f1, w1|].
    destruct (IH ies' f1 w1 Hp Hs2) as (f2 & w2 & E2 & Hw2 & Hfs2); [congruence | done |].
    exists f2, w2. rewrite E2. split; [done|]. split; [done | congruence].
  - assert (newest key s c = None) as ->; [|by apply IH].
    unfold newest. rewrite (proj2 (newest_entry_none key s c)); [done|].
    intros e He. destruct (visible key s e) eqn:Ev; [|done]. apply visible_spec in Ev as [Hk _].
    by destruct (index_skip _ _ key e Hie Hs1 He Em).
Qed.

Lemma get_with_cache_ok path key s t bc fill w :
  fs_files (rw_fs w) !! path = Some (table_bytes comp chunks) -> rw_inv tables w ->
  (fill && bc = true -> tables t = blocks_at 0 chunks) ->
  exists w', get_with_cache (table_reader path) key s t bc fill w
    = (Ok (newest key s (concat chunks)), w') /\ rw_inv tables w' /\ rw_fs w' = rw_fs w.
Proof.
  intros Hfile Hw Ht. unfold get_with_cache, might_contain. cbn [table_reader sr_filter].
  set (keys := map (fun e : entry => user_key e.1) (concat chunks)).
  assert (bloom_bit_len keys < 2 ^ 32) as Hbl.
  { pose proof (tf_count _ Hfits). unfold bloom_bit_len, DEFAULT_BITS_PER_KEY, keys, len in *.
    rewrite length_map. lia. }
  destruct (built_filter_total keys key Hbl) as [b Eb]. cbn [table_properties tp_filter].
  fold keys. erewrite bind_ok by (unfold lift; by rewrite Eb). destruct b; cbn [negb].
  - erewrite bind_ok by by apply on_fs_open_ok. unfold with_local.
    destruct (get_blocks_ok key s t bc fill _ _ (mkReadableFile (table_bytes comp chunks) 0) w
      index_points_to Hsorted) as (f' & w' & E & H'); [done..|].
    exists w'. cbn [table_reader sr_index]. by rewrite E.
  - exists w. split; [|done].
    assert (newest key s (concat chunks) = None) as ->; [|done].
    unfold newest. rewrite (proj2 (newest_entry_none key s _)); [done|].
    intros e He. destruct (visible key s e) eqn:Ev; [|done]. apply visible_spec in Ev as [Hk _].
    assert (key ∈ keys) as Hin by (apply list_elem_of_fmap; by exists e).
    apply (bloom_member keys key Hin) in Hbl. congruence.
Qed.
(** *** The storage iterator *)

Definition si_table (i : SSTableStorageIterator) : Prop :=
  rf_data (si_file i) = table_bytes comp chunks /\ si_index i = chunk_index comp 0 chunks /\
  (si_fill_cache i && si_block_cache i = true ->
   tables (si_table_number i) = blocks_at 0 chunks).

Definition si_at (i : SSTableStorageIterator) (rest : list entry) : Prop :=
  match si_current_block i with
  | None => rest = [] /\ (length chunks <= si_block_index i)%nat
  | Some b => exists c, chunks !! si_block_index i = Some c /\ b = mkBlock c /\
      (si_entry_index i < length c)%nat /\
      rest = drop (si_entry_index i) c ++ concat (drop (S (si_block_index i)) chunks)
  end.

Lemma load_block_at_ok j i w :
  si_table i -> rw_inv tables w ->
  exists i' w', load_block_at j (i, w) = (Ok tt, (i', w')) /\ si_table i' /\ rw_inv tables w' /\
    si_block_index i' = j /\ si_entry_index i' = 0%nat /\
    si_current_block i' = mkBlock <$> chunks !! j.
Proof.
  intros (Hf & Hi & Ht) Hw. unfold load_block_at, modify_si. rewrite bind_modify, bind_get_state.
  cbn [fst snd]. set (i0 := si_with_position j None 0 i).
  change (si_index i0) with (si_index i). rewrite Hi.
  pose proof index_points_to as [Hp _].
  destruct (drop j (chunk_index comp 0 chunks)) as [|ie ies] eqn:Ed.
  - eexists _, w. split; [reflexivity|]. cbn. split; [done|]. split; [done|]. split; [done|].
    split; [done|]. rewrite lookup_ge_None_2; [done|].
    rewrite <- (Forall2_length _ _ _ Hp). apply (f_equal length) in Ed.
    rewrite length_drop in Ed. simpl in Ed. lia.
  - apply drop_cons_lookup in Ed.
    destruct (Forall2_lookup_l _ _ _ _ _ Hp Ed) as (c & Hc & Hie).
    cbn [load_blocks]. rewrite bind_get_state. cbn [fst].
    destruct (read_decoded_block_ok ie c (si_table_number i0) (si_block_cache i0)
      (si_fill_cache i0) (si_file i0) w Hie) as (f' & w' & E & Hf' & Hw' & _);
      [by apply list_elem_of_lookup_2 in Hc | done | done | done |].
    erewrite bind_ok by (unfold on_si_file, zoom; cbn [fst snd]; rewrite E; reflexivity).
    cbn [block_entries]. pose proof (tf_nonempty _ Hfits) as Hne. rewrite Forall_lookup in Hne.
    destruct c as [|e c]; [by destruct (Hne _ _ Hc)|].
    eexists _, w'. split; [reflexivity|]. cbn. split; [by unfold si_table; cbn; rewrite Hf'|]. split; [done|].
    split; [done|]. split; [done|]. by rewrite Hc.
Qed.

Lemma si_at_loaded i j :
  si_block_index i = j -> si_entry_index i = 0%nat ->
  si_current_block i = mkBlock <$> chunks !! j -> si_at i (concat (drop j chunks)).
Proof.
  intros Hj He Hc. unfold si_at. rewrite Hc, He, Hj.
  destruct (chunks !! j) as [c|] eqn:El; cbn.
  - exists c. split; [done|]. split; [done|]. pose proof (tf_nonempty _ Hfits) as Hne.
    rewrite Forall_lookup in Hne. specialize (Hne _ _ El). split; [destruct c; [done | simpl; lia]|].
    by rewrite (drop_S _ _ _ El).
  - apply lookup_ge_None in El. by rewrite drop_ge.
Qed.

Lemma si_valid_ok i rest :
  si_at i rest -> si_is_valid i = match rest with [] => false | _ => true end.
Proof.
  unfold si_at, si_is_valid. destruct (si_current_block i) as [b|]; [|by intros [-> _]].
  intros (c & _ & -> & Hlt & ->). cbn. rewrite bool_decide_eq_true_2 by done.
  destruct (drop (si_entry_index i) c) eqn:E; [|done].
  apply (f_equal length) in E. rewrite length_drop in E. simpl in E. lia.
Qed.

Lemma si_entry_ok i e rest : si_at i (e :: rest) -> si_entry i = Ok e.
Proof.
  unfold si_at, si_entry, index_vec. destruct (si_current_block i) as [b|]; [|by intros [? _]].
  intros (c & _ & -> & Hlt & Hr). cbn.
  destruct (drop (si_entry_index i) c) as [|e' r] eqn:E.
  - apply (f_equal length) in E. rewrite length_drop in E. simpl in E. lia.
  - injection Hr as <- _. by rewrite (drop_cons_lookup _ _ _ _ E).
Qed.

Lemma si_next_ok i rest w :
  si_table i -> si_at i rest -> rw_inv tables w ->
  exists i' w', si_next (i, w) = (Ok tt, (i', w')) /\ si_table i' /\ si_at i' (tail rest) /\
    rw_inv tables w'.
Proof.
  intros Ht Ha Hw. unfold si_next. rewrite bind_get_state. cbn [fst].
  rewrite (si_valid_ok _ _ Ha). destruct rest as [|e rest]; cbn [negb].
  { by exists i, w. }
  unfold modify_si. rewrite bind_modify, bind_get_state. cbn [fst snd].
  unfold si_at in Ha. destruct (si_current_block i) as [b|] eqn:Eb; [|by destruct Ha].
  destruct Ha as (c & Hc & -> & Hlt & Hr).
  set (i1 := si_with_position (si_block_index i) (Some (mkBlock c)) (S (si_entry_index i)) i).
  assert (tail (e :: rest) = drop (S (si_entry_index i)) c
    ++ concat (drop (S (si_block_index i)) chunks)) as ->.
  { rewrite Hr. replace (S (si_entry_index i)) with (si_entry_index i + 1)%nat by lia.
    rewrite <- drop_drop. destruct (drop (si_entry_index i) c) eqn:E; [|done].
    apply (f_equal length) in E. rewrite length_drop in E. simpl in E. lia. }
  unfold si_is_valid. cbn [i1 si_with_position si_current_block si_entry_index block_entries].
  case_bool_decide as Hv; cbn [negb].
  - exists i1, w. split; [done|]. split; [done|]. split; [|done]. by exists c.
  - unfold advance_to_next_block. rewrite bind_get_state. cbn [fst].
    destruct (load_block_at_ok (S (si_block_index i1)) i1 w) as (i' & w' & E & Ht' & Hw' & H1 & H2 & H3);
      [done..|].
    exists i', w'. split; [done|]. split; [done|]. split; [|done].
    rewrite drop_ge by lia. by apply si_at_loaded.
Qed.

(** Where [seek] lands: what the index says of the blocks. *)
Lemma seek_range key ies cs :
  Forall2 (index_points 0 chunks) ies cs -> sorted_entries (concat cs) ->
  let bi := partition_point (fun e => ltb ikey_cmp (ie_last_key e) key) ies in
  match cs !! bi with
  | None => bt_range_from ikey_cmp key (concat cs) = []
  | Some c => bt_range_from ikey_cmp key (concat cs)
      = bt_range_from ikey_cmp key c ++ concat (drop (S bi) cs) /\
      bt_range_from ikey_cmp key c <> [] /\ sorted_entries c
  end.
Proof.
  intros Hp. induction Hp as [|ie c ies cs Hie Hp IH]; intros Hs; [done|].
  cbn [concat] in Hs. apply StronglySorted_app in Hs as (Hlt & Hs1 & Hs2).
  destruct Hie as (pre & post & f & l & _ & _ & Hl & -> & _).
  apply last_Some in Hl as [c' ->]. cbn [partition_point ie_last_key concat].
  unfold bt_range_from. rewrite (filter_app _ (c' ++ [l])). destruct (ltb ikey_cmp l.1 key) eqn:El.
  - cbn [lookup list_lookup]. specialize (IH Hs2). cbv zeta in IH.
    assert (filter (fun e : entry => leb ikey_cmp key e.1 = true) (c' ++ [l]) = []) as Hz.
    { apply filter_none, Forall_forall. intros e He Hle. apply leb_le in Hle.
      apply ltb_lt in El. apply StronglySorted_app in Hs1 as (Hlt' & _ & _).
      assert (ord_le ikey_cmp e.1 l.1) as Hel.
      { apply elem_of_app in He as [He | ->%list_elem_of_singleton];
          [by apply Hlt'; [done | left] | by apply ord_le_refl; apply _]. }
      apply (ord_le_lt_trans ikey_cmp _ _ _ Hel) in El. apply Hle. by apply ord_gt_lt; [apply _|]. }
    rewrite Hz. exact IH.
  - cbn [lookup list_lookup drop]. rewrite drop_0.
    assert (ord_le ikey_cmp key l.1) as Hkl.
    { rewrite ltb_leb in El by apply _. apply leb_le. by destruct (leb ikey_cmp key l.1). }
    split; [|split; [|done]].
    + f_equal. apply filter_all, Forall_forall. intros e He. apply leb_le.
      apply (ord_le_trans ikey_cmp _ l.1); [done|]. apply Hlt; [|done]. apply elem_of_app. right. by left.
    + rewrite filter_app, filter_cons_True by by apply leb_le.
      by destruct (filter _ c').
Qed.

Lemma si_seek_ok key i w :
  si_table i -> rw_inv tables w ->
  exists i' w', si_seek key (i, w) = (Ok tt, (i', w')) /\ si_table i' /\
    si_at i' (bt_range_from ikey_cmp key (concat chunks)) /\ rw_inv tables w'.
Proof.
  intros Ht Hw. unfold si_seek. rewrite bind_get_state. cbn [fst]. cbv zeta.
  pose proof Ht as (_ & Hi & _). rewrite Hi.
  pose proof index_points_to as [Hp _].
  pose proof (seek_range key _ _ Hp Hsorted) as Hr. cbv zeta in Hr.
  rewrite Nat.min_l by apply partition_point_le.
  set (bi := partition_point _ _) in *.
  destruct (load_block_at_ok bi i w Ht Hw) as (i' & w' & E & Ht' & Hw' & H1 & H2 & H3).
  erewrite bind_ok by exact E. rewrite bind_get_state. cbn [fst]. rewrite H3.
  destruct (chunks !! bi) as [c|] eqn:Ec; cbn [fmap option_fmap option_map block_entries].
  - destruct Hr as (Hr & Hne & Hsc). unfold modify_si. rewrite bind_modify. cbn [fst snd].
    set (ei := partition_point _ c).
    pose proof (drop_partition_point ikey_cmp key c Hsc) as Hd. fold ei in Hd.
    assert (ei < length c)%nat as Hei.
    { destruct (decide (ei < length c)%nat); [done|]. rewrite drop_ge in Hd by lia. congruence. }
    rewrite bool_decide_eq_false_2 by lia.
    eexists _, w'. split; [reflexivity|]. split; [done|]. split; [|done].
    unfold si_at. cbn. rewrite H3, H1. cbn. exists c. rewrite Ec, Hr, <- Hd. done.
  - exists i', w'. split; [done|]. split; [done|]. split; [|done].
    unfold si_at. rewrite H3, Hr, H1. cbn. split; [done|]. by apply lookup_ge_None.
Qed.
End reader_ok.

(** ** The storage iterator meets the contract of [Iterators] *)

Section table_iterator.
Context `{X : Externals} `{HX : !ExternalsOk X} `{H : HashOrder}.
Context (tables : Tables).

(** The iterator runs over some well-formed sorted table. *)
Definition iterates (i : SSTableStorageIterator) (at_entries : list (list entry) -> Prop) : Prop :=
  exists comp chunks, compression_succeeds comp /\ table_fits comp chunks /\
    sorted_entries (concat chunks) /\ si_table comp tables chunks i /\ at_entries chunks.

#[export] Instance table_model : IteratorModel SSTableStorageIterator := {|
  it_fresh i all := iterates i (fun chunks => si_at chunks i all /\ all = concat chunks);
  it_rep i rest := iterates i (fun chunks => si_at chunks i rest)
|}.

#[export] Instance table_iterator_ok :
  StorageIteratorOk SSTableStorageIterator RW (rw_inv tables).
Proof.
  split.
  - intros i all (comp & chunks & Hc & Hf & Hs & Ht & Ha & _). by exists comp, chunks.
  - intros i rest (comp & chunks & _ & _ & _ & _ & Ha). by apply (si_valid_ok chunks).
  - intros i e rest (comp & chunks & _ & _ & _ & _ & Ha). simpl.
    by rewrite (si_entry_ok chunks i e rest).
  - intros i e rest (comp & chunks & _ & _ & _ & _ & Ha). simpl.
    by rewrite (si_entry_ok chunks i e rest).
  - intros i rest w (comp & chunks & Hc & Hf & Hs & Ht & Ha) Hw.
    destruct (si_next_ok comp Hc tables chunks Hf i rest w Ht Ha Hw) as (i' & w' & E & Ht' & Ha' & Hw').
    exists i', w'. split; [done|]. split; [|done]. by exists comp, chunks.
  - intros i all w k (comp & chunks & Hc & Hf & Hs & Ht & _ & ->) _ Hw.
    destruct (si_seek_ok comp Hc tables chunks Hf Hs k i w Ht Hw) as (i' & w' & E & Ht' & Ha' & Hw').
    exists i', w'. split; [done|]. split; [|done]. by exists comp, chunks.
Qed.

Lemma storage_iter_ok comp chunks path t bc fill w :
  compression_succeeds comp -> table_fits comp chunks -> sorted_entries (concat chunks) ->
  fs_files (rw_fs w) !! path = Some (table_bytes comp chunks) -> rw_inv tables w ->
  (fill && bc = true -> tables t = blocks_at comp 0 chunks) ->
  exists i w', storage_iter (table_reader comp chunks path) t bc fill w = (Ok i, w') /\
    it_fresh i (concat chunks) /\ rw_inv tables w'.
Proof.
  intros Hc Hf Hs Hfile Hw Ht. unfold storage_iter.
  erewrite bind_ok by by eapply on_fs_open_ok. unfold with_local. cbv zeta.
  set (i0 := mkSSTableStorageIterator _ _ _ _ _ _ _ _).
  destruct (load_block_at_ok comp Hc tables chunks Hf 0 i0 w) as (i & w' & E & Ht' & Hw' & H1 & H2 & H3);
    [done..|].
  erewrite bind_ok by exact E. rewrite bind_get_state. exists i, w'. split; [done|].
  split; [|done]. exists comp, chunks. split; [done|]. split; [done|]. split; [done|].
  split; [done|]. split; [|done].
  rewrite <- (drop_0 chunks) at 2. by eapply si_at_loaded.
Qed.
End table_iterator.

(** ** Properties *)

Section properties.
Context `{X : Externals} `{HX : !ExternalsOk X} `{H : HashOrder}.

(** What the cache holds already, and [blocks] for table [t]. *)
Definition cache_tables (t : Z) (blocks : Z -> option Block) (w : RW) : Tables :=
  mkTables (rw_fs w) (fun t' off =>
    if decide (t' = t) then blocks off else bc_blocks (rw_cache w) !! (t', off)).

Lemma cache_tables_inv t blocks w :
  fs_oracle (rw_fs w) = [] -> cache_agrees t blocks (rw_cache w) ->
  rw_inv (cache_tables t blocks w) w.
Proof.
  intros Ho Hc. split; [done|]. intros t' off b Hb. unfold cache_tables. cbn [tb_blocks].
  destruct (decide (t' = t)) as [->|]; [by apply Hc | done].
Qed.

Lemma cache_tables_at t blocks w : (cache_tables t blocks w : Z -> Z -> option Block) t = blocks.
Proof. unfold cache_tables. cbn [tb_blocks]. by destruct (decide (t = t)). Qed.

(** A table as [build_table] leaves it, with the bounds that the format's
    fields impose. *)
Definition built (comp : CompressionType) (path : string) (block_size : usize)
    (es : list entry) (fs fs' : Fs) : Prop :=
  compression_succeeds comp /\ fs_oracle fs = [] /\ Forall entry_fits es /\
  10 * len es < 2 ^ 32 /\ build_table path block_size comp es fs = (Ok tt, fs') /\
  len (default [] (fs_files fs' !! path)) <= isize_max.

Lemma built_chunks comp path block_size es fs fs' :
  built comp path block_size es fs fs' ->
  exists chunks, concat chunks = es /\ table_fits comp chunks /\
    fs' = set_files (<[path := table_bytes comp chunks]>) fs.
Proof.
  intros (Hc & Ho & He & Hn & Hb & Hl).
  destruct (build_table_ok comp Hc path block_size es fs Ho) as (E & Hch & Hne).
  rewrite E in Hb. injection Hb as <-. exists (chunk_entries block_size es). split; [done|]. split; [|done].
  simpl in Hl. rewrite lookup_insert_eq in Hl. by constructor; rewrite ?Hch.
Qed.

(** C23: a table built from entries (in any order) creates one
    file and changes no other, and opening it gives a reader with exactly
    these entries in this order and with their first and last keys. *)
Theorem table_roundtrip comp path block_size es fs fs' :
  built comp path block_size es fs fs' ->
  (forall p, p <> path -> fs_files fs' !! p = fs_files fs !! p) /\
  exists reader, sst_open_with_env path fs' = (Ok reader, fs') /\
    smallest_key reader = fst <$> head es /\ largest_key reader = fst <$> last es /\
    forall w, rw_fs w = fs' ->
      exists w', sst_entries reader w = (Ok es, w') /\ rw_fs w' = fs'.
Proof.
  intros Hb. pose proof Hb as (Hc & Ho & _).
  apply built_chunks in Hb as (chunks & <- & Hf & ->).
  split; [intros p Hp; simpl; by rewrite lookup_insert_ne|].
  assert (fs_files (set_files (<[path:=table_bytes comp chunks]>) fs) !! path
    = Some (table_bytes comp chunks)) as Hfile by apply lookup_insert_eq.
  exists (table_reader comp chunks path).
  split; [by apply sst_open_ok|]. split; [done|]. split; [done|].
  intros w Hw. rewrite <- Hw in Hfile.
  destruct (entries_with_cache_ok comp Hc
    (cache_tables 0 (fun off => bc_blocks (rw_cache w) !! (0, off)) w) chunks Hf
    path 0 false true w Hfile) as (w' & E & _ & Hfs); [|done|].
  - apply cache_tables_inv; [by rewrite Hw | by intros off b].
  - exists w'. split; [done | congruence].
Qed.

(** C33: a data, properties or index block whose stored bytes were
    changed so that their checksum differs is reported as corruption when it is
    read, whatever else the file holds, and never decoded. *)
Theorem corrupt_block_detected comp block pre cblock' post f fs :
  len cblock' = len (cblock comp block) -> len (cblock comp block) <= isize_max ->
  rf_data f = pre ++ (cblock' ++ drop (length cblock') (stored comp (cblock comp block))) ++ post ->
  crc32c (compression_u8 comp :: cblock') <> crc32c (compression_u8 comp :: cblock comp block) ->
  fs_oracle fs = [] ->
  (read_block (mkBlockHandle (len pre) (len (cblock comp block))) (f, fs)).1
  = Err (Corruption "SSTable block checksum mismatch").
Proof.
  intros Hlen Hl Hd Hne Ho.
  assert (length cblock' = length (cblock comp block)) as Hlen' by (unfold len in Hlen; lia).
  unfold stored in Hd. rewrite Hlen', drop_app_length, <- app_assoc in Hd.
  rewrite <- Hlen in Hl |- *.
  destruct (read_block_raw _ _ _ comp _ _ f fs Hd (compression_from_to_u8 _)
    (crc32c_u32 (X := X) _) Hl Ho) as (f' & E & _).
  rewrite E. cbn [fst]. apply not_eq_sym, Z.eqb_neq in Hne. by rewrite Hne.
Qed.

(** C22: a point read of a sorted table returns the newest version of
    the key visible at the read sequence, or nothing when there is none, with
    and without the block cache: for any cache contents that agree with the
    table's blocks the result is the same, and the cache still agrees after
    the read. *)
Theorem table_get_newest comp path block_size es fs fs' :
  built comp path block_size es fs fs' -> sorted_entries es ->
  exists reader blocks, sst_open_with_env path fs' = (Ok reader, fs') /\
    forall w t block_cache fill_cache key read_seq,
      rw_fs w = fs' -> cache_agrees t blocks (rw_cache w) ->
      exists w', get_with_cache reader key read_seq t block_cache fill_cache w
          = (Ok (newest key read_seq es), w') /\
        rw_fs w' = fs' /\ cache_agrees t blocks (rw_cache w').
Proof.
  intros Hb Hs. pose proof Hb as (Hc & Ho & _).
  apply built_chunks in Hb as (chunks & <- & Hf & ->).
  assert (fs_files (set_files (<[path:=table_bytes comp chunks]>) fs) !! path
    = Some (table_bytes comp chunks)) as Hfile by apply lookup_insert_eq.
  exists (table_reader comp chunks path), (blocks_at comp 0 chunks).
  split; [by apply sst_open_ok|].
  intros w t bc fill key s Hw Ha. rewrite <- Hw in Hfile.
  set (tables := cache_tables t (blocks_at comp 0 chunks) w).
  destruct (get_with_cache_ok comp Hc tables chunks Hf Hs path key s t bc fill w Hfile)
    as (w' & E & [_ Hinv] & Hfs).
  - apply cache_tables_inv; [by rewrite Hw | done].
  - intros _. apply cache_tables_at.
  - exists w'. split; [done|]. split; [congruence|].
    specialize (Hinv t). unfold tables in Hinv. by rewrite cache_tables_at in Hinv.
Qed.

(** C24: the storage iterator of a sorted table, sought to any
    internal key, yields exactly the entries at or after that key, in order,
    whether blocks come from the cache or from the file. *)
Theorem table_seek_range comp path block_size es fs fs' :
  built comp path block_size es fs fs' -> sorted_entries es ->
  exists reader blocks, sst_open_with_env path fs' = (Ok reader, fs') /\
    forall w t block_cache fill_cache key,
      rw_fs w = fs' -> cache_agrees t blocks (rw_cache w) ->
      exists i w1 i' w2, storage_iter reader t block_cache fill_cache w = (Ok i, w1) /\
        si_seek key (i, w1) = (Ok tt, (i', w2)) /\
        forall fuel, (length es < fuel)%nat ->
          (drain fuel (i', w2)).1 = Ok (bt_range_from ikey_cmp key es).
Proof.
  intros Hb Hs. pose proof Hb as (Hc & Ho & _).
  apply built_chunks in Hb as (chunks & <- & Hf & ->).
  assert (fs_files (set_files (<[path:=table_bytes comp chunks]>) fs) !! path
    = Some (table_bytes comp chunks)) as Hfile by apply lookup_insert_eq.
  exists (table_reader comp chunks path), (blocks_at comp 0 chunks).
  split; [by apply sst_open_ok|].
  intros w t bc fill key Hw Ha. rewrite <- Hw in Hfile.
  set (tables := cache_tables t (blocks_at comp 0 chunks) w).
  assert (rw_inv tables w) as Hinv by (apply cache_tables_inv; [by rewrite Hw | done]).
  destruct (storage_iter_ok tables comp chunks path t bc fill w Hc Hf Hs Hfile Hinv)
    as (i & w1 & E1 & Hi & Hw1); [intros _; apply cache_tables_at|].
  destruct (it_seek_ok (I := SSTableStorageIterator) (ok := rw_inv tables) i _ w1 key Hi Hs Hw1)
    as (i' & w2 & E2 & Hi' & Hw2).
  exists i, w1, i', w2. split; [done|]. split; [done|]. intros fuel Hfuel.
  destruct (drain_ok (rw_inv tables) fuel i' _ w2 Hi' Hw2) as (i3 & w3 & E3 & _); [|by rewrite E3].
  pose proof (length_filter (fun e : entry => leb ikey_cmp key e.1 = true) (concat chunks)).
  unfold bt_range_from. lia.
Qed.
End properties.

(** ** The properties on a table of four blocks *)

Section reader_examples.
#[local] Existing Instance toy_externals.
#[local] Existing Instance toy_hash_order.

Definition example_entries : list entry :=
  [(mkInternalKey [1] 2 VPut, RPut [20]); (mkInternalKey [1] 1 VPut, RPut [10]);
   (mkInternalKey [1; 5] 4 VPut, RPut []); (mkInternalKey [3] 3 VDelete, RDelete)].
Definition example_fs0 : Fs := mkFs {[ "db/CURRENT"%string := [77] ]} ∅ [].
Definition example_fs1 : Fs := (build_table "db/7.sst" 12 CZstd example_entries example_fs0).2.

Lemma example_sorted : sorted_entries example_entries.
Proof. by apply (bool_decide_unpack _); vm_compute. Qed.

Lemma example_built : built CZstd "db/7.sst" 12 example_entries example_fs0 example_fs1.
Proof.
  split; [by intros block|]. split; [done|]. split.
  { repeat (apply List.Forall_cons; [by repeat split|]). apply List.Forall_nil. }
  split; [done|]. split; [by vm_compute|]. by vm_compute.
Qed.

Lemma table_roundtrip_witness :
  exists reader, sst_open_with_env "db/7.sst" example_fs1 = (Ok reader, example_fs1) /\
    len (sr_index reader) = 4 /\
    exists w', sst_entries reader (mkRW example_fs1 (block_cache_new 4)) = (Ok example_entries, w').
Proof.
  destruct (table_roundtrip _ _ _ _ _ _ example_built) as (_ & reader & E & _ & _ & H).
  exists reader. split; [exact E|]. split.
  - assert (match (sst_open_with_env "db/7.sst" example_fs1).1 with
      | Ok r => len (sr_index r) | _ => 0 end = 4) as Ev by by vm_compute.
    by rewrite E in Ev.
  - destruct (H (mkRW example_fs1 (block_cache_new 4)) eq_refl) as (w' & Ew & _). by exists w'.
Defined.

Lemma table_get_newest_witness :
  exists reader, sst_open_with_env "db/7.sst" example_fs1 = (Ok reader, example_fs1) /\
    exists w', get_with_cache reader [1] 1 7 true true (mkRW example_fs1 (block_cache_new 4))
      = (Ok (Some (RPut [10])), w').
Proof.
  destruct (table_get_newest _ _ _ _ _ _ example_built example_sorted)
    as (reader & blocks & E & H).
  exists reader. split; [exact E|].
  destruct (H (mkRW example_fs1 (block_cache_new 4)) 7 true true [1] 1 eq_refl) as (w' & Ew & _);
    [done|].
  by exists w'.
Defined.

Lemma table_seek_range_witness :
  exists reader, sst_open_with_env "db/7.sst" example_fs1 = (Ok reader, example_fs1) /\
    exists i w1 i' w2,
      storage_iter reader 7 true true (mkRW example_fs1 (block_cache_new 4)) = (Ok i, w1) /\
      si_seek (mkInternalKey [1; 5] 9 VPut) (i, w1) = (Ok tt, (i', w2)) /\
      (drain 5 (i', w2)).1 = Ok (drop 2 example_entries).
Proof.
  destruct (table_seek_range _ _ _ _ _ _ example_built example_sorted)
    as (reader & blocks & E & H).
  exists reader. split; [exact E|].
  destruct (H (mkRW example_fs1 (block_cache_new 4)) 7 true true (mkInternalKey [1; 5] 9 VPut)
    eq_refl) as (i & w1 & i' & w2 & E1 & E2 & Hd); [done|].
  exists i, w1, i', w2. split; [exact E1|]. split; [exact E2|]. apply (Hd 5%nat). by vm_compute; lia.
Defined.

Lemma corrupt_block_detected_witness :
  let f := mkReadableFile ([9; 9] ++ ([1; 2; 4] ++ drop 3 (stored CNone [1; 2; 3])) ++ [5]) 0 in
  (read_block (mkBlockHandle 2 3) (f, mkFs ∅ ∅ [])).1
  = Err (Corruption "SSTable block checksum mismatch").
Proof.
  apply (corrupt_block_detected CNone [1; 2; 3] [9; 9] [1; 2; 4] [5]); by vm_compute.
Defined.
End reader_examples.
