(* ===== verification/Version.v ===== *)
(** * Versions and the manifest

    [src/version/]: file metadata and versions, version edits and their
    encoding, the manifest that logs them, and the version set that replays
    it on recovery. *)

From Stdlib Require Import Sorting.Sorted.
From stdpp Require Import base gmap list strings sorting.
From S2P Require Import Prelude Key Coding Externals Env Wal Format.

(** ** [version.rs] *)

Record FileMeta : Type := mkFileMeta {
  fm_number : u64;
  fm_file_size : u64;
  fm_smallest : InternalKey;
  fm_largest : InternalKey;
  fm_smallest_seq : u64;
  fm_largest_seq : u64
}.

#[export] Instance FileMeta_eq_dec : EqDecision FileMeta.
Proof. solve_decision. Defined.

Record Version : Type := mkVersion {
  v_l0_files : list FileMeta;
  v_levels : list (list FileMeta)
}.

Definition version_new (max_levels : usize) : Version :=
  mkVersion [] (replicate (Z.to_nat max_levels) []).

Definition invalid_level (level : usize) : error :=
  InvalidArgument ("invalid level: " ++ bytes_string (dec_digits 20 level)).

Definition file_cmp (left right : FileMeta) : comparison :=
  ikey_cmp (fm_smallest left) (fm_smallest right).

Definition add_file (level : usize) (meta : FileMeta) : M Version unit := fun self =>
  if level =? 0 then (Ok tt, mkVersion (meta :: v_l0_files self) (v_levels self))
  else
    match v_levels self !! Z.to_nat level with
    | None => (Err (invalid_level level), self)
    | Some files =>
        let files := sort_by file_cmp (files ++ [meta]) in
        (Ok tt, mkVersion (v_l0_files self) (<[Z.to_nat level := files]> (v_levels self)))
    end.

(** [retain(|file| file.number != number)]. *)
Definition retain_other (number : u64) (files : list FileMeta) : list FileMeta :=
  filter (fun file => fm_number file <> number) files.

Definition delete_file (level : usize) (number : u64) : M Version unit := fun self =>
  if level =? 0
  then (Ok tt, mkVersion (retain_other number (v_l0_files self)) (v_levels self))
  else
    match v_levels self !! Z.to_nat level with
    | None => (Err (invalid_level level), self)
    | Some files =>
        (Ok tt, mkVersion (v_l0_files self)
           (<[Z.to_nat level := retain_other number files]> (v_levels self)))
    end.

(** ** [edit.rs] *)

Inductive VersionEdit : Type :=
  | NextFileNumber (number : u64)
  | LastSequence (sequence : u64)
  | LogNumber (number : u64)
  | AddFile (level : usize) (meta : FileMeta)
  | DeleteFile (level : usize) (number : u64).

Definition TAG_NEXT_FILE_NUMBER : u32 := 1.
Definition TAG_LAST_SEQUENCE : u32 := 2.
Definition TAG_LOG_NUMBER : u32 := 3.
Definition TAG_ADD_FILE : u32 := 4.
Definition TAG_DELETE_FILE : u32 := 5.

Definition encode_file_meta (meta : FileMeta) (dst : bytes) : bytes :=
  let dst := put_var_u64 dst (fm_number meta) in
  let dst := put_var_u64 dst (fm_file_size meta) in
  let dst := encode_internal_key (fm_smallest meta) dst in
  let dst := encode_internal_key (fm_largest meta) dst in
  let dst := put_var_u64 dst (fm_smallest_seq meta) in
  put_var_u64 dst (fm_largest_seq meta).

Definition edit_encode (self : VersionEdit) : bytes :=
  match self with
  | NextFileNumber number => put_var_u64 (put_var_u32 [] TAG_NEXT_FILE_NUMBER) number
  | LastSequence sequence => put_var_u64 (put_var_u32 [] TAG_LAST_SEQUENCE) sequence
  | LogNumber number => put_var_u64 (put_var_u32 [] TAG_LOG_NUMBER) number
  | AddFile level meta =>
      encode_file_meta meta (put_var_u32 (put_var_u32 [] TAG_ADD_FILE) (wrap32 level))
  | DeleteFile level number =>
      put_var_u64 (put_var_u32 (put_var_u32 [] TAG_DELETE_FILE) (wrap32 level)) number
  end.

Definition decode_file_meta : M bytes FileMeta :=
  number ← get_var_u64;
  file_size ← get_var_u64;
  smallest ← decode_internal_key;
  largest ← decode_internal_key;
  smallest_seq ← get_var_u64;
  largest_seq ← get_var_u64;
  mret (mkFileMeta number file_size smallest largest smallest_seq largest_seq).

(** The edit that follows the tag. *)
Definition decode_tagged (tag : u32) : M bytes VersionEdit :=
  if tag =? TAG_NEXT_FILE_NUMBER then number ← get_var_u64; mret (NextFileNumber number)
  else if tag =? TAG_LAST_SEQUENCE then sequence ← get_var_u64; mret (LastSequence sequence)
  else if tag =? TAG_LOG_NUMBER then number ← get_var_u64; mret (LogNumber number)
  else if tag =? TAG_ADD_FILE then
    level ← get_var_u32;
    meta ← decode_file_meta;
    mret (AddFile level meta)
  else if tag =? TAG_DELETE_FILE then
    level ← get_var_u32;
    number ← get_var_u64;
    mret (DeleteFile level number)
  else fail (Corruption "unknown version edit tag").

Definition edit_decode_m : M bytes VersionEdit :=
  tag ← get_var_u32;
  edit ← decode_tagged tag;
  is_empty ← src_is_empty;
  if (is_empty : bool) then mret edit else fail (Corruption "trailing version edit bytes").

Definition edit_decode (bs : bytes) : res VersionEdit := (edit_decode_m bs).1.

(** ** [version_set.rs] and [manifest.rs] *)

Record ManifestWriter : Type := mkManifestWriter { mw_file : WritableFile }.

Record VersionSet : Type := mkVersionSet {
  vs_current : Version;
  vs_next_file_number : u64;
  vs_last_sequence : u64;
  vs_log_number : u64;
  vs_manifest_number : u64;
  vs_manifest_writer : option ManifestWriter
}.

Definition vs_with_numbers (next last log : u64) (self : VersionSet) : VersionSet :=
  mkVersionSet (vs_current self) next last log (vs_manifest_number self)
    (vs_manifest_writer self).

Definition vs_with_current (current : Version) (self : VersionSet) : VersionSet :=
  mkVersionSet current (vs_next_file_number self) (vs_last_sequence self) (vs_log_number self)
    (vs_manifest_number self) (vs_manifest_writer self).

Definition vs_with_writer (writer : option ManifestWriter) (self : VersionSet) : VersionSet :=
  mkVersionSet (vs_current self) (vs_next_file_number self) (vs_last_sequence self)
    (vs_log_number self) (vs_manifest_number self) writer.

Definition vs_new_empty (max_levels : usize) : VersionSet :=
  mkVersionSet (version_new max_levels) 2 0 1 1 None.

(** The clone of the current version is changed and replaces it when the
    change succeeds. *)
Definition change_current (m : M Version unit) : M VersionSet unit := fun self =>
  match m (vs_current self) with
  | (Ok _, next) => (Ok tt, vs_with_current next self)
  | (Err e, _) => (Err e, self)
  | (Panic, _) => (Panic, self)
  end.

(** The additions of the source wrap as in a release build. *)
Definition apply_edit (edit : VersionEdit) : M VersionSet unit :=
  self ← get_state;
  let next := vs_next_file_number self in
  let last := vs_last_sequence self in
  let log := vs_log_number self in
  match edit with
  | NextFileNumber number => modify (vs_with_numbers (Z.max next number) last log)
  | LastSequence sequence => modify (vs_with_numbers next (Z.max last sequence) log)
  | LogNumber number =>
      modify (vs_with_numbers (Z.max next (wrap64 (number + 1))) last number)
  | AddFile level meta =>
      _ ← modify (vs_with_numbers (Z.max next (wrap64 (fm_number meta + 1))) last log);
      change_current (add_file level meta)
  | DeleteFile level number => change_current (delete_file level number)
  end.

Definition allocate_file_number (self : VersionSet) : u64 * VersionSet :=
  let number := vs_next_file_number self in
  (number, vs_with_numbers (wrap64 (number + 1)) (vs_last_sequence self) (vs_log_number self) self).

Section manifest.
Context `{X : Externals}.

Definition manifest_create (path : string) : M Fs ManifestWriter :=
  file ← open_writable path writable_create;
  mret (mkManifestWriter file).

Definition manifest_append_to (path : string) : M Fs ManifestWriter :=
  file ← open_writable path writable_append;
  mret (mkManifestWriter file).

Definition on_mw {A} (m : M (WritableFile * Fs) A) : M (ManifestWriter * Fs) A :=
  zoom (fun s => (mw_file s.1, s.2)) (fun t _ => (mkManifestWriter t.1, t.2)) m.

Definition manifest_append (edit : VersionEdit) : M (ManifestWriter * Fs) unit :=
  let payload := edit_encode edit in
  on_mw (_ ← write_record payload; sync_all).

Definition push_edit (payload : bytes) (edits : list VersionEdit) : res (list VersionEdit) :=
  edit ← edit_decode payload; Ok (edits ++ [edit]).

(** [ManifestReader::open] and [read_all]. *)
Definition manifest_read_all (path : string) : M Fs (list VersionEdit) :=
  reader ← wal_open path;
  with_local reader (wal_for_each push_edit []).

(** A method that only changes the fields of the set. *)
Definition on_fields {A} (m : M VersionSet A) : M (VersionSet * Fs) A :=
  zoom fst (fun vs s => (vs, s.2)) m.

Definition log_and_apply (edit : VersionEdit) : M (VersionSet * Fs) unit :=
  s ← get_state;
  _ ← match vs_manifest_writer s.1 with
      | None => mret tt
      | Some writer => fun s =>
          let '(r, (writer, fs)) := manifest_append edit (writer, s.2) in
          (r, (vs_with_writer (Some writer) s.1, fs))
      end;
  on_fields (apply_edit edit).

Definition vs_create (db_path : string) (max_levels : usize) : M Fs VersionSet :=
  _ ← create_dir_all db_path;
  let manifest_number := 1 in
  let manifest_name := manifest_file_name manifest_number in
  let manifest_path := path_join db_path manifest_name in
  writer ← manifest_create manifest_path;
  with_local writer
    (_ ← manifest_append (NextFileNumber 2);
     _ ← manifest_append (LogNumber 1);
     _ ← manifest_append (LastSequence 0);
     _ ← zoom snd (fun fs s => (s.1, fs)) (set_current_with_env db_path manifest_name);
     s ← get_state;
     mret (mkVersionSet (version_new max_levels) 2 0 1 manifest_number (Some s.1))).

Definition vs_recover (db_path : string) (max_levels : usize) : M Fs VersionSet :=
  manifest_name ← read_current_with_env db_path;
  match parse_manifest_number manifest_name with
  | None => fail (Corruption "CURRENT points to invalid manifest")
  | Some manifest_number =>
      let manifest_path := path_join db_path manifest_name in
      let versions := mkVersionSet (version_new max_levels) 2 0 1 manifest_number None in
      edits ← manifest_read_all manifest_path;
      with_local versions
        (_ ← for_each edits (fun edit _ => on_fields (apply_edit edit)) tt;
         writer ← zoom snd (fun fs s => (s.1, fs)) (manifest_append_to manifest_path);
         s ← get_state;
         mret (vs_with_writer (Some writer) s.1))
  end.
End manifest.

(** ** The codec of edits *)

Definition meta_fits (m : FileMeta) : Prop :=
  u64_ok (fm_number m) /\ u64_ok (fm_file_size m) /\ ikey_fits (fm_smallest m) /\
  ikey_fits (fm_largest m) /\ u64_ok (fm_smallest_seq m) /\ u64_ok (fm_largest_seq m).

(** Edits the format can carry: every field within its width. *)
Definition edit_fits (e : VersionEdit) : Prop :=
  match e with
  | NextFileNumber n | LastSequence n | LogNumber n => u64_ok n
  | AddFile level meta => u32_ok level /\ meta_fits meta
  | DeleteFile level number => u32_ok level /\ u64_ok number
  end.

Definition meta_bytes (m : FileMeta) : bytes :=
  varint_bytes 10 (fm_number m) ++ varint_bytes 10 (fm_file_size m)
    ++ ikey_bytes (fm_smallest m) ++ ikey_bytes (fm_largest m)
    ++ varint_bytes 10 (fm_smallest_seq m) ++ varint_bytes 10 (fm_largest_seq m).

Lemma encode_file_meta_bytes m dst :
  meta_fits m -> encode_file_meta m dst = dst ++ meta_bytes m.
Proof.
  intros ([Hn _] & [Hz _] & [_ [Hs _]] & [_ [Hl _]] & [Hss _] & [Hls _]).
  unfold encode_file_meta, meta_bytes. cbv zeta.
  rewrite !put_var_u64_bytes, !encode_internal_key_bytes by done.
  by rewrite <- !app_assoc.
Qed.

Lemma decode_file_meta_bytes m rest :
  meta_fits m -> decode_file_meta (meta_bytes m ++ rest) = (Ok m, rest).
Proof.
  intros (Hn & Hz & Hs & Hl & Hss & Hls). unfold decode_file_meta, meta_bytes.
  rewrite <- !app_assoc.
  erewrite bind_ok by (by apply get_var_u64_enc). erewrite bind_ok by (by apply get_var_u64_enc).
  erewrite bind_ok by (by apply decode_internal_key_bytes).
  erewrite bind_ok by (by apply decode_internal_key_bytes).
  erewrite bind_ok by (by apply get_var_u64_enc). erewrite bind_ok by (by apply get_var_u64_enc).
  by destruct m.
Qed.

(** The tag of an edit and the bytes after it. *)
Definition edit_tag (e : VersionEdit) : u32 :=
  match e with
  | NextFileNumber _ => TAG_NEXT_FILE_NUMBER
  | LastSequence _ => TAG_LAST_SEQUENCE
  | LogNumber _ => TAG_LOG_NUMBER
  | AddFile _ _ => TAG_ADD_FILE
  | DeleteFile _ _ => TAG_DELETE_FILE
  end.

Definition edit_body (e : VersionEdit) : bytes :=
  match e with
  | NextFileNumber n | LastSequence n | LogNumber n => varint_bytes 10 n
  | AddFile level meta => varint_bytes 10 level ++ meta_bytes meta
  | DeleteFile level number => varint_bytes 10 level ++ varint_bytes 10 number
  end.

Lemma edit_tag_ok e : u32_ok (edit_tag e).
Proof. by destruct e. Qed.

Lemma edit_encode_bytes e :
  edit_fits e -> edit_encode e = varint_bytes 10 (edit_tag e) ++ edit_body e.
Proof.
  destruct e as [n|n|n|level meta|level number]; cbn [edit_fits edit_encode edit_body edit_tag].
  1-3: intros [Hn _]; by rewrite put_var_u64_bytes, put_var_u32_bytes by done.
  - intros [Hl Hm]. rewrite wrap_small by apply Hl.
    rewrite encode_file_meta_bytes by done.
    rewrite !put_var_u32_bytes by (done || apply Hl). by rewrite <- app_assoc.
  - intros [Hl [Hn _]]. rewrite wrap_small by apply Hl.
    rewrite put_var_u64_bytes by done.
    rewrite !put_var_u32_bytes by (done || apply Hl). by rewrite <- app_assoc.
Qed.

Lemma decode_tagged_bytes e :
  edit_fits e -> decode_tagged (edit_tag e) (edit_body e) = (Ok e, []).
Proof.
  intros He. rewrite <- (app_nil_r (edit_body e)).
  destruct e as [n|n|n|level meta|level number]; unfold decode_tagged; cbn [edit_tag edit_body];
    cbn [Z.eqb Pos.eqb TAG_NEXT_FILE_NUMBER TAG_LAST_SEQUENCE TAG_LOG_NUMBER TAG_ADD_FILE
      TAG_DELETE_FILE].
  1-3: by erewrite bind_ok by (by apply get_var_u64_enc).
  - destruct He as [Hl Hm]. rewrite <- app_assoc.
    erewrite bind_ok by (by apply get_var_u32_enc).
    by erewrite bind_ok by (by apply decode_file_meta_bytes).
  - destruct He as [Hl Hn]. rewrite <- app_assoc.
    erewrite bind_ok by (by apply get_var_u32_enc).
    by erewrite bind_ok by (by apply get_var_u64_enc).
Qed.

Lemma edit_decode_encode e : edit_fits e -> edit_decode (edit_encode e) = Ok e.
Proof.
  intros He. rewrite edit_encode_bytes by done. unfold edit_decode, edit_decode_m.
  erewrite bind_ok by (apply get_var_u32_enc, edit_tag_ok).
  erewrite bind_ok by (by apply decode_tagged_bytes). done.
Qed.

Lemma decode_file_meta_total : total decode_file_meta.
Proof. unfold decode_file_meta. solve_total. Qed.

#[export] Hint Resolve decode_file_meta_total : total.

Lemma decode_tagged_total tag : total (decode_tagged tag).
Proof. unfold decode_tagged. solve_total. Qed.

#[export] Hint Resolve decode_tagged_total : total.

Lemma edit_decode_no_panic bs : edit_decode bs <> Panic.
Proof.
  assert (total edit_decode_m) as H by (unfold edit_decode_m; solve_total).
  specialize (H bs). unfold edit_decode. by destruct (edit_decode_m bs) as [[]].
Qed.

(** ** Versions *)

(** The files of a level; level 0 is [l0_files], newest first. *)
Definition version_files (v : Version) (level : usize) : list FileMeta :=
  if level =? 0 then v_l0_files v else default [] (v_levels v !! Z.to_nat level).

Definition valid_level (v : Version) (level : usize) : Prop :=
  level = 0 \/ 0 < level < len (v_levels v).

(** The levels below 0 are sorted by the smallest key. *)
Definition level_sorted (files : list FileMeta) : Prop :=
  StronglySorted (le_on fm_smallest ikey_cmp) files.
Definition version_wf (v : Version) : Prop := Forall level_sorted (v_levels v).

Lemma version_new_wf max_levels : version_wf (version_new max_levels).
Proof. apply Forall_replicate. constructor. Qed.

Lemma version_new_files max_levels level : version_files (version_new max_levels) level = [].
Proof.
  unfold version_files. simpl. destruct (level =? 0); [done|].
  destruct (replicate _ _ !! _) as [l|] eqn:E; [|done].
  by apply lookup_replicate in E as [-> _].
Qed.

Lemma valid_level_lookup v level :
  valid_level v level -> level <> 0 -> v_levels v !! Z.to_nat level = Some (version_files v level).
Proof.
  intros [->|Hl] Hn; [done|]. unfold version_files. apply Z.eqb_neq in Hn. rewrite Hn.
  destruct (lookup_lt_is_Some_2 (v_levels v) (Z.to_nat level)) as [l ->]; [|done].
  unfold len in Hl. lia.
Qed.

(** Replacing the files of one level below 0. *)
Lemma version_files_insert v level files l :
  0 <= l -> 0 <= level -> valid_level v level -> level <> 0 ->
  version_files (mkVersion (v_l0_files v) (<[Z.to_nat level := files]> (v_levels v))) l
  = if l =? level then files else version_files v l.
Proof.
  intros Hl Hle Hv Hn. unfold version_files. cbn [v_l0_files v_levels].
  destruct (Z.eqb_spec l level) as [->|Hne].
  - destruct (Z.eqb_spec level 0); [done|]. destruct Hv as [|Hv]; [done|].
    rewrite list_lookup_insert_eq; [done|]. unfold len in Hv. lia.
  - destruct (Z.eqb_spec l 0); [done|]. rewrite list_lookup_insert_ne; [done | lia].
Qed.

Lemma add_file_ok level meta v :
  0 <= level -> valid_level v level ->
  exists v', add_file level meta v = (Ok tt, v') /\
    (version_files v' level ≡ₚ meta :: version_files v level) /\
    (forall l, 0 <= l -> l <> level -> version_files v' l = version_files v l) /\
    length (v_levels v') = length (v_levels v) /\ (version_wf v -> version_wf v').
Proof.
  intros Hle Hv. unfold add_file. destruct (Z.eqb_spec level 0) as [->|Hn].
  - eexists. split; [done|]. split; [done|]. split; [|done].
    intros l Hl Hne. unfold version_files. by destruct (Z.eqb_spec l 0).
  - rewrite (valid_level_lookup v level Hv Hn). eexists. split; [done|].
    split; [|split; [|split]].
    + rewrite version_files_insert, Z.eqb_refl by done.
      rewrite sort_by_perm, Permutation_app_comm. done.
    + intros l Hl Hne. rewrite version_files_insert by done.
      by destruct (Z.eqb_spec l level).
    + apply length_insert.
    + intros Hwf. apply Forall_insert; [done|]. apply (sort_on_sorted fm_smallest ikey_cmp).
Qed.

Lemma retain_sorted number files : level_sorted files -> level_sorted (retain_other number files).
Proof.
  intros Hs. induction Hs as [|m files Hs IH Hf]; [constructor|]. unfold retain_other. rewrite filter_cons.
  destruct (decide _); [|exact IH]. constructor; [exact IH|].
  apply Forall_forall. intros y [_ Hy]%list_elem_of_filter. rewrite Forall_forall in Hf. by apply Hf.
Qed.

Lemma delete_file_ok level number v :
  0 <= level -> valid_level v level ->
  exists v', delete_file level number v = (Ok tt, v') /\
    version_files v' level = retain_other number (version_files v level) /\
    (forall l, 0 <= l -> l <> level -> version_files v' l = version_files v l) /\
    length (v_levels v') = length (v_levels v) /\ (version_wf v -> version_wf v').
Proof.
  intros Hle Hv. unfold delete_file. destruct (Z.eqb_spec level 0) as [->|Hn].
  - eexists. split; [done|]. split; [done|]. split; [|done].
    intros l Hl Hne. unfold version_files. by destruct (Z.eqb_spec l 0).
  - rewrite (valid_level_lookup v level Hv Hn). eexists. split; [done|].
    split; [|split; [|split]].
    + by rewrite version_files_insert, Z.eqb_refl by done.
    + intros l Hl Hne. rewrite version_files_insert by done.
      by destruct (Z.eqb_spec l level).
    + apply length_insert.
    + intros Hwf. apply Forall_insert; [done|]. apply retain_sorted.
      apply (proj1 (Forall_lookup _ _) Hwf (Z.to_nat level)). by apply valid_level_lookup.
Qed.

(** An operation on a level that does not exist is refused and changes
    nothing. *)
Lemma invalid_level_refused level meta number v :
  0 <= level -> ~ valid_level v level ->
  add_file level meta v = (Err (invalid_level level), v) /\
  delete_file level number v = (Err (invalid_level level), v).
Proof.
  unfold valid_level. intros Hle Hv.
  assert (level <> 0) as Hn by tauto. unfold add_file, delete_file.
  destruct (Z.eqb_spec level 0); [done|].
  rewrite lookup_ge_None_2; [done|]. unfold len in Hv. lia.
Qed.

(** ** The version set *)

(** A file number in use: of a file of the version, or of the log. *)
Definition number_in_use (vs : VersionSet) (n : u64) : Prop :=
  n = vs_log_number vs \/
  exists level f, 0 <= level /\ f ∈ version_files (vs_current vs) level /\ fm_number f = n.

Definition vs_wf (vs : VersionSet) : Prop :=
  version_wf (vs_current vs) /\ forall n, number_in_use vs n -> n < vs_next_file_number vs.

Definition edit_number (e : VersionEdit) : u64 :=
  match e with
  | NextFileNumber n | LogNumber n => n
  | AddFile _ meta => fm_number meta
  | _ => 0
  end.

Definition edit_level (e : VersionEdit) : usize :=
  match e with AddFile level _ | DeleteFile level _ => level | _ => 0 end.

Lemma vs_new_empty_wf max_levels : vs_wf (vs_new_empty max_levels).
Proof.
  split; [apply version_new_wf|]. intros n [->|(level & f & _ & Hf & _)]; [done|].
  simpl in Hf. rewrite version_new_files in Hf. by apply elem_of_nil in Hf.
Qed.

(** Applying an edit keeps the set well formed, and keeps the file counter
    bounded by what was recorded. *)
Lemma apply_edit_wf e vs r vs' B :
  apply_edit e vs = (r, vs') -> vs_wf vs -> 0 <= edit_level e ->
  0 <= edit_number e < B -> B < 2 ^ 64 -> vs_next_file_number vs <= B ->
  vs_wf vs' /\ vs_next_file_number vs <= vs_next_file_number vs' <= B.
Proof.
  intros E [Hwf Hn] Hle Hb HB HBn.
  assert (wrap64 (edit_number e + 1) = edit_number e + 1) as Hw by (apply wrap_small; lia).
  unfold apply_edit in E. rewrite bind_get_state in E. cbv zeta in E.
  destruct e as [n|n|n|level meta|level number]; cbn [edit_number edit_level] in *.
  - injection E as <- <-. cbn. split; [|lia]. split; [done|].
    intros m [->|Hm]; cbn; [specialize (Hn _ (or_introl eq_refl)); lia |].
    specialize (Hn _ (or_intror Hm)). lia.
  - injection E as <- <-. cbn. split; [|lia]. split; [done|].
    intros m [->|Hm]; cbn; [by apply Hn; left | by apply Hn; right].
  - injection E as <- <-. cbn. rewrite Hw. split; [|lia]. split; [done|].
    intros m [->|Hm]; cbn; [lia |]. specialize (Hn _ (or_intror Hm)). lia.
  - rewrite bind_modify in E. unfold change_current in E. cbn [vs_current vs_with_numbers] in E.
    rewrite Hw in E.
    destruct (decide (valid_level (vs_current vs) level)) as [Hv|Hv].
    + destruct (add_file_ok level meta (vs_current vs) Hle Hv) as (v' & Ea & Hp & Ho & _ & Hwf').
      rewrite Ea in E. injection E as <- <-. cbn. split; [|lia]. split; [by apply Hwf'|].
      intros m [->|(l & f & Hl & Hf & <-)]; cbn in *; [specialize (Hn _ (or_introl eq_refl)); lia |].
      destruct (decide (l = level)) as [->|Hne].
      * rewrite Hp, elem_of_cons in Hf. destruct Hf as [->|Hf]; [lia|].
        assert (number_in_use vs (fm_number f)) as Hu by (right; eauto). apply Hn in Hu. lia.
      * rewrite Ho in Hf by done.
        assert (number_in_use vs (fm_number f)) as Hu by (right; eauto). apply Hn in Hu. lia.
    + destruct (invalid_level_refused level meta 0 _ Hle Hv) as [Ea _]. rewrite Ea in E.
      injection E as <- <-. cbn. split; [|lia]. split; [done|].
      intros m Hm. assert (number_in_use vs m) as Hu by exact Hm. apply Hn in Hu. cbn. lia.
  - unfold change_current in E.
    destruct (decide (valid_level (vs_current vs) level)) as [Hv|Hv].
    + destruct (delete_file_ok level number (vs_current vs) Hle Hv) as (v' & Ea & Hp & Ho & _ & Hwf').
      rewrite Ea in E. injection E as <- <-. cbn. split; [|lia]. split; [by apply Hwf'|].
      intros m [->|(l & f & Hl & Hf & <-)]; cbn in *; [by apply Hn; left |].
      apply Hn. right. exists l, f. split; [done|]. split; [|done].
      destruct (decide (l = level)) as [->|Hne]; [|by rewrite <- Ho].
      rewrite Hp in Hf. by apply list_elem_of_filter in Hf as [_ Hf].
    + destruct (invalid_level_refused level (mkFileMeta 0 0 (mkInternalKey [] 0 VPut)
        (mkInternalKey [] 0 VPut) 0 0) number _ Hle Hv) as [_ Ea]. rewrite Ea in E.
      injection E as <- <-. done.
Qed.

(** What changes a version set while it runs. *)
Inductive VsOp : Type :=
  | VsEdit (e : VersionEdit)
  | VsAllocate.

Definition vs_exec (op : VsOp) : M VersionSet unit :=
  match op with
  | VsEdit e => apply_edit e
  | VsAllocate => fun vs => (Ok tt, (allocate_file_number vs).2)
  end.

(** A sequence of operations, each carried out whatever the others returned. *)
Definition vs_exec_all (ops : list VsOp) (vs : VersionSet) : VersionSet :=
  foldl (fun vs op => (vs_exec op vs).2) vs ops.

(** Edits with the numbers a running database has. *)
Definition op_bounded (op : VsOp) : Prop :=
  match op with
  | VsEdit e => 0 <= edit_level e /\ 0 <= edit_number e < 2 ^ 63
  | VsAllocate => True
  end.

Lemma allocate_wf vs B :
  vs_wf vs -> 0 <= vs_next_file_number vs <= B -> B < 2 ^ 64 - 1 ->
  vs_wf (allocate_file_number vs).2 /\
  vs_next_file_number (allocate_file_number vs).2 = vs_next_file_number vs + 1.
Proof.
  intros [Hwf Hn] Hb HB. unfold allocate_file_number. cbn [snd].
  assert (wrap64 (vs_next_file_number vs + 1) = vs_next_file_number vs + 1) as Hw
    by (apply wrap_small; lia).
  rewrite Hw. cbn [vs_next_file_number vs_with_numbers]. split; [|done]. split; [done|].
  intros n Hu. assert (number_in_use vs n) as Hu' by exact Hu. apply Hn in Hu'. cbn. lia.
Qed.

Lemma vs_exec_all_wf ops vs :
  Forall op_bounded ops -> vs_wf vs -> 0 <= vs_next_file_number vs ->
  vs_next_file_number vs <= 2 ^ 63 -> len ops < 2 ^ 63 - 2 ->
  vs_wf (vs_exec_all ops vs) /\
  0 <= vs_next_file_number (vs_exec_all ops vs) <= 2 ^ 63 + len ops.
Proof.
  intros Hb Hwf H0 Hn Hl.
  assert (forall k, 0 <= k -> vs_next_file_number vs <= 2 ^ 63 + k -> k + len ops < 2 ^ 63 - 2 ->
    vs_wf (vs_exec_all ops vs) /\
    0 <= vs_next_file_number (vs_exec_all ops vs) <= 2 ^ 63 + k + len ops) as H.
  { clear Hn Hl. revert vs Hwf H0. induction Hb as [|op ops Hop Hb IH]; intros vs Hwf H0 k Hk Hn Hl.
    { rewrite (@len_nil VsOp) in *. unfold vs_exec_all. cbn [foldl]. split; [done | lia]. }
    rewrite len_cons in *. pose proof (len_nonneg ops).
    change (vs_exec_all (op :: ops) vs) with (vs_exec_all ops (vs_exec op vs).2).
    destruct op as [e|]; cbn [vs_exec snd].
    - destruct (apply_edit e vs) as [r vs'] eqn:E. cbn [snd]. destruct Hop as [Hle Hnum].
      destruct (apply_edit_wf e vs r vs' (2 ^ 63 + k) E Hwf Hle) as [Hwf' Hb']; [lia..|].
      destruct (IH vs' Hwf' ltac:(lia) k) as [H1 H2]; [lia..|]. split; [done | lia].
    - destruct (allocate_wf vs (2 ^ 63 + k) Hwf) as [Hwf' Hb']; [lia..|].
      destruct (IH _ Hwf' ltac:(lia) (k + 1)) as [H1 H2]; [lia..|].
      split; [done | lia]. }
  specialize (H 0 ltac:(lia) ltac:(lia) ltac:(lia)). by rewrite Z.add_0_r in H.
Qed.

(** C29: after any sequence of version edits (refused ones included) and
    allocations, the next file number handed out is not the number of any file
    of the current version, nor of the log, the levels below 0 are sorted by
    their smallest keys, and a number handed out is never handed out again. *)
Theorem file_numbers_fresh max_levels ops :
  Forall op_bounded ops -> len ops < 2 ^ 63 - 3 ->
  let vs := vs_exec_all ops (vs_new_empty max_levels) in
  let '(number, vs') := allocate_file_number vs in
  version_wf (vs_current vs) /\ ~ number_in_use vs number /\
  number < vs_next_file_number vs' /\ vs_current vs' = vs_current vs.
Proof.
  intros Hb Hl vs.
  destruct (vs_exec_all_wf ops (vs_new_empty max_levels)) as [Hwf Hn];
    [done | apply vs_new_empty_wf | cbn; lia.. | lia |].
  fold vs in Hwf, Hn. destruct (allocate_wf vs (2 ^ 63 + len ops) Hwf Hn) as [Hwf' Hn']; [lia|].
  unfold allocate_file_number in *. cbn [snd] in Hn'. split; [apply Hwf|]. split.
  - intros Hu. apply (proj2 Hwf) in Hu. lia.
  - split; [rewrite Hn'; lia | done].
Qed.

(** a file added to an existing level is there, once, among the
    files that were there before; a deleted number is gone from its level and
    everything else stays; an unknown level is refused with an error and
    nothing changes. *)
Theorem version_edits_exact level meta number v :
  0 <= level ->
  (valid_level v level ->
   (exists v', add_file level meta v = (Ok tt, v') /\
      (version_files v' level ≡ₚ meta :: version_files v level) /\
      forall l, 0 <= l -> l <> level -> version_files v' l = version_files v l) /\
   (exists v', delete_file level number v = (Ok tt, v') /\
      (forall f, f ∈ version_files v' level <-> f ∈ version_files v level /\ fm_number f <> number) /\
      forall l, 0 <= l -> l <> level -> version_files v' l = version_files v l)) /\
  (~ valid_level v level ->
   add_file level meta v = (Err (invalid_level level), v) /\
   delete_file level number v = (Err (invalid_level level), v)).
Proof.
  intros Hle. split.
  - intros Hv. split.
    + destruct (add_file_ok level meta v Hle Hv) as (v' & E & Hp & Ho & _). by exists v'.
    + destruct (delete_file_ok level number v Hle Hv) as (v' & E & Hp & Ho & _).
      exists v'. split; [done|]. split; [|done]. intros f. rewrite Hp.
      unfold retain_other. rewrite list_elem_of_filter. tauto.
  - by apply invalid_level_refused.
Qed.

(** ** The manifest *)

Definition replay_edits (edits : list VersionEdit) : M VersionSet unit :=
  for_each edits (fun e (_ : unit) => apply_edit e) tt.

(** Edits that a manifest record can hold. *)
Definition edit_ok (e : VersionEdit) : Prop :=
  edit_fits e /\ len (edit_encode e) < 2 ^ 32 /\ Forall u8_ok (edit_encode e).

Lemma edit_loggable e : edit_ok e -> loggable (edit_encode e).
Proof.
  intros (Hf & Hl & _). split; [|done]. rewrite edit_encode_bytes by done.
  intros H. apply app_eq_nil in H as [H _]. by apply varint_bytes_ne in H.
Qed.

(** Two keys of less than [2^30] bytes leave room for the other fields. *)
Definition key_short (k : InternalKey) : Prop :=
  len (user_key k) < 2 ^ 30 /\ Forall u8_ok (user_key k) /\ u64_ok (sequence k).

Lemma varint_bytes_len value : len (varint_bytes 10 value) <= 10.
Proof. unfold len. pose proof (varint_bytes_length 10 value). lia. Qed.

Lemma ikey_bytes_short k :
  key_short k -> len (ikey_bytes k) < 2 ^ 30 + 32 /\ Forall u8_ok (ikey_bytes k).
Proof.
  intros (Hl & Hb & Hs & _). unfold ikey_bytes. split.
  - rewrite !len_app. pose proof (varint_bytes_len (wrap32 (len (user_key k)))).
    pose proof (varint_bytes_len (sequence k)). change (len [_]) with 1. lia.
  - repeat (apply Forall_app; split); [apply varint_bytes_u8, Z.mod_pos_bound; lia | done
      | by apply varint_bytes_u8 | by destruct (value_type k); repeat constructor].
Qed.

Lemma edit_short_ok e :
  edit_fits e ->
  match e with
  | AddFile _ meta => key_short (fm_smallest meta) /\ key_short (fm_largest meta)
  | _ => True
  end -> edit_ok e.
Proof.
  intros Hf Hk. split; [done|]. rewrite edit_encode_bytes by done.
  pose proof (edit_tag_ok e) as [Ht _]. rewrite len_app, Forall_app.
  assert (len (edit_body e) < 2 ^ 31 + 128 /\ Forall u8_ok (edit_body e)) as [Hl Hb].
  { destruct e as [n|n|n|level meta|level number]; cbn [edit_body edit_fits] in *.
    1-3: split; [pose proof (varint_bytes_len n); lia | apply varint_bytes_u8, Hf].
    - destruct Hk as [[Hs1 Hs2]%ikey_bytes_short [Hl1 Hl2]%ikey_bytes_short].
      destruct Hf as [[Hlv _] ([Hn _] & [Hz _] & _ & _ & [Hsq _] & [Hlq _])].
      unfold meta_bytes. rewrite !len_app, !Forall_app.
      pose proof (varint_bytes_len level). pose proof (varint_bytes_len (fm_number meta)).
      pose proof (varint_bytes_len (fm_file_size meta)).
      pose proof (varint_bytes_len (fm_smallest_seq meta)).
      pose proof (varint_bytes_len (fm_largest_seq meta)).
      split; [lia|]. split_and!; first [done | by apply varint_bytes_u8].
    - destruct Hf as [[Hlv _] [Hn _]]. rewrite len_app, Forall_app.
      pose proof (varint_bytes_len level). pose proof (varint_bytes_len number).
      split; [lia|]. split; by apply varint_bytes_u8. }
  pose proof (varint_bytes_len (edit_tag e)). split; [lia|]. split; [by apply varint_bytes_u8 | done].
Qed.

Section manifest_ok.
Context `{X : Externals} {HX : ExternalsOk X}.

Definition manifest_bytes (edits : list VersionEdit) : bytes := log_bytes (map edit_encode edits).

Lemma manifest_bytes_snoc edits e :
  manifest_bytes (edits ++ [e]) = manifest_bytes edits ++ wal_record (edit_encode e).
Proof.
  unfold manifest_bytes, log_bytes. rewrite !map_app, concat_app. cbn [map concat].
  by rewrite app_nil_r.
Qed.

Lemma fold_push_edit edits acc :
  Forall edit_ok edits -> fold_res push_edit acc (map edit_encode edits) = Ok (acc ++ edits).
Proof.
  intros H. revert acc. induction H as [|e edits He H IH]; intros acc; [by rewrite app_nil_r|].
  cbn [map fold_res]. unfold push_edit at 1. rewrite edit_decode_encode by apply He. simpl.
  by rewrite IH, <- app_assoc.
Qed.

Lemma manifest_read_all_ok path edits t fs :
  reads_ok fs -> Forall edit_ok edits -> parse_record t = Ok None ->
  fs_files fs !! path = Some (manifest_bytes edits ++ t) ->
  Forall u8_ok (manifest_bytes edits ++ t) ->
  exists fs', manifest_read_all path fs = (Ok edits, fs') /\
    fs_files fs' = fs_files fs /\ reads_ok fs'.
Proof.
  intros Hr He Ht Hf Hb. unfold manifest_read_all, wal_open, open_readable.
  match goal with |- context [fallible ?m] =>
    destruct (fallible_reads m fs Hr) as (fs1 & Hf1 & Hr1 & E1) end.
  rewrite Hf1, Hf in E1.
  erewrite bind_ok by (erewrite bind_ok by exact E1; reflexivity).
  unfold with_local. set (rd := mkWalReader _).
  destruct (wal_for_each_replay push_edit [] rd fs1 Hr1) as (rd' & fs2 & E2 & Hr2 & Hf2).
  { split; [done | exact Hb]. }
  exists fs2. rewrite E2. unfold reader_rest, rf_rest. cbn [rd wr_file rf_data rf_pos].
  rewrite drop_0. unfold manifest_bytes. rewrite replay_all_log.
  - rewrite fold_push_edit by done. split; [done|]. split; [congruence | done].
  - apply Forall_map. eapply Forall_impl; [exact He|]. intros e'. apply edit_loggable.
  - done.
Qed.

Lemma on_fields_replay edits (vs : VersionSet) (fs : Fs) :
  for_each edits (fun e (_ : unit) => on_fields (apply_edit e)) tt (vs, fs)
  = let '(r, vs') := replay_edits edits vs in (r, (vs', fs)).
Proof.
  revert vs. induction edits as [|e edits IH]; intros vs; [done|].
  unfold replay_edits in *. cbn [for_each]. unfold mbind, M_bind.
  unfold on_fields at 1, zoom. cbn [fst snd]. destruct (apply_edit e vs) as [[[]|x|] vs1]; [|done..].
  apply IH.
Qed.

(** Recovering from a manifest: the edits are replayed, up to a record that is
    cut off. *)
Lemma vs_recover_ok db max_levels n edits t fs :
  u64_ok n -> reads_ok fs -> Forall edit_ok edits -> parse_record t = Ok None ->
  fs_files fs !! path_join db CURRENT_FILE = Some (string_bytes (manifest_file_name n) ++ [10]) ->
  fs_files fs !! path_join db (manifest_file_name n) = Some (manifest_bytes edits ++ t) ->
  Forall u8_ok (manifest_bytes edits ++ t) ->
  exists fs', vs_recover db max_levels fs
    = (match replay_edits edits (mkVersionSet (version_new max_levels) 2 0 1 n None) with
       | (Ok _, vs) => Ok (vs_with_writer (Some (mkManifestWriter
           (mkWritableFile (path_join db (manifest_file_name n)) true 0))) vs)
       | (Err e, _) => Err e
       | (Panic, _) => Panic
       end, fs') /\ fs_files fs' = fs_files fs.
Proof.
  intros Hn Hr He Ht Hc Hm Hb. unfold vs_recover.
  destruct (read_current_ok db fs (manifest_file_name n) Hr) as (fs1 & E1 & Hf1 & Hr1);
    [done | by apply manifest_name_ascii | done |].
  erewrite bind_ok by exact E1.
  assert (parse_manifest_number (manifest_file_name n) = Some n) as ->.
  { unfold parse_manifest_number, manifest_file_name. rewrite strip_prefix_app. by apply parse_fmt06. }
  cbv zeta.
  destruct (manifest_read_all_ok (path_join db (manifest_file_name n)) edits t fs1 Hr1 He Ht)
    as (fs2 & E2 & Hf2 & Hr2); [by rewrite Hf1 | done |].
  erewrite bind_ok by exact E2. unfold with_local, mbind at 1, M_bind at 1. rewrite on_fields_replay.
  destruct (replay_edits edits _) as [[[]|e|] vs];
    [|exists fs2; split; [done | congruence]..].
  unfold manifest_append_to, open_writable, zoom, mbind, M_bind. cbn [fst snd].
  match goal with |- context [fallible ?m] =>
    destruct (fallible_reads m fs2 Hr2) as (fs3 & Hf3 & Hr3 & ->) end.
  rewrite Hf3, Hf2, Hf1, Hm. cbn. exists fs3. split; [done | congruence].
Qed.
(** *** What is on disk and what is in memory *)

(** The same version, sequence and log.  The recovered file counter may be
    behind, since allocations are not logged; that it is still above every
    number in use is [vs_wf]. *)
Definition same_state (recovered vs : VersionSet) : Prop :=
  vs_current recovered = vs_current vs /\ vs_last_sequence recovered = vs_last_sequence vs /\
  vs_log_number recovered = vs_log_number vs /\
  vs_manifest_number recovered = vs_manifest_number vs.

Lemma apply_edit_same e a b r b' :
  same_state a b -> apply_edit e b = (r, b') ->
  exists a', apply_edit e a = (r, a') /\ same_state a' b'.
Proof.
  intros (Hc & Hl & Hg & Hm) E. unfold apply_edit in *. rewrite bind_get_state in *.
  cbv zeta in *. destruct e as [n|n|n|level meta|level number].
  - injection E as <- <-. eexists. split; [done|]. repeat split; cbn; congruence.
  - injection E as <- <-. eexists. split; [done|]. repeat split; cbn; congruence.
  - injection E as <- <-. eexists. split; [done|]. repeat split; cbn; congruence.
  - rewrite bind_modify in *. unfold change_current in *. cbn [vs_current vs_with_numbers] in *.
    rewrite Hc. destruct (add_file level meta (vs_current b)) as [[[]|x|] v];
      injection E as <- <-; (eexists; split; [done|]); repeat split; cbn; congruence.
  - unfold change_current in *. rewrite Hc.
    destruct (delete_file level number (vs_current b)) as [[[]|x|] v];
      injection E as <- <-; (eexists; split; [done|]); repeat split; cbn; congruence.
Qed.

Lemma apply_edit_writer e vs r vs' :
  apply_edit e vs = (r, vs') -> vs_manifest_writer vs' = vs_manifest_writer vs.
Proof.
  unfold apply_edit. rewrite bind_get_state. cbv zeta.
  destruct e as [n|n|n|level meta|level number]; rewrite ?bind_modify; unfold change_current;
    try by intros [= <- <-].
  - destruct (add_file _ _ _) as [[[]|x|] v]; by intros [= <- <-].
  - destruct (delete_file _ _ _) as [[[]|x|] v]; by intros [= <- <-].
Qed.

Lemma same_state_writer w a b : same_state a b -> same_state (vs_with_writer w a) b.
Proof. by intros (H1 & H2 & H3 & H4). Qed.

Lemma same_state_writer_r w a b : same_state a b -> same_state a (vs_with_writer w b).
Proof. by intros (H1 & H2 & H3 & H4). Qed.

Lemma manifest_bytes_u8 edits : Forall edit_ok edits -> Forall u8_ok (manifest_bytes edits).
Proof.
  intros He. apply log_bytes_u8, Forall_map. eapply Forall_impl; [exact He|]. by intros e (_ & _ & ?).
Qed.

Definition init_set (max_levels : usize) (n : u64) : VersionSet :=
  mkVersionSet (version_new max_levels) 2 0 1 n None.

Record manifest_inv (db : string) (max_levels : usize) (n : u64) (edits : list VersionEdit)
    (vs : VersionSet) (fs : Fs) : Prop := mkManifestInv {
  mv_number : u64_ok n;
  mv_current : fs_files fs !! path_join db CURRENT_FILE
    = Some (string_bytes (manifest_file_name n) ++ [10]);
  mv_edits : Forall edit_ok edits;
  mv_writer : exists w, vs_manifest_writer vs = Some w /\
    wf_path (mw_file w) = path_join db (manifest_file_name n) /\
    writes_at_end (mw_file w) fs (manifest_bytes edits);
  mv_replay : exists vs0, replay_edits edits (init_set max_levels n) = (Ok tt, vs0) /\
    same_state vs0 vs
}.

Lemma manifest_path_ne db n : path_join db (manifest_file_name n) <> path_join db CURRENT_FILE.
Proof. by intros H%path_join_inj. Qed.

Lemma manifest_path_ne_tmp db n :
  path_join db (manifest_file_name n) <> path_join db CURRENT_TMP_FILE.
Proof. by intros H%path_join_inj. Qed.

Lemma replay_app edits edits' vs vs1 :
  replay_edits edits vs = (Ok tt, vs1) -> replay_edits (edits ++ edits') vs = replay_edits edits' vs1.
Proof. intros H. exact (for_each_app _ _ _ _ _ _ _ H). Qed.

Lemma replay_snoc edits e vs vs1 :
  replay_edits edits vs = (Ok tt, vs1) -> replay_edits (edits ++ [e]) vs = apply_edit e vs1.
Proof.
  intros H. unfold replay_edits in *. rewrite (for_each_app _ _ _ _ _ _ _ H). cbn [for_each].
  unfold mbind, M_bind. by destruct (apply_edit e vs1) as [[[]|x|] v].
Qed.

(** The manifest of a set in this state recovers it. *)
Lemma manifest_inv_recovers db max_levels n edits vs fs :
  manifest_inv db max_levels n edits vs fs -> reads_ok fs ->
  exists vs' fs', vs_recover db max_levels fs = (Ok vs', fs') /\ same_state vs' vs.
Proof.
  intros [Hn Hc He (w & _ & Hp & Hw & _) (vs0 & Hr & Hs)] Hok.
  destruct (vs_recover_ok db max_levels n edits [] fs) as (fs' & E & _); try done.
  - rewrite app_nil_r, <- Hp. exact Hw.
  - rewrite app_nil_r. by apply manifest_bytes_u8.
  - fold (init_set max_levels n) in E. rewrite Hr in E. eexists _, fs'. split; [exact E|].
    by apply same_state_writer.
Qed.

Lemma manifest_append_ok e w fs c :
  writes_at_end (mw_file w) fs c -> fs_oracle fs = [] ->
  exists w', manifest_append e (w, fs)
    = (Ok tt, (w', set_files (<[wf_path (mw_file w) := c ++ wal_record (edit_encode e)]>) fs)) /\
    wf_path (mw_file w') = wf_path (mw_file w) /\
    writes_at_end (mw_file w')
      (set_files (<[wf_path (mw_file w) := c ++ wal_record (edit_encode e)]>) fs)
      (c ++ wal_record (edit_encode e)).
Proof.
  intros Hw Ho. destruct (write_record_ok (edit_encode e) _ _ _ Hw Ho) as (f & E & Hp & Hw').
  exists (mkManifestWriter f). split; [|done]. unfold manifest_append, on_mw, zoom. cbn [fst snd].
  erewrite bind_ok by exact E. by rewrite sync_all_ok.
Qed.

(** Logging an edit, whatever the environment does. *)
Lemma manifest_append_prefix e w fs c :
  writes_at_end (mw_file w) fs c ->
  exists r w' fs' b, manifest_append e (w, fs) = (r, (w', fs')) /\
    wf_path (mw_file w') = wf_path (mw_file w) /\
    b `prefix_of` wal_record (edit_encode e) /\
    (forall x, r = Ok x -> b = wal_record (edit_encode e)) /\
    writes_at_end (mw_file w') fs' (c ++ b) /\
    fs_files fs' = <[wf_path (mw_file w) := c ++ b]> (fs_files fs).
Proof.
  intros Hw. destruct (write_record_prefix (edit_encode e) (mw_file w) fs c Hw)
    as (r & f' & fs' & b & E & Hp & Hpre & Hr & [Hw1 Hw2] & Hf).
  unfold manifest_append, on_mw, zoom. cbn [fst snd]. cbv zeta.
  unfold mbind, M_bind. rewrite E. destruct r as [x|x|].
  - destruct (sync_all (f', fs')) as [r [f2 fs2]] eqn:Es.
    apply sync_all_files in Es as [-> Hf2].
    exists r, (mkManifestWriter f'), fs2, b. split; [done|]. split; [done|]. split; [done|].
    split; [by intros; apply (Hr x)|]. rewrite Hf2. split; [|done]. by split; rewrite ?Hf2.
  - eexists _, (mkManifestWriter f'), fs', b. by repeat split.
  - eexists _, (mkManifestWriter f'), fs', b. by repeat split.
Qed.
(** One successful [log_and_apply], or an allocation. *)
Definition vs_log_step (op : VsOp) : M (VersionSet * Fs) unit :=
  match op with
  | VsEdit e => log_and_apply e
  | VsAllocate => on_fields (fun vs => (Ok tt, (allocate_file_number vs).2))
  end.

Definition op_ok (op : VsOp) : Prop := match op with VsEdit e => edit_ok e | VsAllocate => True end.

Lemma log_and_apply_ok db max_levels n edits e vs fs r vs' fs' :
  manifest_inv db max_levels n edits vs fs -> fs_oracle fs = [] -> edit_ok e ->
  log_and_apply e (vs, fs) = (r, (vs', fs')) ->
  r = (apply_edit e vs).1 /\ fs_oracle fs' = [] /\
  fs_files fs' = <[path_join db (manifest_file_name n) := manifest_bytes (edits ++ [e])]> (fs_files fs) /\
  (r = Ok tt -> manifest_inv db max_levels n (edits ++ [e]) vs' fs').
Proof.
  intros [Hn Hc He (w & Hvw & Hp & Hw) (vs0 & Hr & Hs)] Ho Hok E.
  destruct (manifest_append_ok e w fs _ Hw Ho) as (w' & Ea & Hp' & Hw'). rewrite Hp in *.
  rewrite <- manifest_bytes_snoc in *.
  unfold log_and_apply in E. rewrite bind_get_state in E. cbn [fst] in E. rewrite Hvw in E.
  erewrite bind_ok in E by (cbn [fst snd]; rewrite Ea; reflexivity).
  unfold on_fields, zoom in E. cbn [fst snd] in E.
  destruct (apply_edit e (vs_with_writer (Some w') vs)) as [r1 vs1] eqn:Eap.
  injection E as <- <- <-.
  pose proof (same_state_writer_r (Some w') vs0 vs Hs) as Hs'.
  assert (same_state vs (vs_with_writer (Some w') vs)) as Hsw by by repeat split.
  destruct (apply_edit_same e vs _ r1 vs1 Hsw Eap) as (vs2 & E2 & Hs2).
  destruct (apply_edit_same e vs0 _ r1 vs1 Hs' Eap) as (vs3 & E3 & Hs3).
  split; [by rewrite E2|]. split; [done|]. split; [done|]. intros ->.
  pose proof (apply_edit_writer _ _ _ _ Eap) as Hwr. constructor; [done| | |exists w'|].
  - cbn. rewrite lookup_insert_ne by apply manifest_path_ne. done.
  - apply Forall_app. split; [done|]. by constructor.
  - split; [by rewrite Hwr|]. by split.
  - exists vs3. split; [|done]. by rewrite (replay_snoc _ _ _ _ Hr).
Qed.

Lemma apply_edit_with_writer e w vs r vs' :
  apply_edit e vs = (r, vs') ->
  apply_edit e (vs_with_writer w vs) = (r, vs_with_writer w vs').
Proof.
  unfold apply_edit. rewrite !bind_get_state. cbv zeta.
  destruct e as [n|n|n|level meta|level number]; rewrite ?bind_modify; unfold change_current;
    try by intros [= <- <-].
  - cbn [vs_current vs_with_writer vs_with_numbers].
    by destruct (add_file level meta (vs_current vs)) as [[]]; intros [= <- <-].
  - cbn [vs_current vs_with_writer].
    by destruct (delete_file level number (vs_current vs)) as [[]]; intros [= <- <-].
Qed.

(** Without failures the edit is logged, applied, and nothing else happens. *)
Lemma log_and_apply_exact db max_levels n edits e vs fs vs1 :
  manifest_inv db max_levels n edits vs fs -> fs_oracle fs = [] -> edit_ok e ->
  apply_edit e vs = (Ok tt, vs1) ->
  exists w, let vs' := vs_with_writer (Some w) vs1 in
    let fs' := set_files (<[path_join db (manifest_file_name n) := manifest_bytes (edits ++ [e])]>) fs in
    log_and_apply e (vs, fs) = (Ok tt, (vs', fs')) /\
    manifest_inv db max_levels n (edits ++ [e]) vs' fs'.
Proof.
  intros Hinv Ho Hok Eap. pose proof Hinv as [_ _ _ (w & Hvw & Hp & Hw) _].
  destruct (manifest_append_ok e w fs _ Hw Ho) as (w' & Ea & _). rewrite Hp in Ea.
  rewrite <- manifest_bytes_snoc in Ea. exists w'. cbv zeta.
  match goal with |- ?A = ?B /\ _ => assert (A = B) as E end.
  { unfold log_and_apply. rewrite bind_get_state. cbn [fst]. rewrite Hvw.
    erewrite bind_ok by (cbn [fst snd]; rewrite Ea; reflexivity).
    unfold on_fields, zoom. cbn [fst snd].
    by rewrite (apply_edit_with_writer _ _ _ _ _ Eap). }
  split; [exact E|].
  destruct (log_and_apply_ok _ _ _ _ _ _ _ _ _ _ Hinv Ho Hok E) as (_ & _ & _ & H). by apply H.
Qed.

(** Other files and the file counter may change. *)
Lemma manifest_inv_frame db max_levels n edits vs vs' fs fs' :
  manifest_inv db max_levels n edits vs fs -> same_state vs vs' ->
  vs_manifest_writer vs' = vs_manifest_writer vs ->
  fs_files fs' !! path_join db CURRENT_FILE = fs_files fs !! path_join db CURRENT_FILE ->
  fs_files fs' !! path_join db (manifest_file_name n)
    = fs_files fs !! path_join db (manifest_file_name n) ->
  manifest_inv db max_levels n edits vs' fs'.
Proof.
  intros [Hn Hc He (w & Hvw & Hp & Hw & Hpos) (vs0 & Hr & Hs)] Hsame Hwr HC HM.
  constructor; [done | congruence | done | |].
  - exists w. split; [congruence|]. split; [done|]. unfold writes_at_end. rewrite Hp in *. split; [congruence | done].
  - exists vs0. split; [done|].
    destruct Hs as (?&?&?&?), Hsame as (?&?&?&?). repeat split; congruence.
Qed.

Lemma replay_wf edits vs vs' :
  replay_edits edits vs = (Ok tt, vs') -> vs_wf vs -> 0 <= vs_next_file_number vs <= 2 ^ 63 ->
  Forall (fun e => op_bounded (VsEdit e)) edits -> vs_wf vs'.
Proof.
  intros E Hwf Hn Hb. revert vs E Hwf Hn.
  induction Hb as [|e edits [Hle Hnum] Hb IH]; intros vs E Hwf Hn; [by injection E as <-|].
  unfold replay_edits in *. cbn [for_each] in E. apply bind_inv in E as ([] & vs1 & E1 & E2).
  destruct (apply_edit_wf e vs _ vs1 (2 ^ 63) E1 Hwf Hle) as [Hwf1 Hn1]; [lia..|].
  apply (IH vs1); [done | done | lia].
Qed.

(** The edits that [create] logs. *)
Definition create_edits : list VersionEdit := [NextFileNumber 2; LogNumber 1; LastSequence 0].

Lemma vs_create_ok db max_levels fs :
  fs_oracle fs = [] ->
  exists vs fs', vs_create db max_levels fs = (Ok vs, fs') /\ fs_oracle fs' = [] /\
    manifest_inv db max_levels 1 create_edits vs fs' /\
    (exists w, vs = mkVersionSet (version_new max_levels) 2 0 1 1 w) /\
    fs_dirs fs' = {[db]} ∪ fs_dirs fs /\
    forall name, name ∉ created_names ->
      fs_files fs' !! path_join db name = fs_files fs !! path_join db name.
Proof.
  intros Ho. unfold vs_create.
  set (fs0 := (create_dir_all db fs).2).
  assert (create_dir_all db fs = (Ok tt, fs0) /\ fs_oracle fs0 = [] /\
    fs_dirs fs0 = {[db]} ∪ fs_dirs fs /\ fs_files fs0 = fs_files fs) as (E0 & Ho0 & Hd0 & Hf0).
  { unfold fs0, create_dir_all. rewrite fallible_ok by done. by repeat split. }
  erewrite bind_ok by exact E0. cbv zeta. set (path := path_join db (manifest_file_name 1)).
  destruct (open_writable_create_ok path fs0 Ho0) as (f & Ef & Hp & Hw).
  erewrite bind_ok by (unfold manifest_create; erewrite bind_ok by exact Ef; reflexivity).
  unfold with_local. set (fs1 := set_files (<[path := []]>) fs0) in *.
  destruct (manifest_append_ok (NextFileNumber 2) (mkManifestWriter f) fs1 [] Hw Ho0)
    as (w1 & E1 & P1 & W1). cbn [mw_file] in P1, E1, W1. rewrite Hp in *.
  erewrite bind_ok by exact E1.
  destruct (manifest_append_ok (LogNumber 1) w1 _ _ W1 Ho0) as (w2 & E2 & P2 & W2).
  rewrite P1 in *. erewrite bind_ok by exact E2.
  destruct (manifest_append_ok (LastSequence 0) w2 _ _ W2 Ho0) as (w3 & E3 & P3 & W3).
  rewrite P2 in *. erewrite bind_ok by exact E3.
  match type of W3 with writes_at_end _ ?f _ => set (fs2 := f) in * end.
  destruct (set_current_ok db (manifest_file_name 1) fs2 Ho0) as (fs3 & E4 & Ho3 & Hf3).
  erewrite bind_ok by (unfold zoom; cbn [fst snd]; rewrite E4; reflexivity).
  rewrite bind_get_state. eexists _, fs3. split; [reflexivity|]. split; [done|].
  assert (fs_files fs3 !! path = Some (manifest_bytes create_edits)) as Hm.
  { rewrite Hf3, lookup_insert_ne by (apply not_eq_sym, manifest_path_ne).
    rewrite lookup_delete_ne by (apply not_eq_sym, manifest_path_ne_tmp).
    unfold fs2. cbn. by rewrite lookup_insert_eq. }
  split; [constructor | split; [eexists; reflexivity | split]].
  - done.
  - by rewrite Hf3, lookup_insert_eq.
  - repeat constructor; done.
  - exists w3. split; [done|]. split; [done|]. split; [by rewrite P3|].
    destruct W3 as [_ [Ha|Ha]]; [by left | right]. rewrite Ha. done.
  - eexists. split; [reflexivity|]. by repeat split.
  - destruct (calm_set_current db (manifest_file_name 1) fs2 Ho0) as [_ Hd]. rewrite E4 in Hd.
    rewrite <- Hd0. exact Hd.
  - intros name Hin. rewrite Hf3. unfold fs2. cbn. unfold path.
    assert (forall x, x ∈ created_names -> path_join db x <> path_join db name) as Hne
      by (intros x Hx Ej; apply path_join_inj in Ej; by subst).
    unfold created_names in Hne.
    rewrite !lookup_insert_ne, lookup_delete_ne, !lookup_insert_ne; [by rewrite Hf0|..]; apply Hne; set_solver.
Qed.

(** Replaying edits keeps the levels sorted. *)
Lemma insert_version_wf v i files :
  version_wf v -> level_sorted files -> version_wf (mkVersion (v_l0_files v) (<[i := files]> (v_levels v))).
Proof. intros Hwf Hs. by apply Forall_insert. Qed.

Lemma add_file_wf level meta v v' : add_file level meta v = (Ok tt, v') -> version_wf v -> version_wf v'.
Proof.
  unfold add_file. intros E Hwf. destruct (level =? 0); [by injection E as <-|].
  destruct (v_levels v !! Z.to_nat level) as [files|]; [|done]. injection E as <-.
  apply insert_version_wf; [done | apply (sort_on_sorted fm_smallest ikey_cmp)].
Qed.

Lemma delete_file_wf level number v v' :
  delete_file level number v = (Ok tt, v') -> version_wf v -> version_wf v'.
Proof.
  unfold delete_file. intros E Hwf. destruct (level =? 0); [by injection E as <-|].
  destruct (v_levels v !! Z.to_nat level) as [files|] eqn:Ef; [|done]. injection E as <-.
  apply insert_version_wf; [done | apply retain_sorted]. by apply (proj1 (Forall_lookup _ _) Hwf) in Ef.
Qed.

Lemma replay_version_wf edits vs vs' :
  replay_edits edits vs = (Ok tt, vs') -> version_wf (vs_current vs) -> version_wf (vs_current vs').
Proof.
  revert vs. induction edits as [|e edits IH]; intros vs E Hwf; [by injection E as <-|].
  unfold replay_edits in E. cbn [for_each] in E. apply bind_inv in E as ([] & vs1 & E1 & E).
  apply (IH vs1 E). clear IH E. unfold apply_edit in E1. rewrite bind_get_state in E1. cbv zeta in E1.
  destruct e as [k|k|k|level meta|level k]; try (by injection E1 as <-).
  - rewrite bind_modify in E1. unfold change_current in E1.
    destruct (add_file _ _ _) as [[[]|x|] v1] eqn:Ea; [|done..]. injection E1 as <-.
    by eapply add_file_wf.
  - unfold change_current in E1. destruct (delete_file _ _ _) as [[[]|x|] v1] eqn:Ea; [|done..].
    injection E1 as <-. by eapply delete_file_wf.
Qed.

Lemma manifest_version_wf db max_levels n edits vs fs :
  manifest_inv db max_levels n edits vs fs -> version_wf (vs_current vs).
Proof.
  intros [_ _ _ _ (vs0 & E & <- & _)]. apply (replay_version_wf _ _ _ E). apply version_new_wf.
Qed.

(** Every file of a version that was replayed comes from an edit. *)
Definition version_has (v : Version) (f : FileMeta) : Prop :=
  f ∈ v_l0_files v \/ f ∈ concat (v_levels v).

Lemma concat_insert {A} (ls : list (list A)) i l x :
  x ∈ concat (<[i := l]> ls) -> x ∈ l \/ x ∈ concat ls.
Proof.
  revert i. induction ls as [|l0 ls IH]; intros i; [by right|].
  destruct i as [|i]; cbn [insert list_insert concat]; rewrite !elem_of_app; [tauto|].
  intros [?|Hx]; [tauto|]. destruct (IH i Hx); tauto.
Qed.

Lemma level_has v i files f : v_levels v !! i = Some files -> f ∈ files -> version_has v f.
Proof. intros Hi Hf. right. apply elem_of_concat. exists files. split; [done|]. by eapply list_elem_of_lookup_2. Qed.

Lemma add_file_origin level meta v v' f :
  add_file level meta v = (Ok tt, v') -> version_has v' f -> f = meta \/ version_has v f.
Proof.
  unfold add_file. intros E [Hf|Hf]; (destruct (level =? 0);
    [|destruct (v_levels v !! Z.to_nat level) as [files|] eqn:Ef; [|done]]); injection E as <-;
    cbn [v_l0_files v_levels] in Hf.
  - apply elem_of_cons in Hf as [->|Hf]; [by left | right; by left].
  - right. by left.
  - right. by right.
  - apply concat_insert in Hf as [Hf|Hf]; [|right; by right]. rewrite sort_by_elem in Hf.
    apply elem_of_app in Hf as [Hf|Hf%list_elem_of_singleton]; [right; by eapply level_has | by left].
Qed.

Lemma delete_file_origin level number v v' f :
  delete_file level number v = (Ok tt, v') -> version_has v' f -> version_has v f.
Proof.
  unfold delete_file, retain_other. intros E [Hf|Hf]; (destruct (level =? 0);
    [|destruct (v_levels v !! Z.to_nat level) as [files|] eqn:Ef; [|done]]); injection E as <-;
    cbn [v_l0_files v_levels] in Hf.
  - apply list_elem_of_filter in Hf as [_ Hf]. by left.
  - by left.
  - by right.
  - apply concat_insert in Hf as [Hf|Hf]; [|by right]. apply list_elem_of_filter in Hf as [_ Hf].
    by eapply level_has.
Qed.

Lemma replay_origin edits vs vs' f :
  replay_edits edits vs = (Ok tt, vs') -> version_has (vs_current vs') f ->
  version_has (vs_current vs) f \/ exists level, AddFile level f ∈ edits.
Proof.
  revert vs. induction edits as [|e edits IH]; intros vs E Hf; [injection E as <-; by left|].
  unfold replay_edits in E. cbn [for_each] in E. apply bind_inv in E as ([] & vs1 & E1 & E).
  destruct (IH vs1 E Hf) as [Hf1|[level Hl]]; [|right; exists level; by right].
  clear IH E Hf. unfold apply_edit in E1. rewrite bind_get_state in E1. cbv zeta in E1.
  destruct e as [k|k|k|level meta|level k]; try (injection E1 as <-; by left).
  - rewrite bind_modify in E1. unfold change_current in E1.
    destruct (add_file _ _ _) as [[[]|x|] v1] eqn:Ea; [|done..]. injection E1 as <-.
    destruct (add_file_origin _ _ _ _ _ Ea Hf1) as [->|Hf]; [right; exists level; by left | by left].
  - unfold change_current in E1. destruct (delete_file _ _ _) as [[[]|x|] v1] eqn:Ea; [|done..].
    injection E1 as <-. left. by eapply delete_file_origin.
Qed.

Lemma manifest_file_fits db max_levels n edits vs fs f :
  manifest_inv db max_levels n edits vs fs -> version_has (vs_current vs) f -> meta_fits f.
Proof.
  intros [_ _ He _ (vs0 & E & Hc & _)] Hf. rewrite <- Hc in Hf.
  destruct (replay_origin _ _ _ _ E Hf) as [[Hf'|Hf']|[level Hl]].
  - by apply elem_of_nil in Hf'.
  - cbn in Hf'. apply elem_of_concat in Hf' as (l & Hx & Hl). apply elem_of_replicate in Hl as [-> _].
    by apply elem_of_nil in Hx.
  - rewrite Forall_forall in He. apply He in Hl as [[_ Hm] _]. exact Hm.
Qed.

(** Level 0 is kept in a list of its own; the first of the levels is not used. *)
Lemma delete_file_unused level number v v' :
  delete_file level number v = (Ok tt, v') -> 0 <= level -> v_levels v' !! 0%nat = v_levels v !! 0%nat.
Proof.
  unfold delete_file. destruct (Z.eqb_spec level 0) as [|Hn]; [by intros [= <-]|].
  destruct (v_levels v !! Z.to_nat level); [|done]. intros [= <-] Hl. apply list_lookup_insert_ne. lia.
Qed.

Lemma add_file_unused level meta v v' :
  add_file level meta v = (Ok tt, v') -> 0 <= level -> v_levels v' !! 0%nat = v_levels v !! 0%nat.
Proof.
  unfold add_file. destruct (Z.eqb_spec level 0) as [|Hn]; [by intros [= <-]|].
  destruct (v_levels v !! Z.to_nat level); [|done]. intros [= <-] Hl. apply list_lookup_insert_ne. lia.
Qed.

(** A version with other files on some levels. *)
Record version_like (v v' : Version) : Prop := mkVersionLike {
  vl_length : length (v_levels v') = length (v_levels v);
  vl_unused : v_levels v' !! 0%nat = v_levels v !! 0%nat;
  vl_wf : version_wf v -> version_wf v'
}.

Lemma version_like_refl v : version_like v v.
Proof. by constructor. Qed.

Lemma version_like_trans v1 v2 v3 : version_like v1 v2 -> version_like v2 v3 -> version_like v1 v3.
Proof. intros [] []. constructor; [congruence | congruence | auto]. Qed.

Lemma valid_level_like v v' level : version_like v v' -> valid_level v level -> valid_level v' level.
Proof. intros [E _ _]. unfold valid_level, len. by rewrite E. Qed.

(** Deleting files, given as pairs of a level and a number. *)
Definition delete_edit (p : Z * Z) : VersionEdit := DeleteFile p.1 p.2.

Lemma replay_deletes dels vs :
  Forall (fun p : Z * Z => 0 <= p.1 /\ valid_level (vs_current vs) p.1) dels ->
  exists v', replay_edits (map delete_edit dels) vs = (Ok tt, vs_with_current v' vs) /\
    version_like (vs_current vs) v' /\
    forall l, 0 <= l -> version_files v' l
      = filter (fun f => (l, fm_number f) ∉ dels) (version_files (vs_current vs) l).
Proof.
  revert vs. induction dels as [|[level n] dels IH]; intros vs Hv.
  { exists (vs_current vs). split; [by destruct vs|]. split; [apply version_like_refl|]. intros l Hl.
    symmetry. induction (version_files (vs_current vs) l) as [|f fs IHf]; [done|].
    rewrite filter_cons_True by apply not_elem_of_nil. by rewrite IHf. }
  apply Forall_cons in Hv as [[Hl0 Hl] Hv]. cbn [fst] in *.
  destruct (delete_file_ok level n (vs_current vs) Hl0 Hl) as (v1 & E1 & Hf1 & Ho1 & Hn1 & Hw1).
  assert (version_like (vs_current vs) v1) as L1
    by (constructor; [done | by eapply delete_file_unused | done]).
  destruct (IH (vs_with_current v1 vs)) as (v2 & E2 & L2 & Hf2).
  { eapply Forall_impl; [exact Hv|]. intros p [? ?]. split; [done | by eapply valid_level_like]. }
  exists v2. split; [|split; [by eapply version_like_trans|]].
  - unfold replay_edits in *. cbn [map for_each delete_edit fst snd].
    erewrite bind_ok; [exact E2|]. unfold apply_edit, delete_edit. rewrite bind_get_state. cbv zeta.
    cbn [fst snd]. unfold change_current. by rewrite E1.
  - intros l Hge. rewrite Hf2 by done. cbn [vs_current vs_with_current].
    destruct (decide (l = level)) as [->|Hne].
    + rewrite Hf1. unfold retain_other. rewrite list_filter_filter. apply list_filter_iff.
      intros f. rewrite not_elem_of_cons.
      split; [intros [Hd Hne]; split; [congruence | done] | intros [Hne Hd]; split; [done | congruence]].
    + rewrite Ho1 by done. apply list_filter_iff. intros f. rewrite not_elem_of_cons.
      split; [intros ?; split; [congruence | done] | by intros [_ ?]].
Qed.

(** Adding files to one level. *)
Lemma replay_adds level metas vs :
  0 <= level -> valid_level (vs_current vs) level ->
  Forall (fun m => 0 <= fm_number m < 2 ^ 64 - 1 /\ fm_number m < vs_next_file_number vs) metas ->
  exists v', replay_edits (map (AddFile level) metas) vs = (Ok tt, vs_with_current v' vs) /\
    version_like (vs_current vs) v' /\
    (version_files v' level ≡ₚ metas ++ version_files (vs_current vs) level) /\
    forall l, 0 <= l -> l <> level -> version_files v' l = version_files (vs_current vs) l.
Proof.
  intros Hl0. revert vs. induction metas as [|m metas IH]; intros vs Hl Hm.
  { exists (vs_current vs). split; [by destruct vs|]. by split; [apply version_like_refl|]. }
  apply Forall_cons in Hm as [[Hm1 Hm2] Hm].
  destruct (add_file_ok level m (vs_current vs) Hl0 Hl) as (v1 & E1 & Hf1 & Ho1 & Hn1 & Hw1).
  assert (version_like (vs_current vs) v1) as L1
    by (constructor; [done | by eapply add_file_unused | done]).
  destruct (IH (vs_with_current v1 vs)) as (v2 & E2 & L2 & Hf2 & Ho2);
    [by eapply valid_level_like | exact Hm |].
  exists v2. split; [|split; [by eapply version_like_trans|split]].
  - unfold replay_edits in *. cbn [map for_each]. erewrite bind_ok; [exact E2|].
    unfold apply_edit. rewrite bind_get_state. cbv zeta. rewrite bind_modify, wrap_small by lia.
    rewrite Z.max_l by lia. unfold change_current. cbn [vs_current vs_with_numbers]. by rewrite E1.
  - rewrite Hf2, Hf1. cbn [vs_current vs_with_current app]. apply Permutation_sym, Permutation_middle.
  - intros l Hge Hne. rewrite Ho2 by done. by apply Ho1.
Qed.

(** The writer of the manifest has no part in a replay. *)
Lemma replay_writer edits vs w vs1 :
  replay_edits edits vs = (Ok tt, vs1) ->
  replay_edits edits (vs_with_writer w vs) = (Ok tt, vs_with_writer w vs1).
Proof.
  revert vs. induction edits as [|e edits IH]; intros vs E; [by injection E as <-|].
  unfold replay_edits in *. cbn [for_each] in *. apply bind_inv in E as ([] & vs2 & E1 & E2).
  rewrite (bind_ok _ _ _ _ _ (apply_edit_with_writer _ w _ _ _ E1)). by apply IH.
Qed.

(** The file counter a replay of the edits leaves. *)
Definition edit_next (e : VersionEdit) : Z :=
  match e with
  | NextFileNumber number => number
  | LogNumber number => wrap64 (number + 1)
  | AddFile _ meta => wrap64 (fm_number meta + 1)
  | LastSequence _ | DeleteFile _ _ => 0
  end.

Definition logged_next (edits : list VersionEdit) : Z :=
  foldl (fun next e => Z.max next (edit_next e)) 2 edits.

Lemma logged_next_snoc edits e : logged_next (edits ++ [e]) = Z.max (logged_next edits) (edit_next e).
Proof. unfold logged_next. by rewrite foldl_app. Qed.

Lemma logged_next_pos edits : 2 <= logged_next edits.
Proof.
  induction edits as [|e edits IH] using rev_ind; [done|]. rewrite logged_next_snoc. lia.
Qed.

Lemma change_current_next m vs vs' : change_current m vs = (Ok tt, vs') ->
  vs_next_file_number vs' = vs_next_file_number vs.
Proof. unfold change_current. destruct (m (vs_current vs)) as [[]]; [by intros [= <-] | done..]. Qed.

Lemma apply_edit_next e vs vs' :
  0 <= vs_next_file_number vs -> apply_edit e vs = (Ok tt, vs') ->
  vs_next_file_number vs' = Z.max (vs_next_file_number vs) (edit_next e).
Proof.
  intros H0. unfold apply_edit. rewrite bind_get_state. cbv zeta.
  destruct e as [k|k|k|level meta|level k]; cbn [edit_next].
  - by intros [= <-].
  - intros [= <-]. cbn. lia.
  - by intros [= <-].
  - rewrite bind_modify. intros E%change_current_next. by rewrite E.
  - intros E%change_current_next. rewrite E. lia.
Qed.

Lemma replay_next max_levels n edits vs :
  replay_edits edits (init_set max_levels n) = (Ok tt, vs) ->
  vs_next_file_number vs = logged_next edits.
Proof.
  revert vs. induction edits as [|e edits IH] using rev_ind; intros vs; [by intros [= <-]|].
  intros E. unfold replay_edits in E. apply for_each_snoc_inv in E as ([] & vs1 & E1 & E).
  rewrite logged_next_snoc, <- (IH vs1 E1). apply apply_edit_next; [|exact E].
  rewrite (IH vs1 E1). pose proof (logged_next_pos edits). lia.
Qed.

(** The edits among the operations: what the manifest gets to know. *)
Fixpoint edits_of (ops : list VsOp) : list VersionEdit :=
  match ops with
  | [] => []
  | VsEdit e :: ops => e :: edits_of ops
  | VsAllocate :: ops => edits_of ops
  end.

Lemma vs_log_steps_ok db max_levels n edits ops vs fs vs' fs' :
  manifest_inv db max_levels n edits vs fs -> fs_oracle fs = [] ->
  Forall op_ok ops -> Forall (fun e => op_bounded (VsEdit e)) edits -> Forall op_bounded ops ->
  for_each ops (fun op (_ : unit) => vs_log_step op) tt (vs, fs) = (Ok tt, (vs', fs')) ->
  manifest_inv db max_levels n (edits ++ edits_of ops) vs' fs' /\ fs_oracle fs' = [] /\
    Forall (fun e => op_bounded (VsEdit e)) (edits ++ edits_of ops).
Proof.
  intros Hinv Ho Hops Hb Hbo. revert edits vs fs Hinv Ho Hb Hbo.
  induction Hops as [|op ops Hop Hops IH]; intros edits vs fs Hinv Ho Hb Hbo E.
  { injection E as <- <-. by rewrite app_nil_r. }
  apply Forall_cons in Hbo as [Hbop Hbo].
  cbn [for_each] in E. apply bind_inv in E as ([] & [vs1 fs1] & E1 & E2).
  destruct op as [e|]; cbn [vs_log_step edits_of] in *.
  - destruct (log_and_apply_ok _ _ _ _ _ _ _ _ _ _ Hinv Ho Hop E1) as (_ & Ho1 & _ & Hinv1).
    rewrite cons_middle, app_assoc.
    apply (IH (edits ++ [e]) vs1 fs1); [by apply Hinv1 | done | | done | done].
    apply Forall_app. split; [done|]. by constructor.
  - injection E1 as <- <-. eapply (IH edits); [|exact Ho|exact Hb|exact Hbo|exact E2].
    destruct Hinv as [Hn Hc He Hw (vs0 & Hr & Hs)]. constructor; [done..|]. by exists vs0.
Qed.

(** C20: a version set that was created and then changed by any sequence
    of logged edits and allocations that succeeded: recovery from the files on
    disk gives the same files on every level, the same last sequence, log
    number and manifest number. The file counter, which allocations change
    without logging it, comes back as what the edits say, the least number
    above all they name, and is above every number in use; it may be below the
    counter of the set. *)
Theorem recover_restores db max_levels ops fs :
  fs_oracle fs = [] -> Forall op_ok ops -> Forall op_bounded ops ->
  exists vs0 fs0, vs_create db max_levels fs = (Ok vs0, fs0) /\
    forall vs fs', for_each ops (fun op (_ : unit) => vs_log_step op) tt (vs0, fs0)
        = (Ok tt, (vs, fs')) ->
      exists vs' fs'', vs_recover db max_levels fs' = (Ok vs', fs'') /\
        same_state vs' vs /\ vs_next_file_number vs' = logged_next (create_edits ++ edits_of ops) /\ vs_wf vs'.
Proof.
  intros Ho Hok Hb. destruct (vs_create_ok db max_levels fs Ho) as (vs0 & fs0 & E0 & Ho0 & Hinv & _).
  exists vs0, fs0. split; [done|]. intros vs fs' E.
  assert (Forall (fun e => op_bounded (VsEdit e)) create_edits) as Hbc by by repeat constructor.
  destruct (vs_log_steps_ok _ _ _ _ _ _ _ _ _ Hinv Ho0 Hok Hbc Hb E)
    as ([Hn Hc He (w & _ & Hp & Hw & _) (vs1 & Hr & Hs)] & Ho' & Hbe).
  destruct (vs_recover_ok db max_levels 1 (create_edits ++ edits_of ops) [] fs') as (fs'' & Er & _); try done.
  - by apply reads_ok_nil.
  - by rewrite app_nil_r, <- Hp.
  - rewrite app_nil_r. by apply manifest_bytes_u8.
  - fold (init_set max_levels 1) in Er. rewrite Hr in Er. eexists _, fs''. split; [exact Er|].
    split; [by apply same_state_writer|]. split; [exact (replay_next _ _ _ _ Hr)|].
    assert (vs_wf (init_set max_levels 1)) as Hwf by apply vs_new_empty_wf.
    by apply (replay_wf _ _ vs1 Hr Hwf).
Qed.

(** The counter after the edits of a compaction. *)
Lemma logged_next_app edits edits' :
  logged_next (edits ++ edits') = foldl (fun next e => Z.max next (edit_next e)) (logged_next edits) edits'.
Proof. unfold logged_next. by rewrite foldl_app. Qed.

Lemma logged_next_deletes edits dels :
  logged_next (edits ++ map delete_edit dels) = logged_next edits.
Proof.
  rewrite logged_next_app. pose proof (logged_next_pos edits) as Hp. revert Hp.
  generalize (logged_next edits). intros k Hp. induction dels as [|d dels IH]; [done|].
  cbn [map foldl]. change (edit_next (delete_edit d)) with 0. by rewrite Z.max_l by lia.
Qed.

Lemma logged_next_adds edits level metas k :
  logged_next edits = k -> k + len metas < 2 ^ 64 -> map fm_number metas = seqZ k (len metas) ->
  logged_next (edits ++ map (AddFile level) metas) = k + len metas.
Proof.
  intros Ek. pose proof (logged_next_pos edits) as Hp. rewrite logged_next_app, Ek in *. clear Ek.
  revert k Hp. induction metas as [|m metas IH]; intros k Hp Hk Hn; [symmetry; apply Z.add_0_r|].
  rewrite len_cons in *. pose proof (len_nonneg metas). rewrite seqZ_cons in Hn by lia.
  cbn [map] in Hn. injection Hn as E Hn. cbn [map foldl edit_next]. rewrite E, wrap_small by lia.
  replace (Z.max k (k + 1)) with (k + 1) by lia.
  replace (Z.succ k) with (k + 1) in Hn by lia. replace (Z.pred (1 + len metas)) with (len metas) in Hn by lia.
  rewrite (IH (k + 1)) by (done || lia). lia.
Qed.

(** C19: a version set in step with its manifest logs one more
    edit in an environment that may fail or stop anywhere, including in the
    middle of a write: what recovery gives afterwards is the state before the
    edit or the state after it, and the state after it when the call reported
    success. *)
Theorem manifest_crash_atomic db max_levels n edits vs fs e r vs' fs' vs_after fs_read :
  manifest_inv db max_levels n edits vs fs -> edit_ok e ->
  apply_edit e vs = (Ok tt, vs_after) ->
  log_and_apply e (vs, fs) = (r, (vs', fs')) ->
  fs_files fs_read = fs_files fs' -> reads_ok fs_read ->
  exists recovered fs'', vs_recover db max_levels fs_read = (Ok recovered, fs'') /\
    (same_state recovered vs_after \/ same_state recovered vs /\ r <> Ok tt).
Proof.
  intros [Hn Hc He (w & Hvw & Hp & Hw) (vs0 & Hr & Hs)] Hok Hap E Hfiles Hreads.
  destruct (manifest_append_prefix e w fs _ Hw) as (r1 & w' & fs1 & b & Ea & Hp' & Hpre & Hr1 & Hw' & Hf).
  unfold log_and_apply in E. rewrite bind_get_state in E. cbn [fst] in E. rewrite Hvw in E.
  unfold mbind, M_bind in E. cbn [fst snd] in E. rewrite Ea in E.
  assert (fs_files fs' = fs_files fs1 /\ (r = Ok tt -> r1 = Ok tt)) as [Hf' Hrr].
  { destruct r1 as [[]|x|]; cbv beta iota in E; [|by injection E as <- _ <-..].
    unfold on_fields, zoom in E. cbn [fst snd] in E.
    match type of E with context [apply_edit e ?v] => destruct (apply_edit e v) as [r2 vs2] end.
    by injection E as <- _ <-. }
  rewrite Hp in Hf.
  assert (fs_files fs_read !! path_join db CURRENT_FILE
    = Some (string_bytes (manifest_file_name n) ++ [10])) as Hc'.
  { rewrite Hfiles, Hf', Hf, lookup_insert_ne by apply manifest_path_ne. done. }
  assert (fs_files fs_read !! path_join db (manifest_file_name n) = Some (manifest_bytes edits ++ b))
    as Hm by (by rewrite Hfiles, Hf', Hf, lookup_insert_eq).
  destruct (apply_edit_same e vs0 vs _ _ Hs Hap) as (vs1 & E1 & Hs1).
  destruct (prefix_torn (edit_encode e) b (edit_loggable e Hok) Hpre) as [Hb|Hb].
  - rewrite Hb, <- manifest_bytes_snoc in Hm.
    assert (Forall edit_ok (edits ++ [e])) as He' by (apply Forall_app; split; [done | by constructor]).
    destruct (vs_recover_ok db max_levels n (edits ++ [e]) [] fs_read) as (fs'' & Er & _); try done.
    + by rewrite app_nil_r.
    + rewrite app_nil_r. by apply manifest_bytes_u8.
    + fold (init_set max_levels n) in Er. rewrite (replay_snoc _ _ _ _ Hr), E1 in Er.
      eexists _, fs''. split; [exact Er|]. left. by apply same_state_writer.
  - destruct (vs_recover_ok db max_levels n edits b fs_read) as (fs'' & Er & _); try done.
    + apply Forall_app. split; [by apply manifest_bytes_u8|].
      destruct Hpre as [x Hx]. pose proof (manifest_bytes_u8 [e] ltac:(by constructor)) as Hu.
      change [e] with ([] ++ [e]) in Hu. rewrite manifest_bytes_snoc, Hx, !Forall_app in Hu. apply Hu.
    + fold (init_set max_levels n) in Er. rewrite Hr in Er.
      eexists _, fs''. split; [exact Er|]. right. split; [by apply same_state_writer|].
      intros Hrok. rewrite (Hr1 tt (Hrr Hrok)) in Hb.
      pose proof (parse_record_full (edit_encode e) [] (edit_loggable e Hok)) as Hfull.
      rewrite app_nil_r in Hfull. congruence.
Qed.

(** C40: [log_and_apply] appends the edit before it checks the level: an
    edit of a level that does not exist is refused, but it is in the manifest,
    and every later recovery fails with the same error. *)
Theorem refused_edit_stays_logged db max_levels n edits e vs fs x vs' fs' :
  manifest_inv db max_levels n edits vs fs -> fs_oracle fs = [] -> edit_ok e ->
  log_and_apply e (vs, fs) = (Err x, (vs', fs')) ->
  exists fs'', vs_recover db max_levels fs' = (Err x, fs'').
Proof.
  intros Hinv Ho Hok E.
  destruct (log_and_apply_ok _ _ _ _ _ _ _ _ _ _ Hinv Ho Hok E) as (Hr & Ho' & Hf & _).
  destruct Hinv as [Hn Hc He (w & Hvw & Hp & Hw) (vs0 & Hr0 & Hs)].
  destruct (apply_edit e vs) as [r1 vs1] eqn:Eap. cbn [fst] in Hr. subst r1.
  destruct (apply_edit_same e vs0 _ _ _ Hs Eap) as (vs2 & E2 & _).
  destruct (vs_recover_ok db max_levels n (edits ++ [e]) [] fs') as (fs'' & Er & _); try done.
  - by apply reads_ok_nil.
  - apply Forall_app. split; [done|]. by constructor.
  - by rewrite Hf, lookup_insert_ne by apply manifest_path_ne.
  - by rewrite app_nil_r, Hf, lookup_insert_eq.
  - rewrite app_nil_r. apply manifest_bytes_u8. apply Forall_app. split; [done|]. by constructor.
  - fold (init_set max_levels n) in Er. rewrite (replay_snoc _ _ _ _ Hr0), E2 in Er.
    by exists fs''.
Qed.
(** ** Reopening without failures *)

Lemma calm_manifest_read_all path : calm id (manifest_read_all path).
Proof.
  apply calm_bind; [apply calm_wal_open|]. intros rd. apply calm_local, calm_wal_for_each.
Qed.

Lemma calm_vs_recover db max_levels : calm id (vs_recover db max_levels).
Proof.
  apply calm_bind.
  { apply calm_bind.
    - apply calm_fallible. intros fs Ho. cbn [id] in *.
      destruct (fs_files fs !! _) as [data|]; [by destruct (utf8_valid data) | done].
    - intros current. cbv zeta. by destruct (trim_end_newlines current). }
  intros name. destruct (parse_manifest_number name) as [n|]; [|done]. cbv zeta.
  apply calm_bind; [apply calm_manifest_read_all|]. intros edits. apply calm_local.
  apply calm_bind; [|intros _; apply calm_bind; [|done]].
  - apply calm_for_each. intros e []. intros [vs fs] Ho. unfold on_fields, zoom. cbn [fst snd].
    by destruct (apply_edit e vs).
  - intros [vs fs] Ho. unfold zoom. cbn [fst snd] in *. unfold manifest_append_to, mbind, M_bind.
    pose proof (calm_open_writable (path_join db name) writable_append fs Ho) as Hc.
    destruct (open_writable _ _ fs) as [[f|e|] fs']; exact Hc.
Qed.

(** Recovery from a manifest in order: the file counter is the one the edits
    give, and the manifest is open at its end again. *)
Lemma vs_recover_clean db max_levels n edits vs fs :
  manifest_inv db max_levels n edits vs fs -> fs_oracle fs = [] ->
  exists vs', vs_recover db max_levels fs = (Ok vs', fs) /\ same_state vs' vs /\
    manifest_inv db max_levels n edits vs' fs /\ vs_next_file_number vs' = logged_next edits.
Proof.
  intros [Hn Hc He (w & _ & Hp & Hw & _) (vs0 & Hr & Hs)] Ho.
  destruct (vs_recover_ok db max_levels n edits [] fs) as (fs' & E & Hf); try done.
  - by apply reads_ok_nil.
  - rewrite app_nil_r, <- Hp. exact Hw.
  - rewrite app_nil_r. by apply manifest_bytes_u8.
  - fold (init_set max_levels n) in E. rewrite Hr in E.
    pose proof (calm_same _ _ _ _ (calm_vs_recover db max_levels) Ho E Hf) as ->.
    eexists. split; [exact E|]. split; [by apply same_state_writer|].
    split; [|by rewrite <- (replay_next _ _ _ _ Hr)].
    constructor; [done | done | done | |].
    + eexists. split; [reflexivity|]. split; [done|]. split; [by rewrite <- Hp | by left].
    + exists vs0. split; [done|]. destruct Hs as (? & ? & ? & ?). done.
Qed.

(** ** Manifests after a crash *)

(** The manifest as a crash leaves it: whole edits, and perhaps the beginning
    of another; [vs] is what they say. *)
Record manifest_on_disk (db : string) (max_levels : usize) (n : u64) (vs : VersionSet) (fs : Fs) :
    Prop := mkManifestOnDisk {
  md_number : u64_ok n;
  md_current : fs_files fs !! path_join db CURRENT_FILE
    = Some (string_bytes (manifest_file_name n) ++ [10]);
  md_edits : exists edits torn vs0, Forall edit_ok edits /\ parse_record torn = Ok None /\
    Forall u8_ok torn /\
    fs_files fs !! path_join db (manifest_file_name n) = Some (manifest_bytes edits ++ torn) /\
    replay_edits edits (init_set max_levels n) = (Ok tt, vs0) /\ same_state vs0 vs
}.

Lemma manifest_inv_on_disk db max_levels n edits vs fs :
  manifest_inv db max_levels n edits vs fs -> manifest_on_disk db max_levels n vs fs.
Proof.
  intros [Hn Hc He (w & _ & Hp & Hw & _) (vs0 & Hr & Hs)]. constructor; [done | done|].
  exists edits, [], vs0. rewrite app_nil_r, <- Hp. split; [done|]. split; [done|]. split; [done|]. by split.
Qed.

Lemma manifest_on_disk_frame db max_levels n vs vs' fs fs' :
  manifest_on_disk db max_levels n vs fs -> same_state vs vs' ->
  fs_files fs' !! path_join db CURRENT_FILE = fs_files fs !! path_join db CURRENT_FILE ->
  fs_files fs' !! path_join db (manifest_file_name n)
    = fs_files fs !! path_join db (manifest_file_name n) ->
  manifest_on_disk db max_levels n vs' fs'.
Proof.
  intros [Hn Hc (edits & torn & vs0 & He & Ht & Hu & Hf & Hr & Hs)] Hsame HC HM.
  constructor; [done | congruence|]. exists edits, torn, vs0. rewrite HM. split_and!; try done.
  destruct Hs as (?&?&?&?), Hsame as (?&?&?&?). repeat split; congruence.
Qed.

Lemma manifest_on_disk_recovers db max_levels n vs fs :
  manifest_on_disk db max_levels n vs fs -> fs_oracle fs = [] ->
  exists vs', vs_recover db max_levels fs = (Ok vs', fs) /\ same_state vs' vs.
Proof.
  intros [Hn Hc (edits & torn & vs0 & He & Ht & Hu & Hf & Hr & Hs)] Ho.
  destruct (vs_recover_ok db max_levels n edits torn fs) as (fs' & E & Hfs'); try done.
  - by apply reads_ok_nil.
  - apply Forall_app. split; [by apply manifest_bytes_u8 | done].
  - fold (init_set max_levels n) in E. rewrite Hr in E.
    pose proof (calm_same _ _ _ _ (calm_vs_recover db max_levels) Ho E Hfs') as ->.
    eexists. split; [exact E|]. by apply same_state_writer.
Qed.

(** A part of the record of an edit behind a manifest. *)
Lemma logged_in_part db max_levels n edits e b vs0 vs2 vs vs1 fs :
  u64_ok n -> Forall edit_ok (edits ++ [e]) ->
  fs_files fs !! path_join db CURRENT_FILE = Some (string_bytes (manifest_file_name n) ++ [10]) ->
  fs_files fs !! path_join db (manifest_file_name n) = Some (manifest_bytes edits ++ b) ->
  b `prefix_of` wal_record (edit_encode e) -> Forall u8_ok b ->
  replay_edits edits (init_set max_levels n) = (Ok tt, vs0) -> same_state vs0 vs ->
  replay_edits (edits ++ [e]) (init_set max_levels n) = (Ok tt, vs2) -> same_state vs2 vs1 ->
  manifest_on_disk db max_levels n vs fs \/ manifest_on_disk db max_levels n vs1 fs.
Proof.
  intros Hn He Hc Hf Hpre Hu Hr Hs Hr2 Hs2. pose proof He as [He0 Hok%Forall_inv]%Forall_app.
  destruct (prefix_torn (edit_encode e) b (edit_loggable e Hok) Hpre) as [->|Ht].
  - right. constructor; [done | done|]. exists (edits ++ [e]), [], vs2.
    rewrite app_nil_r, manifest_bytes_snoc. by split_and!.
  - left. constructor; [done | done|]. exists edits, b, vs0. by split_and!.
Qed.

(** Logging one more edit, whatever the environment does: the manifest says
    what it said, or what it says after the edit. *)
Lemma log_and_apply_faulty db max_levels n edits e vs fs r vs' fs' vs1 :
  manifest_inv db max_levels n edits vs fs -> edit_ok e -> apply_edit e vs = (Ok tt, vs1) ->
  log_and_apply e (vs, fs) = (r, (vs', fs')) ->
  (forall p, p <> path_join db (manifest_file_name n) -> fs_files fs' !! p = fs_files fs !! p) /\
  match r with
  | Ok _ => (exists w, vs' = vs_with_writer w vs1) /\
      manifest_inv db max_levels n (edits ++ [e]) vs' fs'
  | _ => manifest_on_disk db max_levels n vs fs' \/ manifest_on_disk db max_levels n vs1 fs'
  end.
Proof.
  intros [Hn Hc He (w & Hvw & Hp & Hw) (vs0 & Hr & Hs)] Hok Hap E.
  destruct (manifest_append_prefix e w fs _ Hw) as (r1 & w' & fs1 & b & Ea & Hp' & Hpre & Hr1 & Hw' & Hf).
  unfold log_and_apply in E. rewrite bind_get_state in E. cbn [fst] in E. rewrite Hvw in E.
  unfold mbind, M_bind in E. cbn [fst snd] in E. rewrite Ea in E. rewrite Hp in Hf, Hp'.
  assert (Forall edit_ok (edits ++ [e])) as He' by (apply Forall_app; split; [done | by constructor]).
  assert (Forall u8_ok b) as Hub.
  { destruct Hpre as [x Hx]. pose proof (manifest_bytes_u8 [e] ltac:(by constructor)) as Hu.
    change [e] with ([] ++ [e]) in Hu. rewrite manifest_bytes_snoc, Hx, !Forall_app in Hu. apply Hu. }
  destruct (apply_edit_same e vs0 vs _ _ Hs Hap) as (vs2 & E2 & Hs2).
  pose proof (replay_snoc edits e _ _ Hr) as Hr'. rewrite E2 in Hr'.
  assert (fs_files fs1 !! path_join db CURRENT_FILE
    = Some (string_bytes (manifest_file_name n) ++ [10])) as Hc'
    by (rewrite Hf, lookup_insert_ne by apply manifest_path_ne; done).
  assert (fs_files fs1 !! path_join db (manifest_file_name n) = Some (manifest_bytes edits ++ b))
    as Hm' by (by rewrite Hf, lookup_insert_eq).
  pose proof (logged_in_part db max_levels n edits e b vs0 vs2 vs vs1 fs1 Hn He' Hc' Hm' Hpre Hub Hr Hs Hr' Hs2)
    as Hpart.
  destruct r1 as [[]|x|]; cbv beta iota in E.
  - unfold on_fields, zoom in E. cbn [fst snd] in E.
    rewrite (apply_edit_with_writer _ (Some w') _ _ _ Hap) in E. injection E as <- <- <-.
    split; [intros p Hne; rewrite Hf; by apply lookup_insert_ne|]. split; [by eexists|].
    rewrite (Hr1 tt eq_refl), <- manifest_bytes_snoc in Hw'.
    constructor; [done | done | done | by exists w' |]. exists vs2. split; [done|].
    by apply same_state_writer_r.
  - injection E as <- <- <-. split; [intros p Hne; rewrite Hf; by apply lookup_insert_ne|].
    exact Hpart.
  - injection E as <- <- <-. split; [intros p Hne; rewrite Hf; by apply lookup_insert_ne|].
    exact Hpart.
Qed.
End manifest_ok.

(** ** The properties on a short history of version edits *)

Section version_examples.
#[local] Existing Instance toy_externals.

Definition example_meta (number : u64) (key : u8) : FileMeta :=
  mkFileMeta number 100 (mkInternalKey [key] 2 VPut) (mkInternalKey [key; 9] 1 VPut) 1 2.
Definition example_vs_ops : list VsOp :=
  [VsAllocate; VsEdit (AddFile 1 (example_meta 2 7)); VsAllocate;
   VsEdit (AddFile 1 (example_meta 3 1)); VsEdit (DeleteFile 1 2); VsEdit (LastSequence 2);
   VsEdit (LogNumber 4)].
Definition example_version : Version := vs_current (vs_exec_all example_vs_ops (vs_new_empty 3)).

Lemma example_vs_bounded : Forall op_bounded example_vs_ops.
Proof. by repeat (apply List.Forall_cons; [done|]). Qed.

Lemma example_vs_ok : Forall op_ok example_vs_ops.
Proof.
  repeat (apply List.Forall_cons; [first [done | split_and!; [by repeat split | by vm_compute |
    by apply (bool_decide_unpack _); vm_compute]]|]). apply List.Forall_nil.
Qed.

Lemma version_edits_exact_witness :
  valid_level example_version 2 /\ ~ valid_level example_version 3 /\
  (exists v', add_file 2 (example_meta 9 4) example_version = (Ok tt, v') /\
    (version_files v' 2 ≡ₚ [example_meta 9 4])) /\
  delete_file 3 1 example_version = (Err (invalid_level 3), example_version).
Proof.
  assert (valid_level example_version 2) as Hv by by right.
  assert (~ valid_level example_version 3) as Hn by (intros [H | [_ H]]; by vm_compute in H).
  split; [exact Hv|]. split; [exact Hn|]. split.
  - destruct (proj1 (proj1 (version_edits_exact 2 (example_meta 9 4) 1 example_version
      ltac:(lia)) Hv)) as (v' & E & H & _).
    exists v'. split; [exact E | exact H].
  - apply (proj2 (version_edits_exact 3 (example_meta 9 4) 1 example_version ltac:(lia)) Hn).
Defined.

Lemma file_numbers_fresh_witness :
  version_wf example_version /\
  ~ number_in_use (vs_exec_all example_vs_ops (vs_new_empty 3)) 5 /\
  (allocate_file_number (vs_exec_all example_vs_ops (vs_new_empty 3))).1 = 5.
Proof.
  destruct (file_numbers_fresh 3 example_vs_ops example_vs_bounded) as (H1 & H2 & _); [done|].
  split; [exact H1|]. split; [exact H2 | by vm_compute].
Defined.

(** The example is also run against the files. *)
Definition example_logged : res unit * (VersionSet * Fs) :=
  match vs_create "db" 3 (mkFs ∅ ∅ []) with
  | (Ok vs, fs) => for_each example_vs_ops (fun op (_ : unit) => vs_log_step op) tt (vs, fs)
  | (_, fs) => (Panic, (vs_new_empty 3, fs))
  end.

Lemma recover_restores_witness :
  exists vs fs, example_logged = (Ok tt, (vs, fs)) /\
    exists vs' fs'', vs_recover "db" 3 fs = (Ok vs', fs'') /\ same_state vs' vs /\ vs_wf vs' /\
      version_files (vs_current vs') 1 = [example_meta 3 1] /\ vs_next_file_number vs' = 5.
Proof.
  destruct (recover_restores "db" 3 example_vs_ops (mkFs ∅ ∅ []) eq_refl example_vs_ok
    example_vs_bounded) as (vs0 & fs0 & E0 & H).
  destruct example_logged as [r [vs fs]] eqn:El. exists vs, fs.
  assert (r = Ok tt) as -> by (change r with (r, (vs, fs)).1; rewrite <- El; by vm_compute).
  split; [done|]. unfold example_logged in El. rewrite E0 in El.
  destruct (H vs fs El) as (vs' & fs'' & E & Hs & Hnext & Hwf). exists vs', fs''.
  split; [exact E|]. split; [exact Hs|]. split; [exact Hwf|]. split; [|rewrite Hnext; vm_compute; reflexivity].
  destruct Hs as [-> _].
  assert (version_files (vs_current example_logged.2.1) 1 = [example_meta 3 1]) as Ev
    by by vm_compute.
  unfold example_logged in Ev. by rewrite E0, El in Ev.
Defined.

Lemma manifest_crash_atomic_witness :
  exists vs fs vs_after r vs' fs', vs_create "db" 3 (mkFs ∅ ∅ []) = (Ok vs, fs) /\
    apply_edit (LastSequence 8) vs = (Ok tt, vs_after) /\
    log_and_apply (LastSequence 8) (vs, mkFs (fs_files fs) (fs_dirs fs) [IoDone; IoFail 2])
      = (r, (vs', fs')) /\
    exists recovered fs'', vs_recover "db" 3 (mkFs (fs_files fs') (fs_dirs fs') [])
      = (Ok recovered, fs'') /\
      (same_state recovered vs_after \/ same_state recovered vs /\ r <> Ok tt).
Proof.
  destruct (vs_create_ok "db" 3 (mkFs ∅ ∅ []) eq_refl) as (vs & fs & E & Ho & Hinv & _).
  set (fs1 := mkFs (fs_files fs) (fs_dirs fs) [IoDone; IoFail 2]).
  destruct (log_and_apply (LastSequence 8) (vs, fs1)) as [r [vs' fs']] eqn:El.
  destruct (apply_edit (LastSequence 8) vs) as [ra vs_after] eqn:Ea.
  assert (ra = Ok tt) as -> by (by injection Ea as <- _).
  exists vs, fs, vs_after, r, vs', fs'. split; [exact E|]. split; [exact Ea|]. split; [exact El|].
  apply (manifest_crash_atomic "db" 3 1 create_edits vs fs1 (LastSequence 8) r vs' fs' vs_after);
    [| by repeat split; vm_compute; repeat constructor | exact Ea | exact El | done
     | by apply reads_ok_nil].
  destruct Hinv as [H1 H2 H3 H4 H5]. exact (mkManifestInv "db" 3 1 create_edits vs fs1 H1 H2 H3 H4 H5).
Defined.

Lemma refused_edit_stays_logged_witness :
  exists vs fs vs' fs' fs'', vs_create "db" 3 (mkFs ∅ ∅ []) = (Ok vs, fs) /\
    log_and_apply (DeleteFile 5 1) (vs, fs) = (Err (invalid_level 5), (vs', fs')) /\
    vs_recover "db" 3 fs' = (Err (invalid_level 5), fs'').
Proof.
  destruct (vs_create_ok "db" 3 (mkFs ∅ ∅ []) eq_refl) as (vs & fs & E & Ho & Hinv & _).
  destruct (log_and_apply (DeleteFile 5 1) (vs, fs)) as [r [vs' fs']] eqn:El.
  assert (r = Err (invalid_level 5)) as ->.
  { assert ((log_and_apply (DeleteFile 5 1)
      (match vs_create "db" 3 (mkFs ∅ ∅ []) with
       | (Ok vs, fs) => (vs, fs) | (_, fs) => (vs_new_empty 3, fs) end)).1
      = Err (invalid_level 5)) as Ev by by vm_compute.
    by rewrite E, El in Ev. }
  destruct (refused_edit_stays_logged "db" 3 1 create_edits (DeleteFile 5 1) vs fs
    (invalid_level 5) vs' fs' Hinv Ho) as [fs'' Er];
    [by repeat split; vm_compute; repeat constructor | exact El |].
  exists vs, fs, vs', fs', fs''. split; [exact E|]. split; [exact El | exact Er].
Defined.
End version_examples.
