(* ===== verification/TableCache.v ===== *)
(** * The table cache

    [src/cache/table_cache.rs]: the opened tables by file number.  Which entry
    is evicted is the hash map's choice ([HashOrder] of [Cache.v]). *)

From stdpp Require Import base list gmap strings.
From S2P Require Import Prelude Externals Env Cache Reader.

(** [HashMap::keys().next()] over the file numbers. *)
Class NumberHashOrder : Type := {
  number_hash_first : forall V, gmap Z V -> option Z
}.

Class NumberHashOrderOk (H : NumberHashOrder) : Prop := {
  number_hash_first_some : forall V (m : gmap Z V) k, number_hash_first V m = Some k -> is_Some (m !! k);
  number_hash_first_none : forall V (m : gmap Z V), number_hash_first V m = None -> m = ∅
}.

#[export] Instance toy_number_hash_order : NumberHashOrder := {|
  number_hash_first V m := match map_to_list m with (k, _) :: _ => Some k | [] => None end
|}.

#[export] Instance toy_number_hash_order_ok : NumberHashOrderOk toy_number_hash_order.
Proof.
  split.
  - intros V m k. simpl. destruct (map_to_list m) as [|[k' v] l] eqn:E; [done|].
    intros [= <-]. exists v. apply elem_of_map_to_list. rewrite E. by left.
  - intros V m. simpl. destruct (map_to_list m) as [|[k' v] l] eqn:E; [|done].
    intros _. by apply map_to_list_empty_iff.
Qed.

Record TableCache : Type := mkTableCache {
  tc_tables : gmap Z SSTableReader;
  tc_max_entries : usize
}.

Definition table_cache_new (max_entries : usize) : TableCache :=
  mkTableCache ∅ (Z.max max_entries 1).

Section table_cache.
Context `{X : Externals} `{N : NumberHashOrder}.

Definition table_cache_insert (number : u64) (table : SSTableReader) (self : TableCache) :
    TableCache :=
  let tables :=
    if tc_max_entries self <=? Z.of_nat (size (tc_tables self)) then
      match number_hash_first _ (tc_tables self) with
      | Some key => delete key (tc_tables self)
      | None => tc_tables self
      end
    else tc_tables self in
  mkTableCache (<[number := table]> tables) (tc_max_entries self).

Definition get_or_open (number : u64) (path : string) : M (TableCache * Fs) SSTableReader :=
  fun s =>
    match tc_tables s.1 !! number with
    | Some table => (Ok table, s)
    | None =>
        match sst_open_with_env path s.2 with
        | (Ok table, fs) => (Ok table, (table_cache_insert number table s.1, fs))
        | (Err e, fs) => (Err e, (s.1, fs))
        | (Panic, fs) => (Panic, (s.1, fs))
        end
    end.

(** ** What the cache holds *)

(** Every cached reader is the one [tables] gives for its number. *)
Definition tables_agree (tables : Z -> option SSTableReader) (c : TableCache) : Prop :=
  forall n r, tc_tables c !! n = Some r -> tables n = Some r.

Lemma table_cache_insert_agrees tables n r c :
  tables_agree tables c -> tables n = Some r -> tables_agree tables (table_cache_insert n r c).
Proof.
  intros Hc Hn n' r'. unfold table_cache_insert. cbn [tc_tables].
  rewrite lookup_insert_Some. intros [[-> ->]|[_ H]]; [done|].
  apply Hc. destruct (_ <=? _); [|done].
  destruct (number_hash_first _ _); [|done]. by apply lookup_delete_Some in H as [_ ?].
Qed.

(** An open gives the reader of the number, cached or not. *)
Lemma get_or_open_ok tables n path r c fs :
  tables_agree tables c -> tables n = Some r -> sst_open_with_env path fs = (Ok r, fs) ->
  exists c', get_or_open n path (c, fs) = (Ok r, (c', fs)) /\ tables_agree tables c'.
Proof.
  intros Hc Hn Hopen. unfold get_or_open. cbn [fst snd].
  destruct (tc_tables c !! n) as [r'|] eqn:E.
  - pose proof (Hc _ _ E) as E'. rewrite Hn in E'. injection E' as <-. by exists c.
  - rewrite Hopen. exists (table_cache_insert n r c). split; [done|].
    by apply table_cache_insert_agrees.
Qed.
End table_cache.
