(* ===== verification/Options.v ===== *)
(** * Options

    [src/options.rs].  The environment [env] is not a field here: every
    operation runs in the file system of [Env].  A floating-point option is a
    binary64 of the Standard Library's [SpecFloat]. *)

From Stdlib Require Import SpecFloat.
From stdpp Require Import base list gmap.
From S2P Require Import Prelude Format Memtable.

Inductive WalSyncMode : Type :=
  | SyncNever
  | PerWrite.

#[export] Instance WalSyncMode_eq_dec : EqDecision WalSyncMode.
Proof. solve_decision. Defined.

(** [as f64] of an unsigned integer: rounded to nearest, ties to even. *)
Definition f64_of (z : Z) : spec_float := binary_normalize 53 1024 z 0 false.
Definition f64_mul : spec_float -> spec_float -> spec_float := SFmul 53 1024.
Definition f64_div : spec_float -> spec_float -> spec_float := SFdiv 53 1024.
(** [x < y] and [x > y], false for a NaN. *)
Definition f64_lt (x y : spec_float) : bool :=
  match SFcompare x y with Some Lt => true | _ => false end.
Definition f64_gt (x y : spec_float) : bool := f64_lt y x.

(** [as u64] of a binary64: truncated towards zero, saturated, 0 for a NaN. *)
Definition f64_as_u64 (x : spec_float) : u64 :=
  match x with
  | S754_zero _ | S754_nan => 0
  | S754_infinity true => 0
  | S754_infinity false => u64_max
  | S754_finite true _ _ => 0
  | S754_finite false m e =>
      Z.min u64_max (if 0 <=? e then Zpos m * 2 ^ e else Zpos m / 2 ^ (- e))
  end.

Record Options : Type := mkOptions {
  create_if_missing : bool;
  error_if_exists : bool;
  memtable_size : usize;
  max_immutable_memtables : usize;
  block_size : usize;
  target_file_size_base : usize;
  max_levels : usize;
  level0_file_num_compaction_trigger : usize;
  level0_slowdown_writes_trigger : usize;
  level0_stop_writes_trigger : usize;
  max_bytes_for_level_base : usize;
  max_bytes_for_level_multiplier : spec_float;
  wal_enabled : bool;
  wal_sync_mode : WalSyncMode;
  bloom_false_positive_rate : spec_float;
  block_cache_capacity : usize;
  max_background_flushes : usize;
  max_background_compactions : usize;
  max_subcompactions : usize;
  memtable_kind : MemTableKind;
  table_compression : CompressionType;
  write_rate_limit_bytes_per_sec : option u64;
  write_group_max_delay_micros : u64
}.

(** [Options::default]. *)
Definition default_options : Options := {|
  create_if_missing := true;
  error_if_exists := false;
  memtable_size := 4 * 1024 * 1024;
  max_immutable_memtables := 3;
  block_size := 4 * 1024;
  target_file_size_base := 64 * 1024 * 1024;
  max_levels := 7;
  level0_file_num_compaction_trigger := 4;
  level0_slowdown_writes_trigger := 12;
  level0_stop_writes_trigger := 20;
  max_bytes_for_level_base := 256 * 1024 * 1024;
  max_bytes_for_level_multiplier := f64_of 10;
  wal_enabled := true;
  wal_sync_mode := SyncNever;
  bloom_false_positive_rate := f64_div (f64_of 1) (f64_of 100);
  block_cache_capacity := 64 * 1024 * 1024;
  max_background_flushes := 1;
  max_background_compactions := 1;
  max_subcompactions := 1;
  memtable_kind := KBTree;
  table_compression := CNone;
  write_rate_limit_bytes_per_sec := None;
  write_group_max_delay_micros := 250
|}.

Record WriteOptions : Type := mkWriteOptions { wo_sync : bool; wo_disable_wal : bool }.
Definition default_write_options : WriteOptions := mkWriteOptions false false.
