(* ===== verification/Metrics.v ===== *)
(** * Counters and the write rate limiter

    [src/metrics.rs] and [src/util/rate_limiter.rs].  The counters are atomics
    that only grow, modulo [2^64].  A point in time or a duration of
    [std::time] is a number of nanoseconds without a bound: the panic of
    [last_refill += wait] where an [Instant] overflows is not modelled. *)

From Stdlib Require Import SpecFloat.
From stdpp Require Import base list gmap.
From S2P Require Import Prelude Cache Options.

(** ** [metrics.rs] *)

Record Metrics : Type := mkMetrics {
  user_write_bytes : u64;
  wal_write_bytes : u64;
  wal_sync_count : u64;
  sst_write_bytes : u64;
  compaction_read_bytes : u64;
  compaction_write_bytes : u64;
  subcompaction_tasks : u64;
  max_subcompaction_parallelism : u64;
  bloom_useful : u64;
  bloom_false_positive : u64
}.

Definition metrics_new : Metrics := mkMetrics 0 0 0 0 0 0 0 0 0 0.

(** [fetch_add] wraps around. *)
Definition fetch_add (counter n : u64) : u64 := wrap64 (counter + n).

Definition record_user_write (n : u64) (m : Metrics) : Metrics :=
  mkMetrics (fetch_add (user_write_bytes m) n) (wal_write_bytes m) (wal_sync_count m)
    (sst_write_bytes m) (compaction_read_bytes m) (compaction_write_bytes m)
    (subcompaction_tasks m) (max_subcompaction_parallelism m) (bloom_useful m)
    (bloom_false_positive m).
Definition record_wal_write (n : u64) (m : Metrics) : Metrics :=
  mkMetrics (user_write_bytes m) (fetch_add (wal_write_bytes m) n) (wal_sync_count m)
    (sst_write_bytes m) (compaction_read_bytes m) (compaction_write_bytes m)
    (subcompaction_tasks m) (max_subcompaction_parallelism m) (bloom_useful m)
    (bloom_false_positive m).
Definition record_wal_sync (m : Metrics) : Metrics :=
  mkMetrics (user_write_bytes m) (wal_write_bytes m) (fetch_add (wal_sync_count m) 1)
    (sst_write_bytes m) (compaction_read_bytes m) (compaction_write_bytes m)
    (subcompaction_tasks m) (max_subcompaction_parallelism m) (bloom_useful m)
    (bloom_false_positive m).
Definition record_sst_write (n : u64) (m : Metrics) : Metrics :=
  mkMetrics (user_write_bytes m) (wal_write_bytes m) (wal_sync_count m)
    (fetch_add (sst_write_bytes m) n) (compaction_read_bytes m) (compaction_write_bytes m)
    (subcompaction_tasks m) (max_subcompaction_parallelism m) (bloom_useful m)
    (bloom_false_positive m).
Definition record_compaction_read (n : u64) (m : Metrics) : Metrics :=
  mkMetrics (user_write_bytes m) (wal_write_bytes m) (wal_sync_count m)
    (sst_write_bytes m) (fetch_add (compaction_read_bytes m) n) (compaction_write_bytes m)
    (subcompaction_tasks m) (max_subcompaction_parallelism m) (bloom_useful m)
    (bloom_false_positive m).
Definition record_compaction_write (n : u64) (m : Metrics) : Metrics :=
  mkMetrics (user_write_bytes m) (wal_write_bytes m) (wal_sync_count m)
    (sst_write_bytes m) (compaction_read_bytes m) (fetch_add (compaction_write_bytes m) n)
    (subcompaction_tasks m) (max_subcompaction_parallelism m) (bloom_useful m)
    (bloom_false_positive m).
Definition record_subcompaction_tasks (tasks : u64) (m : Metrics) : Metrics :=
  mkMetrics (user_write_bytes m) (wal_write_bytes m) (wal_sync_count m)
    (sst_write_bytes m) (compaction_read_bytes m) (compaction_write_bytes m)
    (fetch_add (subcompaction_tasks m) tasks) (Z.max (max_subcompaction_parallelism m) tasks)
    (bloom_useful m) (bloom_false_positive m).
Definition record_bloom_useful (m : Metrics) : Metrics :=
  mkMetrics (user_write_bytes m) (wal_write_bytes m) (wal_sync_count m)
    (sst_write_bytes m) (compaction_read_bytes m) (compaction_write_bytes m)
    (subcompaction_tasks m) (max_subcompaction_parallelism m) (fetch_add (bloom_useful m) 1)
    (bloom_false_positive m).
Definition record_bloom_false_positive (m : Metrics) : Metrics :=
  mkMetrics (user_write_bytes m) (wal_write_bytes m) (wal_sync_count m)
    (sst_write_bytes m) (compaction_read_bytes m) (compaction_write_bytes m)
    (subcompaction_tasks m) (max_subcompaction_parallelism m) (bloom_useful m)
    (fetch_add (bloom_false_positive m) 1).

(** [MetricsSnapshot]: the counters and the block cache's. *)
Record MetricsSnapshot : Type := mkMetricsSnapshot {
  ms_metrics : Metrics;
  ms_block_cache_hits : u64;
  ms_block_cache_misses : u64
}.

Definition metrics_snapshot_of (m : Metrics) (cache_stats : CacheStats) : MetricsSnapshot :=
  mkMetricsSnapshot m (hits cache_stats) (misses cache_stats).

(** ** [rate_limiter.rs] *)

Abbreviation instant := Z (only parsing).
Abbreviation duration := Z (only parsing).
Definition nanos_per_sec : Z := 10 ^ 9.

(** [Duration::as_secs_f64]: seconds plus nanoseconds over [10^9]. *)
Definition as_secs_f64 (d : duration) : spec_float :=
  SFadd 53 1024 (f64_of (d / nanos_per_sec))
    (f64_div (f64_of (d mod nanos_per_sec)) (f64_of nanos_per_sec)).

(** [Duration::from_secs_f64]: rounded to the nearest nanosecond, ties to
    even; a negative, infinite, NaN or overflowing value panics. *)
Definition round_half_even (num den : Z) : Z :=
  let q := num / den in
  let r := num mod den in
  if 2 * r <? den then q
  else if den <? 2 * r then q + 1
  else if Z.even q then q else q + 1.

Definition from_secs_f64 (x : spec_float) : res duration :=
  match x with
  | S754_zero _ => Ok 0
  | S754_finite false m e =>
      let ns :=
        if 0 <=? e then Zpos m * 2 ^ e * nanos_per_sec
        else round_half_even (Zpos m * nanos_per_sec) (2 ^ (- e)) in
      if 2 ^ 64 * nanos_per_sec <=? ns then Panic else Ok ns
  | _ => Panic
  end.

Record RateLimiter : Type := mkRateLimiter {
  bytes_per_sec : u64;
  available : u64;
  last_refill : instant
}.

Definition rate_limiter_new (rate : u64) (now : instant) : RateLimiter :=
  mkRateLimiter (Z.max rate 1) (Z.max rate 1) now.

(** The tokens of the time since the last refill. *)
Definition refill_amount (elapsed : duration) (rate : u64) : u64 :=
  f64_as_u64 (f64_mul (as_secs_f64 elapsed) (f64_of rate)).

Definition refill (now : instant) (self : RateLimiter) : RateLimiter :=
  if last_refill self <=? now then
    let elapsed := Z.max 0 (now - last_refill self) in
    let refill := refill_amount elapsed (bytes_per_sec self) in
    let available :=
      if 0 <? refill then Z.min (wrap64 (available self + refill)) (bytes_per_sec self)
      else available self in
    mkRateLimiter (bytes_per_sec self) available now
  else self.

(** How long the caller has to wait. *)
Definition reserve (n : u64) (now : instant) : M RateLimiter duration := fun self =>
  let self := refill now self in
  if n <=? available self
  then (Ok 0, mkRateLimiter (bytes_per_sec self) (available self - n) (last_refill self))
  else
    let missing := n - available self in
    let self := mkRateLimiter (bytes_per_sec self) 0 (last_refill self) in
    match from_secs_f64 (f64_div (f64_of missing) (f64_of (bytes_per_sec self))) with
    | Ok wait =>
        let self := mkRateLimiter (bytes_per_sec self) 0 (last_refill self + wait) in
        (Ok (Z.max 0 (last_refill self - now)), self)
    | Err e => (Err e, self)
    | Panic => (Panic, self)
    end.

(** ** The limiter's invariant *)

Definition limiter_ok (l : RateLimiter) : Prop :=
  1 <= bytes_per_sec l < 2 ^ 64 /\ 0 <= available l <= bytes_per_sec l.

Lemma limiter_new_ok rate now : u64_ok rate -> limiter_ok (rate_limiter_new rate now).
Proof. intros [? ?]. unfold limiter_ok, rate_limiter_new. cbn. lia. Qed.

Lemma refill_ok now l : limiter_ok l -> limiter_ok (refill now l) /\
  bytes_per_sec (refill now l) = bytes_per_sec l /\
  last_refill (refill now l) = Z.max now (last_refill l).
Proof.
  intros [Hb Ha]. unfold refill. destruct (Z.leb_spec (last_refill l) now).
  - cbn. split; [|split; [done | lia]]. split; [done|]. cbn. destruct (0 <? _); [|done].
    match goal with |- context [wrap 64 ?z] => pose proof (wrap_range 64 z ltac:(lia)) end. lia.
  - split; [done|]. split; [done | lia].
Qed.

Lemma reserve_ok n now l :
  limiter_ok l -> 0 <= n ->
  let '(r, l') := reserve n now l in
  limiter_ok l' /\ bytes_per_sec l' = bytes_per_sec l /\
  (n <= available (refill now l) -> r = Ok 0 /\ available l' = available (refill now l) - n) /\
  (available (refill now l) < n -> available l' = 0).
Proof.
  intros Hl Hn. destruct (refill_ok now l Hl) as ([Hb Ha] & Er & _). unfold reserve. cbv zeta.
  set (l1 := refill now l) in *. destruct (Z.leb_spec n (available l1)).
  - cbn. split; [|split; [done|split; [done | lia]]]. split; cbn; [done | lia].
  - cbn [bytes_per_sec]. destruct (from_secs_f64 _); cbn;
      (split; [split; cbn; [done | lia] | split; [done | split; [lia | done]]]).
Qed.
