(* ===== verification/Compact.v ===== *)
(** * Compaction

    [src/compact/]: which versions survive, the size limit of a level, the
    task, the picker; and [split_compaction_entries] of [src/db.rs], which
    cuts the output into files. *)

From Stdlib Require Import Sorting.Sorted SpecFloat.
From stdpp Require Import base list gmap sorting.
From S2P Require Import Prelude Key Spec Memtable Options Version.

(** ** [executor.rs] *)

(** The body of the loop; [seen] holds the user keys whose newest version at
    or below the watermark has been met. *)
Definition compact_step (gc_watermark : u64) (drop_tombstones : bool)
    (acc : gset bytes * list entry) (e : entry) : gset bytes * list entry :=
  let '(seen, output) := acc in
  let '(key, value) := e in
  if gc_watermark <? sequence key then (seen, output ++ [(key, value)])
  else if bool_decide (user_key key ∈ seen) then (seen, output)
  else
    let seen := {[user_key key]} ∪ seen in
    match value with
    | RPut _ => (seen, output ++ [(key, value)])
    | RDelete => if negb drop_tombstones then (seen, output ++ [(key, value)]) else (seen, output)
    end.

Definition compact_entries (entries : list entry) (gc_watermark : u64)
    (drop_tombstones : bool) : list entry :=
  let entries := sort_by (cmp_key ikey_cmp) entries in
  (foldl (compact_step gc_watermark drop_tombstones) (∅, []) entries).2.

(** ** [leveled.rs] *)

(** [f64::powi] by repeated squaring, as the compiler's runtime computes it
    for a positive exponent. *)
Fixpoint powi_loop (fuel : nat) (r a : spec_float) (b : Z) : spec_float :=
  match fuel with
  | O => r
  | S fuel =>
      let r := if Z.odd b then f64_mul r a else r in
      if b / 2 =? 0 then r else powi_loop fuel r (f64_mul a a) (b / 2)
  end.
Definition powi (a : spec_float) (b : Z) : spec_float := powi_loop 32 (f64_of 1) a b.

Definition max_bytes_for_level (options : Options) (level : usize) : u64 :=
  if level <=? 1 then max_bytes_for_level_base options
  else
    let multiplier := powi (max_bytes_for_level_multiplier options) (level - 1) in
    f64_as_u64 (f64_mul (f64_of (max_bytes_for_level_base options)) multiplier).

(** ** [task.rs] *)

Record CompactionTask : Type := mkCompactionTask {
  ct_input_level : usize;
  ct_output_level : usize;
  ct_input_files : list FileMeta;
  ct_overlap_files : list FileMeta;
  ct_smallest_user_key : bytes;
  ct_largest_user_key : bytes;
  ct_is_manual : bool
}.

Definition all_input_files (self : CompactionTask) : list FileMeta :=
  ct_input_files self ++ ct_overlap_files self.

Definition is_trivial_move (self : CompactionTask) : bool :=
  (0 <? ct_input_level self) && (len (ct_input_files self) =? 1)
  && match ct_overlap_files self with [] => true | _ => false end.

(** ** [picker.rs] *)

Definition user_key_overlaps (self : FileMeta) (smallest largest : bytes) : bool :=
  leb bytes_cmp (user_key (fm_smallest self)) largest
  && leb bytes_cmp smallest (user_key (fm_largest self)).

(** [Iterator::min] and [max] over keys; equal keys are interchangeable. *)
Definition min_key (a b : bytes) : bytes := if leb bytes_cmp a b then a else b.
Definition max_key (a b : bytes) : bytes := if leb bytes_cmp a b then b else a.

(** [None] is the failed [expect] on no files. *)
Definition user_key_range (files : list FileMeta) : option (bytes * bytes) :=
  match files with
  | [] => None
  | f :: fs =>
      Some (foldl (fun m f => min_key m (user_key (fm_smallest f))) (user_key (fm_smallest f)) fs,
            foldl (fun m f => max_key m (user_key (fm_largest f))) (user_key (fm_largest f)) fs)
  end.

Definition file_overlaps_range (file : FileMeta) (lower upper : Bound) : bool :=
  let lower_ok :=
    match lower with
    | Included bound => leb bytes_cmp bound (user_key (fm_largest file))
    | Excluded bound => ltb bytes_cmp bound (user_key (fm_largest file))
    | Unbounded => true
    end in
  let upper_ok :=
    match upper with
    | Included bound => leb bytes_cmp (user_key (fm_smallest file)) bound
    | Excluded bound => ltb bytes_cmp (user_key (fm_smallest file)) bound
    | Unbounded => true
    end in
  lower_ok && upper_ok.

(** [usize::saturating_sub]. *)
Definition saturating_sub (a b : usize) : usize := Z.max 0 (a - b).

Definition task_for_files (version : Version) (input_level : usize)
    (input_files : list FileMeta) (is_manual : bool) : res CompactionTask :=
  let output_level := Z.min (input_level + 1) (saturating_sub (len (v_levels version)) 1) in
  match user_key_range input_files with
  | None => Panic
  | Some (input_smallest_user_key, input_largest_user_key) =>
      let overlap_files :=
        match v_levels version !! Z.to_nat output_level with
        | None => []
        | Some level =>
            if input_level =? 0 then level
            else filter (fun file =>
              user_key_overlaps file input_smallest_user_key input_largest_user_key = true) level
        end in
      let range :=
        match overlap_files with
        | [] => Some (input_smallest_user_key, input_largest_user_key)
        | _ => user_key_range (input_files ++ overlap_files)
        end in
      match range with
      | None => Panic
      | Some (smallest_user_key, largest_user_key) =>
          Ok (mkCompactionTask input_level output_level input_files overlap_files
                smallest_user_key largest_user_key is_manual)
      end
  end.

(** The levels [1..levels.len().saturating_sub(1)]. *)
Definition inner_levels (version : Version) : list Z :=
  map Z.of_nat (seq 1 (length (v_levels version) - 2)).

Definition level_files (version : Version) (level : usize) : list FileMeta :=
  default [] (v_levels version !! Z.to_nat level).

Definition sum_sizes (files : list FileMeta) : u64 :=
  foldl (fun acc f => wrap64 (acc + fm_file_size f)) 0 files.

Section picker.
Context (options : Options).

Definition best_score (version : Version) : usize * spec_float :=
  let l0_trigger := f64_of (Z.max (level0_file_num_compaction_trigger options) 1) in
  let best := (0, f64_div (f64_of (len (v_l0_files version))) l0_trigger) in
  foldl (fun best level =>
    let bytes := sum_sizes (level_files version level) in
    let score := f64_div (f64_of bytes) (f64_of (Z.max (max_bytes_for_level options level) 1)) in
    if f64_gt score best.2 then (level, score) else best) best (inner_levels version).

Definition pick_level (version : Version) (level : usize) (is_manual : bool) :
    res (option CompactionTask) :=
  if level =? 0 then
    match v_l0_files version with
    | [] => Ok None
    | files => Some <$> task_for_files version 0 files is_manual
    end
  else
    match v_levels version !! Z.to_nat level with
    | Some (file :: _) => Some <$> task_for_files version level [file] is_manual
    | _ => Ok None
    end.

Definition pick (version : Version) : res (option CompactionTask) :=
  let '(level, score) := best_score version in
  if f64_lt score (f64_of 1) then Ok None
  else pick_level version level false.

Definition pick_l0_manual (version : Version) (lower upper : Bound) :
    res (option CompactionTask) :=
  match filter (fun file => file_overlaps_range file lower upper = true) (v_l0_files version) with
  | [] => Ok None
  | files => Some <$> task_for_files version 0 files true
  end.

Fixpoint pick_first_level (version : Version) (lower upper : Bound) (levels : list Z) :
    res (option CompactionTask) :=
  match levels with
  | [] => Ok None
  | level :: levels =>
      match filter (fun file => file_overlaps_range file lower upper = true)
              (level_files version level) with
      | file :: _ => Some <$> task_for_files version level [file] true
      | [] => pick_first_level version lower upper levels
      end
  end.

Definition pick_manual (version : Version) (lower upper : Bound) :
    res (option CompactionTask) :=
  task ← pick_l0_manual version lower upper;
  match task with
  | Some task => Ok (Some task)
  | None => pick_first_level version lower upper (inner_levels version)
  end.
End picker.

(** ** [split_compaction_entries] of [db.rs] *)

Definition estimate_entry_size (e : entry) : usize :=
  len (user_key e.1) + INTERNAL_KEY_SIZE
  + match e.2 with RPut value => len value | RDelete => 0 end.

Record SplitState : Type := mkSplitState {
  sp_chunks : list (list entry);
  sp_current : list entry;
  sp_current_size : usize;
  sp_previous_user_key : bytes
}.

Definition is_nil {A} (l : list A) : bool := match l with [] => true | _ => false end.

Definition split_step (target_file_size max_outputs : usize) (s : SplitState) (e : entry) :
    SplitState :=
  let entry_size := estimate_entry_size e in
  let user_key_changed :=
    is_nil (sp_previous_user_key s)
    || negb (bool_decide (sp_previous_user_key s = user_key e.1)) in
  let s :=
    if negb (is_nil (sp_current s)) && user_key_changed
       && (target_file_size <=? sp_current_size s)
       && (len (sp_chunks s) + 1 <? max_outputs)
    then mkSplitState (sp_chunks s ++ [sp_current s]) [] 0 (sp_previous_user_key s)
    else s in
  mkSplitState (sp_chunks s) (sp_current s ++ [e]) (sp_current_size s + entry_size)
    (user_key e.1).

Definition split_compaction_entries (entries : list entry) (target_file_size : usize)
    (max_outputs : usize) : list (list entry) :=
  let max_outputs := Z.max max_outputs 1 in
  let target_file_size := Z.max target_file_size 1 in
  let s := foldl (split_step target_file_size max_outputs) (mkSplitState [] [] 0 []) entries in
  if negb (is_nil (sp_current s)) then sp_chunks s ++ [sp_current s] else sp_chunks s.

(** ** What compaction keeps *)

(** The loop on a sorted list, without its accumulator. *)
Fixpoint survivors (wm : u64) (drop_tombstones : bool) (seen : gset bytes) (es : list entry) :
    list entry :=
  match es with
  | [] => []
  | e :: es =>
      if wm <? sequence e.1 then e :: survivors wm drop_tombstones seen es
      else if bool_decide (user_key e.1 ∈ seen) then survivors wm drop_tombstones seen es
      else
        let rest := survivors wm drop_tombstones ({[user_key e.1]} ∪ seen) es in
        match e.2 with
        | RPut _ => e :: rest
        | RDelete => if negb drop_tombstones then e :: rest else rest
        end
  end.

Lemma compact_steps wm d es seen out :
  (foldl (compact_step wm d) (seen, out) es).2 = out ++ survivors wm d seen es.
Proof.
  revert seen out. induction es as [|[k v] es IH]; intros seen out; cbn [foldl survivors fst snd];
    [by rewrite app_nil_r|].
  cbn [compact_step]. destruct (wm <? sequence k); [by rewrite IH, <- app_assoc|].
  destruct (bool_decide (user_key k ∈ seen)); [apply IH|].
  destruct v; [by rewrite IH, <- app_assoc|].
  destruct (negb d); [by rewrite IH, <- app_assoc | apply IH].
Qed.

Lemma compact_survivors es wm d :
  compact_entries es wm d = survivors wm d ∅ (sort_by (cmp_key ikey_cmp) es).
Proof. unfold compact_entries. by rewrite compact_steps. Qed.

(** What survives: everything above the watermark, and of each user key the
    newest version at or below it, unless it is a tombstone to be dropped. *)
Definition survives (wm : u64) (drop_tombstones : bool) (es : list entry) (e : entry) : Prop :=
  wm < sequence e.1 \/
  (newest_entry (user_key e.1) wm es = Some e /\ (drop_tombstones = true -> e.2 <> RDelete)).

Lemma survivors_elem wm d seen es e :
  sorted_entries es -> consistent es ->
  e ∈ survivors wm d seen es <->
  e ∈ es /\ (wm < sequence e.1 \/
    (user_key e.1 ∉ seen) /\ newest_entry (user_key e.1) wm es = Some e /\
    (d = true -> e.2 <> RDelete)).
Proof.
  intros Hs Hc. revert seen. induction Hs as [|x es Hs IH Hf]; intros seen; cbn [survivors].
  { rewrite !elem_of_nil. tauto. }
  assert (consistent es) as Hc' by (intros a b Ha Hb; apply Hc; by right).
  specialize (IH Hc'). rewrite newest_entry_sorted by by constructor.
  setoid_rewrite (newest_entry_sorted _ _ es Hs) in IH. unfold first_visible in *.
  destruct (Z.ltb_spec wm (sequence x.1)) as [Hx|Hx].
  - assert (visible (user_key e.1) wm x = true -> False) as Hv
      by (intros [_ ?]%visible_spec; lia).
    rewrite filter_cons_False by exact Hv.
    rewrite !elem_of_cons, IH. split; [|intuition (subst; auto)]. intros [->|[He H]]; auto.
  - destruct (decide (user_key e.1 = user_key x.1)) as [Hk|Hk].
    + assert (visible (user_key e.1) wm x = true) as Hv by (by apply visible_spec).
      rewrite filter_cons_True by exact Hv. cbn [head].
      case_bool_decide as Hin.
      * rewrite IH, elem_of_cons. rewrite Hk. split; [intuition|].
        intros [[->|He] [H|(H & _)]]; [lia | done | auto | done].
      * destruct x.2 as [v|] eqn:Ex; [|destruct d; cbn [negb]].
        -- rewrite !elem_of_cons, IH. split.
           ++ intros [->|[He [H|(H & _)]]]; [| by auto | rewrite Hk in H; set_solver].
              split; [by left|]. right. split; [done|]. split; [done|]. by rewrite Ex.
           ++ intros [He [H|(H & Hn & _)]]; [tauto | injection Hn as Hn; by left].
        -- rewrite IH, elem_of_cons. split.
           ++ intros [He [H|(H & _)]]; [by auto | rewrite Hk in H; set_solver].
           ++ intros [He [H|(H & Hn & Hd)]].
              ** destruct He as [->|He]; [lia | auto].
              ** injection Hn as Hn. destruct (Hd eq_refl). congruence.
        -- rewrite !elem_of_cons, IH. split.
           ++ intros [->|[He [H|(H & _)]]]; [| by auto | rewrite Hk in H; set_solver].
              split; [by left|]. right. split; [done|]. by split.
           ++ intros [He [H|(H & Hn & _)]]; [tauto | injection Hn as Hn; by left].
    + assert (visible (user_key e.1) wm x = true -> False) as Hv
        by (intros [? _]%visible_spec; congruence).
      rewrite filter_cons_False by exact Hv. rewrite elem_of_cons.
      assert (e <> x) as Hne by congruence.
      assert (forall s, e ∈ survivors wm d s es <-> e ∈ es /\ (wm < sequence e.1 \/
        (user_key e.1 ∉ s) /\ head (filter (fun e0 => visible (user_key e.1) wm e0 = true) es) = Some e /\
        (d = true -> e.2 <> RDelete))) as IH' by (intros s; apply IH).
      case_bool_decide as Hin; [rewrite IH'; tauto|].
      destruct x.2; [|destruct (negb d)]; rewrite ?elem_of_cons, IH'; rewrite not_elem_of_union,
        not_elem_of_singleton; tauto.
Qed.

Lemma consistent_perm es es' : es ≡ₚ es' -> consistent es -> consistent es'.
Proof. intros Hp Hc a b. rewrite <- Hp. apply Hc. Qed.

Lemma compact_elem es wm d e :
  consistent es -> e ∈ compact_entries es wm d <-> e ∈ es /\ survives wm d es e.
Proof.
  intros Hc. rewrite compact_survivors.
  pose proof (sort_by_perm (cmp_key ikey_cmp) es) as Hp.
  assert (consistent (sort_by (cmp_key ikey_cmp) es)) as Hc' by (by eapply consistent_perm; [symmetry|]).
  rewrite survivors_elem by (done || by apply sort_by_sorted; apply _).
  rewrite sort_by_elem. unfold survives.
  assert (newest_entry (user_key e.1) wm (sort_by (cmp_key ikey_cmp) es)
    = newest_entry (user_key e.1) wm es) as ->.
  { apply newest_entry_ext; [done|]. intros x _. by rewrite Hp. }
  pose proof (not_elem_of_empty (C := gset bytes) (user_key e.1)). tauto.
Qed.

Lemma survivors_sublist wm d seen es : survivors wm d seen es `sublist_of` es.
Proof.
  revert seen. induction es as [|e es IH]; intros seen; cbn [survivors]; [done|].
  destruct (wm <? _); [by constructor|]. case_bool_decide; [by constructor|].
  destruct e.2; [by constructor|]. destruct (negb d); by constructor.
Qed.

Lemma sublist_sorted {A} (R : A -> A -> Prop) l k :
  l `sublist_of` k -> StronglySorted R k -> StronglySorted R l.
Proof.
  induction 1 as [|x l k Hsub IH|x l k Hsub IH]; intros Hs; [constructor| |];
    apply StronglySorted_inv in Hs as [Hs Hf]; [|by apply IH].
  constructor; [by apply IH|]. apply Forall_forall. intros y Hy. rewrite Forall_forall in Hf.
  apply Hf. by eapply elem_of_submseteq; [|apply sublist_submseteq].
Qed.

Lemma compact_sorted es wm d : sorted_entries (compact_entries es wm d).
Proof.
  rewrite compact_survivors. eapply sublist_sorted; [apply survivors_sublist|].
  by apply sort_by_sorted; apply _.
Qed.

(** The newest version for a read at or above the watermark survives, unless it
    is a dropped tombstone; then nothing the read may see survives. *)
Lemma compact_newest es wm d key s :
  consistent es -> wm <= s ->
  newest_entry key s (compact_entries es wm d)
  = match newest_entry key s es with
    | Some e => if d && bool_decide (e.2 = RDelete) && (sequence e.1 <=? wm) then None else Some e
    | None => None
    end.
Proof.
  intros Hc Hs.
  assert (consistent (compact_entries es wm d)) as Hc'.
  { intros a b Ha Hb. apply compact_elem in Ha, Hb; [|done..]. apply Hc; tauto. }
  destruct (newest_entry key s es) as [e|] eqn:En.
  - apply newest_entry_some in En as (He & Hv & Hle). apply visible_spec in Hv as [Hk Hseq].
    assert (sequence e.1 <= wm -> newest_entry (user_key e.1) wm es = Some e) as Hwm.
    { intros Hw. apply newest_entry_unique; [done | done | by apply visible_spec |].
      intros e' He' [Hk' Hs']%visible_spec. apply Hle; [done|]. apply visible_spec.
      split; [congruence | lia]. }
    destruct (d && bool_decide (e.2 = RDelete) && (sequence e.1 <=? wm)) eqn:Ed.
    + apply andb_true_iff in Ed as [[-> Hd]%andb_true_iff Hw]. apply bool_decide_eq_true in Hd.
      apply Z.leb_le in Hw. apply newest_entry_none. intros x Hx.
      destruct (visible key s x) eqn:Evx; [|done]. exfalso.
      apply compact_elem in Hx as [Hx Hsv]; [|done]. pose proof (Hle x Hx Evx) as Hex.
      apply visible_spec in Evx as [Hkx Hsx]. destruct Hsv as [Habove|[Hnew Hdel]].
      * apply ikey_le_spec in Hex as [Hlt|[_ [H|[H _]]]]; [|lia..].
        rewrite Hk, Hkx in Hlt. by apply ord_irrefl in Hlt; [|apply _].
      * rewrite Hkx, <- Hk, Hwm in Hnew by done. injection Hnew as ->. by apply Hdel.
    + apply newest_entry_unique; [done| | by apply visible_spec |].
      * apply compact_elem; [done|]. split; [done|]. unfold survives.
        destruct (Z.leb_spec (sequence e.1) wm) as [Hw|Hw]; [right | left; lia].
        split; [by apply Hwm|]. intros ->. cbn [andb] in Ed.
        rewrite andb_true_r in Ed. by apply bool_decide_eq_false in Ed.
      * intros e' He' Hv'. apply compact_elem in He' as [He' _]; [|done]. by apply Hle.
  - rewrite newest_entry_none in *. intros e He. apply compact_elem in He as [He _]; [|done].
    by apply En.
Qed.

(** ** Cutting the output into files *)

Definition keys_below (c c' : list entry) : Prop :=
  forall e e', e ∈ c -> e' ∈ c' -> bytes_cmp (user_key e.1) (user_key e'.1) = Lt.

Record split_inv (max_outputs : usize) (s : SplitState) (done_entries : list entry) : Prop :=
  mkSplitInv {
  si_all : concat (sp_chunks s) ++ sp_current s = done_entries;
  si_nonempty : Forall (fun c => c <> []) (sp_chunks s);
  si_count : len (sp_chunks s) + 1 <= max_outputs;
  si_previous : done_entries <> [] ->
    sp_current s <> [] /\ exists e, last done_entries = Some e /\ sp_previous_user_key s = user_key e.1;
  si_cut : StronglySorted keys_below (sp_chunks s);
  si_below : Forall (fun c => keys_below c (sp_current s)) (sp_chunks s)
}.

Lemma keys_below_snoc c c' e :
  c' <> [] -> keys_below c c' -> (forall x, x ∈ c' -> ord_le bytes_cmp (user_key x.1) (user_key e.1)) ->
  keys_below c (c' ++ [e]).
Proof.
  intros Hne Hb Hle a b Ha Hb'. apply elem_of_app in Hb' as [Hb' | ->%list_elem_of_singleton].
  - by apply Hb.
  - destruct c' as [|x c']; [done|]. apply (ord_lt_le_trans bytes_cmp _ (user_key x.1)).
    + apply Hb; [done | by left].
    + apply Hle. by left.
Qed.

(** Where a chunk is cut the user key changes, so every key before is below. *)
Lemma split_cut_below (p : list entry) (e : entry) prev :
  sorted_entries (p ++ [e]) -> Forall (fun x => user_key x.1 <> []) p ->
  (exists l, last p = Some l /\ prev = user_key l.1) ->
  is_nil prev || negb (bool_decide (prev = user_key e.1)) = true ->
  forall x, x ∈ p -> bytes_cmp (user_key x.1) (user_key e.1) = Lt.
Proof.
  intros Hs Hk (l & Hl & ->) Hch x Hx. apply last_Some in Hl as [p' ->].
  apply StronglySorted_app in Hs as (Hlt & Hs & _).
  apply Forall_app in Hk as [_ Hlk%Forall_inv].
  assert (ord_le bytes_cmp (user_key l.1) (user_key e.1)) as Hle
    by (apply ikey_le_user_key, Hlt; [apply elem_of_app; right; by left | by left]).
  apply (ord_le_lt_trans bytes_cmp _ (user_key l.1)).
  - apply elem_of_app in Hx as [Hx | ->%list_elem_of_singleton]; [|by apply ord_le_refl; apply _].
    apply StronglySorted_app in Hs as (Hlt' & _ & _). apply ikey_le_user_key, Hlt'; [done | by left].
  - apply (ord_le_lteq bytes_cmp) in Hle as [Hle|Hle]; [done|].
    destruct (user_key l.1) eqn:El; [done|]. rewrite <- El in *. rewrite El in Hch. cbn [is_nil orb] in Hch.
    rewrite <- El in Hch. apply negb_true_iff, bool_decide_eq_false in Hch. by rewrite Hle in Hch.
Qed.

Lemma split_step_cut m s p (e : entry) size :
  split_inv m s p -> p <> [] -> sp_current s <> [] -> len (sp_chunks s) + 1 < m ->
  (forall x, x ∈ p -> bytes_cmp (user_key x.1) (user_key e.1) = Lt) ->
  split_inv m (mkSplitState (sp_chunks s ++ [sp_current s]) [e] size (user_key e.1)) (p ++ [e]).
Proof.
  intros [Ha Hne Hn Hp Hc Hb] Hpne Hcne Hlt Hplt.
  constructor; cbn [sp_chunks sp_current sp_current_size sp_previous_user_key].
  - rewrite concat_app. cbn [concat]. rewrite app_nil_r. by rewrite Ha.
  - apply Forall_app. split; [done|]. by constructor.
  - rewrite len_app. cbn [len length]. unfold len in *. simpl. lia.
  - intros _. split; [done|]. exists e. by rewrite last_snoc.
  - apply StronglySorted_app_2; [|done|by repeat constructor].
    intros c c' Hcin ->%list_elem_of_singleton. rewrite Forall_forall in Hb. by apply Hb.
  - apply Forall_forall. intros c Hcin a b Hain ->%list_elem_of_singleton. apply Hplt.
    rewrite <- Ha. apply elem_of_app.
    apply elem_of_app in Hcin as [Hcin | ->%list_elem_of_singleton]; [left | by right].
    apply elem_of_concat. by exists c.
Qed.

Lemma split_step_grow m s p (e : entry) size :
  split_inv m s p -> (forall x, x ∈ p -> ord_le bytes_cmp (user_key x.1) (user_key e.1)) ->
  split_inv m (mkSplitState (sp_chunks s) (sp_current s ++ [e]) size (user_key e.1)) (p ++ [e]).
Proof.
  intros [Ha Hne Hn Hp Hc Hb] Hle.
  constructor; cbn [sp_chunks sp_current sp_current_size sp_previous_user_key]; try done.
  - by rewrite app_assoc, Ha.
  - intros _. split; [by destruct (sp_current s)|]. exists e. by rewrite last_snoc.
  - rewrite Forall_forall in Hb, Hne |- *. intros c Hcin. apply keys_below_snoc; [|by apply Hb|].
    + apply Hp. rewrite <- Ha. intros [Hz _]%app_eq_nil. apply (Hne c Hcin), elem_of_nil_inv. intros x Hx.
      apply (not_elem_of_nil x). rewrite <- Hz. apply elem_of_concat. by exists c.
    + intros x Hx. apply Hle. rewrite <- Ha. apply elem_of_app. by right.
Qed.

Lemma split_step_inv t m s p e :
  split_inv m s p -> sorted_entries (p ++ [e]) -> Forall (fun x => user_key x.1 <> []) p ->
  split_inv m (split_step t m s e) (p ++ [e]).
Proof.
  intros Hi Hs Hk. unfold split_step. cbv zeta. destruct (_ && _ && _ && _) eqn:Ecut.
  - apply andb_true_iff in Ecut as [[[Hcne Hch]%andb_true_iff _]%andb_true_iff Hlt%Z.ltb_lt].
    assert (sp_current s <> []) as Hcur by (intros E; rewrite E in Hcne; discriminate).
    assert (p <> []) as Hpne by (intros ->; pose proof (si_all _ _ _ Hi) as [_ ?]%app_eq_nil; done).
    destruct (si_previous _ _ _ Hi Hpne) as (_ & Hprev).
    apply split_step_cut; [done | done | done | done|]. exact (split_cut_below p e _ Hs Hk Hprev Hch).
  - apply split_step_grow; [done|]. intros x Hx. apply StronglySorted_app in Hs as (Hlt & _ & _).
    apply ikey_le_user_key, Hlt; [done | by left].
Qed.

Lemma split_inv_fold t m es s p :
  split_inv m s p -> sorted_entries (p ++ es) -> Forall (fun x => user_key x.1 <> []) (p ++ es) ->
  split_inv m (foldl (split_step t m) s es) (p ++ es).
Proof.
  revert s p. induction es as [|e es IH]; intros s p Hi Hs Hk; [by rewrite app_nil_r|].
  cbn [foldl]. change (e :: es) with ([e] ++ es) in *. rewrite app_assoc in *.
  apply IH; [|done..]. apply split_step_inv; [done| |].
  - by apply StronglySorted_app_1_l in Hs.
  - rewrite !Forall_app in Hk. apply Hk.
Qed.

(** The cut of a sorted list, from what the loop leaves. *)
Lemma split_final m s es :
  split_inv m s es ->
  let chunks := if negb (is_nil (sp_current s)) then sp_chunks s ++ [sp_current s] else sp_chunks s in
  concat chunks = es /\ Forall (fun c => c <> []) chunks /\ len chunks <= m /\
  StronglySorted keys_below chunks.
Proof.
  intros [Ha Hne Hn _ Hc Hb] chunks. unfold chunks.
  destruct (sp_current s) as [|x cur] eqn:Ecur; cbn [is_nil negb].
  - rewrite app_nil_r in Ha. split; [done|]. split; [done|]. split; [lia | done].
  - split; [by rewrite concat_app; cbn [concat]; rewrite app_nil_r|].
    split; [apply Forall_app; split; [done | by constructor]|].
    split; [rewrite len_app; unfold len in *; simpl length; lia|].
    apply StronglySorted_app_2; [|done|by repeat constructor].
    intros c c' Hcin ->%list_elem_of_singleton. rewrite Forall_forall in Hb. by apply Hb.
Qed.

(** One output is never cut. *)
Lemma split_uncut t es s :
  sp_chunks s = [] -> let s' := foldl (split_step t 1) s es in
  sp_chunks s' = [] /\ sp_current s' = sp_current s ++ es.
Proof.
  revert s. induction es as [|e es IH]; intros s Hs; cbn [foldl]; [by rewrite app_nil_r|].
  assert (split_step t 1 s e = mkSplitState [] (sp_current s ++ [e])
    (sp_current_size s + estimate_entry_size e) (user_key e.1)) as ->.
  { unfold split_step. rewrite Hs. cbn [len length]. by rewrite andb_false_r, Hs. }
  destruct (IH (mkSplitState [] (sp_current s ++ [e]) (sp_current_size s + estimate_entry_size e)
    (user_key e.1)) eq_refl) as [H1 H2].
  split; [exact H1|]. rewrite H2. cbn [sp_current]. by rewrite <- app_assoc.
Qed.

(** Cutting sorted entries into output files loses nothing, keeps the order,
    makes no empty file and no more files than asked for, and the key ranges of
    the files do not meet, if no user key is empty or there is one file. *)
Lemma split_outputs_disjoint es target_file_size max_outputs :
  sorted_entries es -> Forall (fun e : entry => user_key e.1 <> []) es \/ max_outputs <= 1 ->
  let chunks := split_compaction_entries es target_file_size max_outputs in
  concat chunks = es /\ Forall (fun c => c <> []) chunks /\
  len chunks <= Z.max max_outputs 1 /\ StronglySorted keys_below chunks.
Proof.
  intros Hs Hk chunks. unfold chunks, split_compaction_entries. cbv zeta.
  set (t := Z.max target_file_size 1). destruct Hk as [Hk|Hm].
  - apply split_final. apply (split_inv_fold t _ es (mkSplitState [] [] 0 []) []); [|done|done].
    constructor; [done | constructor | unfold len; simpl; lia | done | constructor | constructor].
  - replace (Z.max max_outputs 1) with 1 by lia.
    destruct (split_uncut t es (mkSplitState [] [] 0 []) eq_refl) as [-> ->]. cbn [sp_current app].
    destruct es as [|e es]; cbn [is_nil negb app concat].
    + split; [done|]. split; [constructor|]. split; [done | constructor].
    + rewrite app_nil_r. split; [done|]. by repeat constructor.
Qed.

(** ** What the picker chooses *)

Definition file_covers (f : FileMeta) (k : bytes) : Prop :=
  ord_le bytes_cmp (user_key (fm_smallest f)) k /\ ord_le bytes_cmp k (user_key (fm_largest f)).

Lemma min_key_le a b : ord_le bytes_cmp (min_key a b) a /\ ord_le bytes_cmp (min_key a b) b.
Proof.
  unfold min_key. destruct (leb bytes_cmp a b) eqn:E.
  - apply leb_le in E. split; [by apply ord_le_refl; apply _ | done].
  - split; [|by apply ord_le_refl; apply _].
    destruct (ord_le_total bytes_cmp a b) as [H|H]; [|done]. apply leb_le in H. congruence.
Qed.

Lemma max_key_ge a b : ord_le bytes_cmp a (max_key a b) /\ ord_le bytes_cmp b (max_key a b).
Proof.
  unfold max_key. destruct (leb bytes_cmp a b) eqn:E.
  - apply leb_le in E. split; [done | by apply ord_le_refl; apply _].
  - split; [by apply ord_le_refl; apply _|].
    destruct (ord_le_total bytes_cmp a b) as [H|H]; [|done]. apply leb_le in H. congruence.
Qed.

Lemma user_key_range_ok files :
  files <> [] ->
  exists a b, user_key_range files = Some (a, b) /\
    forall f, f ∈ files -> ord_le bytes_cmp a (user_key (fm_smallest f)) /\
      ord_le bytes_cmp (user_key (fm_largest f)) b.
Proof.
  destruct files as [|f0 fs]; [done|]. intros _. eexists _, _. split; [reflexivity|].
  assert (forall fs m, ord_le bytes_cmp
      (foldl (fun m f => min_key m (user_key (fm_smallest f))) m fs) m /\
    forall f, f ∈ fs -> ord_le bytes_cmp
      (foldl (fun m f => min_key m (user_key (fm_smallest f))) m fs) (user_key (fm_smallest f))) as Hmin.
  { clear. induction fs as [|f fs IH]; intros m; cbn [foldl].
    { split; [by apply ord_le_refl; apply _|]. by intros f Hf%elem_of_nil. }
    destruct (IH (min_key m (user_key (fm_smallest f)))) as [H1 H2].
    destruct (min_key_le m (user_key (fm_smallest f))) as [H3 H4].
    split; [by eapply (ord_le_trans bytes_cmp); [apply H1|]|].
    intros g [->|Hg]%elem_of_cons; [by eapply (ord_le_trans bytes_cmp); [apply H1|] | auto]. }
  assert (forall fs m, ord_le bytes_cmp m
      (foldl (fun m f => max_key m (user_key (fm_largest f))) m fs) /\
    forall f, f ∈ fs -> ord_le bytes_cmp (user_key (fm_largest f))
      (foldl (fun m f => max_key m (user_key (fm_largest f))) m fs)) as Hmax.
  { clear. induction fs as [|f fs IH]; intros m; cbn [foldl].
    { split; [by apply ord_le_refl; apply _|]. by intros f Hf%elem_of_nil. }
    destruct (IH (max_key m (user_key (fm_largest f)))) as [H1 H2].
    destruct (max_key_ge m (user_key (fm_largest f))) as [H3 H4].
    split; [by eapply (ord_le_trans bytes_cmp); [|apply H1]|].
    intros g [->|Hg]%elem_of_cons; [by eapply (ord_le_trans bytes_cmp); [|apply H1] | auto]. }
  destruct (Hmin fs (user_key (fm_smallest f0))) as [H1 H2].
  destruct (Hmax fs (user_key (fm_largest f0))) as [H3 H4].
  intros f [->|Hf]%elem_of_cons; [done | auto].
Qed.

(** A task that may be carried out: its inputs are files of the input level,
    no file left on the output level shares a user key with an input, and the
    recorded range covers every file of the task. *)
Definition task_sound (v : Version) (level : usize) (t : CompactionTask) : Prop :=
  ct_input_level t = level /\
  ct_output_level t = Z.min (level + 1) (saturating_sub (len (v_levels v)) 1) /\
  ct_input_files t <> [] /\
  (forall f, f ∈ ct_overlap_files t -> f ∈ level_files v (ct_output_level t)) /\
  (forall f g k, f ∈ level_files v (ct_output_level t) -> g ∈ ct_input_files t ->
     file_covers f k -> file_covers g k -> f ∈ ct_overlap_files t) /\
  (forall f, f ∈ all_input_files t ->
     ord_le bytes_cmp (ct_smallest_user_key t) (user_key (fm_smallest f)) /\
     ord_le bytes_cmp (user_key (fm_largest f)) (ct_largest_user_key t)).

Lemma task_for_files_sound v level files manual :
  files <> [] ->
  exists t, task_for_files v level files manual = Ok t /\ task_sound v level t /\
    ct_input_files t = files /\ ct_is_manual t = manual.
Proof.
  intros Hne. unfold task_for_files.
  set (out := Z.min (level + 1) (saturating_sub (len (v_levels v)) 1)).
  destruct (user_key_range_ok files Hne) as (a & b & -> & Hr).
  set (overlap := match v_levels v !! Z.to_nat out with None => [] | Some l => _ end).
  assert (Hsub : forall f, f ∈ overlap -> f ∈ level_files v out).
  { unfold overlap, level_files. destruct (v_levels v !! Z.to_nat out) as [l|]; [|done].
    destruct (level =? 0); [done|]. cbn. by intros f [_ ?]%list_elem_of_filter. }
  assert (Hcov : forall f g k, f ∈ level_files v out -> g ∈ files -> file_covers f k ->
    file_covers g k -> f ∈ overlap).
  { unfold overlap, level_files. destruct (v_levels v !! Z.to_nat out) as [l|]; cbn; [|done].
    intros f g k Hf Hg [Hf1 Hf2] [Hg1 Hg2]. destruct (level =? 0); [done|].
    apply list_elem_of_filter. split; [|done]. destruct (Hr g Hg) as [Hga Hgb].
    unfold user_key_overlaps. apply andb_true_iff. split; apply leb_le.
    - apply (ord_le_trans bytes_cmp _ k); [done|]. by apply (ord_le_trans bytes_cmp _ (user_key (fm_largest g))).
    - apply (ord_le_trans bytes_cmp _ k); [|done]. by apply (ord_le_trans bytes_cmp _ (user_key (fm_smallest g))). }
  clearbody overlap. destruct overlap as [|o os].
  - eexists. split; [reflexivity|]. split; [|done]. split; [done|]. split; [done|]. split; [done|].
    split; [done|]. split; [done|]. unfold all_input_files. cbn. rewrite app_nil_r. apply Hr.
  - destruct (user_key_range_ok (files ++ o :: os)) as (a' & b' & -> & Hr');
      [by destruct files|].
    eexists. split; [reflexivity|]. split; [|done]. split; [done|]. split; [done|]. split; [done|].
    split; [done|]. split; [done|]. apply Hr'.
Qed.

Lemma task_option_sound v level files manual :
  files <> [] ->
  exists t, Some <$> task_for_files v level files manual = Ok (Some t) /\ task_sound v level t /\
    ct_input_files t = files /\ ct_is_manual t = manual.
Proof.
  intros Hne. destruct (task_for_files_sound v level files manual Hne) as (t & E & H).
  exists t. by rewrite E.
Qed.

(** What a task is made of. *)
Lemma task_for_files_exact v level files manual t :
  0 <= level -> level + 1 < len (v_levels v) -> task_for_files v level files manual = Ok t ->
  ct_input_level t = level /\ ct_output_level t = level + 1 /\ ct_input_files t = files /\ files <> [] /\
  (exists a b, (forall f, f ∈ files -> ord_le bytes_cmp a (user_key (fm_smallest f)) /\
      ord_le bytes_cmp (user_key (fm_largest f)) b) /\
    ct_overlap_files t = if level =? 0 then level_files v (level + 1)
      else filter (fun f => user_key_overlaps f a b = true) (level_files v (level + 1))) /\
  (forall f, f ∈ all_input_files t ->
     ord_le bytes_cmp (ct_smallest_user_key t) (user_key (fm_smallest f)) /\
     ord_le bytes_cmp (user_key (fm_largest f)) (ct_largest_user_key t)).
Proof.
  intros H0 Hl Et. assert (files <> []) as Hne by by intros ->.
  destruct (task_for_files_sound v level files manual Hne) as (t' & Et' & (Hi & Ho & _ & _ & _ & Hr) & Hf & _).
  rewrite Et in Et'. injection Et' as <-.
  assert (Z.min (level + 1) (saturating_sub (len (v_levels v)) 1) = level + 1) as Eo
    by (unfold saturating_sub; lia).
  rewrite Eo in Ho. split; [done|]. split; [done|]. split; [done|]. split; [done|]. split; [|done].
  destruct (user_key_range_ok files Hne) as (a & b & Eab & Hab). exists a, b. split; [done|].
  unfold task_for_files in Et. rewrite Eo, Eab in Et. unfold level_files.
  destruct (v_levels v !! Z.to_nat (level + 1)) as [l|]; cbn [default id from_option] in *.
  - destruct (if level =? 0 then l else _) as [|o os]; [by injection Et as <-|].
    destruct (user_key_range _) as [[? ?]|]; [by injection Et as <-|done].
  - by destruct (level =? 0); injection Et as <-.
Qed.

(** A task on all of level 0, or on one file of a deeper level that is not the
    last: what the picker makes unless a manual range cuts level 0. *)
Definition whole_task (v : Version) (t : CompactionTask) : Prop :=
  exists level manual, 0 <= level /\ level + 1 < len (v_levels v) /\
    task_for_files v level (ct_input_files t) manual = Ok t /\
    (level = 0 /\ ct_input_files t = v_l0_files v \/
     0 < level /\ exists f, ct_input_files t = [f] /\ f ∈ level_files v level).

Lemma inner_levels_elem v level : level ∈ inner_levels v <-> 0 < level /\ level + 1 < len (v_levels v).
Proof.
  unfold inner_levels, len. rewrite list_elem_of_fmap. setoid_rewrite elem_of_seq. split.
  - intros (n & -> & Hn). lia.
  - intros Hl. exists (Z.to_nat level). lia.
Qed.

Lemma task_fmap_inv v level files manual t :
  Some <$> task_for_files v level files manual = Ok (Some t) ->
  task_for_files v level files manual = Ok t /\ ct_input_files t = files.
Proof.
  destruct files as [|f fs]; [done|].
  destruct (task_for_files_sound v level (f :: fs) manual) as (t' & -> & _ & Hf & _); [done|].
  by intros [= <-].
Qed.

Lemma whole_one v level f manual t :
  level ∈ inner_levels v -> f ∈ level_files v level ->
  Some <$> task_for_files v level [f] manual = Ok (Some t) -> whole_task v t.
Proof.
  intros [H0 Hl]%inner_levels_elem Hf [E Ei]%task_fmap_inv. exists level, manual.
  rewrite Ei. split; [lia|]. split; [done|]. split; [done|]. right. split; [done|]. by exists f.
Qed.

Lemma whole_top v manual t :
  2 <= len (v_levels v) -> Some <$> task_for_files v 0 (v_l0_files v) manual = Ok (Some t) ->
  whole_task v t.
Proof.
  intros Hl [E Ei]%task_fmap_inv. exists 0, manual. rewrite Ei. split; [done|]. split; [lia|].
  split; [done|]. by left.
Qed.

(** The automatic picker. *)
Lemma best_score_inner options v : (best_score options v).1 = 0 \/ (best_score options v).1 ∈ inner_levels v.
Proof.
  unfold best_score. cbv zeta.
  set (f := fun best level => _). set (b := (0, _)).
  assert (forall levels b, (b.1 = 0 \/ b.1 ∈ inner_levels v) -> levels ⊆ inner_levels v ->
    (foldl f b levels).1 = 0 \/ (foldl f b levels).1 ∈ inner_levels v) as Hf.
  { induction levels as [|l levels IH]; intros b0 Hb Hl; [done|]. cbn [foldl]. apply IH.
    - unfold f. destruct (f64_gt _ _); [|done]. right. apply Hl. by left.
    - intros x Hx. apply Hl. by right. }
  apply Hf; [by left | done].
Qed.

Lemma pick_whole options v t :
  2 <= len (v_levels v) -> pick options v = Ok (Some t) -> whole_task v t.
Proof.
  intros Hl. unfold pick. pose proof (best_score_inner options v) as Hb.
  destruct (best_score options v) as [level score]. cbn [fst] in Hb.
  destruct (f64_lt _ _); [done|]. unfold pick_level. destruct (Z.eqb_spec level 0) as [->|Hn].
  - destruct (v_l0_files v) as [|f fs] eqn:E; [done|]. rewrite <- E. by apply whole_top.
  - destruct Hb as [?|Hb]; [done|]. destruct (v_levels v !! Z.to_nat level) as [[|f fs]|] eqn:E; [done| |done].
    intros Et. eapply whole_one; [exact Hb | | exact Et]. unfold level_files. rewrite E. by left.
Qed.

(** The manual picker on the whole key space. *)
Lemma filter_all_range (l : list FileMeta) :
  filter (fun f => file_overlaps_range f Unbounded Unbounded = true) l = l.
Proof. induction l as [|f l IH]; [done|]. rewrite filter_cons_True by done. by rewrite IH. Qed.

Lemma pick_manual_whole v t :
  2 <= len (v_levels v) -> pick_manual v Unbounded Unbounded = Ok (Some t) -> whole_task v t.
Proof.
  intros Hl. unfold pick_manual, pick_l0_manual. rewrite filter_all_range.
  destruct (v_l0_files v) as [|f fs] eqn:E.
  2: { intros Et. rewrite <- E in Et. apply whole_top with true; [done|]. revert Et.
       by destruct (task_for_files v 0 (v_l0_files v) true) as [t'| |]. }
  cbn [mbind res_bind].
  assert (forall levels, levels ⊆ inner_levels v ->
    pick_first_level v Unbounded Unbounded levels = Ok (Some t) -> whole_task v t) as Hlev; [|by apply Hlev].
  induction levels as [|level levels IH]; intros Hin; cbn [pick_first_level]; [done|].
  rewrite filter_all_range. destruct (level_files v level) as [|f fs] eqn:Ef.
  - apply IH. intros x Hx. apply Hin. by right.
  - intros Et. eapply whole_one; [apply Hin; by left | rewrite Ef; by left | exact Et].
Qed.

Lemma pick_manual_ok v lower upper : exists o, pick_manual v lower upper = Ok o.
Proof.
  unfold pick_manual, pick_l0_manual. destruct (filter _ (v_l0_files v)) as [|f fs].
  - cbn [mbind res_bind]. generalize (inner_levels v). induction l as [|level levels IH]; [by eexists|].
    cbn [pick_first_level]. destruct (filter _ (level_files v level)) as [|f fs]; [exact IH|].
    destruct (task_for_files_sound v level [f] true) as (t & -> & _); [done|]. by eexists.
  - destruct (task_for_files_sound v 0 (f :: fs) true) as (t & -> & _); [done|]. by eexists.
Qed.

(** Replacing the inputs of a compaction by its output, between
    the newer entries above and the older entries below, changes no read at or
    above the watermark; tombstones may be dropped when nothing below has a
    version of a key of the inputs. *)
Lemma compaction_live newer es older wm d key s :
  consistent (newer ++ es ++ older) ->
  newer_than key newer (es ++ older) -> newer_than key es older ->
  (d = true -> forall e e', e ∈ es -> e' ∈ older -> user_key e.1 <> user_key e'.1) ->
  wm <= s ->
  live key s (newer ++ compact_entries es wm d ++ older) = live key s (newer ++ es ++ older).
Proof.
  intros Hc Hn Ho Hd Hs.
  assert (Hces : consistent es).
  { intros a b Ha Hb. apply Hc; apply elem_of_app; right; apply elem_of_app; by left. }
  assert (Hsub : forall e, e ∈ compact_entries es wm d -> e ∈ es)
    by (intros e He; by apply compact_elem in He as [He _]).
  assert (newer_than key newer (compact_entries es wm d ++ older)) as Hn'.
  { intros a b Ha Hb. apply Hn; [done|]. apply elem_of_app in Hb as [Hb|Hb]; apply elem_of_app; auto. }
  assert (newer_than key (compact_entries es wm d) older) as Ho'
    by (intros a b Ha Hb; apply Ho; auto).
  unfold live. rewrite !newest_app by done. destruct (newest key s newer); [done|].
  unfold newest. rewrite compact_newest by done.
  destruct (newest_entry key s es) as [e|] eqn:En; [|done].
  destruct (d && _ && _) eqn:Edrop; [|done].
  apply andb_true_iff in Edrop as [[-> Hdel]%andb_true_iff _].
  apply bool_decide_eq_true in Hdel. cbn [fmap option_fmap option_map].
  apply newest_entry_some in En as (He & [Hk _]%visible_spec & _).
  rewrite (proj2 (newest_entry_none key s older)); [cbn; by rewrite Hdel|].
  intros e' He'. destruct (visible key s e') eqn:Ev; [|done]. apply visible_spec in Ev as [Hk' _].
  exfalso. apply (Hd eq_refl e e' He He'). congruence.
Qed.

(** ** Properties *)

(** C36: the picker never fails and, when it picks, picks a task that may be
    carried out: all of level 0, or the first file of a level that exists,
    together with every file of the next level that shares a key with it. *)
Theorem pick_sound options v :
  pick options v = Ok None \/
  exists level t, pick options v = Ok (Some t) /\ task_sound v level t /\ ct_is_manual t = false /\
    (level = 0 /\ ct_input_files t = v_l0_files v \/
     level <> 0 /\ exists f, ct_input_files t = [f] /\ f ∈ level_files v level).
Proof.
  unfold pick. destruct (best_score options v) as [level score].
  destruct (f64_lt _ _); [by left|]. unfold pick_level. destruct (Z.eqb_spec level 0) as [->|Hl].
  - destruct (v_l0_files v) as [|f fs] eqn:E; [by left|]. right.
    destruct (task_option_sound v 0 (f :: fs) false) as (t & Et & Ht & Hf & Hm); [done|].
    exists 0, t. split; [done|]. split; [done|]. split; [done|]. by left.
  - destruct (v_levels v !! Z.to_nat level) as [[|f fs]|] eqn:E; [by left| |by left]. right.
    destruct (task_option_sound v level [f] false) as (t & Et & Ht & Hf & Hm); [done|].
    exists level, t. split; [done|]. split; [done|]. split; [done|]. right. split; [done|].
    exists f. split; [done|]. unfold level_files. rewrite E. by left.
Qed.

(** a manual compaction of a range picks a task that may be
    carried out as far as the output level goes, and that touches the range;
    when it picks nothing, no file of level 0 and no file of a level that could
    be compacted overlaps the range. *)
Theorem pick_manual_sound v lower upper :
  (pick_manual v lower upper = Ok None /\
   (forall f, f ∈ v_l0_files v -> file_overlaps_range f lower upper = false) /\
   (forall level f, level ∈ inner_levels v -> f ∈ level_files v level ->
      file_overlaps_range f lower upper = false)) \/
  exists level t, pick_manual v lower upper = Ok (Some t) /\ task_sound v level t /\
    forall f, f ∈ ct_input_files t ->
      file_overlaps_range f lower upper = true /\
      (level = 0 /\ f ∈ v_l0_files v \/ level ∈ inner_levels v /\ f ∈ level_files v level).
Proof.
  unfold pick_manual, pick_l0_manual.
  set (P := fun file => file_overlaps_range file lower upper = true).
  destruct (filter P (v_l0_files v)) as [|f0 fs0] eqn:E0.
  2: { right. destruct (task_option_sound v 0 (f0 :: fs0) true) as (t & Et & Ht & Hf & _); [done|].
       exists 0, t. rewrite Et. split; [done|]. split; [done|]. intros f Hin. rewrite Hf, <- E0 in Hin.
       apply list_elem_of_filter in Hin as [Hp Hin]. split; [done|]. by left. }
  cbn [mbind res_bind].
  assert (Hl0 : forall f, f ∈ v_l0_files v -> file_overlaps_range f lower upper = false).
  { intros f Hf. destruct (file_overlaps_range f lower upper) eqn:Ep; [|done].
    assert (f ∈ filter P (v_l0_files v)) as Hin by by apply list_elem_of_filter.
    rewrite E0 in Hin. by apply elem_of_nil in Hin. }
  assert (forall levels, (forall l, l ∈ levels -> l ∈ inner_levels v) ->
    (pick_first_level v lower upper levels = Ok None /\
     forall level f, level ∈ levels -> f ∈ level_files v level ->
       file_overlaps_range f lower upper = false) \/
    exists level t, pick_first_level v lower upper levels = Ok (Some t) /\ task_sound v level t /\
      forall f, f ∈ ct_input_files t -> file_overlaps_range f lower upper = true /\
        (level = 0 /\ f ∈ v_l0_files v \/ level ∈ inner_levels v /\ f ∈ level_files v level)) as Hlev.
  { induction levels as [|level levels IH]; intros Hin; cbn [pick_first_level].
    { left. split; [done|]. by intros l f Hl%elem_of_nil. }
    fold P. destruct (filter P (level_files v level)) as [|f1 fs1] eqn:E1.
    - destruct IH as [[E H]|H]; [by intros l Hl; apply Hin; right| |by right]. left. split; [done|].
      intros l f [->|Hl]%elem_of_cons Hf; [|by eapply H].
      destruct (file_overlaps_range f lower upper) eqn:Ep; [|done].
      assert (f ∈ filter P (level_files v level)) as Hi by by apply list_elem_of_filter.
      rewrite E1 in Hi. by apply elem_of_nil in Hi.
    - right. destruct (task_option_sound v level [f1] true) as (t & Et & Ht & Hf & _); [done|].
      exists level, t. split; [done|]. split; [done|]. intros f Hf'. rewrite Hf in Hf'.
      apply list_elem_of_singleton in Hf' as ->.
      assert (f1 ∈ filter P (level_files v level)) as Hi by (rewrite E1; by left).
      apply list_elem_of_filter in Hi as [Hp Hi]. split; [done|]. right. split; [|done].
      apply Hin. by left. }
  destruct (Hlev (inner_levels v)) as [[E H]|H]; [done| left; done | by right].
Qed.

(** C27: the output of a compaction is sorted, is part of its
    input, keeps every version above the watermark, and of each user key keeps
    at most one version at or below it: the newest one, unless it is a
    tombstone being dropped. *)
Theorem compaction_output_exact es wm d :
  consistent es ->
  sorted_entries (compact_entries es wm d) /\
  (forall e, e ∈ compact_entries es wm d <-> e ∈ es /\ survives wm d es e) /\
  (forall e e', e ∈ compact_entries es wm d -> e' ∈ compact_entries es wm d ->
     user_key e.1 = user_key e'.1 -> sequence e.1 <= wm -> sequence e'.1 <= wm -> e = e').
Proof.
  intros Hc. split; [apply compact_sorted|]. split; [intros e; by apply compact_elem|].
  intros e e' He He' Hk Hs Hs'.
  apply compact_elem in He as [_ [H|[H _]]]; [lia| |done].
  apply compact_elem in He' as [_ [H'|[H' _]]]; [lia| |done].
  rewrite Hk in H. congruence.
Qed.

(** the empty user key is not protected: its versions can be cut
    into several files, so that a read of the level, which looks into the first
    file whose range covers the key, does not find an older version that a
    snapshot still needs. *)
Theorem empty_key_split_across_files :
  let put s := (mkInternalKey [] s VPut, RPut [s]) in
  split_compaction_entries [put 3; put 2; put 1] 1 3 = [[put 3]; [put 2]; [put 1]].
Proof. reflexivity. Qed.

(** ** The properties on a few entries *)

Section compact_examples.

Definition example_inputs : list entry :=
  [(mkInternalKey [2] 3 VPut, RPut [30]); (mkInternalKey [1] 6 VPut, RPut [60]);
   (mkInternalKey [1] 4 VPut, RPut [40]); (mkInternalKey [2] 5 VDelete, RDelete);
   (mkInternalKey [1] 7 VPut, RPut [70])].

Lemma compaction_output_exact_witness :
  consistent example_inputs /\ sorted_entries (compact_entries example_inputs 6 true).
Proof.
  assert (consistent example_inputs) as Hc by by apply (bool_decide_unpack _); vm_compute.
  split; [exact Hc | apply (compaction_output_exact example_inputs 6 true Hc)].
Defined.

End compact_examples.
