(* ===== verification/Mvcc.v ===== *)
(** * Snapshots and transactions

    [src/mvcc/]: the watermark that counts the live snapshots, the snapshot
    handles, and the optimistic transaction, which buffers its writes, records
    what it reads and is validated when it commits.  The database a transaction
    works on is the class [Database]; [DbRead.v] and [DbWrite.v] provide it. *)

From Stdlib Require Import Sorting.Sorted.
From stdpp Require Import base list gmap relations sorting.
From S2P Require Import Prelude Key Spec Batch.

(** ** [watermark.rs] *)

(** [BTreeMap<u64, usize>]: how many handles each sequence number has. *)
Record Watermark : Type := mkWatermark { active : list (u64 * usize) }.

Definition watermark_new : Watermark := mkWatermark [].

(** [*active.entry(sequence).or_insert(0) += 1]. *)
Definition watermark_add (sequence : u64) (self : Watermark) : Watermark :=
  let count := default 0 (bt_get Z.compare sequence (active self)) in
  mkWatermark (bt_insert Z.compare sequence (wrap64 (count + 1)) (active self)).

Definition watermark_remove (sequence : u64) (self : Watermark) : Watermark :=
  match bt_get Z.compare sequence (active self) with
  | None => self
  | Some count =>
      let count := wrap64 (count - 1) in
      if count =? 0 then mkWatermark (bt_remove Z.compare sequence (active self))
      else mkWatermark (bt_insert Z.compare sequence count (active self))
  end.

Definition watermark_oldest (self : Watermark) : option u64 :=
  fst <$> bt_first (active self).

(** ** [snapshot.rs] *)

(** A handle; its watermark is the shared one, threaded as a state. *)
Record Snapshot : Type := mkSnapshot { read_seq : u64 }.

Definition snapshot_new (seq : u64) (w : Watermark) : Snapshot * Watermark :=
  (mkSnapshot seq, watermark_add seq w).

(** [Clone] and [Drop]. *)
Definition snapshot_clone (self : Snapshot) (w : Watermark) : Snapshot * Watermark :=
  snapshot_new (read_seq self) w.
Definition snapshot_drop (self : Snapshot) (w : Watermark) : Watermark :=
  watermark_remove (read_seq self) w.

(** The life of the handles: the live ones, in any order.  A handle takes
    memory, so there are fewer than [2^64]. *)
Inductive snapshot_step : Watermark * list Snapshot -> Watermark * list Snapshot -> Prop :=
  | step_new seq w live :
      len live < u64_max ->
      snapshot_step (w, live) ((snapshot_new seq w).2, (snapshot_new seq w).1 :: live)
  | step_clone s w live :
      len live < u64_max -> s ∈ live ->
      snapshot_step (w, live) ((snapshot_clone s w).2, (snapshot_clone s w).1 :: live)
  | step_drop s w l1 l2 :
      snapshot_step (w, l1 ++ s :: l2) (snapshot_drop s w, l1 ++ l2).

(** ** [transaction.rs] *)

Record ReadOptions : Type := mkReadOptions {
  verify_checksums : bool;
  fill_cache : bool;
  total_order_seek : bool;
  snapshot : option Snapshot
}.

(** [ReadOptions::default]. *)
Definition default_read_options : ReadOptions := mkReadOptions true true false None.

Record TransactionOptions : Type := mkTransactionOptions { read_only : bool }.

Abbreviation ReadRange := (Bound * Bound)%type (only parsing).

Record Transaction : Type := mkTransaction {
  tx_read_seq : u64;
  tx_snapshot : Snapshot;
  tx_opts : TransactionOptions;
  tx_writes : WriteBatch;
  tx_read_keys : list (bytes * unit);   (* BTreeSet<Bytes> *)
  tx_read_ranges : list ReadRange;
  tx_closed : bool
}.

Definition transaction_new (snapshot : Snapshot) (opts : TransactionOptions) : Transaction :=
  mkTransaction (read_seq snapshot) snapshot opts batch_new [] [] false.

Definition tx_with_writes (writes : WriteBatch) (t : Transaction) : Transaction :=
  mkTransaction (tx_read_seq t) (tx_snapshot t) (tx_opts t) writes (tx_read_keys t)
    (tx_read_ranges t) (tx_closed t).
Definition tx_with_reads (read_keys : list (bytes * unit)) (read_ranges : list ReadRange)
    (t : Transaction) : Transaction :=
  mkTransaction (tx_read_seq t) (tx_snapshot t) (tx_opts t) (tx_writes t) read_keys
    read_ranges (tx_closed t).
Definition tx_close (t : Transaction) : Transaction :=
  mkTransaction (tx_read_seq t) (tx_snapshot t) (tx_opts t) (tx_writes t) (tx_read_keys t)
    (tx_read_ranges t) true.

(** What a transaction calls of the database. *)
Class Database (D : Type) : Type := {
  db_get_opt : bytes -> ReadOptions -> M D (option bytes);
  db_scan_opt : Bound -> Bound -> ReadOptions -> M D (list (bytes * bytes));
  db_commit_transaction : u64 -> WriteBatch -> list (bytes * unit) -> list ReadRange -> M D unit;
  db_watermark : D -> Watermark;
  db_with_watermark : Watermark -> D -> D
}.

(** [find_map] over the records from the last to the first. *)
Fixpoint find_record (key : bytes) (records : list BatchRecord) : option ValueRecord :=
  match records with
  | [] => None
  | BPut record_key value :: records =>
      if bool_decide (record_key = key) then Some (RPut value) else find_record key records
  | BDelete record_key :: records =>
      if bool_decide (record_key = key) then Some RDelete else find_record key records
  end.

Definition local_value (self : Transaction) (key : bytes) : option ValueRecord :=
  find_record key (rev (records (tx_writes self))).

Section transaction.
Context {D : Type} `{!Database D}.

Definition on_tx_db {A} (m : M D A) : M (Transaction * D) A :=
  zoom snd (fun d s => (s.1, d)) m.
Definition modify_tx (f : Transaction -> Transaction) : M (Transaction * D) unit :=
  modify (fun s => (f s.1, s.2)).
Definition on_watermark (f : Watermark -> Watermark) (d : D) : D :=
  db_with_watermark (f (db_watermark d)) d.

Definition ensure_open : M (Transaction * D) unit :=
  s ← get_state; if tx_closed s.1 then fail Closed else mret tt.

Definition ensure_writable : M (Transaction * D) unit :=
  s ← get_state;
  if read_only (tx_opts s.1)
  then fail (InvalidArgument "read-only transaction cannot write") else mret tt.

(** A call with [snapshot: Some(self.snapshot.clone())] among its options,
    which are dropped when it returns. *)
Definition with_snapshot {A} (call : ReadOptions -> M D A) : M (Transaction * D) A :=
  s ← get_state;
  let snap := tx_snapshot s.1 in
  _ ← on_tx_db (modify (on_watermark (fun w => (snapshot_clone snap w).2)));
  on_tx_db (fun d =>
    let '(r, d) := call (mkReadOptions true true false (Some snap)) d in
    (r, on_watermark (snapshot_drop snap) d)).

Definition tx_get (key : bytes) : M (Transaction * D) (option bytes) :=
  _ ← ensure_open;
  s ← get_state;
  match local_value s.1 key with
  | Some value => mret (into_visible_value value)
  | None =>
      _ ← modify_tx (fun t =>
        tx_with_reads (bt_insert bytes_cmp key tt (tx_read_keys t)) (tx_read_ranges t) t);
      with_snapshot (db_get_opt key)
  end.

(** The loop that overlays the buffered writes. *)
Definition overlay_record (lower upper : Bound) (rows : list (bytes * bytes))
    (record : BatchRecord) : list (bytes * bytes) :=
  match record with
  | BPut key value =>
      if within_bounds key lower upper then bt_insert bytes_cmp key value rows else rows
  | BDelete key =>
      if within_bounds key lower upper then bt_remove bytes_cmp key rows else rows
  end.

Definition tx_scan (lower upper : Bound) : M (Transaction * D) (list (bytes * bytes)) :=
  _ ← ensure_open;
  _ ← modify_tx (fun t =>
    tx_with_reads (tx_read_keys t) (tx_read_ranges t ++ [(lower, upper)]) t);
  scanned ← with_snapshot (db_scan_opt lower upper);
  let rows := foldl (fun m row => bt_insert bytes_cmp row.1 row.2 m) [] scanned in
  s ← get_state;
  mret (foldl (overlay_record lower upper) rows (records (tx_writes s.1))).

Definition tx_put (key value : bytes) : M (Transaction * D) unit :=
  _ ← ensure_open;
  _ ← ensure_writable;
  modify_tx (fun t => tx_with_writes (batch_put (tx_writes t) key value) t).

Definition tx_delete (key : bytes) : M (Transaction * D) unit :=
  _ ← ensure_open;
  _ ← ensure_writable;
  modify_tx (fun t => tx_with_writes (batch_delete (tx_writes t) key) t).

(** [commit] and [rollback] consume the transaction: its snapshot is dropped
    when they return, whatever they return. *)
Definition drop_transaction (t : Transaction) (d : D) : D :=
  on_watermark (snapshot_drop (tx_snapshot t)) d.

Definition commit_body : M (Transaction * D) unit :=
  _ ← ensure_open;
  _ ← modify_tx tx_close;
  s ← get_state;
  on_tx_db (db_commit_transaction (tx_read_seq s.1) (tx_writes s.1) (tx_read_keys s.1)
    (tx_read_ranges s.1)).

Definition commit (t : Transaction) : M D unit := fun d =>
  let '(r, (t, d)) := commit_body (t, d) in (r, drop_transaction t d).

Definition rollback_body : M (Transaction * D) unit :=
  _ ← ensure_open;
  modify_tx tx_close.

Definition rollback (t : Transaction) : M D unit := fun d =>
  let '(r, (t, d)) := rollback_body (t, d) in (r, drop_transaction t d).
End transaction.

(** ** The watermark counts the live handles *)

Definition handles (seq : u64) (live : list Snapshot) : Z :=
  len (filter (fun s => read_seq s = seq) live).

Record watermark_inv (st : Watermark * list Snapshot) : Prop := {
  wi_sorted : StronglySorted (key_lt Z.compare) (active st.1);
  wi_count : forall seq,
    bt_get Z.compare seq (active st.1)
    = if handles seq st.2 =? 0 then None else Some (handles seq st.2);
  wi_live : len st.2 <= u64_max
}.

Lemma handles_cons seq s live :
  handles seq (s :: live) = (if decide (read_seq s = seq) then 1 else 0) + handles seq live.
Proof.
  unfold handles. rewrite filter_cons. destruct (decide _); [by rewrite len_cons | lia].
Qed.

Lemma handles_app seq l1 l2 : handles seq (l1 ++ l2) = handles seq l1 + handles seq l2.
Proof. unfold handles. by rewrite filter_app, len_app. Qed.

Lemma handles_bound seq live : 0 <= handles seq live <= len live.
Proof.
  unfold handles, len.
  pose proof (length_filter (fun s => read_seq s = seq) live). lia.
Qed.

Lemma handles_zero seq live : handles seq live = 0 <-> forall s, s ∈ live -> read_seq s <> seq.
Proof.
  unfold handles. split.
  - intros H s Hs <-. assert (s ∈ filter (fun s' => read_seq s' = read_seq s) live) as Hf
      by by apply list_elem_of_filter.
    destruct (filter _ live); [by apply elem_of_nil in Hf|]. rewrite len_cons in H.
    pose proof (len_nonneg l). lia.
  - intros H. rewrite filter_none; [done|]. by apply Forall_forall.
Qed.

Lemma watermark_new_inv : watermark_inv (watermark_new, []).
Proof. by constructor; [constructor|..]. Qed.

Lemma watermark_add_inv seq w live :
  watermark_inv (w, live) -> len live < u64_max ->
  watermark_inv (watermark_add seq w, mkSnapshot seq :: live).
Proof.
  intros [Hs Hc Hl] Hb. cbn [fst snd] in *. pose proof (handles_bound seq live).
  assert (default 0 (bt_get Z.compare seq (active w)) = handles seq live) as Hd.
  { rewrite Hc. destruct (Z.eqb_spec (handles seq live) 0) as [->|]; done. }
  unfold watermark_add. rewrite Hd, wrap_small by (unfold u64_max in *; lia).
  constructor; cbn [fst snd active].
  - apply bt_insert_sorted; [apply _ | done].
  - intros seq'. rewrite handles_cons. cbn [read_seq]. destruct (decide (seq = seq')) as [<-|Hne].
    + rewrite bt_get_insert_eq by (done || apply _).
      destruct (Z.eqb_spec (1 + handles seq live) 0); [lia|]. f_equal. lia.
    + rewrite bt_get_insert_ne by (done || apply _ || congruence). by rewrite Hc, Z.add_0_l.
  - rewrite len_cons. lia.
Qed.

Lemma watermark_inv_perm w live live' :
  watermark_inv (w, live) -> live ≡ₚ live' -> watermark_inv (w, live').
Proof.
  intros [Hs Hc Hl] Hp. cbn [fst snd] in *. constructor; cbn [fst snd]; [done | |].
  - intros seq. rewrite Hc. assert (handles seq live = handles seq live') as ->; [|done].
    unfold handles, len. f_equal. apply Permutation_length. by rewrite Hp.
  - unfold len in *. by rewrite <- Hp.
Qed.

Lemma watermark_remove_inv s w l1 l2 :
  watermark_inv (w, l1 ++ s :: l2) -> watermark_inv (watermark_remove (read_seq s) w, l1 ++ l2).
Proof.
  intros [Hs Hc Hl]. cbn [fst snd] in *. set (seq := read_seq s).
  assert (forall q, handles q (l1 ++ s :: l2)
    = (if decide (seq = q) then 1 else 0) + handles q (l1 ++ l2)) as Hh
    by (intros q; rewrite !handles_app, handles_cons; unfold seq; lia).
  pose proof (handles_bound seq (l1 ++ l2)) as Hb.
  assert (len (l1 ++ l2) <= u64_max) as Hl'
    by (revert Hl; rewrite !len_app, len_cons; lia).
  pose proof (Hc seq) as Hseq. rewrite Hh, decide_True in Hseq by done.
  destruct (Z.eqb_spec (1 + handles seq (l1 ++ l2)) 0); [lia|].
  unfold watermark_remove. rewrite Hseq.
  rewrite wrap_small by (unfold u64_max in *; lia).
  replace (1 + handles seq (l1 ++ l2) - 1) with (handles seq (l1 ++ l2)) by lia.
  destruct (Z.eqb_spec (handles seq (l1 ++ l2)) 0) as [Hz|Hnz]; constructor; cbn [fst snd active];
    try done.
  - apply bt_remove_sorted; [apply _ | done].
  - intros q. destruct (decide (q = seq)) as [->|Hne].
    + by rewrite bt_get_remove_eq, Hz by (done || apply _).
    + rewrite bt_get_remove_ne by (done || apply _).
      by rewrite Hc, Hh, decide_False, Z.add_0_l by congruence.
  - apply bt_insert_sorted; [apply _ | done].
  - intros q. destruct (decide (q = seq)) as [->|Hne].
    + rewrite bt_get_insert_eq by (done || apply _). by apply Z.eqb_neq in Hnz as ->.
    + rewrite bt_get_insert_ne by (done || apply _).
      by rewrite Hc, Hh, decide_False, Z.add_0_l by congruence.
Qed.

Lemma snapshot_step_inv st st' : watermark_inv st -> snapshot_step st st' -> watermark_inv st'.
Proof.
  intros Hi Hst. destruct Hst.
  - by apply watermark_add_inv.
  - by apply watermark_add_inv.
  - by apply watermark_remove_inv.
Qed.

Lemma watermark_oldest_spec w live :
  watermark_inv (w, live) ->
  match watermark_oldest w with
  | None => live = []
  | Some seq => (exists s, s ∈ live /\ read_seq s = seq) /\ forall s, s ∈ live -> seq <= read_seq s
  end.
Proof.
  intros [Hs Hc _]. cbn [fst snd] in *. unfold watermark_oldest, bt_first.
  assert (forall s, s ∈ live -> exists n, (read_seq s, n) ∈ active w) as Hin.
  { intros s Hsl. pose proof (Hc (read_seq s)) as E.
    destruct (Z.eqb_spec (handles (read_seq s) live) 0) as [Hz|].
    - by eapply handles_zero in Hz.
    - apply bt_get_in in E; [by eauto | apply _ | done]. }
  destruct (active w) as [|[seq n] m] eqn:Ea; cbn [head fmap option_fmap option_map].
  - destruct live as [|s live]; [done|]. destruct (Hin s) as [n Hn]; [by left|].
    by apply elem_of_nil in Hn.
  - cbn [fst]. split.
    + pose proof (Hc seq) as E. cbn [bt_get] in E.
      rewrite (ord_refl Z.compare) in E. destruct (Z.eqb_spec (handles seq live) 0) as [|Hnz]; [done|].
      destruct (filter (fun s => read_seq s = seq) live) as [|s l] eqn:Ef.
      { exfalso. apply Hnz. unfold handles. by rewrite Ef. }
      exists s. assert (s ∈ filter (fun s => read_seq s = seq) live) as Hsf by (rewrite Ef; by left).
      by apply list_elem_of_filter in Hsf as [? ?].
    + intros s Hsl. destruct (Hin s Hsl) as [k Hk].
      apply elem_of_cons in Hk as [[= -> _]|Hk]; [lia|].
      apply StronglySorted_inv in Hs as [_ Hf]. rewrite Forall_forall in Hf.
      apply Hf in Hk. change (Z.compare seq (read_seq s) = Lt) in Hk.
      apply Z.lt_le_incl. exact Hk.
Qed.

(** A handle that is cloned and dropped leaves the watermark as it was. *)
Lemma watermark_add_remove seq w live :
  watermark_inv (w, live) -> len live < u64_max -> watermark_remove seq (watermark_add seq w) = w.
Proof.
  intros Hi Hl. pose proof (watermark_add_inv seq w live Hi Hl) as Ha.
  apply (watermark_remove_inv (mkSnapshot seq) _ [] live) in Ha as [Hs Hc _].
  destruct Hi as [Hs0 Hc0 _]. cbn [fst snd app read_seq] in *.
  set (w' := watermark_remove seq (watermark_add seq w)) in *.
  destruct w as [m], w' as [m']. cbn [active] in *. f_equal.
  apply (sorted_lt_unique Z.compare); [done | done |]. intros [q n].
  rewrite <- !(bt_get_in Z.compare) by done. by rewrite Hc, Hc0.
Qed.

(** The watermark of a call that may have cloned and dropped [s]. *)
Definition watermark_visited (s : Snapshot) (w w' : Watermark) : Prop :=
  w' = w \/ w' = snapshot_drop s (snapshot_clone s w).2.

Lemma watermark_visited_same s w w' live :
  watermark_inv (w, live) -> len live < u64_max -> watermark_visited s w w' -> w' = w.
Proof. intros Hi Hl [-> | ->]; [done|]. by apply (watermark_add_remove _ _ live). Qed.

(** ** What a transaction sees

    A view is what reads return for each key; buffered writes change it one
    after the other. *)

Abbreviation view := (bytes -> option bytes) (only parsing).

Definition apply_record (v : view) (record : BatchRecord) : view := fun key =>
  match record with
  | BPut k value => if decide (k = key) then Some value else v key
  | BDelete k => if decide (k = key) then None else v key
  end.

Definition view_after (rs : list BatchRecord) (v : view) : view := foldl apply_record v rs.

(** The rows of a range in a view. *)
Definition view_rows (lower upper : Bound) (v : view) (rows : list (bytes * bytes)) : Prop :=
  StronglySorted (key_lt bytes_cmp) rows /\
  forall k x, (k, x) ∈ rows <-> within_bounds k lower upper = true /\ v k = Some x.

(** What the database promises: reads at a snapshot return what its contents
    say, and change neither the contents nor the watermark. *)
Class DatabaseOk (D : Type) `{!Database D} (contents : D -> list entry) (ok : D -> Prop) : Prop := {
  get_opt_ok : forall d key opts s, ok d -> snapshot opts = Some s ->
    exists d', db_get_opt key opts d = (Ok (live key (read_seq s) (contents d)), d') /\
      ok d' /\ contents d' = contents d /\ db_watermark d' = db_watermark d;
  scan_opt_ok : forall d lower upper opts s, ok d -> snapshot opts = Some s ->
    exists rows d', db_scan_opt lower upper opts d = (Ok rows, d') /\
      scan_spec lower upper (read_seq s) (contents d) rows /\
      ok d' /\ contents d' = contents d /\ db_watermark d' = db_watermark d;
  with_watermark_ok : forall d w, ok d ->
    ok (db_with_watermark w d) /\ contents (db_with_watermark w d) = contents d /\
    db_watermark (db_with_watermark w d) = w
}.

Lemma view_after_snoc rs r v key :
  view_after (rs ++ [r]) v key = apply_record (view_after rs v) r key.
Proof. unfold view_after. by rewrite foldl_app. Qed.

Lemma find_record_view rs v key :
  match find_record key (rev rs) with
  | Some r => into_visible_value r
  | None => v key
  end = view_after rs v key.
Proof.
  induction rs as [|r rs IH] using rev_ind; [done|].
  rewrite view_after_snoc, rev_app_distr. cbn [rev app find_record]. destruct r as [k x|k];
    cbn [apply_record]; destruct (decide (k = key)) as [->|Hne].
  - by rewrite bool_decide_eq_true_2.
  - by rewrite bool_decide_eq_false_2.
  - by rewrite bool_decide_eq_true_2.
  - by rewrite bool_decide_eq_false_2.
Qed.

Lemma view_after_ext rs v v' key :
  v key = v' key -> view_after rs v key = view_after rs v' key.
Proof.
  intros E. induction rs as [|r rs IH] using rev_ind; [done|].
  rewrite !view_after_snoc. destruct r; cbn [apply_record]; by rewrite IH.
Qed.

(** A key the batch writes hides what the view had. *)
Lemma view_after_local rs v v' key :
  find_record key (rev rs) <> None -> view_after rs v key = view_after rs v' key.
Proof.
  intros H. rewrite <- (find_record_view rs v), <- (find_record_view rs v').
  by destruct (find_record key (rev rs)).
Qed.

Lemma scan_spec_rows lower upper s es rows :
  scan_spec lower upper s es rows -> view_rows lower upper (fun k => live k s es) rows.
Proof.
  intros [Hs Hr]. split; [done|]. intros k x. rewrite Hr. unfold live.
  destruct (newest k s es) as [[w|]|]; cbn; intuition congruence.
Qed.

(** Collecting sorted rows into a map gives the same rows. *)
Lemma collect_rows (rows acc : list (bytes * bytes)) :
  StronglySorted (key_lt bytes_cmp) (acc ++ rows) ->
  foldl (fun m row => bt_insert bytes_cmp row.1 row.2 m) acc rows = acc ++ rows.
Proof.
  revert acc. induction rows as [|[k x] rows IH]; intros acc Hs; cbn [foldl fst snd];
    [by rewrite app_nil_r|].
  assert (bt_insert bytes_cmp k x acc = acc ++ [(k, x)]) as ->.
  { apply (sorted_lt_unique bytes_cmp).
    - apply bt_insert_sorted; [apply _|]. by eapply StronglySorted_app_1_l.
    - change ((k, x) :: rows) with ([(k, x)] ++ rows) in Hs. rewrite app_assoc in Hs.
      by eapply StronglySorted_app_1_l.
    - intros e. rewrite (bt_insert_in bytes_cmp) by by eapply StronglySorted_app_1_l.
      rewrite elem_of_app, list_elem_of_singleton. split; [tauto|].
      intros [He| ->]; [|by left]. right. split; [done|]. intros Ek.
      apply StronglySorted_app in Hs as (Hlt & _ & _).
      specialize (Hlt e (k, x) He ltac:(by left)). unfold key_lt in Hlt. rewrite Ek in Hlt.
      by apply (ord_irrefl bytes_cmp) in Hlt. }
  rewrite IH; rewrite <- app_assoc; done.
Qed.

Lemma overlay_rows lower upper v rows rs :
  view_rows lower upper v rows ->
  view_rows lower upper (view_after rs v) (foldl (overlay_record lower upper) rows rs).
Proof.
  intros Hv. induction rs as [|r rs IH] using rev_ind; [done|].
  rewrite foldl_app. cbn [foldl]. destruct IH as [Hs Hr].
  destruct r as [k x|k]; cbn [overlay_record]; destruct (within_bounds k lower upper) eqn:Eb; split;
    try done; try (apply bt_insert_sorted; [apply _|done]); try (apply bt_remove_sorted; [apply _|done]).
  all: intros k' x'; rewrite view_after_snoc; cbn [apply_record].
  - rewrite (bt_insert_in bytes_cmp), Hr by done. cbn [fst].
    destruct (decide (k = k')) as [<-|Hne]; split; intuition congruence.
  - rewrite Hr. destruct (decide (k = k')) as [<-|Hne]; [|done]. rewrite Eb. split; by intros [? ?].
  - rewrite (bt_remove_in bytes_cmp), Hr by done. cbn [fst].
    destruct (decide (k = k')) as [<-|Hne]; split; intuition congruence.
  - rewrite Hr. destruct (decide (k = k')) as [<-|Hne]; [|done]. rewrite Eb. split; by intros [? ?].
Qed.

(** ** Runs of a transaction *)

Inductive TxnOp : Type :=
  | TGet (key : bytes)
  | TScan (lower upper : Bound)
  | TPut (key value : bytes)
  | TDelete (key : bytes).

Inductive TxnResult : Type :=
  | RGet (value : option bytes)
  | RScan (rows : list (bytes * bytes))
  | RUnit.

Definition result_ok (v : view) (op : TxnOp) (r : TxnResult) : Prop :=
  match op, r with
  | TGet key, RGet value => value = v key
  | TScan lower upper, RScan rows => view_rows lower upper v rows
  | TPut _ _, RUnit | TDelete _, RUnit => True
  | _, _ => False
  end.

(** Nothing newer than [read_seq] was written to a key or a range that was
    read, or to a key that is to be written. *)
Definition no_conflict (es : list entry) (seq : u64) (read_keys : list bytes)
    (read_ranges : list ReadRange) : Prop :=
  forall e, e ∈ es -> seq < sequence e.1 ->
    (user_key e.1 ∉ read_keys) /\
    (forall lower upper, (lower, upper) ∈ read_ranges ->
       within_bounds (user_key e.1) lower upper = false).

Section runs.
Context {D : Type} `{!Database D} (contents : D -> list entry) (ok : D -> Prop)
  {HD : DatabaseOk D contents ok}.

Definition tx_exec (op : TxnOp) : M (Transaction * D) TxnResult :=
  match op with
  | TGet key => value ← tx_get key; mret (RGet value)
  | TScan lower upper => rows ← tx_scan lower upper; mret (RScan rows)
  | TPut key value => _ ← tx_put key value; mret RUnit
  | TDelete key => _ ← tx_delete key; mret RUnit
  end.

(** A transaction that is still open; others change the database between its
    operations, but not what its snapshot sees.  The log holds what was
    buffered before each operation, the operation and its result. *)
Inductive txn_trace (seq : u64) (es0 : list entry) :
    Transaction * D -> list (list BatchRecord * TxnOp * TxnResult) -> Prop :=
  | trace_begin opts d :
      ok d -> (forall k, live k seq (contents d) = live k seq es0) ->
      txn_trace seq es0 (transaction_new (mkSnapshot seq) opts, d) []
  | trace_op t d log op r t' d' :
      txn_trace seq es0 (t, d) log -> tx_exec op (t, d) = (Ok r, (t', d')) ->
      txn_trace seq es0 (t', d') (log ++ [(records (tx_writes t), op, r)])
  | trace_env t d log d' :
      txn_trace seq es0 (t, d) log ->
      ok d' -> (forall k, live k seq (contents d') = live k seq es0) ->
      txn_trace seq es0 (t, d') log.

Lemma with_snapshot_ok {A} (call : ReadOptions -> M D A) t d (P : A -> Prop) :
  ok d ->
  (forall d0 opts, ok d0 -> contents d0 = contents d -> snapshot opts = Some (tx_snapshot t) ->
     exists a d1, call opts d0 = (Ok a, d1) /\ P a /\ ok d1 /\ contents d1 = contents d0 /\
       db_watermark d1 = db_watermark d0) ->
  exists a d', with_snapshot call (t, d) = (Ok a, (t, d')) /\ P a /\ ok d' /\
    contents d' = contents d /\ watermark_visited (tx_snapshot t) (db_watermark d) (db_watermark d').
Proof.
  intros Hok Hcall. set (snap := tx_snapshot t) in *.
  set (d0 := on_watermark (fun w => (snapshot_clone snap w).2) d).
  set (opts := mkReadOptions true true false (Some snap)).
  assert (with_snapshot call (t, d) = let '(r, d1) := call opts d0 in
    (r, (t, on_watermark (snapshot_drop snap) d1))) as ->.
  { unfold with_snapshot, on_tx_db, zoom, mbind, M_bind, get_state, modify. cbn [fst snd].
    fold snap. fold d0. fold opts. by destruct (call opts d0). }
  destruct (with_watermark_ok d ((snapshot_clone snap (db_watermark d)).2) Hok)
    as (Hok0 & Hc0 & Hw0).
  destruct (Hcall d0 opts Hok0 Hc0 eq_refl) as (a & d1 & -> & HP & Hok1 & Hc1 & Hw1).
  destruct (with_watermark_ok d1 (snapshot_drop snap (db_watermark d1)) Hok1)
    as (Hok2 & Hc2 & Hw2).
  change (contents d0 = contents d) in Hc0.
  change (db_watermark d0 = (snapshot_clone snap (db_watermark d)).2) in Hw0.
  eexists a, _. split; [reflexivity|]. split; [done|]. split; [exact Hok2|].
  unfold on_watermark. split; [congruence|]. right. by rewrite Hw2, Hw1, Hw0.
Qed.

Lemma tx_get_ok key t d :
  tx_closed t = false -> tx_read_seq t = read_seq (tx_snapshot t) -> ok d ->
  exists t' d', tx_get key (t, d) = (Ok (view_after (records (tx_writes t))
        (fun k => live k (tx_read_seq t) (contents d)) key), (t', d')) /\
    ok d' /\ contents d' = contents d /\
    watermark_visited (tx_snapshot t) (db_watermark d) (db_watermark d') /\
    (local_value t key <> None /\ t' = t \/
     local_value t key = None /\ t' = tx_with_reads (bt_insert bytes_cmp key tt (tx_read_keys t)) (tx_read_ranges t) t).
Proof.
  intros Hcl Hseq Hok. unfold tx_get, ensure_open.
  erewrite bind_ok by (rewrite bind_get_state; cbn [fst]; rewrite Hcl; reflexivity).
  rewrite bind_get_state. cbn [fst].
  rewrite <- find_record_view. fold (local_value t key).
  destruct (local_value t key) as [r|] eqn:El.
  - exists t, d. split; [done|]. split; [done|]. split; [done|]. by split; left.
  - unfold modify_tx. rewrite bind_modify. cbn [fst snd].
    set (t' := tx_with_reads _ _ t).
    destruct (with_snapshot_ok (db_get_opt key) t' d
      (fun a => a = live key (tx_read_seq t) (contents d)) Hok) as (a & d' & E & -> & Hok' & Hc & Hw).
    { intros d0 opts Hok0 Hc0 Hs. destruct (get_opt_ok d0 key opts _ Hok0 Hs)
        as (d1 & E & Hok1 & Hc1 & Hw1). exists (live key (read_seq (tx_snapshot t)) (contents d0)), d1.
      split; [exact E|]. split; [by rewrite Hc0, Hseq | done]. }
    rewrite E. exists t', d'. split; [done|]. split; [done|]. split; [done|]. split; [done|]. by right.
Qed.

Lemma tx_scan_ok lower upper t d :
  tx_closed t = false -> tx_read_seq t = read_seq (tx_snapshot t) -> ok d ->
  exists rows d', tx_scan lower upper (t, d)
      = (Ok rows, (tx_with_reads (tx_read_keys t) (tx_read_ranges t ++ [(lower, upper)]) t, d')) /\
    ok d' /\ contents d' = contents d /\
    watermark_visited (tx_snapshot t) (db_watermark d) (db_watermark d') /\
    view_rows lower upper (view_after (records (tx_writes t))
      (fun k => live k (tx_read_seq t) (contents d))) rows.
Proof.
  intros Hcl Hseq Hok. unfold tx_scan, ensure_open.
  erewrite bind_ok by (rewrite bind_get_state; cbn [fst]; rewrite Hcl; reflexivity).
  unfold modify_tx. rewrite bind_modify. cbn [fst snd].
  set (t' := tx_with_reads _ _ t).
  destruct (with_snapshot_ok (db_scan_opt lower upper) t' d
    (scan_spec lower upper (tx_read_seq t) (contents d)) Hok) as (rows & d' & E & Hrows & Hok' & Hc & Hw).
  { intros d0 opts Hok0 Hc0 Hs. destruct (scan_opt_ok d0 lower upper opts _ Hok0 Hs)
      as (rows & d1 & E & Hr & Hok1 & Hc1 & Hw1). exists rows, d1. split; [exact E|].
    split; [|done]. rewrite Hseq, <- Hc0. exact Hr. }
  erewrite bind_ok by exact E. cbv zeta. rewrite bind_get_state. cbn [fst].
  eexists _, d'. split; [reflexivity|]. split; [done|]. split; [done|]. split; [exact Hw|].
  rewrite collect_rows by apply Hrows. cbn [app]. apply overlay_rows. by apply scan_spec_rows.
Qed.

Lemma tx_write_ok op t d :
  tx_closed t = false ->
  match op with TPut _ _ | TDelete _ => True | _ => False end ->
  tx_exec op (t, d)
  = (if read_only (tx_opts t)
     then (Err (InvalidArgument "read-only transaction cannot write"), (t, d))
     else (Ok RUnit, (tx_with_writes (mkWriteBatch (records (tx_writes t) ++
       [match op with TPut k v => BPut k v | TDelete k => BDelete k | _ => BDelete [] end])) t, d))).
Proof.
  intros Hcl Hop. destruct op as [| |k v|k]; try done;
    cbn [tx_exec]; unfold tx_put, tx_delete, ensure_open, ensure_writable, mbind, M_bind, get_state;
    cbn [fst snd]; rewrite Hcl; unfold mret, M_ret; cbv beta iota; cbn [fst snd];
    by destruct (read_only (tx_opts t)).
Qed.

(** What holds of an open transaction throughout its run. *)
Record trace_inv (seq : u64) (es0 : list entry) (t : Transaction) (d : D)
    (log : list (list BatchRecord * TxnOp * TxnResult)) : Prop := {
  ti_open : tx_closed t = false;
  ti_seq : tx_read_seq t = seq /\ tx_snapshot t = mkSnapshot seq;
  ti_ok : ok d;
  ti_view : forall k, live k seq (contents d) = live k seq es0;
  ti_keys : StronglySorted (key_lt bytes_cmp) (tx_read_keys t);
  ti_log : forall rs op r, (rs, op, r) ∈ log ->
    result_ok (view_after rs (fun k => live k seq es0)) op r;
  ti_reads : forall rs op r, (rs, op, r) ∈ log ->
    match op with
    | TGet key => find_record key (rev rs) <> None \/ key ∈ (tx_read_keys t).*1
    | TScan lower upper => (lower, upper) ∈ tx_read_ranges t
    | _ => True
    end
}.

Lemma view_rows_ext lower upper v v' rows :
  (forall k, v k = v' k) -> view_rows lower upper v rows -> view_rows lower upper v' rows.
Proof. intros E [Hs Hr]. split; [done|]. intros k x. by rewrite Hr, E. Qed.

Lemma trace_inv_step seq es0 t d log op r t' d' :
  trace_inv seq es0 t d log -> tx_exec op (t, d) = (Ok r, (t', d')) ->
  trace_inv seq es0 t' d' (log ++ [(records (tx_writes t), op, r)]).
Proof.
  intros [Ho [Hs Hsn] Hok Hv Hk Hl Hr] E.
  assert (Hs' : tx_read_seq t = read_seq (tx_snapshot t)) by (by rewrite Hsn, Hs).
  destruct op as [key|lower upper|k v|k].
  - destruct (tx_get_ok key t d Ho Hs' Hok) as (t1 & d1 & E1 & Hok1 & Hc1 & _ & Ht1).
    unfold tx_exec in E. erewrite bind_ok in E by exact E1. injection E as <- <- <-.
    assert (key ∈ (bt_insert bytes_cmp key tt (tx_read_keys t)).*1) as Hin
      by (apply bt_insert_keys; [apply _ | done | by left]).
    assert (forall k, k ∈ (tx_read_keys t).*1 -> k ∈ (bt_insert bytes_cmp key tt (tx_read_keys t)).*1)
      as Hmono by (intros k Hk'; apply bt_insert_keys; [apply _ | done | by right]).
    constructor.
    + by destruct Ht1 as [[_ ->]|[_ ->]].
    + by destruct Ht1 as [[_ ->]|[_ ->]].
    + done.
    + intros k. by rewrite Hc1.
    + destruct Ht1 as [[_ ->]|[_ ->]]; [done|]. apply bt_insert_sorted; [apply _ | done].
    + intros rs op r' [H|[= -> -> ->]%list_elem_of_singleton]%elem_of_app; [by eapply Hl|].
      cbn [result_ok]. apply view_after_ext. by rewrite Hs.
    + intros rs op r' [H|[= -> -> _]%list_elem_of_singleton]%elem_of_app.
      * specialize (Hr rs op r' H). destruct Ht1 as [[_ ->]|[_ ->]]; [done|].
        destruct op; try done. destruct Hr as [?|?]; [by left | right; by apply Hmono].
      * destruct Ht1 as [[Hw _]|[_ ->]]; [by left | by right].
  - destruct (tx_scan_ok lower upper t d Ho Hs' Hok) as (rows & d1 & E1 & Hok1 & Hc1 & _ & Hrows).
    unfold tx_exec in E. erewrite bind_ok in E by exact E1. injection E as <- <- <-.
    constructor; try done.
    + intros k. by rewrite Hc1.
    + intros rs op r' [H|[= -> -> ->]%list_elem_of_singleton]%elem_of_app; [by eapply Hl|].
      cbn [result_ok]. eapply view_rows_ext; [|exact Hrows]. intros k. apply view_after_ext.
      by rewrite Hs.
    + intros rs op r' [H|[= -> -> _]%list_elem_of_singleton]%elem_of_app.
      * specialize (Hr rs op r' H). destruct op; try done. apply elem_of_app. by left.
      * apply elem_of_app. right. by left.
  - rewrite tx_write_ok in E by done. destruct (read_only (tx_opts t)); [done|].
    injection E as <- <- <-. constructor; try done.
    + intros rs op r' [H|[= -> -> ->]%list_elem_of_singleton]%elem_of_app; [by eapply Hl | done].
    + intros rs op r' [H|[= -> -> _]%list_elem_of_singleton]%elem_of_app; [by eapply Hr | done].
  - rewrite tx_write_ok in E by done. destruct (read_only (tx_opts t)); [done|].
    injection E as <- <- <-. constructor; try done.
    + intros rs op r' [H|[= -> -> ->]%list_elem_of_singleton]%elem_of_app; [by eapply Hl | done].
    + intros rs op r' [H|[= -> -> _]%list_elem_of_singleton]%elem_of_app; [by eapply Hr | done].
Qed.

Lemma txn_trace_inv seq es0 st log :
  txn_trace seq es0 st log -> trace_inv seq es0 st.1 st.2 log.
Proof.
  induction 1 as [opts d Hok Hv|t d log op r t' d' _ IH E|t d log d' _ IH Hok Hv]; cbn [fst snd] in *.
  - constructor; try done; [constructor | by intros ??? ?%elem_of_nil..].
  - by eapply trace_inv_step.
  - by destruct IH.
Qed.

(** A database without conflicts reads the same at any later sequence. *)
Lemma no_conflict_live es seq later keys ranges key :
  consistent es -> no_conflict es seq keys ranges -> seq <= later ->
  key ∈ keys \/ (exists lo hi, (lo, hi) ∈ ranges /\ within_bounds key lo hi = true) ->
  live key later es = live key seq es.
Proof.
  intros Hc Hn Hle Hk. unfold live, newest. f_equal. f_equal.
  assert (forall e, e ∈ es -> visible key later e = visible key seq e) as Hvis.
  { intros e He. apply eq_true_iff_eq. rewrite !visible_spec.
    split; intros [Hu Hs]; (split; [done|]); [|lia].
    destruct (Z.le_gt_cases (sequence e.1) seq) as [|Hgt]; [done|]. exfalso.
    destruct (Hn e He Hgt) as [H1 H2]. destruct Hk as [Hk|(lo & hi & Hin & Hb)].
    - apply H1. by rewrite Hu.
    - apply H2 in Hin. rewrite Hu in Hin. congruence. }
  clear Hn Hk Hc. induction es as [|e es IH]; [done|]. cbn [newest_entry].
  rewrite Hvis by by left. rewrite IH by (intros e' He'; apply Hvis; by right). done.
Qed.

(** ** Properties *)

(** whatever others write while a transaction runs (as long as what
    its snapshot sees is kept), every result it gets is that of the snapshot
    with its own earlier writes applied in order, and everything it read from
    the database is in its read set. *)
Theorem transaction_snapshot_isolation seq es0 t d log rs op r :
  txn_trace seq es0 (t, d) log -> (rs, op, r) ∈ log ->
  result_ok (view_after rs (fun k => live k seq es0)) op r /\
  match op with
  | TGet key => find_record key (rev rs) <> None \/ key ∈ (tx_read_keys t).*1
  | TScan lower upper => (lower, upper) ∈ tx_read_ranges t
  | _ => True
  end.
Proof.
  intros Ht Hin. destruct (txn_trace_inv _ _ _ _ Ht) as [_ _ _ _ _ Hl Hr].
  split; [by eapply Hl | by eapply Hr].
Qed.

(** C5: when the database a transaction commits to holds nothing newer
    than its snapshot for its read set, the results it got are those it would
    get from that database at the time of the commit: the transaction can be
    put at its commit in a serial order. *)
Theorem transaction_serializable seq es0 t d log later :
  txn_trace seq es0 (t, d) log -> consistent (contents d) -> seq <= later ->
  no_conflict (contents d) seq (tx_read_keys t).*1 (tx_read_ranges t) ->
  forall rs op r, (rs, op, r) ∈ log ->
    result_ok (view_after rs (fun k => live k later (contents d))) op r.
Proof.
  intros Ht Hc Hle Hn rs op r Hin. destruct (txn_trace_inv _ _ _ _ Ht) as [_ _ _ Hv _ Hl Hr].
  cbn [fst snd] in *. specialize (Hl _ _ _ Hin). specialize (Hr _ _ _ Hin).
  assert (forall k, (k ∈ (tx_read_keys t).*1 \/
    exists lo hi, (lo, hi) ∈ tx_read_ranges t /\ within_bounds k lo hi = true) ->
    live k seq es0 = live k later (contents d)) as Heq.
  { intros k Hk. rewrite <- Hv. symmetry. by eapply no_conflict_live. }
  destruct op as [key|lower upper| |]; destruct r; try done; cbn [result_ok] in *.
  - subst. destruct Hr as [Hw|Hk]; [by apply view_after_local|]. apply view_after_ext. auto.
  - destruct Hl as [Hs Hrows]. split; [done|]. intros k x. rewrite Hrows.
    split; intros [Hb E]; (split; [done|]); rewrite <- E; apply view_after_ext;
      [symmetry|]; apply Heq; eauto.
Qed.
End runs.

(** C30: whatever handles are made, cloned and dropped, [oldest] is the
    least sequence number of a live snapshot, and nothing when there is
    none. *)
Theorem watermark_oldest_live w live :
  rtc snapshot_step (watermark_new, []) (w, live) ->
  match watermark_oldest w with
  | None => live = []
  | Some seq => (exists s, s ∈ live /\ read_seq s = seq) /\ forall s, s ∈ live -> seq <= read_seq s
  end.
Proof.
  intros H. apply watermark_oldest_spec.
  apply (rtc_ind_r (R := snapshot_step) (fun st => watermark_inv st) (watermark_new, [])); [|..|exact H].
  - apply watermark_new_inv.
  - intros st st' _ Hst Hi. by eapply snapshot_step_inv.
Qed.

(** ** A small database

    Contents and a watermark, read by their specification: an instance of the
    interface, on which the properties are exercised. *)

Record ToyDb : Type := mkToyDb { toy_entries : list entry; toy_watermark : Watermark }.

#[export] Instance toy_database : Database ToyDb := {|
  db_get_opt key opts := fun d =>
    (Ok (live key (default 0 (read_seq <$> snapshot opts)) (toy_entries d)), d);
  db_scan_opt lower upper opts := fun d =>
    (Ok (live_rows lower upper (default 0 (read_seq <$> snapshot opts)) ∅
       (sort_by (cmp_key ikey_cmp) (toy_entries d))), d);
  db_commit_transaction _ _ _ _ := fun d => (Ok tt, d);
  db_watermark := toy_watermark;
  db_with_watermark w d := mkToyDb (toy_entries d) w
|}.

#[export] Instance toy_database_ok :
  DatabaseOk ToyDb toy_entries (fun d => consistent (toy_entries d)).
Proof.
  split.
  - intros d key opts s Hd Hs. exists d. cbn [db_get_opt toy_database]. by rewrite Hs.
  - intros d lower upper opts s Hd Hs. eexists _, d. cbn [db_scan_opt toy_database]. rewrite Hs.
    split; [reflexivity|]. split; [|done]. eapply scan_spec_ext; [exact Hd | apply sort_by_perm|].
    apply live_rows_scan. apply sort_by_sorted; apply _.
  - done.
Qed.

Definition toy_contents : list entry :=
  [(mkInternalKey [1] 2 VPut, RPut [20]); (mkInternalKey [1] 1 VPut, RPut [10]);
   (mkInternalKey [3] 3 VPut, RPut [30])].

Lemma toy_contents_consistent : consistent toy_contents.
Proof.
  intros e e' He He' Heq.
  repeat (apply elem_of_cons in He as [-> | He]); [.. | by apply elem_of_nil in He];
    repeat (apply elem_of_cons in He' as [-> | He']); try (by apply elem_of_nil in He'); done.
Qed.

(** A run at sequence 3: a read, a write, a scan that sees it. *)
Definition toy_start : Transaction * ToyDb :=
  (transaction_new (mkSnapshot 3) (mkTransactionOptions false), mkToyDb toy_contents watermark_new).
Definition toy_after (op : TxnOp) (s : Transaction * ToyDb) : Transaction * ToyDb :=
  (tx_exec op s).2.
Definition toy_end : Transaction * ToyDb :=
  toy_after (TScan (Included [1]) (Excluded [3]))
    (toy_after (TPut [2] [22]) (toy_after (TGet [1]) toy_start)).
Definition toy_log : list (list BatchRecord * TxnOp * TxnResult) :=
  [([], TGet [1], RGet (Some [20])); ([], TPut [2] [22], RUnit);
   ([BPut [2] [22]], TScan (Included [1]) (Excluded [3]), RScan [([1], [20]); ([2], [22])])].

Lemma toy_trace :
  txn_trace toy_entries (fun d => consistent (toy_entries d)) 3 toy_contents
    (toy_end.1, toy_end.2) toy_log.
Proof.
  pose (ok := fun d => consistent (toy_entries d)).
  pose (s1 := toy_after (TGet [1]) toy_start). pose (s2 := toy_after (TPut [2] [22]) s1).
  assert (txn_trace toy_entries ok 3 toy_contents (toy_start.1, toy_start.2) []) as T0
    by (apply (trace_begin toy_entries ok 3 toy_contents (mkTransactionOptions false));
        [apply toy_contents_consistent | done]).
  pose proof (trace_op toy_entries ok 3 toy_contents _ _ _ (TGet [1]) (RGet (Some [20]))
    s1.1 s1.2 T0 eq_refl) as T1.
  pose proof (trace_op toy_entries ok 3 toy_contents _ _ _ (TPut [2] [22]) RUnit
    s2.1 s2.2 T1 eq_refl) as T2.
  exact (trace_op toy_entries ok 3 toy_contents _ _ _ (TScan (Included [1]) (Excluded [3]))
    (RScan [([1], [20]); ([2], [22])]) toy_end.1 toy_end.2 T2 eq_refl).
Qed.

Lemma transaction_snapshot_isolation_witness :
  result_ok (view_after [BPut [2] [22]] (fun k => live k 3 toy_contents))
    (TScan (Included [1]) (Excluded [3])) (RScan [([1], [20]); ([2], [22])]) /\
  (Included [1], Excluded [3]) ∈ tx_read_ranges toy_end.1.
Proof.
  apply (transaction_snapshot_isolation toy_entries (fun d => consistent (toy_entries d)) 3
    toy_contents toy_end.1 toy_end.2 toy_log [BPut [2] [22]]
    (TScan (Included [1]) (Excluded [3])) (RScan [([1], [20]); ([2], [22])]));
    [apply toy_trace | by do 2 right; left].
Defined.

Lemma transaction_serializable_witness :
  no_conflict toy_contents 3 (tx_read_keys toy_end.1).*1 (tx_read_ranges toy_end.1) /\
  result_ok (view_after [] (fun k => live k 7 toy_contents)) (TGet [1]) (RGet (Some [20])).
Proof.
  assert (no_conflict toy_contents 3 (tx_read_keys toy_end.1).*1 (tx_read_ranges toy_end.1)) as Hn.
  { intros e He Hs. exfalso. revert Hs. apply Z.le_ngt.
    repeat (apply elem_of_cons in He as [-> | He]); [done.. | by apply elem_of_nil in He]. }
  split; [exact Hn|].
  apply (transaction_serializable toy_entries (fun d => consistent (toy_entries d)) 3
    toy_contents toy_end.1 toy_end.2 toy_log 7); [apply toy_trace | | done | exact Hn | by left].
  apply toy_contents_consistent.
Defined.

Lemma watermark_oldest_live_witness :
  let w := watermark_add 3 (watermark_add 7 watermark_new) in
  rtc snapshot_step (watermark_new, []) (w, [mkSnapshot 3; mkSnapshot 7]) /\
  watermark_oldest w = Some 3 /\ forall s, s ∈ [mkSnapshot 3; mkSnapshot 7] -> 3 <= read_seq s.
Proof.
  intros w.
  assert (rtc snapshot_step (watermark_new, []) (w, [mkSnapshot 3; mkSnapshot 7])) as Hr.
  { apply (rtc_l _ _ (watermark_add 7 watermark_new, [mkSnapshot 7]));
      [by apply (step_new 7 watermark_new [])|].
    apply rtc_once. by apply (step_new 3 (watermark_add 7 watermark_new) [mkSnapshot 7]). }
  split; [exact Hr|]. split; [done|]. exact (proj2 (watermark_oldest_live _ _ Hr)).
Defined.
