(* ===== verification/DbState.v ===== *)
(** * The state of a database

    [DBState] and [DBInner] of [src/db.rs], with the helper functions of that
    file: what a batch writes, applying it to the mutable memtable, rotating
    memtables, and the metadata of a table.  A method is a function from
    state to state.  Writes, flushes and compactions hold the lock of what they
    change while they change it; point reads, scans and the conflict check
    release the lock on [DBState] before they search the tables they cloned
    ([get_locked], [get_unlocked] and their kin in [DbRead.v]; [DbUnlocked.v]).
    A poisoned lock needs a panic, which ends a run here. *)

From Stdlib Require Import Sorting.Sorted.
From stdpp Require Import base list gmap strings sorting.
From S2P Require Import Prelude Key Spec Memtable Batch Env Externals Wal Block Cache Reader.
From S2P Require Import TableCache Version Options Metrics Mvcc.

(** [io::Error::to_string]: the message is the operating system's. *)
Class OsMessages : Type := { io_error_to_string : io_kind -> string }.
#[export] Instance toy_os_messages : OsMessages := {| io_error_to_string _ := "I/O error"%string |}.

Abbreviation TableRef := (FileMeta * SSTableReader)%type (only parsing).

Section state.
Context `{S : arena_skip_map}.

Record DBState : Type := mkDBState {
  st_mutable : MemTable S;
  st_immutables : list (MemTable S);
  st_l0_tables : list TableRef;
  st_level_tables : list (list TableRef);
  st_last_sequence : u64;
  st_closed : bool
}.

Definition with_memtables (mutable : MemTable S) (immutables : list (MemTable S))
    (self : DBState) : DBState :=
  mkDBState mutable immutables (st_l0_tables self) (st_level_tables self) (st_last_sequence self)
    (st_closed self).
Definition with_mutable (mutable : MemTable S) (self : DBState) : DBState :=
  with_memtables mutable (st_immutables self) self.
Definition with_tables (l0_tables : list TableRef) (level_tables : list (list TableRef))
    (self : DBState) : DBState :=
  mkDBState (st_mutable self) (st_immutables self) l0_tables level_tables (st_last_sequence self)
    (st_closed self).
Definition with_last_sequence (last_sequence : u64) (self : DBState) : DBState :=
  mkDBState (st_mutable self) (st_immutables self) (st_l0_tables self) (st_level_tables self)
    last_sequence (st_closed self).
Definition with_closed (closed : bool) (self : DBState) : DBState :=
  mkDBState (st_mutable self) (st_immutables self) (st_l0_tables self) (st_level_tables self)
    (st_last_sequence self) closed.

(** [DBInner]; the file system and the clock are the environment's. *)
Record Db : Type := mkDb {
  db_path : string;
  db_options : Options;
  db_state : DBState;
  db_versions : VersionSet;
  db_block_cache : BlockCache;
  db_table_cache : TableCache;
  db_snapshots : Watermark;
  db_metrics : Metrics;
  db_write_rate_limiter : option RateLimiter;
  db_wal : WalWriter;
  db_fs : Fs;
  db_now : instant
}.

(** ** Parts of the state *)

Definition set_state (st : DBState) (d : Db) : Db :=
  mkDb (db_path d) (db_options d) st (db_versions d) (db_block_cache d) (db_table_cache d)
    (db_snapshots d) (db_metrics d) (db_write_rate_limiter d) (db_wal d) (db_fs d) (db_now d).
Definition set_versions (vs : VersionSet) (fs : Fs) (d : Db) : Db :=
  mkDb (db_path d) (db_options d) (db_state d) vs (db_block_cache d) (db_table_cache d)
    (db_snapshots d) (db_metrics d) (db_write_rate_limiter d) (db_wal d) fs (db_now d).
Definition set_rw (w : RW) (d : Db) : Db :=
  mkDb (db_path d) (db_options d) (db_state d) (db_versions d) (rw_cache w) (db_table_cache d)
    (db_snapshots d) (db_metrics d) (db_write_rate_limiter d) (db_wal d) (rw_fs w) (db_now d).
Definition set_table_cache (tc : TableCache) (fs : Fs) (d : Db) : Db :=
  mkDb (db_path d) (db_options d) (db_state d) (db_versions d) (db_block_cache d) tc
    (db_snapshots d) (db_metrics d) (db_write_rate_limiter d) (db_wal d) fs (db_now d).
Definition set_snapshots (w : Watermark) (d : Db) : Db :=
  mkDb (db_path d) (db_options d) (db_state d) (db_versions d) (db_block_cache d)
    (db_table_cache d) w (db_metrics d) (db_write_rate_limiter d) (db_wal d) (db_fs d) (db_now d).
Definition set_metrics (m : Metrics) (d : Db) : Db :=
  mkDb (db_path d) (db_options d) (db_state d) (db_versions d) (db_block_cache d)
    (db_table_cache d) (db_snapshots d) m (db_write_rate_limiter d) (db_wal d) (db_fs d) (db_now d).
Definition set_rate_limiter (l : RateLimiter) (d : Db) : Db :=
  mkDb (db_path d) (db_options d) (db_state d) (db_versions d) (db_block_cache d)
    (db_table_cache d) (db_snapshots d) (db_metrics d) (Some l) (db_wal d) (db_fs d) (db_now d).
Definition set_wal (w : WalWriter) (fs : Fs) (d : Db) : Db :=
  mkDb (db_path d) (db_options d) (db_state d) (db_versions d) (db_block_cache d)
    (db_table_cache d) (db_snapshots d) (db_metrics d) (db_write_rate_limiter d) w fs (db_now d).
Definition set_now (now : instant) (d : Db) : Db :=
  mkDb (db_path d) (db_options d) (db_state d) (db_versions d) (db_block_cache d)
    (db_table_cache d) (db_snapshots d) (db_metrics d) (db_write_rate_limiter d) (db_wal d)
    (db_fs d) now.

Definition on_state {A} (m : M DBState A) : M Db A := zoom db_state set_state m.
Definition on_versions {A} (m : M (VersionSet * Fs) A) : M Db A :=
  zoom (fun d => (db_versions d, db_fs d)) (fun t => set_versions t.1 t.2) m.
Definition on_rw {A} (m : M RW A) : M Db A :=
  zoom (fun d => mkRW (db_fs d) (db_block_cache d)) set_rw m.
Definition on_table_cache {A} (m : M (TableCache * Fs) A) : M Db A :=
  zoom (fun d => (db_table_cache d, db_fs d)) (fun t => set_table_cache t.1 t.2) m.
Definition on_metrics (f : Metrics -> Metrics) : M Db unit :=
  modify (fun d => set_metrics (f (db_metrics d)) d).
Definition on_wal {A} (m : M (WalWriter * Fs) A) : M Db A :=
  zoom (fun d => (db_wal d, db_fs d)) (fun t => set_wal t.1 t.2) m.
(** The environment. *)
Definition on_env {A} (m : M Fs A) : M Db A :=
  zoom db_fs (fun fs d => set_wal (db_wal d) fs d) m.
(** [thread::sleep]. *)
Definition sleep (d : duration) : M Db unit := modify (fun db => set_now (db_now db + d) db).

(** ** What the database reports *)

Definition block_cache_stats (d : Db) : CacheStats := bc_stats (db_block_cache d).

Definition metrics_snapshot (d : Db) : MetricsSnapshot :=
  metrics_snapshot_of (db_metrics d) (block_cache_stats d).

Definition level_file_counts (d : Db) : list usize :=
  len (st_l0_tables (db_state d)) :: map len (drop 1 (st_level_tables (db_state d))).

(** ** Memtables *)

(** The body of the loop of [apply_batch]; [(start_sequence..)] counts up. *)
Definition apply_batch_record (acc : u64 * DBState) (record : BatchRecord) : u64 * DBState :=
  let '(sequence, state) := acc in
  let state :=
    match record with
    | BPut key value => with_mutable (mt_put sequence key value (st_mutable state)) state
    | BDelete key => with_mutable (mt_delete sequence key (st_mutable state)) state
    end in
  (wrap64 (sequence + 1), with_last_sequence (Z.max (st_last_sequence state) sequence) state).

Definition apply_batch (start_sequence : u64) (batch : WriteBatch) (state : DBState) : DBState :=
  (foldl apply_batch_record (start_sequence, state) (records batch)).2.

Definition freeze_mutable_if_needed (memtable_size : usize) (memtable_kind : MemTableKind)
    (state : DBState) : bool * DBState :=
  if mt_is_empty (st_mutable state) || (mt_approximate_size (st_mutable state) <? memtable_size)
  then (false, state)
  else
    let frozen := st_mutable state in
    (true, with_memtables (mt_new memtable_kind) (st_immutables state ++ [frozen]) state).

Inductive FlushSource : Type :=
  | SrcMutable
  | ImmutableOldest.

Definition take_oldest_flushable_memtable (memtable_kind : MemTableKind) (state : DBState) :
    option (MemTable S * FlushSource) * DBState :=
  match st_immutables state with
  | oldest :: immutables =>
      (Some (oldest, ImmutableOldest), with_memtables (st_mutable state) immutables state)
  | [] =>
      if mt_is_empty (st_mutable state) then (None, state)
      else (Some (st_mutable state, SrcMutable), with_mutable (mt_new memtable_kind) state)
  end.

Definition restore_flush_memtable (memtable : MemTable S) (source : FlushSource)
    (state : DBState) : DBState :=
  match source with
  | SrcMutable =>
      if mt_is_empty (st_mutable state) then with_mutable memtable state
      else with_memtables (st_mutable state) (st_immutables state ++ [memtable]) state
  | ImmutableOldest => with_memtables (st_mutable state) (memtable :: st_immutables state) state
  end.

Definition extend_memtable_entries (entries : list entry) (memtable : MemTable S) : list entry :=
  entries ++ mt_entries memtable.
End state.
Arguments DBState S : clear implicits.
Arguments Db S : clear implicits.

(** ** Batches *)

(** [BTreeSet<Bytes>]. *)
Definition batch_write_keys (batch : WriteBatch) : list (bytes * unit) :=
  foldl (fun keys record =>
    match record with BPut key _ | BDelete key => bt_insert bytes_cmp key tt keys end)
    [] (records batch).

Definition batch_user_write_bytes (batch : WriteBatch) : u64 :=
  foldl (fun sum record =>
    wrap64 (sum + match record with
                  | BPut key value => len key + len value
                  | BDelete key => len key
                  end)) 0 (records batch).

Definition wal_record_bytes (payload : bytes) : u64 := len payload + 9.

Section messages.
Context `{O : OsMessages}.

Definition repeat_group_error (err : error) (count : nat) : list (res unit) :=
  match err with
  | Closed => replicate count (Err Closed)
  | InvalidArgument message => replicate count (Err (InvalidArgument message))
  | Corruption message => replicate count (Err (Corruption message))
  | Unsupported feature => replicate count (Err (Unsupported feature))
  | TransactionConflict message => replicate count (Err (TransactionConflict message))
  | Io err => replicate count (Err (Corruption (io_error_to_string err)))
  end.
End messages.

(** ** Tables *)

Definition file_overlaps_user_key (meta : FileMeta) (key : bytes) : bool :=
  leb bytes_cmp (user_key (fm_smallest meta)) key
  && leb bytes_cmp key (user_key (fm_largest meta)).

Definition user_key_overlaps_range (self : FileMeta) (smallest largest : bytes) : bool :=
  leb bytes_cmp (user_key (fm_smallest self)) largest
  && leb bytes_cmp smallest (user_key (fm_largest self)).

(** The smallest and the largest sequence number of the entries. *)
Definition sequence_range (entries : list entry) : option (u64 * u64) :=
  foldl (fun range (e : entry) =>
    match range with
    | Some (smallest, largest) => Some (Z.min smallest (sequence e.1), Z.max largest (sequence e.1))
    | None => Some (sequence e.1, sequence e.1)
    end) None entries.

Section tables.
Context `{X : Externals} `{H : HashOrder} `{N : NumberHashOrder}.

Definition file_meta_from_table (number file_size : u64) (reader : SSTableReader) :
    M RW FileMeta :=
  entries ← sst_entries reader;
  match sequence_range entries with
  | None => fail (Corruption "empty SSTable has no sequence range")
  | Some (smallest_seq, largest_seq) =>
      match smallest_key reader with
      | None => fail (Corruption "empty SSTable has no smallest key")
      | Some smallest =>
          match largest_key reader with
          | None => fail (Corruption "empty SSTable has no largest key")
          | Some largest =>
              mret (mkFileMeta number file_size smallest largest smallest_seq largest_seq)
          end
      end
  end.

Definition open_table (path : string) (file : FileMeta) : M (TableCache * Fs) TableRef :=
  table ← get_or_open (fm_number file) (path_join path (table_file_name (fm_number file)));
  mret (file, table).

Definition open_version_tables (path : string) (version : Version) :
    M (TableCache * Fs) (list TableRef * list (list TableRef)) :=
  l0_tables ← for_each (v_l0_files version)
    (fun file tables => t ← open_table path file; mret (tables ++ [t])) [];
  level_tables ← for_each (v_levels version)
    (fun level level_tables =>
       tables ← for_each level
         (fun file tables => t ← open_table path file; mret (tables ++ [t])) [];
       mret (level_tables ++ [tables])) [];
  mret (l0_tables, level_tables).
End tables.
