(* ===== verification/DbRead.v ===== *)
(** * Reading the database

    [get_opt], [scan_iter_opt], [snapshot] and the conflict check of
    transactions in [src/db.rs], and their correctness: a point read finds the
    newest visible version whichever of the memtables, the level 0 tables and
    the deeper levels holds it, a scan merges them all, and the conflict check
    passes exactly when nothing newer touches the read set. *)

From Stdlib Require Import Sorting.Sorted.
From stdpp Require Import base list gmap strings sorting.
From S2P Require Import Prelude Key Spec Memtable Iterators Batch Env Externals Wal Format.
From S2P Require Import Block Cache Properties Table Reader TableCache Version Options Metrics.
From S2P Require Import Mvcc DbState.

(** [String::from_utf8_lossy]: the length of the well-formed character at the
    head, or of the ill-formed part that one U+FFFD replaces. *)
Definition utf8_step (bs : bytes) : bool * nat :=
  match bs with
  | [] => (true, 0%nat)
  | b0 :: r0 =>
      if in_range 0 0x7f b0 then (true, 1%nat)
      else
        let b1 := nth 0 r0 0 in
        let b2 := nth 1 r0 0 in
        let b3 := nth 2 r0 0 in
        if in_range 0xc2 0xdf b0 then
          if in_range 0x80 0xbf b1 then (true, 2%nat) else (false, 1%nat)
        else if in_range 0xe0 0xef b0 then
          if in_range (if b0 =? 0xe0 then 0xa0 else 0x80) (if b0 =? 0xed then 0x9f else 0xbf) b1
          then if in_range 0x80 0xbf b2 then (true, 3%nat) else (false, 2%nat)
          else (false, 1%nat)
        else if in_range 0xf0 0xf4 b0 then
          if in_range (if b0 =? 0xf0 then 0x90 else 0x80) (if b0 =? 0xf4 then 0x8f else 0xbf) b1
          then if in_range 0x80 0xbf b2
               then if in_range 0x80 0xbf b3 then (true, 4%nat) else (false, 3%nat)
               else (false, 2%nat)
          else (false, 1%nat)
        else (false, 1%nat)
  end.

Fixpoint utf8_lossy (fuel : nat) (bs : bytes) : bytes :=
  match fuel, bs with
  | O, _ | _, [] => []
  | Datatypes.S fuel, _ =>
      let '(valid, n) := utf8_step bs in
      (if valid then take n bs else [0xef; 0xbf; 0xbd]) ++ utf8_lossy fuel (drop n bs)
  end.
Definition from_utf8_lossy (bs : bytes) : string := bytes_string (utf8_lossy (length bs) bs).

(** The iterators a scan merges. *)
Abbreviation ScanChild := (EntryIterator + SSTableStorageIterator)%type (only parsing).

Section read.
Context `{X : Externals} `{H : HashOrder} `{SM : arena_skip_map}.

(** ** Point reads *)

(** The body shared by the loops over level 0 and over the levels. *)
Definition probe_table (key : bytes) (seq : u64) (fill : bool) (t : TableRef) :
    M (Db SM) (option ValueRecord) :=
  may ← lift (might_contain t.2 key);
  if negb may then _ ← on_metrics record_bloom_useful; mret None
  else
    record ← on_rw (get_with_cache t.2 key seq (fm_number t.1) true fill);
    match record with
    | Some record => mret (Some record)
    | None => _ ← on_metrics record_bloom_false_positive; mret None
    end.

Fixpoint get_l0 (key : bytes) (seq : u64) (fill : bool) (tables : list TableRef) :
    M (Db SM) (option ValueRecord) :=
  match tables with
  | [] => mret None
  | t :: tables =>
      if negb (file_overlaps_user_key t.1 key) then get_l0 key seq fill tables
      else
        record ← probe_table key seq fill t;
        match record with
        | Some record => mret (Some record)
        | None => get_l0 key seq fill tables
        end
  end.

Fixpoint get_levels (key : bytes) (seq : u64) (fill : bool) (levels : list (list TableRef)) :
    M (Db SM) (option ValueRecord) :=
  match levels with
  | [] => mret None
  | level :: levels =>
      match filter (fun t => file_overlaps_user_key t.1 key = true) level with
      | [] => get_levels key seq fill levels
      | t :: _ =>
          record ← probe_table key seq fill t;
          match record with
          | Some record => mret (Some record)
          | None => get_levels key seq fill levels
          end
      end
  end.

(** The newest record of the memtables: the mutable one, then the immutable
    ones from the youngest. *)
Fixpoint get_memtables (key : bytes) (seq : u64) (tables : list (MemTable SM)) :
    option ValueRecord :=
  match tables with
  | [] => None
  | t :: tables =>
      match mt_get key seq t with
      | Some record => Some record
      | None => get_memtables key seq tables
      end
  end.

Definition read_seq_of (opts : ReadOptions) (state : DBState SM) : u64 :=
  match snapshot opts with
  | Some snapshot => read_seq snapshot
  | None => st_last_sequence state
  end.

Definition get_opt (key : bytes) (opts : ReadOptions) : M (Db SM) (option bytes) :=
  d ← get_state;
  let state := db_state d in
  if st_closed state then fail Closed
  else
    let seq := read_seq_of opts state in
    match get_memtables key seq (st_mutable state :: rev (st_immutables state)) with
    | Some record => mret (into_visible_value record)
    | None =>
        record ← get_l0 key seq (fill_cache opts) (st_l0_tables state);
        match record with
        | Some record => mret (into_visible_value record)
        | None =>
            record ← get_levels key seq (fill_cache opts) (drop 1 (st_level_tables state));
            match record with
            | Some record => mret (into_visible_value record)
            | None => mret None
            end
        end
    end.

(** The lock on the state is held for the first half only, which looks into
    the memtables and clones the lists of tables; the search of the tables
    comes after its release. *)
Definition get_locked (key : bytes) (opts : ReadOptions) :
    M (Db SM) (option bytes + u64 * list TableRef * list (list TableRef)) :=
  d ← get_state;
  let state := db_state d in
  if st_closed state then fail Closed
  else
    let seq := read_seq_of opts state in
    match get_memtables key seq (st_mutable state :: rev (st_immutables state)) with
    | Some record => mret (inl (into_visible_value record))
    | None => mret (inr (seq, st_l0_tables state, st_level_tables state))
    end.

Definition get_unlocked (key : bytes) (fill : bool)
    (found : option bytes + u64 * list TableRef * list (list TableRef)) : M (Db SM) (option bytes) :=
  match found with
  | inl value => mret value
  | inr (seq, l0_tables, level_tables) =>
      record ← get_l0 key seq fill l0_tables;
      match record with
      | Some record => mret (into_visible_value record)
      | None =>
          record ← get_levels key seq fill (drop 1 level_tables);
          match record with
          | Some record => mret (into_visible_value record)
          | None => mret None
          end
      end
  end.

Lemma get_opt_halves key opts d :
  get_opt key opts d = mbind (get_unlocked key (fill_cache opts)) (get_locked key opts) d.
Proof.
  unfold get_opt, get_locked. rewrite bind_assoc, !bind_get_state. cbv zeta.
  destruct (st_closed _); [done|]. by destruct (get_memtables _ _ _).
Qed.

Definition db_get (key : bytes) : M (Db SM) (option bytes) := get_opt key default_read_options.

(** ** Scans *)

Definition table_child (fill : bool) (t : TableRef) : M (Db SM) ScanChild :=
  i ← on_rw (storage_iter t.2 (fm_number t.1) true fill);
  mret (inr i).

(** The rows are at most the entries: the bound on the loops of the
    iterator. *)
Definition scan_fuel (mem_entries : list entry) (tables : list TableRef) : nat :=
  Datatypes.S (length mem_entries
    + Z.to_nat (foldr (fun (t : TableRef) n => tp_num_entries (sr_properties t.2) + n) 0 tables)).

Definition scan_iter_opt (lower upper : Bound) (opts : ReadOptions) :
    M (Db SM) (nat * DBIterator (MergeIterator ScanChild)) :=
  d ← get_state;
  let state := db_state d in
  if st_closed state then fail Closed
  else
    let seq := read_seq_of opts state in
    let entries := extend_memtable_entries [] (st_mutable state) in
    let mem_entries := foldl extend_memtable_entries entries (rev (st_immutables state)) in
    let children :=
      match mem_entries with [] => [] | _ => [inl (entry_iter_new mem_entries)] end in
    let tables := st_l0_tables state ++ concat (st_level_tables state) in
    children ← for_each tables
      (fun t children => c ← table_child (fill_cache opts) t; mret (children ++ [c])) children;
    merge ← lift (merge_iter_new (W := RW) children);
    let fuel := scan_fuel mem_entries tables in
    iter ← on_rw (dbi_try_new fuel merge lower upper seq);
    mret (fuel, iter).

(** Its two halves. *)
Definition scan_locked (opts : ReadOptions) : M (Db SM) (u64 * list entry * list TableRef) :=
  d ← get_state;
  let state := db_state d in
  if st_closed state then fail Closed
  else
    let entries := extend_memtable_entries [] (st_mutable state) in
    let mem_entries := foldl extend_memtable_entries entries (rev (st_immutables state)) in
    mret (read_seq_of opts state, mem_entries, st_l0_tables state ++ concat (st_level_tables state)).

Definition scan_unlocked (lower upper : Bound) (fill : bool) (found : u64 * list entry * list TableRef) :
    M (Db SM) (nat * DBIterator (MergeIterator ScanChild)) :=
  let '(seq, mem_entries, tables) := found in
  let children := match mem_entries with [] => [] | _ => [inl (entry_iter_new mem_entries)] end in
  children ← for_each tables
    (fun t children => c ← table_child fill t; mret (children ++ [c])) children;
  merge ← lift (merge_iter_new (W := RW) children);
  let fuel := scan_fuel mem_entries tables in
  iter ← on_rw (dbi_try_new fuel merge lower upper seq);
  mret (fuel, iter).

Lemma scan_iter_halves lower upper opts d :
  scan_iter_opt lower upper opts d
  = mbind (scan_unlocked lower upper (fill_cache opts)) (scan_locked opts) d.
Proof.
  unfold scan_iter_opt, scan_locked. rewrite bind_assoc, !bind_get_state. cbv zeta.
  by destruct (st_closed _).
Qed.

Definition db_scan_iter (lower upper : Bound) :
    M (Db SM) (nat * DBIterator (MergeIterator ScanChild)) :=
  scan_iter_opt lower upper default_read_options.

Definition scan_opt (lower upper : Bound) (opts : ReadOptions) :
    M (Db SM) (list (bytes * bytes)) :=
  it ← scan_iter_opt lower upper opts;
  on_rw (with_local it.2 (dbi_collect it.1)).

Definition db_scan (lower upper : Bound) : M (Db SM) (list (bytes * bytes)) :=
  scan_opt lower upper default_read_options.

(** ** Snapshots and conflicts *)

Definition db_snapshot : M (Db SM) Snapshot := fun d =>
  let '(s, w) := snapshot_new (st_last_sequence (db_state d)) (db_snapshots d) in
  (Ok s, set_snapshots w d).

Definition db_transaction (opts : TransactionOptions) : M (Db SM) Transaction :=
  d ← get_state;
  if st_closed (db_state d) then fail Closed
  else s ← db_snapshot; mret (transaction_new s opts).

(** Some entry is newer than [seq] and satisfies the predicate. *)
Definition entry_after (seq : u64) (predicate : InternalKey -> bool) (entries : list entry) : bool :=
  existsb (fun e : entry => (seq <? sequence e.1) && predicate e.1) entries.

Fixpoint tables_after (seq : u64) (predicate : InternalKey -> bool) (tables : list TableRef) :
    M (Db SM) bool :=
  match tables with
  | [] => mret false
  | t :: tables =>
      if fm_largest_seq t.1 <=? seq then tables_after seq predicate tables
      else
        entries ← on_rw (entries_with_cache t.2 (fm_number t.1) true true);
        if entry_after seq predicate entries then mret true
        else tables_after seq predicate tables
  end.

Definition any_entry_after (seq : u64) (predicate : InternalKey -> bool) : M (Db SM) bool :=
  d ← get_state;
  let state := db_state d in
  if entry_after seq predicate (mt_entries (st_mutable state)) then mret true
  else if existsb (fun m => entry_after seq predicate (mt_entries m)) (st_immutables state)
  then mret true
  else tables_after seq predicate (st_l0_tables state ++ concat (st_level_tables state)).

Definition key_changed_after (key : bytes) (seq : u64) : M (Db SM) bool :=
  any_entry_after seq (fun k => bool_decide (user_key k = key)).

Definition range_changed_after (lower upper : Bound) (seq : u64) : M (Db SM) bool :=
  any_entry_after seq (fun k => within_bounds (user_key k) lower upper).

Definition ensure_no_transaction_conflicts (seq : u64) (read_keys : list (bytes * unit))
    (read_ranges : list ReadRange) (write_keys : list (bytes * unit)) : M (Db SM) unit :=
  _ ← for_each read_keys (fun key _ =>
        changed ← key_changed_after key.1 seq;
        if (changed : bool)
        then fail (TransactionConflict ("read key changed after snapshot: " ++ from_utf8_lossy key.1))
        else mret tt) tt;
  _ ← for_each write_keys (fun key _ =>
        changed ← key_changed_after key.1 seq;
        if (changed : bool)
        then fail (TransactionConflict ("write key changed after snapshot: " ++ from_utf8_lossy key.1))
        else mret tt) tt;
  for_each read_ranges (fun range _ =>
    changed ← range_changed_after range.1 range.2 seq;
    if (changed : bool)
    then fail (TransactionConflict "scanned range changed after snapshot")
    else mret tt) tt.
End read.

(** ** The contents of a database

    Ghost data: the entries of each table.  [runs] are the contents in the
    order a read visits them, from the newest. *)

Section contents.
Context `{X : Externals} `{HX : !ExternalsOk X} `{H : HashOrder} `{SM : arena_skip_map}
  `{!SkipMapOk SM}.

(** A table reader backed by a well-formed sorted table, with its metadata. *)
Record table_holds (tables : Tables) (t : TableRef) (es : list entry) : Prop := mkTableHolds {
  th_layout : exists comp chunks path, compression_succeeds comp /\ table_fits comp chunks /\
    concat chunks = es /\ t.2 = table_reader comp chunks path /\
    fs_files (tb_fs tables) !! path = Some (table_bytes comp chunks) /\
    tables (fm_number t.1) = blocks_at comp 0 chunks;
  th_sorted : sorted_entries es;
  th_smallest : fst <$> head es = Some (fm_smallest t.1);
  th_largest : fst <$> last es = Some (fm_largest t.1);
  th_seq : Forall (fun e : entry => sequence e.1 <= fm_largest_seq t.1) es
}.

(** The files of a level below 0 do not share user keys. *)
Definition table_below (t t' : TableRef) : Prop :=
  bytes_cmp (user_key (fm_largest t.1)) (user_key (fm_smallest t'.1)) = Lt.

Definition run_newer (l k : list entry) : Prop := forall key, newer_than key l k.

Definition mem_runs (st : DBState SM) : list (list entry) :=
  map mt_entries (st_mutable st :: rev (st_immutables st)).
Definition runs (st : DBState SM) (l0 : list (list entry)) (levels : list (list (list entry))) :
    list (list entry) := mem_runs st ++ l0 ++ map (@concat entry) levels.
Definition contents (st : DBState SM) (l0 : list (list entry))
    (levels : list (list (list entry))) : list entry := concat (runs st l0 levels).

Record state_ok (tables : Tables) (st : DBState SM) (l0 : list (list entry))
    (levels : list (list (list entry))) : Prop := mkStateOk {
  so_mem : Forall (StronglySorted (key_lt ikey_cmp)) (mem_runs st);
  so_l0 : Forall2 (table_holds tables) (st_l0_tables st) l0;
  so_levels : Forall2 (Forall2 (table_holds tables)) (st_level_tables st) levels;
  so_level0 : concat (take 1 levels) = [];
  so_disjoint : Forall (StronglySorted table_below) (st_level_tables st);
  so_order : StronglySorted run_newer (runs st l0 levels);
  so_consistent : consistent (contents st l0 levels);
  so_seq : Forall (fun e : entry => 0 <= sequence e.1 <= st_last_sequence st)
    (contents st l0 levels);
  so_last : u64_ok (st_last_sequence st)
}.

Definition db_rw (d : Db SM) : RW := mkRW (db_fs d) (db_block_cache d).

Record db_ok (tables : Tables) (l0 : list (list entry)) (levels : list (list (list entry)))
    (d : Db SM) : Prop := mkDbOk {
  do_state : state_ok tables (db_state d) l0 levels;
  do_rw : rw_inv tables (db_rw d);
  do_open : st_closed (db_state d) = false
}.

(** What a read changes: the block cache and the counters. *)
Definition only_reads (tables : Tables) (d d' : Db SM) : Prop :=
  exists c m, d' = set_metrics m (set_rw (mkRW (db_fs d) c) d) /\
    rw_inv tables (mkRW (db_fs d) c).

Lemma only_reads_refl tables d : rw_inv tables (db_rw d) -> only_reads tables d d.
Proof. intros Hw. exists (db_block_cache d), (db_metrics d). split; [by destruct d | done]. Qed.

Lemma only_reads_trans tables d1 d2 d3 :
  only_reads tables d1 d2 -> only_reads tables d2 d3 -> only_reads tables d1 d3.
Proof. intros (c & m & -> & _) (c' & m' & -> & H'). by exists c', m'. Qed.

Lemma only_reads_rw tables d d' : only_reads tables d d' -> rw_inv tables (db_rw d').
Proof. by intros (c & m & -> & ?). Qed.

Lemma only_reads_ok tables l0 levels d d' :
  db_ok tables l0 levels d -> only_reads tables d d' -> db_ok tables l0 levels d'.
Proof. intros [Hs _ Ho] (c & m & -> & Hw). by constructor. Qed.

Lemma only_reads_metrics tables f d :
  rw_inv tables (db_rw d) ->
  exists d', on_metrics f d = (Ok tt, d') /\ only_reads tables d d'.
Proof.
  intros Hw. eexists. split; [reflexivity|]. exists (db_block_cache d), (f (db_metrics d)).
  split; [by destruct d | done].
Qed.

(** A reading method of the tables inside the database. *)
Lemma on_rw_ok {A} tables (m : M RW A) a d w' :
  m (db_rw d) = (Ok a, w') -> rw_inv tables (db_rw d) -> rw_inv tables w' ->
  exists d', on_rw m d = (Ok a, d') /\ only_reads tables d d' /\ db_rw d' = w'.
Proof.
  intros E Hw Hw'. unfold on_rw, zoom. fold (db_rw d). rewrite E. eexists. split; [done|].
  assert (rw_fs w' = db_fs d) as Hfs.
  { destruct Hw as [[_ H1] _], Hw' as [[_ H2] _]. cbn in H1. congruence. }
  split.
  - exists (rw_cache w'), (db_metrics d). rewrite <- Hfs. split; [by destruct d | by destruct w'].
  - by destruct w'.
Qed.

(** *** Point reads *)

(** A key outside the range of a sorted list has no version there. *)
Lemma outside_range (es : list entry) smallest largest key :
  sorted_entries es -> fst <$> head es = Some smallest -> fst <$> last es = Some largest ->
  forall e, e ∈ es -> user_key e.1 = key ->
  ord_le bytes_cmp (user_key smallest) key /\ ord_le bytes_cmp key (user_key largest).
Proof.
  intros Hs Hh Hl e He <-. split.
  - destruct es as [|f es]; [by apply elem_of_nil in He|]. injection Hh as <-.
    apply StronglySorted_inv in Hs as [_ Hf]. rewrite Forall_forall in Hf.
    apply elem_of_cons in He as [-> | He]; [by apply ord_le_refl; apply _|].
    by apply ikey_le_user_key, Hf.
  - destruct (last es) as [l|] eqn:El; [|done]. injection Hl as <-.
    apply last_Some in El as [es' ->]. apply StronglySorted_app in Hs as (Hlt & _ & _).
    apply elem_of_app in He as [He | ->%list_elem_of_singleton].
    + apply ikey_le_user_key. apply Hlt; [done | by left].
    + by apply ord_le_refl; apply _.
Qed.

Lemma newest_none_key key s es :
  (forall e, e ∈ es -> user_key e.1 <> key) -> newest key s es = None.
Proof.
  intros Hk. unfold newest. rewrite (proj2 (newest_entry_none key s es)); [done|].
  intros e He. destruct (visible key s e) eqn:Ev; [|done]. apply visible_spec in Ev as [Hu _].
  by apply Hk in He.
Qed.

Lemma table_no_overlap tables t es key s :
  table_holds tables t es -> file_overlaps_user_key t.1 key = false -> newest key s es = None.
Proof.
  intros [_ Hs Hh Hl _] Ho. apply newest_none_key. intros e He Hk.
  destruct (outside_range es _ _ key Hs Hh Hl e He Hk) as [H1 H2].
  apply leb_le in H1, H2. unfold file_overlaps_user_key in Ho. by rewrite H1, H2 in Ho.
Qed.

Lemma probe_table_ok tables t es key s fill d :
  table_holds tables t es -> rw_inv tables (db_rw d) ->
  exists d', probe_table key s fill t d = (Ok (newest key s es), d') /\ only_reads tables d d'.
Proof.
  intros [(comp & chunks & path & Hc & Hf & <- & Er & Hfile & Hb) Hs _ _ _] Hw.
  unfold probe_table. rewrite Er.
  assert (Hfile' : fs_files (rw_fs (db_rw d)) !! path = Some (table_bytes comp chunks)).
  { destruct Hw as [[_ E] _]. by rewrite E. }
  destruct (get_with_cache_ok comp Hc tables chunks Hf Hs path key s (fm_number t.1) true fill _
    Hfile' Hw) as (w' & E & Hw' & _); [done|].
  destruct (might_contain (table_reader comp chunks path) key) as [[]| |] eqn:Em.
  - erewrite bind_ok by done. cbn [negb].
    destruct (on_rw_ok tables _ _ d w' E Hw Hw') as (d1 & E1 & Hd1 & _).
    erewrite bind_ok by exact E1. destruct (newest key s (concat chunks)) as [r|]; [by exists d1|].
    destruct (only_reads_metrics tables record_bloom_false_positive d1) as (d2 & E2 & Hd2);
      [by eapply only_reads_rw|].
    erewrite bind_ok by exact E2. exists d2. split; [done|]. by eapply only_reads_trans.
  - erewrite bind_ok by done. cbn [negb].
    destruct (only_reads_metrics tables record_bloom_useful d Hw) as (d2 & E2 & Hd2).
    erewrite bind_ok by exact E2. exists d2. split; [|done].
    unfold get_with_cache in E. rewrite Em in E. unfold lift, mbind, M_bind in E.
    cbn [negb] in E. by injection E as <- _.
  - exfalso. unfold get_with_cache in E. by rewrite Em in E.
  - exfalso. unfold get_with_cache in E. by rewrite Em in E.
Qed.

(** Searching runs in order of age finds the newest version. *)
Fixpoint first_newest (key : bytes) (s : u64) (rs : list (list entry)) : option ValueRecord :=
  match rs with
  | [] => None
  | r :: rs => match newest key s r with Some v => Some v | None => first_newest key s rs end
  end.

Lemma run_newer_concat l rs : Forall (run_newer l) rs -> run_newer l (concat rs).
Proof.
  intros Hf key e e' He He'. apply elem_of_concat in He' as (r & He' & Hr).
  rewrite Forall_forall in Hf. by apply (Hf r Hr key e e').
Qed.

Lemma newest_runs key s rs :
  StronglySorted run_newer rs -> newest key s (concat rs) = first_newest key s rs.
Proof.
  induction 1 as [|r rs Hs IH Hf]; [done|]. cbn [concat first_newest].
  rewrite newest_app by by apply run_newer_concat. by rewrite IH.
Qed.

Lemma first_newest_app key s rs rs' :
  first_newest key s (rs ++ rs')
  = match first_newest key s rs with Some v => Some v | None => first_newest key s rs' end.
Proof. induction rs as [|r rs IH]; [done|]. cbn. rewrite IH. by destruct (newest key s r). Qed.

Lemma get_l0_ok tables ts rs key s fill d :
  Forall2 (table_holds tables) ts rs -> rw_inv tables (db_rw d) ->
  exists d', get_l0 key s fill ts d = (Ok (first_newest key s rs), d') /\ only_reads tables d d'.
Proof.
  intros Hts. revert d. induction Hts as [|t es ts rs Ht _ IH]; intros d Hw; cbn [get_l0 first_newest].
  { exists d. split; [done|]. by apply only_reads_refl. }
  destruct (file_overlaps_user_key t.1 key) eqn:Eo; cbn [negb].
  - destruct (probe_table_ok tables t es key s fill d Ht Hw) as (d1 & E1 & Hd1).
    erewrite bind_ok by exact E1. destruct (newest key s es) as [r|]; [by exists d1|].
    destruct (IH d1) as (d2 & E2 & Hd2); [by eapply only_reads_rw|].
    exists d2. split; [done|]. by eapply only_reads_trans.
  - rewrite (table_no_overlap _ _ _ _ s Ht Eo). by apply IH.
Qed.

(** In a level, only the first file that covers the key can have it. *)
Lemma level_first tables ts rs key s :
  Forall2 (table_holds tables) ts rs -> StronglySorted table_below ts ->
  match filter (fun t => file_overlaps_user_key t.1 key = true) ts with
  | [] => newest key s (concat rs) = None
  | t :: _ => exists es, t ∈ ts /\ table_holds tables t es /\ newest key s (concat rs) = newest key s es
  end.
Proof.
  intros Hts. induction Hts as [|t es ts rs Ht Hts IH]; intros Hd; [done|].
  apply StronglySorted_inv in Hd as [Hd Hb]. rewrite filter_cons. cbn [concat].
  destruct (decide (file_overlaps_user_key t.1 key = true)) as [Eo|Eo].
  - exists es. split; [by left|]. split; [done|].
    assert (forall e, e ∈ concat rs -> user_key e.1 <> key) as Hn.
    { intros e (r & He & Hr)%elem_of_concat Hk.
      apply list_elem_of_lookup in Hr as [i Hi].
      destruct (Forall2_lookup_r _ _ _ _ _ Hts Hi) as (t' & Ht' & [_ Hs' Hh' Hl' _]).
      destruct (outside_range _ _ _ key Hs' Hh' Hl' e He Hk) as [Hge _].
      rewrite Forall_forall in Hb. apply list_elem_of_lookup_2, Hb in Ht'. unfold table_below in Ht'.
      apply andb_true_iff in Eo as [_ Hle]. apply leb_le in Hle.
      apply (ord_irrefl bytes_cmp key). apply (ord_le_lt_trans bytes_cmp _ (user_key (fm_largest t.1)));
        [done|]. by apply (ord_lt_le_trans bytes_cmp _ (user_key (fm_smallest t'.1))). }
    rewrite newest_app.
    + rewrite (newest_none_key key s (concat rs)) by done. by destruct (newest key s es).
    + intros e e' _ He' _ Hk'. by apply Hn in He'.
  - assert (file_overlaps_user_key t.1 key = false) as Eo' by by destruct (file_overlaps_user_key t.1 key).
    assert (forall e, e ∈ es -> user_key e.1 <> key) as Hn.
    { intros e He Hk. destruct Ht as [_ Hs Hh Hl _].
      destruct (outside_range es _ _ key Hs Hh Hl e He Hk) as [H1 H2].
      apply leb_le in H1, H2. unfold file_overlaps_user_key in Eo'. by rewrite H1, H2 in Eo'. }
    assert (newest key s (es ++ concat rs) = newest key s (concat rs)) as ->.
    { rewrite newest_app; [by rewrite (newest_none_key key s es)|].
      intros e e' He _ Hk. by apply Hn in He. }
    specialize (IH Hd). destruct (filter _ ts) as [|t' l]; [done|].
    destruct IH as (es' & Hin & H1 & H2). exists es'. split; [by right | done].
Qed.

Lemma get_levels_ok tables levels rs key s fill d :
  Forall2 (Forall2 (table_holds tables)) levels rs -> Forall (StronglySorted table_below) levels ->
  rw_inv tables (db_rw d) ->
  exists d', get_levels key s fill levels d = (Ok (first_newest key s (map (@concat entry) rs)), d') /\
    only_reads tables d d'.
Proof.
  intros Hl. revert d. induction Hl as [|ts es levels rs Hts _ IH]; intros d Hd Hw;
    cbn [get_levels map first_newest].
  { exists d. split; [done|]. by apply only_reads_refl. }
  apply Forall_cons in Hd as [Hd1 Hd2]. pose proof (level_first _ _ _ key s Hts Hd1) as Hfirst.
  destruct (filter _ ts) as [|t l].
  - rewrite Hfirst. by apply IH.
  - destruct Hfirst as (es' & _ & Ht & ->).
    destruct (probe_table_ok tables t es' key s fill d Ht Hw) as (d1 & E1 & Hr1).
    erewrite bind_ok by exact E1. destruct (newest key s es') as [r|]; [by exists d1|].
    destruct (IH d1 Hd2) as (d2 & E2 & Hr2); [by eapply only_reads_rw|].
    exists d2. split; [done|]. by eapply only_reads_trans.
Qed.

Lemma mt_get_newest key s (t : MemTable SM) :
  StronglySorted (key_lt ikey_cmp) (mt_entries t) -> mt_get key s t = newest key s (mt_entries t).
Proof.
  intros Hs. rewrite mt_get_entries. apply get_loop_newest. by apply sorted_lt_entries.
Qed.

Lemma get_memtables_ok key s ts :
  Forall (StronglySorted (key_lt ikey_cmp)) (map mt_entries ts) ->
  get_memtables key s ts = first_newest key s (map mt_entries ts).
Proof.
  induction ts as [|t ts IH]; [done|]. cbn [map get_memtables first_newest].
  intros [Ht Hts]%Forall_cons. rewrite mt_get_newest, IH by done. done.
Qed.

(** What reads need of a state, less than [state_ok]: the runs may share
    versions as long as the first run with a visible version has the newest. *)
Record readable (tables : Tables) (st : DBState SM) (l0 : list (list entry))
    (levels : list (list (list entry))) : Prop := mkReadable {
  rd_mem : Forall (StronglySorted (key_lt ikey_cmp)) (mem_runs st);
  rd_l0 : Forall2 (table_holds tables) (st_l0_tables st) l0;
  rd_levels : Forall2 (Forall2 (table_holds tables)) (st_level_tables st) levels;
  rd_level0 : concat (take 1 levels) = [];
  rd_disjoint : Forall (StronglySorted table_below) (st_level_tables st);
  rd_first : forall key s,
    newest key s (contents st l0 levels) = first_newest key s (runs st l0 levels);
  rd_consistent : consistent (contents st l0 levels);
  rd_seq : Forall (fun e : entry => u64_ok (sequence e.1)) (contents st l0 levels)
}.

Lemma state_ok_readable tables st l0 levels : state_ok tables st l0 levels -> readable tables st l0 levels.
Proof.
  intros [Hm Hl0 Hl Hl00 Hdis Hord Hcons Hseq [_ Hlast]]. constructor; try done.
  - intros key s. by apply newest_runs.
  - eapply Forall_impl; [exact Hseq|]. intros e [? ?]. unfold u64_ok. lia.
Qed.

Record db_readable (tables : Tables) (l0 : list (list entry)) (levels : list (list (list entry)))
    (d : Db SM) : Prop := mkDbReadable {
  dr_state : readable tables (db_state d) l0 levels;
  dr_rw : rw_inv tables (db_rw d);
  dr_open : st_closed (db_state d) = false
}.

Lemma db_ok_readable tables l0 levels d : db_ok tables l0 levels d -> db_readable tables l0 levels d.
Proof. intros [Hok Hw Ho]. constructor; [by apply state_ok_readable | done | done]. Qed.

(** The second half of a point read, on any database that still has the tables. *)
Lemma get_unlocked_ok tables ts l0 tss levels key s fill d :
  Forall2 (table_holds tables) ts l0 -> Forall2 (Forall2 (table_holds tables)) tss levels ->
  Forall (StronglySorted table_below) tss -> concat (take 1 levels) = [] -> rw_inv tables (db_rw d) ->
  exists d', get_unlocked key fill (inr (s, ts, tss)) d
      = (Ok (first_newest key s (l0 ++ map (@concat entry) levels) ≫= into_visible_value), d') /\
    only_reads tables d d'.
Proof.
  intros Hl0 Hl Hdis Hl00 Hw. cbn [get_unlocked]. rewrite first_newest_app.
  destruct (get_l0_ok tables _ _ key s fill d Hl0 Hw) as (d1 & E1 & Hd1).
  erewrite bind_ok by exact E1. destruct (first_newest key s l0) as [r|]; [by exists d1|].
  destruct (get_levels_ok tables (drop 1 tss) (drop 1 levels) key s fill d1) as (d2 & E2 & Hd2);
    [by apply Forall2_drop | by apply Forall_drop | by eapply only_reads_rw |].
  erewrite bind_ok by exact E2. exists d2. split; [|by eapply only_reads_trans].
  assert (first_newest key s (map (@concat entry) levels)
    = first_newest key s (map (@concat entry) (drop 1 levels))) as ->.
  { destruct levels as [|l levels]; [done|]. cbn in Hl00. rewrite app_nil_r in Hl00. subst l. done. }
  by destruct (first_newest key s (map _ (drop 1 levels))).
Qed.

(** The first half finds the value or leaves the runs to search. *)
Lemma get_locked_ok tables l0 levels d key opts :
  readable tables (db_state d) l0 levels -> st_closed (db_state d) = false ->
  let s := read_seq_of opts (db_state d) in
  let es := contents (db_state d) l0 levels in
  get_locked key opts d = (Ok (inl (live key s es)), d) \/
  get_locked key opts d = (Ok (inr (s, st_l0_tables (db_state d), st_level_tables (db_state d))), d) /\
    live key s es = first_newest key s (l0 ++ map (@concat entry) levels) ≫= into_visible_value.
Proof.
  intros [Hm _ _ _ _ Hfirst _ _] Hopen s es. unfold get_locked. rewrite bind_get_state. cbv zeta.
  rewrite Hopen. fold s. unfold live. unfold es. rewrite Hfirst. unfold runs. rewrite first_newest_app.
  unfold mem_runs in *. rewrite get_memtables_ok by done.
  destruct (first_newest key s (map mt_entries _)) as [r|]; [by left | by right].
Qed.

Lemma get_opt_readable tables l0 levels d key opts :
  db_readable tables l0 levels d ->
  exists d', get_opt key opts d
      = (Ok (live key (read_seq_of opts (db_state d)) (contents (db_state d) l0 levels)), d') /\
    only_reads tables d d'.
Proof.
  intros [Hrd Hw Hopen]. rewrite get_opt_halves.
  destruct (get_locked_ok tables l0 levels d key opts Hrd Hopen) as [E | [E ->]]; rewrite (bind_ok _ _ _ _ _ E).
  - exists d. split; [done | by apply only_reads_refl].
  - destruct Hrd. by eapply get_unlocked_ok.
Qed.

Lemma get_opt_live tables l0 levels d key opts :
  db_ok tables l0 levels d ->
  exists d', get_opt key opts d
      = (Ok (live key (read_seq_of opts (db_state d)) (contents (db_state d) l0 levels)), d') /\
    only_reads tables d d'.
Proof. intros Hok. by apply get_opt_readable, db_ok_readable. Qed.

(** *** Scans *)

(** The contract of the two kinds of children. *)
Definition scan_model (tables : Tables) : IteratorModel ScanChild :=
  @sum_model _ _ entry_model (table_model tables).

Lemma scan_child_ok tables :
  @StorageIteratorOk ScanChild RW (rw_inv tables) _ (scan_model tables).
Proof.
  apply (@sum_iterator_ok _ _ _ (rw_inv tables) _ _ entry_model (table_model tables));
    [apply entry_iterator_ok | apply (table_iterator_ok tables)].
Qed.

Abbreviation child_fresh tables := (@it_fresh ScanChild (scan_model tables)) (only parsing).

Lemma table_child_ok tables t es fill d :
  table_holds tables t es -> rw_inv tables (db_rw d) ->
  exists c d', table_child fill t d = (Ok c, d') /\ only_reads tables d d' /\
    child_fresh tables c es.
Proof.
  intros [(comp & chunks & path & Hc & Hf & <- & Er & Hfile & Hb) Hs _ _ _] Hw.
  unfold table_child. rewrite Er.
  assert (Hfile' : fs_files (rw_fs (db_rw d)) !! path = Some (table_bytes comp chunks)).
  { destruct Hw as [[_ E] _]. by rewrite E. }
  destruct (storage_iter_ok tables comp chunks path (fm_number t.1) true fill _ Hc Hf Hs Hfile' Hw)
    as (i & w' & E & Hi & Hw'); [done|].
  destruct (on_rw_ok tables _ _ d w' E Hw Hw') as (d1 & E1 & Hd1 & _).
  erewrite bind_ok by exact E1. by exists (inr i), d1.
Qed.

Lemma table_children_ok tables ts rs fill acc d :
  Forall2 (table_holds tables) ts rs -> rw_inv tables (db_rw d) ->
  exists cs d', for_each ts (fun t children => c ← table_child fill t; mret (children ++ [c])) acc d
      = (Ok (acc ++ cs), d') /\ only_reads tables d d' /\
    Forall2 (child_fresh tables) cs rs.
Proof.
  intros Hts. revert acc d. induction Hts as [|t es ts rs Ht _ IH]; intros acc d Hw; cbn [for_each].
  { exists [], d. rewrite app_nil_r. split; [done|]. split; [by apply only_reads_refl | done]. }
  destruct (table_child_ok tables t es fill d Ht Hw) as (c & d1 & E1 & Hd1 & Hc).
  destruct (IH (acc ++ [c]) d1) as (cs & d2 & E2 & Hd2 & Hcs); [by eapply only_reads_rw|].
  exists (c :: cs), d2. split; [|split; [by eapply only_reads_trans | by constructor]].
  erewrite bind_ok by (erewrite bind_ok by exact E1; reflexivity).
  rewrite <- app_assoc in E2. exact E2.
Qed.

Lemma mem_entries_runs (st : DBState SM) :
  foldl extend_memtable_entries (extend_memtable_entries [] (st_mutable st))
    (rev (st_immutables st)) = concat (mem_runs st).
Proof.
  unfold mem_runs. cbn [map concat]. unfold extend_memtable_entries at 2. cbn [app].
  generalize (mt_entries (st_mutable st)) as acc.
  induction (rev (st_immutables st)) as [|m ms IH]; intros acc; cbn [foldl map concat];
    [by rewrite app_nil_r|].
  rewrite IH. unfold extend_memtable_entries. by rewrite <- app_assoc.
Qed.

Lemma scan_fuel_enough tables ts rs mem_entries :
  Forall2 (table_holds tables) ts rs ->
  (length mem_entries + length (concat rs) < scan_fuel mem_entries ts)%nat.
Proof.
  intros Hts. unfold scan_fuel.
  assert (foldr (fun (t : TableRef) n => tp_num_entries (sr_properties t.2) + n) 0 ts
    = len (concat rs)) as ->; [|rewrite to_nat_len; lia].
  induction Hts as [|t es ts rs Ht _ IH]; [done|]. cbn [foldr concat]. rewrite len_app, IH.
  destruct Ht as [(comp & chunks & path & _ & _ & <- & -> & _) _ _ _ _]. done.
Qed.

Lemma concat_levels_holds tables ts rs :
  Forall2 (Forall2 (table_holds tables)) ts rs ->
  Forall2 (table_holds tables) (concat ts) (concat rs).
Proof. induction 1; cbn [concat]; [constructor | by apply Forall2_app]. Qed.

Lemma holds_sorted tables ts rs :
  Forall2 (table_holds tables) ts rs -> Forall sorted_entries rs.
Proof. induction 1 as [|t es ts rs [_ Hs _ _ _]]; by constructor. Qed.

Lemma concat_map_concat {A} (ls : list (list (list A))) : concat (map (@concat A) ls) = concat (concat ls).
Proof.
  induction ls as [|l ls IH]; [done|]. cbn [map concat]. by rewrite concat_app, IH.
Qed.

Lemma contents_parts (st : DBState SM) l0 levels :
  contents st l0 levels = concat (mem_runs st) ++ concat (l0 ++ concat levels).
Proof.
  unfold contents, runs. by rewrite !concat_app, concat_map_concat.
Qed.

(** The second half of a scan and reading it to its end. *)
Lemma scan_unlocked_ok tables mem ts rs lower upper fill s d :
  Forall2 (table_holds tables) ts rs -> consistent (mem ++ concat rs) ->
  Forall (fun e : entry => u64_ok (sequence e.1)) (mem ++ concat rs) -> rw_inv tables (db_rw d) ->
  exists rows d', (it ← scan_unlocked lower upper fill (s, mem, ts); on_rw (with_local it.2 (dbi_collect it.1))) d
      = (Ok rows, d') /\ only_reads tables d d' /\ scan_spec lower upper s (mem ++ concat rs) rows.
Proof.
  intros Hts Hcons Hseq Hw. cbn [scan_unlocked]. cbv zeta.
  set (first := match mem with [] => [] | _ => [inl (entry_iter_new mem)] end).
  set (first_all := match mem with [] => [] | _ => [sort_by (cmp_key ikey_cmp) mem] end).
  destruct (table_children_ok tables ts rs fill first d Hts Hw) as (cs & d1 & E1 & Hd1 & Hcs).
  rewrite bind_assoc. erewrite bind_ok by exact E1. rewrite bind_assoc.
  assert (Forall2 (child_fresh tables) (first ++ cs) (first_all ++ rs)) as Hfresh.
  { apply Forall2_app; [|done]. unfold first, first_all. destruct mem; repeat constructor. }
  assert (Forall sorted_entries (first_all ++ rs)) as Hsorted.
  { apply Forall_app. split; [|by eapply holds_sorted]. unfold first_all. destruct mem as [|e mem'];
      [constructor|]. constructor; [|constructor]. by apply sort_by_sorted; apply _. }
  assert (concat (first_all ++ rs) ≡ₚ mem ++ concat rs) as Hperm.
  { rewrite concat_app. apply Permutation_app; [|done]. unfold first_all. destruct mem as [|e mem']; [done|].
    cbn [concat]. rewrite app_nil_r. apply sort_by_perm. }
  pose proof (only_reads_rw _ _ _ Hd1) as Hw1.
  destruct (@merged_rows_ok ScanChild RW (rw_inv tables) _ (scan_model tables) (scan_child_ok tables)
    (scan_fuel mem ts) (first ++ cs) (first_all ++ rs) lower upper s (db_rw d1))
    as (m & it & w1 & it' & w2 & rows & Em & Et & Ec & Hw1' & Hw2 & Hspec);
    [exact Hfresh | exact Hsorted | exact Hw1 | | | |].
  { intros e e' He He'. rewrite Hperm in He, He'. by apply Hcons. }
  { by rewrite Hperm. }
  { rewrite (Permutation_length Hperm), length_app. by apply (scan_fuel_enough tables). }
  erewrite bind_ok by (unfold lift; rewrite Em; reflexivity).
  destruct (on_rw_ok tables _ _ d1 w1 Et Hw1 Hw1') as (d2 & E2 & Hd2 & Hrw2).
  rewrite bind_assoc. erewrite bind_ok by exact E2. rewrite bind_ret. cbn [fst snd].
  assert (with_local it (dbi_collect (scan_fuel mem ts)) (db_rw d2) = (Ok rows, w2)) as Ec'
    by (unfold with_local; by rewrite Hrw2, Ec).
  destruct (on_rw_ok tables _ _ d2 w2 Ec') as (d3 & E3 & Hd3 & _); [by rewrite Hrw2 | done |].
  exists rows, d3. split; [exact E3|].
  split; [apply (only_reads_trans _ _ d1); [done|]; by apply (only_reads_trans _ _ d2)|].
  exact (scan_spec_ext _ _ _ _ _ _ Hcons Hperm Hspec).
Qed.

Lemma scan_locked_ok opts d :
  st_closed (db_state d) = false ->
  scan_locked opts d = (Ok (read_seq_of opts (db_state d), concat (mem_runs (db_state d)),
    st_l0_tables (db_state d) ++ concat (st_level_tables (db_state d))), d).
Proof. intros Hopen. unfold scan_locked. rewrite bind_get_state. cbv zeta. by rewrite Hopen, mem_entries_runs. Qed.

Lemma scan_opt_readable tables l0 levels d lower upper opts :
  db_readable tables l0 levels d ->
  exists rows d', scan_opt lower upper opts d = (Ok rows, d') /\ only_reads tables d d' /\
    scan_spec lower upper (read_seq_of opts (db_state d)) (contents (db_state d) l0 levels) rows.
Proof.
  intros [[Hm Hl0 Hl Hl00 Hdis _ Hcons Hseq] Hw Hopen].
  rewrite contents_parts in *.
  destruct (scan_unlocked_ok tables (concat (mem_runs (db_state d)))
    (st_l0_tables (db_state d) ++ concat (st_level_tables (db_state d))) (l0 ++ concat levels) lower upper
    (fill_cache opts) (read_seq_of opts (db_state d)) d) as (rows & d' & E & Hrest);
    [apply Forall2_app; [done | by apply concat_levels_holds] | exact Hcons | exact Hseq | exact Hw |].
  exists rows, d'. split; [|exact Hrest]. rewrite <- E. unfold scan_opt.
  unfold mbind at 1, M_bind at 1. rewrite scan_iter_halves, (bind_ok _ _ _ _ _ (scan_locked_ok opts d Hopen)).
  reflexivity.
Qed.

Lemma scan_opt_rows tables l0 levels d lower upper opts :
  db_ok tables l0 levels d ->
  exists rows d', scan_opt lower upper opts d = (Ok rows, d') /\ only_reads tables d d' /\
    scan_spec lower upper (read_seq_of opts (db_state d)) (contents (db_state d) l0 levels) rows.
Proof. intros Hok. by apply scan_opt_readable, db_ok_readable. Qed.

(** *** The conflict check *)

Lemma entry_after_spec seq p es :
  entry_after seq p es = true <-> exists e, e ∈ es /\ seq < sequence e.1 /\ p e.1 = true.
Proof.
  unfold entry_after. rewrite existsb_exists. split.
  - intros (e & He & [Hs Hp]%andb_true_iff). exists e. split; [by apply list_elem_of_In|].
    split; [by apply Z.ltb_lt | done].
  - intros (e & He & Hs & Hp). exists e. split; [by apply list_elem_of_In|].
    apply andb_true_iff. split; [by apply Z.ltb_lt | done].
Qed.

Lemma entry_after_app seq p es es' :
  entry_after seq p (es ++ es') = entry_after seq p es || entry_after seq p es'.
Proof. apply existsb_app. Qed.

Lemma tables_after_ok tables ts rs seq p d :
  Forall2 (table_holds tables) ts rs -> rw_inv tables (db_rw d) ->
  exists d', tables_after seq p ts d = (Ok (entry_after seq p (concat rs)), d') /\
    only_reads tables d d'.
Proof.
  intros Hts. revert d. induction Hts as [|t es ts rs Ht _ IH]; intros d Hw;
    cbn [tables_after concat].
  { exists d. split; [done|]. by apply only_reads_refl. }
  rewrite entry_after_app. destruct Ht as [(comp & chunks & path & Hc & Hf & <- & Er & Hfile & Hb) _ _ _ Hseq].
  destruct (Z.leb_spec (fm_largest_seq t.1) seq) as [Hle|Hgt].
  - assert (entry_after seq p (concat chunks) = false) as ->; [|by apply IH].
    apply not_true_iff_false. rewrite entry_after_spec. intros (e & He & Hlt & _).
    rewrite Forall_forall in Hseq. apply Hseq in He. lia.
  - rewrite Er. assert (Hfile' : fs_files (rw_fs (db_rw d)) !! path = Some (table_bytes comp chunks)).
    { destruct Hw as [[_ E] _]. by rewrite E. }
    destruct (entries_with_cache_ok comp Hc tables chunks Hf path (fm_number t.1) true true _ Hfile' Hw)
      as (w' & E & Hw' & _); [done|].
    destruct (on_rw_ok tables _ _ d w' E Hw Hw') as (d1 & E1 & Hd1 & _).
    erewrite bind_ok by exact E1. destruct (entry_after seq p (concat chunks)); [by exists d1|].
    destruct (IH d1) as (d2 & E2 & Hd2); [by eapply only_reads_rw|].
    exists d2. split; [done|]. by apply (only_reads_trans _ _ d1).
Qed.

Lemma any_entry_after_ok tables l0 levels seq p d :
  db_ok tables l0 levels d ->
  exists d', any_entry_after seq p d
      = (Ok (entry_after seq p (contents (db_state d) l0 levels)), d') /\ only_reads tables d d'.
Proof.
  intros [[_ Hl0 Hl _ _ _ _ _ _] Hw _]. unfold any_entry_after. rewrite bind_get_state. cbv zeta.
  rewrite contents_parts, entry_after_app. unfold mem_runs. cbn [map concat].
  rewrite entry_after_app.
  assert (existsb (fun m => entry_after seq p (mt_entries m)) (st_immutables (db_state d))
    = entry_after seq p (concat (map mt_entries (rev (st_immutables (db_state d)))))) as ->.
  { apply eq_true_iff_eq. rewrite existsb_exists, entry_after_spec. split.
    - intros (m & Hm & (e & He & Hse)%entry_after_spec). exists e. split; [|done].
      apply elem_of_concat. exists (mt_entries m). split; [done|]. apply list_elem_of_fmap.
      exists m. split; [done|]. by apply list_elem_of_In, in_rev; rewrite rev_involutive.
    - intros (e & (r & He & (m & -> & Hm)%list_elem_of_fmap)%elem_of_concat & Hse). exists m.
      split; [by apply in_rev, list_elem_of_In|]. apply entry_after_spec. by exists e. }
  destruct (entry_after seq p (mt_entries (st_mutable (db_state d)))); cbn [orb];
    [exists d; split; [done | by apply only_reads_refl]|].
  destruct (entry_after seq p (concat _)); cbn [orb];
    [exists d; split; [done | by apply only_reads_refl]|].
  apply tables_after_ok; [|done]. apply Forall2_app; [done|]. by apply concat_levels_holds.
Qed.

Abbreviation changed_loop check msg :=
  (fun k (_ : unit) => changed ← check k; if (changed : bool) then fail (TransactionConflict (msg k)) else mret tt)
  (only parsing).

(** A loop of checks: it goes through when each of them says no. *)
Lemma conflict_loop_ok {K} tables l0 levels seq (p : K -> InternalKey -> bool) (msg : K -> string)
    (ks : list K) d :
  db_ok tables l0 levels d ->
  exists r d', for_each ks (changed_loop (fun k => any_entry_after seq (p k)) msg) tt d = (r, d') /\
    only_reads tables d d' /\
    let hit k := entry_after seq (p k) (contents (db_state d) l0 levels) in
    (r = Ok tt /\ (forall k, k ∈ ks -> hit k = false) \/
     (exists m, r = Err (TransactionConflict m)) /\ exists k, k ∈ ks /\ hit k = true).
Proof.
  revert d. induction ks as [|k ks IH]; intros d Hok; cbn [for_each]; cbv zeta.
  { exists (Ok tt), d. split; [done|]. split; [by apply only_reads_refl; apply Hok|].
    left. split; [done|]. by intros k Hk%elem_of_nil. }
  destruct (any_entry_after_ok tables l0 levels seq (p k) d Hok) as (d1 & E1 & Hd1).
  destruct (entry_after seq (p k) (contents (db_state d) l0 levels)) eqn:Eh.
  - erewrite bind_err by (erewrite bind_ok by exact E1; reflexivity).
    eexists _, d1. split; [reflexivity|]. split; [done|]. right. split; [by eexists|].
    exists k. split; [by left | done].
  - erewrite bind_ok by (erewrite bind_ok by exact E1; reflexivity).
    destruct (IH d1) as (r & d2 & E2 & Hd2 & Hr); [by eapply only_reads_ok|].
    exists r, d2. split; [done|]. split; [by apply (only_reads_trans _ _ d1)|].
    assert (db_state d1 = db_state d) as Est by by destruct Hd1 as (c & m & -> & _).
    cbv zeta in Hr. rewrite Est in Hr. destruct Hr as [[-> Hr]|(Hr & k' & Hk' & Hh)].
    + left. split; [done|]. by intros k' [->|Hk']%elem_of_cons; [|apply Hr].
    + right. split; [done|]. exists k'. split; [by right | done].
Qed.

Lemma only_reads_state tables d d' : only_reads tables d d' -> db_state d' = db_state d.
Proof. by intros (c & m & -> & _). Qed.

Lemma ensure_no_conflicts_ok tables l0 levels seq read_keys read_ranges write_keys d :
  db_ok tables l0 levels d ->
  exists r d', ensure_no_transaction_conflicts seq read_keys read_ranges write_keys d = (r, d') /\
    only_reads tables d d' /\
    let free := no_conflict (contents (db_state d) l0 levels) seq
      (read_keys.*1 ++ write_keys.*1) read_ranges in
    (r = Ok tt /\ free \/ (exists m, r = Err (TransactionConflict m)) /\ ~ free).
Proof.
  intros Hok. set (es := contents (db_state d) l0 levels). cbv zeta.
  assert (forall k, entry_after seq (fun i => bool_decide (user_key i = k)) es = true ->
    k ∈ read_keys.*1 ++ write_keys.*1 ->
    ~ no_conflict es seq (read_keys.*1 ++ write_keys.*1) read_ranges) as Hkey.
  { intros k (e & He & Hs & Hp)%entry_after_spec Hk Hn. apply bool_decide_eq_true in Hp.
    apply (Hn e He Hs). by rewrite Hp. }
  unfold ensure_no_transaction_conflicts, key_changed_after, range_changed_after.
  destruct (conflict_loop_ok tables l0 levels seq
    (fun (k : bytes * unit) i => bool_decide (user_key i = k.1))
    (fun k => ("read key changed after snapshot: " ++ from_utf8_lossy k.1)%string) read_keys d Hok)
    as (r1 & d1 & E1 & Hd1 & H1). cbv zeta in H1. fold es in H1.
  pose proof (only_reads_ok _ _ _ _ _ Hok Hd1) as Hok1.
  destruct H1 as [[-> H1]|([m ->] & k & Hk & Hh)].
  2: { erewrite bind_err by exact E1. eexists _, d1. split; [reflexivity|]. split; [done|]. right.
       split; [by eexists|]. apply (Hkey k.1 Hh). apply elem_of_app. left. by apply list_elem_of_fmap_2. }
  erewrite bind_ok by exact E1.
  destruct (conflict_loop_ok tables l0 levels seq
    (fun (k : bytes * unit) i => bool_decide (user_key i = k.1))
    (fun k => ("write key changed after snapshot: " ++ from_utf8_lossy k.1)%string) write_keys d1 Hok1)
    as (r2 & d2 & E2 & Hd2 & H2). cbv zeta in H2. rewrite (only_reads_state _ _ _ Hd1) in H2.
  fold es in H2. pose proof (only_reads_trans _ _ _ _ Hd1 Hd2) as Hd12.
  pose proof (only_reads_ok _ _ _ _ _ Hok Hd12) as Hok2.
  destruct H2 as [[-> H2]|([m ->] & k & Hk & Hh)].
  2: { erewrite bind_err by exact E2. eexists _, d2. split; [reflexivity|]. split; [done|]. right.
       split; [by eexists|]. apply (Hkey k.1 Hh). apply elem_of_app. right. by apply list_elem_of_fmap_2. }
  erewrite bind_ok by exact E2.
  destruct (conflict_loop_ok tables l0 levels seq
    (fun (r : ReadRange) i => within_bounds (user_key i) r.1 r.2)
    (fun _ => "scanned range changed after snapshot"%string) read_ranges d2 Hok2)
    as (r3 & d3 & E3 & Hd3 & H3). cbv zeta in H3. rewrite (only_reads_state _ _ _ Hd12) in H3.
  fold es in H3. exists r3, d3. split; [exact E3|].
  split; [by apply (only_reads_trans _ _ d2)|].
  destruct H3 as [[-> H3]|([m ->] & [lo hi] & Hk & (e & He & Hs & Hp)%entry_after_spec)].
  - left. split; [done|]. intros e He Hs. split.
    + intros [(k & Ek & Hk)%list_elem_of_fmap|(k & Ek & Hk)%list_elem_of_fmap]%elem_of_app;
        [apply H1 in Hk | apply H2 in Hk]; apply not_true_iff_false in Hk; apply Hk;
        apply entry_after_spec; exists e; (split; [done|]; split; [done|]);
        by apply bool_decide_eq_true.
    + intros lo hi Hk. apply H3 in Hk. cbn [fst snd] in Hk. destruct (within_bounds _ _ _) eqn:Eb; [|done].
      apply not_true_iff_false in Hk. exfalso. apply Hk, entry_after_spec. by exists e.
  - right. split; [by eexists|]. intros Hn. destruct (Hn e He Hs) as [_ Hb].
    apply Hb in Hk. cbn [fst snd] in Hp. congruence.
Qed.

(** ** Properties *)

(** C6: a point read finds, in whichever memtable or table holds it, the
    newest version of the key visible at the read sequence, and returns its
    value, or nothing when it is a tombstone or there is none; it changes
    nothing but the block cache and the counters. *)
Theorem get_returns_newest tables l0 levels d key opts :
  db_ok tables l0 levels d ->
  exists d', get_opt key opts d
      = (Ok (live key (read_seq_of opts (db_state d)) (contents (db_state d) l0 levels)), d') /\
    db_ok tables l0 levels d' /\ db_state d' = db_state d /\ db_fs d' = db_fs d /\
    db_versions d' = db_versions d /\ db_snapshots d' = db_snapshots d.
Proof.
  intros Hok. destruct (get_opt_live tables l0 levels d key opts Hok) as (d' & E & Hd).
  exists d'. split; [exact E|]. split; [by eapply only_reads_ok|].
  by destruct Hd as (c & m & -> & _).
Qed.

(** C7: a scan succeeds, without a bound on its length, and returns the
    live rows of the range in ascending order, with the values point reads at
    the same sequence return. *)
Theorem scan_returns_live_rows tables l0 levels d lower upper opts :
  db_ok tables l0 levels d ->
  exists rows d', scan_opt lower upper opts d = (Ok rows, d') /\
    view_rows lower upper
      (fun k => live k (read_seq_of opts (db_state d)) (contents (db_state d) l0 levels)) rows /\
    db_ok tables l0 levels d' /\ db_state d' = db_state d.
Proof.
  intros Hok. destruct (scan_opt_rows tables l0 levels d lower upper opts Hok) as (rows & d' & E & Hd & Hs).
  exists rows, d'. split; [exact E|]. split; [by apply scan_spec_rows|].
  split; [by eapply only_reads_ok | by eapply only_reads_state].
Qed.

(** C26: the check of a commit lets a transaction through exactly when
    no version newer than its snapshot, in a memtable or a table, has a key it
    read or writes or a key in a range it scanned; otherwise it reports a
    conflict. *)
Theorem conflict_check_exact tables l0 levels seq read_keys read_ranges write_keys d :
  db_ok tables l0 levels d ->
  exists r d', ensure_no_transaction_conflicts seq read_keys read_ranges write_keys d = (r, d') /\
    db_ok tables l0 levels d' /\ db_state d' = db_state d /\
    (r = Ok tt <-> no_conflict (contents (db_state d) l0 levels) seq
      (read_keys.*1 ++ write_keys.*1) read_ranges) /\
    (r <> Ok tt -> exists m, r = Err (TransactionConflict m)).
Proof.
  intros Hok.
  destruct (ensure_no_conflicts_ok tables l0 levels seq read_keys read_ranges write_keys d Hok)
    as (r & d' & E & Hd & Hr). exists r, d'. split; [exact E|].
  split; [by eapply only_reads_ok|]. split; [by eapply only_reads_state|].
  destruct Hr as [[-> Hf]|[[m ->] Hf]]; (split; [|by eauto]); by split.
Qed.
End contents.

(** ** An example database

    A memtable and a level 0 table, on which the properties are exercised. *)

Section example.
#[local] Existing Instance toy_externals.
#[local] Existing Instance toy_hash_order.
#[local] Existing Instance toy_skip_map.

Definition example_table : list entry :=
  [(mkInternalKey [1] 2 VPut, RPut [20]); (mkInternalKey [1] 1 VPut, RPut [10]);
   (mkInternalKey [3] 3 VDelete, RDelete)].
Definition example_path : string := "db/000005.sst".
Definition example_fs : Fs :=
  mkFs {[ example_path := table_bytes CNone [example_table]; "db/000001.wal"%string := [] ]} ∅ [].
Definition example_tables : Tables :=
  mkTables example_fs (fun t => if t =? 5 then blocks_at CNone 0 [example_table] else fun _ => None).
Definition example_ref : TableRef :=
  (mkFileMeta 5 (len (table_bytes CNone [example_table])) (mkInternalKey [1] 2 VPut)
     (mkInternalKey [3] 3 VDelete) 1 3, table_reader CNone [example_table] example_path).
Definition example_state : DBState toy_skip_map :=
  mkDBState (mt_run KBTree [OpPut 4 [2] [40]]) [] [example_ref] (replicate 7 []) 4 false.
Definition example_db : Db toy_skip_map :=
  mkDb "db" default_options example_state (vs_new_empty 7) (block_cache_new 4096)
    (table_cache_new 512) watermark_new metrics_new None
    (mkWalWriter (mkWritableFile "db/000001.wal" true 0)) example_fs 0.

Lemma example_holds : table_holds example_tables example_ref example_table.
Proof.
  constructor; [|repeat constructor; by vm_compute|done|done|by repeat constructor].
  exists CNone, [example_table], example_path. split; [done|]. split.
  { constructor; [by repeat constructor | | by vm_compute | by vm_compute].
    cbn [concat]. rewrite app_nil_r. unfold example_table.
    repeat (apply List.Forall_cons; [by repeat split|]). apply List.Forall_nil. }
  by repeat split.
Qed.

Lemma example_consistent : consistent (contents example_state [example_table] (replicate 7 [])).
Proof.
  intros e e' He He' Heq. cbv in He, He'.
  repeat (apply elem_of_cons in He as [-> | He]); [.. | by apply elem_of_nil in He];
    repeat (apply elem_of_cons in He' as [-> | He']); try (by apply elem_of_nil in He'); done.
Qed.

Lemma example_state_ok : state_ok example_tables example_state [example_table] (replicate 7 []).
Proof.
  constructor.
  - repeat constructor.
  - constructor; [apply example_holds | constructor].
  - apply Forall2_replicate. constructor.
  - done.
  - apply Forall_replicate. constructor.
  - change (StronglySorted run_newer ([(mkInternalKey [2] 4 VPut, RPut [40])] :: example_table
      :: replicate 7 [])).
    assert (forall l, run_newer l []) as Hnil by (intros l key e e' _ He; by apply elem_of_nil in He).
    assert (StronglySorted run_newer (replicate 7 [])) as Hs by (repeat constructor; apply Hnil).
    constructor; [constructor; [exact Hs | by apply Forall_replicate]|].
    apply List.Forall_cons; [|by apply Forall_replicate].
    intros key e e' He He' Hk Hk'. apply list_elem_of_singleton in He as ->. cbn in Hk. subst key.
    repeat (apply elem_of_cons in He' as [-> | He']); try done. by apply elem_of_nil in He'.
  - apply example_consistent.
  - repeat constructor; by vm_compute.
  - done.
Qed.

Lemma example_ok : db_ok example_tables [example_table] (replicate 7 []) example_db.
Proof.
  constructor; [apply example_state_ok | | done].
  split; [done|]. by intros t off b.
Qed.

Lemma get_returns_newest_witness :
  (get_opt [1] default_read_options example_db).1 = Ok (Some [20]) /\
  exists d', get_opt [1] default_read_options example_db = (Ok (Some [20]), d') /\
    db_ok example_tables [example_table] (replicate 7 []) d'.
Proof.
  destruct (get_returns_newest example_tables [example_table] (replicate 7 []) example_db [1]
    default_read_options example_ok) as (d' & E & Hok & _).
  assert ((get_opt [1] default_read_options example_db).1 = Ok (Some [20])) as Ev by by vm_compute.
  split; [exact Ev|]. exists d'. split; [|exact Hok].
  by rewrite E in Ev |- *; cbn [fst] in Ev; rewrite Ev.
Defined.

Lemma scan_returns_live_rows_witness :
  exists rows d', scan_opt (Excluded [1]) Unbounded default_read_options example_db = (Ok rows, d') /\
    rows = [([2], [40])] /\ db_ok example_tables [example_table] (replicate 7 []) d'.
Proof.
  destruct (scan_returns_live_rows example_tables [example_table] (replicate 7 []) example_db
    (Excluded [1]) Unbounded default_read_options example_ok) as (rows & d' & E & _ & Hok & _).
  exists rows, d'. split; [exact E|]. split; [|exact Hok].
  assert ((scan_opt (Excluded [1]) Unbounded default_read_options example_db).1
    = Ok [([2], [40])]) as Ev by by vm_compute.
  rewrite E in Ev. by injection Ev.
Defined.

Lemma conflict_check_exact_witness :
  exists m d', ensure_no_transaction_conflicts 2 [([3], tt)] [] [] example_db
      = (Err (TransactionConflict m), d') /\
    ~ no_conflict (contents example_state [example_table] (replicate 7 [])) 2 [[3]] [].
Proof.
  destruct (conflict_check_exact example_tables [example_table] (replicate 7 []) 2 [([3], tt)] [] []
    example_db example_ok) as (r & d' & E & _ & _ & Hiff & Herr).
  assert (r <> Ok tt) as Hne.
  { assert (is_err (ensure_no_transaction_conflicts 2 [([3], tt)] [] [] example_db).1 = true) as Ev
      by by vm_compute. rewrite E in Ev. by destruct r. }
  destruct (Herr Hne) as [m ->]. exists m, d'. split; [exact E|]. intros Hn.
  by apply Hne, Hiff.
Defined.
End example.
