(* ===== verification/DbMem.v ===== *)
(** * Writing to the memtables

    What [apply_batch], the rotation of memtables and the taking and putting
    back of a memtable by a flush do to the contents of a database: a batch is
    applied in order and at once, with fresh sequence numbers; rotation and
    flushing move entries without changing what is stored. *)

From Stdlib Require Import Sorting.Sorted.
From stdpp Require Import base list gmap strings sorting.
From S2P Require Import Prelude Key Spec Memtable Batch Env Externals Wal Block Cache Reader.
From S2P Require Import TableCache Version Options Metrics Mvcc DbState DbRead.

Section mem.
Context `{X : Externals} `{HX : !ExternalsOk X} `{H : HashOrder} `{SM : arena_skip_map}
  `{!SkipMapOk SM}.

Definition record_op (sequence : u64) (record : BatchRecord) : MemOp :=
  match record with
  | BPut key value => OpPut sequence key value
  | BDelete key => OpDelete sequence key
  end.

Lemma apply_batch_record_op seq (st : DBState SM) r :
  apply_batch_record (seq, st) r
  = (wrap64 (seq + 1), with_last_sequence (Z.max (st_last_sequence st) seq)
       (with_mutable (mt_apply (record_op seq r) (st_mutable st)) st)).
Proof. by destruct r. Qed.

Lemma record_op_entry seq r :
  user_key (op_entry (record_op seq r)).1 = record_key r /\
  sequence (op_entry (record_op seq r)).1 = seq /\
  (op_entry (record_op seq r)).2 = (match r with BPut _ v => RPut v | BDelete _ => RDelete end).
Proof. by destruct r. Qed.

(** ** One record *)

Lemma contents_mutable (st : DBState SM) l0 levels e :
  e ∈ contents st l0 levels <->
  e ∈ mt_entries (st_mutable st) \/
  e ∈ concat (map mt_entries (rev (st_immutables st)) ++ l0 ++ map (@concat entry) levels).
Proof. unfold contents, runs, mem_runs. cbn [map app concat]. by rewrite elem_of_app. Qed.

Section one_record.
Context (tables : Tables) (st : DBState SM) (l0 : list (list entry))
  (levels : list (list (list entry))) (r : BatchRecord).
Context (Hok : state_ok tables st l0 levels).

Let seq := st_last_sequence st + 1.
Let new := op_entry (record_op seq r).
Let st' := (apply_batch_record (seq, st) r).2.
Let older := map mt_entries (rev (st_immutables st)) ++ l0 ++ map (@concat entry) levels.

Lemma record_runs :
  runs st' l0 levels = bt_insert ikey_cmp new.1 new.2 (mt_entries (st_mutable st)) :: older.
Proof.
  unfold st', runs, mem_runs, older, new. rewrite apply_batch_record_op. cbn [snd]. cbn.
  by rewrite mt_apply_entries.
Qed.

Lemma record_below e : e ∈ contents st l0 levels -> sequence e.1 < seq.
Proof.
  intros He. pose proof (so_seq _ _ _ _ Hok) as Hs. rewrite Forall_forall in Hs.
  apply Hs in He. unfold seq. lia.
Qed.

Lemma record_new_seq : sequence new.1 = seq.
Proof. apply record_op_entry. Qed.

Lemma record_contents e : e ∈ contents st' l0 levels <-> e = new \/ e ∈ contents st l0 levels.
Proof.
  unfold contents at 1. rewrite record_runs. cbn [concat].
  rewrite elem_of_app, contents_mutable. fold older.
  pose proof (so_mem _ _ _ _ Hok) as Hm. unfold mem_runs in Hm. cbn [map] in Hm.
  apply Forall_cons in Hm as [Hm _].
  rewrite (bt_insert_in ikey_cmp) by done. rewrite <- surjective_pairing.
  assert (e ∈ mt_entries (st_mutable st) -> e.1 <> new.1) as Hne.
  { intros He Heq. assert (e ∈ contents st l0 levels) as Hc by (apply contents_mutable; by left).
    apply record_below in Hc. rewrite Heq, record_new_seq in Hc. lia. }
  tauto.
Qed.

(** The new version is newer than every other of its key. *)
Lemma record_newest e :
  e ∈ contents st l0 levels -> user_key e.1 = user_key new.1 -> ord_le ikey_cmp new.1 e.1.
Proof.
  intros He Hk. apply ikey_le_spec. right. split; [done|]. left. rewrite record_new_seq.
  by apply record_below.
Qed.

Lemma record_state_ok : seq < 2 ^ 64 -> state_ok tables st' l0 levels.
Proof.
  intros Hlt. pose proof record_contents as Hcont. pose proof record_runs as Hruns.
  pose proof record_newest as Hnewest.
  destruct Hok as [Hm Hl0 Hl Hl00 Hdis Hord Hcons Hseq Hlast].
  assert (st_last_sequence st' = seq) as Hlast'.
  { unfold st'. rewrite apply_batch_record_op. cbn. unfold seq. lia. }
  constructor; try done; try (unfold st'; rewrite apply_batch_record_op; done).
  - unfold st', mem_runs in *. rewrite apply_batch_record_op. cbn [snd with_last_sequence
      with_mutable with_memtables st_mutable st_immutables map] in *.
    apply Forall_cons in Hm as [Hm Hms]. apply Forall_cons. split; [|done].
    rewrite mt_apply_entries. apply bt_insert_sorted; [apply _ | done].
  - rewrite Hruns. unfold runs, mem_runs in Hord. cbn [map app] in Hord. fold older in Hord.
    apply StronglySorted_inv in Hord as [Hord Hall]. constructor; [done|].
    rewrite Forall_forall in Hall |- *. intros k Hk key e e' He He' Hek Hek'.
    apply bt_insert_elem in He; [|apply _]. rewrite <- surjective_pairing in He.
    destruct He as [-> | He]; [|by eapply (Hall k Hk key)].
    apply Hnewest; [|congruence]. apply contents_mutable. right. fold older.
    apply elem_of_concat. by exists k.
  - intros e e' He He' Heq. apply Hcont in He, He'.
    assert (forall x, x ∈ contents st l0 levels -> x.1 <> new.1) as Hne.
    { intros x Hx E. rewrite Forall_forall in Hseq. apply Hseq in Hx.
      rewrite E, record_new_seq in Hx. unfold seq in Hx. lia. }
    destruct He as [-> | He], He' as [-> | He']; [done | | | by apply Hcons].
    + by destruct (Hne e' He').
    + by destruct (Hne e He).
  - rewrite Hlast'. apply Forall_forall. intros e He. apply Hcont in He as [-> | He].
    + rewrite record_new_seq. destruct Hlast. unfold seq. lia.
    + rewrite Forall_forall in Hseq. apply Hseq in He. unfold seq. lia.
  - rewrite Hlast'. destruct Hlast. unfold u64_ok, seq in *. lia.
Qed.

Lemma record_live key s :
  live key s (contents st' l0 levels)
  = if seq <=? s then apply_record (fun k => live k s (contents st l0 levels)) r key
    else live key s (contents st l0 levels).
Proof.
  pose proof (so_consistent _ _ _ _ Hok) as Hcons.
  destruct (record_op_entry seq r) as (Hk & Hs & Hv). fold new in Hk, Hs, Hv.
  assert (forall e, e ∈ contents st' l0 levels <-> e = new \/ e ∈ contents st l0 levels) as Hcont
    by apply record_contents.
  assert (consistent (contents st' l0 levels)) as Hcons'.
  { intros e e' He He' Heq. apply Hcont in He, He'.
    destruct He as [-> | He], He' as [-> | He']; [done | | | by apply Hcons].
    - apply record_below in He'. rewrite <- Heq, Hs in He'. lia.
    - apply record_below in He. rewrite Heq, Hs in He. lia. }
  assert (visible key s new = false ->
    live key s (contents st' l0 levels) = live key s (contents st l0 levels)) as Hsame.
  { intros Hf. unfold live. erewrite newest_ext; [done | done |]. intros e Hv'. rewrite Hcont.
    split; [intros [-> | ?]; [congruence | done] | by right]. }
  destruct (Z.leb_spec seq s) as [Hle|Hgt].
  - destruct (decide (user_key new.1 = key)) as [Hkey|Hkey].
    + assert (newest_entry key s (contents st' l0 levels) = Some new) as En.
      { apply newest_entry_unique; [done | apply Hcont; by left | |].
        - apply visible_spec. by rewrite Hs.
        - intros e He [Hek _]%visible_spec. apply Hcont in He as [-> | He];
            [by apply ord_le_refl; apply _|]. apply record_newest; [done | congruence]. }
      unfold live, newest. rewrite En. cbn. rewrite Hv. rewrite Hk in Hkey.
      destruct r as [k v|k]; cbn [apply_record]; by rewrite decide_True.
    + rewrite Hsame; [|apply not_true_iff_false; by intros [? _]%visible_spec].
      rewrite Hk in Hkey. destruct r as [k v|k]; cbn [apply_record]; by rewrite decide_False.
  - apply Hsame. apply not_true_iff_false. intros [_ Hv']%visible_spec. rewrite Hs in Hv'. lia.
Qed.
End one_record.

(** ** A batch *)

Lemma apply_batch_fold rs seq (st : DBState SM) :
  0 <= seq -> seq + len rs < 2 ^ 64 ->
  forall r, (foldl apply_batch_record (seq, st) (r :: rs)).2
    = (foldl apply_batch_record (seq + 1, (apply_batch_record (seq, st) r).2) rs).2.
Proof.
  intros H0 Hlt r. cbn [foldl]. rewrite apply_batch_record_op. cbn [snd].
  destruct rs as [|r' rs]; [done|]. rewrite len_cons in Hlt. pose proof (len_nonneg rs).
  rewrite wrap_small by lia. done.
Qed.

Lemma apply_batch_ok tables (st : DBState SM) l0 levels batch :
  state_ok tables st l0 levels -> st_last_sequence st + len (records batch) < 2 ^ 64 ->
  let st' := apply_batch (st_last_sequence st + 1) batch st in
  state_ok tables st' l0 levels /\
  st_last_sequence st' = st_last_sequence st + len (records batch) /\
  st_closed st' = st_closed st /\
  (forall key s, s <= st_last_sequence st ->
     live key s (contents st' l0 levels) = live key s (contents st l0 levels)) /\
  (forall key s, st_last_sequence st' <= s ->
     live key s (contents st' l0 levels)
     = view_after (records batch) (fun k => live k s (contents st l0 levels)) key).
Proof.
  destruct batch as [rs]. cbn [records]. unfold apply_batch. cbn [records].
  revert st. induction rs as [|r rs IH]; intros st Hok Hlt;
    match goal with |- context [foldl apply_batch_record ?a ?l] =>
      set (st' := (foldl apply_batch_record a l).2) end.
  { unfold st'. cbn [foldl snd]. rewrite len_nil, Z.add_0_r. split; [done|]. split; [done|].
    split; [done|]. by split. }
  rewrite len_cons in Hlt |- *. pose proof (len_nonneg rs) as Hlen.
  destruct (so_last _ _ _ _ Hok) as [Hseq0 _].
  set (st1 := (apply_batch_record (st_last_sequence st + 1, st) r).2).
  assert (Hok1 : state_ok tables st1 l0 levels) by (apply record_state_ok; [done | lia]).
  assert (Hl1 : st_last_sequence st1 = st_last_sequence st + 1)
    by (unfold st1; rewrite apply_batch_record_op; cbn; lia).
  assert (Hst' : st' = (foldl apply_batch_record (st_last_sequence st1 + 1, st1) rs).2).
  { unfold st'. rewrite apply_batch_fold by lia. by rewrite Hl1. }
  destruct (IH st1 Hok1 ltac:(lia)) as (Hok2 & Hl2 & Hc2 & Hold & Hnew). rewrite <- Hst' in *.
  split; [done|]. split; [lia|].
  split; [rewrite Hc2; unfold st1; by rewrite apply_batch_record_op|]. split.
  - intros key s Hs. rewrite Hold by lia. unfold st1. rewrite (record_live tables) by done.
    by destruct (Z.leb_spec (st_last_sequence st + 1) s); [lia|].
  - intros key s Hs. rewrite Hnew by done. cbn [view_after foldl].
    change (foldl apply_record (apply_record (fun k => live k s (contents st l0 levels)) r) rs key)
      with (view_after rs (apply_record (fun k => live k s (contents st l0 levels)) r) key).
    apply view_after_ext. unfold st1. rewrite (record_live tables) by done.
    by destruct (Z.leb_spec (st_last_sequence st + 1) s); [|lia].
Qed.

(** ** What a batch adds *)

Lemma batch_elem rs seq (st : DBState SM) l0 levels e :
  0 <= seq -> seq + len rs < 2 ^ 64 ->
  Forall (StronglySorted (key_lt ikey_cmp)) (mem_runs st) ->
  e ∈ contents (foldl apply_batch_record (seq, st) rs).2 l0 levels ->
  e ∈ contents st l0 levels \/
  exists r s, r ∈ rs /\ u64_ok s /\ e = op_entry (record_op s r).
Proof.
  revert seq st. induction rs as [|r rs IH]; intros seq st H0 Hlt Hm He; [by left|].
  pose proof (len_nonneg rs). rewrite len_cons in Hlt. rewrite apply_batch_fold in He
    by (rewrite ?len_cons; lia).
  set (st1 := (apply_batch_record (seq, st) r).2) in *.
  assert (mt_entries (st_mutable st1)
    = bt_insert ikey_cmp (op_entry (record_op seq r)).1 (op_entry (record_op seq r)).2
        (mt_entries (st_mutable st))) as Emut.
  { unfold st1. rewrite apply_batch_record_op. cbn. by rewrite mt_apply_entries. }
  assert (st_immutables st1 = st_immutables st) as Eimm
    by (unfold st1; by rewrite apply_batch_record_op).
  unfold mem_runs in Hm. cbn [map] in Hm. apply Forall_cons in Hm as [Hm0 Hm].
  destruct (IH (seq + 1) st1) as [Hin | (r' & s & Hr & Hs & ->)]; [lia | lia | | done | |].
  - unfold mem_runs. cbn [map]. rewrite Emut, Eimm. apply Forall_cons. split; [|done].
    apply bt_insert_sorted; [apply _ | done].
  - apply contents_mutable in Hin. rewrite Emut, Eimm in Hin. destruct Hin as [Hin | Hin].
    + apply bt_insert_elem in Hin; [|apply _]. rewrite <- surjective_pairing in Hin.
      destruct Hin as [-> | Hin]; [|left; apply contents_mutable; by left].
      right. exists r, seq. split; [by left|]. split; [unfold u64_ok; lia | done].
    + left. apply contents_mutable. by right.
  - right. exists r', s. split; [by right | done].
Qed.

(** The versions that records written from [seq] on become. *)
Fixpoint written_entries (seq : u64) (rs : list BatchRecord) : list entry :=
  match rs with
  | [] => []
  | r :: rs => op_entry (record_op seq r) :: written_entries (seq + 1) rs
  end.

Lemma written_entries_app seq rs rs' :
  written_entries seq (rs ++ rs') = written_entries seq rs ++ written_entries (seq + len rs) rs'.
Proof.
  revert seq. induction rs as [|r rs IH]; intros seq; cbn [written_entries app].
  - by rewrite len_nil, Z.add_0_r.
  - by rewrite IH, len_cons, Z.add_assoc.
Qed.

(** What a batch does to a mutable memtable all of whose versions are older,
    whatever the rest of the state is. *)
Lemma batch_mutable rs seq (st : DBState SM) :
  0 <= seq -> seq + len rs < 2 ^ 64 -> seq - 1 <= st_last_sequence st ->
  StronglySorted (key_lt ikey_cmp) (mt_entries (st_mutable st)) ->
  Forall (fun e : entry => sequence e.1 < seq) (mt_entries (st_mutable st)) ->
  let st' := (foldl apply_batch_record (seq, st) rs).2 in
  StronglySorted (key_lt ikey_cmp) (mt_entries (st_mutable st')) /\
  Forall (fun e : entry => sequence e.1 < seq + len rs) (mt_entries (st_mutable st')) /\
  (forall e, e ∈ mt_entries (st_mutable st')
    <-> e ∈ mt_entries (st_mutable st) \/ e ∈ written_entries seq rs) /\
  st_last_sequence st' = Z.max (st_last_sequence st) (seq + len rs - 1).
Proof.
  revert seq st. induction rs as [|r rs IH]; intros seq st H0 Hlt Hl Hs Hb.
  { cbn [foldl snd written_entries]. rewrite len_nil, Z.add_0_r. split; [done|]. split; [done|]. split; [|lia].
    intros e. rewrite elem_of_nil. tauto. }
  rewrite apply_batch_fold by (rewrite ?len_cons in *; lia). rewrite len_cons in *.
  pose proof (len_nonneg rs). set (st1 := (apply_batch_record (seq, st) r).2).
  set (new := op_entry (record_op seq r)).
  assert (mt_entries (st_mutable st1) = bt_insert ikey_cmp new.1 new.2 (mt_entries (st_mutable st))) as Em
    by (unfold st1; rewrite apply_batch_record_op; cbn; by rewrite mt_apply_entries).
  assert (st_last_sequence st1 = Z.max (st_last_sequence st) seq) as El
    by (unfold st1; by rewrite apply_batch_record_op).
  destruct (record_op_entry seq r) as (_ & Hq & _). fold new in Hq.
  assert (forall e, e ∈ mt_entries (st_mutable st1) <-> e = new \/ e ∈ mt_entries (st_mutable st)) as Hin.
  { intros e. rewrite Em, (bt_insert_in ikey_cmp), <- surjective_pairing by done.
    assert (e ∈ mt_entries (st_mutable st) -> e.1 <> new.1) as Hne; [|tauto].
    intros He E. rewrite Forall_forall in Hb. apply Hb in He. rewrite E, Hq in He. lia. }
  destruct (IH (seq + 1) st1) as (S & B & I & L); [lia | lia | lia | | |].
  - rewrite Em. apply bt_insert_sorted; [apply _ | done].
  - rewrite Forall_forall in Hb |- *. intros e [-> | He%Hb]%Hin; lia.
  - split; [exact S|]. split; [by rewrite Z.add_assoc|].
    split; [|cbv zeta in L |- *; rewrite L, El; lia].
    intros e. cbn [written_entries]. fold new. rewrite I, Hin, elem_of_cons. tauto.
Qed.

(** What is newer than the old last sequence number is what the batch wrote. *)
Lemma batch_changed tables rs (st : DBState SM) l0 levels key s :
  state_ok tables st l0 levels -> st_last_sequence st + len rs < 2 ^ 64 -> s <= st_last_sequence st ->
  changed_since key s (contents (foldl apply_batch_record (st_last_sequence st + 1, st) rs).2 l0 levels)
  <-> changed_since key s (contents st l0 levels) \/ key ∈ map record_key rs.
Proof.
  revert st. induction rs as [|r rs IH]; intros st Hok Hlt Hs; cbn [map].
  { cbn [foldl snd]. rewrite elem_of_nil. tauto. }
  rewrite len_cons in Hlt. pose proof (len_nonneg rs). destruct (so_last _ _ _ _ Hok) as [Hl0 _].
  rewrite apply_batch_fold by lia. set (st1 := (apply_batch_record (st_last_sequence st + 1, st) r).2).
  assert (state_ok tables st1 l0 levels) as Hok1 by (apply record_state_ok; [done | lia]).
  assert (st_last_sequence st1 = st_last_sequence st + 1) as Hl1
    by (unfold st1; rewrite apply_batch_record_op; cbn; lia).
  rewrite <- Hl1, IH, elem_of_cons by (done || lia).
  assert (changed_since key s (contents st1 l0 levels)
    <-> key = record_key r \/ changed_since key s (contents st l0 levels)) as ->; [|tauto].
  pose proof (record_contents tables st l0 levels r Hok) as Hc. fold st1 in Hc.
  destruct (record_op_entry (st_last_sequence st + 1) r) as (Hk & Hq & _). unfold changed_since. split.
  - intros (e & [-> | He]%Hc & Hu & Hse); [left | right; by exists e]. by rewrite <- Hu, Hk.
  - intros [-> | (e & He & Hu & Hse)]; [|exists e; by rewrite Hc; auto].
    exists (op_entry (record_op (st_last_sequence st + 1) r)). rewrite Hc, Hk, Hq. split; [by left|]. split; [done|lia].
Qed.

(** ** Rotation and flushing *)

Lemma runs_nil_sorted rs : StronglySorted run_newer rs -> StronglySorted run_newer ([] :: rs).
Proof.
  intros Hs. constructor; [done|]. apply Forall_forall. intros k _ key e e' He. by apply elem_of_nil in He.
Qed.

(** A state with the same tables whose memtables hold the same runs, up to a
    new empty one in front. *)
Lemma state_ok_rotate tables (st st' : DBState SM) l0 levels :
  state_ok tables st l0 levels -> mem_runs st' = [] :: mem_runs st ->
  st_l0_tables st' = st_l0_tables st -> st_level_tables st' = st_level_tables st ->
  st_last_sequence st' = st_last_sequence st ->
  state_ok tables st' l0 levels /\ contents st' l0 levels = contents st l0 levels.
Proof.
  intros [Hm Hl0 Hl Hl00 Hdis Hord Hcons Hseq Hlast] Er E0 E1 E2.
  assert (runs st' l0 levels = [] :: runs st l0 levels) as Hruns by (unfold runs; by rewrite Er).
  assert (contents st' l0 levels = contents st l0 levels) as Hc by (unfold contents; by rewrite Hruns).
  split; [|done]. constructor; rewrite ?E0, ?E1, ?E2, ?Hc; try done.
  - rewrite Er. constructor; [constructor | done].
  - rewrite Hruns. by apply runs_nil_sorted.
Qed.

Lemma freeze_ok tables size kind (st : DBState SM) l0 levels :
  state_ok tables st l0 levels ->
  let '(frozen, st') := freeze_mutable_if_needed size kind st in
  state_ok tables st' l0 levels /\ contents st' l0 levels = contents st l0 levels /\
  st_last_sequence st' = st_last_sequence st /\ st_closed st' = st_closed st /\
  (frozen = true <-> mt_entries (st_mutable st) <> [] /\ size <= mt_approximate_size (st_mutable st)).
Proof.
  intros Hok. unfold freeze_mutable_if_needed. rewrite mt_is_empty_entries.
  destruct (mt_entries (st_mutable st)) as [|e es] eqn:Ee; cbn [orb].
  { do 4 (split; [done|]). split; [done | by intros [? _]]. }
  destruct (Z.ltb_spec (mt_approximate_size (st_mutable st)) size).
  { do 4 (split; [done|]). split; [done | intros [_ ?]; lia]. }
  set (st' := with_memtables (mt_new kind) (st_immutables st ++ [st_mutable st]) st).
  destruct (state_ok_rotate tables st st' l0 levels Hok) as [H1 H2];
    [|done|done|done|split; [exact H1|]].
  { unfold mem_runs. cbn. by rewrite mt_new_entries, rev_app_distr. }
  split; [exact H2|]. split; [done|]. split; [done|]. by split.
Qed.

(** Taking the oldest memtable with entries, as a flush does. *)
Lemma take_runs kind (st st' : DBState SM) m src :
  take_oldest_flushable_memtable kind st = (Some (m, src), st') ->
  (mem_runs st = mem_runs st' ++ [mt_entries m] \/ mem_runs st = [mt_entries m] /\ mem_runs st' = [[]]) /\
  restore_flush_memtable m src st' = st /\
  st_l0_tables st' = st_l0_tables st /\ st_level_tables st' = st_level_tables st /\
  st_last_sequence st' = st_last_sequence st /\ st_closed st' = st_closed st.
Proof.
  unfold take_oldest_flushable_memtable.
  destruct st as [mut imm l0 levels last closed]. cbn [st_immutables st_mutable].
  destruct imm as [|oldest imm].
  - destruct (mt_is_empty mut); [done|]. intros [= <- <- <-]. split.
    + right. unfold mem_runs. cbn. by rewrite mt_new_entries.
    + split; [|done]. unfold restore_flush_memtable. cbn.
      rewrite mt_is_empty_entries, mt_new_entries. done.
  - intros [= <- <- <-]. split.
    + left. unfold mem_runs. cbn. by rewrite map_app.
    + done.
Qed.

(** A state in which the memtable that was taken is the first table. *)
Lemma flushed_state_ok tables kind (st st' : DBState SM) m src t l0 levels :
  state_ok tables st l0 levels -> take_oldest_flushable_memtable kind st = (Some (m, src), st') ->
  table_holds tables t (mt_entries m) ->
  let st2 := with_tables (t :: st_l0_tables st') (st_level_tables st') st' in
  state_ok tables st2 (mt_entries m :: l0) levels /\
  contents st2 (mt_entries m :: l0) levels = contents st l0 levels.
Proof.
  intros [Hm Hl0 Hl Hl00 Hdis Hord Hcons Hseq Hlast] Ht Hh st2.
  destruct (take_runs _ _ _ _ _ Ht) as (Hr & _ & E0 & E1 & E2 & _).
  assert (mem_runs st2 = mem_runs st') as Em by done.
  assert (runs st2 (mt_entries m :: l0) levels = runs st l0 levels \/
    runs st2 (mt_entries m :: l0) levels = [] :: runs st l0 levels) as Hruns.
  { unfold runs. rewrite Em. destruct Hr as [-> | [-> ->]]; [left | by right].
    by rewrite <- app_assoc. }
  assert (contents st2 (mt_entries m :: l0) levels = contents st l0 levels) as Hc
    by (unfold contents; by destruct Hruns as [-> | ->]).
  split; [|done]. constructor; rewrite ?Hc; cbn [st2 with_tables st_l0_tables st_level_tables
    st_last_sequence]; rewrite ?E0, ?E1, ?E2; try done.
  - rewrite Em. destruct Hr as [Hr | [_ ->]]; [rewrite Hr in Hm; by apply Forall_app in Hm as [? _]|].
    repeat constructor.
  - by constructor.
  - destruct Hruns as [-> | ->]; [done | by apply runs_nil_sorted].
Qed.

(** ** Properties *)

(** C10: applying a batch keeps the state well formed and is atomic: a read
    at the sequence number from before sees nothing of it, a read at the one
    after it sees all its records, applied in order to what was there. *)
Theorem batch_applied_atomically tables (st : DBState SM) l0 levels batch :
  state_ok tables st l0 levels -> st_last_sequence st + len (records batch) < 2 ^ 64 ->
  let st' := apply_batch (st_last_sequence st + 1) batch st in
  state_ok tables st' l0 levels /\
  st_last_sequence st' = st_last_sequence st + len (records batch) /\
  (forall key s, s <= st_last_sequence st ->
     live key s (contents st' l0 levels) = live key s (contents st l0 levels)) /\
  (forall key s, st_last_sequence st' <= s ->
     live key s (contents st' l0 levels)
     = view_after (records batch) (fun k => live k s (contents st l0 levels)) key).
Proof.
  intros Hok Hlt st'. destruct (apply_batch_ok tables st l0 levels batch Hok Hlt)
    as (H1 & H2 & _ & H3 & H4). done.
Qed.

(** freezing a full memtable changes no read; taking the oldest
    memtable for a flush and putting it back after a failure gives exactly the
    state from before, and when the flush succeeds the table in front of level
    0 leaves the contents as they were. *)
Theorem rotation_keeps_contents tables kind size (st : DBState SM) l0 levels :
  state_ok tables st l0 levels ->
  (let '(_, st') := freeze_mutable_if_needed size kind st in
   state_ok tables st' l0 levels /\ contents st' l0 levels = contents st l0 levels) /\
  (forall m src st', take_oldest_flushable_memtable kind st = (Some (m, src), st') ->
     restore_flush_memtable m src st' = st /\
     forall t, table_holds tables t (mt_entries m) ->
       let st2 := with_tables (t :: st_l0_tables st') (st_level_tables st') st' in
       state_ok tables st2 (mt_entries m :: l0) levels /\
       contents st2 (mt_entries m :: l0) levels = contents st l0 levels).
Proof.
  intros Hok. split.
  - pose proof (freeze_ok tables size kind st l0 levels Hok) as Hf.
    destruct (freeze_mutable_if_needed size kind st) as [b st']. by destruct Hf as (? & ? & _).
  - intros m src st' Ht. split; [by eapply take_runs|]. intros t Hh. by eapply flushed_state_ok.
Qed.
End mem.

(** ** The properties on the example database *)

Section mem_examples.
#[local] Existing Instance toy_externals.
#[local] Existing Instance toy_hash_order.
#[local] Existing Instance toy_skip_map.

Definition example_batch : WriteBatch := mkWriteBatch [BPut [1] [55]; BDelete [2]].
Definition example_levels : list (list (list entry)) := replicate 7 [].

Lemma batch_applied_atomically_witness :
  let st' := apply_batch 5 example_batch example_state in
  state_ok example_tables st' [example_table] example_levels /\ st_last_sequence st' = 6 /\
  live [1] 4 (contents st' [example_table] example_levels) = Some [20] /\
  live [1] 6 (contents st' [example_table] example_levels) = Some [55] /\
  live [2] 6 (contents st' [example_table] example_levels) = None.
Proof.
  intros st'.
  destruct (batch_applied_atomically example_tables example_state [example_table] example_levels
    example_batch example_state_ok ltac:(done)) as (H1 & H2 & H3 & H4).
  split; [exact H1|]. split; [exact H2|]. split; [|split].
  - exact (H3 [1] 4 ltac:(done)).
  - exact (H4 [1] 6 ltac:(done)).
  - exact (H4 [2] 6 ltac:(done)).
Defined.

Lemma rotation_keeps_contents_witness :
  let st' := (freeze_mutable_if_needed 1 KBTree example_state).2 in
  (freeze_mutable_if_needed 1 KBTree example_state).1 = true /\
  mt_entries (st_mutable st') = [] /\
  contents st' [example_table] example_levels = contents example_state [example_table] example_levels.
Proof.
  intros st'.
  exact (conj eq_refl (conj eq_refl (proj2 (proj1 (rotation_keeps_contents example_tables KBTree 1
    example_state [example_table] example_levels example_state_ok))))).
Defined.
End mem_examples.
