(* ===== verification/DbFlush.v ===== *)
(** * Flushing memtables

    [write_l0_table], [publish_l0_table] and [flush] of [src/db.rs]: the
    oldest memtable becomes a level 0 table, is recorded in the manifest, and
    the log is switched; on an error the memtable is put back. *)

From Stdlib Require Import Sorting.Sorted.
From stdpp Require Import base list gmap strings sorting.
From S2P Require Import Prelude Key Spec Memtable Batch Env Externals Wal Block Cache Format.
From S2P Require Import Properties Table Reader TableCache Version Options Metrics Mvcc.
From S2P Require Import DbState DbRead DbMem.

Section flush.
Context `{X : Externals} `{H : HashOrder} `{N : NumberHashOrder} `{SM : arena_skip_map}.

Definition db_allocate_file_number : M (Db SM) u64 := fun d =>
  let '(number, vs) := allocate_file_number (db_versions d) in
  (Ok number, set_versions vs (db_fs d) d).

Definition db_log_and_apply (edit : VersionEdit) : M (Db SM) unit :=
  on_versions (log_and_apply edit).

(** What follows the building of a table file, here and in a compaction: it
    is renamed into place, opened and described. *)
Definition install_table (tmp_path final_path : string) (file_number : u64)
    (record : u64 -> Metrics -> Metrics) : M (Db SM) (SSTableReader * FileMeta) :=
  _ ← on_env (rename tmp_path final_path);
  file_size ← on_env (metadata_len final_path);
  _ ← on_metrics (record file_size);
  reader ← on_table_cache (get_or_open file_number final_path);
  meta ← on_rw (file_meta_from_table file_number file_size reader);
  mret (reader, meta).

Definition table_path (d : Db SM) (file_number : u64) : string :=
  path_join (db_path d) (table_file_name file_number).
Definition table_tmp_path (d : Db SM) (file_number : u64) : string :=
  path_join (db_path d) (table_file_name file_number ++ ".tmp").

Definition write_l0_table (memtable : MemTable SM) (file_number : u64) :
    M (Db SM) (SSTableReader * FileMeta) :=
  d ← get_state;
  let tmp_path := table_tmp_path d file_number in
  let final_path := table_path d file_number in
  if env_exists final_path (db_fs d)
  then fail (Corruption ("table file already exists: " ++ final_path))
  else
    _ ← on_env (build_table tmp_path (block_size (db_options d)) (table_compression (db_options d))
          (mt_entries memtable));
    install_table tmp_path final_path file_number record_sst_write.

Definition publish_l0_table (meta : FileMeta) (last_sequence : u64) : M (Db SM) unit :=
  _ ← db_log_and_apply (AddFile 0 meta);
  _ ← db_log_and_apply (LastSequence last_sequence);
  new_log_number ← db_allocate_file_number;
  d ← get_state;
  let wal_path := path_join (db_path d) (wal_file_name new_log_number) in
  new_wal ← on_env (wal_create wal_path);
  _ ← db_log_and_apply (LogNumber new_log_number);
  modify (fun d => set_wal new_wal (db_fs d) d).

Definition modify_state (f : DBState SM -> DBState SM) : M (Db SM) unit :=
  modify (fun d => set_state (f (db_state d)) d).

(** [m], and when it fails with an error, the memtable is put back. *)
Definition or_restore {A} (memtable : MemTable SM) (source : FlushSource) (m : M (Db SM) A) :
    M (Db SM) A := fun d =>
  match m d with
  | (Err e, d) => (Err e, set_state (restore_flush_memtable memtable source (db_state d)) d)
  | r => r
  end.

Definition flush : M (Db SM) unit :=
  d ← get_state;
  if st_closed (db_state d) then fail Closed
  else
    let '(taken, state) := take_oldest_flushable_memtable (memtable_kind (db_options d)) (db_state d) in
    match taken with
    | None => mret tt
    | Some (memtable, source) =>
        _ ← modify (set_state state);
        file_number ← db_allocate_file_number;
        table ← or_restore memtable source (write_l0_table memtable file_number);
        _ ← or_restore memtable source (publish_l0_table table.2 (st_last_sequence state));
        modify_state (fun st => with_tables ((table.2, table.1) :: st_l0_tables st)
          (st_level_tables st) st)
    end.
End flush.
