(* ===== verification/DbInv.v ===== *)
(** * The layout of an open database

    What the files, the version set, the caches and the state of an open
    database have to do with each other, as long as no operation of the file
    system fails: the tables of the state are the files the current version
    names, numbers at or above the file counter are unused, the log and the
    manifest are open at their ends, and what is stored fits the formats. *)

From Stdlib Require Import Sorting.Sorted.
From stdpp Require Import base list gmap strings sorting.
From S2P Require Import Prelude Key Spec Memtable Coding Batch Env Externals Wal Block Cache.
From S2P Require Import Format Properties Table Reader TableCache Version Options Metrics.
From S2P Require Import Compact Mvcc DbState DbRead DbMem DbFlush.

Section layout.
Context `{X : Externals} `{HX : !ExternalsOk X} `{H : HashOrder} `{N : NumberHashOrder}
  `{SM : arena_skip_map} `{!SkipMapOk SM}.

(** Entries within the widths of the formats, with room for two keys in one
    record of the manifest. *)
Definition entry_storable (e : entry) : Prop :=
  entry_fits e /\ len (user_key e.1) < 2 ^ 30 /\ Forall u8_ok (user_key e.1).

Definition all_tables (st : DBState SM) : list TableRef :=
  st_l0_tables st ++ concat (st_level_tables st).

Definition table_number (t : TableRef) : u64 := fm_number t.1.

Definition wal_path (d : Db SM) (number : u64) : string :=
  path_join (db_path d) (wal_file_name number).

Record layout (tables : Tables) (l0 : list (list entry)) (levels : list (list (list entry)))
    (d : Db SM) : Prop := mkLayout {
  ly_paths : Forall (fun t : TableRef => sr_path t.2 = table_path d (fm_number t.1) /\
    0 <= fm_number t.1 < vs_next_file_number (db_versions d)) (all_tables (db_state d));
  ly_numbers : NoDup (map table_number (all_tables (db_state d)));
  ly_blocks : forall n off, vs_next_file_number (db_versions d) <= n -> tables n off = None;
  ly_free : forall n, vs_next_file_number (db_versions d) <= n -> u64_ok n ->
    env_exists (table_path d n) (db_fs d) = false /\ fs_files (db_fs d) !! wal_path d n = None;
  ly_dir : db_path d ∈ fs_dirs (db_fs d);
  ly_next : 0 < vs_next_file_number (db_versions d);
  ly_log_number : 0 <= vs_log_number (db_versions d) < vs_next_file_number (db_versions d);
  ly_wal : wf_path (ww_file (db_wal d)) = wal_path d (vs_log_number (db_versions d));
  ly_wal_end : exists c, writes_at_end (ww_file (db_wal d)) (db_fs d) c;
  ly_manifest : exists n edits,
    manifest_inv (db_path d) (max_levels (db_options d)) n edits (db_versions d) (db_fs d) /\
    logged_next edits = vs_next_file_number (db_versions d);
  ly_l0_files : v_l0_files (vs_current (db_versions d)) = (st_l0_tables (db_state d)).*1;
  ly_level_files : v_levels (vs_current (db_versions d))
    = map (fmap fst) (st_level_tables (db_state d));
  ly_readers : exists readers, tables_agree readers (db_table_cache d) /\
    Forall (fun t : TableRef => readers (fm_number t.1) = Some t.2) (all_tables (db_state d)) /\
    forall n, vs_next_file_number (db_versions d) <= n -> readers n = None;
  ly_immutables : Forall (fun m => mt_entries m <> []) (st_immutables (db_state d));
  ly_compression : compression_succeeds (table_compression (db_options d));
  ly_storable : Forall entry_storable (contents (db_state d) l0 levels)
}.

(** An open database whose state and files are in order. *)
Record db_inv (tables : Tables) (l0 : list (list entry)) (levels : list (list (list entry)))
    (d : Db SM) : Prop := mkDbInv {
  di_ok : db_ok tables l0 levels d;
  di_layout : layout tables l0 levels d
}.

(** The counts are those of the files in the manifest, level by level. *)
Lemma level_file_counts_version tables l0 levels d :
  layout tables l0 levels d ->
  level_file_counts d = len (v_l0_files (vs_current (db_versions d)))
    :: map len (drop 1 (v_levels (vs_current (db_versions d)))).
Proof.
  intros Hly. unfold level_file_counts. rewrite (ly_l0_files _ _ _ _ Hly), (ly_level_files _ _ _ _ Hly).
  f_equal; [unfold len; by rewrite length_fmap|]. rewrite skipn_map, map_map. apply map_ext.
  intros ts. unfold len. by rewrite length_fmap.
Qed.

(** ** Frames *)

Lemma table_holds_frame tables tables' t es :
  table_holds tables t es ->
  fs_files (tb_fs tables') !! sr_path t.2 = fs_files (tb_fs tables) !! sr_path t.2 ->
  tables' (fm_number t.1) = tables (fm_number t.1) ->
  table_holds tables' t es.
Proof.
  intros [(comp & chunks & path & Hc & Hf & Hch & Er & Hfile & Hb) Hs Hh Hl Hq] Hfiles Hblocks.
  rewrite Er in Hfiles. cbn [table_reader sr_path] in Hfiles.
  constructor; [|done..]. exists comp, chunks, path. by rewrite Hfiles, Hblocks.
Qed.

Lemma state_ok_frame tables tables' (st : DBState SM) l0 levels :
  state_ok tables st l0 levels ->
  Forall (fun t : TableRef =>
    fs_files (tb_fs tables') !! sr_path t.2 = fs_files (tb_fs tables) !! sr_path t.2 /\
    tables' (fm_number t.1) = tables (fm_number t.1)) (all_tables st) ->
  state_ok tables' st l0 levels.
Proof.
  intros [Hm Hl0 Hl Hl00 Hdis Hord Hcons Hseq Hlast] Hall.
  unfold all_tables in Hall. apply Forall_app in Hall as [Ha0 Hal].
  constructor; try done.
  - clear -Hl0 Ha0. induction Hl0; constructor.
    + apply Forall_inv in Ha0 as [? ?]. by eapply table_holds_frame.
    + apply IHHl0. by apply Forall_inv_tail in Ha0.
  - clear -Hl Hal. induction Hl as [|ts rs tss rss Hts Hl IH]; constructor.
    + cbn [concat] in Hal. apply Forall_app in Hal as [Hal _]. clear -Hts Hal.
      induction Hts; constructor.
      * apply Forall_inv in Hal as [? ?]. by eapply table_holds_frame.
      * apply IHHts. by apply Forall_inv_tail in Hal.
    + apply IH. cbn [concat] in Hal. by apply Forall_app in Hal as [_ ?].
Qed.

(** Every table of a state holds some entries. *)
Lemma all_tables_hold tables (st : DBState SM) l0 levels :
  state_ok tables st l0 levels -> Forall (fun t => exists es, table_holds tables t es) (all_tables st).
Proof.
  intros [_ Hl0 Hl _ _ _ _ _ _].
  assert (forall ts rs, Forall2 (table_holds tables) ts rs ->
    Forall (fun t => exists es, table_holds tables t es) ts) as H1.
  { intros ts rs Hts. eapply Forall2_Forall_l; [exact Hts|]. apply Forall_true. eauto. }
  unfold all_tables. apply Forall_app. split; [by eapply H1|]. apply Forall_concat.
  eapply Forall2_Forall_l; [exact Hl|]. apply Forall_true. eauto.
Qed.

(** Writing a file that is not a table of the database. *)
Lemma table_file_frame tables l0 levels d (f : gmap string bytes -> gmap string bytes) :
  db_inv tables l0 levels d ->
  (forall n, f (fs_files (db_fs d)) !! table_path d n = fs_files (db_fs d) !! table_path d n) ->
  state_ok (mkTables (set_files f (db_fs d)) (tb_blocks tables)) (db_state d) l0 levels /\
  rw_inv (mkTables (set_files f (db_fs d)) (tb_blocks tables))
    (mkRW (set_files f (db_fs d)) (db_block_cache d)).
Proof.
  intros [[Hs [[Ho Hfs] Hc] _] Hly] Hf. cbn [db_rw rw_fs rw_cache] in *. split.
  - eapply state_ok_frame; [done|]. eapply Forall_impl; [apply (ly_paths _ _ _ _ Hly)|].
    intros t [-> _]. cbn [tb_fs tb_blocks set_files fs_files]. by rewrite Hf, Hfs.
  - split; [by split | exact Hc].
Qed.
(** ** The tables of a version *)

Definition opens (path : string) (readers : Z -> option SSTableReader) (fs : Fs) (t : TableRef) :
    Prop :=
  readers (fm_number t.1) = Some t.2 /\
  sst_open_with_env (path_join path (table_file_name (fm_number t.1))) fs = (Ok t.2, fs).

Lemma open_tables_ok path readers fs (ts acc : list TableRef) tc :
  Forall (opens path readers fs) ts -> tables_agree readers tc ->
  exists tc', for_each ts.*1 (fun file tables => t ← open_table path file; mret (tables ++ [t])) acc
      (tc, fs) = (Ok (acc ++ ts), (tc', fs)) /\ tables_agree readers tc'.
Proof.
  intros Hts. revert acc tc. induction Hts as [|[file r] ts [Hr Ho] Hts IH]; intros acc tc Htc.
  { exists tc. by rewrite app_nil_r. }
  cbn [fst snd] in *. destruct (get_or_open_ok _ _ _ _ _ _ Htc Hr Ho) as (tc1 & E & Htc1).
  destruct (IH (acc ++ [(file, r)]) tc1 Htc1) as (tc2 & E2 & Htc2).
  exists tc2. split; [|done]. cbn [fmap list_fmap for_each fst]. rewrite bind_assoc.
  erewrite bind_ok by (unfold open_table; erewrite bind_ok by exact E; reflexivity).
  rewrite bind_ret, E2. by rewrite <- app_assoc.
Qed.

Lemma open_levels_ok path readers fs (levels acc : list (list TableRef)) tc :
  Forall (opens path readers fs) (concat levels) -> tables_agree readers tc ->
  exists tc', for_each (map (fmap fst) levels)
      (fun level level_tables =>
         tables ← for_each level
           (fun file tables => t ← open_table path file; mret (tables ++ [t])) [];
         mret (level_tables ++ [tables])) acc (tc, fs)
      = (Ok (acc ++ levels), (tc', fs)) /\ tables_agree readers tc'.
Proof.
  revert acc tc. induction levels as [|level levels IH]; intros acc tc Hts Htc.
  { exists tc. by rewrite app_nil_r. }
  cbn [concat] in Hts. apply Forall_app in Hts as [Hl Hts].
  destruct (open_tables_ok _ _ _ _ [] _ Hl Htc) as (tc1 & E & Htc1).
  destruct (IH (acc ++ [level]) tc1 Hts Htc1) as (tc2 & E2 & Htc2).
  exists tc2. split; [|done]. cbn [map for_each]. rewrite bind_assoc.
  rewrite (bind_ok _ _ _ _ _ E). cbn [app]. rewrite bind_ret, E2. by rewrite <- app_assoc.
Qed.

Lemma open_version_tables_ok path readers fs version l0 levels tc :
  Forall (opens path readers fs) (l0 ++ concat levels) -> tables_agree readers tc ->
  v_l0_files version = l0.*1 -> v_levels version = map (fmap fst) levels ->
  exists tc', open_version_tables path version (tc, fs) = (Ok (l0, levels), (tc', fs)) /\
    tables_agree readers tc'.
Proof.
  intros [H0 Hl]%Forall_app Htc E0 El.
  destruct (open_tables_ok _ _ _ _ [] _ H0 Htc) as (tc1 & E1 & Htc1).
  destruct (open_levels_ok _ _ _ _ [] _ Hl Htc1) as (tc2 & E2 & Htc2).
  exists tc2. split; [|done]. unfold open_version_tables. rewrite E0, El.
  by rewrite (bind_ok _ _ _ _ _ E1), (bind_ok _ _ _ _ _ E2).
Qed.

Lemma holds_opens tables path readers fs (t : TableRef) es :
  table_holds tables t es -> readers (fm_number t.1) = Some t.2 ->
  sr_path t.2 = path_join path (table_file_name (fm_number t.1)) -> fs_oracle fs = [] ->
  fs_files fs !! sr_path t.2 = fs_files (tb_fs tables) !! sr_path t.2 ->
  opens path readers fs t.
Proof.
  intros Hes Hr Hpath Ho Hf. split; [exact Hr|].
  destruct (th_layout _ _ _ Hes) as (comp & chunks & path' & Hc & Hfit & _ & Er & Hfile & _).
  rewrite Er in Hpath, Hf |- *. cbn [table_reader sr_path] in Hpath, Hf. subst path'.
  apply sst_open_ok; [done | done | congruence | exact Ho].
Qed.

Lemma layout_opens tables l0 levels (d : Db SM) readers :
  db_inv tables l0 levels d ->
  Forall (fun t : TableRef => readers (fm_number t.1) = Some t.2) (all_tables (db_state d)) ->
  Forall (opens (db_path d) readers (db_fs d)) (all_tables (db_state d)).
Proof.
  intros [[Hok [[Ho Hfs] _] _] Hly] Hrd. pose proof (ly_paths _ _ _ _ Hly) as Hp.
  pose proof (all_tables_hold _ _ _ _ Hok) as Hall. cbn [db_rw rw_fs] in Ho, Hfs.
  rewrite Forall_forall in Hrd, Hp, Hall |- *. intros t Ht. destruct (Hall t Ht) as [es Hes].
  apply (holds_opens tables _ _ _ _ es); [done | by apply Hrd | by apply Hp | done | by rewrite Hfs].
Qed.
End layout.
