(* ===== verification/DbFlushOk.v ===== *)
(** * Flushing keeps what is stored

    Installing a table file ([install_table], used by flushes and
    compactions) and [flush]: without failures of the file system a flush
    moves the oldest memtable to level 0, logs it, starts a new log and
    changes no read. *)

From Stdlib Require Import Sorting.Sorted.
From stdpp Require Import base list gmap strings sorting.
From S2P Require Import Prelude Key Spec Memtable Coding Batch Env Externals Wal Block Cache.
From S2P Require Import Format Properties Table Reader TableCache Version Options Metrics.
From S2P Require Import Compact Mvcc DbState DbRead DbMem DbFlush DbInv.

(** ** The metadata of a table *)

Lemma sequence_range_fold es lo hi :
  foldl (fun range (e : entry) =>
    match range with
    | Some (smallest, largest) => Some (Z.min smallest (sequence e.1), Z.max largest (sequence e.1))
    | None => Some (sequence e.1, sequence e.1)
    end) (Some (lo, hi)) es
  = Some (foldl (fun l (e : entry) => Z.min l (sequence e.1)) lo es,
          foldl (fun h (e : entry) => Z.max h (sequence e.1)) hi es).
Proof. revert lo hi. induction es as [|e es IH]; intros lo hi; [done|]. apply IH. Qed.

Lemma min_sequence_ok es lo :
  Forall (fun e : entry => u64_ok (sequence e.1)) es -> u64_ok lo ->
  u64_ok (foldl (fun l (e : entry) => Z.min l (sequence e.1)) lo es).
Proof.
  intros Hes. revert lo. induction Hes as [|e es He Hes IH]; intros lo Hlo; [done|].
  cbn [foldl]. apply IH. unfold u64_ok in *. lia.
Qed.

Lemma max_sequence_ok es hi :
  Forall (fun e : entry => u64_ok (sequence e.1)) es -> u64_ok hi ->
  let hi' := foldl (fun h (e : entry) => Z.max h (sequence e.1)) hi es in
  u64_ok hi' /\ hi <= hi' /\ Forall (fun e : entry => sequence e.1 <= hi') es.
Proof.
  intros Hes. revert hi. induction Hes as [|e es He Hes IH]; intros hi Hhi; [done|].
  cbn [foldl]. destruct (IH (Z.max hi (sequence e.1))) as (H1 & H2 & H3); [unfold u64_ok in *; lia|].
  split; [done|]. split; [lia|]. constructor; [lia | done].
Qed.

Lemma sequence_range_ok es :
  es <> [] -> Forall (fun e : entry => u64_ok (sequence e.1)) es ->
  exists lo hi, sequence_range es = Some (lo, hi) /\ u64_ok lo /\ u64_ok hi /\
    Forall (fun e : entry => sequence e.1 <= hi) es.
Proof.
  destruct es as [|e0 es]; [done|]. intros _ [H0 Hes]%Forall_cons.
  unfold sequence_range. cbn [foldl]. rewrite sequence_range_fold.
  destruct (max_sequence_ok es _ Hes H0) as (H1 & H2 & H3).
  eexists _, _. split; [reflexivity|]. split; [by apply min_sequence_ok|].
  split; [exact H1|]. constructor; [exact H2 | exact H3].
Qed.

Section install.
Context `{X : Externals} `{HX : !ExternalsOk X} `{H : HashOrder} `{N : NumberHashOrder}
  `{SM : arena_skip_map} `{!SkipMapOk SM}.

(** [d] with another log, version set, caches, counters and file system. *)
Definition io_update (w : WalWriter) (vs : VersionSet) (c : BlockCache) (tc : TableCache)
    (m : Metrics) (fs : Fs) (d : Db SM) : Db SM :=
  mkDb (db_path d) (db_options d) (db_state d) vs c tc (db_snapshots d) m
    (db_write_rate_limiter d) w fs (db_now d).

Lemma file_meta_ok tables comp chunks path number size w :
  compression_succeeds comp -> table_fits comp chunks -> concat chunks <> [] ->
  rw_inv tables w -> fs_files (rw_fs w) !! path = Some (table_bytes comp chunks) ->
  exists meta w', file_meta_from_table number size (table_reader comp chunks path) w = (Ok meta, w') /\
    rw_inv tables w' /\ rw_fs w' = rw_fs w /\
    fm_number meta = number /\ fm_file_size meta = size /\
    fst <$> head (concat chunks) = Some (fm_smallest meta) /\
    fst <$> last (concat chunks) = Some (fm_largest meta) /\
    u64_ok (fm_smallest_seq meta) /\ u64_ok (fm_largest_seq meta) /\
    Forall (fun e : entry => sequence e.1 <= fm_largest_seq meta) (concat chunks).
Proof.
  intros Hc Hf Hne Hw Hfile.
  destruct (entries_with_cache_ok comp Hc tables chunks Hf path 0 false true w Hfile Hw)
    as (w' & E & Hw' & Hfs); [done|].
  unfold file_meta_from_table. erewrite bind_ok by exact E.
  destruct (sequence_range_ok (concat chunks) Hne) as (lo & hi & -> & Hlo & Hhi & Hall).
  { eapply Forall_impl; [apply (tf_entries _ _ Hf)|]. intros e He. apply He. }
  destruct (concat chunks) as [|e0 es] eqn:Ees; [done|].
  destruct (last (e0 :: es)) as [l|] eqn:El; [|by apply last_None in El].
  unfold smallest_key, largest_key. cbn [table_reader sr_properties].
  unfold table_properties. cbn [tp_smallest_key tp_largest_key]. rewrite Ees, El.
  eexists _, w'. by split; [reflexivity|].
Qed.

(** A new table with number [n]. *)
Definition tables_with (tables : Tables) (fs : Fs) (n : Z) (blocks : Z -> option Block) : Tables :=
  mkTables fs (fun t => if decide (t = n) then blocks else tables t).

Lemma tables_with_inv tables fs n blocks w :
  rw_inv tables w -> fs_oracle fs = [] -> (forall off, tables n off = None) ->
  rw_inv (tables_with tables fs n blocks) (mkRW fs (rw_cache w)).
Proof.
  intros [_ Hc] Ho Hn. split; [done|]. intros t off b Hb. cbn [tables_with tb_blocks].
  destruct (decide (t = n)) as [->|]; [|by apply Hc]. apply Hc in Hb. by rewrite Hn in Hb.
Qed.

Definition readers_with (readers : Z -> option SSTableReader) (n : Z) (r : SSTableReader)
    (k : Z) : option SSTableReader := if decide (k = n) then Some r else readers k.

Lemma readers_with_agree readers n r c :
  tables_agree readers c -> readers n = None -> tables_agree (readers_with readers n r) c.
Proof.
  intros Hc Hn k r' Hk. apply Hc in Hk. unfold readers_with.
  destruct (decide (k = n)) as [->|]; [by rewrite Hn in Hk | done].
Qed.

(** What [flush] and a compaction need of the metadata of a new table. *)
Record meta_describes (meta : FileMeta) (n : u64) (es : list entry) : Prop := mkMetaDescribes {
  md_number : fm_number meta = n;
  md_size : u64_ok (fm_file_size meta);
  md_smallest : fst <$> head es = Some (fm_smallest meta);
  md_largest : fst <$> last es = Some (fm_largest meta);
  md_smallest_seq : u64_ok (fm_smallest_seq meta);
  md_largest_seq : u64_ok (fm_largest_seq meta)
}.

Lemma storable_key_short e : entry_storable e -> key_short e.1.
Proof. intros ([[_ Hs] _] & Hl & Hb). split; [done|]. by split. Qed.

Lemma add_table_edit_ok level meta n es :
  meta_describes meta n es -> u64_ok n -> u32_ok level -> Forall entry_storable es ->
  edit_ok (AddFile level meta).
Proof.
  intros [Hnum Hsize Hsm Hla Hsq Hlq] Hn Hl Hes. rewrite Forall_forall in Hes.
  destruct (head es) as [f|] eqn:Ef; [|done]. injection Hsm as Hsm.
  destruct (last es) as [e|] eqn:Ee; [|done]. injection Hla as Hla.
  rewrite head_lookup in Ef. rewrite last_lookup in Ee.
  apply list_elem_of_lookup_2, Hes in Ef, Ee.
  apply edit_short_ok; cbn [edit_fits]; rewrite <- ?Hsm, <- ?Hla.
  - split; [done|]. unfold meta_fits. rewrite Hnum, <- Hsm, <- Hla.
    split; [done|]. split; [done|]. split; [apply Ef|]. split; [apply Ee | done].
  - by split; apply storable_key_short.
Qed.

Section install_one.
Context (tables : Tables) (d : Db SM) (n : u64) (chunks : list (list entry))
  (readers : Z -> option SSTableReader).

Definition install_reader : SSTableReader :=
  table_reader (table_compression (db_options d)) chunks (table_path d n).
Definition install_fs : Fs :=
  set_files (fun m => <[table_path d n := table_bytes (table_compression (db_options d)) chunks]>
    (delete (table_tmp_path d n) m)) (db_fs d).
Definition install_tables : Tables :=
  tables_with tables install_fs n (blocks_at (table_compression (db_options d)) 0 chunks).

Lemma install_table_ok record :
  compression_succeeds (table_compression (db_options d)) ->
  table_fits (table_compression (db_options d)) chunks ->
  concat chunks <> [] -> sorted_entries (concat chunks) ->
  rw_inv tables (db_rw d) -> (forall off, tables n off = None) ->
  fs_files (db_fs d) !! table_tmp_path d n
    = Some (table_bytes (table_compression (db_options d)) chunks) ->
  tables_agree readers (db_table_cache d) -> readers n = None ->
  exists meta c tc m,
    let d' := io_update (db_wal d) (db_versions d) c tc m install_fs d in
    install_table (table_tmp_path d n) (table_path d n) n record d = (Ok (install_reader, meta), d') /\
    rw_inv install_tables (db_rw d') /\
    tables_agree (readers_with readers n install_reader) tc /\
    table_holds install_tables (meta, install_reader) (concat chunks) /\
    meta_describes meta n (concat chunks).
Proof.
  intros Hc Hf Hne Hs Hw Hn Htmp Htc Hrn. pose proof Hw as [[Ho _] _]. cbn [db_rw rw_fs] in Ho.
  assert (fs_files install_fs !! table_path d n
    = Some (table_bytes (table_compression (db_options d)) chunks)) as Hfile
    by apply lookup_insert_eq.
  set (bytes := table_bytes (table_compression (db_options d)) chunks) in *.
  set (d1 := set_wal (db_wal d) install_fs d).
  set (d2 := set_metrics (record (len bytes) (db_metrics d1)) d1).
  destruct (get_or_open_ok (readers_with readers n install_reader) n (table_path d n) install_reader
    (db_table_cache d) install_fs) as (tc & Eo & Htc').
  { by apply readers_with_agree. }
  { unfold readers_with. by rewrite decide_True. }
  { by apply sst_open_ok. }
  set (d3 := set_table_cache tc install_fs d2).
  pose proof (tables_with_inv tables install_fs n
    (blocks_at (table_compression (db_options d)) 0 chunks) _ Hw Ho Hn) as Hw3.
  fold install_tables in Hw3.
  destruct (file_meta_ok install_tables _ chunks (table_path d n) n (len bytes) _ Hc Hf Hne Hw3 Hfile)
    as (meta & w4 & Em & Hw4 & Hfs4 & Hnum & Hsize & Hsm & Hla & Hsq & Hlq & Hall).
  exists meta, (rw_cache w4), tc, (db_metrics d2). cbv zeta. split; [|split; [|split; [|split]]].
  - unfold install_table. erewrite bind_ok.
    2: { unfold on_env, zoom, rename. rewrite fallible_ok by done. rewrite Htmp. reflexivity. }
    change (set_wal (db_wal d) (set_files _ _) d) with d1.
    erewrite bind_ok.
    2: { unfold on_env, zoom, metadata_len. rewrite fallible_ok by done.
         change (db_fs d1) with install_fs. rewrite Hfile. reflexivity. }
    change (set_wal (db_wal d1) install_fs d1) with d1.
    erewrite bind_ok by reflexivity. fold bytes. fold d2.
    erewrite bind_ok.
    2: { unfold on_table_cache, zoom. change (db_table_cache d2, db_fs d2) with (db_table_cache d, install_fs).
         rewrite Eo. reflexivity. }
    cbn [fst snd]. fold d3. erewrite bind_ok.
    2: { unfold on_rw, zoom. change (mkRW (db_fs d3) (db_block_cache d3))
           with (mkRW install_fs (rw_cache (db_rw d))). unfold install_reader. rewrite Em. reflexivity. }
    unfold set_rw. rewrite Hfs4. reflexivity.
  - change (rw_inv install_tables (mkRW install_fs (rw_cache w4))).
    destruct w4 as [f4 c4]. cbn [rw_fs rw_cache] in *. by rewrite Hfs4 in Hw4.
  - done.
  - constructor; [|done|done|done|done].
    exists (table_compression (db_options d)), chunks, (table_path d n).
    split; [done|]. split; [done|]. split; [done|]. split; [done|]. split; [done|].
    cbn [fst]. rewrite Hnum. cbn [install_tables tables_with tb_blocks]. by rewrite decide_True.
  - constructor; try done. rewrite Hsize. pose proof (tf_size _ _ Hf). pose proof (len_nonneg bytes).
    unfold u64_ok, isize_max in *. fold bytes in H0. lia.
Qed.
End install_one.

(** ** Logging an edit *)

Definition manifest_path (d : Db SM) (n : u64) : string :=
  path_join (db_path d) (manifest_file_name n).

(** [fs'] is [fs] but for the files [ps]. *)
Definition same_files_but (ps : list string) (fs fs' : Fs) : Prop :=
  fs_oracle fs' = fs_oracle fs /\ fs_dirs fs' = fs_dirs fs /\
  forall p, p ∉ ps -> fs_files fs' !! p = fs_files fs !! p.

Lemma same_files_refl ps fs : same_files_but ps fs fs.
Proof. done. Qed.

Lemma same_files_trans ps fs1 fs2 fs3 :
  same_files_but ps fs1 fs2 -> same_files_but ps fs2 fs3 -> same_files_but ps fs1 fs3.
Proof.
  intros (O1 & D1 & F1) (O2 & D2 & F2). split; [congruence|]. split; [congruence|].
  intros p Hp. by rewrite F2, F1.
Qed.

Lemma same_files_weaken ps ps' fs fs' :
  ps ⊆ ps' -> same_files_but ps fs fs' -> same_files_but ps' fs fs'.
Proof. intros Hsub (O & D & F). split; [done|]. split; [done|]. intros p Hp. apply F. auto. Qed.

Lemma same_files_app ps ps' fs1 fs2 fs3 :
  same_files_but ps fs1 fs2 -> same_files_but ps' fs2 fs3 -> same_files_but (ps ++ ps') fs1 fs3.
Proof.
  intros F1 F2. eapply same_files_trans; eapply same_files_weaken; [|exact F1 | |exact F2];
    intros p Hp; apply elem_of_app; auto.
Qed.

Lemma same_files_at ps fs fs' p :
  same_files_but ps fs fs' -> p ∉ ps -> fs_files fs' !! p = fs_files fs !! p.
Proof. intros (_ & _ & F). apply F. Qed.

Lemma same_files_insert p c fs : same_files_but [p] fs (set_files (<[p := c]>) fs).
Proof.
  split; [done|]. split; [done|]. intros q Hq. cbn.
  apply lookup_insert_ne. intros ->. apply Hq. by left.
Qed.

Lemma db_log_and_apply_ok n edits e (d : Db SM) vs1 :
  manifest_inv (db_path d) (max_levels (db_options d)) n edits (db_versions d) (db_fs d) ->
  fs_oracle (db_fs d) = [] -> edit_ok e -> apply_edit e (db_versions d) = (Ok tt, vs1) ->
  exists w fs', let vs' := vs_with_writer w vs1 in
    db_log_and_apply e d = (Ok tt, set_versions vs' fs' d) /\
    same_files_but [manifest_path d n] (db_fs d) fs' /\
    manifest_inv (db_path d) (max_levels (db_options d)) n (edits ++ [e]) vs' fs'.
Proof.
  intros Hm Ho He Eap. destruct (log_and_apply_exact _ _ _ _ _ _ _ _ Hm Ho He Eap) as (w & E & Hm').
  eexists (Some w), _. split; [|split; [|exact Hm']].
  - unfold db_log_and_apply, on_versions, zoom. by rewrite E.
  - by apply same_files_insert.
Qed.

(** The two edits of a flush that touch the numbering, applied. *)
Lemma apply_add_l0 meta vs :
  0 <= fm_number meta < vs_next_file_number vs -> vs_next_file_number vs < 2 ^ 63 ->
  apply_edit (AddFile 0 meta) vs = (Ok tt,
    vs_with_current (mkVersion (meta :: v_l0_files (vs_current vs)) (v_levels (vs_current vs)))
      (vs_with_numbers (vs_next_file_number vs) (vs_last_sequence vs) (vs_log_number vs) vs)).
Proof.
  intros Hn Hk. unfold apply_edit. rewrite bind_get_state, bind_modify. rewrite wrap_small by lia.
  by rewrite Z.max_l by lia.
Qed.

Lemma apply_log_number k vs :
  0 <= k < 2 ^ 63 -> vs_next_file_number vs = k + 1 ->
  apply_edit (LogNumber k) vs
    = (Ok tt, vs_with_numbers (k + 1) (vs_last_sequence vs) k vs).
Proof.
  intros Hk E. unfold apply_edit. rewrite bind_get_state. cbv zeta.
  rewrite E. rewrite wrap_small by lia. by rewrite Z.max_id.
Qed.

(** The log that takes the writes after the flush. *)
Lemma wal_create_fresh path fs :
  fs_oracle fs = [] -> fs_files fs !! path = None ->
  wal_create path fs
    = (Ok (mkWalWriter (mkWritableFile path true 0)), set_files (<[path := []]>) fs).
Proof.
  intros Ho Hf. unfold wal_create. erewrite bind_ok; [reflexivity|]. unfold open_writable.
  by rewrite fallible_ok, Hf by done.
Qed.

Lemma allocate_number (d : Db SM) :
  0 <= vs_next_file_number (db_versions d) < 2 ^ 63 ->
  db_allocate_file_number d = (Ok (vs_next_file_number (db_versions d)),
    set_versions (vs_with_numbers (vs_next_file_number (db_versions d) + 1)
      (vs_last_sequence (db_versions d)) (vs_log_number (db_versions d)) (db_versions d)) (db_fs d) d).
Proof.
  intros Hk. unfold db_allocate_file_number, allocate_file_number. by rewrite wrap_small by lia.
Qed.

(** The new log and its number in the manifest. *)
Lemma switch_ok n edits (d : Db SM) :
  let vs := db_versions d in
  let k := vs_next_file_number vs in
  manifest_inv (db_path d) (max_levels (db_options d)) n edits vs (db_fs d) ->
  fs_oracle (db_fs d) = [] -> 0 <= k < 2 ^ 63 -> fs_files (db_fs d) !! wal_path d k = None ->
  exists vs' fs' w,
    (new_log_number ← db_allocate_file_number;
     self ← get_state;
     new_wal ← on_env (wal_create (path_join (db_path self) (wal_file_name new_log_number)));
     _ ← db_log_and_apply (LogNumber new_log_number);
     modify (fun d => set_wal new_wal (db_fs d) d)) d = (Ok tt, set_wal w fs' (set_versions vs' fs' d)) /\
    same_files_but [wal_path d k; manifest_path d n] (db_fs d) fs' /\
    manifest_inv (db_path d) (max_levels (db_options d)) n (edits ++ [LogNumber k]) vs' fs' /\
    wf_path (ww_file w) = wal_path d k /\ writes_at_end (ww_file w) fs' [] /\
    vs_current vs' = vs_current vs /\ vs_next_file_number vs' = k + 1 /\ vs_log_number vs' = k /\
    vs_last_sequence vs' = vs_last_sequence vs.
Proof.
  intros vs k Hm Ho Hk Hfree. assert (u64_ok n) as Hnn by by destruct Hm.
  assert (wal_path d k <> manifest_path d n) as Hpne by by apply wal_manifest_ne.
  set (vs1 := vs_with_numbers (k + 1) (vs_last_sequence vs) (vs_log_number vs) vs).
  set (d1 := set_versions vs1 (db_fs d) d).
  assert (db_allocate_file_number d = (Ok k, d1)) as E1 by (apply (allocate_number d); subst k vs; lia).
  set (fs2 := set_files (<[wal_path d k := []]>) (db_fs d)).
  set (w := mkWalWriter (mkWritableFile (wal_path d k) true 0)).
  assert (wal_create (wal_path d k) (db_fs d) = (Ok w, fs2)) as E2 by by apply wal_create_fresh.
  set (d2 := set_wal (db_wal d) fs2 d1).
  assert (manifest_inv (db_path d) (max_levels (db_options d)) n edits vs1 fs2) as M2.
  { eapply manifest_inv_frame; [exact Hm | done | done | |]; cbn; apply lookup_insert_ne;
      [apply wal_current_ne | exact Hpne]. }
  set (vs3 := vs_with_numbers (k + 1) (vs_last_sequence vs1) k vs1).
  assert (apply_edit (LogNumber k) vs1 = (Ok tt, vs3)) as E3 by (by apply apply_log_number; [lia|]).
  assert (edit_ok (LogNumber k)) as He3 by (apply edit_short_ok; [unfold edit_fits, u64_ok; lia | done]).
  destruct (db_log_and_apply_ok n _ (LogNumber k) d2 vs3 M2 Ho He3 E3) as (w3 & fs3 & L3 & F3 & M3).
  exists (vs_with_writer w3 vs3), fs3, w. split; [|split; [|split; [exact M3|]]].
  - erewrite bind_ok by exact E1. rewrite bind_get_state. cbv zeta.
    change (path_join (db_path d1) (wal_file_name k)) with (wal_path d k).
    erewrite bind_ok by (unfold on_env, zoom; change (db_fs d1) with (db_fs d); rewrite E2; reflexivity).
    change (set_wal (db_wal d1) fs2 d1) with d2. erewrite bind_ok by exact L3. reflexivity.
  - exact (same_files_app _ _ _ _ _ (same_files_insert (wal_path d k) [] (db_fs d)) F3).
  - split; [done|]. split; [|done]. split; [|by left]. cbn [w ww_file wf_path].
    rewrite (same_files_at _ _ _ _ F3) by (by intros E%list_elem_of_singleton). apply lookup_insert_eq.
Qed.

Section publish.
Context (d : Db SM) (n : u64) (edits : list VersionEdit) (meta : FileMeta) (last_sequence : u64).
Let vs := db_versions d.
Let k := vs_next_file_number vs.

Lemma publish_ok :
  manifest_inv (db_path d) (max_levels (db_options d)) n edits vs (db_fs d) ->
  fs_oracle (db_fs d) = [] -> edit_ok (AddFile 0 meta) -> u64_ok last_sequence ->
  fm_number meta < k -> 0 <= fm_number meta -> k < 2 ^ 63 ->
  fs_files (db_fs d) !! wal_path d k = None ->
  exists vs' fs' w edits', publish_l0_table meta last_sequence d
      = (Ok tt, set_wal w fs' (set_versions vs' fs' d)) /\
    same_files_but [manifest_path d n; wal_path d k] (db_fs d) fs' /\
    manifest_inv (db_path d) (max_levels (db_options d)) n edits' vs' fs' /\
    edits' = ((edits ++ [AddFile 0 meta]) ++ [LastSequence last_sequence]) ++ [LogNumber k] /\
    wf_path (ww_file w) = wal_path d k /\ writes_at_end (ww_file w) fs' [] /\
    vs_current vs' = mkVersion (meta :: v_l0_files (vs_current vs)) (v_levels (vs_current vs)) /\
    vs_next_file_number vs' = k + 1 /\ vs_log_number vs' = k /\
    vs_last_sequence vs' = Z.max (vs_last_sequence vs) last_sequence.
Proof.
  intros Hm Ho He Hls Hn Hn0 Hk Hfree. pose proof (apply_add_l0 meta vs (conj Hn0 Hn) Hk) as E1.
  set (vs1 := vs_with_current _ _) in E1.
  destruct (db_log_and_apply_ok n edits _ d vs1 Hm Ho He E1) as (w1 & fs1 & L1 & F1 & M1).
  set (vs1' := vs_with_writer w1 vs1) in *. set (d1 := set_versions vs1' fs1 d) in *.
  assert (fs_oracle fs1 = []) as Ho1 by (destruct F1 as [-> _]; done).
  set (vs2 := vs_with_numbers k (Z.max (vs_last_sequence vs) last_sequence) (vs_log_number vs) vs1').
  assert (edit_ok (LastSequence last_sequence)) as He2 by by apply edit_short_ok.
  destruct (db_log_and_apply_ok n _ (LastSequence last_sequence) d1 vs2 M1 Ho1 He2 eq_refl)
    as (w2 & fs2 & L2 & F2 & M2).
  set (d2 := set_versions (vs_with_writer w2 vs2) fs2 d1) in *.
  pose proof (same_files_trans _ _ _ _ F1 F2) as F12.
  assert (fs_oracle fs2 = []) as Ho2 by (destruct F2 as [-> _]; done).
  destruct (switch_ok n _ d2 M2 Ho2 (conj (Z.le_trans _ _ _ Hn0 (Z.lt_le_incl _ _ Hn)) Hk)) as (vs' & fs' & w & L3 & F3 & M3 & Hrest).
  { rewrite <- Hfree. apply (same_files_at _ _ _ _ F12). intros E%list_elem_of_singleton. revert E. by apply wal_manifest_ne, Hm. }
  exists vs', fs', w. eexists. split; [|split; [|split; [exact M3 | split; [reflexivity|]]]].
  - unfold publish_l0_table. erewrite bind_ok by exact L1. erewrite bind_ok by exact L2. exact L3.
  - eapply same_files_weaken; [|exact (same_files_app _ _ _ _ _ F12 F3)].
    intros p. cbn [app]. rewrite !elem_of_cons. tauto.
  - exact Hrest.
Qed.
End publish.

(** ** Writing the table of a memtable *)

(** Entries that the format of a table can hold: their count and the bytes of
    their table are within the widths of the format, and a file is not longer
    than a [Vec] can be. *)
Definition table_bounded (options : Options) (es : list entry) : Prop :=
  10 * len es < 2 ^ 32 /\
  len (table_bytes (table_compression options) (chunk_entries (block_size options) es)) <= isize_max.

#[export] Instance table_bounded_dec options es : Decision (table_bounded options es).
Proof. unfold table_bounded. apply _. Defined.

Lemma bounded_fits options es :
  compression_succeeds (table_compression options) ->
  Forall entry_fits es -> table_bounded options es ->
  let chunks := chunk_entries (block_size options) es in
  concat chunks = es /\ table_fits (table_compression options) chunks /\
  forall path fs, fs_oracle fs = [] ->
    build_table path (block_size options) (table_compression options) es fs
    = (Ok tt, set_files (<[path := table_bytes (table_compression options) chunks]>) fs).
Proof.
  intros Hc He [Hn Hl]. cbv zeta.
  destruct (build_table_ok _ Hc "" (block_size options) es (mkFs ∅ ∅ []) eq_refl) as (_ & Hch & Hne).
  split; [done|]. split; [by constructor; rewrite ?Hch|]. intros path fs Ho.
  by destruct (build_table_ok _ Hc path (block_size options) es fs Ho).
Qed.

(** What the building and installing of a table leaves. *)
Record installed (tables tables' : Tables) (readers : Z -> option SSTableReader) (d : Db SM) (n : u64)
    (es : list entry) (meta : FileMeta) (reader : SSTableReader) (c : BlockCache) (tc : TableCache)
    (fs' : Fs) : Prop := mkInstalled {
  in_files : same_files_but [table_path d n; table_tmp_path d n] (db_fs d) fs';
  in_rw : rw_inv tables' (mkRW fs' c);
  in_blocks : forall k, k <> n -> tables' k = tables k;
  in_readers : tables_agree (readers_with readers n reader) tc;
  in_holds : table_holds tables' (meta, reader) es;
  in_meta : meta_describes meta n es;
  in_path : sr_path reader = table_path d n
}.

Lemma build_install_ok tables (d : Db SM) n es readers record :
  compression_succeeds (table_compression (db_options d)) ->
  rw_inv tables (db_rw d) -> (forall off, tables n off = None) ->
  tables_agree readers (db_table_cache d) -> readers n = None ->
  es <> [] -> sorted_entries es -> Forall entry_fits es -> table_bounded (db_options d) es ->
  exists meta reader c tc mt fs' tables',
    (_ ← on_env (build_table (table_tmp_path d n) (block_size (db_options d))
           (table_compression (db_options d)) es);
     install_table (table_tmp_path d n) (table_path d n) n record) d
      = (Ok (reader, meta), io_update (db_wal d) (db_versions d) c tc mt fs' d) /\
    installed tables tables' readers d n es meta reader c tc fs'.
Proof.
  intros Hc Hw Hn Htc Hrn Hne Hs He Hb. pose proof Hw as [[Ho _] _]. cbn in Ho.
  destruct (bounded_fits (db_options d) _ Hc He Hb) as (Ech & Hf & Eb).
  specialize (Eb (table_tmp_path d n) (db_fs d) Ho).
  set (chunks := chunk_entries _ _) in *. clearbody chunks. rewrite <- Ech in *.
  set (fs1 := set_files _ (db_fs d)) in Eb. set (d1 := set_wal (db_wal d) fs1 d).
  assert (table_path d n <> table_tmp_path d n) as Hpt by apply table_tmp_ne.
  destruct (install_table_ok (mkTables fs1 (tb_blocks tables)) d1 n chunks readers record)
    as (meta & c & tc & mt & Ei & Hw' & Htc' & Hh & Hmd);
    [exact Hc | exact Hf | exact Hne | exact Hs | | exact Hn | | exact Htc | exact Hrn |].
  { split; [by split | apply Hw]. }
  { apply lookup_insert_eq. }
  set (fs2 := install_fs d1 n chunks) in *.
  exists meta, (install_reader d1 n chunks), c, tc, mt, fs2, (install_tables (mkTables fs1 (tb_blocks tables)) d1 n chunks).
  split; [|constructor; [|exact Hw'| |exact Htc'|exact Hh|exact Hmd|done]].
  - erewrite bind_ok by (unfold on_env, zoom; rewrite Eb; reflexivity). exact Ei.
  - split; [done|]. split; [done|]. intros p Hp.
    assert (p <> table_path d n /\ p <> table_tmp_path d n) as [Hp1 Hp2].
    { split; intros ->; apply Hp; [by left | right; by left]. }
    unfold fs2, install_fs. cbn. change (table_path d1 n) with (table_path d n).
    change (table_tmp_path d1 n) with (table_tmp_path d n).
    by rewrite lookup_insert_ne, lookup_delete_ne, lookup_insert_ne by done.
  - intros k Hk. cbn. by rewrite decide_False.
Qed.

Lemma write_l0_table_ok tables (d : Db SM) n (m : MemTable SM) readers :
  compression_succeeds (table_compression (db_options d)) ->
  rw_inv tables (db_rw d) -> (forall off, tables n off = None) ->
  env_exists (table_path d n) (db_fs d) = false ->
  tables_agree readers (db_table_cache d) -> readers n = None ->
  mt_entries m <> [] -> sorted_entries (mt_entries m) -> Forall entry_fits (mt_entries m) ->
  table_bounded (db_options d) (mt_entries m) ->
  exists meta reader c tc mt fs' tables',
    write_l0_table m n d = (Ok (reader, meta), io_update (db_wal d) (db_versions d) c tc mt fs' d) /\
    installed tables tables' readers d n (mt_entries m) meta reader c tc fs'.
Proof.
  intros Hc Hw Hn Hfree Htc Hrn Hne Hs He Hb.
  destruct (build_install_ok tables d n _ readers record_sst_write Hc Hw Hn Htc Hrn Hne Hs He Hb)
    as (meta & reader & c & tc & mt & fs' & tables' & E & Hi).
  exists meta, reader, c, tc, mt, fs', tables'. split; [|exact Hi].
  unfold write_l0_table. rewrite bind_get_state. cbv zeta. by rewrite Hfree.
Qed.

(** ** Flushing *)

(** The memtable a flush takes has entries, and those left have. *)
Lemma take_nonempty kind (st st' : DBState SM) m src :
  take_oldest_flushable_memtable kind st = (Some (m, src), st') ->
  Forall (fun m => mt_entries m <> []) (st_immutables st) ->
  mt_entries m <> [] /\ Forall (fun m => mt_entries m <> []) (st_immutables st').
Proof.
  unfold take_oldest_flushable_memtable. destruct st as [mut imm l0 levels last closed].
  cbn [st_immutables st_mutable]. destruct imm as [|oldest imm].
  - rewrite mt_is_empty_entries. destruct (mt_entries mut) eqn:E; [done|].
    intros [= <- <- <-] _. split; [by rewrite E | constructor].
  - intros [= <- <- <-] [Ho Hi]%Forall_cons. done.
Qed.

Lemma taken_in_contents kind (st st' : DBState SM) m src l0 levels e :
  take_oldest_flushable_memtable kind st = (Some (m, src), st') ->
  e ∈ mt_entries m -> e ∈ contents st l0 levels.
Proof.
  intros Ht He. destruct (take_runs _ _ _ _ _ Ht) as (Hr & _).
  unfold contents, runs. rewrite concat_app, elem_of_app. left.
  destruct Hr as [-> | [-> _]]; rewrite ?concat_app, ?elem_of_app; cbn [concat];
    rewrite ?app_nil_r; [by right | done].
Qed.

Lemma taken_sorted kind tables (st st' : DBState SM) m src l0 levels :
  state_ok tables st l0 levels -> take_oldest_flushable_memtable kind st = (Some (m, src), st') ->
  sorted_entries (mt_entries m).
Proof.
  intros Hok Ht. destruct (take_runs _ _ _ _ _ Ht) as (Hr & _).
  pose proof (so_mem _ _ _ _ Hok) as Hm. apply sorted_lt_entries.
  destruct Hr as [Hr | [Hr _]]; rewrite Hr in Hm; [apply Forall_app in Hm as [_ Hm]|];
    by apply Forall_inv in Hm.
Qed.

(** What a new table file needs of its number: paths told apart from all
    other files of the database. *)
Lemma table_untouched (d : Db SM) (n k mn : u64) :
  u64_ok n -> u64_ok k -> u64_ok mn -> k <> n -> forall j,
  table_path d k ∉ [table_path d n; table_tmp_path d n; manifest_path d mn; wal_path d j].
Proof.
  intros Hn Hk Hmn Hne j. not_among.
  - intros E%path_join_inj%table_file_name_inj; done.
  - apply table_tmp_ne.
  - by apply table_manifest_ne.
  - apply table_wal_ne.
Qed.

Lemma wal_untouched (d : Db SM) (n k mn : u64) :
  u64_ok n -> u64_ok k -> u64_ok mn -> k <> n -> forall j,
  wal_path d k ∉ [table_path d j; table_tmp_path d j; manifest_path d mn; wal_path d n].
Proof.
  intros Hn Hk Hmn Hne j. not_among.
  - apply not_eq_sym, table_wal_ne.
  - apply wal_tmp_ne.
  - by apply wal_manifest_ne.
  - intros E%path_join_inj%wal_file_name_inj; done.
Qed.

Lemma env_exists_frame ps fs fs' p :
  same_files_but ps fs fs' -> p ∉ ps -> env_exists p fs' = env_exists p fs.
Proof. intros (_ & D & F) Hp. unfold env_exists. by rewrite D, F. Qed.

(** The files of a new table are not those of the manifest. *)
Lemma manifest_inv_table (d : Db SM) mn edits vs vs' n fs fs' :
  manifest_inv (db_path d) (max_levels (db_options d)) mn edits vs fs ->
  same_files_but [table_path d n; table_tmp_path d n] fs fs' ->
  same_state vs vs' -> vs_manifest_writer vs' = vs_manifest_writer vs ->
  manifest_inv (db_path d) (max_levels (db_options d)) mn edits vs' fs'.
Proof.
  intros Hm Hf Hs Hw. assert (u64_ok mn) as Hmn by apply Hm.
  eapply manifest_inv_frame; [exact Hm | exact Hs | exact Hw | |]; apply (same_files_at _ _ _ _ Hf);
    not_among; apply not_eq_sym.
  - apply table_current_ne.
  - apply tmp_current_ne.
  - by apply table_manifest_ne.
  - by apply tmp_manifest_ne.
Qed.

Section flush_one.
Context (tables : Tables) (l0 : list (list entry)) (levels : list (list (list entry))) (d : Db SM)
  (m : MemTable SM) (src : FlushSource) (st' : DBState SM).
Let n := vs_next_file_number (db_versions d).

(** What a flush of [m] leaves, in terms of the database before it. *)
Record flush_result (mn : u64) (readers : Z -> option SSTableReader) (d' : Db SM)
    (tables' : Tables) (t : TableRef) : Prop := mkFlushResult {
  fr_state : db_state d' = with_tables (t :: st_l0_tables st') (st_level_tables st') st';
  fr_path : db_path d' = db_path d;
  fr_options : db_options d' = db_options d;
  fr_snapshots : db_snapshots d' = db_snapshots d;
  fr_files : same_files_but
    [table_path d n; table_tmp_path d n; manifest_path d mn; wal_path d (n + 1)] (db_fs d) (db_fs d');
  fr_rw : rw_inv tables' (db_rw d');
  fr_blocks : forall k, k <> n -> tables' k = tables k;
  fr_holds : table_holds tables' t (mt_entries m);
  fr_number : fm_number t.1 = n;
  fr_reader_path : sr_path t.2 = table_path d n;
  fr_readers : tables_agree (readers_with readers n t.2) (db_table_cache d');
  fr_manifest : exists edits,
    manifest_inv (db_path d) (max_levels (db_options d)) mn edits (db_versions d') (db_fs d') /\
    logged_next edits = n + 2;
  fr_current : vs_current (db_versions d')
    = mkVersion (t.1 :: v_l0_files (vs_current (db_versions d))) (v_levels (vs_current (db_versions d)));
  fr_next : vs_next_file_number (db_versions d') = n + 2;
  fr_log_number : vs_log_number (db_versions d') = n + 1;
  fr_last : vs_last_sequence (db_versions d')
    = Z.max (vs_last_sequence (db_versions d)) (st_last_sequence (db_state d));
  fr_wal : wf_path (ww_file (db_wal d')) = wal_path d (n + 1);
  fr_wal_end : writes_at_end (ww_file (db_wal d')) (db_fs d') []
}.

Context (Hinv : db_inv tables l0 levels d)
  (Ht : take_oldest_flushable_memtable (memtable_kind (db_options d)) (db_state d) = (Some (m, src), st'))
  (Hbound : n < 2 ^ 62) (Hfits : table_bounded (db_options d) (mt_entries m)).

Lemma flush_number : u64_ok n.
Proof.
  pose proof Hinv as [_ Hly]. pose proof (ly_next _ _ _ _ Hly) as Hn0. fold n in Hn0. unfold u64_ok. lia.
Qed.

Lemma flushed_storable : Forall entry_storable (mt_entries m).
Proof.
  pose proof Hinv as [_ Hly]. apply Forall_forall. intros e He.
  pose proof (ly_storable _ _ _ _ Hly) as Hst. rewrite Forall_forall in Hst.
  by apply Hst; eapply taken_in_contents.
Qed.

(** The new log's file is still free after the table is written. *)
Lemma new_log_free fs :
  same_files_but [table_path d n; table_tmp_path d n] (db_fs d) fs ->
  fs_files fs !! wal_path d (n + 1) = None.
Proof.
  intros Hf. pose proof Hinv as [_ Hly]. pose proof (ly_next _ _ _ _ Hly) as Hn0. fold n in Hn0.
  rewrite (same_files_at _ _ _ _ Hf).
  - destruct (ly_free _ _ _ _ Hly (n + 1)) as [_ ->]; [fold n; lia | unfold u64_ok; lia | done].
  - not_among; [apply not_eq_sym, table_wal_ne | apply wal_tmp_ne].
Qed.

(** The table as the steps before and after its publication leave it. *)
Lemma flushed_kept (tables' : Tables) mn t fs3 :
  u64_ok mn -> sr_path t.2 = table_path d n -> same_files_but [manifest_path d mn; wal_path d (n + 1)] (tb_fs tables') fs3 ->
  table_holds tables' t (mt_entries m) -> table_holds (mkTables fs3 (tb_blocks tables')) t (mt_entries m).
Proof.
  intros Hmn Hrp Hf Hh. pose proof flush_number as Hn. eapply table_holds_frame; [exact Hh | | done].
  cbn [tb_fs]. rewrite Hrp. apply (same_files_at _ _ _ _ Hf).
  not_among; [by apply table_manifest_ne | apply table_wal_ne].
Qed.

(** The database once the memtable is taken and the table has its number. *)
Definition numbered_versions : VersionSet :=
  vs_with_numbers (n + 1) (vs_last_sequence (db_versions d)) (vs_log_number (db_versions d)) (db_versions d).
Definition taken_db : Db SM := set_versions numbered_versions (db_fs d) (set_state st' d).

Lemma write_taken readers :
  tables_agree readers (db_table_cache d) -> readers n = None ->
  exists meta reader c tc mt fs' tables',
    write_l0_table m n taken_db
      = (Ok (reader, meta), io_update (db_wal taken_db) numbered_versions c tc mt fs' taken_db) /\
    installed tables tables' readers taken_db n (mt_entries m) meta reader c tc fs'.
Proof.
  intros Htc Hrn. pose proof Hinv as [[Hok Hw Hopen] Hly]. pose proof flush_number as Hn.
  destruct (take_nonempty _ _ _ _ _ Ht (ly_immutables _ _ _ _ Hly)) as [Hne _].
  pose proof (taken_sorted _ _ _ _ _ _ _ _ Hok Ht) as Hs. pose proof flushed_storable as Hst.
  destruct (ly_free _ _ _ _ Hly n ltac:(done) Hn) as [Hfree _].
  apply (write_l0_table_ok tables taken_db n m readers);
    [apply Hly | exact Hw | intros off; by apply (ly_blocks _ _ _ _ Hly) | exact Hfree | exact Htc
    | exact Hrn | exact Hne | exact Hs | by eapply Forall_impl; [exact Hst|intros e []] | exact Hfits].
Qed.

Lemma flush_steps mn edits readers :
  manifest_inv (db_path d) (max_levels (db_options d)) mn edits (db_versions d) (db_fs d) ->
  logged_next edits = n -> tables_agree readers (db_table_cache d) ->
  (forall k, n <= k -> readers k = None) ->
  exists d' tables' t, flush d = (Ok tt, d') /\ flush_result mn readers d' tables' t.
Proof.
  intros Hm Hlogged Htc Hrn. pose proof Hinv as [[Hok Hw Hopen] Hly].
  pose proof (ly_next _ _ _ _ Hly) as Hn0. fold n in Hn0.
  pose proof flush_number as Hn. assert (u64_ok mn) as Hmn by apply Hm.
  pose proof flushed_storable as Hst.
  destruct (take_runs _ _ _ _ _ Ht) as (_ & _ & Et0 & Etl & Els & _).
  destruct (write_taken readers Htc (Hrn n ltac:(lia)))
    as (meta & reader & c & tc & mt & fs2 & tables' & Ew & [Hf2 Hw2 Hb2 Htc2 Hh Hmd Hrp]).
  set (d2 := io_update (db_wal taken_db) numbered_versions c tc mt fs2 taken_db) in *.
  assert (fs_oracle fs2 = []) as Ho2 by apply Hw2.
  assert (manifest_inv (db_path d) (max_levels (db_options d)) mn edits numbered_versions fs2) as Hm2
    by by apply (manifest_inv_table d mn edits (db_versions d) numbered_versions n (db_fs d) fs2 Hm Hf2).
  pose proof (add_table_edit_ok 0 meta n _ Hmd Hn ltac:(done) Hst) as Hedit.
  pose proof (md_number _ _ _ Hmd) as Hnum.
  destruct (publish_ok d2 mn edits meta (st_last_sequence st') Hm2 Ho2 Hedit)
    as (vs3 & fs3 & w & edits' & Ep & Hf3 & Hm3 & Hed & Hwp & Hwe & Hcur & Hnext & Hlog & Hlast).
  { rewrite Els. apply (so_last _ _ _ _ Hok). }
  { rewrite Hnum. cbn. lia. }
  { rewrite Hnum. lia. }
  { cbn. lia. }
  { by apply new_log_free. }
  set (d3 := set_wal w fs3 (set_versions vs3 fs3 d2)) in *.
  set (tables3 := mkTables fs3 (tb_blocks tables')).
  exists (set_state (with_tables ((meta, reader) :: st_l0_tables st') (st_level_tables st') st') d3),
    tables3, (meta, reader). split.
  - unfold flush. rewrite bind_get_state, Hopen, Ht. rewrite bind_modify.
    assert (db_allocate_file_number (set_state st' d) = (Ok n, taken_db)) as Ea
      by (apply (allocate_number (set_state st' d)); cbn; lia).
    erewrite bind_ok by exact Ea. unfold or_restore.
    erewrite bind_ok by (rewrite Ew; reflexivity). cbn [fst snd].
    erewrite bind_ok by (rewrite Ep; reflexivity). reflexivity.
  - constructor; try done.
    + exact (same_files_app _ _ _ _ _ Hf2 Hf3).
    + split; [split; [|done] | apply Hw2].
      change (fs_oracle fs3 = []). by destruct Hf3 as [-> _].
    + apply (flushed_kept _ mn); [done | exact Hrp | | exact Hh]. by destruct Hw2 as [[_ <-] _].
    + exists edits'. split; [exact Hm3|]. rewrite Hed, !logged_next_snoc, Hlogged. cbn [edit_next].
      rewrite Hnum. change (vs_next_file_number (db_versions d2)) with (n + 1).
      rewrite !wrap_small by lia. lia.
    + change (vs_next_file_number vs3 = n + 2). rewrite Hnext. change (n + 1 + 1 = n + 2). lia.
    + change (vs_last_sequence vs3
        = Z.max (vs_last_sequence (db_versions d)) (st_last_sequence (db_state d))).
      by rewrite Hlast, Els.
Qed.

Section result.
Context (mn : u64) (readers : Z -> option SSTableReader) (d' : Db SM) (tables' : Tables) (t : TableRef)
  (Hmn : u64_ok mn) (Hr : flush_result mn readers d' tables' t).

Lemma flushed_paths : Forall (fun t : TableRef => sr_path t.2 = table_path d (fm_number t.1) /\
  0 <= fm_number t.1 < n) (all_tables (db_state d)).
Proof. pose proof Hinv as [_ Hly]. exact (ly_paths _ _ _ _ Hly). Qed.

Lemma flushed_all : all_tables (db_state d') = t :: all_tables (db_state d).
Proof.
  destruct (take_runs _ _ _ _ _ Ht) as (_ & _ & Et0 & Etl & _).
  rewrite (fr_state _ _ _ _ _ Hr). unfold all_tables. cbn. by rewrite Et0, Etl.
Qed.

Lemma flushed_ok :
  db_ok tables' (mt_entries m :: l0) levels d' /\
  contents (db_state d') (mt_entries m :: l0) levels = contents (db_state d) l0 levels.
Proof.
  pose proof Hinv as [[Hok [[_ Hfs] _] Hopen] _]. pose proof (fr_rw _ _ _ _ _ Hr) as Hw.
  pose proof Hw as [[_ Hfs'] _]. pose proof flush_number.
  destruct (take_runs _ _ _ _ _ Ht) as (_ & _ & _ & _ & _ & Ecl).
  assert (state_ok tables' (db_state d) l0 levels) as Hok'.
  { eapply state_ok_frame; [exact Hok|]. eapply Forall_impl; [exact flushed_paths|]. intros t0 [-> Hk].
    rewrite <- Hfs, <- Hfs'. split; [|apply (fr_blocks _ _ _ _ _ Hr); lia].
    apply (same_files_at _ _ _ _ (fr_files _ _ _ _ _ Hr)).
    apply table_untouched; [done | unfold u64_ok in *; lia | done | lia]. }
  destruct (flushed_state_ok tables' _ _ _ _ _ t l0 levels Hok' Ht (fr_holds _ _ _ _ _ Hr)) as [Hok2 Hc2].
  rewrite <- (fr_state _ _ _ _ _ Hr) in Hok2, Hc2. split; [|exact Hc2].
  constructor; [exact Hok2 | exact Hw|]. rewrite (fr_state _ _ _ _ _ Hr). cbn. congruence.
Qed.

(** Nothing the flush wrote is at a number still to be handed out. *)
Lemma flushed_free k :
  n + 2 <= k -> u64_ok k ->
  env_exists (table_path d k) (db_fs d') = false /\ fs_files (db_fs d') !! wal_path d k = None.
Proof.
  intros Hk Hu. pose proof Hinv as [_ Hly]. pose proof flush_number.
  pose proof (ly_next _ _ _ _ Hly) as Hn0. fold n in Hn0.
  pose proof (fr_files _ _ _ _ _ Hr) as Hf.
  destruct (ly_free _ _ _ _ Hly k ltac:(fold n; lia) Hu) as [H1 H2]. split.
  - rewrite (env_exists_frame _ _ _ _ Hf); [done|]. apply table_untouched; [done | done | done | lia].
  - rewrite (same_files_at _ _ _ _ Hf); [done|].
    apply wal_untouched; [unfold u64_ok in *; lia | done | done | lia].
Qed.

Lemma flush_result_inv :
  (forall k, n <= k -> readers k = None) ->
  Forall (fun t : TableRef => readers (fm_number t.1) = Some t.2) (all_tables (db_state d)) ->
  db_inv tables' (mt_entries m :: l0) levels d' /\
  contents (db_state d') (mt_entries m :: l0) levels = contents (db_state d) l0 levels.
Proof.
  intros Hrn Hrd. destruct flushed_ok as [Hdok Hc2]. split; [|exact Hc2]. split; [exact Hdok|].
  pose proof flushed_all as Eall. pose proof flushed_paths as Hpaths. pose proof flushed_free as Hfree.
  destruct Hr as [Est Ep Eo _ Hf Hw Hb Hh Hnum Hrp Htc Hm Hcur Hnext Hlog Hlast Hwp Hwe].
  pose proof Hinv as [_ Hly]. pose proof (ly_next _ _ _ _ Hly) as Hn0. fold n in Hn0.
  destruct (take_runs _ _ _ _ _ Ht) as (_ & _ & Et0 & Etl & _).
  assert (forall k, table_path d' k = table_path d k) as Etp by (intros k; unfold table_path; by rewrite Ep).
  assert (forall k, wal_path d' k = wal_path d k) as Ewp by (intros k; unfold wal_path; by rewrite Ep).
  constructor; rewrite ?Hnext, ?Hlog.
  - rewrite Eall. apply Forall_cons. rewrite Etp. split; [rewrite Hnum; split; [done | lia]|].
    eapply Forall_impl; [exact Hpaths|]. intros t0 [-> Hk]. rewrite Etp. split; [done | lia].
  - rewrite Eall. cbn [map]. apply NoDup_cons. split; [|exact (ly_numbers _ _ _ _ Hly)].
    unfold table_number at 1. rewrite Hnum. intros (t0 & E0 & Hin)%list_elem_of_fmap.
    rewrite Forall_forall in Hpaths. apply Hpaths in Hin as [_ Hk]. unfold table_number in E0. lia.
  - intros k off Hk. rewrite Hb by lia. apply (ly_blocks _ _ _ _ Hly). fold n. lia.
  - intros k Hk Hu. rewrite Etp, Ewp. by apply Hfree.
  - rewrite Ep. destruct Hf as (_ & -> & _). apply Hly.
  - lia.
  - lia.
  - by rewrite Ewp.
  - by exists [].
  - rewrite Ep, Eo. destruct Hm as (edits & Hm & Hl). by exists mn, edits.
  - rewrite Hcur, Est. cbn. rewrite Et0. by rewrite (ly_l0_files _ _ _ _ Hly).
  - rewrite Hcur, Est. cbn. rewrite Etl. apply (ly_level_files _ _ _ _ Hly).
  - exists (readers_with readers n t.2). split; [exact Htc|]. split.
    + rewrite Eall. apply Forall_cons. split; [unfold readers_with; by rewrite decide_True|].
      rewrite Forall_forall in Hrd, Hpaths |- *. intros t0 Hin. unfold readers_with.
      rewrite decide_False; [by apply Hrd|]. apply Hpaths in Hin as [_ Hk]. lia.
    + intros k Hk. unfold readers_with. rewrite decide_False by lia. apply Hrn. lia.
  - rewrite Est. apply (take_nonempty _ _ _ _ _ Ht (ly_immutables _ _ _ _ Hly)).
  - rewrite Eo. apply Hly.
  - rewrite Hc2. apply Hly.
Qed.
End result.
End flush_one.

(** A flush without failures: it does what [flush_result] says and keeps the
    database in order. *)
Lemma flush_ok tables l0 levels (d : Db SM) m src st' :
  db_inv tables l0 levels d ->
  take_oldest_flushable_memtable (memtable_kind (db_options d)) (db_state d) = (Some (m, src), st') ->
  vs_next_file_number (db_versions d) < 2 ^ 62 ->
  table_bounded (db_options d) (mt_entries m) ->
  exists mn readers d' tables' t, flush d = (Ok tt, d') /\
    flush_result tables d m st' mn readers d' tables' t /\
    db_inv tables' (mt_entries m :: l0) levels d' /\
    contents (db_state d') (mt_entries m :: l0) levels = contents (db_state d) l0 levels.
Proof.
  intros Hinv Ht Hb Hfits. pose proof Hinv as [_ Hly].
  destruct (ly_manifest _ _ _ _ Hly) as (mn & edits & Hm & Hl).
  destruct (ly_readers _ _ _ _ Hly) as (readers & Htc & Hrd & Hrn).
  destruct (flush_steps tables l0 levels d m src st' Hinv Ht Hb Hfits mn edits readers Hm Hl Htc Hrn)
    as (d' & tables' & t & E & Hr).
  destruct (flush_result_inv tables l0 levels d m src st' Hinv Ht Hb mn readers d' tables' t)
    as [H1 H2]; [apply Hm | done | done | done |].
  by exists mn, readers, d', tables', t.
Qed.

(** Nothing to flush. *)
Lemma flush_none (d : Db SM) :
  st_closed (db_state d) = false -> mem_runs (db_state d) = [[]] -> flush d = (Ok tt, d).
Proof.
  intros Ho Hm. unfold flush. rewrite bind_get_state, Ho.
  unfold mem_runs in Hm. cbn [map] in Hm. injection Hm as Hm1 Hm2.
  unfold take_oldest_flushable_memtable.
  apply (f_equal length) in Hm2. rewrite length_map, length_reverse in Hm2 || rewrite length_map, length_rev in Hm2.
  destruct (st_immutables (db_state d)); [|discriminate Hm2].
  by rewrite mt_is_empty_entries, Hm1.
Qed.
End install.
