(* ===== verification/DbCompact.v ===== *)
(** * Running a compaction

    [execute_compaction] and [compact_range] of [src/db.rs]: the watermark,
    the tombstone rule, the trivial move, reading the inputs, writing the
    outputs, the edits of the version, and the removal of the inputs. *)

From Stdlib Require Import Sorting.Sorted.
From stdpp Require Import base list gmap strings sorting.
From S2P Require Import Prelude Key Spec Memtable Batch Env Externals Wal Block Cache Format.
From S2P Require Import Properties Table Reader TableCache Version Options Metrics Compact.
From S2P Require Import Mvcc DbState DbRead DbFlush.

Section compaction.
Context `{X : Externals} `{H : HashOrder} `{N : NumberHashOrder} `{SM : arena_skip_map}.

Definition db_open_table (file : FileMeta) : M (Db SM) SSTableReader :=
  d ← get_state;
  on_table_cache (get_or_open (fm_number file) (table_path d (fm_number file))).

Definition table_entries (file : FileMeta) : M (Db SM) (list entry) :=
  table ← db_open_table file;
  on_rw (entries_with_cache table (fm_number file) true true).

Definition can_drop_tombstones (task : CompactionTask) (version : Version) : bool :=
  negb (existsb (fun file =>
    user_key_overlaps_range file (ct_smallest_user_key task) (ct_largest_user_key task))
    (concat (drop (Z.to_nat (ct_output_level task + 1)) (v_levels version)))).

(** [task.input_files[0]]. *)
Definition first_input (task : CompactionTask) : res FileMeta :=
  match ct_input_files task with f :: _ => Ok f | [] => Panic end.

Definition trivial_move_needs_rewrite (task : CompactionTask) (gc_watermark : u64)
    (drop_tombstones : bool) : M (Db SM) bool :=
  file ← lift (first_input task);
  entries ← table_entries file;
  let compacted_entries := compact_entries entries gc_watermark drop_tombstones in
  mret (negb (len compacted_entries =? len entries)).

Definition write_compaction_output (file_number : u64) (entries : list entry) :
    M (Db SM) (SSTableReader * FileMeta) :=
  d ← get_state;
  let tmp_path := table_tmp_path d file_number in
  let final_path := table_path d file_number in
  _ ← on_env (build_table tmp_path (block_size (db_options d)) (table_compression (db_options d))
        entries);
  install_table tmp_path final_path file_number
    (fun n m => record_compaction_write n (record_sst_write n m)).

Definition write_output (chunk : list entry) : M (Db SM) (SSTableReader * FileMeta) :=
  number ← db_allocate_file_number;
  write_compaction_output number chunk.

(** The workers of [thread::scope]: all of them run, in some order (here that
    of their chunks; another one only permutes the file numbers), and the
    first error in the order of the chunks is returned. *)
Fixpoint write_outputs (chunks : list (list entry)) :
    M (Db SM) (list (SSTableReader * FileMeta)) :=
  match chunks with
  | [] => mret []
  | chunk :: chunks => fun d =>
      let '(r, d) := write_output chunk d in
      let '(rs, d) := write_outputs chunks d in
      match r with
      | Ok output => (fmap (cons output) rs, d)
      | Err e => (Err e, d)
      | Panic => (Err (Corruption "subcompaction worker panicked"), d)
      end
  end.

Definition write_compaction_outputs (entries : list entry) :
    M (Db SM) (list (SSTableReader * FileMeta)) :=
  match entries with
  | [] => mret []
  | _ =>
      d ← get_state;
      let chunks := split_compaction_entries entries (target_file_size_base (db_options d))
        (max_subcompactions (db_options d)) in
      _ ← on_metrics (record_subcompaction_tasks (len chunks));
      match chunks with
      | [chunk] => output ← write_output chunk; mret [output]
      | _ => write_outputs chunks
      end
  end.

Definition refresh_tables_from_version : M (Db SM) unit :=
  d ← get_state;
  tables ← on_table_cache (open_version_tables (db_path d) (vs_current (db_versions d)));
  modify_state (with_tables tables.1 tables.2).

Definition delete_obsolete_file (number : u64) : M (Db SM) unit := fun d =>
  match on_env (remove_file (table_path d number)) d with
  | (Err (Io NotFound), d) => (Ok tt, d)
  | r => r
  end.

Definition delete_obsolete_files (numbers : list u64) : M (Db SM) unit :=
  for_each numbers (fun number _ => delete_obsolete_file number) tt.

(** The level a file of the task is recorded on. *)
Definition input_level_of (task : CompactionTask) (file : FileMeta) : usize :=
  if existsb (fun input => fm_number input =? fm_number file) (ct_input_files task)
  then ct_input_level task else ct_output_level task.

Definition read_inputs (task : CompactionTask) : M (Db SM) (list entry) :=
  for_each (all_input_files task) (fun file entries =>
    _ ← on_metrics (record_compaction_read (fm_file_size file));
    es ← table_entries file;
    mret (entries ++ es)) [].

Definition apply_compaction (task : CompactionTask) (outputs : list (SSTableReader * FileMeta)) :
    M (Db SM) unit :=
  _ ← for_each (all_input_files task) (fun file _ =>
        db_log_and_apply (DeleteFile (input_level_of task file) (fm_number file))) tt;
  for_each outputs (fun output _ => db_log_and_apply (AddFile (ct_output_level task) output.2)) tt.

Definition execute_compaction (task : CompactionTask) : M (Db SM) bool :=
  match ct_input_files task with
  | [] => mret false
  | meta :: _ =>
      d ← get_state;
      let gc_watermark :=
        default (st_last_sequence (db_state d)) (watermark_oldest (db_snapshots d)) in
      let drop_tombstones := can_drop_tombstones task (vs_current (db_versions d)) in
      trivial ←
        (if is_trivial_move task
         then rewrite ← trivial_move_needs_rewrite task gc_watermark drop_tombstones;
              mret (negb rewrite)
         else mret false);
      if (trivial : bool) then
        _ ← db_log_and_apply (DeleteFile (ct_input_level task) (fm_number meta));
        _ ← db_log_and_apply (AddFile (ct_output_level task) meta);
        _ ← refresh_tables_from_version;
        mret true
      else
        entries ← read_inputs task;
        let output_entries := compact_entries entries gc_watermark drop_tombstones in
        outputs ← write_compaction_outputs output_entries;
        _ ← apply_compaction task outputs;
        _ ← refresh_tables_from_version;
        _ ← delete_obsolete_files (map fm_number (all_input_files task));
        mret true
  end.

Definition compact_range (lower upper : Bound) : M (Db SM) unit :=
  d ← get_state;
  task ← lift (pick_manual (vs_current (db_versions d)) lower upper);
  match task with
  | Some task => _ ← execute_compaction task; mret tt
  | None => mret tt
  end.
End compaction.
