(* ===== verification/DbCompactIo.v ===== *)
(** * The input and output of a compaction

    Reading the tables of a task, writing the output tables, logging the edits
    and removing the inputs, on a file system that does not fail. *)

From Stdlib Require Import Sorting.Sorted.
From stdpp Require Import base list gmap strings sorting.
From S2P Require Import Prelude Key Spec Memtable Coding Batch Env Externals Wal Block Cache.
From S2P Require Import Format Properties Table Reader TableCache Version Options Metrics.
From S2P Require Import Compact Mvcc DbState DbRead DbMem DbFlush DbInv DbFlushOk DbCompact.

Section compact_io.
Context `{X : Externals} `{HX : !ExternalsOk X} `{H : HashOrder} `{N : NumberHashOrder}
  `{SM : arena_skip_map} `{!SkipMapOk SM}.

(** ** Reading the inputs *)

(** [d'] is [d] with other caches and counters, which still agree with the
    tables and readers. *)
Definition peeked (tables : Tables) (readers : Z -> option SSTableReader) (d d' : Db SM) : Prop :=
  exists c tc m, d' = io_update (db_wal d) (db_versions d) c tc m (db_fs d) d /\
    rw_inv tables (mkRW (db_fs d) c) /\ tables_agree readers tc.

Lemma peeked_refl tables readers (d : Db SM) :
  rw_inv tables (db_rw d) -> tables_agree readers (db_table_cache d) -> peeked tables readers d d.
Proof. intros Hw Ht. exists (db_block_cache d), (db_table_cache d), (db_metrics d). by destruct d. Qed.

Lemma peeked_trans tables readers d1 d2 d3 :
  peeked tables readers d1 d2 -> peeked tables readers d2 d3 -> peeked tables readers d1 d3.
Proof. intros (c & tc & m & -> & _) (c' & tc' & m' & -> & ?). by exists c', tc', m'. Qed.

Lemma peeked_inv tables readers d d' :
  peeked tables readers d d' -> rw_inv tables (db_rw d') /\ tables_agree readers (db_table_cache d').
Proof. by intros (c & tc & m & -> & ? & ?). Qed.

(** A table the state refers to, as its number and its path find it. *)
Record open_table_of (tables : Tables) (readers : Z -> option SSTableReader) (d : Db SM) (t : TableRef)
    (es : list entry) : Prop := mkOpenTable {
  ot_holds : table_holds tables t es;
  ot_reader : readers (fm_number t.1) = Some t.2;
  ot_path : sr_path t.2 = table_path d (fm_number t.1)
}.

Lemma table_entries_ok tables readers (d : Db SM) t es :
  open_table_of tables readers d t es -> rw_inv tables (db_rw d) ->
  tables_agree readers (db_table_cache d) ->
  exists d', table_entries t.1 d = (Ok es, d') /\ peeked tables readers d d'.
Proof.
  intros [Hh Hr Hp] Hw Htc. pose proof Hw as [[Ho Hfs] _]. cbn [db_rw rw_fs] in Ho, Hfs.
  destruct (th_layout _ _ _ Hh) as (comp & chunks & path & Hc & Hf & <- & Er & Hfile & Hb).
  rewrite Er in Hp. cbn [table_reader sr_path] in Hp. subst path. rewrite <- Hfs in Hfile.
  destruct (get_or_open_ok readers _ (table_path d (fm_number t.1)) t.2 (db_table_cache d) (db_fs d) Htc Hr)
    as (tc & Eo & Htc'); [rewrite Er; by apply sst_open_ok|].
  destruct (entries_with_cache_ok comp Hc tables chunks Hf (table_path d (fm_number t.1))
    (fm_number t.1) true true (db_rw d) Hfile Hw ltac:(done)) as ([fs c] & E & Hw' & Hfs').
  cbn [rw_fs db_rw] in Hfs'. subst fs.
  exists (io_update (db_wal d) (db_versions d) c tc (db_metrics d) (db_fs d) d).
  split; [|by exists c, tc, (db_metrics d)].
  unfold table_entries, db_open_table. rewrite bind_assoc, bind_get_state.
  erewrite bind_ok by (unfold on_table_cache, zoom; rewrite Eo; reflexivity).
  unfold on_rw, zoom. rewrite Er.
  change (mkRW _ _) with (db_rw d). rewrite E. reflexivity.
Qed.

(** The tables of a task. *)
Lemma read_inputs_ok tables readers (d : Db SM) ts rs acc :
  Forall2 (open_table_of tables readers d) ts rs -> rw_inv tables (db_rw d) ->
  tables_agree readers (db_table_cache d) ->
  exists d', for_each ts.*1 (fun file entries =>
      _ ← on_metrics (record_compaction_read (fm_file_size file));
      es ← table_entries file;
      mret (entries ++ es)) acc d = (Ok (acc ++ concat rs), d') /\ peeked tables readers d d'.
Proof.
  revert rs d acc. induction ts as [|t ts IH]; intros rs d acc Hts Hw Htc.
  { apply Forall2_nil_inv_l in Hts as ->. exists d. rewrite app_nil_r. split; [done | by apply peeked_refl]. }
  apply Forall2_cons_inv_l in Hts as (es & rs' & Ht & Hts & ->).
  set (d1 := set_metrics (record_compaction_read (fm_file_size t.1) (db_metrics d)) d).
  assert (peeked tables readers d d1) as P1 by (by exists (db_block_cache d), (db_table_cache d), (db_metrics d1)).
  destruct (table_entries_ok tables readers d1 t es) as (d2 & E2 & P2); [by destruct Ht | done | done |].
  pose proof (peeked_trans _ _ _ _ _ P1 P2) as P12. destruct (peeked_inv _ _ _ _ P12) as [Hw2 Htc2].
  destruct (IH rs' d2 (acc ++ es)) as (d3 & E3 & P3); [|done|done|].
  { destruct P12 as (c & tc & m & -> & _). eapply Forall2_impl; [exact Hts|]. by intros t' es' []. }
  exists d3. split; [|exact (peeked_trans _ _ _ _ _ P12 P3)].
  cbn [fmap list_fmap for_each]. rewrite bind_assoc. erewrite bind_ok by exact (eq_refl (Ok tt, d1)).
  rewrite bind_assoc, (bind_ok _ _ _ _ _ E2), bind_ret, E3. cbn [concat]. by rewrite app_assoc.
Qed.

(** ** Writing the outputs *)

(** The files of [n] new tables. *)
Fixpoint new_paths (d : Db SM) (k : u64) (n : nat) : list string :=
  match n with
  | O => []
  | S n => table_path d k :: table_tmp_path d k :: new_paths d (k + 1) n
  end.

Lemma new_paths_elem (d : Db SM) k n p :
  p ∈ new_paths d k n <-> exists i, k <= i < k + Z.of_nat n /\ (p = table_path d i \/ p = table_tmp_path d i).
Proof.
  revert k. induction n as [|n IH]; intros k; cbn [new_paths].
  - rewrite elem_of_nil. split; [done|]. intros (i & ? & _). lia.
  - rewrite !elem_of_cons, IH. split.
    + intros [-> | [-> | (i & Hi & Hp)]]; [exists k | exists k | exists i]; (split; [lia | auto]).
    + intros (i & Hi & Hp). destruct (decide (i = k)) as [->|Hne]; [naive_solver|].
      right. right. exists i. split; [lia | done].
Qed.

Lemma table_not_new (d : Db SM) k n i :
  u64_ok i -> u64_ok k -> k + Z.of_nat n < 2 ^ 64 -> ~ k <= i < k + Z.of_nat n ->
  table_path d i ∉ new_paths d k n.
Proof.
  intros Hi Hk Hn Hout (j & Hj & [E|E])%new_paths_elem.
  - apply path_join_inj, table_file_name_inj in E; [lia | done | unfold u64_ok in *; lia].
  - revert E. apply table_tmp_ne.
Qed.

Lemma wal_not_new (d : Db SM) k n i : wal_path d i ∉ new_paths d k n.
Proof.
  intros (j & Hj & [E|E])%new_paths_elem; revert E; [apply not_eq_sym, table_wal_ne | apply wal_tmp_ne].
Qed.

(** [d'] is [d] with the files of the tables [k], ..., [k + n - 1]. *)
Record grown (tables tables' : Tables) (readers readers' : Z -> option SSTableReader) (d d' : Db SM)
    (k : u64) (n : nat) : Prop := mkGrown {
  gr_state : exists c tc m fs', d' = io_update (db_wal d)
    (vs_with_numbers (k + Z.of_nat n) (vs_last_sequence (db_versions d)) (vs_log_number (db_versions d))
      (db_versions d)) c tc m fs' d;
  gr_files : same_files_but (new_paths d k n) (db_fs d) (db_fs d');
  gr_rw : rw_inv tables' (db_rw d');
  gr_readers : tables_agree readers' (db_table_cache d');
  gr_old : forall i, ~ k <= i < k + Z.of_nat n -> tables' i = tables i /\ readers' i = readers i
}.

Lemma grown_open tables tables' readers readers' (d d' : Db SM) k n t es :
  open_table_of tables readers d t es -> rw_inv tables (db_rw d) ->
  grown tables tables' readers readers' d d' k n ->
  u64_ok k -> k + Z.of_nat n < 2 ^ 64 -> 0 <= fm_number t.1 < k ->
  open_table_of tables' readers' d' t es.
Proof.
  intros [Hh Hr Hp] [[_ Hfs] _] [Hst Hf [[_ Hfs'] _] _ Ho] Hk Hn Hi. cbn [db_rw rw_fs] in *.
  destruct (Ho (fm_number t.1)) as [Ho1 Ho2]; [lia|]. constructor.
  - eapply table_holds_frame; [exact Hh | | exact Ho1]. rewrite Hp, <- Hfs, <- Hfs'.
    apply (same_files_at _ _ _ _ Hf), table_not_new; unfold u64_ok in *; lia.
  - by rewrite Ho2.
  - destruct Hst as (c & tc & m & fs' & ->). exact Hp.
Qed.

(** An output of a compaction. *)
Definition output_of (tables : Tables) (readers : Z -> option SSTableReader) (d : Db SM)
    (o : SSTableReader * FileMeta) (es : list entry) : Prop :=
  open_table_of tables readers d (o.2, o.1) es /\ meta_describes o.2 (fm_number o.2) es.

(** What is needed to write [es] as a table. *)
Definition writable_table (options : Options) (es : list entry) : Prop :=
  es <> [] /\ sorted_entries es /\ Forall entry_fits es /\ table_bounded options es.

Section write_output.
Context (tables : Tables) (readers : Z -> option SSTableReader) (d : Db SM).
Let k := vs_next_file_number (db_versions d).
Context (Hc : compression_succeeds (table_compression (db_options d))) (Hw : rw_inv tables (db_rw d))
  (Htc : tables_agree readers (db_table_cache d)).
Context (Hk : 0 < k) (Hfree : forall i, k <= i -> (forall off, tables i off = None) /\ readers i = None).

Lemma write_output_ok es :
  writable_table (db_options d) es -> k + 1 < 2 ^ 64 ->
  exists o d' tables', write_output es d = (Ok o, d') /\
    grown tables tables' readers (readers_with readers k o.1) d d' k 1 /\
    output_of tables' (readers_with readers k o.1) d' o es /\ fm_number o.2 = k.
Proof.
  intros (Hne & Hs & He & Hb) Hlt. destruct (Hfree k ltac:(lia)) as [Hfb Hfr].
  set (vs1 := vs_with_numbers (k + 1) (vs_last_sequence (db_versions d)) (vs_log_number (db_versions d))
    (db_versions d)).
  set (d1 := set_versions vs1 (db_fs d) d).
  assert (db_allocate_file_number d = (Ok k, d1)) as Ea.
  { unfold db_allocate_file_number, allocate_file_number. fold k. by rewrite wrap_small by lia. }
  destruct (build_install_ok tables d1 k es readers
    (fun n m => record_compaction_write n (record_sst_write n m)) Hc Hw Hfb Htc Hfr Hne Hs He Hb)
    as (meta & reader & c & tc & mt & fs' & tables' & E & [Hf2 Hw2 Hb2 Htc2 Hh Hmd Hrp]).
  pose proof (md_number _ _ _ Hmd) as Hnum.
  exists (reader, meta), (io_update (db_wal d1) vs1 c tc mt fs' d1), tables'. split; [|split; [|split]].
  - unfold write_output. rewrite (bind_ok _ _ _ _ _ Ea). unfold write_compaction_output.
    rewrite bind_get_state. exact E.
  - constructor; cbn [fst].
    + by exists c, tc, mt, fs'.
    + cbn [new_paths]. exact Hf2.
    + exact Hw2.
    + exact Htc2.
    + intros i Hi. split; [apply Hb2; lia|]. unfold readers_with. rewrite decide_False; [done | lia].
  - split; [constructor|]; cbn [fst snd].
    + exact Hh.
    + rewrite Hnum. unfold readers_with. by rewrite decide_True.
    + by rewrite Hnum.
    + by rewrite Hnum.
  - exact Hnum.
Qed.
End write_output.

Lemma new_paths_same (d d' : Db SM) k n : db_path d' = db_path d -> new_paths d' k n = new_paths d k n.
Proof.
  intros E. revert k. induction n as [|n IH]; intros k; [done|]. cbn [new_paths].
  unfold table_path, table_tmp_path. by rewrite E, IH.
Qed.

Lemma new_paths_app (d : Db SM) k n m : new_paths d k (n + m) = new_paths d k n ++ new_paths d (k + Z.of_nat n) m.
Proof.
  revert k. induction n as [|n IH]; intros k; cbn [new_paths Nat.add app].
  - by rewrite Z.add_0_r.
  - rewrite IH. do 4 f_equal. lia.
Qed.

Lemma grown_refl tables readers (d : Db SM) :
  rw_inv tables (db_rw d) -> tables_agree readers (db_table_cache d) ->
  grown tables tables readers readers d d (vs_next_file_number (db_versions d)) 0.
Proof.
  intros Hw Htc. constructor; try done.
  exists (db_block_cache d), (db_table_cache d), (db_metrics d), (db_fs d).
  rewrite Z.add_0_r. by destruct d as [? ? ? [] ? ? ? ? ? ? ? ?].
Qed.

Lemma grown_trans tables1 tables2 tables3 readers1 readers2 readers3 (d1 d2 d3 : Db SM) k n m :
  grown tables1 tables2 readers1 readers2 d1 d2 k n ->
  grown tables2 tables3 readers2 readers3 d2 d3 (k + Z.of_nat n) m ->
  grown tables1 tables3 readers1 readers3 d1 d3 k (n + m).
Proof.
  intros [(c & tc & mt & fs & ->) F1 _ _ O1] [(c' & tc' & mt' & fs' & ->) F2 W2 T2 O2].
  constructor; [|rewrite new_paths_app | exact W2 | exact T2 |].
  - exists c', tc', mt', fs'. cbn. unfold io_update, vs_with_numbers. cbn. do 2 f_equal. lia.
  - rewrite (new_paths_same d1) in F2 by done. eapply same_files_trans.
    + eapply same_files_weaken; [|exact F1]. intros p Hp. apply elem_of_app. by left.
    + eapply same_files_weaken; [|exact F2]. intros p Hp. apply elem_of_app. by right.
  - intros i Hi. destruct (O1 i ltac:(lia)) as [<- <-]. apply O2. lia.
Qed.

Lemma write_outputs_ok chunks tables readers (d : Db SM) :
  let k := vs_next_file_number (db_versions d) in
  compression_succeeds (table_compression (db_options d)) -> rw_inv tables (db_rw d) ->
  tables_agree readers (db_table_cache d) -> 0 < k ->
  (forall i, k <= i -> (forall off, tables i off = None) /\ readers i = None) ->
  Forall (writable_table (db_options d)) chunks -> k + len chunks < 2 ^ 64 ->
  exists os d' tables' readers', write_outputs chunks d = (Ok os, d') /\
    grown tables tables' readers readers' d d' k (length chunks) /\
    Forall2 (output_of tables' readers' d') os chunks /\
    map (fun o => fm_number o.2) os = seqZ k (len chunks).
Proof.
  revert tables readers d. induction chunks as [|chunk chunks IH]; intros tables readers d k Hc Hw Htc Hk Hfree Hch Hlt.
  { exists [], d, tables, readers. split; [done|]. split; [by apply grown_refl|]. by split. }
  apply Forall_cons in Hch as [Hch1 Hch]. rewrite len_cons in Hlt. pose proof (len_nonneg chunks).
  destruct (write_output_ok tables readers d Hc Hw Htc Hk Hfree chunk Hch1 ltac:(fold k; lia))
    as (o & d1 & tables1 & E1 & G1 & Ho & Hnum). fold k in G1, Hnum.
  set (readers1 := readers_with readers k o.1) in *.
  pose proof (gr_state _ _ _ _ _ _ _ _ G1) as (c & tc & mt & fs & Ed1).
  assert (vs_next_file_number (db_versions d1) = k + 1) as Ek by by rewrite Ed1.
  assert (db_options d1 = db_options d) as Eo by by rewrite Ed1.
  destruct (IH tables1 readers1 d1) as (os & d2 & tables2 & readers2 & E2 & G2 & Hos & Hnums);
    rewrite ?Ek, ?Eo; [done | apply G1 | apply G1 | lia | | done | lia |].
  { intros i Hi. destruct (gr_old _ _ _ _ _ _ _ _ G1 i) as [-> ->]; [lia|]. apply Hfree. lia. }
  rewrite Ek in G2, Hnums.
  exists (o :: os), d2, tables2, readers2. split; [|split; [|split]].
  - cbn [write_outputs]. by rewrite E1, E2.
  - exact (grown_trans _ _ _ _ _ _ _ _ _ _ 1 (length chunks) G1 G2).
  - constructor; [|exact Hos]. destruct Ho as [Ho Hmd]. split; [|exact Hmd].
    eapply grown_open; [exact Ho | apply G1 | exact G2 | unfold u64_ok; lia | unfold len in *; lia |].
    cbn [fst]. rewrite Hnum. lia.
  - cbn [map]. rewrite Hnum, Hnums, len_cons.
    rewrite (seqZ_cons k) by lia. do 2 f_equal; lia.
Qed.

Lemma grown_metrics tables tables' readers readers' (d d' : Db SM) m k n :
  grown tables tables' readers readers' (set_metrics m d) d' k n ->
  grown tables tables' readers readers' d d' k n.
Proof.
  intros [(c & tc & mt & fs & ->) F W T Old]. constructor; [by exists c, tc, mt, fs | | done..].
  rewrite <- (new_paths_same d (set_metrics m d)) by done. exact F.
Qed.

(** How the output is cut. *)
Definition output_chunks (options : Options) (es : list entry) : list (list entry) :=
  split_compaction_entries es (target_file_size_base options) (max_subcompactions options).

Lemma write_compaction_outputs_ok es tables readers (d : Db SM) :
  let k := vs_next_file_number (db_versions d) in
  let chunks := output_chunks (db_options d) es in
  compression_succeeds (table_compression (db_options d)) -> rw_inv tables (db_rw d) ->
  tables_agree readers (db_table_cache d) -> 0 < k ->
  (forall i, k <= i -> (forall off, tables i off = None) /\ readers i = None) ->
  Forall (writable_table (db_options d)) chunks -> k + len chunks < 2 ^ 64 ->
  exists os d' tables' readers', write_compaction_outputs es d = (Ok os, d') /\
    grown tables tables' readers readers' d d' k (length chunks) /\
    Forall2 (output_of tables' readers' d') os chunks /\
    map (fun o => fm_number o.2) os = seqZ k (len chunks).
Proof.
  intros k chunks Hc Hw Htc Hk Hfree Hch Hlt. unfold write_compaction_outputs.
  destruct es as [|e es].
  { exists [], d, tables, readers. split; [done|]. split; [by apply grown_refl|]. by split. }
  rewrite bind_get_state. cbv zeta. fold (output_chunks (db_options d) (e :: es)). fold chunks.
  set (d0 := set_metrics (record_subcompaction_tasks (len chunks) (db_metrics d)) d).
  destruct (write_outputs_ok chunks tables readers d0 Hc Hw Htc Hk Hfree Hch Hlt)
    as (os & d' & tables' & readers' & E & G & Hos & Hn).
  exists os, d', tables', readers'. split; [|split; [by eapply grown_metrics | by split]].
  erewrite bind_ok by exact (eq_refl (Ok tt, d0)).
  destruct chunks as [|chunk [|chunk' chunks']]; [exact E | | exact E].
  cbn [write_outputs] in E. unfold mbind, M_bind. destruct (write_output chunk d0) as [[o|e'|] d1]; [|done..].
  by injection E as <- <-.
Qed.

(** ** Logging the edits *)

Definition log_edits (edits : list VersionEdit) : M (Db SM) unit :=
  for_each edits (fun e _ => db_log_and_apply e) tt.

Lemma log_edits_ok edits n edits0 (d : Db SM) vs1 :
  manifest_inv (db_path d) (max_levels (db_options d)) n edits0 (db_versions d) (db_fs d) ->
  fs_oracle (db_fs d) = [] -> Forall edit_ok edits ->
  replay_edits edits (db_versions d) = (Ok tt, vs1) ->
  exists vs' fs', log_edits edits d = (Ok tt, set_versions vs' fs' d) /\ same_state vs' vs1 /\
    vs_next_file_number vs' = vs_next_file_number vs1 /\
    same_files_but [manifest_path d n] (db_fs d) fs' /\
    manifest_inv (db_path d) (max_levels (db_options d)) n (edits0 ++ edits) vs' fs'.
Proof.
  intros Hm Ho He. revert edits0 d vs1 Hm Ho. induction He as [|e edits He Hes IH]; intros edits0 d vs1 Hm Ho E.
  { injection E as <-. exists (db_versions d), (db_fs d). split; [by destruct d|].
    split; [done|]. split; [done|]. split; [apply same_files_refl | by rewrite app_nil_r]. }
  unfold replay_edits in E. cbn [for_each] in E. apply bind_inv in E as ([] & vs2 & E1 & E2).
  destruct (db_log_and_apply_ok n edits0 e d vs2 Hm Ho He E1) as (w & fs1 & L1 & F1 & M1).
  set (d1 := set_versions (vs_with_writer w vs2) fs1 d) in *.
  assert (fs_oracle fs1 = []) as Ho1 by (destruct F1 as [-> _]; done).
  destruct (IH (edits0 ++ [e]) d1 _ M1 Ho1 (replay_writer edits vs2 w vs1 E2)) as (vs' & fs' & L & Hs & Hn & F & M).
  exists vs', fs'. split; [|split; [|split; [exact Hn|split; [by eapply same_files_trans|]]]].
  - unfold log_edits. cbn [for_each]. by rewrite (bind_ok _ _ _ _ _ L1).
  - exact Hs.
  - by rewrite <- app_assoc in M.
Qed.

Lemma log_edits_app a b (d : Db SM) : log_edits (a ++ b) d = (_ ← log_edits a; log_edits b) d.
Proof.
  unfold log_edits. revert d. induction a as [|e a IH]; intros d; [done|]. cbn [app for_each].
  rewrite bind_assoc. destruct (db_log_and_apply e d) as [[[]|x|] d1] eqn:E.
  - rewrite !(bind_ok _ _ _ _ _ E). apply IH.
  - by rewrite !(bind_err _ _ _ _ _ E).
  - unfold mbind, M_bind. by rewrite E.
Qed.

Lemma log_edits_map {A} (f : A -> VersionEdit) (l : list A) (d : Db SM) :
  for_each l (fun a _ => db_log_and_apply (f a)) tt d = log_edits (map f l) d.
Proof.
  unfold log_edits. revert d. induction l as [|a l IH]; intros d; [done|]. cbn [map for_each].
  unfold mbind, M_bind. destruct (db_log_and_apply (f a) d) as [[[]|x|] d1]; [apply IH | done..].
Qed.

(** The edits of a compaction. *)
Definition task_deletes (task : CompactionTask) : list (Z * Z) :=
  map (fun f => (input_level_of task f, fm_number f)) (all_input_files task).

Definition task_edits (task : CompactionTask) (outputs : list (SSTableReader * FileMeta)) :
    list VersionEdit :=
  map delete_edit (task_deletes task) ++ map (AddFile (ct_output_level task)) outputs.*2.

Lemma apply_compaction_edits task outputs (d : Db SM) :
  apply_compaction task outputs d = log_edits (task_edits task outputs) d.
Proof.
  unfold apply_compaction, task_edits, task_deletes. rewrite log_edits_app.
  unfold mbind, M_bind. rewrite log_edits_map. rewrite map_map. cbn [delete_edit fst snd].
  unfold delete_edit. cbn [fst snd].
  destruct (log_edits _ d) as [[[]|x|] d1]; [|done..]. rewrite log_edits_map.
  f_equal. by rewrite <- (map_map snd) .
Qed.

(** ** Removing the inputs *)

Lemma delete_obsolete_files_ok ns (d : Db SM) :
  fs_oracle (db_fs d) = [] ->
  exists fs', delete_obsolete_files ns d = (Ok tt, set_wal (db_wal d) fs' d) /\
    same_files_but (map (table_path d) ns) (db_fs d) fs'.
Proof.
  revert d. induction ns as [|n ns IH]; intros d Ho.
  { exists (db_fs d). split; [by destruct d | apply same_files_refl]. }
  assert (exists fs1, delete_obsolete_file n d = (Ok tt, set_wal (db_wal d) fs1 d) /\
    same_files_but [table_path d n] (db_fs d) fs1) as (fs1 & E1 & F1).
  { unfold delete_obsolete_file, on_env, zoom, remove_file. rewrite fallible_ok by done.
    destruct (fs_files (db_fs d) !! table_path d n) as [data|].
    - eexists. split; [reflexivity|]. split; [done|]. split; [done|]. intros p Hp. cbn.
      apply lookup_delete_ne. intros <-. apply Hp. by left.
    - exists (db_fs d). split; [done | apply same_files_refl]. }
  assert (fs_oracle fs1 = []) as Ho1 by by destruct F1 as [-> _].
  destruct (IH (set_wal (db_wal d) fs1 d) Ho1) as (fs2 & E2 & F2).
  exists fs2. split.
  - unfold delete_obsolete_files in *. cbn [for_each]. by rewrite (bind_ok _ _ _ _ _ E1), E2.
  - cbn [map]. eapply same_files_trans; eapply same_files_weaken; [|exact F1| |exact F2].
    + intros p ->%list_elem_of_singleton. by left.
    + intros p Hp. by right.
Qed.
End compact_io.
