(* ===== verification/DbLevels.v ===== *)
(** * The tables of a state, level by level

    Each table with the entries it holds, and the two neighbouring levels that
    a compaction works on; what replacing some tables of the two by new ones
    does to the order of the runs and to the reads. *)

From Stdlib Require Import Sorting.Sorted.
From stdpp Require Import base list gmap strings sorting.
From S2P Require Import Prelude Key Spec Memtable Batch Env Externals Wal Block Cache Format.
From S2P Require Import Properties Table Reader TableCache Version Options Metrics Compact.
From S2P Require Import Mvcc DbState DbRead DbMem DbFlush DbInv.

(** ** Replacing runs *)

(** No user key in common. *)
Definition apart (l k : list entry) : Prop :=
  forall e e', e ∈ l -> e' ∈ k -> user_key e.1 <> user_key e'.1.

Lemma apart_newer l k : apart l k -> run_newer l k.
Proof. intros Ha key e e' He He' <- Hk. by destruct (Ha e e' He He'). Qed.

Lemma run_newer_sub_l l l' k : run_newer l k -> l' ⊆ l -> run_newer l' k.
Proof. intros Hn Hl key e e' He. apply Hn; auto. Qed.

Lemma run_newer_sub_r l k k' : run_newer l k -> k' ⊆ k -> run_newer l k'.
Proof. intros Hn Hk key e e' He He'. apply Hn; auto. Qed.

Lemma run_newer_app_l l l' k : run_newer (l ++ l') k <-> run_newer l k /\ run_newer l' k.
Proof. unfold run_newer, newer_than. setoid_rewrite elem_of_app. naive_solver. Qed.

Lemma run_newer_app_r l k k' : run_newer l (k ++ k') <-> run_newer l k /\ run_newer l k'.
Proof. unfold run_newer, newer_than. setoid_rewrite elem_of_app. naive_solver. Qed.

Lemma run_newer_nil_l k : run_newer [] k.
Proof. intros key e e' He%elem_of_nil. done. Qed.

Lemma run_newer_concats rs rs' :
  (forall r r', r ∈ rs -> r' ∈ rs' -> run_newer r r') <-> run_newer (concat rs) (concat rs').
Proof.
  unfold run_newer, newer_than. split.
  - intros Hr key e e' (r & He & Hin)%elem_of_concat (r' & He' & Hin')%elem_of_concat.
    by apply (Hr r r').
  - intros Hr r r' Hin Hin' key e e' He He'. apply Hr; apply elem_of_concat; [by exists r | by exists r'].
Qed.

Lemma runs_app rs rs' :
  StronglySorted run_newer (rs ++ rs') <->
  StronglySorted run_newer rs /\ StronglySorted run_newer rs' /\ run_newer (concat rs) (concat rs').
Proof. rewrite StronglySorted_app, <- run_newer_concats. tauto. Qed.

Lemma runs_cons r rs :
  StronglySorted run_newer (r :: rs) <-> StronglySorted run_newer rs /\ run_newer r (concat rs).
Proof.
  change (r :: rs) with ([r] ++ rs). rewrite runs_app. cbn [concat]. rewrite app_nil_r.
  split; [tauto|]. intros [??]. split; [by repeat constructor | done].
Qed.

Lemma runs_split A U T B :
  StronglySorted run_newer (A ++ U ++ T :: B) <->
  (StronglySorted run_newer A /\ StronglySorted run_newer U /\ StronglySorted run_newer B) /\
  (run_newer (concat A) (concat U) /\ run_newer (concat A) T /\ run_newer (concat A) (concat B)) /\
  (run_newer (concat U) T /\ run_newer (concat U) (concat B)) /\ run_newer T (concat B).
Proof.
  rewrite !runs_app, runs_cons, !concat_app. cbn [concat].
  rewrite (run_newer_app_r (concat A)), !(run_newer_app_r _ T). tauto.
Qed.

(** A compaction takes [moved] out of the runs [U] and [over] out of the run [T]
    below them, and puts [out] into [T]; [A] is above, [B] below. *)
Section replace.
Context (A U U' B : list (list entry)) (T T' moved over rest out : list entry) (wm : u64) (d : bool).
Context (Hord : StronglySorted run_newer (A ++ U ++ T :: B)) (HU's : StronglySorted run_newer U')
  (HU : concat U ≡ₚ moved ++ concat U') (HT : T ≡ₚ over ++ rest).
Let es := moved ++ over.
Context (Hout : out ≡ₚ compact_entries es wm d) (HT' : T' ≡ₚ out ++ rest)
  (Hcons : consistent (concat (A ++ U ++ T :: B)))
  (Hkept : apart (concat U') moved) (Hrest : apart es rest)
  (Hdrop : d = true -> apart es (concat B)).

Lemma replaced_perm : concat (A ++ U ++ T :: B) ≡ₚ (concat A ++ concat U') ++ es ++ rest ++ concat B.
Proof.
  rewrite !concat_app. cbn [concat]. rewrite HU, HT. unfold es. solve_Permutation.
Qed.

Lemma replaced_perm' : concat (A ++ U' ++ T' :: B) ≡ₚ (concat A ++ concat U') ++ out ++ rest ++ concat B.
Proof. rewrite !concat_app. cbn [concat]. rewrite HT'. solve_Permutation. Qed.

Lemma es_consistent : consistent es.
Proof.
  intros e e' He He'. apply Hcons; rewrite replaced_perm, !elem_of_app; auto.
Qed.

Lemma out_sub : out ⊆ es.
Proof. intros e He. rewrite Hout in He. apply compact_elem in He as [He _]; [done | apply es_consistent]. Qed.

Lemma replaced_sub : concat (A ++ U' ++ T' :: B) ⊆ concat (A ++ U ++ T :: B).
Proof.
  intros e. rewrite replaced_perm, replaced_perm', !elem_of_app. pose proof (out_sub e).
  unfold es in *. rewrite elem_of_app in *. tauto.
Qed.

Lemma upper_sub : concat U' ⊆ concat U /\ moved ⊆ concat U.
Proof. split; intros e He; rewrite HU, elem_of_app; auto. Qed.

Lemma target_sub : over ⊆ T /\ rest ⊆ T.
Proof. split; intros e He; rewrite HT, elem_of_app; auto. Qed.

Lemma newer_target l : run_newer l moved -> run_newer l T -> run_newer l (es ++ rest).
Proof.
  intros H1 H2. unfold es. rewrite !run_newer_app_r. destruct target_sub as [SO SR].
  split; [split; [done|]|]; by eapply run_newer_sub_r.
Qed.

Lemma older_target k : run_newer moved k -> run_newer T k -> run_newer (es ++ rest) k.
Proof.
  intros H1 H2. unfold es. rewrite !run_newer_app_l. destruct target_sub as [SO SR].
  split; [split; [done|]|]; by eapply run_newer_sub_l.
Qed.

Lemma new_target_sub : T' ⊆ es ++ rest.
Proof. intros e. rewrite HT', !elem_of_app. intros [He%out_sub|?]; auto. Qed.

Lemma replaced_order : StronglySorted run_newer (A ++ U' ++ T' :: B).
Proof.
  pose proof (proj1 (runs_split _ _ _ _) Hord) as ((HA & _ & HB) & (HAU & HAT & HAB) & (HUT & HUB) & HTB).
  destruct upper_sub as [SU SM]. pose proof new_target_sub as ST.
  apply runs_split. split; [done|]. split; [split; [|split; [|done]]|split; [split|]].
  - exact (run_newer_sub_r _ _ _ HAU SU).
  - eapply run_newer_sub_r; [|exact ST]. apply newer_target; [|exact HAT].
    exact (run_newer_sub_r _ _ _ HAU SM).
  - eapply run_newer_sub_r; [|exact ST]. apply newer_target; [by apply apart_newer|].
    exact (run_newer_sub_l _ _ _ HUT SU).
  - exact (run_newer_sub_l _ _ _ HUB SU).
  - eapply run_newer_sub_l; [|exact ST]. apply older_target; [|exact HTB].
    exact (run_newer_sub_l _ _ _ HUB SM).
Qed.

(** Reads at or above the watermark see the same. *)
Lemma replaced_reads key s :
  wm <= s ->
  live key s (concat (A ++ U' ++ T' :: B)) = live key s (concat (A ++ U ++ T :: B)).
Proof.
  intros Hs.
  assert (consistent (concat (A ++ U' ++ T' :: B))) as Hcons'.
  { intros e e' He He'. apply Hcons; by apply replaced_sub. }
  unfold live. rewrite (newest_perm key s _ _ Hcons' replaced_perm').
  rewrite (newest_perm key s _ _ Hcons replaced_perm).
  assert (consistent ((concat A ++ concat U') ++ es ++ rest ++ concat B)) as Hc
    by by eapply consistent_perm; [apply replaced_perm|].
  assert (newest key s ((concat A ++ concat U') ++ out ++ rest ++ concat B)
    = newest key s ((concat A ++ concat U') ++ compact_entries es wm d ++ rest ++ concat B)) as ->.
  { apply newest_perm; [|by rewrite Hout]. eapply consistent_perm; [apply replaced_perm'|exact Hcons']. }
  pose proof (proj1 (runs_split _ _ _ _) Hord) as (_ & (HAU & HAT & HAB) & (HUT & HUB) & HTB).
  destruct upper_sub as [SU SM]. apply compaction_live; [exact Hc | | | | exact Hs]; clear Hc Hcons'.
  - assert (run_newer (concat A ++ concat U') ((es ++ rest) ++ concat B)) as Hn
      by (rewrite run_newer_app_l, !(run_newer_app_r _ (es ++ rest));
          split; (split; [apply newer_target|]); eauto using run_newer_sub_r, run_newer_sub_l, apart_newer).
    rewrite <- app_assoc in Hn. apply Hn.
  - assert (run_newer es (rest ++ concat B)) as Hn; [|apply Hn].
    rewrite run_newer_app_r. split; [by apply apart_newer|].
    assert (run_newer (es ++ rest) (concat B)) as Hn; [|by apply run_newer_app_l in Hn as [??]].
    apply older_target; eauto using run_newer_sub_l.
  - intros -> e e' He [He'|He']%elem_of_app; [by apply Hrest | by apply (Hdrop eq_refl)].
Qed.

(** Nothing newer than the watermark is lost. *)
Lemma replaced_kept e :
  e ∈ concat (A ++ U ++ T :: B) -> wm < sequence e.1 -> e ∈ concat (A ++ U' ++ T' :: B).
Proof.
  rewrite replaced_perm, replaced_perm', !elem_of_app, Hout. intros He Hs.
  assert (e ∈ es -> e ∈ compact_entries es wm d) as Hk.
  { intros Hin. apply compact_elem; [exact es_consistent|]. by split; [|left]. }
  tauto.
Qed.

Lemma replaced_collected : collected wm (concat (A ++ U ++ T :: B)) (concat (A ++ U' ++ T' :: B)).
Proof. constructor; [exact replaced_sub | exact replaced_kept | intros key s; apply replaced_reads]. Qed.
End replace.

(** ** Pairwise comparable elements *)

Definition either {A} (R : A -> A -> Prop) (x y : A) : Prop := R x y \/ R y x.

Lemma pairwise_perm {A} (R : A -> A -> Prop) l k :
  l ≡ₚ k -> StronglySorted (either R) l -> StronglySorted (either R) k.
Proof.
  induction 1 as [|x l k Hp IH|x y l|l1 l2 l3 _ IH1 _ IH2]; intros Hs; [done| | |auto].
  - apply StronglySorted_inv in Hs as [Hs Hf]. constructor; [auto | by rewrite <- Hp].
  - apply StronglySorted_inv in Hs as [[Hs Hfx]%StronglySorted_inv [Hxy Hfy]%Forall_cons].
    constructor; [constructor; [done|done]|]. constructor; [|done]. destruct Hxy; [by right | by left].
Qed.

Lemma pairwise_of_sorted {A} (R : A -> A -> Prop) l :
  StronglySorted R l -> StronglySorted (either R) l.
Proof.
  induction 1 as [|x l Hs IH Hf]; constructor; [done|]. eapply Forall_impl; [exact Hf|]. by left.
Qed.

(** A part of a sorted list against the rest of it. *)
Lemma parts_comparable {A} (R : A -> A -> Prop) l p q :
  StronglySorted R l -> l ≡ₚ p ++ q -> forall x y, x ∈ p -> y ∈ q -> either R x y.
Proof.
  intros Hs Hp. apply pairwise_of_sorted, (pairwise_perm _ _ _ Hp), StronglySorted_app in Hs as (H & _).
  intros x y. apply H.
Qed.

(** ** Tables with their entries *)

Abbreviation Held := (TableRef * list entry)%type (only parsing).

Definition held_file (h : Held) : FileMeta := h.1.1.
Definition held_number (h : Held) : u64 := fm_number h.1.1.
Definition held_entries (g : list Held) : list entry := concat g.*2.
Definition held_below (h h' : Held) : Prop := table_below h.1 h'.1.

Lemma held_entries_elem g e : e ∈ held_entries g <-> exists h, h ∈ g /\ e ∈ h.2.
Proof.
  unfold held_entries. rewrite elem_of_concat. split.
  - intros (es & He & (h & -> & Hh)%list_elem_of_fmap). by exists h.
  - intros (h & Hh & He). exists h.2. split; [done|]. by apply list_elem_of_fmap_2.
Qed.

Lemma held_entries_app g g' : held_entries (g ++ g') = held_entries g ++ held_entries g'.
Proof. unfold held_entries. by rewrite fmap_app, concat_app. Qed.

#[export] Instance held_entries_perm : Proper ((≡ₚ) ==> (≡ₚ)) held_entries.
Proof. intros g g' Hg. unfold held_entries. by rewrite Hg. Qed.

(** The level 0 tables and the tables of the levels. *)
Abbreviation HeldLevels := (list Held * list (list Held))%type (only parsing).

Definition all_held (g : HeldLevels) : list Held := g.1 ++ concat g.2.
Definition held_runs (g : HeldLevels) : list (list entry) := g.1.*2 ++ map held_entries g.2.

(** Two neighbouring levels, and what surrounds them; the first of the levels
    below 0 is not used. *)
Inductive Place : Type :=
  | Top (below : list (list Held))
  | Deep (l0 : list Held) (above below : list (list Held)).

Definition place_level (p : Place) : usize :=
  match p with Top _ => 0 | Deep _ above _ => 1 + len above end.

Lemma level_nonneg p : 0 <= place_level p.
Proof. destruct p; cbn [place_level]; [done | pose proof (len_nonneg above); lia]. Qed.

Definition plug (p : Place) (upper target : list Held) : HeldLevels :=
  match p with
  | Top below => (upper, [] :: target :: below)
  | Deep l0 above below => (l0, [] :: above ++ upper :: target :: below)
  end.

Definition place_above (p : Place) : list (list entry) :=
  match p with Top _ => [] | Deep l0 above _ => l0.*2 ++ [] :: map held_entries above end.
Definition place_below (p : Place) : list (list entry) :=
  match p with Top below | Deep _ _ below => map held_entries below end.
Definition upper_runs (p : Place) (upper : list Held) : list (list entry) :=
  match p with Top _ => upper.*2 ++ [[]] | Deep _ _ _ => [held_entries upper] end.
Definition place_others (p : Place) : list Held :=
  match p with Top below => concat below | Deep l0 above below => l0 ++ concat above ++ concat below end.

Lemma plug_runs p upper target :
  held_runs (plug p upper target) = place_above p ++ upper_runs p upper ++ held_entries target :: place_below p.
Proof.
  destruct p as [below|l0 above below]; unfold held_runs; cbn [plug fst snd map place_above upper_runs place_below app].
  - by rewrite <- app_assoc.
  - rewrite map_app. cbn [map]. by rewrite <- app_assoc.
Qed.

Lemma plug_all p upper target : all_held (plug p upper target) ≡ₚ upper ++ target ++ place_others p.
Proof.
  destruct p as [below|l0 above below]; unfold all_held; cbn [plug fst snd concat app place_others]; [done|].
  rewrite concat_app. cbn [concat]. solve_Permutation.
Qed.

Lemma upper_entries p upper : concat (upper_runs p upper) = held_entries upper.
Proof.
  destruct p; cbn [upper_runs]; [rewrite concat_app|]; cbn [concat]; by rewrite !app_nil_r.
Qed.

Lemma place_at g level :
  head g.2 = Some [] -> 0 <= level -> level + 1 < len g.2 ->
  exists p upper target, place_level p = level /\ plug p upper target = g.
Proof.
  destruct g as [l0 gs]. cbn [fst snd]. intros Hh Hl0 Hl. destruct gs as [|g0 gs]; [done|].
  injection Hh as ->. rewrite len_cons in Hl. destruct (decide (level = 0)) as [->|Hn].
  - destruct gs as [|target below]; [unfold len in Hl; cbn in Hl; lia|]. by exists (Top below), l0, target.
  - assert (exists upper, gs !! Z.to_nat (level - 1) = Some upper) as [upper Hu]
      by (apply lookup_lt_is_Some_2; unfold len in Hl; lia).
    assert (exists target, gs !! Z.to_nat level = Some target) as [target Ht]
      by (apply lookup_lt_is_Some_2; unfold len in Hl; lia).
    exists (Deep l0 (take (Z.to_nat (level - 1)) gs) (drop (S (Z.to_nat level)) gs)), upper, target.
    split.
    + cbn [place_level]. unfold len. rewrite length_take. apply lookup_lt_Some in Hu. lia.
    + cbn [plug]. do 2 f_equal. rewrite <- (drop_S gs target (Z.to_nat level) Ht).
      replace (Z.to_nat level) with (S (Z.to_nat (level - 1))) by lia.
      rewrite <- (drop_S gs upper _ Hu). apply take_drop.
Qed.

(** ** What the tables of a state hold *)

Section held.
Context `{X : Externals} `{HX : !ExternalsOk X} `{H : HashOrder} `{N : NumberHashOrder}
  `{SM : arena_skip_map} `{!SkipMapOk SM}.

Definition holds (tables : Tables) (h : Held) : Prop := table_holds tables h.1 h.2.

(** The tables of [st] with what they hold. *)
Record held_state (tables : Tables) (st : DBState SM) (g : HeldLevels) : Prop := mkHeldState {
  hs_l0 : st_l0_tables st = g.1.*1;
  hs_levels : st_level_tables st = map (fmap fst) g.2;
  hs_holds : Forall (holds tables) (all_held g)
}.

Lemma holds_zip tables ts rs :
  Forall2 (table_holds tables) ts rs <-> exists g : list Held, ts = g.*1 /\ rs = g.*2 /\ Forall (holds tables) g.
Proof.
  split.
  - induction 1 as [|t es ts rs Ht Hts (g & -> & -> & IH)]; [by exists []|].
    exists ((t, es) :: g). split; [done|]. split; [done|]. by constructor.
  - intros (g & -> & -> & Hg). induction Hg; by constructor.
Qed.

Lemma holds_zip_levels tables tss rss :
  Forall2 (Forall2 (table_holds tables)) tss rss <->
  exists gs : list (list Held), tss = map (fmap fst) gs /\ rss = map (fmap snd) gs /\
    Forall (holds tables) (concat gs).
Proof.
  split.
  - induction 1 as [|ts rs tss rss Ht Hts (gs & -> & -> & IH)]; [by exists []|].
    apply holds_zip in Ht as (g & -> & -> & Hg). exists (g :: gs). split; [done|]. split; [done|].
    by apply Forall_app.
  - intros (gs & -> & -> & Hg). induction gs as [|g gs IH]; [constructor|].
    apply Forall_app in Hg as [Hg Hgs]. constructor; [apply holds_zip; by exists g | auto].
Qed.

Lemma state_held tables (st : DBState SM) l0 levels :
  state_ok tables st l0 levels ->
  exists g, held_state tables st g /\ l0 = g.1.*2 /\ levels = map (fmap snd) g.2.
Proof.
  intros Hok. destruct (proj1 (holds_zip _ _ _) (so_l0 _ _ _ _ Hok)) as (g0 & E0 & -> & H0).
  destruct (proj1 (holds_zip_levels _ _ _) (so_levels _ _ _ _ Hok)) as (gs & Es & -> & Hs).
  exists (g0, gs). split; [constructor; [done|done|]|done]. by apply Forall_app.
Qed.

Lemma held_runs_eq (g : HeldLevels) :
  held_runs g = g.1.*2 ++ map (@concat entry) (map (fmap snd) g.2).
Proof. unfold held_runs. by rewrite map_map. Qed.

Lemma concat_refs (gs : list (list Held)) : (concat gs).*1 = concat (map (fmap fst) gs).
Proof. induction gs as [|g gs IH]; [done|]. cbn [map concat]. by rewrite fmap_app, IH. Qed.

Lemma held_all_tables tables (st : DBState SM) g :
  held_state tables st g -> all_tables st = (all_held g).*1.
Proof.
  intros [E0 Es _]. unfold all_tables, all_held. by rewrite E0, Es, fmap_app, concat_refs.
Qed.

(** The keys of a table are within its metadata's range. *)
Lemma held_covers tables h e :
  holds tables h -> e ∈ h.2 -> file_covers (held_file h) (user_key e.1).
Proof. intros [_ Hs Hh Hl _] He. by apply (outside_range h.2 _ _ _ Hs Hh Hl e). Qed.

Lemma held_range tables h :
  holds tables h ->
  ord_le bytes_cmp (user_key (fm_smallest (held_file h))) (user_key (fm_largest (held_file h))).
Proof.
  intros Hh. destruct h.2 as [|e es] eqn:E; [pose proof (th_smallest _ _ _ Hh) as Hs; by rewrite E in Hs|].
  destruct (held_covers tables h e Hh) as [H1 H2]; [rewrite E; by left|].
  by apply (ord_le_trans bytes_cmp _ (user_key e.1)).
Qed.

(** Tables whose ranges do not meet share no key. *)
Lemma below_apart tables h h' :
  holds tables h -> holds tables h' -> either held_below h h' -> apart h.2 h'.2.
Proof.
  intros Hh Hh' Hb e e' He He' Hk. apply (held_covers _ _ _ Hh) in He as [H1 H2].
  apply (held_covers _ _ _ Hh') in He' as [H3 H4]. rewrite Hk in *.
  apply (ord_irrefl bytes_cmp (user_key e'.1)). destruct Hb as [Hb|Hb].
  - apply (ord_le_lt_trans bytes_cmp _ (user_key (fm_largest (held_file h)))); [done|].
    by apply (ord_lt_le_trans bytes_cmp _ (user_key (fm_smallest (held_file h')))).
  - apply (ord_le_lt_trans bytes_cmp _ (user_key (fm_largest (held_file h')))); [done|].
    by apply (ord_lt_le_trans bytes_cmp _ (user_key (fm_smallest (held_file h)))).
Qed.

Lemma parts_apart tables g p q :
  StronglySorted held_below g -> Forall (holds tables) g -> g ≡ₚ p ++ q ->
  apart (held_entries p) (held_entries q).
Proof.
  intros Hs Hg Hp e e' (h & Hh & He)%held_entries_elem (h' & Hh' & He')%held_entries_elem.
  rewrite Hp, Forall_app, !Forall_forall in Hg. destruct Hg as [Hg1 Hg2].
  apply (below_apart tables h h'); auto. by apply (parts_comparable held_below g p q).
Qed.

(** A table whose range lies below or above all keys of [es]. *)
Definition clear_of (es : list entry) (h : Held) : Prop :=
  (forall e, e ∈ es -> bytes_cmp (user_key (fm_largest (held_file h))) (user_key e.1) = Lt) \/
  (forall e, e ∈ es -> bytes_cmp (user_key e.1) (user_key (fm_smallest (held_file h))) = Lt).

Lemma clear_apart tables es g :
  Forall (holds tables) g -> Forall (clear_of es) g -> apart es (held_entries g).
Proof.
  intros Hg Hc e e' He (h & Hh & He')%held_entries_elem Hk. rewrite Forall_forall in Hg, Hc.
  destruct (held_covers tables h e' (Hg h Hh) He') as [H1 H2].
  apply (ord_irrefl bytes_cmp (user_key e'.1)). destruct (Hc h Hh) as [Hb|Hb]; specialize (Hb e He); rewrite Hk in Hb.
  - by apply (ord_le_lt_trans bytes_cmp _ (user_key (fm_largest (held_file h)))).
  - by apply (ord_lt_le_trans bytes_cmp _ (user_key (fm_smallest (held_file h)))).
Qed.

(** A new table made of some of [es]. *)
Lemma clear_either tables es h o :
  clear_of es h -> holds tables o -> (forall e, e ∈ o.2 -> e ∈ es) -> either held_below o h.
Proof.
  intros Hc Ho Hsub. pose proof (th_smallest _ _ _ Ho) as Hs. pose proof (th_largest _ _ _ Ho) as Hl.
  destruct (head o.2) as [f|] eqn:Ef; [|done]. injection Hs as Hs.
  destruct (last o.2) as [l|] eqn:El; [|done]. injection Hl as Hl.
  rewrite head_lookup in Ef. rewrite last_lookup in El. apply list_elem_of_lookup_2, Hsub in Ef, El.
  destruct Hc as [Hc|Hc]; [right; specialize (Hc f Ef) | left; specialize (Hc l El)];
    unfold held_below, table_below; [by rewrite <- Hs | by rewrite <- Hl].
Qed.

(** Tables sorted by their smallest keys whose ranges do not meet. *)
Lemma sorted_below tables g :
  Forall (holds tables) g -> level_sorted (map held_file g) ->
  StronglySorted (either held_below) g -> StronglySorted held_below g.
Proof.
  intros Hh. induction g as [|h g IH]; intros Hl Hs; [apply SSorted_nil|].
  apply Forall_cons in Hh as [Hh Hg]. apply StronglySorted_inv in Hl as [Hl Hlf].
  apply StronglySorted_inv in Hs as [Hs Hf]. constructor; [auto|].
  rewrite Forall_forall in Hf, Hg |- *. intros h' Hin. destruct (Hf h' Hin) as [|Hb]; [done|]. exfalso.
  pose proof (proj1 (Forall_forall _ _) Hlf _ (list_elem_of_fmap_2 held_file g h' Hin)) as Hle.
  apply ikey_le_user_key in Hle.
  apply (ord_irrefl bytes_cmp (user_key (fm_largest (held_file h')))).
  apply (ord_lt_le_trans bytes_cmp _ (user_key (fm_smallest (held_file h)))); [exact Hb|].
  apply (ord_le_trans bytes_cmp _ (user_key (fm_smallest (held_file h')))); [done|].
  apply (held_range tables), Hg, Hin.
Qed.

(** ** The tables of a task *)

(** [v] names the tables of [g]. *)
Definition names (v : Version) (g : HeldLevels) : Prop :=
  v_l0_files v = map held_file g.1 /\ v_levels v = map (map held_file) g.2.

Lemma plug_lookup p upper target :
  (plug p upper target).2 !! Z.to_nat (place_level p + 1) = Some target /\
  match p with
  | Top _ => (plug p upper target).1 = upper
  | Deep _ _ _ => (plug p upper target).2 !! Z.to_nat (place_level p) = Some upper
  end.
Proof.
  destruct p as [below|l0 above below]; [done|]. cbn [plug place_level snd]. unfold len.
  replace (Z.to_nat (1 + Z.of_nat (length above) + 1)) with (S (length above + 1)) by lia.
  replace (Z.to_nat (1 + Z.of_nat (length above))) with (S (length above + 0)) by lia.
  split; [change ((above ++ upper :: target :: below) !! (length above + 1)%nat = Some target)
         |change ((above ++ upper :: target :: below) !! (length above + 0)%nat = Some upper)];
    (rewrite lookup_app_r by lia; by rewrite Nat.add_comm, Nat.add_sub).
Qed.

(** The levels below the two. *)
Definition place_levels (p : Place) : list (list Held) :=
  match p with Top below | Deep _ _ below => below end.

Lemma plug_drop p upper target :
  drop (Z.to_nat (place_level p + 1 + 1)) (plug p upper target).2 = place_levels p.
Proof.
  destruct p as [below|l0 above below]; [done|]. cbn [plug place_level snd place_levels]. unfold len.
  replace (Z.to_nat (1 + Z.of_nat (length above) + 1 + 1)) with (S (length above + 2)) by lia.
  cbn [skipn]. by rewrite drop_app_add.
Qed.

(** A task whose range no table further down meets shares no key with them. *)
Lemma below_untouched tables v p upper target t chosen_files :
  names v (plug p upper target) -> Forall (holds tables) (all_held (plug p upper target)) ->
  Forall (holds tables) chosen_files -> ct_output_level t = place_level p + 1 ->
  (forall h, h ∈ chosen_files -> ord_le bytes_cmp (ct_smallest_user_key t) (user_key (fm_smallest (held_file h))) /\
    ord_le bytes_cmp (user_key (fm_largest (held_file h))) (ct_largest_user_key t)) ->
  existsb (fun file => user_key_overlaps_range file (ct_smallest_user_key t) (ct_largest_user_key t))
    (concat (drop (Z.to_nat (ct_output_level t + 1)) (v_levels v))) = false ->
  apart (held_entries chosen_files) (concat (place_below p)).
Proof.
  intros [_ El] Hall Hch -> Hr Hn e e' (h & Hh & He)%held_entries_elem He' Hk.
  rewrite Forall_forall in Hall, Hch.
  assert (place_below p = map held_entries (place_levels p)) as Eb by by destruct p.
  rewrite Eb in He'. apply elem_of_concat in He' as (es & He' & (g & -> & Hg)%list_elem_of_fmap).
  apply held_entries_elem in He' as (h' & Hh' & He').
  assert (h' ∈ concat (place_levels p)) as Hin by (apply elem_of_concat; by exists g).
  rewrite El, <- (plug_drop p upper target) in *.
  assert (h' ∈ all_held (plug p upper target)) as Hall'.
  { unfold all_held. apply elem_of_app. right. apply elem_of_concat in Hin as (g' & ? & Hg').
    apply elem_of_concat. exists g'. split; [done|].
    rewrite <- (take_drop (Z.to_nat (place_level p + 1 + 1)) (plug p upper target).2). apply elem_of_app. by right. }
  destruct (held_covers tables h e (Hch h Hh) He) as [H1 H2].
  destruct (held_covers tables h' e' (Hall h' Hall') He') as [H3 H4]. rewrite <- Hk in H3, H4.
  destruct (Hr h Hh) as [H5 H6].
  assert (existsb (fun file => user_key_overlaps_range file (ct_smallest_user_key t) (ct_largest_user_key t))
    (concat (drop (Z.to_nat (place_level p + 1 + 1)) (map (map held_file) (plug p upper target).2))) = true); [|congruence].
  apply existsb_exists. exists (held_file h'). split.
  - apply list_elem_of_In. rewrite List.skipn_map, <- List.concat_map. by apply list_elem_of_fmap_2.
  - unfold user_key_overlaps_range. apply andb_true_iff. split; apply leb_le.
    + apply (ord_le_trans bytes_cmp _ (user_key e.1)); [done|].
      by apply (ord_le_trans bytes_cmp _ (user_key (fm_largest (held_file h)))).
    + apply (ord_le_trans bytes_cmp _ (user_key e.1)); [|done].
      by apply (ord_le_trans bytes_cmp _ (user_key (fm_smallest (held_file h)))).
Qed.

Lemma names_target v p upper target :
  names v (plug p upper target) -> level_files v (place_level p + 1) = map held_file target.
Proof.
  intros [_ El]. unfold level_files. rewrite El, list_lookup_fmap.
  by rewrite (proj1 (plug_lookup p upper target)).
Qed.

Lemma names_upper v p upper target :
  names v (plug p upper target) -> version_files v (place_level p) = map held_file upper.
Proof.
  intros [E0 El]. pose proof (plug_lookup p upper target) as [_ Hu]. unfold version_files.
  destruct p as [below|l0 above below]; [exact E0|].
  destruct (Z.eqb_spec (place_level (Deep l0 above below)) 0) as [E|_];
    [cbn [place_level] in E; pose proof (len_nonneg above); lia|].
  by rewrite El, list_lookup_fmap, Hu.
Qed.

(** The tables of the task [t]: [inputs] and [others] on its level, [overlaps]
    and [rest] on the next. *)
Record chosen (t : CompactionTask) (p : Place) (upper target inputs others overlaps rest : list Held) :
    Prop := mkChosen {
  ch_level : ct_input_level t = place_level p;
  ch_output : ct_output_level t = place_level p + 1;
  ch_inputs : ct_input_files t = map held_file inputs;
  ch_overlaps : ct_overlap_files t = map held_file overlaps;
  ch_nonempty : inputs <> [];
  ch_upper : upper ≡ₚ inputs ++ others;
  ch_target : target ≡ₚ overlaps ++ rest;
  ch_top : match p with Top _ => others = [] | Deep _ _ _ => True end;
  ch_apart : apart (held_entries others) (held_entries inputs);
  ch_clear : Forall (clear_of (held_entries (inputs ++ overlaps))) rest;
  ch_range : forall f, f ∈ all_input_files t ->
    ord_le bytes_cmp (ct_smallest_user_key t) (user_key (fm_smallest f)) /\
    ord_le bytes_cmp (user_key (fm_largest f)) (ct_largest_user_key t)
}.

(** The order of the tables left on the level does not matter. *)
Lemma chosen_perm t p upper target inputs others overlaps rest others' :
  others' ≡ₚ others -> chosen t p upper target inputs others overlaps rest ->
  chosen t p upper target inputs others' overlaps rest.
Proof.
  intros Hp Hc. constructor; try by apply Hc.
  - rewrite Hp. apply Hc.
  - pose proof (ch_top _ _ _ _ _ _ _ _ Hc) as Ht. destruct p; [|done]. subst others.
    by apply Permutation_nil_r in Hp.
  - intros e e' He. rewrite Hp in He. by apply (ch_apart _ _ _ _ _ _ _ _ Hc).
Qed.

Lemma filter_files (P : FileMeta -> Prop) `{!forall f, Decision (P f)} (g : list Held) :
  filter P (map held_file g) = map held_file (filter (fun h => P (held_file h)) g).
Proof.
  induction g as [|h g IH]; [done|]. cbn [map]. rewrite !filter_cons, IH.
  by destruct (decide (P (held_file h))).
Qed.

Lemma filter_parts {A} (P : A -> Prop) `{!forall x, Decision (P x)} (l : list A) :
  l ≡ₚ filter P l ++ filter (fun x => ~ P x) l.
Proof. symmetry. apply filter_app_complement. Qed.

Lemma overlap_spec f a b :
  user_key_overlaps f a b = true <->
  ord_le bytes_cmp (user_key (fm_smallest f)) b /\ ord_le bytes_cmp a (user_key (fm_largest f)).
Proof. unfold user_key_overlaps. by rewrite andb_true_iff, !leb_le. Qed.

Lemma overlap_none f a b :
  user_key_overlaps f a b <> true ->
  bytes_cmp b (user_key (fm_smallest f)) = Lt \/ bytes_cmp (user_key (fm_largest f)) a = Lt.
Proof.
  intros Hn. destruct (ord_le_or bytes_cmp (user_key (fm_smallest f)) b) as [H1|H1]; [|by left].
  destruct (ord_le_or bytes_cmp a (user_key (fm_largest f))) as [H2|H2]; [|by right].
  destruct Hn. by apply overlap_spec.
Qed.

(** A table of the next level that the range of the inputs does not meet lies
    on one side of them and of the tables that it does meet. *)
Lemma rest_clear tables a b inputs overlaps h :
  Forall (holds tables) (h :: inputs ++ overlaps) ->
  (forall f, f ∈ inputs -> ord_le bytes_cmp a (user_key (fm_smallest (held_file f))) /\
    ord_le bytes_cmp (user_key (fm_largest (held_file f))) b) ->
  (forall o, o ∈ overlaps -> user_key_overlaps (held_file o) a b = true /\ either held_below o h) ->
  user_key_overlaps (held_file h) a b <> true -> clear_of (held_entries (inputs ++ overlaps)) h.
Proof.
  intros [Hh Hg]%Forall_cons Hi Ho Hn. rewrite Forall_forall in Hg.
  pose proof (held_range tables h Hh) as Hr.
  destruct (overlap_none _ _ _ Hn) as [Hb|Ha]; [right|left];
    intros e (f & Hf & He)%held_entries_elem; pose proof (held_covers tables f e (Hg f Hf) He) as [H1 H2];
    apply elem_of_app in Hf as [Hf|Hf].
  - eapply (ord_le_lt_trans bytes_cmp); [|exact Hb]. eapply (ord_le_trans bytes_cmp); [exact H2|].
    by apply Hi.
  - destruct (Ho f Hf) as [[Hs Hl]%overlap_spec [Hlt|Hlt]].
    + by eapply (ord_le_lt_trans bytes_cmp); [exact H2|].
    + exfalso. apply (ord_irrefl bytes_cmp b). eapply (ord_lt_le_trans bytes_cmp); [exact Hb|].
      eapply (ord_le_trans bytes_cmp); [exact Hr|]. apply (ord_lt_le bytes_cmp).
      by eapply (ord_lt_le_trans bytes_cmp); [exact Hlt|].
  - eapply (ord_lt_le_trans bytes_cmp); [exact Ha|]. eapply (ord_le_trans bytes_cmp); [|exact H1].
    by apply Hi.
  - destruct (Ho f Hf) as [[Hs Hl]%overlap_spec [Hlt|Hlt]].
    + exfalso. apply (ord_irrefl bytes_cmp a). eapply (ord_le_lt_trans bytes_cmp); [exact Hl|].
      eapply (ord_lt_le_trans bytes_cmp); [exact Hlt|]. eapply (ord_le_trans bytes_cmp); [exact Hr|].
      by apply (ord_lt_le bytes_cmp).
    + by eapply (ord_lt_le_trans bytes_cmp); [exact Hlt|].
Qed.

Lemma plug_holds tables p upper target :
  Forall (holds tables) (all_held (plug p upper target)) <->
  Forall (holds tables) upper /\ Forall (holds tables) target /\ Forall (holds tables) (place_others p).
Proof. by rewrite plug_all, !Forall_app. Qed.

Lemma plug_target_sorted (R : Held -> Held -> Prop) p upper target :
  Forall (StronglySorted R) (plug p upper target).2 ->
  StronglySorted R target /\ match p with Top _ => True | Deep _ _ _ => StronglySorted R upper end.
Proof.
  destruct p as [below|l0 above below]; cbn [plug snd];
    rewrite Forall_cons, ?Forall_app, !Forall_cons; tauto.
Qed.

Lemma chosen_top v t below upper target manual :
  names v (plug (Top below) upper target) -> 2 <= len (v_levels v) ->
  task_for_files v 0 (v_l0_files v) manual = Ok t ->
  chosen t (Top below) upper target upper [] target [].
Proof.
  intros Hn Hl Et.
  destruct (task_for_files_exact v 0 _ manual t ltac:(done) ltac:(lia) Et)
    as (Ei & Eo & Ef & Hne & (a & b & _ & Eov) & Hr). destruct Hn as [E0 El] eqn:En.
  cbn [plug fst] in E0. rewrite E0 in Ef, Hne.
  constructor; rewrite ?app_nil_r; try done.
  - by rewrite Eov, <- (names_target v _ _ _ Hn).
  - by intros ->.
  - by intros e e' He%elem_of_nil.
Qed.

Lemma chosen_deep tables v t l0 above below upper target h manual :
  let p := Deep l0 above below in
  names v (plug p upper target) -> place_level p + 1 < len (v_levels v) ->
  Forall (holds tables) (upper ++ target) -> StronglySorted held_below upper ->
  StronglySorted held_below target -> h ∈ upper ->
  task_for_files v (place_level p) [held_file h] manual = Ok t ->
  exists others overlaps rest, chosen t p upper target [h] others overlaps rest.
Proof.
  intros p Hn Hl Hh Hsu Hst Hin Et.
  assert (1 <= place_level p) as Hp by (unfold p, place_level; pose proof (len_nonneg above); lia).
  destruct (task_for_files_exact v (place_level p) _ manual t ltac:(lia) Hl Et)
    as (Ei & Eo & Ef & _ & (a & b & Hab & Eov) & Hr).
  replace (place_level p =? 0) with false in Eov by lia.
  rewrite (names_target v _ _ _ Hn), filter_files in Eov.
  set (P := fun g : Held => user_key_overlaps (held_file g) a b = true) in *.
  apply list_elem_of_split in Hin as (u1 & u2 & Eu).
  assert (upper ≡ₚ [h] ++ u1 ++ u2) as Hu by (rewrite Eu; solve_Permutation).
  apply Forall_app in Hh as [Hhu Hht]. exists (u1 ++ u2), (filter P target), (filter (fun g => ~ P g) target).
  constructor; try done.
  - apply filter_parts.
  - intros e e' He He'. apply not_eq_sym. by apply (parts_apart tables upper [h] (u1 ++ u2)).
  - apply Forall_forall. intros q [Hq Hqt]%list_elem_of_filter.
    apply (rest_clear tables a b); [| | |exact Hq].
    + apply Forall_cons. rewrite Forall_forall in Hht. split; [by apply Hht|].
      apply Forall_app. split; [rewrite Hu in Hhu; by apply Forall_app in Hhu as [? _]|].
      apply Forall_forall. intros o [_ Ho]%list_elem_of_filter. by apply Hht.
    + intros f ->%list_elem_of_singleton. apply Hab. by left.
    + intros o Ho. pose proof Ho as [HP _]%list_elem_of_filter. split; [exact HP|].
      apply (parts_comparable held_below target (filter P target) (filter (fun g => ~ P g) target));
        [done | apply filter_parts | done | by apply list_elem_of_filter].
Qed.

(** What a task of the picker consists of. *)
Lemma whole_chosen tables v g t :
  names v g -> head g.2 = Some [] -> Forall (holds tables) (all_held g) ->
  Forall (StronglySorted held_below) g.2 -> whole_task v t ->
  exists p upper target inputs others overlaps rest, plug p upper target = g /\
    chosen t p upper target inputs others overlaps rest.
Proof.
  intros Hn Hhead Hh Hs (level & manual & H0 & Hl & Et & Hin).
  assert (len (v_levels v) = len g.2) as Elen by (destruct Hn as [_ ->]; unfold len; by rewrite length_map).
  destruct (place_at g level Hhead H0 ltac:(lia)) as (p & upper & target & <- & Eg).
  exists p, upper, target. rewrite <- Eg in *. clear Eg g.
  apply plug_holds in Hh as (Hu & Ht & _). apply plug_target_sorted in Hs as [Hst Hsu].
  destruct Hin as [[E0 Ef]|[H1 (f & Ef & Hf)]].
  - destruct p as [below|l0 above below]; [|cbn [place_level] in E0; pose proof (len_nonneg above); lia].
    rewrite Ef in Et. exists upper, [], target, []. split; [done|].
    apply (chosen_top v _ _ _ _ manual); [done | cbn [place_level] in Hl; lia | done].
  - destruct p as [below|l0 above below]; [cbn [place_level] in H1; lia|].
    assert (f ∈ map held_file upper) as (h & -> & Hin)%list_elem_of_fmap.
    { rewrite <- (names_upper v (Deep l0 above below) upper target Hn). unfold version_files.
      by replace (place_level (Deep l0 above below) =? 0) with false by lia. }
    rewrite Ef in Et.
    destruct (chosen_deep tables v t l0 above below upper target h manual Hn Hl
      ltac:(by apply Forall_app) Hsu Hst Hin Et) as (others & overlaps & rest & Hc).
    by exists [h], others, overlaps, rest.
Qed.

(** ** The version after the task *)

Lemma plug_other p upper target upper' target' i :
  Z.of_nat i <> place_level p -> Z.of_nat i <> place_level p + 1 ->
  (plug p upper' target').2 !! i = (plug p upper target).2 !! i.
Proof.
  destruct p as [below|l0 above below]; cbn [place_level plug snd]; unfold len; intros H1 H2.
  - by destruct i as [|[|i]].
  - destruct i as [|i]; [done|].
    change ((above ++ upper' :: target' :: below) !! i = (above ++ upper :: target :: below) !! i).
    destruct (decide (i < length above)%nat); [by rewrite !lookup_app_l by done|].
    rewrite !lookup_app_r by lia. destruct (i - length above)%nat as [|[|k]] eqn:E; [lia|lia|done].
Qed.

Lemma plug_length p upper target upper' target' :
  length (plug p upper' target').2 = length (plug p upper target).2.
Proof. destruct p; cbn [plug snd]; [done|]. cbn [length]. by rewrite !length_app. Qed.

Lemma names_spec v g :
  names v g <-> version_files v 0 = map held_file g.1 /\ length (v_levels v) = length g.2 /\
    v_levels v !! 0%nat = map held_file <$> g.2 !! 0%nat /\
    forall i, (1 <= i < length g.2)%nat -> version_files v (Z.of_nat i) = map held_file (default [] (g.2 !! i)).
Proof.
  assert (forall w i, (1 <= i)%nat -> version_files w (Z.of_nat i) = default [] (v_levels w !! i)) as Hf.
  { intros w i Hi. unfold version_files. destruct (Z.eqb_spec (Z.of_nat i) 0); [lia|]. by rewrite Nat2Z.id. }
  split.
  - intros [E0 El]. split; [exact E0|]. rewrite El. split; [apply length_map|].
    split; [apply list_lookup_fmap|]. intros i Hi. rewrite Hf, El, list_lookup_fmap by lia.
    by destruct (g.2 !! i).
  - intros (E0 & Elen & Ez & Ei). split; [exact E0|]. apply list_eq. intros i.
    rewrite list_lookup_fmap. destruct i as [|i]; [exact Ez|].
    destruct (decide (S i < length g.2)%nat) as [Hi|Hi].
    + specialize (Ei (S i) ltac:(lia)). rewrite Hf in Ei by lia.
      destruct (lookup_lt_is_Some_2 g.2 (S i) Hi) as [x Ex].
      destruct (lookup_lt_is_Some_2 (v_levels v) (S i) ltac:(lia)) as [y Ey].
      rewrite Ex, Ey in *. cbn in *. by rewrite Ei.
    + rewrite !lookup_ge_None_2 by lia. done.
Qed.

Lemma names_plug v v' p upper target upper' target' :
  names v (plug p upper target) -> version_like v v' ->
  version_files v' (place_level p) = map held_file upper' ->
  version_files v' (place_level p + 1) = map held_file target' ->
  (forall l, 0 <= l -> l <> place_level p -> l <> place_level p + 1 -> version_files v' l = version_files v l) ->
  names v' (plug p upper' target').
Proof.
  intros (E0 & Elen & Ez & Ei)%names_spec [Vlen Vun _] Hu Ht Ho. apply names_spec.
  pose proof (plug_lookup p upper' target') as [Lt Lu].
  pose proof (level_nonneg p) as Hp.
  split; [|split; [|split]].
  - destruct p as [below|l0 above below]; [exact Hu|]. cbn [place_level] in *. pose proof (len_nonneg above).
    rewrite Ho by lia. exact E0.
  - rewrite Vlen, Elen. by apply plug_length.
  - rewrite Vun, Ez. by destruct p.
  - intros i Hi. rewrite (plug_length p upper target) in Hi.
    destruct (decide (Z.of_nat i = place_level p)) as [E|H1]; [|destruct (decide (Z.of_nat i = place_level p + 1)) as [E|H2]].
    + destruct p as [below|l0 above below]; [cbn [place_level] in E; lia|].
      rewrite <- E, Nat2Z.id in Lu. rewrite Lu, E. exact Hu.
    + rewrite <- E, Nat2Z.id in Lt. rewrite Lt, E. exact Ht.
    + rewrite Ho, Ei, (plug_other p upper target upper' target') by (done || lia). done.
Qed.

(** ** The state after the task *)

Lemma contents_held (st : DBState SM) g :
  runs st g.1.*2 (map (fmap snd) g.2) = mem_runs st ++ held_runs g.
Proof. unfold runs. by rewrite held_runs_eq. Qed.

Lemma disjoint_held (gs : list (list Held)) :
  Forall (StronglySorted table_below) (map (fmap fst) gs) <-> Forall (StronglySorted held_below) gs.
Proof.
  assert (forall g : list Held, StronglySorted table_below g.*1 <-> StronglySorted held_below g) as Hg.
  { intros g. induction g as [|h g IH]; [by split; intros _; constructor|].
    cbn [fmap list_fmap]. split; intros [Hs Hf]%StronglySorted_inv; constructor; try (by apply IH).
    - apply (List.Forall_map (@fst TableRef (list entry))) in Hf. exact Hf.
    - apply (List.Forall_map (@fst TableRef (list entry))). exact Hf. }
  rewrite Forall_fmap. apply Forall_iff. intros g. apply Hg.
Qed.

Section replaced_state.
Context (tables tables' : Tables) (st : DBState SM) (t : CompactionTask) (p : Place)
  (upper target inputs others overlaps rest outs target' : list Held) (wm : u64) (d : bool).
Let g : HeldLevels := plug p upper target.
Let g' : HeldLevels := plug p others target'.
Let es := held_entries inputs ++ held_entries overlaps.
Let st' : DBState SM := with_tables g'.1.*1 (map (fmap fst) g'.2) st.
Context (Hok : state_ok tables st g.1.*2 (map (fmap snd) g.2)) (Hst : held_state tables st g)
  (Hch : chosen t p upper target inputs others overlaps rest)
  (Hsub : others `sublist_of` upper)
  (Hholds : Forall (holds tables') (all_held g'))
  (Hout : held_entries outs ≡ₚ compact_entries es wm d)
  (Htarget : target' ≡ₚ outs ++ rest) (Hsorted : level_sorted (map held_file target'))
  (Houts : StronglySorted held_below outs)
  (Hdrop : d = true -> apart es (concat (place_below p))).

Lemma old_disjoint : Forall (StronglySorted held_below) g.2.
Proof. apply disjoint_held. rewrite <- (hs_levels _ _ _ Hst). apply Hok. Qed.

Lemma rest_apart : apart es (held_entries rest).
Proof.
  unfold es. rewrite <- held_entries_app. apply (clear_apart tables); [|apply Hch].
  pose proof (hs_holds _ _ _ Hst) as Hh. apply plug_holds in Hh as (_ & Ht & _).
  rewrite (ch_target _ _ _ _ _ _ _ _ Hch) in Ht. by apply Forall_app in Ht as [_ ?].
Qed.

(** The runs of the state, cut at the two levels. *)
Section cut.
Context (mem : list (list entry)) (Hmem : StronglySorted run_newer (mem ++ held_runs g))
  (Hcons : consistent (concat (mem ++ held_runs g))).
Let A := mem ++ place_above p.

Lemma cut_old : mem ++ held_runs g = A ++ upper_runs p upper ++ held_entries target :: place_below p.
Proof. unfold A, g. by rewrite plug_runs, <- app_assoc. Qed.

Lemma cut_new : mem ++ held_runs g' = A ++ upper_runs p others ++ held_entries target' :: place_below p.
Proof. unfold A, g'. by rewrite plug_runs, <- app_assoc. Qed.

Lemma kept_sorted : StronglySorted run_newer (upper_runs p others).
Proof.
  pose proof (ch_top _ _ _ _ _ _ _ _ Hch) as Ht.
  destruct p; cbn [upper_runs]; [subst others; cbn|]; repeat constructor.
Qed.

Lemma cut_upper : concat (upper_runs p upper) ≡ₚ held_entries inputs ++ concat (upper_runs p others).
Proof. rewrite !upper_entries, (ch_upper _ _ _ _ _ _ _ _ Hch). by rewrite held_entries_app. Qed.

Lemma cut_target : held_entries target ≡ₚ held_entries overlaps ++ held_entries rest.
Proof. by rewrite (ch_target _ _ _ _ _ _ _ _ Hch), held_entries_app. Qed.

Lemma cut_target' : held_entries target' ≡ₚ held_entries outs ++ held_entries rest.
Proof. by rewrite Htarget, held_entries_app. Qed.

Lemma cut_kept : apart (concat (upper_runs p others)) (held_entries inputs).
Proof. rewrite upper_entries. apply Hch. Qed.

Lemma cut_results :
  StronglySorted run_newer (mem ++ held_runs g') /\
  collected wm (concat (mem ++ held_runs g)) (concat (mem ++ held_runs g')).
Proof.
  pose proof Hmem as Hm. pose proof Hcons as Hc. rewrite cut_old in Hm, Hc |- *. rewrite cut_new.
  pose proof kept_sorted as Hk. pose proof cut_upper as Hu. pose proof cut_target as Ht.
  pose proof cut_target' as Ht'. pose proof cut_kept as Ha. pose proof rest_apart as Hr.
  split.
  - by eapply (replaced_order A _ _ _ _ _ (held_entries inputs) (held_entries overlaps)).
  - by eapply (replaced_collected A _ _ _ _ _ (held_entries inputs) (held_entries overlaps)).
Qed.
End cut.

Lemma outs_either : StronglySorted (either held_below) (outs ++ rest).
Proof.
  apply StronglySorted_app. split; [|split].
  - intros o h Ho Hh. apply (clear_either tables' (held_entries (inputs ++ overlaps))).
    + pose proof (ch_clear _ _ _ _ _ _ _ _ Hch) as Hc. rewrite Forall_forall in Hc. by apply Hc.
    + pose proof Hholds as Hh'. apply plug_holds in Hh' as (_ & Ht & _).
      rewrite Htarget in Ht. apply Forall_app in Ht as [Ht _]. rewrite Forall_forall in Ht. by apply Ht.
    + intros e He. assert (e ∈ held_entries outs) as Hin by (apply held_entries_elem; by exists o).
      rewrite Hout in Hin. apply compact_elem in Hin as [Hin _].
      * unfold es in Hin. by rewrite held_entries_app.
      * intros e1 e2 H1 H2. apply (so_consistent _ _ _ _ Hok); unfold contents;
          rewrite contents_held, cut_old, concat_app, elem_of_app; right;
          rewrite concat_app, elem_of_app; cbn [concat];
          rewrite cut_upper, cut_target, !elem_of_app; unfold es in *; rewrite elem_of_app in *; tauto.
  - by apply pairwise_of_sorted.
  - pose proof old_disjoint as Hd. apply plug_target_sorted in Hd as [Ht _].
    apply pairwise_of_sorted, (pairwise_perm _ _ _ (ch_target _ _ _ _ _ _ _ _ Hch)), StronglySorted_app in Ht.
    apply Ht.
Qed.

Lemma new_disjoint : Forall (StronglySorted held_below) g'.2.
Proof.
  assert (StronglySorted held_below target') as Ht.
  { apply (sorted_below tables'); [|done|].
    - pose proof Hholds as Hh. by apply plug_holds in Hh as (_ & Hh & _).
    - eapply pairwise_perm; [symmetry; exact Htarget | apply outs_either]. }
  pose proof old_disjoint as Hd. unfold g, g' in *. clear -Hd Hsub Ht.
  destruct p as [below|l0 above below]; cbn [plug snd] in *; rewrite ?Forall_cons, ?Forall_app, ?Forall_cons in *;
    [tauto|]. destruct Hd as (H1 & H2 & H3 & H4 & H5). repeat (split; [done|]). split; [|done].
  by eapply sublist_sorted.
Qed.

Lemma replaced_state :
  state_ok tables' st' g'.1.*2 (map (fmap snd) g'.2) /\ held_state tables' st' g' /\
  contents st' g'.1.*2 (map (fmap snd) g'.2) ⊆ contents st g.1.*2 (map (fmap snd) g.2) /\
  forall mem, mem = [] \/ mem = mem_runs st ->
    collected wm (concat (mem ++ held_runs g)) (concat (mem ++ held_runs g')).
Proof.
  assert (mem_runs st' = mem_runs st) as Em by done.
  pose proof (so_order _ _ _ _ Hok) as Hord. pose proof (so_consistent _ _ _ _ Hok) as Hc.
  unfold contents in Hc. rewrite contents_held in Hord, Hc.
  destruct (cut_results (mem_runs st) Hord Hc) as (O1 & R1). pose proof (co_sub _ _ _ R1) as S1.
  assert (contents st' g'.1.*2 (map (fmap snd) g'.2) ⊆ contents st g.1.*2 (map (fmap snd) g.2)) as HS.
  { unfold contents. by rewrite !contents_held, Em. }
  assert (held_state tables' st' g') as Hst' by by constructor.
  pose proof (proj1 (Forall_app _ _ _) Hholds) as [Hh1 Hh2].
  split; [|split; [done|split; [done|]]].
  - constructor.
    + apply Hok.
    + apply holds_zip. by exists g'.1.
    + apply holds_zip_levels. by exists g'.2.
    + unfold g'. by destruct p.
    + apply disjoint_held, new_disjoint.
    + by rewrite contents_held, Em.
    + intros e e' He He'. by apply (so_consistent _ _ _ _ Hok); apply HS.
    + apply Forall_forall. intros e He. pose proof (so_seq _ _ _ _ Hok) as Hq.
      rewrite Forall_forall in Hq. by apply Hq, HS.
    + apply Hok.
  - intros mem [-> | ->]; [|exact R1]. apply runs_app in Hord as (_ & Hord & _).
    destruct (cut_results [] Hord) as (_ & R0); [|exact R0].
    intros e e' He He'. cbn [app] in He, He'. apply Hc; rewrite concat_app, elem_of_app; by right.
Qed.
End replaced_state.
End held.
