(* ===== verification/DbWrite.v ===== *)
(** * Writing to the database

    The write path of [src/db.rs]: write pressure and rate limiting, the group
    a leader applies, transactions' commits, recovery of the log and
    [DB::open]. *)

From Stdlib Require Import Sorting.Sorted.
From stdpp Require Import base list gmap strings sorting.
From S2P Require Import Prelude Key Spec Memtable Coding Batch Env Externals Wal Block Cache.
From S2P Require Import Format Properties Table Reader TableCache Version Options Metrics.
From S2P Require Import Compact Mvcc DbState DbRead DbMem DbFlush DbCompact.

Section write.
Context `{X : Externals} `{H : HashOrder} `{N : NumberHashOrder} `{SM : arena_skip_map}
  `{O : OsMessages}.

Definition apply_write_pressure : M (Db SM) unit :=
  d ← get_state;
  let l0_count := len (st_l0_tables (db_state d)) in
  if level0_stop_writes_trigger (db_options d) <=? l0_count
  then compact_range Unbounded Unbounded
  else if level0_slowdown_writes_trigger (db_options d) <=? l0_count
  then sleep (5 * 10 ^ 6)
  else mret tt.

Definition apply_write_rate_limit (n : u64) : M (Db SM) unit :=
  d ← get_state;
  match db_write_rate_limiter d with
  | None => mret tt
  | Some limiter =>
      let '(r, limiter) := reserve n (db_now d) limiter in
      _ ← modify (set_rate_limiter limiter);
      wait ← lift r;
      if wait =? 0 then mret tt else sleep wait
  end.

(** A batch of a group, its options and its first sequence number. *)
Record GroupWriteItem : Type := mkGroupWriteItem {
  gi_batch : WriteBatch;
  gi_opts : WriteOptions;
  gi_user_write_bytes : u64;
  gi_start_sequence : u64
}.

Definition group_item (request : WriteBatch * WriteOptions) : GroupWriteItem :=
  mkGroupWriteItem request.1 request.2 (batch_user_write_bytes request.1) 0.

(** The first loop: consecutive sequence numbers. *)
Definition number_item (acc : u64 * list GroupWriteItem) (item : GroupWriteItem) :
    u64 * list GroupWriteItem :=
  let '(next_sequence, items) := acc in
  (wrap64 (next_sequence + len (records (gi_batch item))),
   items ++ [mkGroupWriteItem (gi_batch item) (gi_opts item) (gi_user_write_bytes item)
     next_sequence]).

(** The body of the loop over the log; the flag says whether to sync. *)
Definition log_item (wal_sync : WalSyncMode) (item : GroupWriteItem) (should_sync : bool) :
    M (Db SM) bool :=
  if wo_disable_wal (gi_opts item) then mret should_sync
  else
    let payload := encode_with_sequence (gi_batch item) (gi_start_sequence item) in
    _ ← on_metrics (record_wal_write (wal_record_bytes payload));
    _ ← on_wal (wal_append payload);
    mret (should_sync || (wo_sync (gi_opts item) || bool_decide (wal_sync = PerWrite))).

Definition sync_log : M (Db SM) unit :=
  _ ← on_wal wal_sync; on_metrics record_wal_sync.

Definition log_items (items : list GroupWriteItem) : M (Db SM) unit :=
  d ← get_state;
  if wal_enabled (db_options d) then
    should_sync ← for_each items (log_item (wal_sync_mode (db_options d))) false;
    if (should_sync : bool) then sync_log else mret tt
  else mret tt.

(** A batch enters the mutable memtable, which is frozen when it is full. *)
Definition apply_and_freeze (start_sequence : u64) (batch : WriteBatch) : M (Db SM) bool := fun d =>
  let state := apply_batch start_sequence batch (db_state d) in
  let '(frozen, state) :=
    freeze_mutable_if_needed (memtable_size (db_options d)) (memtable_kind (db_options d)) state in
  (Ok frozen, set_state state d).

Definition apply_write_group_to_memtable (items : list GroupWriteItem) : M (Db SM) bool :=
  d ← get_state;
  if st_closed (db_state d) then fail Closed
  else
    let items := (foldl number_item (wrap64 (st_last_sequence (db_state d) + 1), []) items).2 in
    _ ← log_items items;
    for_each items (fun item should_flush =>
      frozen ← apply_and_freeze (gi_start_sequence item) (gi_batch item);
      mret (should_flush || frozen)) false.

(** One result for each request. *)
Definition apply_write_group (requests : list (WriteBatch * WriteOptions)) :
    M (Db SM) (list (res unit)) := fun d =>
  let items := map group_item requests in
  let total := foldl (fun n item => wrap64 (n + gi_user_write_bytes item)) 0 items in
  let work :=
    (_ ← on_metrics (record_user_write total);
     _ ← apply_write_rate_limit total;
     _ ← apply_write_pressure;
     should_flush ← apply_write_group_to_memtable items;
     if (should_flush : bool) then flush else mret tt) in
  match work d with
  | (Ok _, d) => (Ok (replicate (length requests) (Ok tt)), d)
  | (Err e, d) => (Ok (repeat_group_error e (length requests)), d)
  | (Panic, d) => (Panic, d)
  end.

(** [write] by a leader whose group has no other writer. *)
Definition db_write (batch : WriteBatch) (opts : WriteOptions) : M (Db SM) unit :=
  if batch_is_empty batch then mret tt
  else
    d ← get_state;
    _ ← (if wo_sync opts || bool_decide (wal_sync_mode (db_options d) = PerWrite)
         then sleep (write_group_max_delay_micros (db_options d) * 1000) else mret tt);
    results ← apply_write_group [(batch, opts)];
    match results with
    | r :: _ => lift r
    | [] => panic
    end.

Definition db_put (key value : bytes) : M (Db SM) unit :=
  db_write (batch_put batch_new key value) default_write_options.
Definition db_delete (key : bytes) : M (Db SM) unit :=
  db_write (batch_delete batch_new key) default_write_options.

Definition db_close : M (Db SM) unit := modify_state (with_closed true).
Definition db_sync_wal : M (Db SM) unit := sync_log.

Definition commit_transaction (seq : u64) (batch : WriteBatch) (read_keys : list (bytes * unit))
    (read_ranges : list ReadRange) : M (Db SM) unit :=
  let write_keys := batch_write_keys batch in
  let user_write_bytes := batch_user_write_bytes batch in
  _ ← on_metrics (record_user_write user_write_bytes);
  _ ← apply_write_rate_limit user_write_bytes;
  _ ← apply_write_pressure;
  d ← get_state;
  if st_closed (db_state d) then fail Closed
  else
    _ ← ensure_no_transaction_conflicts seq read_keys read_ranges write_keys;
    if batch_is_empty batch then mret tt
    else
      let start_sequence := wrap64 (st_last_sequence (db_state d) + 1) in
      _ ← (if wal_enabled (db_options d) then
             let payload := encode_with_sequence batch start_sequence in
             _ ← on_metrics (record_wal_write (wal_record_bytes payload));
             _ ← on_wal (wal_append payload);
             if bool_decide (wal_sync_mode (db_options d) = PerWrite) then sync_log else mret tt
           else mret tt);
      should_flush ← apply_and_freeze start_sequence batch;
      if (should_flush : bool) then flush else mret tt.

(** The database of the transactions of [Mvcc.v]. *)
#[export] Instance db_database : Database (Db SM) := {|
  db_get_opt := get_opt;
  db_scan_opt := scan_opt;
  db_commit_transaction := commit_transaction;
  db_watermark := db_snapshots;
  db_with_watermark := set_snapshots
|}.

(** ** Opening *)

Definition recover_payload (payload : bytes) (state : DBState SM) : res (DBState SM) :=
  d ← decode_payload payload;
  Ok (apply_batch d.1 d.2 state).

Definition recover_wal (path : string) (state : DBState SM) : M Fs (DBState SM) :=
  reader ← wal_open path;
  with_local reader (wal_for_each recover_payload state).

Definition db_open (path : string) (options : Options) (now : instant) : M Fs (Db SM) :=
  fs ← get_state;
  if env_exists path fs && error_if_exists options
  then fail (InvalidArgument ("database already exists: " ++ path))
  else if negb (env_exists path fs) && negb (create_if_missing options)
  then fail (InvalidArgument ("database does not exist: " ++ path))
  else
    _ ← create_dir_all path;
    fs ← get_state;
    versions ←
      (if env_exists (path_join path CURRENT_FILE) fs
       then vs_recover path (max_levels options)
       else vs_create path (max_levels options));
    let block_cache := block_cache_new (block_cache_capacity options) in
    tables ← (fun fs =>
      let '(r, (tc, fs)) :=
        open_version_tables path (vs_current versions) (table_cache_new 512, fs) in
      (fmap (fun ts => (ts, tc)) r, fs));
    let state := mkDBState (mt_new (memtable_kind options)) [] tables.1.1 tables.1.2
      (vs_last_sequence versions) false in
    let wal_path := path_join path (wal_file_name (vs_log_number versions)) in
    fs ← get_state;
    state ← (if env_exists wal_path fs then recover_wal wal_path state else mret state);
    wal ← wal_create wal_path;
    fs ← get_state;
    mret (mkDb path options state versions block_cache tables.2 watermark_new metrics_new
      (fmap (fun rate => rate_limiter_new rate now) (write_rate_limit_bytes_per_sec options))
      wal fs now).

(** The file system is a part of the database once it is open. *)
Definition open_db (path : string) (options : Options) (now : instant) (fs : Fs) : res (Db SM) * Fs :=
  let '(r, fs) := db_open path options now fs in
  (fmap (fun d => set_wal (db_wal d) fs d) r, fs).
End write.

(** ** Recovery of the log *)

Section recovery.
Context `{X : Externals} `{HX : !ExternalsOk X} `{H : HashOrder} `{SM : arena_skip_map}
  `{!SkipMapOk SM}.

(** The payloads of batches written one after the other. *)
Fixpoint log_payloads (seq : u64) (batches : list WriteBatch) : list bytes :=
  match batches with
  | [] => []
  | b :: batches =>
      encode_with_sequence b seq :: log_payloads (seq + len (records b)) batches
  end.

Definition all_records (batches : list WriteBatch) : list BatchRecord :=
  concat (map records batches).

Lemma view_after_app rs rs' v key : view_after (rs ++ rs') v key = view_after rs' (view_after rs v) key.
Proof. unfold view_after. by rewrite foldl_app. Qed.

(** [st'] is [st] after the records were applied: well formed, the records
    invisible at the old last sequence number and in effect at the new one,
    and the tables untouched. *)
Record applies (tables : Tables) (l0 : list (list entry)) (levels : list (list (list entry)))
    (rs : list BatchRecord) (st st' : DBState SM) : Prop := mkApplies {
  ap_ok : state_ok tables st' l0 levels;
  ap_last : st_last_sequence st' = st_last_sequence st + len rs;
  ap_closed : st_closed st' = st_closed st;
  ap_old : forall key s, s <= st_last_sequence st ->
    live key s (contents st' l0 levels) = live key s (contents st l0 levels);
  ap_new : forall key s, st_last_sequence st' <= s ->
    live key s (contents st' l0 levels)
    = view_after rs (fun k => live k s (contents st l0 levels)) key;
  ap_elem : forall e, e ∈ contents st' l0 levels -> e ∈ contents st l0 levels \/
    exists r s, r ∈ rs /\ u64_ok s /\ e = op_entry (record_op s r);
  ap_changed : forall key s, s <= st_last_sequence st ->
    changed_since key s (contents st' l0 levels)
    <-> changed_since key s (contents st l0 levels) \/ key ∈ map record_key rs;
  ap_l0_tables : st_l0_tables st' = st_l0_tables st;
  ap_level_tables : st_level_tables st' = st_level_tables st;
  ap_immutables : Forall (fun m => mt_entries m <> []) (st_immutables st) ->
    Forall (fun m => mt_entries m <> []) (st_immutables st');
  ap_mem : forall e, e ∈ concat (mem_runs st')
    <-> e ∈ concat (mem_runs st) \/ e ∈ written_entries (st_last_sequence st + 1) rs
}.

Lemma applies_refl tables l0 levels st :
  state_ok tables st l0 levels -> applies tables l0 levels [] st st.
Proof.
  intros Hok. constructor; try done; [rewrite len_nil; lia | by left| |].
  - intros key s _. cbn [map]. rewrite elem_of_nil. tauto.
  - intros e. cbn [written_entries]. rewrite elem_of_nil. tauto.
Qed.

Lemma applies_trans tables l0 levels rs rs' st1 st2 st3 :
  applies tables l0 levels rs st1 st2 -> applies tables l0 levels rs' st2 st3 ->
  applies tables l0 levels (rs ++ rs') st1 st3.
Proof.
  intros [_ L1 C1 O1 N1 M1 H1 T1 V1 I1 R1] [K L2 C2 O2 N2 M2 H2 T2 V2 I2 R2].
  pose proof (len_nonneg rs). pose proof (len_nonneg rs').
  constructor; [done | rewrite len_app; lia | congruence | | | | | congruence | congruence | auto |].
  - intros key s Hs. rewrite O2 by lia. by apply O1.
  - intros key s Hs. rewrite N2 by done. rewrite view_after_app. apply view_after_ext.
    apply N1. lia.
  - intros e He. apply M2 in He as [He | (r & s & Hr & He)].
    + apply M1 in He as [He | (r & s & Hr & He)]; [by left|]. right. exists r, s.
      split; [apply elem_of_app; by left | done].
    + right. exists r, s. split; [apply elem_of_app; by right | done].
  - intros key s Hs. rewrite H2, H1, map_app, elem_of_app by lia. tauto.
  - intros e. rewrite R2, R1, written_entries_app, elem_of_app.
    by replace (st_last_sequence st2 + 1) with (st_last_sequence st1 + 1 + len rs) by lia; tauto.
Qed.

Lemma apply_batch_tables seq rs (st : DBState SM) :
  let st' := (foldl apply_batch_record (seq, st) rs).2 in
  st_l0_tables st' = st_l0_tables st /\ st_level_tables st' = st_level_tables st /\
  st_immutables st' = st_immutables st.
Proof.
  revert seq st. induction rs as [|r rs IH]; intros seq st; [done|].
  cbn [foldl]. rewrite apply_batch_record_op.
  match goal with |- context [foldl _ (?q, ?t) rs] => exact (IH q t) end.
Qed.

Lemma apply_batch_closed seq rs (st : DBState SM) :
  st_closed (foldl apply_batch_record (seq, st) rs).2 = st_closed st.
Proof.
  revert seq st. induction rs as [|r rs IH]; intros seq st; [done|].
  cbn [foldl]. rewrite apply_batch_record_op. by rewrite IH.
Qed.

Lemma apply_batch_applies tables l0 levels batch (st : DBState SM) :
  state_ok tables st l0 levels -> st_last_sequence st + 1 + len (records batch) < 2 ^ 64 ->
  applies tables l0 levels (records batch) st (apply_batch (st_last_sequence st + 1) batch st).
Proof.
  intros Hok Hlt. destruct (so_last _ _ _ _ Hok) as [H0 _].
  destruct (apply_batch_ok tables _ l0 levels batch Hok) as (K & L & C & Old & New); [lia|].
  destruct (apply_batch_tables (st_last_sequence st + 1) (records batch) st) as (T0 & Tl & Ti).
  pose proof (so_mem _ _ _ _ Hok) as Hmem. unfold mem_runs in Hmem. cbn [map] in Hmem.
  apply Forall_cons in Hmem as [Hmut _].
  destruct (batch_mutable (records batch) (st_last_sequence st + 1) st) as (_ & _ & Hin & _);
    [lia | lia | lia | exact Hmut | |].
  { apply Forall_forall. intros e He. pose proof (so_seq _ _ _ _ Hok) as Hq. rewrite Forall_forall in Hq.
    assert (e ∈ contents st l0 levels) as [_ Hle]%Hq by (apply contents_mutable; by left). lia. }
  unfold apply_batch in *. constructor; try done; [| |by rewrite Ti|].
  - intros e. apply batch_elem; [lia | lia | apply Hok].
  - intros key s Hs. by eapply batch_changed; [| lia |].
  - intros e. unfold mem_runs. cbn [map concat]. rewrite !elem_of_app, Ti, Hin. tauto.
Qed.

(** Replaying the payloads of batches applies the batches. *)
Lemma recover_payloads_ok tables (st : DBState SM) l0 levels batches :
  state_ok tables st l0 levels -> Forall batch_fits batches ->
  st_last_sequence st + len (all_records batches) + 1 < 2 ^ 64 ->
  exists st', fold_res recover_payload st (log_payloads (st_last_sequence st + 1) batches) = Ok st' /\
    applies tables l0 levels (all_records batches) st st' /\ st_immutables st' = st_immutables st.
Proof.
  intros Hok Hf. revert st Hok. induction Hf as [|b batches Hb Hf IH]; intros st Hok Hlt.
  { exists st. split; [done|]. split; [by apply applies_refl | done]. }
  unfold all_records in *. cbn [map concat] in *. rewrite len_app in Hlt.
  pose proof (len_nonneg (records b)). pose proof (len_nonneg (concat (map records batches))).
  destruct (so_last _ _ _ _ Hok) as [Hs0 _].
  pose proof (apply_batch_applies tables l0 levels b st Hok ltac:(lia)) as A.
  pose proof (ap_last _ _ _ _ _ _ A) as Hl1.
  set (st1 := apply_batch (st_last_sequence st + 1) b st) in *.
  destruct (IH st1 (ap_ok _ _ _ _ _ _ A) ltac:(lia)) as (st' & E & A' & Ei).
  exists st'. split; [|split; [by eapply applies_trans|]].
  2: { rewrite Ei. by apply (apply_batch_tables (st_last_sequence st + 1) (records b) st). }
  cbn [log_payloads fold_res].
  unfold recover_payload at 1. rewrite decode_payload_encode by (done || unfold u64_ok; lia).
  cbn [mbind res_bind fst snd]. fold st1. rewrite <- E. f_equal. f_equal. lia.
Qed.

Lemma encode_nonempty b seq : u64_ok seq -> encode_with_sequence b seq <> [].
Proof.
  intros Hs. rewrite encode_with_sequence_bytes by done. intros E.
  apply app_eq_nil in E as [E _]. by apply varint_bytes_ne in E.
Qed.

Lemma log_payloads_loggable seq batches :
  0 <= seq -> seq + len (all_records batches) < 2 ^ 64 ->
  Forall (fun p => len p < 2 ^ 32) (log_payloads seq batches) ->
  Forall loggable (log_payloads seq batches).
Proof.
  revert seq. induction batches as [|b batches IH]; intros seq H0 Hlt; cbn [log_payloads]; [constructor|].
  unfold all_records in *. cbn [map concat] in Hlt. rewrite len_app in Hlt.
  pose proof (len_nonneg (records b)). pose proof (len_nonneg (concat (map records batches))).
  intros [Hb Hf]%Forall_cons. apply Forall_cons. split; [|apply IH; [lia | lia | done]].
  split; [|done]. apply encode_nonempty. unfold u64_ok. lia.
Qed.

(** The same over any state, and what it does to the mutable memtable: the
    versions of the records are inserted, whether or not the state has them. *)
Lemma recover_payloads_mutable (st : DBState SM) seq batches :
  Forall batch_fits batches -> 0 <= seq -> seq + len (all_records batches) < 2 ^ 64 ->
  seq - 1 <= st_last_sequence st -> StronglySorted (key_lt ikey_cmp) (mt_entries (st_mutable st)) ->
  Forall (fun e : entry => sequence e.1 < seq) (mt_entries (st_mutable st)) ->
  exists st', fold_res recover_payload st (log_payloads seq batches) = Ok st' /\
    StronglySorted (key_lt ikey_cmp) (mt_entries (st_mutable st')) /\
    (forall e, e ∈ mt_entries (st_mutable st')
      <-> e ∈ mt_entries (st_mutable st) \/ e ∈ written_entries seq (all_records batches)) /\
    st_last_sequence st' = Z.max (st_last_sequence st) (seq + len (all_records batches) - 1) /\
    st' = mkDBState (st_mutable st') (st_immutables st) (st_l0_tables st) (st_level_tables st)
      (st_last_sequence st') (st_closed st).
Proof.
  intros Hf. revert st seq. induction Hf as [|b batches Hb Hf IH]; intros st seq H0 Hlt Hl Hs Hbelow.
  { exists st. split; [done|]. split; [done|]. change (all_records []) with (@nil BatchRecord).
    cbn [written_entries]. rewrite len_nil. split; [intros e; rewrite elem_of_nil; tauto|].
    split; [lia | by destruct st]. }
  unfold all_records in *. cbn [map concat] in *. rewrite len_app in *.
  pose proof (len_nonneg (records b)). pose proof (len_nonneg (concat (map records batches))).
  destruct (batch_mutable (records b) seq st) as (S1 & B1 & I1 & L1); [lia | lia | lia | done | done |].
  destruct (apply_batch_tables seq (records b) st) as (T0 & Tl & Ti).
  pose proof (apply_batch_closed seq (records b) st) as Tc.
  set (st1 := (foldl apply_batch_record (seq, st) (records b)).2) in *.
  destruct (IH st1 (seq + len (records b))) as (st' & E & S2 & I2 & L2 & Est); [lia | lia | lia | done | done |].
  exists st'. split; [|split; [done|split; [|split]]].
  - cbn [log_payloads fold_res]. unfold recover_payload at 1.
    rewrite decode_payload_encode by (done || unfold u64_ok; lia). exact E.
  - intros e. rewrite I2, I1, written_entries_app, elem_of_app. tauto.
  - rewrite L2, L1. lia.
  - rewrite Est at 1. by rewrite Ti, T0, Tl, Tc.
Qed.

Lemma recover_wal_replays (st st' : DBState SM) payloads torn path fs :
  fold_res recover_payload st payloads = Ok st' -> Forall loggable payloads -> torn_tail torn ->
  fs_files fs !! path = Some (log_bytes payloads ++ torn) ->
  Forall u8_ok (log_bytes payloads ++ torn) -> fs_oracle fs = [] ->
  recover_wal path st fs = (Ok st', fs).
Proof.
  intros E Hlog Ht Hfile Hu8 Ho. set (log := log_bytes _ ++ torn) in *.
  assert (wal_open path fs = (Ok (mkWalReader (mkReadableFile log 0)), fs)) as Ew.
  { unfold wal_open. erewrite bind_ok; [reflexivity|]. unfold open_readable.
    rewrite fallible_ok by done. by rewrite Hfile. }
  destruct (wal_for_each_replay recover_payload st (mkWalReader (mkReadableFile log 0)) fs
    (reads_ok_nil _ Ho)) as (rd' & fs2 & E2 & _ & Hf2); [by split|].
  destruct (calm_wal_for_each recover_payload st (mkWalReader (mkReadableFile log 0), fs) Ho)
    as [Ho2 Hd2].
  rewrite E2 in Ho2, Hd2. cbn [snd] in Ho2, Hd2.
  assert (fs2 = fs) as -> by (destruct fs, fs2; cbn in *; congruence).
  unfold recover_wal. erewrite bind_ok by exact Ew. unfold with_local. rewrite E2. f_equal.
  change (reader_rest (mkWalReader (mkReadableFile log 0))) with log. unfold log.
  rewrite replay_all_log; [exact E | done | by apply parse_torn_tail].
Qed.

(** A log to which batches were appended one after the other, and whose last
    record may have been torn. *)
Lemma recover_wal_ok tables (st : DBState SM) l0 levels batches torn path fs :
  state_ok tables st l0 levels -> Forall batch_fits batches ->
  st_last_sequence st + len (all_records batches) + 1 < 2 ^ 64 ->
  Forall (fun p => len p < 2 ^ 32) (log_payloads (st_last_sequence st + 1) batches) ->
  torn_tail torn ->
  fs_files fs !! path = Some (log_bytes (log_payloads (st_last_sequence st + 1) batches) ++ torn) ->
  Forall u8_ok (log_bytes (log_payloads (st_last_sequence st + 1) batches) ++ torn) ->
  fs_oracle fs = [] ->
  exists st', recover_wal path st fs = (Ok st', fs) /\
    applies tables l0 levels (all_records batches) st st' /\ st_immutables st' = st_immutables st.
Proof.
  intros Hok Hf Hlt Hlen Ht Hfile Hu8 Ho.
  destruct (recover_payloads_ok tables st l0 levels batches Hok Hf Hlt) as (st' & E & A & Ei).
  destruct (so_last _ _ _ _ Hok) as [Hs0 _].
  pose proof (log_payloads_loggable (st_last_sequence st + 1) batches ltac:(lia) ltac:(lia) Hlen) as Hlog.
  exists st'. split; [|by split]. by eapply recover_wal_replays.
Qed.
End recovery.
