(* ===== verification/DbSettled.v ===== *)
(** * Between two operations

    What holds of an open database between two calls of its client: the log
    holds the batches written since the last flush, and the memtables what they
    make of the tables, so that a crash loses nothing ([durable]); nothing
    waits to be flushed; no snapshot is newer than the last write
    ([settled]).  [written] says what an operation may change of what reads
    see.  A flush keeps both. *)

From Stdlib Require Import Sorting.Sorted.
From stdpp Require Import base list gmap strings sorting.
From S2P Require Import Prelude Key Spec Memtable Coding Batch Env Externals Wal Block Cache.
From S2P Require Import Format Properties Table Reader TableCache Version Options Metrics.
From S2P Require Import Compact Mvcc DbState DbRead DbMem DbFlush DbInv DbFlushOk DbCompact.
From S2P Require Import DbWrite.

Section settled.
Context `{X : Externals} `{HX : !ExternalsOk X} `{H : HashOrder} `{N : NumberHashOrder}
  `{SM : arena_skip_map} `{!SkipMapOk SM}.

(** Records the formats of the log and of tables can hold. *)
Definition record_storable (r : BatchRecord) : Prop :=
  match r with
  | BPut key value => len key < 2 ^ 30 /\ Forall u8_ok key /\ len value < 2 ^ 32 /\ Forall u8_ok value
  | BDelete key => len key < 2 ^ 30 /\ Forall u8_ok key
  end.

#[export] Instance u8_ok_dec z : Decision (u8_ok z).
Proof. unfold u8_ok. apply _. Defined.
#[export] Instance record_storable_dec r : Decision (record_storable r).
Proof. destruct r; cbn [record_storable]; apply _. Defined.

Lemma record_entry_storable seq r :
  u64_ok seq -> record_storable r -> entry_storable (op_entry (record_op seq r)).
Proof.
  intros Hs Hr. destruct r as [k v|k]; cbn in Hr |- *; unfold entry_storable, entry_fits, ikey_fits; cbn.
  - destruct Hr as (Hk & Hb & Hv & _). split_and!; try done; lia.
  - destruct Hr as [Hk Hb]. split_and!; try done; lia.
Qed.


(** ** What a crash would keep *)

(** A batch whose payload fits the length field of a log record. *)
Definition batch_loggable (batch : WriteBatch) : Prop :=
  batch_fits batch /\ forall seq, u64_ok seq ->
    len (encode_with_sequence batch seq) < 2 ^ 32 /\ Forall u8_ok (encode_with_sequence batch seq).

Lemma varint_wrap_u8 n : Forall u8_ok (varint_bytes 10 (wrap32 n)).
Proof. apply varint_bytes_u8, u32_ok_wrap. Qed.

Lemma record_bytes_ok r :
  record_storable r -> record_fits r /\ 1 <= len (record_bytes r) /\ Forall u8_ok (record_bytes r).
Proof.
  intros Hr. destruct r as [k v|k]; cbn [record_storable record_fits record_bytes] in *;
    rewrite len_cons; (split; [|split]).
  - lia.
  - pose proof (len_nonneg (varint_bytes 10 (wrap32 (len k)) ++ k
      ++ varint_bytes 10 (wrap32 (len v)) ++ v)). lia.
  - destruct Hr as (_ & Hk & _ & Hv). constructor; [done|].
    repeat (apply Forall_app; split); first [done | apply varint_wrap_u8].
  - lia.
  - pose proof (len_nonneg (varint_bytes 10 (wrap32 (len k)) ++ k ++ varint_bytes 10 0)). lia.
  - destruct Hr as (_ & Hk). constructor; [done|].
    repeat (apply Forall_app; split); first [done | apply varint_wrap_u8 | by apply varint_bytes_u8].
Qed.

(** It is enough that the records fit and that there is room for the two
    counts in front of them. *)
Lemma batch_loggable_small batch :
  Forall record_storable (records batch) -> 20 + len (concat (map record_bytes (records batch))) < 2 ^ 32 ->
  batch_loggable batch.
Proof.
  intros Hr Hl.
  assert (len (records batch) <= len (concat (map record_bytes (records batch))) /\
    Forall u8_ok (concat (map record_bytes (records batch)))) as [Hn Hu].
  { clear Hl. induction Hr as [|r rs Hr _ [IHn IHu]]; [by split|]. cbn [map concat].
    destruct (record_bytes_ok r Hr) as (_ & H1 & Hu). rewrite len_cons, len_app, Forall_app.
    split; [lia | done]. }
  split; [split; [lia|]|].
  - eapply Forall_impl; [exact Hr|]. intros r Hs. by apply record_bytes_ok.
  - intros seq Hs. rewrite encode_with_sequence_bytes by done. split.
    + rewrite !len_app. pose proof (varint_bytes_len (wrap32 (len (records batch)))).
      pose proof (varint_bytes_len seq). lia.
    + rewrite !Forall_app. split; [apply varint_wrap_u8|].
      split; [apply varint_bytes_u8, Hs | exact Hu].
Qed.

Definition table_contents (l0 : list (list entry)) (levels : list (list (list entry))) : list entry :=
  concat (l0 ++ map (@concat entry) levels).

(** The log holds, one record each, the batches written since the last flush,
    and what is stored is what they make of the tables. *)
Record durable (l0 : list (list entry)) (levels : list (list (list entry)))
    (batches : list WriteBatch) (d : Db SM) : Prop := mkDurable {
  du_batches : Forall batch_loggable batches;
  du_storable : Forall record_storable (all_records batches);
  du_wal : writes_at_end (ww_file (db_wal d)) (db_fs d)
    (log_bytes (log_payloads (vs_last_sequence (db_versions d) + 1) batches));
  du_last : st_last_sequence (db_state d)
    = vs_last_sequence (db_versions d) + len (all_records batches);
  du_manifest_last : 0 <= vs_last_sequence (db_versions d);
  du_tables : Forall (fun e : entry => sequence e.1 <= vs_last_sequence (db_versions d))
    (table_contents l0 levels);
  du_live : forall key s, st_last_sequence (db_state d) <= s ->
    live key s (contents (db_state d) l0 levels)
    = view_after (all_records batches) (fun k => live k s (table_contents l0 levels)) key;
  du_mem : forall e, e ∈ concat (mem_runs (db_state d))
    <-> e ∈ written_entries (vs_last_sequence (db_versions d) + 1) (all_records batches)
}.

Lemma log_payloads_snoc seq batches b :
  log_payloads seq (batches ++ [b])
  = log_payloads seq batches ++ [encode_with_sequence b (seq + len (all_records batches))].
Proof.
  revert seq. induction batches as [|b0 batches IH]; intros seq; cbn [log_payloads app].
  - by rewrite Z.add_0_r.
  - rewrite IH. unfold all_records. cbn [map concat]. by rewrite len_app, Z.add_assoc.
Qed.

Lemma log_bytes_snoc payloads p : log_bytes (payloads ++ [p]) = log_bytes payloads ++ wal_record p.
Proof. unfold log_bytes. rewrite map_app, concat_app. cbn. by rewrite app_nil_r. Qed.

Lemma all_records_snoc batches b : all_records (batches ++ [b]) = all_records batches ++ records b.
Proof. unfold all_records. rewrite map_app, concat_app. cbn. by rewrite app_nil_r. Qed.

(** When the memtables are empty everything is in the tables. *)
Lemma durable_flushed tables l0 levels (d : Db SM) :
  state_ok tables (db_state d) l0 levels -> mem_runs (db_state d) = [[]] ->
  vs_last_sequence (db_versions d) = st_last_sequence (db_state d) ->
  writes_at_end (ww_file (db_wal d)) (db_fs d) [] ->
  durable l0 levels [] d.
Proof.
  intros Hok Hm Hl Hw. assert (contents (db_state d) l0 levels = table_contents l0 levels) as Hc
    by (unfold contents, runs; by rewrite Hm).
  pose proof (so_last _ _ _ _ Hok) as [Hl0 _].
  constructor; rewrite ?Hl; try done.
  - change (len (all_records [])) with 0. lia.
  - pose proof (so_seq _ _ _ _ Hok) as Hs. rewrite Hc in Hs.
    eapply Forall_impl; [exact Hs|]. intros e [_ He]. exact He.
  - intros key s _. by rewrite Hc.
  - intros e. by rewrite Hm.
Qed.

(** ** A write *)

(** No live snapshot is newer than the last write. *)
Definition snapshots_old (d : Db SM) : Prop :=
  forall oldest, watermark_oldest (db_snapshots d) = Some oldest ->
    oldest <= st_last_sequence (db_state d).

(** A read at [s] that the watermark protects: a snapshot at or before [s] is
    live. *)
Definition protected (d : Db SM) (s : u64) : Prop :=
  exists oldest, watermark_oldest (db_snapshots d) = Some oldest /\ oldest <= s.

(** An open database in order between two operations of a client: nothing
    waits to be flushed. *)
Record settled (tables : Tables) (l0 : list (list entry)) (levels : list (list (list entry)))
    (batches : list WriteBatch) (d : Db SM) : Prop := mkSettled {
  se_inv : db_inv tables l0 levels d;
  se_immutables : st_immutables (db_state d) = [];
  se_durable : durable l0 levels batches d;
  se_oldest : snapshots_old d
}.

(** [d'] is [d] after [rs] were written: reads of now see them, reads that a
    snapshot protects do not. *)
Record written (l0 l0' : list (list entry)) (levels levels' : list (list (list entry)))
    (rs : list BatchRecord) (d d' : Db SM) : Prop := mkWritten {
  wn_path : db_path d' = db_path d;
  wn_options : db_options d' = db_options d;
  wn_snapshots : db_snapshots d' = db_snapshots d;
  wn_last : st_last_sequence (db_state d') = st_last_sequence (db_state d) + len rs;
  wn_old : forall key s, protected d s -> s <= st_last_sequence (db_state d) ->
    live key s (contents (db_state d') l0' levels') = live key s (contents (db_state d) l0 levels);
  wn_new : forall key s, st_last_sequence (db_state d') <= s ->
    live key s (contents (db_state d') l0' levels')
    = view_after rs (fun k => live k s (contents (db_state d) l0 levels)) key;
  wn_changed : forall key s, protected d s -> s <= st_last_sequence (db_state d) ->
    changed_since key s (contents (db_state d') l0' levels')
    <-> changed_since key s (contents (db_state d) l0 levels) \/ key ∈ map record_key rs
}.

(** The same entries. *)
Lemma written_same l0 l0' levels (d d' : Db SM) :
  db_path d' = db_path d -> db_options d' = db_options d -> db_snapshots d' = db_snapshots d ->
  st_last_sequence (db_state d') = st_last_sequence (db_state d) ->
  contents (db_state d') l0' levels = contents (db_state d) l0 levels ->
  written l0 l0' levels levels [] d d'.
Proof.
  intros Hp Ho Hs Hl Hc. constructor; rewrite ?Hc; try done.
  - rewrite Hl, len_nil. lia.
  - intros key s _ _. cbn [map]. rewrite elem_of_nil. tauto.
Qed.

Lemma written_refl l0 levels (d : Db SM) : written l0 l0 levels levels [] d d.
Proof. by apply written_same. Qed.

Lemma written_trans l0 l1 l2 levels v1 v2 rs rs' (d1 d2 d3 : Db SM) :
  written l0 l1 levels v1 rs d1 d2 -> written l1 l2 v1 v2 rs' d2 d3 ->
  written l0 l2 levels v2 (rs ++ rs') d1 d3.
Proof.
  intros [P1 O1 S1 L1 Old1 New1 Ch1] [P2 O2 S2 L2 Old2 New2 Ch2].
  pose proof (len_nonneg rs). pose proof (len_nonneg rs').
  constructor; [congruence | congruence | congruence | rewrite len_app; lia | | |].
  - intros key s Hp Hs. rewrite Old2; [by apply Old1 | | lia]. unfold protected. by rewrite S1.
  - intros key s Hs. rewrite New2, view_after_app by done. apply view_after_ext. apply New1. lia.
  - intros key s Hp Hs. rewrite Ch2 by (unfold protected in *; rewrite ?S1; done || lia).
    rewrite Ch1, map_app, elem_of_app by done. tauto.
Qed.

(** A flush of the only memtable that holds anything. *)
Lemma flush_settles tables l0 levels (d : Db SM) m src st' :
  db_inv tables l0 levels d ->
  take_oldest_flushable_memtable (memtable_kind (db_options d)) (db_state d) = (Some (m, src), st') ->
  mem_runs st' = [[]] ->
  vs_last_sequence (db_versions d) <= st_last_sequence (db_state d) -> snapshots_old d ->
  vs_next_file_number (db_versions d) < 2 ^ 62 ->
  table_bounded (db_options d) (mt_entries m) ->
  exists d' tables' l0', flush d = (Ok tt, d') /\ settled tables' l0' levels [] d' /\
    written l0 l0' levels levels [] d d'.
Proof.
  intros Hinv Ht Hm Hlast Hold Hnum Hb.
  destruct (flush_ok tables l0 levels d m src st' Hinv Ht Hnum Hb)
    as (mn & readers & d' & tables' & t & E & Hr & Hinv' & Hc).
  exists d', tables', (mt_entries m :: l0). split; [done|].
  pose proof (fr_state _ _ _ _ _ _ _ _ _ Hr) as Est.
  destruct (take_runs _ _ _ _ _ Ht) as (_ & _ & _ & _ & Els & _).
  assert (st_last_sequence (db_state d') = st_last_sequence (db_state d)) as Els' by by rewrite Est.
  split.
  - constructor; [done | | |].
    + rewrite Est. unfold mem_runs in Hm. cbn [with_tables st_immutables]. apply (f_equal length) in Hm.
      rewrite length_map in Hm. cbn [length] in Hm. rewrite length_rev in Hm.
      by destruct (st_immutables st').
    + apply (durable_flushed tables'); [apply Hinv' | | |].
      * by rewrite Est.
      * rewrite (fr_last _ _ _ _ _ _ _ _ _ Hr), Els'. lia.
      * apply (fr_wal_end _ _ _ _ _ _ _ _ _ Hr).
    + intros o. rewrite (fr_snapshots _ _ _ _ _ _ _ _ _ Hr), Els'. apply Hold.
  - by apply written_same; [apply Hr..| |].
Qed.

(** [flush] between two operations: nothing, or the mutable memtable. *)
Lemma flush_now_ok tables l0 levels batches (d : Db SM) :
  settled tables l0 levels batches d ->
  vs_next_file_number (db_versions d) < 2 ^ 62 ->
  table_bounded (db_options d) (mt_entries (st_mutable (db_state d))) ->
  exists d' tables' l0' batches', flush d = (Ok tt, d') /\ settled tables' l0' levels batches' d' /\
    written l0 l0' levels levels [] d d'.
Proof.
  intros [Hinv Himm Hdur Hold] Hnum Hb. pose proof Hinv as [[Hok _ Hopen] _].
  destruct (mt_entries (st_mutable (db_state d))) as [|e es] eqn:Em.
  - exists d, tables, l0, batches. split; [|split; [done | apply written_refl]].
    apply flush_none; [done|]. unfold mem_runs. by rewrite Himm, <- Em.
  - set (st' := with_mutable (mt_new (memtable_kind (db_options d))) (db_state d)).
    destruct (flush_settles tables l0 levels d (st_mutable (db_state d)) SrcMutable st' Hinv)
      as (d' & tables' & l0' & E & Hs & Hw); [| | | done | done | by rewrite Em |].
    + unfold take_oldest_flushable_memtable. rewrite Himm, mt_is_empty_entries. by rewrite Em.
    + unfold mem_runs, st'. cbn. by rewrite Himm, mt_new_entries.
    + rewrite (du_last _ _ _ _ Hdur). pose proof (len_nonneg (all_records batches)). lia.
    + by exists d', tables', l0', [].
Qed.

End settled.
