(* ===== verification/DbCompactOk.v ===== *)
(** * A compaction keeps what is stored

    [execute_compaction] on an open database in order, with a task of the
    picker and a file system that does not fail: it succeeds, the database is
    in order again, and no read of now, or at a sequence number that a live
    snapshot protects, is answered differently. *)

From Stdlib Require Import Sorting.Sorted.
From stdpp Require Import base list gmap strings sorting.
From S2P Require Import Prelude Key Spec Memtable Coding Batch Env Externals Wal Block Cache.
From S2P Require Import Format Properties Table Reader TableCache Version Options Metrics.
From S2P Require Import Compact Mvcc DbState DbRead DbMem DbFlush DbInv DbFlushOk DbCompact.
From S2P Require Import DbCompactIo DbLevels DbWrite DbSettled.

Section compact_ok.
Context `{X : Externals} `{HX : !ExternalsOk X} `{H : HashOrder} `{N : NumberHashOrder}
  `{SM : arena_skip_map} `{!SkipMapOk SM}.

(** ** The version *)

Lemma remove_numbers (l p q : list Held) :
  NoDup (map held_number l) -> l ≡ₚ p ++ q ->
  filter (fun h => held_number h ∉ map held_number p) l ≡ₚ q.
Proof.
  intros Hnd Hp.
  assert (NoDup (map held_number p ++ map held_number q)) as (_ & Hd & _)%NoDup_app
    by (rewrite <- map_app, <- Hp; exact Hnd).
  rewrite Hp, filter_app. rewrite filter_none, filter_all; [done | |]; apply Forall_forall; intros h Hh.
  - intros Hin. by apply (Hd _ Hin), list_elem_of_fmap_2.
  - intros Hn. apply Hn. by apply list_elem_of_fmap_2.
Qed.

Section task_version.
Context (v : Version) (t : CompactionTask) (p : Place)
  (upper target inputs others overlaps rest : list Held).
Context (Hn : names v (plug p upper target))
  (Hch : chosen t p upper target inputs others overlaps rest)
  (Hnd : NoDup (map held_number (upper ++ target))).

Lemma input_level f :
  input_level_of t f = if decide (fm_number f ∈ map held_number inputs) then place_level p else place_level p + 1.
Proof.
  unfold input_level_of. rewrite (ch_level _ _ _ _ _ _ _ _ Hch), (ch_output _ _ _ _ _ _ _ _ Hch).
  rewrite (ch_inputs _ _ _ _ _ _ _ _ Hch). destruct (existsb _ _) eqn:E; case_decide as Hin; try done; exfalso.
  - apply existsb_exists in E as (f' & (h & <- & Hh)%in_map_iff & En). apply Hin.
    apply Z.eqb_eq in En. rewrite <- En. by apply (list_elem_of_fmap_2 held_number), list_elem_of_In.
  - apply list_elem_of_fmap in Hin as (h & Eh & Hh).
    assert (existsb (fun input => fm_number input =? fm_number f) (map held_file inputs) = true); [|congruence].
    apply existsb_exists. exists (held_file h). split; [by apply in_map, list_elem_of_In|].
    apply Z.eqb_eq. by rewrite Eh.
Qed.

Lemma deletes_elem l n :
  (l, n) ∈ task_deletes t <->
  (l = place_level p /\ n ∈ map held_number inputs) \/
  (l = place_level p + 1 /\ n ∈ map held_number overlaps /\ (n ∉ map held_number inputs)).
Proof.
  unfold task_deletes, all_input_files. rewrite (ch_inputs _ _ _ _ _ _ _ _ Hch), (ch_overlaps _ _ _ _ _ _ _ _ Hch).
  rewrite <- map_app, map_map. rewrite list_elem_of_fmap. setoid_rewrite input_level. split.
  - intros (h & [= -> ->] & Hh). change (fm_number (held_file h)) with (held_number h).
    case_decide as Hd; [by left|]. right. split; [done|]. split; [|done].
    apply elem_of_app in Hh as [Hh|Hh]; [by destruct Hd; apply list_elem_of_fmap_2 | by apply list_elem_of_fmap_2].
  - intros [[-> (h & -> & Hh)%list_elem_of_fmap] | (-> & (h & -> & Hh)%list_elem_of_fmap & Hni)];
      exists h; change (fm_number (held_file h)) with (held_number h).
    + rewrite decide_True by by apply list_elem_of_fmap_2. split; [done|]. apply elem_of_app. by left.
    + rewrite decide_False by done. split; [done|]. apply elem_of_app. by right.
Qed.

(** Deleting the task's tables and adding the new ones [outs]. *)
Lemma task_version vs (outs : list Held) :
  vs_current vs = v -> version_wf v -> place_level p + 1 < len (v_levels v) ->
  Forall (fun h => 0 <= held_number h < 2 ^ 64 - 1 /\ held_number h < vs_next_file_number vs) outs ->
  exists v' others' target',
    replay_edits (map delete_edit (task_deletes t) ++ map (AddFile (ct_output_level t)) (map held_file outs)) vs
      = (Ok tt, vs_with_current v' vs) /\
    others' `sublist_of` upper /\ (others' ≡ₚ others) /\ (target' ≡ₚ outs ++ rest) /\
    names v' (plug p others' target') /\ level_sorted (map held_file target').
Proof.
  intros Ev Hwf Hl Hnum. pose proof (level_nonneg p) as Hp.
  pose proof (names_target _ _ _ _ Hn) as Etarget. pose proof (names_upper _ _ _ _ Hn) as Eupper.
  assert (forall w l, 0 < l -> version_files w l = level_files w l) as Efiles.
  { intros w l Hpos. unfold version_files. by destruct (Z.eqb_spec l 0); [lia|]. }
  rewrite <- Efiles in Etarget by lia.
  assert (valid_level v (place_level p)) as Vu by (unfold valid_level; lia).
  assert (valid_level v (place_level p + 1)) as Vt by (right; lia).
  destruct (replay_deletes (task_deletes t) vs) as (v1 & E1 & L1 & F1).
  { rewrite Ev. apply Forall_forall. intros [l n] [[-> _]|[-> _]]%deletes_elem; (split; [cbn; lia | done]). }
  rewrite Ev in L1, F1.
  assert (valid_level (vs_current (vs_with_current v1 vs)) (place_level p + 1)) as Vt1
    by by eapply valid_level_like.
  destruct (replay_adds (place_level p + 1) (map held_file outs) (vs_with_current v1 vs))
    as (v' & E2 & L2 & F2 & O2); [lia | exact Vt1 | |].
  { apply (List.Forall_map held_file). exact Hnum. }
  pose proof (version_like_trans _ _ _ L1 L2) as L.
  set (others' := filter (fun h => held_number h ∉ map held_number inputs) upper).
  set (rest' := filter (fun h => held_number h ∉ map held_number overlaps) target).
  rewrite map_app in Hnd. apply NoDup_app in Hnd as (Hndu & Hdisj & Hndt).
  assert (version_files v1 (place_level p) = map held_file others') as Eu1.
  { rewrite F1, Eupper, filter_files by lia. unfold others'. f_equal. apply list_filter_iff. intros h.
    rewrite deletes_elem. unfold held_number. split; [tauto|]. intros Hh [[_ ?]|[? _]]; [done | lia]. }
  assert (version_files v1 (place_level p + 1) = map held_file rest') as Et1.
  { rewrite F1, Etarget, filter_files by lia. unfold rest'. f_equal.
    apply filter_iff_in. intros h Hh. rewrite deletes_elem. split; [|naive_solver lia].
    intros Hd Hin. apply Hd. right. split; [done|]. split; [done|]. intros Hi.
    apply (Hdisj (held_number h)); [|by apply list_elem_of_fmap_2].
    rewrite (ch_upper _ _ _ _ _ _ _ _ Hch), map_app. apply elem_of_app. by left. }
  cbn [vs_current vs_with_current] in F2, O2. rewrite Et1, <- map_app in F2.
  destruct (Permutation_map_inv _ _ F2) as (target' & Et' & Hpt).
  exists v', others', target'.
  assert (names v' (plug p others' target')) as Hn'.
  { apply (names_plug v v' p upper target); [done | done | | done |].
    - by rewrite O2, Eu1 by lia.
    - intros l H0 H1 H2. rewrite O2, F1 by lia. apply filter_all, Forall_forall. intros f _ Hd.
      apply deletes_elem in Hd. naive_solver. }
  split; [|split; [|split; [|split; [|split; [done|]]]]].
  - rewrite (ch_output _ _ _ _ _ _ _ _ Hch). by rewrite (replay_app _ _ _ _ E1), E2.
  - apply sublist_filter.
  - by apply remove_numbers; [|apply Hch].
  - rewrite <- Hpt. f_equiv. by apply remove_numbers; [|apply Hch].
  - destruct Hn' as [_ El]. pose proof (plug_lookup p others' target') as [Lt _].
    apply L in Hwf. unfold version_wf in Hwf. rewrite El, Forall_forall in Hwf.
    apply Hwf. apply list_elem_of_fmap_2. by eapply list_elem_of_lookup_2.
Qed.
End task_version.

(** ** The database with other tables *)

(** [d'] is [d] with the tables of [g'] in place of those of [d]: [n] new
    files are written and the tables [removed] are deleted. *)
Record rebuilt (d d' : Db SM) (tables' : Tables) (n : nat) (mn : u64) (removed : list u64)
    (g' : HeldLevels) : Prop := mkRebuilt {
  rb_state : db_state d' = with_tables g'.1.*1 (map (fmap fst) g'.2) (db_state d);
  rb_path : db_path d' = db_path d;
  rb_options : db_options d' = db_options d;
  rb_snapshots : db_snapshots d' = db_snapshots d;
  rb_wal : db_wal d' = db_wal d;
  rb_files : same_files_but (new_paths d (vs_next_file_number (db_versions d)) n
    ++ manifest_path d mn :: map (table_path d) removed) (db_fs d) (db_fs d');
  rb_rw : rw_inv tables' (db_rw d');
  rb_blocks : forall i off, vs_next_file_number (db_versions d') <= i -> tables' i off = None;
  rb_tables : Forall (fun t : TableRef => sr_path t.2 = table_path d (fm_number t.1) /\
    0 <= fm_number t.1 < vs_next_file_number (db_versions d')) (all_held g').*1;
  rb_numbers : NoDup (map table_number (all_held g').*1);
  rb_next : vs_next_file_number (db_versions d') = vs_next_file_number (db_versions d) + Z.of_nat n;
  rb_last : vs_last_sequence (db_versions d') = vs_last_sequence (db_versions d);
  rb_log : vs_log_number (db_versions d') = vs_log_number (db_versions d);
  rb_names : names (vs_current (db_versions d')) g';
  rb_manifest : exists edits,
    manifest_inv (db_path d) (max_levels (db_options d)) mn edits (db_versions d') (db_fs d') /\
    logged_next edits = vs_next_file_number (db_versions d');
  rb_readers : exists readers, tables_agree readers (db_table_cache d') /\
    Forall (fun t : TableRef => readers (fm_number t.1) = Some t.2) (all_held g').*1 /\
    forall i, vs_next_file_number (db_versions d') <= i -> readers i = None
}.

(** The names of the tables of the state. *)
Lemma names_fmap (v : Version) (g : HeldLevels) :
  names v g <-> v_l0_files v = g.1.*1.*1 /\ v_levels v = map (fmap fst) (map (fmap fst) g.2).
Proof.
  unfold names. rewrite map_map, <- list_fmap_compose.
  assert (map (map held_file) g.2 = map (fun x : list Held => x.*1.*1) g.2) as ->; [|done].
  apply map_ext. intros x. by rewrite <- list_fmap_compose.
Qed.

Section rebuilt.
Context (tables : Tables) (l0 : list (list entry)) (levels : list (list (list entry))) (d d' : Db SM)
  (tables' : Tables) (n : nat) (mn : u64) (removed : list u64) (g' : HeldLevels).
Context (Hinv : db_inv tables l0 levels d) (Hrb : rebuilt d d' tables' n mn removed g')
  (Hmn : u64_ok mn) (Hremoved : Forall (fun i => 0 <= i < vs_next_file_number (db_versions d)) removed)
  (Hbound : vs_next_file_number (db_versions d) + Z.of_nat n < 2 ^ 63).
Let l0' := g'.1.*2.
Let levels' : list (list (list entry)) := map (fmap snd) g'.2.
Context (Hheld : held_state tables' (db_state d') g') (Hok : state_ok tables' (db_state d') l0' levels')
  (Hsub : contents (db_state d') l0' levels' ⊆ contents (db_state d) l0 levels).
Let k := vs_next_file_number (db_versions d).

Lemma touched_wal i : wal_path d i ∉ new_paths d k n ++ manifest_path d mn :: map (table_path d) removed.
Proof.
  intros [Hin|[E|(j & E & _)%list_elem_of_fmap]%elem_of_cons]%elem_of_app.
  - by apply wal_not_new in Hin.
  - revert E. by apply wal_manifest_ne.
  - revert E. apply not_eq_sym, table_wal_ne.
Qed.

Lemma touched_table i :
  u64_ok i -> k + Z.of_nat n <= i ->
  table_path d i ∉ new_paths d k n ++ manifest_path d mn :: map (table_path d) removed.
Proof.
  pose proof Hinv as [_ Hly]. pose proof (ly_next _ _ _ _ Hly) as H0. fold k in H0.
  intros Hi Hge [Hin|[E|(j & E & Hj)%list_elem_of_fmap]%elem_of_cons]%elem_of_app.
  - revert Hin. apply table_not_new; unfold u64_ok in *; lia.
  - revert E. by apply table_manifest_ne.
  - rewrite Forall_forall in Hremoved. apply Hremoved in Hj.
    apply path_join_inj, table_file_name_inj in E; unfold u64_ok in *; lia.
Qed.

Lemma rebuilt_inv : db_inv tables' l0' levels' d'.
Proof.
  pose proof Hinv as [[_ _ Hopen] Hly]. destruct Hrb.
  pose proof (ly_next _ _ _ _ Hly) as H0. fold k in H0.
  assert (all_tables (db_state d') = (all_held g').*1) as Eall by by apply (held_all_tables tables').
  assert (forall i, table_path d' i = table_path d i) as Etp by (intros i; unfold table_path; by rewrite rb_path0).
  assert (forall i, wal_path d' i = wal_path d i) as Ewp by (intros i; unfold wal_path; by rewrite rb_path0).
  split; [constructor; [done | done | by rewrite rb_state0]|].
  constructor; rewrite ?Eall, ?rb_path0, ?rb_options0, ?rb_log0, ?rb_wal0; try done.
  - by setoid_rewrite Etp.
  - intros i Hi Hu. rewrite Etp, Ewp. rewrite rb_next0 in Hi. fold k in Hi.
    destruct (ly_free _ _ _ _ Hly i ltac:(fold k; lia) Hu) as [H1 H2]. split.
    + rewrite (env_exists_frame _ _ _ _ rb_files0); [done | by apply touched_table].
    + rewrite (same_files_at _ _ _ _ rb_files0); [done | apply touched_wal].
  - destruct rb_files0 as (_ & -> & _). apply Hly.
  - lia.
  - pose proof (ly_log_number _ _ _ _ Hly). lia.
  - rewrite Ewp. apply Hly.
  - destruct (ly_wal_end _ _ _ _ Hly) as (c & Hc & Hp). exists c. split; [|done].
    rewrite (ly_wal _ _ _ _ Hly) in *. rewrite (same_files_at _ _ _ _ rb_files0); [done | apply touched_wal].
  - by exists mn.
  - apply names_fmap in rb_names0 as [-> _]. by rewrite rb_state0.
  - apply names_fmap in rb_names0 as [_ ->]. by rewrite rb_state0.
  - rewrite rb_state0. apply Hly.
  - apply Hly.
  - apply Forall_forall. intros e He. pose proof (ly_storable _ _ _ _ Hly) as Hst.
    rewrite Forall_forall in Hst. by apply Hst, Hsub.
Qed.
End rebuilt.

(** Versions at or below this one are dropped when a newer one is at or below
    it too. *)
Definition gc_watermark (d : Db SM) : u64 :=
  default (st_last_sequence (db_state d)) (watermark_oldest (db_snapshots d)).

Lemma gc_watermark_protected (d : Db SM) s : protected d s -> gc_watermark d <= s.
Proof. intros (o & E & Ho). unfold gc_watermark. by rewrite E. Qed.

Lemma gc_watermark_last (d : Db SM) : snapshots_old d -> gc_watermark d <= st_last_sequence (db_state d).
Proof.
  intros Hs. unfold gc_watermark. specialize (Hs (gc_watermark d)). unfold gc_watermark in Hs.
  destruct (watermark_oldest (db_snapshots d)) as [o|]; cbn [default id from_option] in *; [by apply Hs | lia].
Qed.

Lemma table_contents_held (g : HeldLevels) :
  table_contents g.1.*2 (map (fmap snd) g.2) = concat ([] ++ held_runs g).
Proof. unfold table_contents. by rewrite held_runs_eq. Qed.

Lemma contents_held_runs (st : DBState SM) (g : HeldLevels) :
  contents st g.1.*2 (map (fmap snd) g.2) = concat (mem_runs st ++ held_runs g).
Proof. unfold contents. by rewrite contents_held. Qed.

(** The memtable stays, and there are file numbers left. *)
Definition keeps_room (d d' : Db SM) : Prop :=
  st_mutable (db_state d') = st_mutable (db_state d) /\
  (vs_next_file_number (db_versions d) < 2 ^ 62 -> vs_next_file_number (db_versions d') < 2 ^ 62).

Lemma rebuilt_settled tables g batches (d d' : Db SM) tables' n mn removed g' :
  settled tables g.1.*2 (map (fmap snd) g.2) batches d -> rebuilt d d' tables' n mn removed g' ->
  vs_next_file_number (db_versions d) + Z.of_nat n < 2 ^ 62 -> u64_ok mn -> db_inv tables' g'.1.*2 (map (fmap snd) g'.2) d' ->
  (forall mem, mem = [] \/ mem = mem_runs (db_state d) ->
     collected (gc_watermark d) (concat (mem ++ held_runs g)) (concat (mem ++ held_runs g'))) ->
  settled tables' g'.1.*2 (map (fmap snd) g'.2) batches d' /\
  written g.1.*2 g'.1.*2 (map (fmap snd) g.2) (map (fmap snd) g'.2) [] d d' /\ keeps_room d d'.
Proof.
  intros [Hinv Himm Hdur Hold] Hrb Hnum Hmn Hinv' Hreads. pose proof Hinv as [_ Hly].
  pose proof (gc_watermark_last d Hold) as Hgc.
  destruct (Hreads [] ltac:(by left)) as [Ht0 _ Hr0].
  pose proof (Hreads (mem_runs (db_state d)) ltac:(by right)) as Hr1.
  rewrite <- !table_contents_held in Ht0. setoid_rewrite <- table_contents_held in Hr0.
  assert (mem_runs (db_state d') = mem_runs (db_state d)) as Em by by rewrite (rb_state _ _ _ _ _ _ _ Hrb).
  assert (collected (gc_watermark d) (contents (db_state d) g.1.*2 (map (fmap snd) g.2))
    (contents (db_state d') g'.1.*2 (map (fmap snd) g'.2))) as Hc
    by (rewrite !contents_held_runs, Em; exact Hr1).
  pose proof (co_live _ _ _ Hc) as Hr.
  assert (st_last_sequence (db_state d') = st_last_sequence (db_state d)) as El
    by by rewrite (rb_state _ _ _ _ _ _ _ Hrb).
  split; [|split; [|split]]; [constructor | constructor | |]; rewrite ?(rb_path _ _ _ _ _ _ _ Hrb), ?(rb_options _ _ _ _ _ _ _ Hrb),
    ?(rb_snapshots _ _ _ _ _ _ _ Hrb), ?El, ?len_nil, ?Z.add_0_r; try done.
  - by rewrite (rb_state _ _ _ _ _ _ _ Hrb).
  - destruct Hdur as [Hb Hst [Hw Hp] Hl H0 Ht Hlive Hmem]. constructor; rewrite ?El, ?Em; try done.
    + rewrite (rb_last _ _ _ _ _ _ _ Hrb), (rb_wal _ _ _ _ _ _ _ Hrb). split; [|done].
      rewrite (ly_wal _ _ _ _ Hly) in *.
      rewrite (same_files_at _ _ _ _ (rb_files _ _ _ _ _ _ _ Hrb)); [done|].
      by apply (touched_wal d n mn removed).
    + by rewrite (rb_last _ _ _ _ _ _ _ Hrb).
    + by rewrite (rb_last _ _ _ _ _ _ _ Hrb).
    + rewrite (rb_last _ _ _ _ _ _ _ Hrb). rewrite Forall_forall in Ht |- *. auto.
    + intros key s Hs. rewrite Hr by lia. rewrite Hlive by done. apply view_after_ext.
      symmetry. apply Hr0. lia.
    + by rewrite (rb_last _ _ _ _ _ _ _ Hrb).
  - intros o. rewrite (rb_snapshots _ _ _ _ _ _ _ Hrb), El. apply Hold.
  - intros key s Hs _. apply Hr. by apply gc_watermark_protected.
  - intros key s Hs. apply Hr. lia.
  - intros key s Hs _. rewrite (collected_changed _ _ _ _ _ Hc) by by apply gc_watermark_protected.
    rewrite elem_of_nil. tauto.
  - by rewrite (rb_state _ _ _ _ _ _ _ Hrb).
  - by rewrite (rb_next _ _ _ _ _ _ _ Hrb).
Qed.

(** ** The tables of a database in order *)

Lemma held_numbers (g : list Held) : map table_number g.*1 = map held_number g.
Proof. apply map_map. Qed.

Lemma db_held tables l0 levels (d : Db SM) :
  db_inv tables l0 levels d ->
  exists g : HeldLevels, l0 = g.1.*2 /\ levels = map (fmap snd) g.2 /\ held_state tables (db_state d) g /\
    names (vs_current (db_versions d)) g /\ NoDup (map held_number (all_held g)).
Proof.
  intros [[Hok _ _] Hly]. destruct (state_held _ _ _ _ Hok) as (g & Hst & -> & ->).
  exists g. split; [done|]. split; [done|]. split; [done|]. split.
  - apply names_fmap. rewrite (ly_l0_files _ _ _ _ Hly), (ly_level_files _ _ _ _ Hly).
    by rewrite (hs_l0 _ _ _ Hst), (hs_levels _ _ _ Hst).
  - rewrite <- held_numbers, <- (held_all_tables _ _ _ Hst). apply Hly.
Qed.

(** A database with other caches and counters. *)
Lemma peeked_settled tables l0 levels batches readers (d d0 : Db SM) :
  settled tables l0 levels batches d -> tables_agree readers (db_table_cache d) ->
  Forall (fun t : TableRef => readers (fm_number t.1) = Some t.2) (all_tables (db_state d)) ->
  (forall n, vs_next_file_number (db_versions d) <= n -> readers n = None) ->
  peeked tables readers d d0 -> settled tables l0 levels batches d0.
Proof.
  intros [[[Hok Hw Ho] Hly] Himm Hdur Hold] Htc Hrd Hrn (c & tc & m & -> & Hw' & Htc').
  constructor; [split; [by constructor|] | done | by destruct Hdur | done].
  destruct Hly. constructor; try done. by exists readers.
Qed.

(** Reading the tables of a task. *)
Lemma held_open tables l0 levels readers (d : Db SM) (g : HeldLevels) h :
  db_inv tables l0 levels d -> held_state tables (db_state d) g ->
  Forall (fun t : TableRef => readers (fm_number t.1) = Some t.2) (all_tables (db_state d)) ->
  h ∈ all_held g ->
  open_table_of tables readers d h.1 h.2 /\ 0 <= held_number h < vs_next_file_number (db_versions d).
Proof.
  intros [_ Hly] Hst Hrd Hh. rewrite (held_all_tables _ _ _ Hst) in Hrd.
  pose proof (ly_paths _ _ _ _ Hly) as Hp. rewrite (held_all_tables _ _ _ Hst) in Hp.
  pose proof (hs_holds _ _ _ Hst) as Hh'. rewrite Forall_forall in Hrd, Hp. rewrite Forall_forall in Hh'.
  assert (h.1 ∈ (all_held g).*1) as Hin by by apply list_elem_of_fmap_2.
  destruct (Hp _ Hin) as [Hpath Hn]. split; [|exact Hn]. constructor; [by apply Hh' | by apply Hrd | exact Hpath].
Qed.

Lemma read_task_ok tables l0 levels readers (d : Db SM) (g : HeldLevels) (hs : list Held) t :
  db_inv tables l0 levels d -> held_state tables (db_state d) g ->
  tables_agree readers (db_table_cache d) ->
  Forall (fun t : TableRef => readers (fm_number t.1) = Some t.2) (all_tables (db_state d)) ->
  hs ⊆ all_held g -> all_input_files t = map held_file hs ->
  exists d', read_inputs t d = (Ok (held_entries hs), d') /\ peeked tables readers d d'.
Proof.
  intros Hinv Hst Htc Hrd Hsub Hf.
  destruct (read_inputs_ok tables readers d hs.*1 hs.*2 []) as (d' & E & Hp); [|apply Hinv|done|].
  - rewrite Forall2_fmap. apply Forall_Forall2_diag, Forall_forall.
    intros h Hh. by eapply held_open; [..|apply Hsub].
  - exists d'. split; [|exact Hp]. unfold read_inputs. rewrite Hf.
    replace (map held_file hs) with (hs.*1.*1) by apply map_map. exact E.
Qed.

(** What the outputs need: the formats hold each, the file numbers are below
    their width, and no user key is empty if they may be cut. *)
Record outputs_fit (d : Db SM) (out : list entry) : Prop := mkOutputsFit {
  of_bounded : Forall (table_bounded (db_options d)) (output_chunks (db_options d) out);
  of_numbers : vs_next_file_number (db_versions d) + len (output_chunks (db_options d) out) < 2 ^ 62;
  of_keys : Forall (fun e : entry => user_key e.1 <> []) out \/ max_subcompactions (db_options d) <= 1
}.

Lemma output_chunks_ok (d : Db SM) out :
  sorted_entries out -> Forall entry_fits out -> outputs_fit d out ->
  let chunks := output_chunks (db_options d) out in
  concat chunks = out /\ Forall (writable_table (db_options d)) chunks /\ StronglySorted keys_below chunks.
Proof.
  intros Hs He [Hb _ Hk] chunks.
  destruct (split_outputs_disjoint out (target_file_size_base (db_options d))
    (max_subcompactions (db_options d)) Hs Hk) as (Hc & Hne & _ & Hbelow).
  change (split_compaction_entries _ _ _) with chunks in *.
  split; [done|]. split; [|done]. rewrite <- Hc in Hs, He. clear Hc Hk Hbelow.
  fold chunks in Hb. induction chunks as [|c chunks IH]; [constructor|]. cbn [concat] in Hs, He.
  apply StronglySorted_app in Hs as (_ & Hs1 & Hs2). apply Forall_app in He as [He1 He2].
  apply Forall_cons in Hb as [Hb1 Hb2]. apply Forall_cons in Hne as [Hne1 Hne2].
  constructor; [exact (conj Hne1 (conj Hs1 (conj He1 Hb1))) | auto].
Qed.

(** The new tables, with what they hold. *)
Definition output_pair (h : Held) : SSTableReader * FileMeta := (h.1.2, h.1.1).

Lemma outputs_held tables readers (d : Db SM) os chunks :
  Forall2 (output_of tables readers d) os chunks ->
  exists outs : list Held, os = map output_pair outs /\ chunks = outs.*2 /\
    Forall (fun h => open_table_of tables readers d h.1 h.2 /\
      meta_describes (held_file h) (held_number h) h.2) outs.
Proof.
  induction 1 as [|[r m] c os chunks Ho Hos (outs & -> & -> & IH)]; [by exists []|].
  exists (((m, r), c) :: outs). split; [done|]. split; [done|]. constructor; [exact Ho | exact IH].
Qed.

Lemma chunks_below tables (outs : list Held) :
  Forall (holds tables) outs -> StronglySorted keys_below outs.*2 -> StronglySorted held_below outs.
Proof.
  induction 1 as [|h outs Hh Hos IH]; intros Hs; [apply SSorted_nil|].
  cbn [fmap list_fmap] in Hs. apply StronglySorted_inv in Hs as [Hs Hf]. constructor; [by apply IH|].
  apply Forall_forall. intros h' Hh'.
  assert (keys_below h.2 h'.2) as Hk by (rewrite Forall_forall in Hf; by apply Hf, list_elem_of_fmap_2).
  rewrite Forall_forall in Hos. pose proof (th_largest _ _ _ Hh) as Hl.
  pose proof (th_smallest _ _ _ (Hos h' Hh')) as Hs'.
  destruct (last h.2) as [l|] eqn:El; [|done]. injection Hl as Hl.
  destruct (head h'.2) as [f|] eqn:Ef; [|done]. injection Hs' as Hs'.
  rewrite last_lookup in El. rewrite head_lookup in Ef. apply list_elem_of_lookup_2 in El, Ef.
  unfold held_below, table_below. rewrite <- Hl, <- Hs'. by apply Hk.
Qed.

Lemma new_paths_manifest (d : Db SM) k n mn : u64_ok mn ->
  (manifest_path d mn ∉ new_paths d k n) /\ (path_join (db_path d) CURRENT_FILE ∉ new_paths d k n).
Proof.
  intros Hmn. split; intros (i & _ & [E|E])%new_paths_elem; symmetry in E; revert E.
  - by apply table_manifest_ne.
  - by apply tmp_manifest_ne.
  - apply table_current_ne.
  - apply tmp_current_ne.
Qed.

(** The state is read from the version. *)
Lemma refresh_ok readers (d : Db SM) (g : HeldLevels) :
  names (vs_current (db_versions d)) g -> tables_agree readers (db_table_cache d) ->
  Forall (opens (db_path d) readers (db_fs d)) (all_held g).*1 ->
  exists tc, tables_agree readers tc /\
    refresh_tables_from_version d = (Ok tt, set_state (with_tables g.1.*1 (map (fmap fst) g.2) (db_state d))
      (set_table_cache tc (db_fs d) d)).
Proof.
  intros Hn Htc Hop. unfold all_held in Hop. rewrite fmap_app, concat_refs in Hop.
  apply names_fmap in Hn as [Hn0 Hnl].
  destruct (open_version_tables_ok (db_path d) readers (db_fs d) (vs_current (db_versions d)) g.1.*1
    (map (fmap fst) g.2) (db_table_cache d) Hop Htc Hn0 Hnl) as (tc & Eo & Htc').
  exists tc. split; [exact Htc'|]. unfold refresh_tables_from_version. rewrite bind_get_state.
  by erewrite bind_ok by (unfold on_table_cache, zoom; rewrite Eo; reflexivity).
Qed.

(** The inputs of the task have left their level. *)
Definition inputs_gone (t : CompactionTask) (d : Db SM) : Prop :=
  forall f, f ∈ ct_input_files t ->
    fm_number f ∉ map fm_number (version_files (vs_current (db_versions d)) (ct_input_level t)).

Lemma chosen_gone t p upper target inputs others overlaps rest others' target' (d : Db SM) :
  chosen t p upper target inputs others overlaps rest -> others' ≡ₚ others ->
  NoDup (map held_number (all_held (plug p upper target))) ->
  names (vs_current (db_versions d)) (plug p others' target') -> inputs_gone t d.
Proof.
  intros Hch Ho Hnd Hn f Hf. rewrite (ch_inputs _ _ _ _ _ _ _ _ Hch) in Hf.
  apply list_elem_of_fmap in Hf as (h & -> & Hh).
  rewrite (ch_level _ _ _ _ _ _ _ _ Hch), (names_upper _ _ _ _ Hn), map_map.
  rewrite plug_all, map_app, (ch_upper _ _ _ _ _ _ _ _ Hch), map_app in Hnd.
  apply NoDup_app in Hnd as (Hnd & _ & _). apply NoDup_app in Hnd as (_ & Hd & _).
  change (map (fun h => fm_number (held_file h)) others') with (map held_number others'). rewrite Ho.
  apply Hd. apply (list_elem_of_fmap_2 held_number), Hh.
Qed.

Section rewrite.
Context (tables : Tables) (readers : Z -> option SSTableReader) (d : Db SM) (mn : u64)
  (edits : list VersionEdit) (t : CompactionTask) (p : Place)
  (upper target inputs others overlaps rest : list Held).
Let g : HeldLevels := plug p upper target.
Let l0 := g.1.*2.
Let levels : list (list (list entry)) := map (fmap snd) g.2.
Let k := vs_next_file_number (db_versions d).
Let v := vs_current (db_versions d).
Let drop_tombstones := can_drop_tombstones t v.
Let es := held_entries (inputs ++ overlaps).
Let out := compact_entries es (gc_watermark d) drop_tombstones.
Let chunks := output_chunks (db_options d) out.
Let removed := map held_number (inputs ++ overlaps).
Context (Hinv : db_inv tables l0 levels d) (Hst : held_state tables (db_state d) g) (Hn : names v g)
  (Hnd : NoDup (map held_number (all_held g)))
  (Hch : chosen t p upper target inputs others overlaps rest)
  (Hlen : 2 <= len (v_levels v) < 2 ^ 32) (Hin : place_level p + 1 < len (v_levels v))
  (Hm : manifest_inv (db_path d) (max_levels (db_options d)) mn edits (db_versions d) (db_fs d))
  (Hlogged : logged_next edits = k) (Htc : tables_agree readers (db_table_cache d))
  (Hrd : Forall (fun t : TableRef => readers (fm_number t.1) = Some t.2) (all_tables (db_state d)))
  (Hrn : forall i, k <= i -> readers i = None) (Hfit : outputs_fit d out).

Lemma chosen_all : all_held g ≡ₚ (inputs ++ overlaps) ++ others ++ rest ++ place_others p.
Proof.
  unfold g. rewrite plug_all, (ch_upper _ _ _ _ _ _ _ _ Hch), (ch_target _ _ _ _ _ _ _ _ Hch).
  solve_Permutation.
Qed.

Lemma es_contents : es ⊆ contents (db_state d) l0 levels.
Proof.
  intros e (h & Hh & He)%held_entries_elem. unfold l0, levels. rewrite contents_held_runs, concat_app.
  apply elem_of_app. right. unfold g. rewrite plug_runs, !concat_app. cbn [concat]. rewrite upper_entries.
  rewrite !elem_of_app. right. apply elem_of_app in Hh as [Hh|Hh].
  - left. apply held_entries_elem. exists h. split; [|done]. rewrite (ch_upper _ _ _ _ _ _ _ _ Hch). apply elem_of_app. by left.
  - right. left. apply held_entries_elem. exists h. split; [|done].
    rewrite (ch_target _ _ _ _ _ _ _ _ Hch). apply elem_of_app. by left.
Qed.

Lemma out_entries : sorted_entries out /\ out ⊆ es /\ Forall entry_storable out.
Proof.
  pose proof Hinv as [[Hok _ _] Hly]. assert (out ⊆ es) as Hsub.
  { intros e He. apply compact_elem in He as [He _]; [done|]. intros e1 e2 H1 H2.
    by apply (so_consistent _ _ _ _ Hok); apply es_contents. }
  split; [apply compact_sorted|]. split; [done|]. apply Forall_forall. intros e He.
  pose proof (ly_storable _ _ _ _ Hly) as Hs. rewrite Forall_forall in Hs. by apply Hs, es_contents, Hsub.
Qed.

Lemma removed_bound : Forall (fun i => 0 <= i < k) removed.
Proof.
  apply List.Forall_map, Forall_forall. intros h Hh.
  assert (h ∈ all_held g) as Hall by (rewrite chosen_all; apply elem_of_app; by left).
  by destruct (held_open tables _ _ readers d g h Hinv Hst Hrd Hall).
Qed.

(** The new tables are written. *)
Lemma rewrite_outputs :
  exists outs d2 tables2 readers2,
    write_compaction_outputs out d = (Ok (map output_pair outs), d2) /\
    grown tables tables2 readers readers2 d d2 k (length chunks) /\
    Forall (fun h => open_table_of tables2 readers2 d2 h.1 h.2 /\
      meta_describes (held_file h) (held_number h) h.2) outs /\
    outs.*2 = chunks /\ map held_number outs = seqZ k (len chunks) /\ StronglySorted held_below outs.
Proof.
  pose proof Hinv as [[_ Hw _] Hly]. destruct out_entries as (Hs & _ & Hsto).
  destruct (output_chunks_ok d out Hs) as (Hc & Hwr & Hb);
    [eapply Forall_impl; [exact Hsto | by intros e []] | exact Hfit |].
  pose proof (of_numbers _ _ Hfit) as Hnum.
  destruct (write_compaction_outputs_ok out tables readers d (ly_compression _ _ _ _ Hly) Hw Htc
    (ly_next _ _ _ _ Hly)) as (os & d2 & tables2 & readers2 & E & G & Hos & Hnums); [| exact Hwr | |].
  { intros i Hi. split; [intros off; by apply (ly_blocks _ _ _ _ Hly) | by apply Hrn]. }
  { fold k in Hnum |- *. lia. }
  destruct (outputs_held _ _ _ _ _ Hos) as (outs & -> & Ec & Houts).
  exists outs, d2, tables2, readers2. split; [exact E|]. split; [exact G|]. split; [exact Houts|].
  split; [by symmetry|]. split; [by rewrite map_map in Hnums|].
  apply (chunks_below tables2); [|by rewrite <- Ec].
  eapply Forall_impl; [exact Houts|]. intros h [Ho _]. apply Ho.
Qed.

Section written.
Context (outs : list Held) (d2 : Db SM) (tables2 : Tables) (readers2 : Z -> option SSTableReader).
Let n := length chunks.
Context (Hg : grown tables tables2 readers readers2 d d2 k n)
  (Houts : Forall (fun h => open_table_of tables2 readers2 d2 h.1 h.2 /\
    meta_describes (held_file h) (held_number h) h.2) outs)
  (Hchunks : outs.*2 = chunks) (Hnums : map held_number outs = seqZ k (len chunks))
  (Hbelow : StronglySorted held_below outs).

Lemma outs_numbers h : h ∈ outs -> k <= held_number h < k + Z.of_nat n.
Proof.
  intros Hh. assert (held_number h ∈ map held_number outs) as Hn' by by apply list_elem_of_fmap_2.
  rewrite Hnums in Hn'. by apply elem_of_seqZ in Hn'.
Qed.

Lemma outs_length : length outs = n.
Proof. unfold n. by rewrite <- Hchunks, length_fmap. Qed.

Lemma outs_entries : held_entries outs = out.
Proof.
  unfold held_entries. rewrite Hchunks. destruct out_entries as (Hs & _ & Hsto).
  destruct (output_chunks_ok d out Hs) as (E & _);
    [eapply Forall_impl; [exact Hsto | by intros e []] | exact Hfit | exact E].
Qed.

Lemma new_bound : 0 < k /\ k + Z.of_nat n < 2 ^ 62.
Proof.
  pose proof Hinv as [_ Hly]. pose proof (ly_next _ _ _ _ Hly). pose proof (of_numbers _ _ Hfit) as Hb.
  fold k chunks in H, Hb. unfold len in Hb. fold n in Hb. fold k. lia.
Qed.

Lemma task_edits_ok : Forall edit_ok (task_edits t (map output_pair outs)).
Proof.
  pose proof (level_nonneg p) as Hp. unfold task_edits. apply Forall_app. split.
  - apply List.Forall_map, Forall_forall. intros [l i] Hd.
    apply (deletes_elem t p upper target inputs others overlaps rest Hch) in Hd.
    apply edit_short_ok; [|done]. cbn [delete_edit edit_fits fst snd].
    assert (i ∈ removed) as (h & -> & Hh)%list_elem_of_fmap.
    { unfold removed. rewrite map_app. apply elem_of_app. destruct Hd as [[_ ?]|(_ & ? & _)]; auto. }
    assert (h ∈ all_held g) as Hall by (rewrite chosen_all; apply elem_of_app; by left).
    destruct (held_open tables _ _ readers d g h Hinv Hst Hrd Hall) as [_ Hb]. pose proof new_bound.
    fold k in Hb. split; [|unfold u64_ok; lia]. unfold u32_ok. destruct Hd as [[-> _]|(-> & _)]; lia.
  - rewrite (ch_output _ _ _ _ _ _ _ _ Hch). apply List.Forall_map, List.Forall_map, List.Forall_map.
    apply Forall_forall. intros h Hh.
    pose proof (proj1 (Forall_forall _ _) Houts h Hh) as [_ Hmd]. pose proof (outs_numbers h Hh).
    pose proof new_bound. eapply add_table_edit_ok; [exact Hmd | unfold u64_ok; lia | unfold u32_ok; lia |].
    destruct out_entries as (_ & _ & Hsto). rewrite Forall_forall in Hsto |- *. intros e He. apply Hsto.
    rewrite <- outs_entries. apply held_entries_elem. by exists h.
Qed.

Lemma rewrite_logged :
  exists vs' fs3 others' target',
    log_edits (task_edits t (map output_pair outs)) d2 = (Ok tt, set_versions vs' fs3 d2) /\
    others' `sublist_of` upper /\ (others' ≡ₚ others) /\ (target' ≡ₚ outs ++ rest) /\
    names (vs_current vs') (plug p others' target') /\ level_sorted (map held_file target') /\
    vs_next_file_number vs' = k + Z.of_nat n /\
    vs_last_sequence vs' = vs_last_sequence (db_versions d) /\
    vs_log_number vs' = vs_log_number (db_versions d) /\
    same_files_but [manifest_path d mn] (db_fs d2) fs3 /\
    exists edits', manifest_inv (db_path d) (max_levels (db_options d)) mn edits' vs' fs3 /\
      logged_next edits' = k + Z.of_nat n.
Proof.
  pose proof new_bound as Hb. assert (u64_ok mn) as Hmn by apply Hm.
  pose proof (gr_state _ _ _ _ _ _ _ _ Hg) as (c & tc & m & fs2 & Ed2).
  pose proof (gr_files _ _ _ _ _ _ _ _ Hg) as Hf. pose proof (gr_rw _ _ _ _ _ _ _ _ Hg) as [[Ho2 _] _].
  destruct (new_paths_manifest d k n mn Hmn) as [Hpm Hpc].
  assert (manifest_inv (db_path d) (max_levels (db_options d)) mn edits (db_versions d2) (db_fs d2)) as Hm2.
  { eapply manifest_inv_frame; [exact Hm | by rewrite Ed2 | by rewrite Ed2 | |];
      by apply (same_files_at _ _ _ _ Hf). }
  assert (vs_next_file_number (db_versions d2) = k + Z.of_nat n) as Hnext by by rewrite Ed2.
  assert (NoDup (map held_number (upper ++ target))) as Hnd'.
  { revert Hnd. unfold g. rewrite plug_all, app_assoc, map_app. intros Hx. by apply NoDup_app in Hx as (? & _). }
  destruct (task_version v t p upper target inputs others overlaps rest Hn Hch Hnd' (db_versions d2) outs)
    as (v' & others' & target' & E & Hsub & Ho' & Ht' & Hn' & Hsorted);
    [by rewrite Ed2 | by eapply manifest_version_wf | exact Hin | |].
  { apply Forall_forall. intros h Hh. pose proof (outs_numbers h Hh). rewrite Hnext. lia. }
  assert (map held_file outs = (map output_pair outs).*2) as Eo by (symmetry; apply map_map).
  rewrite Eo in E. fold (task_edits t (map output_pair outs)) in E.
  assert (db_path d2 = db_path d /\ db_options d2 = db_options d) as [Ep Eopt] by by rewrite Ed2.
  rewrite <- Ep, <- Eopt in Hm2.
  destruct (log_edits_ok _ mn edits d2 _ Hm2 Ho2 task_edits_ok E)
    as (vs' & fs3 & L & (Hcur & Hlast & Hlog & _) & Hnx & F & M).
  cbn [vs_current vs_with_current vs_last_sequence vs_log_number vs_next_file_number] in Hcur, Hlast, Hlog, Hnx.
  exists vs', fs3, others', target'. rewrite Ep, Eopt in M.
  split; [exact L|]. split; [exact Hsub|]. split; [exact Ho'|]. split; [exact Ht'|].
  split; [by rewrite Hcur|]. split; [exact Hsorted|]. split; [congruence|].
  split; [by rewrite Hlast, Ed2|]. split; [by rewrite Hlog, Ed2|].
  split; [by unfold manifest_path in *; rewrite Ep in F|].
  exists (edits ++ task_edits t (map output_pair outs)). split; [exact M|].
  unfold task_edits. rewrite app_assoc. rewrite (logged_next_adds _ _ _ k).
  - unfold len. rewrite !length_fmap || rewrite length_map, length_fmap. by rewrite outs_length.
  - by rewrite logged_next_deletes.
  - unfold len. rewrite length_fmap, length_map, outs_length. lia.
  - unfold len. rewrite length_fmap, length_map. rewrite <- Eo, map_map. rewrite outs_length. exact Hnums.
Qed.

(** The tables of the new state. *)
Section refreshed.
Context (others' target' : list Held) (Ho' : others' ≡ₚ others) (Ht' : target' ≡ₚ outs ++ rest).
Let g' : HeldLevels := plug p others' target'.

Lemma new_all : all_held g' ≡ₚ outs ++ others ++ rest ++ place_others p.
Proof. unfold g'. rewrite plug_all, Ho', Ht'. solve_Permutation. Qed.

Lemma new_table h :
  h ∈ all_held g' ->
  open_table_of tables2 readers2 d2 h.1 h.2 /\ 0 <= held_number h < k + Z.of_nat n /\ (held_number h ∉ removed).
Proof.
  pose proof new_bound as Hb. pose proof Hinv as [[_ Hw _] _]. rewrite new_all, elem_of_app. intros [Hh|Hh].
  - pose proof (outs_numbers h Hh). rewrite Forall_forall in Houts. split; [by apply Houts|]. split; [lia|].
    intros (h' & E & Hh')%list_elem_of_fmap.
    assert (h' ∈ all_held g) as Hall by (rewrite chosen_all; apply elem_of_app; by left).
    destruct (held_open tables _ _ readers d g h' Hinv Hst Hrd Hall) as [_ Hk]. fold k in Hk. lia.
  - assert (h ∈ all_held g) as Hall by (rewrite chosen_all; apply elem_of_app; by right).
    destruct (held_open tables _ _ readers d g h Hinv Hst Hrd Hall) as [Hopen Hk]. fold k in Hk.
    split; [|split; [lia|]].
    + eapply grown_open; [exact Hopen | exact Hw | exact Hg | unfold u64_ok; lia | lia | exact Hk].
    + intros Hr. pose proof Hnd as Hd. rewrite chosen_all, map_app in Hd.
      apply NoDup_app in Hd as (_ & Hd & _). apply (Hd _ Hr). by apply list_elem_of_fmap_2.
Qed.

Lemma new_numbers : NoDup (map table_number (all_held g').*1).
Proof.
  rewrite held_numbers, new_all, map_app. pose proof Hnd as Hd. rewrite chosen_all, map_app in Hd.
  apply NoDup_app in Hd as (_ & _ & Hd). apply NoDup_app. split; [rewrite Hnums; apply NoDup_seqZ|].
  split; [|exact Hd]. intros i (h & -> & Hh)%list_elem_of_fmap (h' & E & Hh')%list_elem_of_fmap.
  pose proof (outs_numbers h Hh). assert (h' ∈ all_held g) as Hall by (rewrite chosen_all; apply elem_of_app; by right).
  destruct (held_open tables _ _ readers d g h' Hinv Hst Hrd Hall) as [_ Hk]. fold k in Hk. lia.
Qed.

(** The files the tables of the new state are in, once the edits are logged. *)
Lemma logged_tables fs3 i :
  same_files_but [manifest_path d mn] (db_fs d2) fs3 -> u64_ok mn -> u64_ok i ->
  fs_files fs3 !! table_path d i = fs_files (tb_fs tables2) !! table_path d i.
Proof.
  intros Hf3 Hmn Hi. pose proof (gr_rw _ _ _ _ _ _ _ _ Hg) as [[_ <-] _].
  apply (same_files_at _ _ _ _ Hf3). intros E%list_elem_of_singleton. revert E. by apply table_manifest_ne.
Qed.

Lemma grown_path : db_path d2 = db_path d.
Proof. by pose proof (gr_state _ _ _ _ _ _ _ _ Hg) as (c & tc & m & fs2 & ->). Qed.

(** A table of the new state, at the path [d] gives its number. *)
Lemma new_path h :
  h ∈ all_held g' -> sr_path h.1.2 = table_path d (held_number h) /\ u64_ok (held_number h).
Proof.
  pose proof new_bound as Hb. intros Hh. destruct (new_table h Hh) as ([_ _ Hpa] & Hk & _).
  unfold table_path in *. rewrite grown_path in Hpa. split; [exact Hpa | unfold u64_ok; lia].
Qed.

Lemma new_opens fs3 :
  same_files_but [manifest_path d mn] (db_fs d2) fs3 -> u64_ok mn -> fs_oracle fs3 = [] ->
  Forall (opens (db_path d) readers2 fs3) (all_held g').*1.
Proof.
  intros Hf3 Hmn Ho3. apply Forall_fmap, Forall_forall. intros h Hh.
  destruct (new_table h Hh) as ([Hho Hre _] & _ & _). destruct (new_path h Hh) as [Hpa Hi].
  apply (holds_opens tables2 _ _ _ _ h.2 Hho Hre Hpa Ho3). rewrite Hpa. by apply logged_tables.
Qed.

(** Deleting the inputs leaves the tables of the new state. *)
Lemma new_holds fs3 fs5 :
  same_files_but [manifest_path d mn] (db_fs d2) fs3 -> u64_ok mn ->
  same_files_but (map (table_path d) removed) fs3 fs5 ->
  Forall (holds (mkTables fs5 (tb_blocks tables2))) (all_held g').
Proof.
  intros Hf3 Hmn F5. pose proof new_bound as Hb. apply Forall_forall. intros h Hh.
  destruct (new_table h Hh) as ([Hho _ _] & _ & Hnr). destruct (new_path h Hh) as [Hpa Hi].
  eapply table_holds_frame; [exact Hho | | done]. cbn [tb_fs]. rewrite Hpa.
  transitivity (fs_files fs3 !! table_path d (held_number h)); [|by apply logged_tables].
  apply (same_files_at _ _ _ _ F5). intros (i & E & Hrem)%list_elem_of_fmap.
  pose proof removed_bound as Hrb. rewrite Forall_forall in Hrb. pose proof (Hrb _ Hrem) as Hki. fold k in Hki.
  apply path_join_inj, table_file_name_inj in E; [by subst i | done | unfold u64_ok; lia].
Qed.

Lemma removed_inputs : map fm_number (all_input_files t) = removed.
Proof.
  unfold all_input_files, removed. rewrite (ch_inputs _ _ _ _ _ _ _ _ Hch), (ch_overlaps _ _ _ _ _ _ _ _ Hch).
  by rewrite <- map_app, map_map.
Qed.

(** The rest of the compaction: the state is read from the version, and the
    inputs are deleted. *)
Lemma rewrite_tail vs' fs3 edits' :
  names (vs_current vs') g' -> vs_next_file_number vs' = k + Z.of_nat n ->
  vs_last_sequence vs' = vs_last_sequence (db_versions d) ->
  vs_log_number vs' = vs_log_number (db_versions d) ->
  same_files_but [manifest_path d mn] (db_fs d2) fs3 ->
  manifest_inv (db_path d) (max_levels (db_options d)) mn edits' vs' fs3 ->
  logged_next edits' = k + Z.of_nat n ->
  exists d' tables',
    (_ ← refresh_tables_from_version; _ ← delete_obsolete_files (map fm_number (all_input_files t)); mret true)
      (set_versions vs' fs3 d2) = (Ok true, d') /\
    rebuilt d d' tables' n mn removed g' /\ held_state tables' (db_state d') g'.
Proof.
  intros Hn' Hnext Hlast Hlog Hf3 Hm3 Hl3. assert (u64_ok mn) as Hmn by apply Hm.
  pose proof (gr_state _ _ _ _ _ _ _ _ Hg) as (c & tc & m & fs2 & Ed2).
  pose proof (gr_files _ _ _ _ _ _ _ _ Hg) as Hf2. pose proof (gr_rw _ _ _ _ _ _ _ _ Hg) as [[Ho2 _] Hcache].
  cbn [db_rw rw_fs rw_cache] in Ho2, Hcache.
  assert (fs_oracle fs3 = []) as Ho3 by by destruct Hf3 as [-> _].
  set (d3 := set_versions vs' fs3 d2).
  destruct (refresh_ok readers2 d3 g' Hn') as (tc' & Htc' & E4);
    [apply Hg | change (db_path d3) with (db_path d2); rewrite grown_path; by apply new_opens |].
  change (db_fs d3) with fs3 in E4. set (d4 := set_state _ _) in E4.
  destruct (delete_obsolete_files_ok (map fm_number (all_input_files t)) d4 Ho3) as (fs5 & E5 & F5).
  set (d5 := set_wal (db_wal d4) fs5 d4) in *. exists d5, (mkTables fs5 (tb_blocks tables2)).
  assert (map (table_path d4) (map fm_number (all_input_files t)) = map (table_path d) removed) as Erp.
  { rewrite removed_inputs. apply map_ext. intros i. unfold table_path. by rewrite <- grown_path. }
  rewrite Erp in F5. change (db_fs d4) with fs3 in F5.
  pose proof (new_holds fs3 fs5 Hf3 Hmn F5) as Hholds.
  assert (forall i, vs_next_file_number (db_versions d5) <= i -> k + Z.of_nat n <= i) as Hnx
    by (intros i; change (vs_next_file_number (db_versions d5)) with (vs_next_file_number vs'); by rewrite Hnext).
  split; [|split; [|by constructor]].
  - by rewrite (bind_ok _ _ _ _ _ E4), (bind_ok _ _ _ _ _ E5).
  - constructor; try done; try (by unfold d5, d4, d3; rewrite Ed2).
    + exact (same_files_app _ _ _ _ _ Hf2 (same_files_app _ _ _ _ _ Hf3 F5)).
    + split; [split; [|done] | exact Hcache]. cbn. by destruct F5 as [-> _].
    + intros i off Hi%Hnx. destruct (gr_old _ _ _ _ _ _ _ _ Hg i ltac:(lia)) as [E _].
      change (tables2 i off = None). rewrite E.
      pose proof Hinv as [_ Hly]. apply (ly_blocks _ _ _ _ Hly). fold k. lia.
    + apply Forall_fmap, Forall_forall. intros h Hh. split; [by apply new_path|].
      destruct (new_table h Hh) as (_ & Hk & _).
      change (0 <= held_number h < vs_next_file_number vs'). by rewrite Hnext.
    + exact new_numbers.
    + exists edits'. split; [|by rewrite Hl3].
      eapply manifest_inv_frame; [exact Hm3 | done | done | |]; apply (same_files_at _ _ _ _ F5);
        intros (i & E & _)%list_elem_of_fmap; symmetry in E; revert E;
        [apply table_current_ne | by apply table_manifest_ne].
    + exists readers2. split; [exact Htc'|]. split.
      * apply Forall_fmap, Forall_forall. intros h Hh. by destruct (new_table h Hh) as ([_ Hre _] & _).
      * intros i Hi%Hnx. destruct (gr_old _ _ _ _ _ _ _ _ Hg i ltac:(lia)) as [_ ->]. apply Hrn. lia.
Qed.
End refreshed.
End written.

(** The levels below hold no version of a key whose tombstone is dropped. *)
Lemma dropped_apart : drop_tombstones = true -> apart es (concat (place_below p)).
Proof.
  unfold drop_tombstones, can_drop_tombstones. intros Hd. apply negb_true_iff in Hd.
  pose proof (hs_holds _ _ _ Hst) as Hh.
  apply (below_untouched tables v p upper target t); [exact Hn | exact Hh | | apply Hch | | exact Hd].
  - rewrite chosen_all in Hh. by apply Forall_app in Hh as [? _].
  - intros h Hin'. apply (ch_range _ _ _ _ _ _ _ _ Hch). unfold all_input_files.
    rewrite (ch_inputs _ _ _ _ _ _ _ _ Hch), (ch_overlaps _ _ _ _ _ _ _ _ Hch), <- map_app.
    by apply list_elem_of_fmap_2.
Qed.

Definition rewrite_task : M (Db SM) bool :=
  outputs ← write_compaction_outputs out;
  _ ← apply_compaction t outputs;
  _ ← refresh_tables_from_version;
  _ ← delete_obsolete_files (map fm_number (all_input_files t));
  mret true.

Lemma rewrite_ok batches :
  settled tables l0 levels batches d ->
  exists d' tables' (g' : HeldLevels), rewrite_task d = (Ok true, d') /\
    settled tables' g'.1.*2 (map (fmap snd) g'.2) batches d' /\
    written l0 g'.1.*2 levels (map (fmap snd) g'.2) [] d d' /\ keeps_room d d' /\ inputs_gone t d'.
Proof.
  intros Hs. destruct rewrite_outputs as (outs & d2 & tables2 & readers2 & E2 & G2 & Ho & Hc & Hnums & Hb).
  destruct (rewrite_logged outs d2 tables2 readers2 G2 Ho Hc Hnums)
    as (vs' & fs3 & others' & target' & E3 & Hsub & Ho' & Ht' & Hn' & Hsorted & Hnext & Hlast & Hlog & Hf3 & edits' & Hm3 & Hl3).
  destruct (rewrite_tail outs d2 tables2 readers2 G2 Ho Hnums others' target' Ho' Ht' vs' fs3 edits'
    Hn' Hnext Hlast Hlog Hf3 Hm3 Hl3) as (d' & tables' & E4 & Hrb & Hst').
  set (g' := plug p others' target') in *.
  assert (u64_ok mn) as Hmn by apply Hm. pose proof (new_bound) as Hbound.
  pose proof (chosen_perm _ _ _ _ _ _ _ _ _ Ho' Hch) as Hch'.
  pose proof Hinv as [[Hok _ _] _].
  destruct (replaced_state tables tables' (db_state d) t p upper target inputs others' overlaps rest outs target'
    (gc_watermark d) drop_tombstones Hok Hst Hch' Hsub) as (Hok' & _ & Hcsub & Hreads).
  - apply Hst'.
  - rewrite (outs_entries outs Hc). unfold out, es. by rewrite held_entries_app.
  - exact Ht'.
  - exact Hsorted.
  - exact Hb.
  - intros Hd. rewrite <- held_entries_app. by apply dropped_apart.
  - fold g' in Hok', Hcsub, Hreads. rewrite <- (rb_state _ _ _ _ _ _ _ Hrb) in Hok', Hcsub.
    assert (inputs_gone t d') as Hgone
      by (eapply chosen_gone; [exact Hch | exact Ho' | exact Hnd | apply (rb_names _ _ _ _ _ _ _ Hrb)]).
    exists d', tables', g'. split.
    + unfold rewrite_task. rewrite (bind_ok _ _ _ _ _ E2).
      by erewrite bind_ok by (rewrite apply_compaction_edits; exact E3).
    + edestruct rebuilt_settled as (A1 & A2 & A3); [exact Hs | exact Hrb | apply Hbound | exact Hmn | | exact Hreads | exact (conj A1 (conj A2 (conj A3 Hgone)))].
      eapply rebuilt_inv; [exact Hinv | exact Hrb | exact Hmn | apply removed_bound | | exact Hst' | exact Hok' | exact Hcsub].
      fold k. lia.
Qed.
End rewrite.
End compact_ok.
