(* ===== verification/DbCompactRun.v ===== *)
(** * Running a task to its end

    Moving a table down without rewriting it, [execute_compaction] as a whole
    and [compact_range] over all keys. *)

From Stdlib Require Import Sorting.Sorted.
From stdpp Require Import base list gmap strings sorting.
From S2P Require Import Prelude Key Spec Memtable Coding Batch Env Externals Wal Block Cache.
From S2P Require Import Format Properties Table Reader TableCache Version Options Metrics.
From S2P Require Import Compact Mvcc DbState DbRead DbMem DbFlush DbInv DbFlushOk DbCompact.
From S2P Require Import DbCompactIo DbLevels DbWrite DbSettled DbCompactOk.

Section compact_run.
Context `{X : Externals} `{HX : !ExternalsOk X} `{H : HashOrder} `{N : NumberHashOrder}
  `{SM : arena_skip_map} `{!SkipMapOk SM}.

(** ** Moving a table *)

(** A sorted table from which nothing is dropped is left as it is. *)
Lemma compact_nothing es wm drop_tombstones :
  len (compact_entries es wm drop_tombstones) = len es -> compact_entries es wm drop_tombstones ≡ₚ es.
Proof.
  intros Hl. rewrite compact_survivors in *. rewrite <- (sort_by_perm (cmp_key ikey_cmp) es) at 2.
  apply submseteq_length_Permutation.
  - apply sublist_submseteq, survivors_sublist.
  - rewrite (Permutation_length (sort_by_perm (cmp_key ikey_cmp) es)). unfold len in Hl. lia.
Qed.

(** The metadata of a table of the version can be logged again. *)
Lemma held_edit_ok tables l0 levels (d : Db SM) (g : HeldLevels) mn edits h level :
  db_inv tables l0 levels d -> held_state tables (db_state d) g ->
  l0 = g.1.*2 -> levels = map (fmap snd) g.2 -> names (vs_current (db_versions d)) g ->
  manifest_inv (db_path d) (max_levels (db_options d)) mn edits (db_versions d) (db_fs d) ->
  h ∈ all_held g -> u32_ok level -> edit_ok (AddFile level (held_file h)).
Proof.
  intros [_ Hly] Hst -> -> [En0 Enl] Hm Hh Hl.
  assert (version_has (vs_current (db_versions d)) (held_file h)) as Hhas.
  { unfold version_has. rewrite En0, Enl, <- List.concat_map. unfold all_held in Hh.
    apply elem_of_app in Hh as [Hh|Hh]; [left|right]; by apply list_elem_of_fmap_2. }
  assert (forall e, e ∈ h.2 -> entry_storable e) as Hsto.
  { intros e He. pose proof (ly_storable _ _ _ _ Hly) as Hs. rewrite Forall_forall in Hs. apply Hs.
    rewrite contents_held_runs, concat_app, elem_of_app. right. unfold held_runs. rewrite concat_app, elem_of_app.
    unfold all_held in Hh. apply elem_of_app in Hh as [Hh|Hh].
    - left. apply (held_entries_elem g.1). by exists h.
    - right. apply elem_of_concat in Hh as (g' & Hh & Hg'). apply elem_of_concat. exists (held_entries g').
      split; [apply held_entries_elem; by exists h | by apply list_elem_of_fmap_2]. }
  pose proof (hs_holds _ _ _ Hst) as Hhs. rewrite Forall_forall in Hhs. specialize (Hhs h Hh).
  pose proof (th_smallest _ _ _ Hhs) as Hs. pose proof (th_largest _ _ _ Hhs) as Hla.
  destruct (head h.2) as [f|] eqn:Ef; [|done]. injection Hs as Hs.
  destruct (last h.2) as [l|] eqn:El; [|done]. injection Hla as Hla.
  rewrite head_lookup in Ef. rewrite last_lookup in El. apply list_elem_of_lookup_2, Hsto in Ef, El.
  apply edit_short_ok; cbn [edit_fits].
  - split; [done|]. by eapply manifest_file_fits.
  - unfold held_file. rewrite <- Hs, <- Hla. by split; apply storable_key_short.
Qed.

Section move.
Context (tables : Tables) (readers : Z -> option SSTableReader) (d : Db SM) (mn : u64)
  (edits : list VersionEdit) (t : CompactionTask) (p : Place) (upper target : list Held) (h : Held)
  (others rest : list Held).
Let g : HeldLevels := plug p upper target.
Let l0 := g.1.*2.
Let levels : list (list (list entry)) := map (fmap snd) g.2.
Let k := vs_next_file_number (db_versions d).
Let v := vs_current (db_versions d).
Let drop_tombstones := can_drop_tombstones t v.
Context (Hinv : db_inv tables l0 levels d) (Hst : held_state tables (db_state d) g) (Hn : names v g)
  (Hnd : NoDup (map held_number (all_held g)))
  (Hch : chosen t p upper target [h] others [] rest)
  (Hlen : 2 <= len (v_levels v) < 2 ^ 32) (Hin : place_level p + 1 < len (v_levels v))
  (Hm : manifest_inv (db_path d) (max_levels (db_options d)) mn edits (db_versions d) (db_fs d))
  (Hlogged : logged_next edits = k) (Hbound : k < 2 ^ 62)
  (Htc : tables_agree readers (db_table_cache d))
  (Hrd : Forall (fun t : TableRef => readers (fm_number t.1) = Some t.2) (all_tables (db_state d)))
  (Hrn : forall i, k <= i -> readers i = None)
  (Hkeep : len (compact_entries h.2 (gc_watermark d) drop_tombstones) = len h.2).

Lemma move_all : all_held g ≡ₚ h :: others ++ rest ++ place_others p.
Proof. unfold g. rewrite plug_all, (ch_upper _ _ _ _ _ _ _ _ Hch), (ch_target _ _ _ _ _ _ _ _ Hch). solve_Permutation. Qed.

Lemma moved_table : h ∈ all_held g.
Proof. rewrite move_all. by left. Qed.

Lemma move_deletes : task_deletes t = [(place_level p, held_number h)].
Proof.
  unfold task_deletes, all_input_files. rewrite (ch_inputs _ _ _ _ _ _ _ _ Hch), (ch_overlaps _ _ _ _ _ _ _ _ Hch).
  cbn [map app]. f_equal. f_equal. rewrite (input_level t p upper target [h] others [] rest Hch).
  apply decide_True. by left.
Qed.

Definition move_task : M (Db SM) bool :=
  _ ← db_log_and_apply (DeleteFile (place_level p) (held_number h));
  _ ← db_log_and_apply (AddFile (place_level p + 1) (held_file h));
  _ ← refresh_tables_from_version;
  mret true.

Lemma two_edits e1 e2 (d1 d3 : Db SM) :
  log_edits [e1; e2] d1 = (Ok tt, d3) ->
  exists d2, db_log_and_apply e1 d1 = (Ok tt, d2) /\ db_log_and_apply e2 d2 = (Ok tt, d3).
Proof.
  unfold log_edits. cbn [for_each]. intros E. apply bind_inv in E as ([] & d2 & E1 & E).
  apply bind_inv in E as ([] & d3' & E2 & E). injection E as <-. by exists d2.
Qed.

Lemma move_table_bound : 0 <= held_number h < k.
Proof. by destruct (held_open tables _ _ readers d g h Hinv Hst Hrd moved_table). Qed.

(** The edits of a move are logged. *)
Lemma move_logged :
  exists vs' fs3 others' target',
    log_edits (map delete_edit (task_deletes t) ++ map (AddFile (ct_output_level t)) (map held_file [h])) d
      = (Ok tt, set_versions vs' fs3 d) /\
    others' `sublist_of` upper /\ (others' ≡ₚ others) /\ (target' ≡ₚ [h] ++ rest) /\
    names (vs_current vs') (plug p others' target') /\ level_sorted (map held_file target') /\
    vs_next_file_number vs' = k /\ vs_last_sequence vs' = vs_last_sequence (db_versions d) /\
    vs_log_number vs' = vs_log_number (db_versions d) /\
    same_files_but [manifest_path d mn] (db_fs d) fs3 /\
    exists edits', manifest_inv (db_path d) (max_levels (db_options d)) mn edits' vs' fs3 /\
      logged_next edits' = k.
Proof.
  pose proof move_table_bound as Hb. pose proof (level_nonneg p) as Hp.
  assert (NoDup (map held_number (upper ++ target))) as Hnd'.
  { revert Hnd. unfold g. rewrite plug_all, app_assoc, map_app. intros Hx. by apply NoDup_app in Hx as (? & _). }
  destruct (task_version v t p upper target [h] others [] rest Hn Hch Hnd' (db_versions d) [h])
    as (v' & others' & target' & E & Hsub & Ho' & Ht' & Hn' & Hsorted);
    [done | by eapply manifest_version_wf | exact Hin | |].
  { apply Forall_singleton. fold k. lia. }
  set (es := map delete_edit _ ++ _) in *.
  assert (Forall edit_ok es) as Hes.
  { unfold es. rewrite move_deletes, (ch_output _ _ _ _ _ _ _ _ Hch). cbn [map app].
    apply Forall_cons. split; [|apply Forall_singleton].
    - apply edit_short_ok; [|done]. cbn [delete_edit edit_fits fst snd]. unfold u32_ok, u64_ok. lia.
    - eapply held_edit_ok; [exact Hinv | exact Hst | done | done | exact Hn | exact Hm | exact moved_table |].
      unfold u32_ok. lia. }
  pose proof Hinv as [[_ [[Ho _] _] _] _].
  destruct (log_edits_ok es mn edits d _ Hm Ho Hes E) as (vs' & fs3 & L & (Hcur & Hlast & Hlog & _) & Hnx & F & M).
  cbn [vs_current vs_with_current vs_last_sequence vs_log_number vs_next_file_number] in Hcur, Hlast, Hlog, Hnx.
  exists vs', fs3, others', target'.
  split; [exact L|]. split; [exact Hsub|]. split; [exact Ho'|]. split; [exact Ht'|].
  split; [by rewrite Hcur|]. split; [exact Hsorted|]. split; [exact Hnx|]. split; [exact Hlast|].
  split; [exact Hlog|]. split; [exact F|]. exists (edits ++ es). split; [exact M|].
  unfold es. rewrite app_assoc, logged_next_app, logged_next_deletes, Hlogged. cbn [map foldl edit_next].
  change (fm_number (held_file h)) with (held_number h). rewrite wrap_small by lia. lia.
Qed.

(** The state read back from the version that a move leaves. *)
Lemma move_refreshed vs' fs3 edits' others' target' :
  let g' := plug p others' target' in
  let tables' := mkTables fs3 (tb_blocks tables) in
  all_held g' ≡ₚ all_held g -> names (vs_current vs') g' ->
  vs_next_file_number vs' = k -> vs_last_sequence vs' = vs_last_sequence (db_versions d) ->
  vs_log_number vs' = vs_log_number (db_versions d) ->
  same_files_but [manifest_path d mn] (db_fs d) fs3 ->
  manifest_inv (db_path d) (max_levels (db_options d)) mn edits' vs' fs3 -> logged_next edits' = k ->
  exists d', refresh_tables_from_version (set_versions vs' fs3 d) = (Ok tt, d') /\
    rebuilt d d' tables' 0 mn [] g' /\ held_state tables' (db_state d') g'.
Proof.
  intros g' tables' Hall Hn' Hnext Hlast Hlog Hf3 Hm3 Hl3. assert (u64_ok mn) as Hmn by apply Hm.
  pose proof Hinv as [[Hok Hw _] Hly].
  pose proof Hw as [[Ho Hfs] Hcache]. cbn [db_rw rw_fs rw_cache] in Ho, Hfs, Hcache.
  assert (forall i, fs_files fs3 !! table_path d i = fs_files (db_fs d) !! table_path d i) as Htf.
  { intros i. apply (same_files_at _ _ _ _ Hf3). intros E%list_elem_of_singleton. revert E. by apply table_manifest_ne. }
  assert (forall h, h ∈ all_held g' -> open_table_of tables readers d h.1 h.2 /\ 0 <= held_number h < k) as Hopen
    by (intros h' Hh'; rewrite Hall in Hh'; by apply (held_open tables l0 levels readers d g)).
  assert (Forall (holds tables') (all_held g')) as Hholds.
  { apply Forall_forall. intros h' Hh'. destruct (Hopen h' Hh') as [[Hho _ Hpa] _].
    eapply table_holds_frame; [exact Hho | | done]. cbn [tables' tb_fs]. rewrite Hpa, <- Hfs. apply Htf. }
  destruct (refresh_ok readers (set_versions vs' fs3 d) g' Hn' Htc) as (tc' & Htc' & E4).
  { apply Forall_fmap, Forall_forall. intros h' Hh'. destruct (Hopen h' Hh') as [[Hho Hre Hpa] _].
    apply (holds_opens tables _ _ _ _ h'.2 Hho Hre Hpa); [cbn [set_versions db_fs]; by destruct Hf3 as [-> _]|].
    cbn [set_versions db_fs]. rewrite Hpa, <- Hfs. apply Htf. }
  set (d' := set_state _ _) in E4. exists d'. split; [exact E4|]. split; [|by constructor].
  assert (forall i, vs_next_file_number (db_versions d') <= i -> k <= i) as Hnx
    by (intros i; change (vs_next_file_number (db_versions d')) with (vs_next_file_number vs'); by rewrite Hnext).
  constructor; try done.
  - split; [split; [|done]|exact Hcache]. cbn. by destruct Hf3 as [-> _].
  - intros i off Hi%Hnx. by apply (ly_blocks _ _ _ _ Hly).
  - apply Forall_fmap, Forall_forall. intros h' Hh'. destruct (Hopen h' Hh') as [[_ _ Hpa] Hk].
    split; [exact Hpa|]. change (0 <= held_number h' < vs_next_file_number vs'). by rewrite Hnext.
  - by rewrite held_numbers, Hall.
  - change (vs_next_file_number vs' = k + 0). lia.
  - exists edits'. split; [exact Hm3 | by rewrite Hl3].
  - exists readers. split; [exact Htc'|]. split; [|intros i Hi%Hnx; by apply Hrn].
    apply Forall_fmap, Forall_forall. intros h' Hh'. by destruct (Hopen h' Hh') as [[_ Hre _] _].
Qed.

Lemma move_ok batches :
  settled tables l0 levels batches d ->
  exists d' tables' (g' : HeldLevels), move_task d = (Ok true, d') /\
    settled tables' g'.1.*2 (map (fmap snd) g'.2) batches d' /\
    written l0 g'.1.*2 levels (map (fmap snd) g'.2) [] d d' /\ keeps_room d d' /\ inputs_gone t d'.
Proof.
  intros Hs. pose proof move_table_bound as Hb. assert (u64_ok mn) as Hmn by apply Hm.
  destruct move_logged as (vs' & fs3 & others' & target' & E3 & Hsub & Ho' & Ht' & Hn' & Hsorted & Hnext
    & Hlast & Hlog & Hf3 & edits' & Hm3 & Hl3).
  set (g' := plug p others' target') in *.
  pose proof (chosen_perm _ _ _ _ _ _ _ _ _ Ho' Hch) as Hch'. pose proof Hinv as [[Hok _ _] _].
  assert (all_held g' ≡ₚ all_held g) as Hall
    by (unfold g'; rewrite move_all, plug_all, Ho', Ht'; solve_Permutation).
  destruct (move_refreshed vs' fs3 edits' others' target' Hall Hn' Hnext Hlast Hlog Hf3 Hm3 Hl3)
    as (d' & E4 & Hrb & Hst').
  set (tables' := mkTables fs3 (tb_blocks tables)) in *.
  assert (inputs_gone t d') as Hgone
    by (eapply chosen_gone; [exact Hch | exact Ho' | exact Hnd | apply (rb_names _ _ _ _ _ _ _ Hrb)]).
  destruct (replaced_state tables tables' (db_state d) t p upper target [h] others' [] rest [h] target'
    (gc_watermark d) drop_tombstones Hok Hst Hch' Hsub) as (Hok' & _ & Hcsub & Hreads).
  - apply Hst'.
  - unfold held_entries. cbn [fmap list_fmap concat]. rewrite !app_nil_r. symmetry. by apply compact_nothing.
  - exact Ht'.
  - exact Hsorted.
  - repeat constructor.
  - intros Hd. rewrite <- held_entries_app.
    by apply (dropped_apart tables d t p upper target [h] others [] rest).
  - exists d', tables', g'. split.
    + unfold move_task. rewrite move_deletes, (ch_output _ _ _ _ _ _ _ _ Hch) in E3. cbn [map app] in E3.
      apply two_edits in E3 as (d2 & E1 & E2). unfold delete_edit in E1. cbn [fst snd] in E1.
      by rewrite (bind_ok _ _ _ _ _ E1), (bind_ok _ _ _ _ _ E2), (bind_ok _ _ _ _ _ E4).
    + pose proof (rb_state _ _ _ _ _ _ _ Hrb) as Est. unfold g' in Hrb. cbv zeta in Est. rewrite <- Est in Hok', Hcsub.
      edestruct rebuilt_settled as (A1 & A2 & A3); [exact Hs | exact Hrb | fold k; lia | exact Hmn | | exact Hreads | exact (conj A1 (conj A2 (conj A3 Hgone)))].
      eapply rebuilt_inv; [exact Hinv | exact Hrb | exact Hmn | by apply Forall_nil_2 | | exact Hst' | exact Hok' | exact Hcsub].
      fold k. lia.
Qed.
End move.

(** ** A compaction *)

(** The entries the task leaves. *)
Definition task_output (t : CompactionTask) (d : Db SM) : list entry :=
  match (read_inputs t d).1 with
  | Ok es => compact_entries es (gc_watermark d) (can_drop_tombstones t (vs_current (db_versions d)))
  | _ => []
  end.

(** A task that the picker makes, with outputs that the formats hold. *)
Record task_fits (t : CompactionTask) (d : Db SM) : Prop := mkTaskFits {
  tf_whole : whole_task (vs_current (db_versions d)) t;
  tf_levels : 2 <= len (v_levels (vs_current (db_versions d))) < 2 ^ 32;
  tf_output : outputs_fit d (task_output t d)
}.

Lemma first_level_held tables (d : Db SM) (g : HeldLevels) :
  state_ok tables (db_state d) g.1.*2 (map (fmap snd) g.2) -> 0 < len g.2 -> head g.2 = Some [].
Proof.
  intros Hok Hl. pose proof (so_level0 _ _ _ _ Hok) as Hz. destruct g as [g0 [|gt gs]]; [done|].
  cbn [fst snd map take concat] in Hz |- *. rewrite app_nil_r in Hz. by apply fmap_nil_inv in Hz as ->.
Qed.

(** What a task reads is what its tables hold. *)
Lemma task_output_held tables l0 levels (d : Db SM) (g : HeldLevels) hs t :
  db_inv tables l0 levels d -> held_state tables (db_state d) g -> hs ⊆ all_held g ->
  all_input_files t = map held_file hs ->
  task_output t d = compact_entries (held_entries hs) (gc_watermark d)
    (can_drop_tombstones t (vs_current (db_versions d))).
Proof.
  intros Hinv Hst Hsub Ef. pose proof Hinv as [_ Hly].
  destruct (ly_readers _ _ _ _ Hly) as (readers & Htc & Hrd & _).
  destruct (read_task_ok tables _ _ readers d g hs t Hinv Hst Htc Hrd Hsub Ef) as (d' & E & _).
  unfold task_output. by rewrite E.
Qed.

Section task.
Context (tables : Tables) (l0 : list (list entry)) (levels : list (list (list entry)))
  (batches : list WriteBatch) (d : Db SM) (t : CompactionTask).
Context (Hs : settled tables l0 levels batches d) (Hfit : task_fits t d).

(** The tables of the task, and where they are. *)
Lemma task_place :
  exists p upper target inputs others overlaps rest,
    let g : HeldLevels := plug p upper target in
    l0 = g.1.*2 /\ levels = map (fmap snd) g.2 /\ held_state tables (db_state d) g /\
    names (vs_current (db_versions d)) g /\ NoDup (map held_number (all_held g)) /\
    chosen t p upper target inputs others overlaps rest /\
    place_level p + 1 < len (v_levels (vs_current (db_versions d))).
Proof.
  destruct Hs as [Hinv _ _ _]. destruct Hfit as [Hw Hl _]. pose proof Hinv as [[Hok _ _] _].
  destruct (db_held _ _ _ _ Hinv) as (g & -> & -> & Hst & Hn & Hnd).
  assert (len (v_levels (vs_current (db_versions d))) = len g.2) as El
    by (destruct Hn as [_ ->]; unfold len; by rewrite length_map).
  destruct (whole_chosen tables (vs_current (db_versions d)) g t Hn)
    as (p & upper & target & inputs & others & overlaps & rest & <- & Hch).
  - apply (first_level_held tables d); [done | lia].
  - apply Hst.
  - pose proof (so_disjoint _ _ _ _ Hok) as Hd. rewrite (hs_levels _ _ _ Hst) in Hd. by apply disjoint_held.
  - exact Hw.
  - exists p, upper, target, inputs, others, overlaps, rest. cbn zeta.
    destruct Hw as (level & manual & H0 & H1 & Et & _).
    split; [done|]. split; [done|]. split; [done|]. split; [done|]. split; [done|]. split; [done|].
    destruct (task_for_files_exact _ _ _ _ _ H0 H1 Et) as (E & _).
    by rewrite <- (ch_level _ _ _ _ _ _ _ _ Hch), E.
Qed.

Lemma task_inputs_held p upper target inputs others overlaps rest :
  chosen t p upper target inputs others overlaps rest ->
  inputs ++ overlaps ⊆ all_held (plug p upper target) /\
  all_input_files t = map held_file (inputs ++ overlaps).
Proof.
  intros Hch. split.
  - intros h Hh. rewrite (chosen_all t p upper target _ _ _ _ Hch). apply elem_of_app. by left.
  - unfold all_input_files. rewrite (ch_inputs _ _ _ _ _ _ _ _ Hch), (ch_overlaps _ _ _ _ _ _ _ _ Hch).
    by rewrite map_app.
Qed.

(** The task fits as long as the tables stay. *)
Lemma task_fits_same (d' : Db SM) :
  db_inv tables l0 levels d' -> db_state d' = db_state d -> db_versions d' = db_versions d ->
  db_options d' = db_options d -> db_snapshots d' = db_snapshots d -> task_fits t d'.
Proof.
  intros Hinv' Est Ev Eo Es.
  destruct task_place as (p & upper & target & inputs & others & overlaps & rest & _ & _ & Hst & _ & _ & Hch & _).
  destruct (task_inputs_held p upper target _ _ _ _ Hch) as [Hsub Ef].
  destruct Hfit as [Hw Hl Ho]. rewrite (task_output_held _ _ _ _ _ _ t (se_inv _ _ _ _ _ Hs) Hst Hsub Ef) in Ho.
  assert (held_state tables (db_state d') (plug p upper target)) as Hst' by by rewrite Est.
  constructor; rewrite ?Ev; [done | done |].
  rewrite (task_output_held _ _ _ _ _ _ t Hinv' Hst' Hsub Ef), Ev.
  unfold gc_watermark in *. rewrite Est, Es. destruct Ho. constructor; rewrite ?Eo, ?Ev; done.
Qed.

(** The part of [execute_compaction] that rewrites the tables, and the part
    that only moves one. *)
Definition rewrite_body (wm : u64) (drop_tombstones : bool) : M (Db SM) bool :=
  entries ← read_inputs t;
  let output_entries := compact_entries entries wm drop_tombstones in
  outputs ← write_compaction_outputs output_entries;
  _ ← apply_compaction t outputs;
  _ ← refresh_tables_from_version;
  _ ← delete_obsolete_files (map fm_number (all_input_files t));
  mret true.

Definition done_ok (d0 : Db SM) (m : M (Db SM) bool) : Prop :=
  exists d' tables' l0' levels', m d0 = (Ok true, d') /\ settled tables' l0' levels' batches d' /\
    written l0 l0' levels levels' [] d d' /\ keeps_room d d' /\ inputs_gone t d'.

(** What the layout says of the manifest and the readers. *)
Context (mn : u64) (edits : list VersionEdit) (readers : Z -> option SSTableReader).
Context (Hm : manifest_inv (db_path d) (max_levels (db_options d)) mn edits (db_versions d) (db_fs d))
  (Hlogged : logged_next edits = vs_next_file_number (db_versions d))
  (Htc : tables_agree readers (db_table_cache d))
  (Hrd : Forall (fun t : TableRef => readers (fm_number t.1) = Some t.2) (all_tables (db_state d)))
  (Hrn : forall i, vs_next_file_number (db_versions d) <= i -> readers i = None).

Lemma rewrite_body_ok d0 :
  peeked tables readers d d0 ->
  done_ok d0 (rewrite_body (gc_watermark d) (can_drop_tombstones t (vs_current (db_versions d)))).
Proof.
  destruct task_place as (p & upper & target & inputs & others & overlaps & rest & El0 & Elv & Hst & Hn & Hnd & Hch & Hin).
  destruct Hfit as [_ Hl Hout]. pose proof Hs as Hsd. rewrite El0, Elv in Hsd. intros Hp0. pose proof (peeked_inv _ _ _ _ Hp0) as [_ Htc0].
  destruct (task_inputs_held p upper target _ _ _ _ Hch) as [Hsub Ef].
  rewrite (task_output_held _ _ _ _ _ _ t (se_inv _ _ _ _ _ Hsd) Hst Hsub Ef) in Hout.
  pose proof (peeked_settled _ _ _ _ _ _ _ Hsd Htc Hrd Hrn Hp0) as Hs0.
  assert (held_state tables (db_state d0) (plug p upper target)) as Hst0 by by destruct Hp0 as (c & tc & m & -> & _).
  assert (Forall (fun t : TableRef => readers (fm_number t.1) = Some t.2) (all_tables (db_state d0))) as Hrd0
    by by destruct Hp0 as (c & tc & m & -> & _).
  destruct (read_task_ok tables _ _ readers d0 _ _ t (se_inv _ _ _ _ _ Hs0) Hst0 Htc0 Hrd0 Hsub Ef)
    as (d1 & E1 & Hp1).
  pose proof (peeked_trans _ _ _ _ _ Hp0 Hp1) as Hp. clear Hs0 Hst0 Hrd0 Hp1 Htc0.
  pose proof (peeked_inv _ _ _ _ Hp) as [_ Htc1].
  pose proof (peeked_settled _ _ _ _ _ _ _ Hsd Htc Hrd Hrn Hp) as Hs1.
  unfold done_ok. unfold rewrite_body. rewrite (bind_ok _ _ _ _ _ E1).
  destruct Hp as (c & tc & m & -> & _).
  destruct (rewrite_ok tables readers (io_update (db_wal d) (db_versions d) c tc m (db_fs d) d) mn edits t p upper target
    inputs others overlaps rest (se_inv _ _ _ _ _ Hs1) Hst Hn Hnd Hch Hl Hin Hm Hlogged Htc1 Hrd Hrn)
    with (batches := batches) as (d' & tables' & g' & E & Hs' & Hw & Hk & Hgone); [by destruct Hout | exact Hs1 |].
  exists d', tables', g'.1.*2, (map (fmap snd) g'.2). split; [exact E|]. split; [exact Hs'|]. rewrite El0, Elv.
  split; [by destruct Hw | exact (conj Hk Hgone)].
Qed.

Definition move_body (meta : FileMeta) : M (Db SM) bool :=
  _ ← db_log_and_apply (DeleteFile (ct_input_level t) (fm_number meta));
  _ ← db_log_and_apply (AddFile (ct_output_level t) meta);
  _ ← refresh_tables_from_version;
  mret true.

(** A table from which nothing would be dropped, with nothing to merge it
    with. *)
Lemma trivial_inv p upper target inputs others overlaps rest :
  chosen t p upper target inputs others overlaps rest -> is_trivial_move t = true ->
  exists h, inputs = [h] /\ overlaps = [].
Proof.
  intros Hch. unfold is_trivial_move. rewrite (ch_inputs _ _ _ _ _ _ _ _ Hch), (ch_overlaps _ _ _ _ _ _ _ _ Hch).
  intros [[_ Hl%Z.eqb_eq]%andb_true_iff Ho]%andb_true_iff. unfold len in Hl. rewrite length_map in Hl.
  destruct inputs as [|h [|]]; cbn [length] in Hl; try lia. exists h. by destruct overlaps.
Qed.

(** The check reads the table and says whether it would change. *)
Lemma trivial_check_ok p upper target h others rest wm drop_tombstones :
  let g : HeldLevels := plug p upper target in
  held_state tables (db_state d) g -> chosen t p upper target [h] others [] rest ->
  exists d0, trivial_move_needs_rewrite t wm drop_tombstones d
      = (Ok (negb (len (compact_entries h.2 wm drop_tombstones) =? len h.2)), d0) /\
    peeked tables readers d d0.
Proof.
  intros g Hst Hch. assert (h ∈ all_held g) as Hh
    by (unfold g; rewrite (chosen_all t p upper target _ _ _ _ Hch); by left).
  destruct (held_open tables _ _ readers d g h (se_inv _ _ _ _ _ Hs) Hst Hrd Hh) as [Hopen _].
  destruct (table_entries_ok tables readers d _ _ Hopen) as (d0 & E0 & Hp); [apply (se_inv _ _ _ _ _ Hs)|done|].
  exists d0. split; [|exact Hp]. unfold trivial_move_needs_rewrite, first_input.
  rewrite (ch_inputs _ _ _ _ _ _ _ _ Hch). cbn [map]. erewrite bind_ok by reflexivity.
  by rewrite (bind_ok _ _ _ _ _ E0).
Qed.

Lemma move_body_ok d0 p upper target h others rest :
  let g : HeldLevels := plug p upper target in
  l0 = g.1.*2 -> levels = map (fmap snd) g.2 -> held_state tables (db_state d) g ->
  names (vs_current (db_versions d)) g -> NoDup (map held_number (all_held g)) ->
  chosen t p upper target [h] others [] rest -> place_level p + 1 < len (v_levels (vs_current (db_versions d))) ->
  len (compact_entries h.2 (gc_watermark d) (can_drop_tombstones t (vs_current (db_versions d)))) = len h.2 ->
  peeked tables readers d d0 -> done_ok d0 (move_body (held_file h)).
Proof.
  intros g El0 Elv Hst Hn Hnd Hch Hin Hkeep Hp. destruct Hfit as [_ Hl Hout].
  pose proof Hs as Hsd. rewrite El0, Elv in Hsd. pose proof (peeked_inv _ _ _ _ Hp) as [_ Htc0].
  pose proof (peeked_settled _ _ _ _ _ _ _ Hsd Htc Hrd Hrn Hp) as Hs0. destruct Hp as (c & tc & m & -> & _).
  assert (vs_next_file_number (db_versions d) < 2 ^ 62) as Hnum.
  { pose proof (of_numbers _ _ Hout) as Ho. pose proof (len_nonneg (output_chunks (db_options d) (task_output t d))). lia. }
  destruct (move_ok tables readers (io_update (db_wal d) (db_versions d) c tc m (db_fs d) d) mn edits t p upper
    target h others rest (se_inv _ _ _ _ _ Hs0) Hst Hn Hnd Hch Hl Hin Hm Hlogged Hnum Htc0 Hrd Hrn Hkeep batches Hs0)
    as (d' & tables' & g' & E & Hs' & Hw & Hk & Hgone).
  exists d', tables', g'.1.*2, (map (fmap snd) g'.2). split; [|split; [exact Hs'|]].
  - unfold move_body. by rewrite (ch_level _ _ _ _ _ _ _ _ Hch), (ch_output _ _ _ _ _ _ _ _ Hch).
  - rewrite El0, Elv. split; [by destruct Hw | exact (conj Hk Hgone)].
Qed.

Lemma execute_with_readers : done_ok d (execute_compaction t).
Proof.
  destruct task_place as (p & upper & target & inputs & others & overlaps & rest & El0 & Elv & Hst & Hn & Hnd & Hch & Hin).
  pose proof (ch_nonempty _ _ _ _ _ _ _ _ Hch) as Hne. pose proof (ch_inputs _ _ _ _ _ _ _ _ Hch) as Ei.
  destruct inputs as [|h inputs]; [done|]. cbn [map] in Ei.
  unfold done_ok, execute_compaction. rewrite Ei. setoid_rewrite bind_get_state.
  destruct (is_trivial_move t) eqn:Et.
  - destruct (trivial_inv p upper target _ _ _ _ Hch Et) as (h' & [= -> ->] & ->).
    destruct (trivial_check_ok p upper target h' others rest (gc_watermark d)
      (can_drop_tombstones t (vs_current (db_versions d))) Hst Hch) as (d0 & E0 & Hp).
    unfold gc_watermark in E0 at 1. setoid_rewrite bind_assoc. setoid_rewrite (bind_ok _ _ _ _ _ E0).
    setoid_rewrite bind_ret. rewrite negb_involutive. destruct (Z.eqb_spec (len (compact_entries h'.2 (gc_watermark d)
      (can_drop_tombstones t (vs_current (db_versions d))))) (len h'.2)) as [Hk|_].
    + by apply (move_body_ok d0 p upper target h' others rest).
    + by apply rewrite_body_ok.
  - setoid_rewrite bind_ret. apply rewrite_body_ok, peeked_refl; [apply (se_inv _ _ _ _ _ Hs) | done].
Qed.
End task.

(** The database after a compaction. *)
Lemma execute_compaction_settles tables l0 levels batches (d : Db SM) t :
  settled tables l0 levels batches d -> task_fits t d ->
  exists d' tables' l0' levels', execute_compaction t d = (Ok true, d') /\
    settled tables' l0' levels' batches d' /\ written l0 l0' levels levels' [] d d' /\ keeps_room d d' /\ inputs_gone t d'.
Proof.
  intros Hs Hfit. destruct Hs as [[Hok Hly] H1 H2 H3] eqn:E. clear E.
  destruct (ly_manifest _ _ _ _ Hly) as (mn & edits & Hm & Hlog).
  destruct (ly_readers _ _ _ _ Hly) as (readers & Htc & Hrd & Hrn).
  by apply (execute_with_readers tables l0 levels batches d t Hs Hfit mn edits readers).
Qed.

(** [compact_range] over all keys: the task the picker makes fits. *)
Definition range_fits (lower upper : Bound) (d : Db SM) : Prop :=
  forall t, pick_manual (vs_current (db_versions d)) lower upper = Ok (Some t) -> task_fits t d.

(** Checked by computation, for the range of all keys. *)
Definition full_range_fits (d : Db SM) : bool :=
  let levels := v_levels (vs_current (db_versions d)) in
  match pick_manual (vs_current (db_versions d)) Unbounded Unbounded with
  | Ok (Some t) =>
      let out := task_output t d in
      let chunks := output_chunks (db_options d) out in
      (2 <=? len levels) && (len levels <? 2 ^ 32)
      && bool_decide (Forall (table_bounded (db_options d)) chunks)
      && (vs_next_file_number (db_versions d) + len chunks <? 2 ^ 62)
      && bool_decide (Forall (fun e : entry => user_key e.1 <> []) out)
  | _ => true
  end.

Lemma full_range_fits_ok (d : Db SM) : full_range_fits d = true -> range_fits Unbounded Unbounded d.
Proof.
  unfold full_range_fits. intros Hf t Ht. rewrite Ht in Hf.
  apply andb_true_iff in Hf as [[[[Hl1 Hl2]%andb_true_iff Hb]%andb_true_iff Hn]%andb_true_iff Hk].
  apply bool_decide_eq_true_1 in Hb, Hk.
  constructor; [apply pick_manual_whole; [lia | exact Ht] | lia |].
  constructor; [exact Hb | lia | by left].
Qed.

Lemma compact_range_settles tables l0 levels batches lower upper (d : Db SM) :
  settled tables l0 levels batches d -> range_fits lower upper d ->
  exists d' tables' l0' levels', compact_range lower upper d = (Ok tt, d') /\
    settled tables' l0' levels' batches d' /\ written l0 l0' levels levels' [] d d' /\ keeps_room d d'.
Proof.
  intros Hs Hfit. destruct (pick_manual_ok (vs_current (db_versions d)) lower upper) as (o & E).
  unfold range_fits in Hfit. unfold compact_range. setoid_rewrite bind_get_state. rewrite E in Hfit |- *.
  setoid_rewrite (bind_ok (lift (Ok o)) _ _ o _ eq_refl). destruct o as [t|].
  - destruct (execute_compaction_settles _ _ _ _ d t Hs (Hfit t eq_refl))
      as (d' & tables' & l0' & levels' & Et & Hs' & Hw & Hk & _).
    exists d', tables', l0', levels'. by rewrite (bind_ok _ _ _ _ _ Et).
  - exists d, tables, l0, levels. split; [done|]. split; [done|]. split; [apply written_refl | done].
Qed.
End compact_run.
