(* ===== verification/DbGroup.v ===== *)
(** * Group commit

    The leader's part of a write in [src/db.rs]: the batches of a group are
    numbered, logged and applied.  The log is written first: when an append or
    the sync fails nothing has been applied, and when all succeed every batch
    is applied, in order, with the sequence numbers that were logged.  Nothing
    here assumes that the file system works. *)

From Stdlib Require Import Sorting.Sorted.
From stdpp Require Import base list gmap strings sorting.
From S2P Require Import Prelude Key Spec Memtable Coding Batch Env Externals Wal Block Cache.
From S2P Require Import Format Properties Table Reader TableCache Version Options Metrics.
From S2P Require Import Compact Mvcc DbState DbRead DbMem DbFlush DbCompact DbWrite.

Section group.
Context `{X : Externals} `{HX : !ExternalsOk X} `{H : HashOrder} `{SM : arena_skip_map}
  `{!SkipMapOk SM}.

(** ** Logging *)

Definition wal_path_of (d : Db SM) : string := wf_path (ww_file (db_wal d)).

(** [d'] is [d] after [b] was appended to its log, which held [c]. *)
Definition logged (c : bytes) (d : Db SM) (b : bytes) (d' : Db SM) : Prop :=
  exists w fs m, d' = set_metrics m (set_wal w fs d) /\
    wf_path (ww_file w) = wal_path_of d /\ writes_at_end (ww_file w) fs (c ++ b) /\
    fs_files fs = <[wal_path_of d := c ++ b]> (fs_files (db_fs d)).

Lemma logged_refl c d : writes_at_end (ww_file (db_wal d)) (db_fs d) c -> logged c d [] d.
Proof.
  intros Hw. exists (db_wal d), (db_fs d), (db_metrics d). rewrite app_nil_r.
  split; [by destruct d|]. split; [done|]. split; [done|].
  symmetry. apply insert_id. apply Hw.
Qed.

Lemma logged_trans c d1 b d2 b' d3 :
  logged c d1 b d2 -> logged (c ++ b) d2 b' d3 -> logged c d1 (b ++ b') d3.
Proof.
  intros (w & fs & m & -> & Hp & _ & Hf) (w' & fs' & m' & -> & Hp' & Hw' & Hf').
  exists w', fs', m'. rewrite app_assoc. split; [done|].
  unfold wal_path_of in *. cbn in Hp', Hf'. rewrite Hp in *. split; [done|]. split; [done|].
  by rewrite Hf', Hf, insert_insert_eq.
Qed.

Lemma logged_writes c d b d' :
  logged c d b d' -> writes_at_end (ww_file (db_wal d')) (db_fs d') (c ++ b).
Proof. by intros (w & fs & m & -> & _ & ? & _). Qed.

Lemma logged_metrics c d b d' f :
  logged c d b d' -> logged c d b (set_metrics (f (db_metrics d')) d').
Proof. intros (w & fs & m & -> & ?). by exists w, fs, (f m). Qed.

Lemma logged_state c d b d' : logged c d b d' -> db_state d' = db_state d.
Proof. by intros (w & fs & m & -> & _). Qed.

(** What a call may have written: part of [whole], all of it when it
    succeeded, as it does when the file system does not fail. *)
Definition clean_step (d d' : Db SM) : Prop :=
  fs_oracle (db_fs d') = [] /\ fs_dirs (db_fs d') = fs_dirs (db_fs d).

Record log_outcome {A} (whole : bytes) (result : A) (c : bytes) (d : Db SM) (r : res A)
    (d' : Db SM) (b : bytes) : Prop := mkLogOutcome {
  lo_logged : logged c d b d';
  lo_prefix : b `prefix_of` whole;
  lo_panic : r <> Panic;
  lo_ok : forall x, r = Ok x -> x = result /\ b = whole;
  lo_clean : fs_oracle (db_fs d) = [] -> r = Ok result /\ clean_step d d'
}.

Definition logs {A} (m : M (Db SM) A) (whole : bytes) (result : A) : Prop :=
  forall c d, writes_at_end (ww_file (db_wal d)) (db_fs d) c ->
  exists r d' b, m d = (r, d') /\ log_outcome whole result c d r d' b.

Lemma logs_ret {A} (a : A) : logs (mret a) [] a.
Proof.
  intros c d Hw. exists (Ok a), d, []. split; [done|].
  constructor; [by apply logged_refl | done | done | by intros x [= ->] | done].
Qed.

Lemma logs_bind {A B} (m : M (Db SM) A) (f : A -> M (Db SM) B) b1 b2 a result :
  logs m b1 a -> logs (f a) b2 result -> logs (mbind f m) (b1 ++ b2) result.
Proof.
  intros Hm Hf c d Hw. destruct (Hm c d Hw) as (r & d1 & b & E & [Hl Hpre Hp Hr Hcl]).
  destruct r as [x|e|]; [| |done].
  - destruct (Hr x eq_refl) as [-> ->].
    destruct (Hf (c ++ b1) d1 (logged_writes _ _ _ _ Hl))
      as (r2 & d2 & b' & E2 & [Hl2 Hpre2 Hp2 Hr2 Hcl2]).
    exists r2, d2, (b1 ++ b'). split; [by rewrite (bind_ok _ _ _ _ _ E)|].
    constructor; [by eapply logged_trans | by apply prefix_app | done | |].
    + intros y Ey. by destruct (Hr2 y Ey) as [-> ->].
    + intros [_ [Ho1 Hd1]]%Hcl. destruct (Hcl2 Ho1) as [Er [Ho2 Hd2]].
      split; [done|]. split; [done | congruence].
  - exists (Err e), d1, b. split; [by apply bind_err|].
    constructor; [done | by apply prefix_app_r | done | done | by intros [? _]%Hcl].
Qed.

Lemma logs_metrics f : logs (on_metrics f) [] tt.
Proof.
  intros c d Hw. eexists (Ok tt), _, []. split; [reflexivity|].
  constructor; [by apply logged_metrics, logged_refl | done | done | by intros [] | done].
Qed.

Lemma logs_append payload : logs (on_wal (wal_append payload)) (wal_record payload) tt.
Proof.
  intros c d Hw. destruct (wal_append_prefix payload (db_wal d) (db_fs d) c Hw)
    as (r & w & fs & b & E & Hp & Hpre & Hr & Hw' & Hf).
  exists r, (set_wal w fs d), b. split; [unfold on_wal, zoom; by rewrite E|].
  constructor; [| done | | intros [] ->; split; [done | by apply (Hr tt)] |].
  - exists w, fs, (db_metrics d). by split; [destruct d|].
  - pose proof (wal_append_no_panic payload (db_wal d, db_fs d)) as Hn. by rewrite E in Hn.
  - intros Ho. destruct (wal_append_ok payload _ _ _ Hw Ho) as (w2 & E2 & _).
    rewrite E in E2. by injection E2 as -> <- ->.
Qed.

Lemma logs_sync : logs (on_wal wal_sync) [] tt.
Proof.
  intros c d Hw. unfold on_wal, zoom, wal_sync, on_ww, zoom. cbn [fst snd].
  pose proof (sync_all_no_panic (ww_file (db_wal d), db_fs d)) as Hn.
  destruct (sync_all (ww_file (db_wal d), db_fs d)) as [r [f fs]] eqn:E.
  pose proof E as Es. apply sync_all_files in Es as [-> Hf].
  eexists r, _, []. split; [reflexivity|].
  constructor; [| done | done | by intros [] |].
  - exists (mkWalWriter (ww_file (db_wal d))), fs, (db_metrics d). rewrite app_nil_r.
    split; [by destruct d|]. split; [done|]. unfold writes_at_end in *. cbn [ww_file].
    rewrite Hf. split; [done|]. symmetry. apply insert_id. apply Hw.
  - intros Ho. rewrite sync_all_ok in E by done. by injection E as <- <-.
Qed.

(** The bytes of a group in the log: one record for each batch that does not
    opt out, with consecutive sequence numbers. *)
Definition item_log (item : GroupWriteItem) : bytes :=
  if wo_disable_wal (gi_opts item) then []
  else wal_record (encode_with_sequence (gi_batch item) (gi_start_sequence item)).

Definition item_syncs (mode : WalSyncMode) (item : GroupWriteItem) : bool :=
  negb (wo_disable_wal (gi_opts item))
  && (wo_sync (gi_opts item) || bool_decide (mode = PerWrite)).

Lemma logs_item mode item flag :
  logs (log_item mode item flag) (item_log item) (flag || item_syncs mode item).
Proof.
  unfold log_item, item_log, item_syncs. destruct (wo_disable_wal (gi_opts item)); cbn [negb andb].
  - rewrite orb_false_r. apply logs_ret.
  - cbv zeta. rewrite <- (app_nil_l (wal_record _)). eapply logs_bind; [apply logs_metrics|].
    rewrite <- (app_nil_r (wal_record _)). eapply logs_bind; [apply logs_append | apply logs_ret].
Qed.

Lemma logs_items mode items flag :
  logs (for_each items (log_item mode) flag) (concat (map item_log items))
    (flag || existsb (item_syncs mode) items).
Proof.
  revert flag. induction items as [|item items IH]; intros flag; cbn [for_each map concat existsb].
  - rewrite orb_false_r. apply logs_ret.
  - rewrite orb_assoc. eapply logs_bind; [apply logs_item | apply IH].
Qed.

Definition group_log (enabled : bool) (items : list GroupWriteItem) : bytes :=
  if enabled then concat (map item_log items) else [].

Lemma logs_group items d c :
  writes_at_end (ww_file (db_wal d)) (db_fs d) c ->
  exists r d' b, log_items items d = (r, d') /\
    log_outcome (group_log (wal_enabled (db_options d)) items) tt c d r d' b.
Proof.
  intros Hw. unfold log_items, group_log. rewrite bind_get_state.
  destruct (wal_enabled (db_options d)); [|by apply logs_ret].
  set (mode := wal_sync_mode (db_options d)).
  assert (logs (should_sync ← for_each items (log_item mode) false;
    (if (should_sync : bool) then sync_log else mret tt) : M (Db SM) unit)
    (concat (map item_log items)) tt) as Hl; [|by apply Hl].
  rewrite <- (app_nil_r (concat _)).
  eapply logs_bind; [apply logs_items|]. cbn [orb]. destruct (existsb _ _); [|apply logs_ret].
  change (@nil Z) with (@nil Z ++ @nil Z). eapply logs_bind; [apply logs_sync | apply logs_metrics].
Qed.

(** ** Numbering *)

(** The items with the sequence numbers the leader gives them. *)
Fixpoint numbered (seq : u64) (items : list GroupWriteItem) : list GroupWriteItem :=
  match items with
  | [] => []
  | i :: items =>
      mkGroupWriteItem (gi_batch i) (gi_opts i) (gi_user_write_bytes i) seq
        :: numbered (seq + len (records (gi_batch i))) items
  end.

Definition group_records (items : list GroupWriteItem) : list BatchRecord :=
  all_records (map gi_batch items).

Lemma group_records_cons i items :
  group_records (i :: items) = records (gi_batch i) ++ group_records items.
Proof. done. Qed.

Lemma number_items seq acc items :
  0 <= seq -> seq + len (group_records items) < 2 ^ 64 ->
  (foldl number_item (seq, acc) items).2 = acc ++ numbered seq items.
Proof.
  revert seq acc. induction items as [|i items IH]; intros seq acc H0 Hlt; [by rewrite app_nil_r|].
  rewrite group_records_cons, len_app in Hlt.
  pose proof (len_nonneg (records (gi_batch i))). pose proof (len_nonneg (group_records items)).
  cbn [foldl number_item numbered]. rewrite wrap_small by lia. rewrite IH by lia.
  by rewrite <- app_assoc.
Qed.

(** ** Applying *)

Lemma apply_and_freeze_ok tables l0 levels batch (d : Db SM) :
  state_ok tables (db_state d) l0 levels ->
  st_last_sequence (db_state d) + 1 + len (records batch) < 2 ^ 64 ->
  exists frozen st', apply_and_freeze (st_last_sequence (db_state d) + 1) batch d
    = (Ok frozen, set_state st' d) /\ applies tables l0 levels (records batch) (db_state d) st'.
Proof.
  intros Hok Hlt. unfold apply_and_freeze.
  pose proof (apply_batch_applies tables l0 levels batch (db_state d) Hok Hlt) as A.
  set (st1 := apply_batch _ batch (db_state d)) in *.
  pose proof (freeze_ok tables (memtable_size (db_options d)) (memtable_kind (db_options d)) st1
    l0 levels (ap_ok _ _ _ _ _ _ A)) as Hf.
  unfold freeze_mutable_if_needed in *. rewrite mt_is_empty_entries in *.
  destruct (mt_entries (st_mutable st1)) as [|e0 es0] eqn:Emut; cbn [orb] in *;
    [|destruct (mt_approximate_size (st_mutable st1) <? memtable_size (db_options d))];
    eexists _, _; (split; [reflexivity|]); [exact A | exact A |].
  destruct Hf as (K2 & Hc & L2 & C2 & _). destruct A.
  constructor; rewrite ?Hc, ?L2, ?C2; try done; cbn [with_memtables st_immutables].
  - intros Hi. apply Forall_app. split; [auto|]. repeat constructor. by rewrite Emut.
  - intros e. rewrite <- ap_mem. unfold mem_runs. cbn [with_memtables st_mutable st_immutables map].
    by rewrite mt_new_entries, rev_app_distr.
Qed.

Lemma apply_items_ok tables l0 levels items (d : Db SM) flag :
  state_ok tables (db_state d) l0 levels ->
  st_last_sequence (db_state d) + 1 + len (group_records items) < 2 ^ 64 ->
  exists flag' st', for_each (numbered (st_last_sequence (db_state d) + 1) items)
      (fun item should_flush =>
        frozen ← apply_and_freeze (gi_start_sequence item) (gi_batch item);
        mret (should_flush || frozen)) flag d = (Ok flag', set_state st' d) /\
    applies tables l0 levels (group_records items) (db_state d) st'.
Proof.
  revert d flag. induction items as [|i items IH]; intros d flag Hok Hlt; cbn [numbered for_each].
  { exists flag, (db_state d). split; [by destruct d | by apply applies_refl]. }
  rewrite group_records_cons, len_app in *.
  pose proof (len_nonneg (records (gi_batch i))). pose proof (len_nonneg (group_records items)).
  destruct (apply_and_freeze_ok tables l0 levels (gi_batch i) d Hok) as (fz & st1 & E1 & A1); [lia|].
  destruct (IH (set_state st1 d) (flag || fz)) as (flag' & st2 & E2 & A2); [apply A1 | |].
  { cbn. rewrite (ap_last _ _ _ _ _ _ A1). lia. }
  exists flag', st2. split; [|by eapply applies_trans].
  cbn [gi_batch gi_start_sequence]. rewrite bind_assoc, (bind_ok _ _ _ _ _ E1), bind_ret.
  pose proof (ap_last _ _ _ _ _ _ A1) as L1. cbn [db_state set_state] in E2. rewrite L1 in E2.
  replace (st_last_sequence (db_state d) + 1 + len (records (gi_batch i)))
    with (st_last_sequence (db_state d) + len (records (gi_batch i)) + 1) by lia.
  exact E2.
Qed.

(** The whole call: what it logged and what it applied. *)
Lemma group_outcome tables l0 levels items d c :
  state_ok tables (db_state d) l0 levels -> st_closed (db_state d) = false ->
  st_last_sequence (db_state d) + 1 + len (group_records items) < 2 ^ 64 ->
  writes_at_end (ww_file (db_wal d)) (db_fs d) c ->
  let whole := group_log (wal_enabled (db_options d))
    (numbered (st_last_sequence (db_state d) + 1) items) in
  exists r d' d1 b st', apply_write_group_to_memtable items d = (r, d') /\
    d' = set_state st' d1 /\ logged c d b d1 /\ b `prefix_of` whole /\
    match r with
    | Ok _ => b = whole /\ applies tables l0 levels (group_records items) (db_state d) st'
    | Err _ => st' = db_state d
    | Panic => False
    end /\
    (fs_oracle (db_fs d) = [] -> (exists flag, r = Ok flag) /\ clean_step d d1).
Proof.
  intros Hok Hclosed Hlt Hw whole. destruct (so_last _ _ _ _ Hok) as [H0 _].
  pose proof (len_nonneg (group_records items)).
  unfold apply_write_group_to_memtable. rewrite bind_get_state, Hclosed. cbv zeta.
  rewrite wrap_small by lia. rewrite number_items by lia. cbn [app].
  set (items' := numbered _ items) in *.
  destruct (logs_group items' d c Hw) as (r1 & d1 & b & E1 & [Hl Hpre Hp Hr Hcl]).
  pose proof (logged_state _ _ _ _ Hl) as Hst.
  destruct r1 as [[]|e|]; [| |done].
  - destruct (apply_items_ok tables l0 levels items d1 false) as (flag & st' & E2 & A);
      [by rewrite Hst | rewrite Hst; lia |].
    rewrite Hst in E2, A. fold items' in E2.
    exists (Ok flag), (set_state st' d1), d1, b, st'. split; [by rewrite (bind_ok _ _ _ _ _ E1)|].
    split; [done|]. split; [done|]. split; [done|]. split; [by split; [apply (Hr tt)|]|].
    intros [_ ?]%Hcl. split; [by exists flag | done].
  - exists (Err e), d1, d1, b, (db_state d). split; [by rewrite (bind_err _ _ _ _ _ E1)|].
    split; [rewrite <- Hst; by destruct d1|]. split; [done|]. split; [done|]. split; [done|].
    by intros [? _]%Hcl.
Qed.

(** ** Properties *)

(** C21: a group of writes is logged first and applied afterwards,
    whatever the file system does: the log gets part of the records, in order,
    of the batches of the group that do not opt out of it; when anything fails nothing is applied, and when the call
    succeeds the records are all there and the state is the one from before
    with all batches applied in order, none of them visible at the old last
    sequence number and all of them at the new one. *)
Theorem group_logged_then_applied tables l0 levels items d c r d' :
  state_ok tables (db_state d) l0 levels -> st_closed (db_state d) = false ->
  st_last_sequence (db_state d) + 1 + len (group_records items) < 2 ^ 64 ->
  writes_at_end (ww_file (db_wal d)) (db_fs d) c ->
  apply_write_group_to_memtable items d = (r, d') ->
  let whole := group_log (wal_enabled (db_options d))
    (numbered (st_last_sequence (db_state d) + 1) items) in
  exists b, fs_files (db_fs d') = <[wal_path_of d := c ++ b]> (fs_files (db_fs d)) /\
    b `prefix_of` whole /\
    match r with
    | Ok _ => b = whole /\ applies tables l0 levels (group_records items) (db_state d) (db_state d')
    | Err _ => db_state d' = db_state d
    | Panic => False
    end.
Proof.
  intros Hok Hclosed Hlt Hw E whole.
  destruct (group_outcome tables l0 levels items d c Hok Hclosed Hlt Hw)
    as (r1 & d2 & d1 & b & st' & E1 & -> & (w & fs & m & -> & _ & _ & Hf) & Hpre & Hr & _).
  rewrite E in E1. injection E1 as -> ->. by exists b.
Qed.
End group.

(** ** A group of two writes on the example database *)

Section group_examples.
#[local] Existing Instance toy_externals.
#[local] Existing Instance toy_hash_order.
#[local] Existing Instance toy_skip_map.

Definition example_items : list GroupWriteItem :=
  [group_item (mkWriteBatch [BPut [1] [55]; BDelete [2]], mkWriteOptions false false);
   group_item (mkWriteBatch [BPut [7] [77]], mkWriteOptions true true)].

(** The sync fails after the record of the first batch was written. *)
Definition example_failing_db : Db toy_skip_map :=
  set_wal (db_wal example_db)
    (mkFs (fs_files example_fs) ∅ [IoDone; IoDone; IoDone; IoFail 3]) example_db.

Lemma group_logged_then_applied_witness :
  (exists d', apply_write_group_to_memtable example_items example_db = (Ok false, d') /\
    applies example_tables [example_table] (replicate 7 []) (group_records example_items)
      example_state (db_state d')) /\
  (exists e d' b, apply_write_group_to_memtable example_items example_failing_db = (Err e, d') /\
    b <> [] /\ fs_files (db_fs d') !! "db/000001.wal"%string = Some b /\ db_state d' = example_state).
Proof.
  assert (forall oracle, writes_at_end (ww_file (db_wal example_db))
    (mkFs (fs_files example_fs) ∅ oracle) []) as Hw by (intros oracle; split; [by vm_compute | by left]).
  split.
  - destruct (apply_write_group_to_memtable example_items example_db) as [r d'] eqn:E.
    assert (r = Ok false) as ->.
    { assert ((apply_write_group_to_memtable example_items example_db).1 = Ok false) as Ev
        by by vm_compute. by rewrite E in Ev. }
    exists d'. split; [done|].
    destruct (group_logged_then_applied example_tables [example_table] (replicate 7 []) example_items
      example_db [] _ d' example_state_ok eq_refl ltac:(by vm_compute) (Hw []) E)
      as (b & _ & _ & _ & A).
    exact A.
  - destruct (apply_write_group_to_memtable example_items example_failing_db) as [r d'] eqn:E.
    assert (r = Err (Io OtherIo)) as ->.
    { assert ((apply_write_group_to_memtable example_items example_failing_db).1 = Err (Io OtherIo))
        as Ev by by vm_compute. by rewrite E in Ev. }
    destruct (group_logged_then_applied example_tables [example_table] (replicate 7 []) example_items
      example_failing_db [] _ d' example_state_ok eq_refl ltac:(by vm_compute) (Hw _) E)
      as (b & Hf & _ & Hs).
    exists (Io OtherIo), d', b. split; [done|].
    assert (fs_files (db_fs d') !! "db/000001.wal"%string = Some b) as Hb
      by (rewrite Hf; apply lookup_insert_eq).
    split; [|split; [exact Hb | exact Hs]]. intros ->.
    assert ((len <$> fs_files (db_fs
      (apply_write_group_to_memtable example_items example_failing_db).2) !! "db/000001.wal"%string)
      = Some 12) as Ev by by vm_compute.
    rewrite E in Ev. cbn [snd] in Ev. by rewrite Hb in Ev.
Defined.
End group_examples.
