(* ===== verification/DbWriteOk.v ===== *)
(** * Writes keep the database in order

    [write] on an open database whose file system does not fail: the batch is
    in the log and in the memtable, the layout of the files is kept, and a
    memtable that became full is flushed. *)

From Stdlib Require Import Sorting.Sorted.
From stdpp Require Import base list gmap strings sorting.
From S2P Require Import Prelude Key Spec Memtable Coding Batch Env Externals Wal Block Cache.
From S2P Require Import Format Properties Table Reader TableCache Version Options Metrics.
From S2P Require Import Compact Mvcc DbState DbRead DbMem DbFlush DbInv DbFlushOk DbCompact.
From S2P Require Import DbWrite DbSettled DbCompactOk DbCompactRun DbGroup.

Section write_ok.
Context `{X : Externals} `{HX : !ExternalsOk X} `{H : HashOrder} `{N : NumberHashOrder}
  `{SM : arena_skip_map} `{!SkipMapOk SM} `{O : OsMessages}.

(** ** A group of writes *)

(** [d'] is [d] with a longer log and other memtables and counters. *)
Record wrote (c : bytes) (d d' : Db SM) : Prop := mkWrote {
  wr_path : db_path d' = db_path d;
  wr_options : db_options d' = db_options d;
  wr_versions : db_versions d' = db_versions d;
  wr_snapshots : db_snapshots d' = db_snapshots d;
  wr_limiter : db_write_rate_limiter d' = db_write_rate_limiter d;
  wr_now : db_now d' = db_now d;
  wr_wal_path : wal_path_of d' = wal_path_of d;
  wr_wal : writes_at_end (ww_file (db_wal d')) (db_fs d') c;
  wr_files : same_files_but [wal_path_of d] (db_fs d) (db_fs d')
}.

Lemma records_storable_elem rs tables l0 levels (st st' : DBState SM) :
  applies tables l0 levels rs st st' -> Forall record_storable rs ->
  Forall entry_storable (contents st l0 levels) ->
  Forall entry_storable (contents st' l0 levels).
Proof.
  intros A Hr Hs. apply Forall_forall. intros e He.
  apply (ap_elem _ _ _ _ _ _ A) in He as [He | (r & s & Hin & Hu & ->)].
  - rewrite Forall_forall in Hs. by apply Hs.
  - rewrite Forall_forall in Hr. by apply record_entry_storable, Hr.
Qed.

Lemma wal_untouched_table (d : Db SM) k j : table_path d k ∉ [wal_path d j].
Proof. intros E%list_elem_of_singleton. revert E. apply table_wal_ne. Qed.

Lemma wrote_inv tables l0 levels (d d' : Db SM) c rs st' :
  db_inv tables l0 levels d -> wrote c d d' -> db_state d' = st' ->
  db_block_cache d' = db_block_cache d -> db_table_cache d' = db_table_cache d ->
  applies tables l0 levels rs (db_state d) st' -> Forall record_storable rs ->
  let tables' := mkTables (db_fs d') (tb_blocks tables) in
  db_inv tables' l0 levels d' /\ applies tables' l0 levels rs (db_state d) (db_state d').
Proof.
  intros [[Hok Hrw Hopen] Hly] [Ep Eo Ev Es Elim Enow Ewp Hwe Hf] Est Ebc Etc A Hstor tables'.
  pose proof (ly_wal _ _ _ _ Hly) as Hwal. unfold wal_path_of in *. rewrite Hwal in *.
  set (lg := vs_log_number (db_versions d)) in *.
  assert (forall k, fs_files (db_fs d') !! table_path d k = fs_files (db_fs d) !! table_path d k) as Hfiles
    by (intros k; apply (same_files_at _ _ _ _ Hf), wal_untouched_table).
  assert (st_l0_tables st' = st_l0_tables (db_state d)) as Et0 by apply A.
  assert (st_level_tables st' = st_level_tables (db_state d)) as Etl by apply A.
  assert (all_tables (db_state d') = all_tables (db_state d)) as Eall
    by (unfold all_tables; by rewrite Est, Et0, Etl).
  assert (state_ok tables' st' l0 levels) as Hok'.
  { eapply state_ok_frame; [apply A|]. rewrite <- Est, Eall.
    eapply Forall_impl; [apply (ly_paths _ _ _ _ Hly)|]. intros t [-> _]. split; [|done].
    destruct Hrw as [[_ <-] _]. apply Hfiles. }
  assert (rw_inv tables' (db_rw d')) as Hrw'.
  { destruct Hrw as [[Ho _] Hc]. split; [split; [|done]|].
    - cbn. destruct Hf as [-> _]. exact Ho.
    - cbn. rewrite Ebc. exact Hc. }
  split; [|rewrite Est; by destruct A]. split; [constructor|constructor];
    unfold table_path, wal_path; rewrite ?Ep, ?Eo, ?Ev, ?Etc, ?Eall, ?Est, ?Et0, ?Etl; try by apply Hly.
  - exact Hok'.
  - exact Hrw'.
  - rewrite (ap_closed _ _ _ _ _ _ A). exact Hopen.
  - intros k Hk Hu. destruct (ly_free _ _ _ _ Hly k Hk Hu) as [H1 H2].
    change (path_join (db_path d) (table_file_name k)) with (table_path d k).
    change (path_join (db_path d) (wal_file_name k)) with (wal_path d k).
    split.
    + rewrite (env_exists_frame _ _ _ _ Hf); [done|]. apply wal_untouched_table.
    + rewrite (same_files_at _ _ _ _ Hf); [done|].
      intros E%list_elem_of_singleton%path_join_inj%wal_file_name_inj; [|done|].
      * subst k. pose proof (ly_log_number _ _ _ _ Hly). lia.
      * pose proof (ly_log_number _ _ _ _ Hly). unfold u64_ok in *. lia.
  - destruct Hf as (_ & -> & _). apply Hly.
  - exact Ewp.
  - by exists c.
  - destruct (ly_manifest _ _ _ _ Hly) as (n & edits & Hm & Hl). exists n, edits. split; [|exact Hl].
    assert (u64_ok n) as Hn by apply Hm.
    eapply manifest_inv_frame; [exact Hm | done | done | |]; apply (same_files_at _ _ _ _ Hf);
      intros E%list_elem_of_singleton; revert E; apply not_eq_sym;
      [apply wal_current_ne | by apply wal_manifest_ne].
  - apply (ap_immutables _ _ _ _ _ _ A), Hly.
  - eapply records_storable_elem; [exact A | done | apply Hly].
Qed.

(** [d'] is [d] with other counters, another limiter and a later clock. *)
Definition waited (d d' : Db SM) : Prop :=
  exists m l now, d' = mkDb (db_path d) (db_options d) (db_state d) (db_versions d) (db_block_cache d)
    (db_table_cache d) (db_snapshots d) m l (db_wal d) (db_fs d) now.

Lemma waited_refl d : waited d d.
Proof. exists (db_metrics d), (db_write_rate_limiter d), (db_now d). by destruct d. Qed.

Lemma waited_trans d1 d2 d3 : waited d1 d2 -> waited d2 d3 -> waited d1 d3.
Proof. intros (m & l & now & ->) (m' & l' & now' & ->). by exists m', l', now'. Qed.

Lemma waited_inv tables l0 levels d d' :
  db_inv tables l0 levels d -> waited d d' -> db_inv tables l0 levels d'.
Proof. intros [[] []] (m & l & now & ->). constructor; constructor; done. Qed.

Lemma sleep_waited n d : exists d', sleep n d = (Ok tt, d') /\ waited d d'.
Proof. eexists. split; [done|]. by exists (db_metrics d), (db_write_rate_limiter d), (db_now d + n). Qed.

(** No wait for [n] bytes is longer than a [Duration] can be. *)
Definition limiter_waits (l : option RateLimiter) (n : u64) : Prop :=
  match l with
  | None => True
  | Some l => forall now, (reserve n now l).1 <> Panic
  end.

Lemma reserve_no_err n now l e : (reserve n now l).1 <> Err e.
Proof.
  unfold reserve. destruct (_ <=? _); [done|].
  destruct (from_secs_f64 _) eqn:E; [done | | done].
  unfold from_secs_f64 in E. destruct (f64_div _ _) as [?|?| |[] m ex]; try discriminate E.
  destruct (2 ^ 64 * nanos_per_sec <=? _); discriminate E.
Qed.

Lemma rate_limit_waited n d :
  limiter_waits (db_write_rate_limiter d) n ->
  exists d', apply_write_rate_limit n d = (Ok tt, d') /\ waited d d'.
Proof.
  intros Hl. unfold apply_write_rate_limit. rewrite bind_get_state.
  destruct (db_write_rate_limiter d) as [l|]; [|exists d; split; [done | apply waited_refl]].
  cbn in Hl. specialize (Hl (db_now d)). pose proof (reserve_no_err n (db_now d) l) as Hne.
  destruct (reserve n (db_now d) l) as [[w|e|] l']; [|by destruct (Hne e)|done].
  rewrite bind_modify. cbn [lift]. unfold lift, mbind at 1, M_bind at 1.
  set (d1 := set_rate_limiter l' d).
  assert (waited d d1) as H1 by (by exists (db_metrics d), (Some l'), (db_now d)).
  destruct (w =? 0); [by exists d1|].
  destruct (sleep_waited w d1) as (d2 & E & H2). exists d2. split; [done|]. exact (waited_trans _ _ _ H1 H2).
Qed.

(** A group without failures. *)
Lemma group_ok tables l0 levels (d : Db SM) items c :
  db_inv tables l0 levels d ->
  st_last_sequence (db_state d) + 1 + len (group_records items) < 2 ^ 64 ->
  Forall record_storable (group_records items) ->
  writes_at_end (ww_file (db_wal d)) (db_fs d) c ->
  exists flag d' tables', apply_write_group_to_memtable items d = (Ok flag, d') /\
    wrote (c ++ group_log (wal_enabled (db_options d))
      (numbered (st_last_sequence (db_state d) + 1) items)) d d' /\
    db_inv tables' l0 levels d' /\
    applies tables' l0 levels (group_records items) (db_state d) (db_state d').
Proof.
  intros Hinv Hlt Hs Hw. pose proof Hinv as [[Hok [[Ho _] _] Hopen] _]. cbn in Ho.
  destruct (group_outcome tables l0 levels items d c Hok Hopen Hlt Hw)
    as (r & d' & d1 & b & st' & E & Ed & (w & fs & m & E1 & Hp & Hwe & Hf) & _ & Hr & Hcl).
  destruct (Hcl Ho) as [[flag ->] [Ho1 Hd1]]. destruct Hr as [-> A].
  rewrite E1 in Ed, Ho1, Hd1. cbn in Ho1, Hd1. exists flag, d'.
  set (c' := c ++ _) in *.
  assert (wrote c' d d') as Hwr.
  { rewrite Ed. constructor; try done. split; [cbn; congruence|]. split; [done|].
    intros p Hp'. cbn. rewrite Hf. apply lookup_insert_ne. intros <-. apply Hp'. by left. }
  destruct (wrote_inv tables l0 levels d d' c' (group_records items) st' Hinv Hwr) as [H1 H2];
    [by rewrite Ed.. | exact A | exact Hs |].
  eexists. split; [exact E|]. split; [exact Hwr|]. by split.
Qed.

(** A group of one: the memtable it leaves. *)
Lemma group_one_state batch opts bytes (d d' : Db SM) flag :
  0 <= st_last_sequence (db_state d) < 2 ^ 64 - 1 -> st_closed (db_state d) = false ->
  (exists c, writes_at_end (ww_file (db_wal d)) (db_fs d) c) ->
  apply_write_group_to_memtable [mkGroupWriteItem batch opts bytes 0] d = (Ok flag, d') ->
  (flag, db_state d')
  = freeze_mutable_if_needed (memtable_size (db_options d)) (memtable_kind (db_options d))
      (apply_batch (st_last_sequence (db_state d) + 1) batch (db_state d)).
Proof.
  intros Hl Hopen [c Hw] E. unfold apply_write_group_to_memtable in E.
  rewrite bind_get_state, Hopen in E. cbv zeta in E. rewrite wrap_small in E by lia.
  destruct (logs_group (foldl number_item (st_last_sequence (db_state d) + 1, [])
    [mkGroupWriteItem batch opts bytes 0]).2 d c Hw) as (r & d1 & b & E1 & Hlog).
  destruct (lo_logged _ _ _ _ _ _ _ Hlog) as (w & fs & m & Ed1 & _).
  apply bind_inv in E as (u & d2 & E2 & E). rewrite E1 in E2. injection E2 as _ <-.
  cbn [foldl number_item snd app for_each] in E. rewrite bind_assoc in E.
  unfold apply_and_freeze in E. cbn [gi_start_sequence gi_batch] in E.
  apply bind_inv in E as (fz & d3 & E3 & E4).
  replace (db_state d1) with (db_state d) in E3 by by rewrite Ed1.
  replace (db_options d1) with (db_options d) in E3 by by rewrite Ed1.
  destruct (freeze_mutable_if_needed _ _ _) as [f st3]. injection E3 as <- <-.
  rewrite bind_ret in E4. by injection E4 as <- <-.
Qed.

(** What a group of one needs to succeed: a batch the formats can hold, numbers
    below their widths, and a table for the memtable if the write fills it. *)
Record write_room (batch : WriteBatch) (d : Db SM) : Prop := mkWriteRoom {
  wr_batch : Forall record_storable (records batch);
  wr_sequence : st_last_sequence (db_state d) + 1 + len (records batch) < 2 ^ 64;
  wr_number : vs_next_file_number (db_versions d) < 2 ^ 62;
  wr_table : table_bounded (db_options d)
    (mt_entries (st_mutable (apply_batch (st_last_sequence (db_state d) + 1) batch (db_state d))))
}.

(** A write also needs a limiter whose wait is a [Duration] and, when level 0
    has so many tables that the writer compacts, a compaction that fits. *)
Record write_guard (batch : WriteBatch) (d : Db SM) : Prop := mkWriteGuard {
  wg_room : write_room batch d;
  wg_limiter : limiter_waits (db_write_rate_limiter d) (batch_user_write_bytes batch);
  wg_pressure : level0_stop_writes_trigger (db_options d) <= len (st_l0_tables (db_state d)) ->
    range_fits Unbounded Unbounded d
}.

Lemma durable_wrote tables l0 levels batches (d d' : Db SM) batch :
  durable l0 levels batches d -> batch_loggable batch -> Forall record_storable (records batch) ->
  wrote (log_bytes (log_payloads (vs_last_sequence (db_versions d) + 1) batches)
    ++ wal_record (encode_with_sequence batch (st_last_sequence (db_state d) + 1))) d d' ->
  applies tables l0 levels (records batch) (db_state d) (db_state d') ->
  durable l0 levels (batches ++ [batch]) d'.
Proof.
  intros [Hb Hst Hw Hl Hm Ht Hlive Hmem] Hlog Hrs Hwr A. pose proof (ap_last _ _ _ _ _ _ A) as Hl'.
  pose proof (len_nonneg (records batch)).
  constructor; rewrite ?(wr_versions _ _ _ Hwr); try done.
  - apply Forall_app. split; [done|]. by constructor.
  - rewrite all_records_snoc. by apply Forall_app.
  - rewrite log_payloads_snoc, log_bytes_snoc.
    replace (vs_last_sequence (db_versions d) + 1 + len (all_records batches))
      with (st_last_sequence (db_state d) + 1) by lia. apply Hwr.
  - rewrite all_records_snoc, len_app. lia.
  - intros key s Hs. rewrite (ap_new _ _ _ _ _ _ A) by done.
    rewrite all_records_snoc, view_after_app. apply view_after_ext. apply Hlive. lia.
  - intros e. rewrite (ap_mem _ _ _ _ _ _ A), Hmem, all_records_snoc, written_entries_app, elem_of_app.
    by replace (vs_last_sequence (db_versions d) + 1 + len (all_records batches))
      with (st_last_sequence (db_state d) + 1) by lia.
Qed.

(** ** A write *)

Lemma waited_written l0 levels (d d' : Db SM) : waited d d' -> written l0 l0 levels levels [] d d'.
Proof. intros (m & l & now & ->). by apply written_same. Qed.

Lemma waited_settled tables l0 levels batches (d d' : Db SM) :
  settled tables l0 levels batches d -> waited d d' -> settled tables l0 levels batches d'.
Proof.
  intros [Hinv Himm Hdur Hold] Hw. constructor; [by eapply waited_inv | | |];
    destruct Hw as (m & l & now & ->); [done| |done]. destruct Hdur. by constructor.
Qed.

(** The group of one batch and the flush it may cause. *)
Lemma write_one_ok tables l0 levels batches (d : Db SM) batch opts bytes :
  settled tables l0 levels batches d -> write_room batch d -> batch_loggable batch ->
  wal_enabled (db_options d) = true -> wo_disable_wal opts = false ->
  let work := (should_flush ← apply_write_group_to_memtable [mkGroupWriteItem batch opts bytes 0];
    if (should_flush : bool) then flush else mret tt) in
  exists d' tables' l0' batches', work d = (Ok tt, d') /\
    settled tables' l0' levels batches' d' /\ written l0 l0' levels levels (records batch) d d'.
Proof.
  intros [Hinv Himm Hdur Hold] [Hb Hseq Hnum Htab] Hlog Hwal Hdis work.
  pose proof Hinv as [[Hok _ Hopen] Hly]. destruct (so_last _ _ _ _ Hok) as [Hl0 _].
  pose proof (len_nonneg (records batch)).
  set (item := mkGroupWriteItem batch opts bytes 0) in *.
  assert (group_records [item] = records batch) as Egr by apply app_nil_r.
  destruct (group_ok tables l0 levels d [item] _ Hinv ltac:(by rewrite Egr) ltac:(by rewrite Egr)
    (du_wal _ _ _ _ Hdur)) as (flag & d1 & tables1 & E & Hwr & Hinv1 & A).
  rewrite Egr in A. rewrite Hwal in Hwr. cbn [numbered group_log map concat] in Hwr.
  unfold item_log in Hwr. cbn [gi_opts item] in Hwr. rewrite Hdis in Hwr.
  cbn [gi_batch gi_start_sequence] in Hwr. rewrite app_nil_r in Hwr.
  pose proof (durable_wrote _ _ _ _ _ _ _ Hdur Hlog Hb Hwr A) as Hdur1.
  assert (written l0 l0 levels levels (records batch) d d1) as Hw1
    by (constructor; [apply Hwr.. | apply A | intros key s _; apply A | apply A | intros key s _; apply A]).
  assert (snapshots_old d1) as Hold1.
  { intros o Ho. rewrite (wr_snapshots _ _ _ Hwr) in Ho. rewrite (ap_last _ _ _ _ _ _ A). apply Hold in Ho. lia. }
  pose proof (group_one_state batch opts bytes d d1 flag ltac:(lia) Hopen (ly_wal_end _ _ _ _ Hly) E)
    as Est.
  set (st1 := apply_batch _ batch (db_state d)) in *.
  pose proof (apply_batch_tables (st_last_sequence (db_state d) + 1) (records batch) (db_state d))
    as (_ & _ & Ei). fold (apply_batch (st_last_sequence (db_state d) + 1) batch (db_state d)) in Ei.
  change (st_immutables st1 = st_immutables (db_state d)) in Ei. rewrite Himm in Ei.
  unfold work. rewrite (bind_ok _ _ _ _ _ E).
  unfold freeze_mutable_if_needed in Est. rewrite mt_is_empty_entries in Est.
  destruct (mt_entries (st_mutable st1)) as [|e0 es0] eqn:Emut; cbn [orb] in Est;
    [|destruct (mt_approximate_size (st_mutable st1) <? memtable_size (db_options d))];
    injection Est as -> Est.
  - exists d1, tables1, l0, (batches ++ [batch]). split; [done|]. split; [|done].
    constructor; [done | by rewrite Est | done | done].
  - exists d1, tables1, l0, (batches ++ [batch]). split; [done|]. split; [|done].
    constructor; [done | by rewrite Est | done | done].
  - destruct (flush_settles tables1 l0 levels d1 (st_mutable st1) ImmutableOldest
      (with_memtables (st_mutable (db_state d1)) [] (db_state d1)) Hinv1)
      as (d2 & tables2 & l02 & E2 & Hs2 & Hw2).
    + unfold take_oldest_flushable_memtable. rewrite Est. cbn [with_memtables st_immutables].
      by rewrite Ei.
    + rewrite Est. unfold mem_runs. cbn. by rewrite mt_new_entries.
    + rewrite (wr_versions _ _ _ Hwr), (ap_last _ _ _ _ _ _ A), (du_last _ _ _ _ Hdur).
      pose proof (len_nonneg (all_records batches)). lia.
    + exact Hold1.
    + by rewrite (wr_versions _ _ _ Hwr).
    + rewrite (wr_options _ _ _ Hwr), Emut. exact Htab.
    + exists d2, tables2, l02, []. split; [done|]. split; [done|].
      rewrite <- (app_nil_r (records batch)). by eapply written_trans.
Qed.

Lemma sum_below {A} (f : A -> Z) acc (l : list A) :
  u64_ok acc -> u64_ok (foldl (fun sum x => wrap64 (sum + f x)) acc l).
Proof.
  revert acc. induction l as [|x l IH]; intros acc Ha; [done|]. apply IH.
  unfold u64_ok, wrap. apply Z.mod_pos_bound. lia.
Qed.

Lemma group_of_one_bytes batch opts :
  foldl (fun n item => wrap64 (n + gi_user_write_bytes item)) 0 (map group_item [(batch, opts)])
  = batch_user_write_bytes batch.
Proof.
  cbn [map foldl group_item gi_user_write_bytes fst snd]. rewrite Z.add_0_l. apply wrap_small.
  by apply sum_below.
Qed.

Lemma metrics_waited f (d : Db SM) : exists d', on_metrics f d = (Ok tt, d') /\ waited d d'.
Proof.
  eexists. split; [reflexivity|]. eexists _, (db_write_rate_limiter d), (db_now d). reflexivity.
Qed.

Lemma waited_room batch (d d' : Db SM) : waited d d' -> write_room batch d -> write_room batch d'.
Proof. intros (m & l & now & ->) []. by constructor. Qed.

(** Waiting changes nothing that a compaction reads. *)
Lemma waited_fits tables l0 levels batches (d d' : Db SM) :
  settled tables l0 levels batches d -> waited d d' ->
  range_fits Unbounded Unbounded d -> range_fits Unbounded Unbounded d'.
Proof.
  intros Hs W Hr t Ht. pose proof (waited_settled _ _ _ _ _ _ Hs W) as [Hinv _ _ _].
  destruct W as (m & l & now & ->). by apply (task_fits_same _ _ _ _ _ _ Hs (Hr t Ht)).
Qed.

Lemma sleep_guard tables l0 levels batches n batch (d : Db SM) :
  settled tables l0 levels batches d -> write_guard batch d ->
  exists d', sleep n d = (Ok tt, d') /\ waited d d' /\ write_guard batch d'.
Proof.
  intros Hs [Hr ? Hp]. destruct (sleep_waited n d) as (d' & E & W).
  exists d'. split; [exact E|]. split; [exact W|].
  constructor; [by eapply waited_room | by injection E as <- |].
  intros Ht. eapply waited_fits; [exact Hs | exact W |]. apply Hp. by injection E as <-.
Qed.

(** The pressure of level 0: a compaction, a pause or nothing. *)
Lemma pressure_ok tables l0 levels batches (d : Db SM) :
  settled tables l0 levels batches d ->
  (level0_stop_writes_trigger (db_options d) <= len (st_l0_tables (db_state d)) ->
   range_fits Unbounded Unbounded d) ->
  exists d' tables' l0' levels', apply_write_pressure d = (Ok tt, d') /\
    settled tables' l0' levels' batches d' /\ written l0 l0' levels levels' [] d d' /\ keeps_room d d'.
Proof.
  intros Hs Hp. unfold apply_write_pressure. setoid_rewrite bind_get_state. cbv zeta.
  assert (forall d', waited d d' -> settled tables l0 levels batches d' /\
    written l0 l0 levels levels [] d d' /\ keeps_room d d') as Hwait.
  { intros d' W. split; [by eapply waited_settled|]. split; [by apply waited_written|].
    by destruct W as (m & l & now & ->). }
  destruct (Z.leb_spec (level0_stop_writes_trigger (db_options d)) (len (st_l0_tables (db_state d)))) as [Hl|_].
  - by apply (compact_range_settles tables l0 levels batches), Hp.
  - destruct (_ <=? _).
    + destruct (sleep_waited (5 * 10 ^ 6) d) as (d' & E & W). exists d', tables, l0, levels. by split; [|apply Hwait].
    + exists d, tables, l0, levels. split; [done|]. apply Hwait, waited_refl.
Qed.

Lemma apply_batch_mutable seq batch (st st' : DBState SM) :
  st_mutable st = st_mutable st' ->
  st_mutable (apply_batch seq batch st) = st_mutable (apply_batch seq batch st').
Proof.
  unfold apply_batch. revert seq st st'. induction (records batch) as [|r rs IH]; intros seq st st' E; [exact E|].
  cbn [foldl]. rewrite !apply_batch_record_op. apply IH. cbn. by rewrite E.
Qed.

Lemma keeps_write_room l0 l0' levels levels' batch (d d' : Db SM) :
  written l0 l0' levels levels' [] d d' -> keeps_room d d' -> write_room batch d -> write_room batch d'.
Proof.
  intros Hw [Hm Hn] [Hb Hs Hnum Ht]. pose proof (wn_last _ _ _ _ _ _ _ Hw) as El.
  change (len []) with 0 in El. rewrite Z.add_0_r in El.
  constructor; rewrite ?El, ?(wn_options _ _ _ _ _ _ _ Hw); [done | done | by apply Hn |].
  by rewrite (apply_batch_mutable _ _ _ (db_state d)).
Qed.

(** What precedes the group: counters, the rate limiter and the pressure of
    level 0. *)
Lemma admission_ok {A} tables l0 levels batches batch (d : Db SM) (work : M (Db SM) A) :
  settled tables l0 levels batches d -> write_guard batch d ->
  exists d' tables' l0' levels',
    (_ ← on_metrics (record_user_write (batch_user_write_bytes batch));
     _ ← apply_write_rate_limit (batch_user_write_bytes batch);
     _ ← apply_write_pressure; work) d = work d' /\
    settled tables' l0' levels' batches d' /\ written l0 l0' levels levels' [] d d' /\ write_room batch d'.
Proof.
  intros Hs Hg. set (n := batch_user_write_bytes batch).
  set (d1 := set_metrics (record_user_write n (db_metrics d)) d).
  assert (waited d d1) as W1 by (by eexists _, (db_write_rate_limiter d), (db_now d)).
  destruct (rate_limit_waited n d1 (wg_limiter _ _ Hg)) as (d2 & E2 & W2).
  pose proof (waited_trans _ _ _ W1 W2) as W12. pose proof (waited_settled _ _ _ _ _ _ Hs W12) as Hs2.
  destruct (pressure_ok tables l0 levels batches d2 Hs2) as (d3 & tables' & l0' & levels' & E3 & Hs3 & Hw3 & Hk3).
  { intros Hl. eapply waited_fits; [exact Hs | exact W12 |]. apply (wg_pressure _ _ Hg).
    by destruct W12 as (m & l & now & ->). }
  exists d3, tables', l0', levels'. split; [|split; [exact Hs3|split]].
  - erewrite bind_ok by exact (eq_refl (Ok tt, d1)).
    by rewrite (bind_ok _ _ _ _ _ E2), (bind_ok _ _ _ _ _ E3).
  - eapply (written_trans _ _ _ _ _ _ [] []); [by apply waited_written | exact Hw3].
  - eapply keeps_write_room; [exact Hw3 | exact Hk3 |]. eapply waited_room; [exact W12 | apply Hg].
Qed.

(** [write] of a batch that is not empty, by a leader whose group has no other
    member. *)
Lemma db_write_ok tables l0 levels batches (d : Db SM) batch opts :
  settled tables l0 levels batches d -> write_guard batch d -> batch_loggable batch ->
  wal_enabled (db_options d) = true -> wo_disable_wal opts = false ->
  batch_is_empty batch = false ->
  exists d' tables' l0' levels' batches', db_write batch opts d = (Ok tt, d') /\
    settled tables' l0' levels' batches' d' /\ written l0 l0' levels levels' (records batch) d d'.
Proof.
  intros Hs Hg Hlog Hwal Hdis Hne. unfold db_write. rewrite Hne, bind_get_state.
  set (pause := if _ || _ then _ else _ : M (Db SM) unit).
  assert (exists d0, pause d = (Ok tt, d0) /\ waited d d0 /\ write_guard batch d0)
    as (d0 & E0 & W0 & G0).
  { unfold pause. destruct (_ || _); [by eapply sleep_guard|].
    exists d. split; [done|]. split; [apply waited_refl | done]. }
  rewrite (bind_ok _ _ _ _ _ E0). unfold apply_write_group. cbv zeta. rewrite group_of_one_bytes.
  pose proof (waited_settled _ _ _ _ _ _ Hs W0) as Hs0.
  destruct (admission_ok tables l0 levels batches batch d0
    (should_flush ← apply_write_group_to_memtable (map group_item [(batch, opts)]);
     if (should_flush : bool) then flush else mret tt) Hs0 G0) as (d1 & tables1 & l01 & levels1 & E1 & Hs1 & Hw1 & G1).
  pose proof (written_trans _ _ _ _ _ _ [] [] _ _ _ (waited_written l0 levels _ _ W0) Hw1) as W.
  assert (wal_enabled (db_options d1) = true) as Hwal1 by by rewrite (wn_options _ _ _ _ _ _ _ W).
  destruct (write_one_ok tables1 l01 levels1 batches d1 batch opts (batch_user_write_bytes batch)
    Hs1 G1 Hlog Hwal1 Hdis) as (d2 & tables2 & l02 & batches2 & E2 & Hs2 & Hw2).
  exists d2, tables2, l02, levels1, batches2.
  split; [|split; [done | by eapply (written_trans _ _ _ _ _ _ [])]].
  unfold mbind at 1, M_bind at 1. rewrite E1.
  change (map group_item [(batch, opts)])
    with [mkGroupWriteItem batch opts (batch_user_write_bytes batch) 0].
  by rewrite E2.
Qed.
End write_ok.
