(* ===== verification/DbCommitOk.v ===== *)
(** * Transactions on the database

    The database of [DbRead.v] and [DbWrite.v] keeps what [Mvcc.v] asks of the
    database of a transaction, and a commit on a database in order either
    writes the batch as a group of its own would, or finds a conflict and
    writes nothing. *)

From Stdlib Require Import Sorting.Sorted.
From stdpp Require Import base list gmap strings sorting.
From S2P Require Import Prelude Key Spec Memtable Coding Batch Env Externals Wal Block Cache.
From S2P Require Import Format Properties Table Reader TableCache Version Options Metrics.
From S2P Require Import Compact Mvcc DbState DbRead DbMem DbFlush DbInv DbFlushOk DbCompact.
From S2P Require Import DbWrite DbSettled DbCompactOk DbCompactRun DbGroup DbWriteOk.

(** ** Conflicts by key *)

(** Nothing in [changed] was read or is to be written. *)
Definition undisturbed (keys : list bytes) (ranges : list ReadRange) (changed : bytes -> Prop) : Prop :=
  forall key, changed key ->
    (key ∉ keys) /\ forall lower upper, (lower, upper) ∈ ranges -> within_bounds key lower upper = false.

Lemma no_conflict_undisturbed es seq keys ranges :
  no_conflict es seq keys ranges <-> undisturbed keys ranges (fun key => changed_since key seq es).
Proof.
  unfold no_conflict, undisturbed, changed_since. split.
  - intros Hn key (e & He & <- & Hs). by apply Hn.
  - intros Hu e He Hs. apply Hu. by exists e.
Qed.

Lemma undisturbed_iff keys keys' ranges changed changed' :
  (forall key, key ∈ keys <-> key ∈ keys') -> (forall key, changed key <-> changed' key) ->
  undisturbed keys ranges changed <-> undisturbed keys' ranges changed'.
Proof.
  unfold undisturbed. intros Hk Hc. setoid_rewrite Hk. by setoid_rewrite Hc.
Qed.

Lemma write_keys_elem batch key : key ∈ (batch_write_keys batch).*1 <-> key ∈ map record_key (records batch).
Proof.
  unfold batch_write_keys. assert (forall rs acc, StronglySorted (key_lt bytes_cmp) acc ->
    key ∈ (foldl (fun keys record => match record with
      BPut k _ | BDelete k => bt_insert bytes_cmp k tt keys end) acc rs).*1
    <-> key ∈ acc.*1 \/ key ∈ map record_key rs) as Hf.
  { induction rs as [|r rs IH]; intros acc Hs; cbn [foldl map]; [rewrite elem_of_nil; tauto|].
    assert (match r with BPut k _ | BDelete k => bt_insert bytes_cmp k tt acc end
      = bt_insert bytes_cmp (record_key r) tt acc) as -> by by destruct r.
    rewrite IH, (bt_insert_keys bytes_cmp), elem_of_cons by (done || by apply bt_insert_sorted; [apply _|]).
    tauto. }
  rewrite Hf by constructor. cbn. rewrite elem_of_nil. tauto.
Qed.

Section commit_ok.
Context `{X : Externals} `{HX : !ExternalsOk X} `{H : HashOrder} `{N : NumberHashOrder}
  `{SM : arena_skip_map} `{!SkipMapOk SM} `{O : OsMessages}.

(** ** The database of a transaction *)

Lemma settled_ok tables l0 levels batches (d : Db SM) :
  settled tables l0 levels batches d -> db_ok tables l0 levels d.
Proof. intros [[Hok _] _ _ _]. exact Hok. Qed.

(** A call that only read. *)
Lemma settled_reads tables l0 levels batches (d d' : Db SM) :
  settled tables l0 levels batches d -> only_reads tables d d' -> settled tables l0 levels batches d'.
Proof.
  intros [[Hok Hly] Himm Hdur Hold] Hr. pose proof (only_reads_ok _ _ _ _ _ Hok Hr) as Hok'.
  destruct Hr as (c & m & -> & _). constructor; [|done| |done].
  - split; [exact Hok'|]. destruct Hly. by constructor.
  - destruct Hdur. by constructor.
Qed.

(** Other live snapshots, none of them new. *)
Lemma settled_snapshots tables l0 levels batches w (d : Db SM) :
  settled tables l0 levels batches d -> snapshots_old (set_snapshots w d) ->
  settled tables l0 levels batches (set_snapshots w d).
Proof.
  intros [[[] []] Himm [] _] Hold.
  constructor; [constructor; [by constructor | by constructor] | exact Himm | by constructor | exact Hold].
Qed.

(** [d] is [d0] after reads, but for the live snapshots: a transaction clones
    its own and drops the clone. *)
Definition read_from (tables : Tables) (d0 d : Db SM) : Prop :=
  only_reads tables d0 (set_snapshots (db_snapshots d0) d).

Lemma read_from_start tables l0 levels (d : Db SM) : db_ok tables l0 levels d -> read_from tables d d.
Proof.
  intros [_ Hrw _]. unfold read_from. replace (set_snapshots (db_snapshots d) d) with d by by destruct d.
  by apply only_reads_refl.
Qed.

Lemma read_from_same tables (d0 d : Db SM) :
  read_from tables d0 d -> db_snapshots d = db_snapshots d0 -> only_reads tables d0 d.
Proof.
  unfold read_from. intros Hr E. rewrite <- E in Hr. by replace (set_snapshots (db_snapshots d) d) with d in Hr by by destruct d.
Qed.

Lemma read_from_reads tables (d0 d d' : Db SM) :
  read_from tables d0 d -> only_reads tables d d' -> read_from tables d0 d'.
Proof.
  intros Hs (c & m & -> & Hr). eapply only_reads_trans; [exact Hs|]. by exists c, m.
Qed.

Lemma read_from_ok tables l0 levels (d0 d : Db SM) :
  db_ok tables l0 levels d0 -> read_from tables d0 d -> db_ok tables l0 levels d.
Proof. intros Hok Hr. destruct (only_reads_ok _ _ _ _ _ Hok Hr) as [Hst Hrw Hop]. by constructor. Qed.

(** What [Mvcc.v] asks of its database holds of this one. *)
Lemma db_database_ok tables l0 levels (d0 : Db SM) :
  db_ok tables l0 levels d0 ->
  DatabaseOk (Db SM) (fun d => contents (db_state d) l0 levels) (read_from tables d0).
Proof.
  intros Hok0. constructor.
  - intros d key opts s Hs Es.
    destruct (get_opt_live tables l0 levels d key opts (read_from_ok _ _ _ _ _ Hok0 Hs)) as (d' & E & Hr).
    exists d'. split; [cbn [db_get_opt db_database]; rewrite E; unfold read_seq_of; by rewrite Es|].
    split; [by eapply read_from_reads|]. by destruct Hr as (c & m & -> & _).
  - intros d lower upper opts s Hs Es.
    destruct (scan_opt_rows tables l0 levels d lower upper opts (read_from_ok _ _ _ _ _ Hok0 Hs))
      as (rows & d' & E & Hr & Hrows).
    exists rows, d'. split; [exact E|]. unfold read_seq_of in Hrows. rewrite Es in Hrows. split; [exact Hrows|].
    split; [by eapply read_from_reads|]. by destruct Hr as (c & m & -> & _).
  - intros d w' Hs. by destruct d.
Qed.

(** ** A commit *)

(** The log and the memtable of a commit are those of a group of one. *)
Lemma commit_tail batch (d : Db SM) :
  st_closed (db_state d) = false ->
  (_ ← (if wal_enabled (db_options d) then
          let payload := encode_with_sequence batch (wrap64 (st_last_sequence (db_state d) + 1)) in
          _ ← on_metrics (record_wal_write (wal_record_bytes payload));
          _ ← on_wal (wal_append payload);
          if bool_decide (wal_sync_mode (db_options d) = PerWrite) then sync_log else mret tt
        else mret tt);
   should_flush ← apply_and_freeze (wrap64 (st_last_sequence (db_state d) + 1)) batch;
   if (should_flush : bool) then flush else mret tt) d
  = (should_flush ← apply_write_group_to_memtable [mkGroupWriteItem batch default_write_options 0 0];
     if (should_flush : bool) then flush else mret tt) d.
Proof.
  intros Hop. unfold apply_write_group_to_memtable. rewrite bind_assoc, bind_get_state, Hop. cbv zeta.
  cbn [foldl number_item snd app]. rewrite bind_assoc. unfold log_items. rewrite !bind_assoc, bind_get_state.
  destruct (wal_enabled (db_options d)).
  2: { rewrite !bind_ret. cbn [for_each]. rewrite !bind_assoc. unfold mbind, M_bind.
       cbn [gi_start_sequence gi_batch]. by destruct (apply_and_freeze _ _ d) as [[[]| |] d1]. }
  cbn [for_each]. unfold log_item. cbn [gi_opts wo_disable_wal default_write_options wo_sync orb].
  cbn [gi_start_sequence gi_batch]. unfold mbind, M_bind, mret, M_ret.
  destruct (on_metrics _ d) as [[u1| |] d1]; [|done..]. destruct (on_wal _ d1) as [[u2| |] d2]; [|done..].
  destruct (bool_decide _); cbn [orb].
  - destruct (sync_log d2) as [[u3| |] d3]; [|done..]. by destruct (apply_and_freeze _ _ d3) as [[[]| |] d4].
  - by destruct (apply_and_freeze _ _ d2) as [[[]| |] d4].
Qed.

Lemma written_reads tables l0 levels (d d' : Db SM) : only_reads tables d d' -> written l0 l0 levels levels [] d d'.
Proof. intros (c & m & -> & _). by apply written_same. Qed.

Lemma reads_room tables batch (d d' : Db SM) : only_reads tables d d' -> write_room batch d -> write_room batch d'.
Proof. intros (c & m & -> & _) []. by constructor. Qed.

(** A commit of a transaction whose snapshot is live. *)
Lemma commit_transaction_ok tables l0 levels batches (d : Db SM) seq batch read_keys read_ranges :
  settled tables l0 levels batches d -> write_guard batch d -> batch_loggable batch ->
  wal_enabled (db_options d) = true -> protected d seq -> seq <= st_last_sequence (db_state d) ->
  let free := undisturbed (read_keys.*1 ++ map record_key (records batch)) read_ranges
    (fun key => changed_since key seq (contents (db_state d) l0 levels)) in
  exists r d' tables' l0' levels' batches',
    commit_transaction seq batch read_keys read_ranges d = (r, d') /\
    settled tables' l0' levels' batches' d' /\
    (r = Ok tt /\ free /\ written l0 l0' levels levels' (records batch) d d' \/
     (exists m, r = Err (TransactionConflict m)) /\ ~ free /\ written l0 l0' levels levels' [] d d').
Proof.
  intros Hs Hg Hlog Hwal Hp Hseq free. unfold commit_transaction. cbv zeta.
  match goal with |- context [mbind (fun _ => mbind (fun _ => mbind (fun _ => ?work) _) _)] => set (rest := work) end.
  destruct (admission_ok tables l0 levels batches batch d rest Hs Hg)
    as (d1 & tables1 & l01 & levels1 & E1 & Hs1 & Hw1 & Hr1). rewrite E1. clear E1 Hg.
  pose proof (settled_ok _ _ _ _ _ Hs1) as Hok1.
  destruct (ensure_no_conflicts_ok tables1 l01 levels1 seq read_keys read_ranges (batch_write_keys batch) d1 Hok1)
    as (r & d2 & E2 & Hr2 & Hr). cbv zeta in Hr.
  assert (no_conflict (contents (db_state d1) l01 levels1) seq
    (read_keys.*1 ++ (batch_write_keys batch).*1) read_ranges <-> free) as Hfree.
  { rewrite no_conflict_undisturbed. apply undisturbed_iff.
    - intros key. rewrite !elem_of_app, write_keys_elem. tauto.
    - intros key. rewrite (wn_changed _ _ _ _ _ _ _ Hw1) by done. cbn [map]. rewrite elem_of_nil. tauto. }
  rewrite Hfree in Hr. clear Hfree. pose proof (settled_reads _ _ _ _ _ _ Hs1 Hr2) as Hs2.
  pose proof (written_trans _ _ _ _ _ _ [] [] _ _ _ Hw1 (written_reads _ l01 levels1 _ _ Hr2)) as Hw2. cbn [app] in Hw2.
  unfold rest. rewrite bind_get_state, (do_open _ _ _ _ Hok1).
  destruct Hr as [[-> Hf]|[[m ->] Hf]].
  2: { erewrite bind_err by exact E2. exists (Err (TransactionConflict m)), d2, tables1, l01, levels1, batches.
       split; [done|]. split; [exact Hs2|]. right. split; [by exists m | done]. }
  rewrite (bind_ok _ _ _ _ _ E2). destruct (batch_is_empty batch) eqn:Ee.
  { unfold batch_is_empty in Ee. destruct (records batch); [|done].
    exists (Ok tt), d2, tables1, l01, levels1, batches. split; [done|]. split; [exact Hs2|]. by left. }
  rewrite <- (only_reads_state _ _ _ Hr2).
  replace (db_options d1) with (db_options d2) by by destruct Hr2 as (c & m & -> & _).
  rewrite commit_tail by apply (settled_ok _ _ _ _ _ Hs2).
  destruct (write_one_ok tables1 l01 levels1 batches d2 batch default_write_options 0 Hs2
    (reads_room _ _ _ _ Hr2 Hr1) Hlog) as (d3 & tables3 & l03 & batches3 & E3 & Hs3 & Hw3); [|done|].
  { by rewrite (wn_options _ _ _ _ _ _ _ Hw2). }
  exists (Ok tt), d3, tables3, l03, levels1, batches3. split; [exact E3|]. split; [exact Hs3|].
  left. split; [done|]. split; [done|]. exact (written_trans _ _ _ _ _ _ [] _ _ _ _ Hw2 Hw3).
Qed.
End commit_ok.
