(* ===== verification/DbOpen.v ===== *)
(** * Opening a database

    [DB::open] on the files of a database in order: the version set comes
    back from the manifest, the tables it names are opened, and the log is
    replayed on top of them. *)

From Stdlib Require Import Sorting.Sorted.
From stdpp Require Import base list gmap strings sorting.
From S2P Require Import Prelude Key Spec Memtable Coding Batch Env Externals Wal Block Cache.
From S2P Require Import Format Properties Table Reader TableCache Version Options Metrics.
From S2P Require Import Compact Mvcc DbState DbRead DbMem DbFlush DbInv DbFlushOk DbCompact.
From S2P Require Import DbWrite DbSettled DbGroup DbWriteOk.

Section open.
Context `{X : Externals} `{HX : !ExternalsOk X} `{H : HashOrder} `{N : NumberHashOrder}
  `{SM : arena_skip_map} `{!SkipMapOk SM} `{O : OsMessages}.

(** ** The state before the log is replayed *)

Definition unlogged_state (kind : MemTableKind) (last_sequence : u64) (st : DBState SM) : DBState SM :=
  mkDBState (mt_new kind) [] (st_l0_tables st) (st_level_tables st) last_sequence false.

Lemma unlogged_contents kind last (st : DBState SM) l0 levels :
  contents (unlogged_state kind last st) l0 levels = table_contents l0 levels.
Proof. unfold contents, runs, mem_runs. cbn. by rewrite mt_new_entries. Qed.

Lemma table_contents_elem (st : DBState SM) l0 levels e :
  e ∈ table_contents l0 levels -> e ∈ contents st l0 levels.
Proof. unfold contents, runs. rewrite concat_app, elem_of_app. by right. Qed.

Lemma unlogged_state_ok tables (st : DBState SM) l0 levels kind last :
  state_ok tables st l0 levels -> u64_ok last ->
  Forall (fun e : entry => sequence e.1 <= last) (table_contents l0 levels) ->
  state_ok tables (unlogged_state kind last st) l0 levels.
Proof.
  intros [Hm Hl0 Hl Hl00 Hdis Hord Hcons Hseq _] Hu Hlast.
  constructor; rewrite ?unlogged_contents; try done.
  - unfold mem_runs. cbn. rewrite mt_new_entries. repeat constructor.
  - unfold runs, mem_runs in *. cbn. rewrite mt_new_entries. constructor.
    + by eapply StronglySorted_app_1_r.
    + apply Forall_forall. intros run _ key e e' Hin%elem_of_nil. done.
  - intros e e' He He'. apply Hcons; by apply table_contents_elem.
  - rewrite Forall_forall in Hseq, Hlast |- *. intros e He. split; [|by apply Hlast].
    by apply Hseq, table_contents_elem.
Qed.

(** ** What a database leaves on disk

    [d] is the database at the moment its process ended; the log holds
    [batches], and perhaps a record cut short after them. *)
Record recoverable (tables : Tables) (l0 : list (list entry)) (levels : list (list (list entry)))
    (batches : list WriteBatch) (torn : bytes) (d : Db SM) : Prop := mkRecoverable {
  rc_inv : db_inv tables l0 levels d;
  rc_batches : Forall batch_loggable batches;
  rc_storable : Forall record_storable (all_records batches);
  rc_wal : fs_files (db_fs d) !! wal_path d (vs_log_number (db_versions d))
    = Some (log_bytes (log_payloads (vs_last_sequence (db_versions d) + 1) batches) ++ torn);
  rc_torn : torn_tail torn;
  rc_bytes : Forall u8_ok torn;
  rc_last : 0 <= vs_last_sequence (db_versions d);
  rc_room : vs_last_sequence (db_versions d) + len (all_records batches) + 1 < 2 ^ 64;
  rc_tables : Forall (fun e : entry => sequence e.1 <= vs_last_sequence (db_versions d))
    (table_contents l0 levels)
}.

Lemma durable_recoverable tables l0 levels batches (d : Db SM) :
  db_inv tables l0 levels d -> durable l0 levels batches d ->
  st_last_sequence (db_state d) + 1 < 2 ^ 64 -> recoverable tables l0 levels batches [] d.
Proof.
  intros Hinv [Hb Hst [Hw _] Hl Hm Ht _ _] Hlt. pose proof Hinv as [_ Hly].
  constructor; try done; [|by left | lia].
  by rewrite app_nil_r, <- (ly_wal _ _ _ _ Hly).
Qed.

Lemma log_payloads_fit seq batches :
  Forall batch_loggable batches -> 0 <= seq -> seq + len (all_records batches) < 2 ^ 64 ->
  Forall (fun p => len p < 2 ^ 32 /\ Forall u8_ok p) (log_payloads seq batches).
Proof.
  intros Hb. revert seq. induction Hb as [|b batches [_ Hb] _ IH]; intros seq H0 Hlt; [constructor|].
  unfold all_records in *. cbn [map concat log_payloads] in *. rewrite len_app in Hlt.
  pose proof (len_nonneg (records b)). pose proof (len_nonneg (concat (map records batches))).
  constructor; [apply Hb; unfold u64_ok; lia | apply IH; lia].
Qed.

(** The database that opening gives: [st'] is its state and [vs'] its version
    set. *)
Definition opened (d : Db SM) (options : Options) (now : instant) (st' : DBState SM)
    (vs' : VersionSet) (tc : TableCache) : Db SM :=
  mkDb (db_path d) options st' vs' (block_cache_new (block_cache_capacity options)) tc
    watermark_new metrics_new
    (fmap (fun rate => rate_limiter_new rate now) (write_rate_limit_bytes_per_sec options))
    (mkWalWriter (mkWritableFile (wal_path d (vs_log_number (db_versions d))) true 0)) (db_fs d) now.

Lemma create_dir_again path fs :
  path ∈ fs_dirs fs -> fs_oracle fs = [] -> create_dir_all path fs = (Ok tt, fs).
Proof.
  intros Hp Ho. unfold create_dir_all. rewrite fallible_ok by done.
  replace ({[path]} ∪ fs_dirs fs) with (fs_dirs fs) by set_solver. by destruct fs.
Qed.

Lemma env_exists_file path fs c : fs_files fs !! path = Some c -> env_exists path fs = true.
Proof. intros Hf. apply bool_decide_eq_true_2. right. by eexists. Qed.

Lemma env_exists_dir path fs : path ∈ fs_dirs fs -> env_exists path fs = true.
Proof. intros Hp. apply bool_decide_eq_true_2. by left. Qed.

Lemma wal_create_again path fs c :
  fs_files fs !! path = Some c -> fs_oracle fs = [] ->
  wal_create path fs = (Ok (mkWalWriter (mkWritableFile path true 0)), fs).
Proof.
  intros Hf Ho. unfold wal_create. erewrite bind_ok; [reflexivity|]. unfold open_writable.
  rewrite fallible_ok by done. by rewrite Hf.
Qed.

(** Opening, from what each of its steps does. *)
Lemma open_db_from path options now fs vs l0 levels tc (st' : DBState SM) :
  path ∈ fs_dirs fs -> fs_oracle fs = [] -> error_if_exists options = false ->
  is_Some (fs_files fs !! path_join path CURRENT_FILE) ->
  vs_recover path (max_levels options) fs = (Ok vs, fs) ->
  open_version_tables path (vs_current vs) (table_cache_new 512, fs) = (Ok (l0, levels), (tc, fs)) ->
  is_Some (fs_files fs !! path_join path (wal_file_name (vs_log_number vs))) ->
  recover_wal (path_join path (wal_file_name (vs_log_number vs)))
    (mkDBState (mt_new (memtable_kind options)) [] l0 levels (vs_last_sequence vs) false) fs = (Ok st', fs) ->
  open_db path options now fs = (Ok (mkDb path options st' vs (block_cache_new (block_cache_capacity options))
    tc watermark_new metrics_new
    (fmap (fun rate => rate_limiter_new rate now) (write_rate_limit_bytes_per_sec options))
    (mkWalWriter (mkWritableFile (path_join path (wal_file_name (vs_log_number vs))) true 0)) fs now), fs).
Proof.
  intros Hd Ho Hex [cur Hcur] Hrec Htab [log Hlog] Hwal. unfold open_db, db_open. rewrite bind_get_state.
  rewrite (env_exists_dir _ _ Hd), Hex. cbn [andb negb].
  rewrite (bind_ok _ _ _ _ _ (create_dir_again _ _ Hd Ho)), bind_get_state.
  rewrite (env_exists_file _ _ _ Hcur). rewrite (bind_ok _ _ _ _ _ Hrec). cbv zeta.
  erewrite bind_ok by (rewrite Htab; reflexivity). cbn [fst snd]. rewrite bind_get_state.
  rewrite (env_exists_file _ _ _ Hlog).
  erewrite bind_ok by exact Hwal. by rewrite (bind_ok _ _ _ _ _ (wal_create_again _ _ _ Hlog Ho)).
Qed.

(** Options a database can be opened with again. *)
Definition reopen_options (d : Db SM) (options : Options) : Prop :=
  error_if_exists options = false /\ max_levels options = max_levels (db_options d) /\
  compression_succeeds (table_compression options).

Section reopen.
Context (tables : Tables) (l0 : list (list entry)) (levels : list (list (list entry)))
  (batches : list WriteBatch) (torn : bytes) (d : Db SM) (options : Options) (now : instant).
Context (Hrc : recoverable tables l0 levels batches torn d) (Hopt : reopen_options d options).
Let last := vs_last_sequence (db_versions d).
Let st0 := unlogged_state (memtable_kind options) last (db_state d).

Lemma open_steps readers mn edits vs' :
  tables_agree readers (db_table_cache d) ->
  Forall (fun t : TableRef => readers (fm_number t.1) = Some t.2) (all_tables (db_state d)) ->
  manifest_inv (db_path d) (max_levels (db_options d)) mn edits (db_versions d) (db_fs d) ->
  vs_recover (db_path d) (max_levels (db_options d)) (db_fs d) = (Ok vs', db_fs d) ->
  same_state vs' (db_versions d) ->
  exists st' tc, open_db (db_path d) options now (db_fs d)
      = (Ok (opened d options now st' vs' tc), db_fs d) /\ tables_agree readers tc /\
    applies tables l0 levels (all_records batches) st0 st' /\ st_immutables st' = [].
Proof.
  intros Htc Hrd Hm Hrec (Hcur & Hls & Hlog & _). destruct Hrc as [Hinv Hb Hst Hwal Ht Hu Hl0 Hroom Htab].
  pose proof Hinv as [[Hok [[Ho Hfs] _] _] Hly]. cbn [db_rw rw_fs] in Ho.
  destruct Hopt as (Hex & Hlev & Hc).
  destruct (open_version_tables_ok (db_path d) readers (db_fs d) (vs_current vs')
    (st_l0_tables (db_state d)) (st_level_tables (db_state d)) (table_cache_new 512))
    as (tc & Eo & Htc'); [by eapply layout_opens | done | rewrite Hcur; apply Hly.. |].
  assert (state_ok tables st0 l0 levels) as Hok0.
  { apply unlogged_state_ok; [done | unfold u64_ok, last | done].
    pose proof (len_nonneg (all_records batches)). lia. }
  pose proof (log_payloads_fit (last + 1) batches Hb ltac:(unfold last; lia) ltac:(unfold last; lia))
    as Hpay.
  destruct (recover_wal_ok tables st0 l0 levels batches torn
    (wal_path d (vs_log_number (db_versions d))) (db_fs d) Hok0) as (st' & Ew & A & Ei);
    [eapply Forall_impl; [exact Hb | by intros b []] | cbn; unfold last; lia |
     eapply Forall_impl; [exact Hpay | by intros b []] | exact Ht | exact Hwal | | exact Ho |].
  { apply Forall_app. split; [|exact Hu]. apply log_bytes_u8.
    eapply Forall_impl; [exact Hpay | by intros b []]. }
  exists st', tc. split; [|done].
  assert (opened d options now st' vs' tc = mkDb (db_path d) options st' vs'
    (block_cache_new (block_cache_capacity options)) tc watermark_new metrics_new
    (fmap (fun rate => rate_limiter_new rate now) (write_rate_limit_bytes_per_sec options))
    (mkWalWriter (mkWritableFile (wal_path d (vs_log_number vs')) true 0)) (db_fs d) now) as ->
    by (unfold opened; by rewrite Hlog).
  apply (open_db_from _ _ _ _ _ (st_l0_tables (db_state d)) (st_level_tables (db_state d))); try done.
  - apply Hly.
  - rewrite (mv_current _ _ _ _ _ _ Hm). by eexists.
  - by rewrite Hlev.
  - rewrite Hlog. change (path_join (db_path d) (wal_file_name ?k)) with (wal_path d k). rewrite Hwal. by eexists.
  - rewrite Hlog, Hls. exact Ew.
Qed.

Lemma open_db_ok :
  exists st' vs' tc, let d' := opened d options now st' vs' tc in
    open_db (db_path d) options now (db_fs d) = (Ok d', db_fs d) /\
    db_inv tables l0 levels d' /\ same_state vs' (db_versions d) /\
    applies tables l0 levels (all_records batches) st0 st' /\ st_immutables st' = [].
Proof.
  pose proof (rc_inv _ _ _ _ _ _ Hrc) as Hinv. pose proof Hinv as [[_ Hrw _] Hly].
  destruct (ly_manifest _ _ _ _ Hly) as (mn & edits & Hm & Hnext).
  destruct (ly_readers _ _ _ _ Hly) as (readers & Htc & Hrd & Hrn).
  assert (fs_oracle (db_fs d) = []) as Ho by apply Hrw.
  destruct (vs_recover_clean _ _ _ _ _ _ Hm Ho) as (vs' & Erec & Hs & Hm' & Hnext').
  destruct (open_steps readers mn edits vs' Htc Hrd Hm Erec Hs) as (st' & tc & Eo & Htc' & A & Ei).
  exists st', vs', tc. cbv zeta. split; [exact Eo|]. split; [|done].
  pose proof Hs as (Hcur & Hls & Hlog & _). rewrite Hnext in Hnext'.
  assert (st_l0_tables st' = st_l0_tables (db_state d)) as Et0 by apply A.
  assert (st_level_tables st' = st_level_tables (db_state d)) as Etl by apply A.
  assert (all_tables st' = all_tables (db_state d)) as Eall by (unfold all_tables; by rewrite Et0, Etl).
  split; [constructor | constructor]; cbn [opened db_path db_options db_state db_versions db_fs
    db_wal db_table_cache db_rw db_block_cache]; rewrite ?Eall, ?Et0, ?Etl, ?Hcur, ?Hlog, ?Hnext';
    try by apply Hly.
  - apply A.
  - split; [apply Hrw|]. intros t off b. cbn. by rewrite lookup_empty.
  - by rewrite (ap_closed _ _ _ _ _ _ A).
  - reflexivity.
  - eexists. split; [apply (rc_wal _ _ _ _ _ _ Hrc) | by left].
  - exists mn, edits. destruct Hopt as (_ & -> & _). by split.
  - by exists readers.
  - apply (ap_immutables _ _ _ _ _ _ A). constructor.
  - apply Hopt.
  - eapply records_storable_elem; [exact A | apply Hrc |]. unfold st0.
    rewrite unlogged_contents. pose proof (ly_storable _ _ _ _ Hly) as Hst.
    rewrite Forall_forall in Hst |- *. intros e He. by apply Hst, table_contents_elem.
Qed.
End reopen.

(** ** A new database *)

(** Nothing lies under the directory. *)
Definition fresh_dir (path : string) (fs : Fs) : Prop :=
  fs_oracle fs = [] /\ forall name, env_exists (path_join path name) fs = false.

Lemma env_exists_false path fs :
  env_exists path fs = false <-> (path ∉ fs_dirs fs) /\ fs_files fs !! path = None.
Proof.
  unfold env_exists. rewrite bool_decide_eq_false. rewrite eq_None_not_Some. tauto.
Qed.

Lemma path_join_ne path name : path_join path name <> path.
Proof.
  unfold path_join. intros E. apply (f_equal string_bytes) in E.
  rewrite !string_bytes_app in E. apply (f_equal length) in E. rewrite !length_app in E. cbn in E. lia.
Qed.

Definition empty_levels (options : Options) : list (list (list entry)) :=
  replicate (Z.to_nat (max_levels options)) [].

Lemma empty_levels_contents options : table_contents [] (empty_levels options) = [].
Proof. unfold table_contents, empty_levels. cbn [app]. by induction (Z.to_nat (max_levels options)). Qed.

Lemma empty_runs_sorted k :
  StronglySorted run_newer (map (@concat entry) (replicate k [])).
Proof. induction k; cbn; [apply SSorted_nil | by apply runs_nil_sorted]. Qed.

Definition new_db (path : string) (options : Options) (now : instant) (vs : VersionSet)
    (tc : TableCache) (fs : Fs) : Db SM :=
  mkDb path options
    (mkDBState (mt_new (memtable_kind options)) [] [] (replicate (Z.to_nat (max_levels options)) []) 0 false)
    vs (block_cache_new (block_cache_capacity options)) tc watermark_new metrics_new
    (fmap (fun rate => rate_limiter_new rate now) (write_rate_limit_bytes_per_sec options))
    (mkWalWriter (mkWritableFile (path_join path (wal_file_name 1)) true 0)) fs now.

Lemma new_db_ok path options now vs tc fs :
  fs_oracle fs = [] -> compression_succeeds (table_compression options) ->
  (exists w, vs = mkVersionSet (version_new (max_levels options)) 2 0 1 1 w) ->
  manifest_inv path (max_levels options) 1 create_edits vs fs ->
  path ∈ fs_dirs fs -> fs_files fs !! path_join path (wal_file_name 1) = Some [] ->
  (forall n, env_exists (path_join path (table_file_name n)) fs = false) ->
  (forall n, 2 <= n -> u64_ok n -> fs_files fs !! path_join path (wal_file_name n) = None) ->
  tables_agree (fun _ => None) tc ->
  settled (mkTables fs (fun _ _ => None)) [] (empty_levels options) [] (new_db path options now vs tc fs).
Proof.
  intros Ho Hc [w ->] Hm Hd Hw Ht Hwf Htc. set (d := new_db path options now _ tc fs).
  assert (contents (db_state d) [] (empty_levels options) = []) as Ec.
  { unfold contents, runs, mem_runs. cbn. rewrite mt_new_entries. apply empty_levels_contents. }
  assert (forall A, concat (replicate (Z.to_nat (max_levels options)) (@nil A)) = @nil A) as Ecr
    by (intros A; by induction (Z.to_nat (max_levels options))).
  assert (all_tables (db_state d) = []) as Eall by apply Ecr.
  assert (state_ok (mkTables fs (fun _ _ => None)) (db_state d) [] (empty_levels options)) as Hok.
  { constructor; rewrite ?Ec; try done.
    - unfold mem_runs. cbn. rewrite mt_new_entries. repeat constructor.
    - cbn. unfold empty_levels. apply Forall2_replicate. constructor.
    - unfold empty_levels. by destruct (Z.to_nat (max_levels options)).
    - cbn. apply Forall_replicate. constructor.
    - unfold runs, mem_runs. cbn. rewrite mt_new_entries. apply runs_nil_sorted, empty_runs_sorted.
    - by intros e e' He%elem_of_nil. }
  assert (db_inv (mkTables fs (fun _ _ => None)) [] (empty_levels options) d) as Hinv.
  { split; [split; [exact Hok | | done]|].
    - split; [by split|]. intros t off b. cbn. by rewrite lookup_empty.
    - constructor; rewrite ?Eall, ?Ec; try done.
      + apply NoDup_nil_2.
      + intros n Hn Hu. split; [apply Ht | by apply Hwf].
      + exists []; split; [exact Hw | by left].
      + exists 1, create_edits. by split.
      + cbn. by rewrite fmap_replicate.
      + exists (fun _ => None). split; [exact Htc|]. split; [constructor | done]. }
  constructor; [exact Hinv | done | | done].
  constructor; rewrite ?Ec; try done.
  - by split; [|left].
  - by rewrite empty_levels_contents.
  - intros key s _. by rewrite empty_levels_contents.
  - intros e. unfold mem_runs. cbn. by rewrite mt_new_entries.
Qed.

(** Opening an empty directory. *)
Lemma open_new_ok path options now fs :
  fresh_dir path fs -> create_if_missing options = true -> error_if_exists options = false ->
  compression_succeeds (table_compression options) ->
  exists vs tc fs', open_db path options now fs = (Ok (new_db path options now vs tc fs'), fs') /\
    vs_next_file_number vs = 2 /\
    settled (mkTables fs' (fun _ _ => None)) [] (empty_levels options) []
      (new_db path options now vs tc fs').
Proof.
  intros [Ho Hfresh] Hcreate Hex Hc.
  set (fs1 := mkFs (fs_files fs) ({[path]} ∪ fs_dirs fs) []).
  assert (create_dir_all path fs = (Ok tt, fs1)) as E1
    by (unfold create_dir_all; rewrite fallible_ok by done; unfold fs1; by rewrite Ho).
  destruct (vs_create_ok path (max_levels options) fs1 eq_refl)
    as (vs & fs2 & E2 & Ho2 & Hm & [w ->] & Hd2 & Hf2).
  assert (forall name, name ∉ created_names -> env_exists (path_join path name) fs2 = false) as Hfree.
  { intros name Hn. specialize (Hfresh name). rewrite env_exists_false in *. rewrite Hf2 by done.
    split; [|apply Hfresh]. rewrite Hd2. cbn [fs1 fs_dirs]. pose proof (path_join_ne path name).
    set_solver. }
  set (vs := mkVersionSet _ _ _ _ _ w) in *.
  destruct (open_version_tables_ok path (fun _ => None) fs2 (vs_current vs) []
    (replicate (Z.to_nat (max_levels options)) []) (table_cache_new 512)) as (tc & E3 & Htc);
    [ by induction (Z.to_nat (max_levels options)) | done | done | cbn; by rewrite fmap_replicate |].
  pose proof (Hfree _ (wal_not_created 1)) as Hw. apply env_exists_false in Hw as [Hwd Hw].
  set (fs3 := set_files (<[path_join path (wal_file_name 1) := []]>) fs2).
  assert (wal_create (path_join path (wal_file_name 1)) fs2
    = (Ok (mkWalWriter (mkWritableFile (path_join path (wal_file_name 1)) true 0)), fs3)) as E4.
  { unfold wal_create. erewrite bind_ok; [reflexivity|]. unfold open_writable.
    rewrite fallible_ok by done. by rewrite Hw. }
  exists vs, tc, fs3. split; [|split; [done|]].
  - unfold open_db, db_open. rewrite bind_get_state, Hex, Hcreate, andb_false_r, andb_false_r.
    rewrite (bind_ok _ _ _ _ _ E1), bind_get_state.
    assert (env_exists (path_join path CURRENT_FILE) fs1 = false) as ->.
    { specialize (Hfresh CURRENT_FILE). rewrite env_exists_false in *. split; [|apply Hfresh].
      cbn [fs1 fs_dirs]. pose proof (path_join_ne path CURRENT_FILE). set_solver. }
    rewrite (bind_ok _ _ _ _ _ E2). cbv zeta. erewrite bind_ok by (rewrite E3; reflexivity).
    rewrite bind_get_state. cbn [fst snd vs_log_number vs].
    rewrite (proj2 (env_exists_false _ fs2)) by done. rewrite bind_ret.
    by rewrite (bind_ok _ _ _ _ _ E4).
  - apply new_db_ok; [done | done | by exists w | | | apply lookup_insert_eq | | | done].
    + eapply manifest_inv_frame; [exact Hm | done | done | |]; apply lookup_insert_ne.
      * apply wal_current_ne.
      * by apply wal_manifest_ne.
    + cbn [fs3 set_files fs_dirs]. rewrite Hd2. set_solver.
    + intros n. pose proof (Hfree _ (table_not_created n)) as Ht. rewrite env_exists_false in *.
      cbn [fs3 set_files fs_dirs fs_files]. rewrite lookup_insert_ne by (apply not_eq_sym, table_wal_ne).
      exact Ht.
    + intros n Hn Hu. cbn [fs3 set_files fs_files]. rewrite lookup_insert_ne.
      * by apply env_exists_false, Hfree, wal_not_created.
      * intros E%path_join_inj%wal_file_name_inj; [lia | done | done].
Qed.
End open.
