(* ===== verification/DbCrash.v ===== *)
(** * Crashes and restarts

    What a database that is opened again on the files of an earlier one
    answers: everything that was acknowledged, also when the earlier one
    stopped in the middle of writing a group to its log. *)

From Stdlib Require Import Sorting.Sorted.
From stdpp Require Import base list gmap strings sorting.
From S2P Require Import Prelude Key Spec Memtable Coding Batch Env Externals Wal Block Cache.
From S2P Require Import Format Properties Table Reader TableCache Version Options Metrics.
From S2P Require Import Compact Mvcc DbState DbRead DbMem DbFlush DbInv DbFlushOk DbCompact.
From S2P Require Import DbWrite DbSettled DbGroup DbWriteOk DbOpen.

(** ** A log cut anywhere *)

Section cut.
Context `{X : Externals}.

Lemma log_bytes_cons p payloads : log_bytes (p :: payloads) = wal_record p ++ log_bytes payloads.
Proof. done. Qed.

(** Some whole records and the beginning of the next. *)
Lemma log_bytes_prefix payloads b :
  Forall (fun p => len p < 2 ^ 32 /\ Forall u8_ok p) payloads -> b `prefix_of` log_bytes payloads ->
  exists k torn, b = log_bytes (take k payloads) ++ torn /\ torn_tail torn /\ Forall u8_ok torn.
Proof.
  revert b. induction payloads as [|p payloads IH]; intros b Hl Hb.
  { exists 0%nat, []. apply prefix_nil_inv in Hb as ->. split; [done|]. by split; [left|]. }
  apply Forall_cons in Hl as [[Hp Hu] Hl]. destruct Hb as [x Hx]. rewrite log_bytes_cons in Hx.
  apply app_eq_inv in Hx as [(k & Hw & Hx) | (k & -> & Hx)].
  - destruct k as [|y k].
    + rewrite app_nil_r in Hw. subst b. exists 1%nat, []. cbn [take]. rewrite log_bytes_cons.
      change (log_bytes []) with (@nil Z). rewrite !app_nil_r. split; [done|]. by split; [left|].
    + exists 0%nat, b. split; [done|]. split; [right; by exists p, (y :: k)|].
      apply wal_record_u8 in Hu. rewrite Hw in Hu. by apply Forall_app in Hu as [Hu _].
  - destruct (IH k Hl) as (n & torn & -> & Ht & Hut); [by exists x|].
    exists (S n), torn. cbn [take]. by rewrite log_bytes_cons, <- app_assoc.
Qed.
End cut.

Section crash.
Context `{X : Externals} `{HX : !ExternalsOk X} `{H : HashOrder} `{N : NumberHashOrder}
  `{SM : arena_skip_map} `{!SkipMapOk SM} `{O : OsMessages}.

Lemma log_payloads_app seq bs bs' :
  log_payloads seq (bs ++ bs')
  = log_payloads seq bs ++ log_payloads (seq + len (all_records bs)) bs'.
Proof.
  revert seq. induction bs as [|b bs IH]; intros seq; cbn [log_payloads app].
  - by rewrite Z.add_0_r.
  - rewrite IH. unfold all_records. cbn [map concat]. by rewrite len_app, Z.add_assoc.
Qed.

Lemma log_payloads_take seq k bs : take k (log_payloads seq bs) = log_payloads seq (take k bs).
Proof.
  revert seq k. induction bs as [|b bs IH]; intros seq [|k]; cbn [log_payloads take]; try done.
  by rewrite IH.
Qed.

Lemma log_bytes_app ps qs : log_bytes (ps ++ qs) = log_bytes ps ++ log_bytes qs.
Proof. unfold log_bytes. by rewrite map_app, concat_app. Qed.

Lemma all_records_app bs bs' : all_records (bs ++ bs') = all_records bs ++ all_records bs'.
Proof. unfold all_records. by rewrite map_app, concat_app. Qed.

(** The log of a group none of whose members opts out. *)
Lemma group_log_payloads seq items :
  Forall (fun i => wo_disable_wal (gi_opts i) = false) items ->
  group_log true (numbered seq items) = log_bytes (log_payloads seq (map gi_batch items)).
Proof.
  intros Hi. cbn [group_log]. revert seq. induction Hi as [|i items Hd Hi IH]; intros seq; [done|].
  cbn [numbered map concat log_payloads]. rewrite log_bytes_cons, IH. unfold item_log.
  cbn [gi_opts gi_batch gi_start_sequence]. by rewrite Hd.
Qed.

(** The same database when the file system may fail, by [oracle], and what
    becomes of its files when its process stops. *)
Definition faulty (oracle : list io_event) (d : Db SM) : Db SM :=
  set_wal (db_wal d) (mkFs (fs_files (db_fs d)) (fs_dirs (db_fs d)) oracle) d.

Definition stopped (d d' : Db SM) (fs : Fs) : Prop :=
  fs_files fs = fs_files (db_fs d') /\ fs_dirs fs = fs_dirs (db_fs d) /\ fs_oracle fs = [].

Definition stop_fs (d d' : Db SM) : Fs := mkFs (fs_files (db_fs d')) (fs_dirs (db_fs d)) [].

Lemma stop_fs_stopped d d' : stopped d d' (stop_fs d d').
Proof. by repeat split. Qed.

(** The disk after a group was logged in part. *)
Lemma logged_recoverable tables l0 levels batches torn new (d d1 : Db SM) fs b :
  db_inv tables l0 levels d -> durable l0 levels batches d ->
  logged (log_bytes (log_payloads (vs_last_sequence (db_versions d) + 1) batches)) d b d1 ->
  b = log_bytes (log_payloads (st_last_sequence (db_state d) + 1) new) ++ torn ->
  torn_tail torn -> Forall u8_ok torn ->
  Forall batch_loggable new -> Forall record_storable (all_records new) ->
  st_last_sequence (db_state d) + len (all_records new) + 1 < 2 ^ 64 ->
  stopped d d1 fs ->
  exists tables', recoverable tables' l0 levels (batches ++ new) torn
    (set_wal (db_wal d1) fs d).
Proof.
  intros Hinv Hdur (w & fs1 & m & -> & Hp & Hw & Hf) -> Ht Hu Hb Hst Hlt (Hff & Hfd & Hfo).
  pose proof Hinv as [Hok Hly]. cbn [db_wal db_fs set_metrics set_wal] in *.
  assert (wrote (log_bytes (log_payloads (vs_last_sequence (db_versions d) + 1) batches)
    ++ log_bytes (log_payloads (st_last_sequence (db_state d) + 1) new) ++ torn) d
    (set_wal w fs d)) as Hwr.
  { constructor; try done.
    - destruct Hw as [Hw1 Hw2]. split; [|exact Hw2]. cbn. by rewrite Hff.
    - split; [|split; [done|]].
      + cbn. rewrite Hfo. symmetry. apply Hok.
      + intros p Hp'. cbn. rewrite Hff, Hf. apply lookup_insert_ne. intros <-. apply Hp'. by left. }
  destruct (wrote_inv tables l0 levels d _ _ [] (db_state d) Hinv Hwr) as [Hinv' _];
    [done | done | done | apply applies_refl, Hok | constructor |].
  eexists. constructor; [exact Hinv' | | | | exact Ht | exact Hu | apply Hdur | | apply Hdur].
  - apply Forall_app. split; [apply Hdur | done].
  - rewrite all_records_app. apply Forall_app. split; [apply Hdur | done].
  - destruct (wr_wal _ _ _ Hwr) as [Hw1 _].
    change (wal_path (set_wal w fs d) (vs_log_number (db_versions (set_wal w fs d))))
      with (wal_path d (vs_log_number (db_versions d))).
    rewrite <- (ly_wal _ _ _ _ Hly).
    pose proof (wr_wal_path _ _ _ Hwr) as Hwp. unfold wal_path_of in Hwp. rewrite <- Hwp, Hw1.
    rewrite log_payloads_app, log_bytes_app, <- app_assoc. cbn [db_versions set_wal].
    by replace (st_last_sequence (db_state d) + 1)
      with (vs_last_sequence (db_versions d) + 1 + len (all_records batches))
      by (pose proof (du_last _ _ _ _ Hdur); lia).
  - cbn [db_versions set_wal]. rewrite all_records_app, len_app. pose proof (du_last _ _ _ _ Hdur). lia.
Qed.

(** What the reads of a database see now. *)
Definition now_view (l0 : list (list entry)) (levels : list (list (list entry))) (st : DBState SM) :
    view := fun key => live key (st_last_sequence st) (contents st l0 levels).

Lemma live_now tables (st : DBState SM) l0 levels key s :
  state_ok tables st l0 levels -> st_last_sequence st <= s ->
  live key s (contents st l0 levels) = now_view l0 levels st key.
Proof.
  intros Hok Hs. apply live_above; [|done]. eapply Forall_impl; [apply (so_seq _ _ _ _ Hok)|].
  by intros e [_ ?].
Qed.

(** The state after opening sees what the database saw, and then the batches
    that reached the log after. *)
Lemma recovered_view tables tables' l0 levels batches new kind (d : Db SM) st' :
  state_ok tables (db_state d) l0 levels -> durable l0 levels batches d ->
  applies tables' l0 levels (all_records (batches ++ new))
    (unlogged_state kind (vs_last_sequence (db_versions d)) (db_state d)) st' ->
  st_last_sequence st' = st_last_sequence (db_state d) + len (all_records new) /\
  forall key, now_view l0 levels st' key
    = view_after (all_records new) (now_view l0 levels (db_state d)) key.
Proof.
  intros Hok Hdur A. pose proof (ap_last _ _ _ _ _ _ A) as Hl.
  cbn [st_last_sequence unlogged_state] in Hl. rewrite all_records_app, len_app in Hl.
  pose proof (du_last _ _ _ _ Hdur). pose proof (len_nonneg (all_records new)).
  assert (st_last_sequence st' = st_last_sequence (db_state d) + len (all_records new)) as El by lia.
  split; [exact El|]. intros key. unfold now_view at 1. rewrite (ap_new _ _ _ _ _ _ A) by done.
  rewrite all_records_app, view_after_app. apply view_after_ext.
  rewrite <- (live_now tables (db_state d) l0 levels key (st_last_sequence st')) by (done || lia).
  rewrite (du_live _ _ _ _ Hdur) by lia. apply view_after_ext. by rewrite unlogged_contents.
Qed.

(** What the operations of a database answer: point reads and scans of [v]. *)
Definition answers (v : view) (d : Db SM) : Prop :=
  (forall key, (db_get key d).1 = Ok (v key)) /\
  forall lower upper, exists rows, (db_scan lower upper d).1 = Ok rows /\ view_rows lower upper v rows.

Lemma view_rows_same lower upper v v' rows :
  (forall key, v key = v' key) -> view_rows lower upper v rows -> view_rows lower upper v' rows.
Proof. intros E [Hs Hr]. split; [done|]. intros k x. by rewrite <- E. Qed.

Lemma readable_answers tables l0 levels d v :
  db_readable tables l0 levels d -> (forall key, now_view l0 levels (db_state d) key = v key) -> answers v d.
Proof.
  intros Hok Hv. split.
  - intros key. destruct (get_opt_readable tables l0 levels d key default_read_options Hok) as (d' & E & _).
    unfold db_get. rewrite E. cbn [fst]. f_equal. apply Hv.
  - intros lower upper.
    destruct (scan_opt_readable tables l0 levels d lower upper default_read_options Hok)
      as (rows & d' & E & _ & Hs).
    exists rows. unfold db_scan. rewrite E. split; [done|]. apply scan_spec_rows in Hs.
    by eapply view_rows_same.
Qed.

Lemma db_ok_answers tables l0 levels d v :
  db_ok tables l0 levels d -> (forall key, now_view l0 levels (db_state d) key = v key) -> answers v d.
Proof. intros Hok. by apply (readable_answers tables), db_ok_readable. Qed.

(** The part of a group that reached the log. *)
Lemma group_cut (seq : u64) bs b :
  Forall batch_loggable bs -> 0 <= seq -> seq + len (all_records bs) < 2 ^ 64 ->
  b `prefix_of` log_bytes (log_payloads seq bs) ->
  exists k torn, b = log_bytes (log_payloads seq (take k bs)) ++ torn /\ torn_tail torn /\
    Forall u8_ok torn /\ (b = log_bytes (log_payloads seq bs) -> k = length bs).
Proof.
  intros Hb H0 Hlt Hpre. destruct (decide (b = log_bytes (log_payloads seq bs))) as [->|Hne].
  - exists (length bs), []. rewrite take_ge, app_nil_r by lia. split; [done|].
    split; [by left|]. by split.
  - destruct (log_bytes_prefix (log_payloads seq bs) b) as (k & torn & Eb & Ht & Hu);
      [by apply log_payloads_fit | done |].
    exists k, torn. rewrite <- log_payloads_take. split; [done|]. split; [done|]. by split.
Qed.

Lemma all_records_take k bs : exists rest, all_records bs = all_records (take k bs) ++ rest.
Proof. exists (all_records (drop k bs)). by rewrite <- all_records_app, take_drop. Qed.

(** A database opened again after a clean end is between two operations. *)
Lemma reopen_settles tables l0 levels batches (d : Db SM) options now :
  settled tables l0 levels batches d -> st_last_sequence (db_state d) + 1 < 2 ^ 64 ->
  reopen_options d options ->
  exists d', open_db (db_path d) options now (db_fs d) = (Ok d', db_fs d) /\
    settled tables l0 levels batches d' /\ db_options d' = options /\ db_snapshots d' = watermark_new /\
    db_path d' = db_path d /\ forall key, now_view l0 levels (db_state d') key = now_view l0 levels (db_state d) key.
Proof.
  intros [Hinv _ Hdur _] Hlast Hopt. pose proof Hinv as [[Hok _ _] _].
  pose proof (durable_recoverable _ _ _ _ _ Hinv Hdur Hlast) as Hrc.
  destruct (open_db_ok tables l0 levels batches [] d options now Hrc Hopt)
    as (st' & vs' & tc & E & Hinv' & (Hcur & Hls & Hlog & _) & A & Ei).
  eexists. split; [exact E|]. pose proof A as A'. rewrite <- (app_nil_r batches) in A'.
  destruct (recovered_view tables tables l0 levels batches [] _ d st' Hok Hdur A') as [Hl Hview].
  split; [|done]. constructor; [exact Hinv' | exact Ei| | done].
  constructor; cbn [opened db_versions db_state db_wal db_fs]; rewrite ?Hls; try by apply Hdur.
  - split; [|by left]. pose proof (rc_wal _ _ _ _ _ _ Hrc) as Hw. by rewrite app_nil_r in Hw.
  - rewrite (ap_last _ _ _ _ _ _ A). done.
  - intros key s Hs. rewrite (ap_new _ _ _ _ _ _ A) by done. by rewrite unlogged_contents.
  - intros e. rewrite (ap_mem _ _ _ _ _ _ A). unfold mem_runs. cbn. rewrite mt_new_entries.
    cbn [app]. rewrite elem_of_nil. tauto.
Qed.

(** The files after a group that stopped anywhere. *)
Lemma group_crash_ok tables l0 levels batches (d : Db SM) items oracle r d1 fs options now :
  settled tables l0 levels batches d -> wal_enabled (db_options d) = true ->
  Forall (fun i => wo_disable_wal (gi_opts i) = false) items ->
  Forall batch_loggable (map gi_batch items) -> Forall record_storable (group_records items) ->
  st_last_sequence (db_state d) + len (group_records items) + 1 < 2 ^ 64 ->
  apply_write_group_to_memtable items (faulty oracle d) = (r, d1) -> stopped d d1 fs ->
  reopen_options d options ->
  exists k d2, open_db (db_path d) options now fs = (Ok d2, fs) /\
    (forall flag, r = Ok flag -> k = length items) /\
    answers (view_after (group_records (take k items)) (now_view l0 levels (db_state d))) d2.
Proof.
  intros [Hinv _ Hdur _] Hwal Hdis Hb Hst Hlt E Hstop Hopt. pose proof Hinv as [[Hok _ Hopen] Hly].
  destruct (so_last _ _ _ _ Hok) as [Hl0 _].
  destruct (group_outcome tables l0 levels items (faulty oracle d) _ Hok Hopen ltac:(cbn; lia)
    (du_wal _ _ _ _ Hdur)) as (r0 & d0 & d1' & b & st' & E0 & Ed & Hlog & Hpre & Hr & _).
  rewrite E in E0. injection E0 as <- <-.
  cbn [faulty db_options db_state set_wal] in Hpre, Hr. rewrite Hwal, group_log_payloads in Hpre, Hr by done.
  destruct (group_cut (st_last_sequence (db_state d) + 1) (map gi_batch items) b Hb ltac:(lia)
    ltac:(unfold group_records in Hlt; lia) Hpre) as (k & torn & Eb & Ht & Hu & Hfull).
  set (new := take k (map gi_batch items)) in *.
  destruct (all_records_take k (map gi_batch items)) as [rest Erest]. fold new in Erest.
  unfold group_records in Hst, Hlt. rewrite Erest in Hst, Hlt. rewrite len_app in Hlt.
  apply Forall_app in Hst as [Hst _]. pose proof (len_nonneg rest).
  assert (logged (log_bytes (log_payloads (vs_last_sequence (db_versions d) + 1) batches)) d b
    (set_wal (db_wal d1') (db_fs d1') (set_metrics (db_metrics d1') d))) as Hlog'.
  { destruct Hlog as (w & fs1 & m & -> & Hp & Hw' & Hf). by exists w, fs1, m. }
  assert (stopped d (set_wal (db_wal d1') (db_fs d1') (set_metrics (db_metrics d1') d)) fs) as Hstop'
    by by rewrite Ed in Hstop.
  destruct (logged_recoverable tables l0 levels batches torn new d _ fs b Hinv Hdur Hlog' Eb Ht Hu
    ltac:(by apply Forall_take) Hst ltac:(lia) Hstop') as (tables' & Hrc).
  set (dc := set_wal _ fs d) in Hrc.
  destruct (open_db_ok tables' l0 levels _ torn dc options now Hrc Hopt)
    as (st2 & vs2 & tc & Eo & Hinv2 & _ & A & _).
  destruct (recovered_view tables tables' l0 levels batches new (memtable_kind options) d st2 Hok Hdur A)
    as [_ Hview].
  exists k. eexists. split; [exact Eo|]. split.
  - intros flag ->. destruct Hr as [Hbw _]. rewrite Hfull by done. apply length_map.
  - eapply db_ok_answers; [apply Hinv2|]. unfold group_records. rewrite <- firstn_map || rewrite map_take. exact Hview.
Qed.

(** C2: a leader logs and applies a group of writes to a database in order,
    none of which opts out of the log, on a file system that may fail at any of
    its operations and whose process may stop at any of them and in the middle
    of a write (what was written stays written). The database that is then
    opened on the files has the acknowledged writes and the first [k] batches of
    the group, each of them whole, and nothing else; it has all of them when the
    call succeeded. Its reads and scans return those values. *)
Theorem crash_keeps_acknowledged tables l0 levels batches (d : Db SM) items oracle r d1 fs options now :
  settled tables l0 levels batches d -> wal_enabled (db_options d) = true ->
  Forall (fun i => wo_disable_wal (gi_opts i) = false) items ->
  Forall batch_loggable (map gi_batch items) -> Forall record_storable (group_records items) ->
  st_last_sequence (db_state d) + len (group_records items) + 1 < 2 ^ 64 ->
  apply_write_group_to_memtable items (faulty oracle d) = (r, d1) -> stopped d d1 fs ->
  reopen_options d options ->
  exists k d2, open_db (db_path d) options now fs = (Ok d2, fs) /\
    (forall flag, r = Ok flag -> k = length items) /\
    answers (view_after (group_records (take k items)) (now_view l0 levels (db_state d))) d2.
Proof.
  intros Hs Hwal Hdis Hb Hst Hlt E Hstop Hopt.
  by apply (group_crash_ok tables l0 levels batches d items oracle r d1 fs options now).
Qed.
End crash.

(** ** A crash of a new database *)

Section crash_examples.
#[local] Existing Instance toy_externals.
#[local] Existing Instance toy_hash_order.
#[local] Existing Instance toy_number_hash_order.
#[local] Existing Instance toy_skip_map.
#[local] Existing Instance toy_os_messages.

Definition empty_fs : Fs := mkFs ∅ ∅ [].

Lemma empty_fs_fresh : fresh_dir "db" empty_fs.
Proof. by split. Qed.

Definition example_new : Db toy_skip_map :=
  match open_db "db" default_options 0 empty_fs with
  | (Ok d, _) => d
  | _ => example_db
  end.

Lemma example_new_settled :
  settled (mkTables (db_fs example_new) (fun _ _ => None)) [] (empty_levels default_options) [] example_new.
Proof.
  destruct (open_new_ok "db" default_options 0 empty_fs empty_fs_fresh eq_refl eq_refl ltac:(done))
    as (vs & tc & fs' & E & _ & Hs).
  assert (example_new = new_db "db" default_options 0 vs tc fs') as -> by (unfold example_new; by rewrite E).
  exact Hs.
Qed.

Definition example_group : list GroupWriteItem :=
  [mkGroupWriteItem (mkWriteBatch [BPut [1] [10]; BPut [2] [20]]) default_write_options 4 0;
   mkGroupWriteItem (mkWriteBatch [BPut [3] [30]; BDelete [1]]) default_write_options 3 0].

(** Four writes for a record: the last one of the second record is cut short. *)
Definition example_oracle : list io_event := replicate 7 IoDone ++ [IoFail 1].

Definition example_crashed : res bool * Db toy_skip_map :=
  apply_write_group_to_memtable example_group (faulty example_oracle example_new).

(** Records of a few bytes. *)
Ltac storable :=
  try apply List.Forall_nil; cbn [record_storable];
  repeat first [apply List.Forall_cons | apply List.Forall_nil | split]; unfold len, u8_ok; cbn; lia.

Lemma crash_keeps_acknowledged_witness :
  example_crashed.1 = Err (Io OtherIo) /\
  exists k d2, open_db "db" default_options 5 (stop_fs example_new example_crashed.2) = (Ok d2, stop_fs example_new example_crashed.2) /\
    answers (view_after (group_records (take k example_group))
      (now_view [] (empty_levels default_options) (db_state example_new))) d2 /\
    (db_get [1] d2).1 = Ok (Some [10]) /\ (db_get [3] d2).1 = Ok None.
Proof.
  split; [by vm_compute|].
  destruct (crash_keeps_acknowledged _ _ _ _ example_new example_group example_oracle
    example_crashed.1 example_crashed.2 (stop_fs example_new example_crashed.2) default_options 5 example_new_settled)
    as (k & d2 & E & _ & Ha).
  - by vm_compute.
  - by repeat apply List.Forall_cons.
  - repeat apply List.Forall_cons; try apply List.Forall_nil;
      (apply batch_loggable_small; [by repeat apply List.Forall_cons; storable | by vm_compute]).
  - repeat apply List.Forall_cons; storable.
  - by vm_compute.
  - pose proof (surjective_pairing example_crashed) as Ep. unfold example_crashed at 1 in Ep. exact Ep.
  - apply stop_fs_stopped.
  - split; [reflexivity|]. split; [by vm_compute | done].
  - assert (db_path example_new = "db"%string) as Ep by by vm_compute. rewrite Ep in E.
    exists k, d2. split; [exact E|]. split; [exact Ha|].
    assert (forall key v, (match (open_db "db" default_options 5 (stop_fs example_new example_crashed.2)).1 with
      | Ok d => (db_get key d).1 | _ => Panic end) = Ok v -> (db_get key d2).1 = Ok v) as Hg
      by (intros key v Hv; rewrite E in Hv; exact Hv).
    split; apply Hg; vm_compute; reflexivity.
Defined.
End crash_examples.
