(* ===== verification/DbFaults.v ===== *)
(** * What failures of the file system can do

    The oracle of a file system decides which of its operations fail.  Code
    that only passes such errors on is [careful]: a run that does not report
    one did what the run without failures does, and in any case only the files
    it names have changed.  The rules follow the structure of the code, and
    give this for [write_l0_table]. *)

From stdpp Require Import base list gmap strings.
From S2P Require Import Prelude Key Spec Memtable Coding Batch Env Externals Wal Block Cache.
From S2P Require Import Format Properties Table Reader TableCache Version Options Metrics.
From S2P Require Import Compact Mvcc DbState DbRead DbMem DbFlush.

(** The same files, and no failures from here on. *)
Definition hush (fs : Fs) : Fs := mkFs (fs_files fs) (fs_dirs fs) [].

(** A state with a file system in it. *)
Class OnDisk (S : Type) : Type := {
  disk : S -> Fs;
  hushed : S -> S
}.

#[export] Instance fs_on_disk : OnDisk Fs := {| disk fs := fs; hushed := hush |}.
#[export] Instance local_on_disk {L S} `{OnDisk S} : OnDisk (L * S) :=
  {| disk s := disk s.2; hushed s := (s.1, hushed s.2) |}.
#[export] Instance rw_on_disk : OnDisk RW :=
  {| disk := rw_fs; hushed w := mkRW (hush (rw_fs w)) (rw_cache w) |}.
#[export] Instance db_on_disk {SM : arena_skip_map} : OnDisk (Db SM) :=
  {| disk := db_fs; hushed d := set_wal (db_wal d) (hush (db_fs d)) d |}.

(** Nothing outside of [ps] has changed. *)
Definition only_files (ps : list string) (fs fs' : Fs) : Prop :=
  forall p, p ∉ ps -> fs_files fs' !! p = fs_files fs !! p.

Lemma only_files_refl ps fs : only_files ps fs fs.
Proof. done. Qed.

Lemma only_files_trans ps fs1 fs2 fs3 :
  only_files ps fs1 fs2 -> only_files ps fs2 fs3 -> only_files ps fs1 fs3.
Proof. intros F1 F2 p Hp. by rewrite F2, F1. Qed.

Lemma only_files_weaken ps ps' fs fs' : ps ⊆ ps' -> only_files ps fs fs' -> only_files ps' fs fs'.
Proof. intros Hsub F p Hp. apply F. auto. Qed.

Lemma only_files_app ps ps' fs1 fs2 fs3 :
  only_files ps fs1 fs2 -> only_files ps' fs2 fs3 -> only_files (ps ++ ps') fs1 fs3.
Proof.
  intros F1 F2. eapply only_files_trans; eapply only_files_weaken; [|exact F1 | |exact F2];
    intros p Hp; apply elem_of_app; auto.
Qed.

Lemma only_files_insert p c fs fs' ps :
  p ∈ ps -> fs_files fs' = <[p := c]> (fs_files fs) -> only_files ps fs fs'.
Proof. intros Hp E q Hq. rewrite E. apply lookup_insert_ne. by intros ->. Qed.

(** [P] is an invariant of the states between the steps. *)
Definition careful {S A} `{OnDisk S} (P : S -> Prop) (ps : list string) (m : M S A) : Prop :=
  forall s, P s ->
    ((m s).1 = Err (Io OtherIo) \/ m (hushed s) = ((m s).1, hushed (m s).2)) /\
    P (m s).2 /\ only_files ps (disk s) (disk (m s).2).

Definition anything {S : Type} (s : S) : Prop := True.

(** ** Rules *)

Section rules.
Context {S : Type} `{OnDisk S} (P : S -> Prop) (ps : list string).

(** A step that leaves the file system alone. *)
Lemma careful_pure {A} (m : M S A) :
  (forall s, m (hushed s) = ((m s).1, hushed (m s).2)) -> (forall s, P s -> P (m s).2) ->
  (forall s, disk (m s).2 = disk s) -> careful P ps m.
Proof. intros E Hp Hd s Hs. split; [right; apply E|]. split; [by apply Hp|]. rewrite Hd. done. Qed.

Lemma careful_ret {A} (a : A) : careful P ps (mret a).
Proof. by apply careful_pure. Qed.
Lemma careful_fail {A} e : careful P ps (fail e : M S A).
Proof. by apply careful_pure. Qed.
Lemma careful_panic {A} : careful P ps (panic : M S A).
Proof. by apply careful_pure. Qed.
Lemma careful_lift {A} (r : res A) : careful P ps (lift r).
Proof. by apply careful_pure. Qed.

(** The result of the first step may be known. *)
Lemma careful_bind_post {A B} (R : A -> Prop) (m : M S A) (f : A -> M S B) :
  careful P ps m -> (forall s a s', P s -> m s = (Ok a, s') -> R a) -> (forall a, R a -> careful P ps (f a)) ->
  careful P ps (mbind f m).
Proof.
  intros Hm HR Hf s Hs. destruct (Hm s Hs) as (Hr & Hp & Hfs). unfold mbind, M_bind.
  destruct (m s) as [[a|e|] s1] eqn:E; cbn [fst snd] in *.
  - destruct (Hf a (HR _ _ _ Hs E) s1 Hp) as (Hr2 & Hp2 & Hfs2).
    split; [|split; [done | by eapply only_files_trans]].
    destruct Hr as [Hr | ->]; [done|]. exact Hr2.
  - split; [|done]. destruct Hr as [[= ->] | ->]; [by left | by right].
  - split; [|done]. destruct Hr as [Hr | ->]; [done | by right].
Qed.

Lemma careful_bind {A B} (m : M S A) (f : A -> M S B) :
  careful P ps m -> (forall a, careful P ps (f a)) -> careful P ps (mbind f m).
Proof. intros Hm Hf. by apply (careful_bind_post (fun _ => True)); [..|intros a _; apply Hf]. Qed.

Lemma careful_get {B} (f : S -> M S B) :
  (forall s, P s -> careful P ps (f s)) -> (forall s, f (hushed s) (hushed s) = f s (hushed s)) ->
  careful P ps (mbind f get_state).
Proof.
  intros Hf E s Hs. rewrite !bind_get_state, E. by apply Hf.
Qed.

Lemma careful_for_each {A Y} (ys : list Y) (body : Y -> A -> M S A) acc :
  (forall y a, y ∈ ys -> careful P ps (body y a)) -> careful P ps (for_each ys body acc).
Proof.
  intros Hb. revert acc. induction ys as [|y ys IH]; intros acc; [apply careful_ret|].
  apply careful_bind; [apply Hb; by left|]. apply IH. intros y' a Hy. apply Hb. by right.
Qed.

Lemma for_each_post {A Y} (R : A -> Prop) (ys : list Y) (body : Y -> A -> M S A) acc s b s' :
  (forall y a, y ∈ ys -> careful P ps (body y a)) ->
  (forall y a s b s', y ∈ ys -> R a -> P s -> body y a s = (Ok b, s') -> R b) ->
  R acc -> P s -> for_each ys body acc s = (Ok b, s') -> R b.
Proof.
  intros Hb HR. revert acc s. induction ys as [|y ys IH]; intros acc s Ha Hs E.
  - by injection E as <- _.
  - cbn [for_each] in E. apply bind_inv in E as (a & s1 & E1 & E2).
    destruct (Hb y acc ltac:(by left) s Hs) as (_ & Hs1 & _). rewrite E1 in Hs1.
    refine (IH _ _ a s1 _ Hs1 E2).
    + intros y' a' Hy. apply Hb. by right.
    + intros y' a' s2 b' s3 Hy. apply HR. by right.
    + refine (HR y acc s a s1 _ Ha Hs E1). by left.
Qed.

Lemma careful_zoom {T A} `{OnDisk T} (Q : T -> Prop) (get : S -> T) set (m : M T A) :
  (forall s, P s -> Q (get s)) -> (forall s t, P s -> Q t -> P (set t s)) ->
  (forall s, disk (get s) = disk s) -> (forall s t, disk (set t s) = disk t) ->
  (forall s, get (hushed s) = hushed (get s)) ->
  (forall s t, set (hushed t) (hushed s) = hushed (set t s)) ->
  careful Q ps m -> careful P ps (zoom get set m).
Proof.
  intros Hq Hp Hg Hs Eg Es Hm s HPs. destruct (Hm (get s) (Hq s HPs)) as (Hr & Hq' & Hf).
  unfold zoom. rewrite Eg. destruct (m (get s)) as [r t]. cbn [fst snd] in *.
  rewrite Hg in Hf. rewrite Hs. split; [|split; [by apply Hp | done]].
  destruct Hr as [Hr | ->]; [by left | right]. by rewrite Es.
Qed.

Lemma careful_local {L A} (Q : L * S -> Prop) (l : L) (m : M (L * S) A) :
  (forall s, P s -> Q (l, s)) -> (forall s, Q s -> P s.2) ->
  careful Q ps m -> careful P ps (with_local l m).
Proof.
  intros Hq Hp Hm s Hs. destruct (Hm (l, s) (Hq s Hs)) as (Hr & Hq' & Hf). unfold with_local.
  change (l, hushed s) with (hushed (l, s)). destruct (m (l, s)) as [r [l' s']]. cbn [fst snd] in *.
  split; [|split; [exact (Hp _ Hq') | exact Hf]].
  destruct Hr as [Hr | ->]; [by left | by right].
Qed.

(** Another way to write the same. *)
Lemma careful_same {A} (m m' : M S A) :
  (forall s, P s -> m s = m' s /\ m (hushed s) = m' (hushed s)) -> careful P ps m' -> careful P ps m.
Proof. intros E Hm s Hs. destruct (E s Hs) as [-> ->]. by apply Hm. Qed.

(** The invariant may depend on the state that the run starts from. *)
Lemma careful_each {A} (m : M S A) :
  (forall s, P s -> exists Q, Q s /\ careful Q ps m /\ (forall s', Q s' -> P s')) -> careful P ps m.
Proof.
  intros Hm s Hs. destruct (Hm s Hs) as (Q & Hq & HQ & HP). destruct (HQ s Hq) as (Hr & Hq' & Hf).
  split; [exact Hr|]. split; [by apply HP | exact Hf].
Qed.

(** A local object that is returned. *)
Lemma careful_local_result {L A} (Q : L * S -> Prop) (l : L) (m : M (L * S) A) s a s' :
  careful Q ps m -> Q (l, s) -> with_local l (_ ← m; s ← get_state; mret s.1) s = (Ok a, s') -> Q (a, s').
Proof.
  intros Hm Hl E. destruct (Hm _ Hl) as (_ & Hq & _). unfold with_local, mbind, M_bind in E.
  destruct (m (l, s)) as [[x|e|] [l1 s1]]; cbn in E; [|discriminate..].
  by injection E as <- <-.
Qed.

Lemma careful_weaken {A} ps' (m : M S A) : ps ⊆ ps' -> careful P ps m -> careful P ps' m.
Proof.
  intros Hsub Hm s Hs. destruct (Hm s Hs) as (Hr & Hp & Hf). split; [done|]. split; [done|].
  by eapply only_files_weaken.
Qed.
End rules.

(** ** The operations of the environment *)

(** The invariant may say something of the files, but not of the oracle. *)
Definition oracle_blind (P : Fs -> Prop) : Prop := forall fs fs', hush fs' = hush fs -> P fs -> P fs'.

Lemma anything_blind : oracle_blind anything.
Proof. done. Qed.
#[export] Hint Resolve anything_blind : core.

Section operations.
Context (ps : list string).

Lemma careful_fallible {A} P (m : M Fs A) :
  oracle_blind P -> (forall fs, m (hush fs) = ((m fs).1, hush (m fs).2)) -> (forall fs, P fs -> P (m fs).2) ->
  (forall fs, only_files ps fs (m fs).2) -> careful P ps (fallible m).
Proof.
  intros HP E Hm Hf fs Hfs. destruct (fallible_inv m fs) as (fs1 & Hf1 & Hd1 & Hr).
  assert (hush fs1 = hush fs) as Eh by (unfold hush; by rewrite Hf1, Hd1).
  cbn [disk hushed fs_on_disk]. rewrite (fallible_ok m (hush fs)) by done. rewrite <- Eh.
  destruct Hr as [-> | ->]; cbn [fst snd].
  - split; [by left|]. split; [by eapply HP|]. intros p _. by rewrite Hf1.
  - split; [right; apply E|]. split; [apply Hm; by eapply HP|]. intros p Hp. by rewrite (Hf fs1 p Hp), Hf1.
Qed.

Lemma careful_open_readable P path : oracle_blind P -> careful P ps (open_readable path).
Proof.
  intros HP. apply careful_fallible; [done | intros fs | intros fs Hfs | intros fs p _]; cbn [hush fs_files];
    by destruct (fs_files fs !! path).
Qed.

Lemma careful_metadata_len path : careful anything ps (metadata_len path).
Proof.
  apply careful_fallible; [done | intros fs | done | intros fs p _]; cbn [hush fs_files];
    by destruct (fs_files fs !! path).
Qed.

Lemma careful_rename from to : from ∈ ps -> to ∈ ps -> careful anything ps (rename from to).
Proof.
  intros Hfrom Hto. apply careful_fallible; [done | intros fs | done | intros fs]; cbn [hush fs_files].
  - by destruct (fs_files fs !! from).
  - intros p Hp. destruct (fs_files fs !! from); [|done]. cbn [snd set_files fs_files].
    rewrite lookup_insert_ne, lookup_delete_ne; [done | by intros -> ..].
Qed.

Lemma careful_open_writable path options : path ∈ ps -> careful anything ps (open_writable path options).
Proof.
  intros Hin. apply careful_fallible; [done | intros fs | done | intros fs]; cbn [hush fs_files].
  - destruct (fs_files fs !! path); [by destruct (wo_truncate options) | by destruct (wo_create options)].
  - intros p Hp. assert (path <> p) as Hne by (by intros ->).
    destruct (fs_files fs !! path); [destruct (wo_truncate options) | destruct (wo_create options)];
      try done; cbn [snd set_files fs_files]; by rewrite lookup_insert_ne.
Qed.

(** Reading from a file. *)
Lemma careful_event {L A} (P : L * Fs -> Prop) (done_ : L * Fs -> res A * (L * Fs)) (m : M (L * Fs) A) :
  (forall l, oracle_blind (fun fs => P (l, fs))) ->
  (forall s, m s = match next_event s.2 with
    | (Ok (IoFail _), fs) => (Err (Io OtherIo), (s.1, fs))
    | (_, fs) => done_ (s.1, fs)
    end) ->
  (forall l fs, done_ (l, hush fs) = ((done_ (l, fs)).1, hushed (done_ (l, fs)).2)) ->
  (forall s, P s -> P (done_ s).2) -> (forall l fs, (done_ (l, fs)).2.2 = fs) -> careful P ps m.
Proof.
  intros HP Em E Hdone Ed [l fs] Hs. cbn [fst snd] in *.
  pose proof (next_event_files fs) as Hfiles.
  assert (hush (next_event fs).2 = hush fs) as Hh
    by (unfold hush, next_event; by destruct (fs_oracle fs)).
  assert (m (hushed (l, fs)) = done_ (l, hush fs)) as Eq by by rewrite Em.
  rewrite Eq, Em. cbn [fst snd].
  destruct (next_event fs) as [r fs1]. cbn [snd] in *. rewrite <- Hh.
  assert (only_files ps fs fs1) as Hf by (intros p _; by rewrite Hfiles).
  assert (P (l, fs1)) as Hs1 by by eapply (HP l fs).
  destruct r as [[|n|n]|x|];
    (split; [first [by left | right; apply E] | split; [first [done | by apply Hdone]|]]);
    cbn [disk local_on_disk fs_on_disk fst snd]; rewrite ?Ed; exact Hf.
Qed.
End operations.

(** ** Tables *)

Section tables.
Context `{X : Externals} `{H : HashOrder} `{N : NumberHashOrder}.

(** Methods of an open file: an invariant that depends on its bytes and on
    the other files is kept. *)
Section open_file.
Context (P : ReadableFile * Fs -> Prop) (ps : list string).
Hypothesis file_blind : forall f f' fs fs',
  rf_data f' = rf_data f -> hush fs' = hush fs -> P (f, fs) -> P (f', fs').

Lemma careful_rf_read_exact n : careful P ps (rf_read_exact n).
Proof.
  apply (careful_event ps P (fun s : ReadableFile * Fs =>
    if len (rf_rest s.1) <? n
    then (Err (Io UnexpectedEof), (advance s.1 (len (rf_rest s.1)), s.2))
    else (Ok (take (Z.to_nat n) (rf_rest s.1)), (advance s.1 n, s.2)))).
  - intros f fs fs' Hh. by apply file_blind.
  - by intros [f fs].
  - intros f fs. cbn [fst snd]. by destruct (_ <? _).
  - intros [f fs] Hs. cbn [fst snd]. destruct (_ <? _); by apply (file_blind f _ fs).
  - intros f fs. cbn [fst snd]. by destruct (_ <? _).
Qed.

Lemma careful_rf_seek pos : careful P ps (rf_seek pos).
Proof.
  apply (careful_event ps P (fun s : ReadableFile * Fs =>
    (Ok tt, (mkReadableFile (rf_data s.1) pos, s.2)))); try done.
  - intros f fs fs' Hh. by apply file_blind.
  - by intros [f fs].
  - intros [f fs] Hs. by apply (file_blind f _ fs).
Qed.

Lemma careful_rf_len : careful P ps rf_len.
Proof.
  apply (careful_event ps P (fun s : ReadableFile * Fs => (Ok (len (rf_data s.1)), s))); try done.
  - intros f fs fs' Hh. by apply file_blind.
  - by intros [f fs].
Qed.

Lemma careful_vec_zeroed n : careful P ps (vec_zeroed n).
Proof. unfold vec_zeroed. destruct (_ <? _); [apply careful_panic | apply careful_ret]. Qed.

Lemma careful_read_block handle : careful P ps (read_block handle).
Proof.
  apply careful_bind; [apply careful_rf_seek|]. intros _.
  apply careful_bind; [apply careful_vec_zeroed|]. intros _.
  apply careful_bind; [apply careful_rf_read_exact|]. intros block.
  apply careful_bind; [apply careful_rf_read_exact|]. intros trailer.
  apply careful_bind; [apply careful_lift|]. intros c. cbv zeta.
  destruct (negb _); [apply careful_fail|].
  destruct c; [apply careful_ret | apply careful_lift].
Qed.
End open_file.

Lemma careful_sst_open ps path : careful anything ps (sst_open_with_env path).
Proof.
  apply careful_bind; [by apply careful_open_readable|]. intros file.
  apply (careful_local _ _ anything); [done | done |].
  apply careful_bind; [by apply careful_rf_len|]. intros n.
  destruct (_ <? _); [apply careful_fail|].
  apply careful_bind; [by apply careful_rf_seek|]. intros _.
  apply careful_bind; [by apply careful_rf_read_exact|]. intros footer.
  apply careful_bind; [apply careful_lift|]. intros handles.
  apply careful_bind; [by apply careful_read_block|]. intros props.
  apply careful_bind; [apply careful_lift|]. intros properties.
  apply careful_bind; [by apply careful_read_block|]. intros index_block.
  apply careful_bind; [apply careful_lift|]. intros index. apply careful_ret.
Qed.

Lemma careful_on_cache {A} ps (m : BlockCache -> A * BlockCache) : careful anything ps (on_cache m).
Proof.
  apply careful_pure; try done; intros [f [fs c]]; unfold on_cache; cbn [rw_cache fst snd hushed
    local_on_disk rw_on_disk rw_fs]; by destruct (m c).
Qed.

Lemma careful_read_decoded_block ps index number use fill :
  careful anything ps (read_decoded_block index number use fill).
Proof.
  apply careful_bind; [destruct (fill && use); [apply careful_on_cache | apply careful_ret]|].
  intros [block|]; [apply careful_ret|].
  apply careful_bind; [by apply (careful_zoom _ _ anything); [..|by apply careful_read_block]|].
  intros bs. apply careful_bind; [apply careful_lift|]. intros block.
  apply careful_bind; [|intros _; apply careful_ret].
  destruct (fill && use); [apply careful_on_cache | apply careful_ret].
Qed.

Lemma careful_file_meta ps number size reader : careful anything ps (file_meta_from_table number size reader).
Proof.
  apply careful_bind.
  - apply careful_bind; [by apply (careful_zoom _ _ anything); [..|by apply careful_open_readable]|].
    intros file. apply (careful_local _ _ anything); [done | done |].
    apply careful_for_each. intros index es _.
    apply careful_bind; [apply careful_read_decoded_block | intros block; apply careful_ret].
  - intros es. destruct (sequence_range es) as [[lo hi]|]; [|apply careful_fail].
    destruct (smallest_key reader); [|apply careful_fail].
    destruct (largest_key reader); [apply careful_ret | apply careful_fail].
Qed.

Lemma careful_get_or_open ps number path : careful anything ps (get_or_open number path).
Proof.
  intros [tc fs] Hany. unfold get_or_open. cbn [fst snd hushed local_on_disk].
  destruct (tc_tables tc !! number) as [r|]; [by split; [right|]|].
  destruct (careful_sst_open ps path fs I) as (Hr & _ & Hf). cbn [hushed fs_on_disk] in *.
  destruct (sst_open_with_env path fs) as [[r|e|] fs1]; cbn [fst snd] in *;
    (split; [|by split]); cbn [fst snd].
  - destruct Hr as [Hr | ->]; [done | by right].
  - destruct Hr as [[= ->] | ->]; [by left | by right].
  - destruct Hr as [Hr | ->]; [done | by right].
Qed.

(** The builder writes to its file only. *)
Section builder.
Context (path : string) (ps : list string) (Hin : path ∈ ps).

Definition builds (s : SSTableBuilder * Fs) : Prop := wf_path (sb_file s.1) = path.

Lemma careful_write_all bs : careful (fun s : WritableFile * Fs => wf_path s.1 = path) ps (write_all bs).
Proof.
  intros [f fs] Hp. cbn [fst] in Hp. unfold write_all. cbn [fst snd hushed local_on_disk fs_on_disk].
  pose proof (next_event_files fs) as Hfiles.
  assert (hush (next_event fs).2 = hush fs) as Hh
    by (unfold hush, next_event; by destruct (fs_oracle fs)).
  destruct (next_event fs) as [r fs1]. cbn [snd] in *.
  assert (next_event (hush fs) = (Ok IoDone, hush fs)) as -> by done.
  assert (forall b, only_files ps fs (do_write b (f, fs1)).2) as Hf.
  { intros b. eapply (only_files_insert path); [exact Hin|]. cbn. by rewrite Hfiles, Hp. }
  assert (forall b, do_write b (f, hush fs) = hushed (do_write b (f, fs1))) as Ew.
  { intros b. rewrite <- Hh. reflexivity. }
  destruct r as [[|n|n]|x|]; (split; [first [by left | right; by rewrite Ew]|]); split; try exact Hp; apply Hf.
Qed.

Lemma careful_sync_all : careful (fun s : WritableFile * Fs => wf_path s.1 = path) ps sync_all.
Proof.
  apply (careful_zoom _ _ anything); try done. by apply careful_fallible.
Qed.

Lemma careful_on_sb {A} (m : M (WritableFile * Fs) A) :
  careful (fun s : WritableFile * Fs => wf_path s.1 = path) ps m -> careful builds ps (on_sb m).
Proof. intros Hm. by eapply careful_zoom; [..|exact Hm]. Qed.

Lemma careful_modify_sb f :
  (forall b, sb_file (f b) = sb_file b) -> careful builds ps (modify_sb f).
Proof. intros Hf. apply careful_pure; try done. intros [b fs] Hb. unfold builds. cbn. by rewrite Hf. Qed.

Lemma careful_write_block block : careful builds ps (write_block block).
Proof.
  apply careful_get; [|done]. intros s _. cbv zeta.
  apply careful_bind; [apply careful_lift|]. intros b.
  apply careful_bind; [apply careful_on_sb, careful_write_all|]. intros _.
  apply careful_bind; [apply careful_on_sb, careful_write_all|]. intros _.
  apply careful_bind; [apply careful_on_sb, careful_write_all|]. intros _.
  apply careful_bind; [by apply careful_modify_sb|]. intros _. apply careful_ret.
Qed.

Lemma careful_flush_block : careful builds ps flush_current_block.
Proof.
  apply careful_get; [|done]. intros s _. cbv zeta.
  destruct (block_is_empty _); [apply careful_ret|].
  destruct (sb_current_block_first_key s.1), (sb_largest_key s.1); try apply careful_panic.
  apply careful_bind; [by apply careful_modify_sb|]. intros _.
  apply careful_bind; [apply careful_write_block|]. intros handle. by apply careful_modify_sb.
Qed.

Lemma careful_sst_add key value : careful builds ps (sst_add key value).
Proof.
  apply careful_bind; [by apply careful_modify_sb|]. intros _.
  apply careful_get; [|done]. intros s _. cbv zeta.
  destruct (_ <=? _); [apply careful_flush_block | apply careful_ret].
Qed.

Lemma careful_sst_finish : careful builds ps sst_finish.
Proof.
  apply careful_bind; [apply careful_flush_block|]. intros _.
  apply careful_get; [|done]. intros s _. cbv zeta.
  apply careful_bind; [apply careful_write_block|]. intros hp.
  apply careful_get; [|done]. intros s' _. cbv zeta.
  apply careful_bind; [apply careful_write_block|]. intros hi.
  apply careful_bind; [apply careful_on_sb, careful_write_all|]. intros _.
  apply careful_bind; [by apply careful_modify_sb|]. intros _. apply careful_on_sb, careful_sync_all.
Qed.

Lemma open_writable_path options fs f fs' :
  open_writable path options fs = (Ok f, fs') -> wf_path f = path.
Proof.
  unfold open_writable. destruct (fallible_inv (fun fs => match fs_files fs !! path with
    | None => if wo_create options
        then (Ok (mkWritableFile path (wo_append options) 0), set_files (<[path := []]>) fs)
        else (Err (Io NotFound), fs)
    | Some _ => (Ok (mkWritableFile path (wo_append options) 0),
         if wo_truncate options then set_files (<[path := []]>) fs else fs)
    end) fs) as (fs1 & _ & _ & [-> | ->]); [done|].
  destruct (fs_files fs1 !! path); [by intros [= <-]|]. destruct (wo_create options); by intros [= <-].
Qed.

Lemma careful_build_table size comp es : careful anything ps (build_table path size comp es).
Proof.
  apply (careful_bind_post _ _ (fun b => wf_path (sb_file b) = path)).
  - apply careful_bind; [by apply careful_open_writable | intros f; apply careful_ret].
  - intros fs b fs' _ E. apply bind_inv in E as (f & fs1 & E & [= <- _]). by eapply open_writable_path.
  - intros b Hb. apply (careful_local _ _ builds); [done | done |].
    apply careful_bind; [apply careful_for_each; intros e [] _; apply careful_sst_add|].
    intros _. apply careful_sst_finish.
Qed.
End builder.
End tables.

(** ** The table of a flush *)

Section l0_table.
Context `{X : Externals} `{H : HashOrder} `{N : NumberHashOrder} `{SM : arena_skip_map}.

(** What the writing of a table leaves as it was. *)
Definition same_base (d d' : Db SM) : Prop :=
  db_path d' = db_path d /\ db_options d' = db_options d /\ db_state d' = db_state d /\
  db_versions d' = db_versions d /\ db_wal d' = db_wal d /\ db_snapshots d' = db_snapshots d.

Lemma careful_on_env {A} d0 ps (m : M Fs A) : careful anything ps m -> careful (same_base d0) ps (on_env m).
Proof. intros Hm. by apply (careful_zoom _ _ anything). Qed.

Lemma careful_write_l0_table d0 (m : MemTable SM) n :
  careful (same_base d0) [table_path d0 n; table_tmp_path d0 n] (write_l0_table m n).
Proof.
  apply careful_get; [|done]. intros d (Hp & Ho & _). cbv zeta.
  assert (table_path d n = table_path d0 n) as -> by (unfold table_path; by rewrite Hp).
  assert (table_tmp_path d n = table_tmp_path d0 n) as -> by (unfold table_tmp_path; by rewrite Hp).
  destruct (env_exists _ _); [apply careful_fail|].
  apply careful_bind; [apply careful_on_env, careful_build_table; right; by left|]. intros _.
  apply careful_bind; [apply careful_on_env, careful_rename; [right; by left | by left]|]. intros _.
  apply careful_bind; [apply careful_on_env, careful_metadata_len|]. intros size.
  apply careful_bind; [by apply careful_pure|]. intros _.
  apply careful_bind; [by apply (careful_zoom _ _ anything); [..|apply careful_get_or_open]|]. intros reader.
  apply careful_bind; [by apply (careful_zoom _ _ anything); [..|apply careful_file_meta]|]. intros meta.
  apply careful_ret.
Qed.
End l0_table.
