(* ===== verification/DbSession.v ===== *)
(** * Sessions

    An abstract model of the store: a map from keys to values, the maps its
    snapshots have seen, and for each transaction the map it began with, what it
    buffered, what it read and what others changed since.  The calls of a client
    on an open database are answered by [serve]; [request_ok] says what each call
    needs. *)

From Stdlib Require Import Sorting.Sorted.
From stdpp Require Import base list gmap strings sorting.
From S2P Require Import Prelude Key Spec Memtable Coding Batch Env Externals Wal Block Cache.
From S2P Require Import Format Properties Table Reader TableCache Version Options Metrics.
From S2P Require Import Compact Mvcc DbState DbRead DbMem DbFlush DbInv DbFlushOk DbCompact.
From S2P Require Import DbWrite DbSettled DbCompactOk DbCompactRun DbGroup DbWriteOk DbCommitOk.
From S2P Require Import DbOpen DbCrash.

(** ** The model *)

Inductive request : Type :=
  | Write (batch : WriteBatch) (opts : WriteOptions)
  | Put (key value : bytes)
  | Delete (key : bytes)
  | Get (key : bytes)
  | GetAt (i : nat) (key : bytes)
  | Scan (lower upper : Bound)
  | ScanAt (i : nat) (lower upper : Bound)
  | TakeSnapshot
  | DropSnapshot (i : nat)
  | TxBegin (opts : TransactionOptions)
  | TxGet (i : nat) (key : bytes)
  | TxScan (i : nat) (lower upper : Bound)
  | TxPut (i : nat) (key value : bytes)
  | TxDelete (i : nat) (key : bytes)
  | TxCommit (i : nat)
  | TxRollback (i : nat)
  | Flush
  | CompactRange (lower upper : Bound)
  | Reopen (options : Options) (now : instant).

Inductive response : Type :=
  | Done
  | Value (value : option bytes)
  | Rows (rows : list (bytes * bytes))
  | Failed (err : error).

(** What a transaction began with, buffered and read, and the keys that others
    wrote since it began. *)
Record TxModel : Type := mkTxModel {
  tm_view : view;
  tm_writes : list BatchRecord;
  tm_keys : list bytes;
  tm_ranges : list ReadRange;
  tm_read_only : bool;
  tm_changed : list bytes
}.

Definition tm_begin (v : view) (read_only : bool) : TxModel := mkTxModel v [] [] [] read_only [].

(** A key that the transaction wrote itself is not read from the store. *)
Definition tm_get (key : bytes) (t : TxModel) : TxModel :=
  if bool_decide (key ∈ map record_key (tm_writes t)) then t
  else mkTxModel (tm_view t) (tm_writes t) (key :: tm_keys t) (tm_ranges t) (tm_read_only t) (tm_changed t).
Definition tm_scan (lower upper : Bound) (t : TxModel) : TxModel :=
  mkTxModel (tm_view t) (tm_writes t) (tm_keys t) (tm_ranges t ++ [(lower, upper)]) (tm_read_only t)
    (tm_changed t).
Definition tm_write (record : BatchRecord) (t : TxModel) : TxModel :=
  mkTxModel (tm_view t) (tm_writes t ++ [record]) (tm_keys t) (tm_ranges t) (tm_read_only t) (tm_changed t).
Definition tm_disturb (rs : list BatchRecord) (t : TxModel) : TxModel :=
  mkTxModel (tm_view t) (tm_writes t) (tm_keys t) (tm_ranges t) (tm_read_only t)
    (map record_key rs ++ tm_changed t).

Definition tm_sees (t : TxModel) : view := view_after (tm_writes t) (tm_view t).

(** Nobody wrote what the transaction read or is to write. *)
Definition tm_serializable (t : TxModel) : Prop :=
  undisturbed (tm_keys t ++ map record_key (tm_writes t)) (tm_ranges t) (fun key => key ∈ tm_changed t).

(** What the store holds now, what each live snapshot sees, and the
    transactions. *)
Record Model : Type := mkModel {
  mo_view : view;
  mo_snapshots : list view;
  mo_txs : list TxModel
}.

Definition model_write (rs : list BatchRecord) (m : Model) : Model :=
  mkModel (view_after rs (mo_view m)) (mo_snapshots m) (map (tm_disturb rs) (mo_txs m)).
Definition model_with_txs (ts : list TxModel) (m : Model) : Model :=
  mkModel (mo_view m) (mo_snapshots m) ts.
Definition model_with_snapshots (ss : list view) (m : Model) : Model := mkModel (mo_view m) ss (mo_txs m).

(** Transactions are serial at their commit: one that nobody disturbed takes
    effect as a write of now, any other one has no effect. *)
Inductive model_step : request -> Model -> response -> Model -> Prop :=
  | ms_write batch opts m : model_step (Write batch opts) m Done (model_write (records batch) m)
  | ms_put key value m : model_step (Put key value) m Done (model_write [BPut key value] m)
  | ms_delete key m : model_step (Delete key) m Done (model_write [BDelete key] m)
  | ms_get key m : model_step (Get key) m (Value (mo_view m key)) m
  | ms_get_at i key m w :
      mo_snapshots m !! i = Some w -> model_step (GetAt i key) m (Value (w key)) m
  | ms_scan lower upper m rows :
      view_rows lower upper (mo_view m) rows -> model_step (Scan lower upper) m (Rows rows) m
  | ms_scan_at i lower upper m w rows :
      mo_snapshots m !! i = Some w -> view_rows lower upper w rows ->
      model_step (ScanAt i lower upper) m (Rows rows) m
  | ms_take m : model_step TakeSnapshot m Done (model_with_snapshots (mo_snapshots m ++ [mo_view m]) m)
  | ms_drop i m : model_step (DropSnapshot i) m Done (model_with_snapshots (delete i (mo_snapshots m)) m)
  | ms_begin opts m :
      model_step (TxBegin opts) m Done
        (model_with_txs (mo_txs m ++ [tm_begin (mo_view m) (read_only opts)]) m)
  | ms_tx_get i key m t :
      mo_txs m !! i = Some t ->
      model_step (TxGet i key) m (Value (tm_sees t key)) (model_with_txs (<[i := tm_get key t]> (mo_txs m)) m)
  | ms_tx_scan i lower upper m t rows :
      mo_txs m !! i = Some t -> view_rows lower upper (tm_sees t) rows ->
      model_step (TxScan i lower upper) m (Rows rows)
        (model_with_txs (<[i := tm_scan lower upper t]> (mo_txs m)) m)
  | ms_tx_put i key value m t :
      mo_txs m !! i = Some t -> tm_read_only t = false ->
      model_step (TxPut i key value) m Done
        (model_with_txs (<[i := tm_write (BPut key value) t]> (mo_txs m)) m)
  | ms_tx_delete i key m t :
      mo_txs m !! i = Some t -> tm_read_only t = false ->
      model_step (TxDelete i key) m Done (model_with_txs (<[i := tm_write (BDelete key) t]> (mo_txs m)) m)
  | ms_tx_put_refused i key value m t e :
      mo_txs m !! i = Some t -> tm_read_only t = true -> e = InvalidArgument "read-only transaction cannot write" ->
      model_step (TxPut i key value) m (Failed e) m
  | ms_tx_delete_refused i key m t e :
      mo_txs m !! i = Some t -> tm_read_only t = true -> e = InvalidArgument "read-only transaction cannot write" ->
      model_step (TxDelete i key) m (Failed e) m
  | ms_tx_commit i m t :
      mo_txs m !! i = Some t -> tm_serializable t ->
      model_step (TxCommit i) m Done
        (model_write (tm_writes t) (model_with_txs (delete i (mo_txs m)) m))
  | ms_tx_conflict i m t message :
      mo_txs m !! i = Some t -> ~ tm_serializable t ->
      model_step (TxCommit i) m (Failed (TransactionConflict message)) (model_with_txs (delete i (mo_txs m)) m)
  | ms_tx_rollback i m : model_step (TxRollback i) m Done (model_with_txs (delete i (mo_txs m)) m)
  | ms_flush m : model_step Flush m Done m
  | ms_compact lower upper m : model_step (CompactRange lower upper) m Done m
  | ms_reopen options now m : model_step (Reopen options now) m Done (mkModel (mo_view m) [] []).

Inductive model_run : list request -> Model -> list response -> Model -> Prop :=
  | mr_nil m : model_run [] m [] m
  | mr_cons r rs m x m' xs m'' :
      model_step r m x m' -> model_run rs m' xs m'' -> model_run (r :: rs) m (x :: xs) m''.

Definition empty_model : Model := mkModel (fun _ => None) [] [].

Section session.
Context `{X : Externals} `{HX : !ExternalsOk X} `{H : HashOrder} `{N : NumberHashOrder}
  `{SM : arena_skip_map} `{!SkipMapOk SM} `{O : OsMessages}.

(** ** The calls *)

(** A database and the snapshots and transactions its clients hold. *)
Record Session : Type := mkSession {
  se_db : Db SM;
  se_snapshots : list Snapshot;
  se_txs : list Transaction
}.

Definition with_se_db (d : Db SM) (s : Session) : Session := mkSession d (se_snapshots s) (se_txs s).
Definition with_snaps (snaps : list Snapshot) (s : Session) : Session := mkSession (se_db s) snaps (se_txs s).
Definition with_txs (txs : list Transaction) (s : Session) : Session :=
  mkSession (se_db s) (se_snapshots s) txs.

Definition on_db {A} (m : M (Db SM) A) : M Session A := zoom se_db with_se_db m.

Definition options_at (s : Snapshot) : ReadOptions :=
  mkReadOptions (verify_checksums default_read_options) (fill_cache default_read_options)
    (total_order_seek default_read_options) (Some s).

(** A call on the [i]-th snapshot or transaction. *)
Definition at_snapshot (i : nat) (f : Snapshot -> M Session response) : M Session response := fun s =>
  match se_snapshots s !! i with Some snap => f snap s | None => (Panic, s) end.
Definition at_tx (i : nat) (f : Transaction -> M Session response) : M Session response := fun s =>
  match se_txs s !! i with Some t => f t s | None => (Panic, s) end.

(** A method of the transaction. *)
Definition on_tx {A} (i : nat) (m : M (Transaction * Db SM) A) (f : A -> response) : M Session response :=
  at_tx i (fun t s =>
    let '(r, (t', d)) := m (t, se_db s) in (fmap f r, with_txs (<[i := t']> (se_txs s)) (with_se_db d s))).

(** A method that consumes it. *)
Definition end_tx (i : nat) (m : Transaction -> M (Db SM) unit) : M Session response :=
  at_tx i (fun t s =>
    let '(r, d) := m t (se_db s) in
    (fmap (fun _ => Done) r, with_txs (delete i (se_txs s)) (with_se_db d s))).

(** A call whose error the client takes as its answer. *)
Definition attempt (m : M Session response) : M Session response := fun s =>
  match m s with (Err e, s') => (Ok (Failed e), s') | x => x end.

(** One call.  [Reopen] drops the database and every handle on it. *)
Definition serve (r : request) : M Session response :=
  match r with
  | Write batch opts => _ ← on_db (db_write batch opts); mret Done
  | Put key value => _ ← on_db (db_put key value); mret Done
  | Delete key => _ ← on_db (db_delete key); mret Done
  | Get key => x ← on_db (db_get key); mret (Value x)
  | GetAt i key => at_snapshot i (fun snap => x ← on_db (get_opt key (options_at snap)); mret (Value x))
  | Scan lower upper => rows ← on_db (db_scan lower upper); mret (Rows rows)
  | ScanAt i lower upper =>
      at_snapshot i (fun snap => rows ← on_db (scan_opt lower upper (options_at snap)); mret (Rows rows))
  | TakeSnapshot =>
      snap ← on_db db_snapshot; _ ← modify (fun s => with_snaps (se_snapshots s ++ [snap]) s); mret Done
  | DropSnapshot i => at_snapshot i (fun snap s =>
      (Ok Done, with_snaps (delete i (se_snapshots s))
        (with_se_db (set_snapshots (snapshot_drop snap (db_snapshots (se_db s))) (se_db s)) s)))
  | TxBegin opts =>
      t ← on_db (db_transaction opts); _ ← modify (fun s => with_txs (se_txs s ++ [t]) s); mret Done
  | TxGet i key => on_tx i (tx_get key) Value
  | TxScan i lower upper => on_tx i (tx_scan lower upper) Rows
  | TxPut i key value => attempt (on_tx i (tx_put key value) (fun _ => Done))
  | TxDelete i key => attempt (on_tx i (tx_delete key) (fun _ => Done))
  | TxCommit i => attempt (end_tx i commit)
  | TxRollback i => attempt (end_tx i rollback)
  | Flush => _ ← on_db flush; mret Done
  | CompactRange lower upper => _ ← on_db (compact_range lower upper); mret Done
  | Reopen options now => fun s =>
      match (open_db (db_path (se_db s)) options now (db_fs (se_db s))).1 with
      | Ok d => (Ok Done, mkSession d [] [])
      | Err e => (Err e, s)
      | Panic => (Panic, s)
      end
  end.

Fixpoint serve_all (rs : list request) : M Session (list response) :=
  match rs with
  | [] => mret []
  | r :: rs => x ← serve r; xs ← serve_all rs; mret (x :: xs)
  end.

(** ** What a call needs *)

Definition write_ok (batch : WriteBatch) (opts : WriteOptions) (d : Db SM) : Prop :=
  batch_is_empty batch = true \/
  write_guard batch d /\ batch_loggable batch /\ wo_disable_wal opts = false.

(** The handles on the watermark. *)
Definition handles_of (s : Session) : list Snapshot := se_snapshots s ++ map tx_snapshot (se_txs s).

(** A transaction commits like a write. *)
Definition commit_guard (i : nat) (s : Session) : Prop :=
  forall t, se_txs s !! i = Some t -> write_guard (tx_writes t) (se_db s) /\ batch_loggable (tx_writes t).

(** The calls that write need room, those that take a handle a count of handles
    that fits; a database is opened again with options that fit its files. *)
Definition request_ok (r : request) (s : Session) : Prop :=
  let d := se_db s in
  match r with
  | Write batch opts => write_ok batch opts d
  | Put key value => write_ok (mkWriteBatch [BPut key value]) default_write_options d
  | Delete key => write_ok (mkWriteBatch [BDelete key]) default_write_options d
  | GetAt i _ | ScanAt i _ _ | DropSnapshot i => (i < length (se_snapshots s))%nat
  | Get _ | Scan _ _ => True
  | TakeSnapshot | TxBegin _ => len (handles_of s) < u64_max
  | TxGet i _ | TxScan i _ _ => (i < length (se_txs s))%nat /\ len (handles_of s) < u64_max
  | TxPut i _ _ | TxDelete i _ | TxRollback i => (i < length (se_txs s))%nat
  | TxCommit i => (i < length (se_txs s))%nat /\ commit_guard i s
  | Flush => vs_next_file_number (db_versions d) < 2 ^ 62 /\
      table_bounded (db_options d) (mt_entries (st_mutable (db_state d)))
  | CompactRange lower upper => range_fits lower upper d
  | Reopen options _ => reopen_options d options /\ wal_enabled options = true /\
      st_last_sequence (db_state d) + 1 < 2 ^ 64
  end.

Fixpoint session_ok (rs : list request) (s : Session) : Prop :=
  match rs with
  | [] => True
  | r :: rs => request_ok r s /\ session_ok rs (serve r s).2
  end.
End session.
