(* ===== verification/DbSessionOk.v ===== *)
(** * Sessions refine the model

    Every call of a session on an open database is answered the way the model of
    [DbSession.v] answers it: writes, reads, scans, snapshots, transactions,
    flushes, compactions, and closing the database and opening it again on its
    files. *)

From Stdlib Require Import Sorting.Sorted.
From stdpp Require Import base list gmap strings sorting.
From S2P Require Import Prelude Key Spec Memtable Coding Batch Env Externals Wal Block Cache.
From S2P Require Import Format Properties Table Reader TableCache Version Options Metrics.
From S2P Require Import Compact Mvcc DbState DbRead DbMem DbFlush DbInv DbFlushOk DbCompact.
From S2P Require Import DbWrite DbSettled DbCompactOk DbCompactRun DbGroup DbWriteOk DbCommitOk.
From S2P Require Import DbOpen DbCrash DbSession.

(** ** The model *)

Lemma tm_disturb_nil ts : map (tm_disturb []) ts = ts.
Proof. rewrite <- (map_id ts) at 2. apply map_ext. intros []. reflexivity. Qed.

Lemma model_write_nil m : model_write [] m = m.
Proof. unfold model_write. rewrite tm_disturb_nil. by destruct m. Qed.

Lemma find_record_none key rs : find_record key rs = None <-> key ∉ map record_key rs.
Proof.
  induction rs as [|r rs IH]; [split; [intros _; apply not_elem_of_nil | done]|].
  cbn [map]. rewrite elem_of_cons.
  destruct r as [k v|k]; cbn [find_record record_key]; case_bool_decide as E.
  all: first [subst k; split; [done | intros Hn; destruct Hn; by left]
    | rewrite IH; split; [intros Hn [-> | ?]; done | tauto]].
Qed.

Lemma local_value_none t key : local_value t key = None <-> key ∉ map record_key (records (tx_writes t)).
Proof. unfold local_value. by rewrite find_record_none, <- Permutation_rev. Qed.

Section session.
Context `{X : Externals} `{HX : !ExternalsOk X} `{H : HashOrder} `{N : NumberHashOrder}
  `{SM : arena_skip_map} `{!SkipMapOk SM} `{O : OsMessages}.

(** ** What the database represents *)

Definition sees (l0 : list (list entry)) (levels : list (list (list entry))) (st : DBState SM)
    (s : Snapshot) (w : view) : Prop :=
  read_seq s <= st_last_sequence st /\
  forall key, live key (read_seq s) (contents st l0 levels) = w key.

(** A transaction that runs. *)
Record runs_as (l0 : list (list entry)) (levels : list (list (list entry))) (st : DBState SM)
    (t : Transaction) (tm : TxModel) : Prop := mkRunsAs {
  ra_open : tx_closed t = false;
  ra_seq : tx_read_seq t = read_seq (tx_snapshot t);
  ra_sees : sees l0 levels st (tx_snapshot t) (tm_view tm);
  ra_writes : records (tx_writes t) = tm_writes tm;
  ra_sorted : StronglySorted (key_lt bytes_cmp) (tx_read_keys t);
  ra_keys : forall key, key ∈ (tx_read_keys t).*1 <-> key ∈ tm_keys tm;
  ra_ranges : tx_read_ranges t = tm_ranges tm;
  ra_read_only : read_only (tx_opts t) = tm_read_only tm;
  ra_changed : forall key,
    changed_since key (read_seq (tx_snapshot t)) (contents st l0 levels) <-> key ∈ tm_changed tm
}.

(** The database at [path]. *)
Context (path : string).

Record stands_for (tables : Tables) (l0 : list (list entry)) (levels : list (list (list entry)))
    (batches : list WriteBatch) (s : Session) (m : Model) : Prop := mkStandsFor {
  sf_settled : settled tables l0 levels batches (se_db s);
  sf_wal : wal_enabled (db_options (se_db s)) = true;
  sf_path : db_path (se_db s) = path;
  sf_view : forall key, now_view l0 levels (db_state (se_db s)) key = mo_view m key;
  sf_snapshots : Forall2 (sees l0 levels (db_state (se_db s))) (se_snapshots s) (mo_snapshots m);
  sf_txs : Forall2 (runs_as l0 levels (db_state (se_db s))) (se_txs s) (mo_txs m);
  sf_handles : watermark_inv (db_snapshots (se_db s), handles_of s)
}.

Definition represents (s : Session) (m : Model) : Prop :=
  exists tables l0 levels batches, stands_for tables l0 levels batches s m.

(** ** The handles *)

Lemma live_protected (d : Db SM) live s :
  watermark_inv (db_snapshots d, live) -> s ∈ live -> protected d (read_seq s).
Proof.
  intros Hw Hs. pose proof (watermark_oldest_spec _ _ Hw) as Ho. unfold protected.
  destruct (watermark_oldest (db_snapshots d)) as [o|]; [|subst live; by apply elem_of_nil in Hs].
  exists o. split; [done|]. by apply Ho.
Qed.

Lemma live_old (d : Db SM) live :
  watermark_inv (db_snapshots d, live) ->
  Forall (fun s => read_seq s <= st_last_sequence (db_state d)) live -> snapshots_old d.
Proof.
  intros Hw Hl o Ho. pose proof (watermark_oldest_spec _ _ Hw) as Hs. rewrite Ho in Hs.
  destruct Hs as [(s & Hin & <-) _]. rewrite Forall_forall in Hl. by apply Hl.
Qed.

Lemma handles_seen l0 levels st (s : Session) ss ts :
  Forall2 (sees l0 levels st) (se_snapshots s) ss -> Forall2 (runs_as l0 levels st) (se_txs s) ts ->
  Forall (fun snap => read_seq snap <= st_last_sequence st) (handles_of s).
Proof.
  intros Hss Hts. apply Forall_app. split.
  - apply Forall_forall. intros x Hx. apply list_elem_of_lookup in Hx as [i Hi].
    by destruct (Forall2_lookup_l _ _ _ _ _ Hss Hi) as (w & _ & Hs & _).
  - apply Forall_forall. intros x (t & -> & Ht)%list_elem_of_fmap. apply list_elem_of_lookup in Ht as [i Hi].
    destruct (Forall2_lookup_l _ _ _ _ _ Hts Hi) as (tm & _ & Hr). by destruct (ra_sees _ _ _ _ _ Hr).
Qed.

Lemma snapshot_handle (s : Session) i snap : se_snapshots s !! i = Some snap -> snap ∈ handles_of s.
Proof. intros Hi. apply elem_of_app. left. by eapply list_elem_of_lookup_2. Qed.

Lemma tx_handle (s : Session) i t : se_txs s !! i = Some t -> tx_snapshot t ∈ handles_of s.
Proof. intros Hi. apply elem_of_app. right. apply list_elem_of_fmap_2. by eapply list_elem_of_lookup_2. Qed.

(** A database with other handles, none of them new. *)
Lemma stands_handles tables l0 levels batches w (s s' : Session) m m' :
  stands_for tables l0 levels batches s m ->
  se_db s' = set_snapshots w (se_db s) -> mo_view m' = mo_view m ->
  Forall2 (sees l0 levels (db_state (se_db s))) (se_snapshots s') (mo_snapshots m') ->
  Forall2 (runs_as l0 levels (db_state (se_db s))) (se_txs s') (mo_txs m') ->
  watermark_inv (w, handles_of s') -> stands_for tables l0 levels batches s' m'.
Proof.
  intros [Hs Hwal Hp Hv _ _ _] Ed Em Hss Hts Hw.
  assert (snapshots_old (set_snapshots w (se_db s))) as Hold
    by (eapply (live_old _ (handles_of s')); [exact Hw | by eapply handles_seen]).
  constructor; rewrite ?Ed, ?Em; try done. by apply settled_snapshots.
Qed.

(** ** Calls that change the database *)

Lemma sees_written l0 levels l0' levels' rs (d d' : Db SM) snap w :
  sees l0 levels (db_state d) snap w -> protected d (read_seq snap) ->
  written l0 l0' levels levels' rs d d' -> sees l0' levels' (db_state d') snap w.
Proof.
  intros [Hle Hw] Hp Hwr. pose proof (len_nonneg rs). split.
  - rewrite (wn_last _ _ _ _ _ _ _ Hwr). lia.
  - intros key. rewrite (wn_old _ _ _ _ _ _ _ Hwr) by done. apply Hw.
Qed.

Lemma runs_written l0 levels l0' levels' rs (d d' : Db SM) t tm :
  runs_as l0 levels (db_state d) t tm -> protected d (read_seq (tx_snapshot t)) ->
  written l0 l0' levels levels' rs d d' -> runs_as l0' levels' (db_state d') t (tm_disturb rs tm).
Proof.
  intros [Ho Hq Hse Hws Hso Hk Hr Hro Hc] Hp Hwr. constructor; try done.
  - by eapply sees_written.
  - intros key. rewrite (wn_changed _ _ _ _ _ _ _ Hwr) by (done || apply Hse).
    cbn [tm_disturb tm_changed]. rewrite elem_of_app, Hc. tauto.
Qed.

(** A call that wrote [rs]. *)
Lemma stands_written tables l0 levels batches tables' l0' levels' batches' rs d' (s : Session) m :
  stands_for tables l0 levels batches s m -> settled tables' l0' levels' batches' d' ->
  written l0 l0' levels levels' rs (se_db s) d' ->
  stands_for tables' l0' levels' batches' (with_se_db d' s) (model_write rs m).
Proof.
  intros [Hs Hwal Hpath Hv Hss Hts Hw] Hs' Hwr. pose proof (settled_ok _ _ _ _ _ Hs) as [Hok _ _].
  pose proof (len_nonneg rs).
  assert (forall snap, snap ∈ handles_of s -> protected (se_db s) (read_seq snap)) as Hp
    by (intros snap; by apply live_protected).
  constructor; cbn [with_se_db se_db se_snapshots se_txs model_write mo_view mo_snapshots mo_txs].
  - exact Hs'.
  - by rewrite (wn_options _ _ _ _ _ _ _ Hwr).
  - by rewrite (wn_path _ _ _ _ _ _ _ Hwr).
  - intros key. unfold now_view at 1. rewrite (wn_new _ _ _ _ _ _ _ Hwr) by done. apply view_after_ext.
    rewrite <- Hv. apply (live_now tables); [done|]. rewrite (wn_last _ _ _ _ _ _ _ Hwr). lia.
  - eapply Forall2_impl; [eapply Forall2_and_l; [exact Hss|]|].
    + apply Forall_forall. intros snap Hin. apply Hp, elem_of_app. by left.
    + intros snap w [Hse Hpr]. by eapply sees_written.
  - apply Forall2_fmap_r. eapply Forall2_impl; [eapply Forall2_and_l; [exact Hts|]|].
    + apply Forall_forall. intros t Hin. apply Hp, elem_of_app. right. by apply list_elem_of_fmap_2.
    + intros t tm [Hr Hpr]. by eapply runs_written.
  - by rewrite (wn_snapshots _ _ _ _ _ _ _ Hwr).
Qed.

(** A call that wrote nothing, and one that only read. *)
Lemma stands_kept tables l0 levels batches tables' l0' levels' batches' d' (s : Session) m :
  stands_for tables l0 levels batches s m -> settled tables' l0' levels' batches' d' ->
  written l0 l0' levels levels' [] (se_db s) d' ->
  stands_for tables' l0' levels' batches' (with_se_db d' s) m.
Proof. intros Hst Hs' Hw. rewrite <- (model_write_nil m). by eapply stands_written. Qed.

Lemma stands_read tables l0 levels batches d' (s : Session) m :
  stands_for tables l0 levels batches s m -> only_reads tables (se_db s) d' ->
  stands_for tables l0 levels batches (with_se_db d' s) m.
Proof.
  intros Hst Hr. eapply stands_kept; [exact Hst | | by eapply written_reads].
  eapply settled_reads; [apply Hst | exact Hr].
Qed.

Lemma on_db_ok {A} (m : M (Db SM) A) (f : A -> response) (s : Session) a d' :
  m (se_db s) = (Ok a, d') -> (x ← on_db m; mret (f x)) s = (Ok (f a), with_se_db d' s).
Proof. intros E. unfold on_db, zoom, mbind, M_bind. by rewrite E. Qed.

Lemma represents_write batch opts (s : Session) m :
  represents s m -> write_ok batch opts (se_db s) ->
  exists d', db_write batch opts (se_db s) = (Ok tt, d') /\
    represents (with_se_db d' s) (model_write (records batch) m).
Proof.
  intros (tables & l0 & levels & batches & Hst) Hok. pose proof Hst as [Hs Hwal _ _ _ _ _].
  destruct (batch_is_empty batch) eqn:Ee.
  - exists (se_db s). split; [unfold db_write; by rewrite Ee|]. unfold batch_is_empty in Ee.
    destruct (records batch); [|done]. rewrite model_write_nil. exists tables, l0, levels, batches. by destruct s.
  - destruct Hok as [?|(Hg & Hb & Hd)]; [congruence|].
    destruct (db_write_ok tables l0 levels batches _ batch opts Hs Hg Hb Hwal Hd Ee)
      as (d' & tables' & l0' & levels' & batches' & E & Hs' & Hw).
    exists d'. split; [exact E|]. exists tables', l0', levels', batches'. by eapply stands_written.
Qed.

Lemma represents_flush (s : Session) m :
  represents s m -> request_ok Flush s ->
  exists d', flush (se_db s) = (Ok tt, d') /\ represents (with_se_db d' s) m.
Proof.
  intros (tables & l0 & levels & batches & Hst) [Hn Hb].
  destruct (flush_now_ok _ _ _ _ _ (sf_settled _ _ _ _ _ _ Hst) Hn Hb) as (d' & tables' & l0' & batches' & E & Hs' & Hw).
  exists d'. split; [exact E|]. exists tables', l0', levels, batches'. by eapply stands_kept.
Qed.

Lemma represents_compact lower upper (s : Session) m :
  represents s m -> range_fits lower upper (se_db s) ->
  exists d', compact_range lower upper (se_db s) = (Ok tt, d') /\ represents (with_se_db d' s) m.
Proof.
  intros (tables & l0 & levels & batches & Hst) Hfit.
  destruct (compact_range_settles _ _ _ _ _ _ _ (sf_settled _ _ _ _ _ _ Hst) Hfit)
    as (d' & tables' & l0' & levels' & E & Hs' & Hw & _).
  exists d'. split; [exact E|]. exists tables', l0', levels', batches. by eapply stands_kept.
Qed.

Lemma represents_reopen options now (s : Session) m :
  represents s m -> request_ok (Reopen options now) s ->
  exists d', (open_db (db_path (se_db s)) options now (db_fs (se_db s))).1 = Ok d' /\
    represents (mkSession d' [] []) (mkModel (mo_view m) [] []).
Proof.
  intros (tables & l0 & levels & batches & [Hs Hwal Hpath Hv _ _ _]) (Ho & Hw & Hlast).
  destruct (reopen_settles _ _ _ _ _ options now Hs Hlast Ho) as (d' & E & Hs' & Eo & Es & Ep & Hview).
  exists d'. split; [by rewrite E|]. exists tables, l0, levels, batches.
  constructor; cbn [se_db se_snapshots se_txs mo_view mo_snapshots mo_txs]; try done.
  - by rewrite Eo.
  - by rewrite Ep.
  - intros key. rewrite <- Hv. apply Hview.
  - rewrite Es. apply watermark_new_inv.
Qed.

(** ** Reads *)

Lemma represents_get key opts w (s : Session) m tables l0 levels batches :
  stands_for tables l0 levels batches s m ->
  live key (read_seq_of opts (db_state (se_db s))) (contents (db_state (se_db s)) l0 levels) = w key ->
  exists d', get_opt key opts (se_db s) = (Ok (w key), d') /\ represents (with_se_db d' s) m.
Proof.
  intros Hst <-. destruct (get_opt_live tables l0 levels _ key opts (settled_ok _ _ _ _ _ (sf_settled _ _ _ _ _ _ Hst)))
    as (d' & E & Hr).
  exists d'. split; [exact E|]. exists tables, l0, levels, batches. by apply stands_read.
Qed.

Lemma represents_scan lower upper opts w (s : Session) m tables l0 levels batches :
  stands_for tables l0 levels batches s m ->
  (forall key, live key (read_seq_of opts (db_state (se_db s))) (contents (db_state (se_db s)) l0 levels) = w key) ->
  exists rows d', scan_opt lower upper opts (se_db s) = (Ok rows, d') /\ view_rows lower upper w rows /\
    represents (with_se_db d' s) m.
Proof.
  intros Hst Hw. destruct (scan_opt_rows tables l0 levels _ lower upper opts
    (settled_ok _ _ _ _ _ (sf_settled _ _ _ _ _ _ Hst))) as (rows & d' & E & Hr & Hrows).
  exists rows, d'. split; [exact E|]. split.
  - exact (view_rows_same _ _ _ _ _ Hw (scan_spec_rows _ _ _ _ _ Hrows)).
  - exists tables, l0, levels, batches. by apply stands_read.
Qed.

(** ** Snapshots *)

Lemma sees_now tables l0 levels batches (s : Session) m :
  stands_for tables l0 levels batches s m ->
  sees l0 levels (db_state (se_db s)) (mkSnapshot (st_last_sequence (db_state (se_db s)))) (mo_view m).
Proof. intros Hst. split; [cbn; lia | apply Hst]. Qed.

Lemma represents_snapshot (s : Session) m :
  represents s m -> len (handles_of s) < u64_max ->
  exists snap d', db_snapshot (se_db s) = (Ok snap, d') /\
    represents (with_snaps (se_snapshots s ++ [snap]) (with_se_db d' s))
      (model_with_snapshots (mo_snapshots m ++ [mo_view m]) m).
Proof.
  intros (tables & l0 & levels & batches & Hst) Hl.
  unfold db_snapshot, snapshot_new. eexists _, _. split; [reflexivity|]. exists tables, l0, levels, batches.
  eapply stands_handles; [exact Hst | reflexivity | reflexivity | | apply Hst |].
  - apply Forall2_app; [apply Hst|]. constructor; [by eapply sees_now | constructor].
  - eapply watermark_inv_perm; [apply watermark_add_inv; [apply Hst | exact Hl]|].
    unfold handles_of. cbn [with_snaps with_se_db se_snapshots se_txs]. solve_Permutation.
Qed.

Lemma represents_drop snap i (s : Session) m :
  represents s m -> se_snapshots s !! i = Some snap ->
  represents (with_snaps (delete i (se_snapshots s))
      (with_se_db (set_snapshots (snapshot_drop snap (db_snapshots (se_db s))) (se_db s)) s))
    (model_with_snapshots (delete i (mo_snapshots m)) m).
Proof.
  intros (tables & l0 & levels & batches & Hst) Hi. exists tables, l0, levels, batches.
  eapply stands_handles; [exact Hst | reflexivity | reflexivity | apply Forall2_delete, Hst | apply Hst |].
  unfold handles_of. cbn [with_snaps with_se_db se_snapshots se_txs].
  rewrite delete_take_drop, <- app_assoc. apply watermark_remove_inv.
  pose proof (sf_handles _ _ _ _ _ _ Hst) as Hw. unfold handles_of in Hw.
  rewrite <- (take_drop_middle _ _ _ Hi) in Hw. by rewrite <- app_assoc in Hw.
Qed.

(** ** Transactions *)

Lemma represents_begin opts (s : Session) m :
  represents s m -> len (handles_of s) < u64_max ->
  exists t d', db_transaction opts (se_db s) = (Ok t, d') /\
    represents (with_txs (se_txs s ++ [t]) (with_se_db d' s))
      (model_with_txs (mo_txs m ++ [tm_begin (mo_view m) (read_only opts)]) m).
Proof.
  intros (tables & l0 & levels & batches & Hst) Hl.
  pose proof (settled_ok _ _ _ _ _ (sf_settled _ _ _ _ _ _ Hst)) as [Hok _ Hop].
  set (snap := mkSnapshot (st_last_sequence (db_state (se_db s)))).
  exists (transaction_new snap opts), (set_snapshots (watermark_add (read_seq snap) (db_snapshots (se_db s))) (se_db s)).
  split; [unfold db_transaction; by rewrite bind_get_state, Hop|]. exists tables, l0, levels, batches.
  eapply stands_handles; [exact Hst | reflexivity | reflexivity | apply Hst | |].
  - apply Forall2_app; [apply Hst|]. constructor; [|constructor].
    constructor; try done; [by eapply sees_now | constructor |].
    intros key. cbn [tm_begin tm_changed]. rewrite elem_of_nil. split; [|done].
    intros (e & He & _ & Hs). pose proof (so_seq _ _ _ _ Hok) as Hq. rewrite Forall_forall in Hq.
    apply Hq in He. cbn in Hs. lia.
  - eapply watermark_inv_perm; [apply watermark_add_inv; [apply Hst | exact Hl]|].
    unfold handles_of. cbn [with_txs with_se_db se_snapshots se_txs]. rewrite map_app. cbn [map].
    rewrite app_assoc. by rewrite <- Permutation_cons_append.
Qed.

(** A transaction goes on, its handle stays. *)
Lemma stands_tx tables l0 levels batches i t t' tm' (s : Session) m :
  stands_for tables l0 levels batches s m -> se_txs s !! i = Some t -> tx_snapshot t' = tx_snapshot t ->
  runs_as l0 levels (db_state (se_db s)) t' tm' ->
  stands_for tables l0 levels batches (with_txs (<[i := t']> (se_txs s)) s)
    (model_with_txs (<[i := tm']> (mo_txs m)) m).
Proof.
  intros [Hs Hwal Hpath Hv Hss Hts Hw] Hi Et Hr. constructor; try done.
  - by apply Forall2_insert.
  - unfold handles_of. cbn [with_txs se_snapshots se_txs].
    replace (map tx_snapshot (<[i:=t']> (se_txs s))) with (map tx_snapshot (se_txs s)); [exact Hw|].
    change (tx_snapshot <$> se_txs s = tx_snapshot <$> <[i:=t']> (se_txs s)).
    rewrite list_fmap_insert, Et. symmetry. apply list_insert_id. by rewrite list_lookup_fmap, Hi.
Qed.

Lemma tx_lookup tables l0 levels batches i (s : Session) m :
  stands_for tables l0 levels batches s m -> (i < length (se_txs s))%nat ->
  exists t tm, se_txs s !! i = Some t /\ mo_txs m !! i = Some tm /\
    runs_as l0 levels (db_state (se_db s)) t tm.
Proof.
  intros Hst Hi. destruct (lookup_lt_is_Some_2 _ i Hi) as [t Et].
  destruct (Forall2_lookup_l _ _ _ _ _ (sf_txs _ _ _ _ _ _ Hst) Et) as (tm & Em & Hr). by exists t, tm.
Qed.

Lemma on_tx_ok {A} i (f : M (Transaction * Db SM) A) (g : A -> response) (s : Session) t a t' d' :
  se_txs s !! i = Some t -> f (t, se_db s) = (Ok a, (t', d')) ->
  on_tx i f g s = (Ok (g a), with_txs (<[i := t']> (se_txs s)) (with_se_db d' s)).
Proof. intros Ei E. unfold on_tx, at_tx. by rewrite Ei, E. Qed.

Lemma runs_view l0 levels (st : DBState SM) t tm key :
  runs_as l0 levels st t tm ->
  view_after (records (tx_writes t)) (fun k => live k (tx_read_seq t) (contents st l0 levels)) key = tm_sees tm key.
Proof.
  intros Hr. unfold tm_sees. rewrite (ra_writes _ _ _ _ _ Hr), (ra_seq _ _ _ _ _ Hr).
  apply view_after_ext. apply (ra_sees _ _ _ _ _ Hr).
Qed.

(** After a read of the [i]-th transaction the database has only been read. *)
Lemma visited_reads tables l0 levels batches i t d' (s : Session) m :
  stands_for tables l0 levels batches s m -> len (handles_of s) < u64_max ->
  read_from tables (se_db s) d' -> watermark_visited (tx_snapshot t) (db_snapshots (se_db s)) (db_snapshots d') ->
  stands_for tables l0 levels batches (with_se_db d' s) m /\ db_state d' = db_state (se_db s) /\
  se_txs (with_se_db d' s) !! i = se_txs s !! i.
Proof.
  intros Hst Hl Hr Hv.
  pose proof (watermark_visited_same _ _ _ _ (sf_handles _ _ _ _ _ _ Hst) Hl Hv) as Ew.
  pose proof (read_from_same _ _ _ Hr Ew) as Hr'.
  split; [by apply stands_read|]. split; [by eapply only_reads_state | done].
Qed.

Lemma represents_tx_get i key (s : Session) m :
  represents s m -> request_ok (TxGet i key) s ->
  exists s' tm, serve (TxGet i key) s = (Ok (Value (tm_sees tm key)), s') /\ mo_txs m !! i = Some tm /\
    represents s' (model_with_txs (<[i := tm_get key tm]> (mo_txs m)) m).
Proof.
  intros (tables & l0 & levels & batches & Hst) [Hi Hl].
  destruct (tx_lookup _ _ _ _ _ _ _ Hst Hi) as (t & tm & Et & Em & Hr).
  pose proof (settled_ok _ _ _ _ _ (sf_settled _ _ _ _ _ _ Hst)) as Hok.
  destruct (tx_get_ok (D := Db SM) _ _ (HD := db_database_ok _ _ _ _ Hok) key t (se_db s)
    (ra_open _ _ _ _ _ Hr) (ra_seq _ _ _ _ _ Hr) (read_from_start _ _ _ _ Hok)) as (t' & d' & E & Hrd & _ & Hw & Ht').
  destruct (visited_reads _ _ _ _ i t d' s m Hst Hl Hrd Hw) as (Hst' & Est & Ei).
  rewrite (runs_view _ _ _ _ _ _ Hr) in E.
  eexists _, tm. split; [exact (on_tx_ok i (tx_get key) Value s t _ t' d' Et E)|]. split; [exact Em|].
  exists tables, l0, levels, batches.
  apply (stands_tx tables l0 levels batches i t t' _ (with_se_db d' s) m Hst').
  - by rewrite Ei.
  - by destruct Ht' as [[_ ->]|[_ ->]].
  - cbn [with_se_db se_db]. rewrite Est. unfold tm_get.
    pose proof (local_value_none t key) as Hn. rewrite (ra_writes _ _ _ _ _ Hr) in Hn.
    destruct Ht' as [[Hw' ->]|[Hw' ->]].
    + case_bool_decide as Hin; [exact Hr|]. by apply Hn in Hin.
    + rewrite bool_decide_eq_false_2 by by apply Hn. destruct Hr as [Ho Hq Hse Hws Hso Hk Hrg Hro Hc].
      constructor; try done; [by apply bt_insert_sorted; [apply _|]|].
      intros k. cbn [tx_with_reads tx_read_keys tm_keys]. rewrite (bt_insert_keys bytes_cmp), elem_of_cons, Hk by done.
      tauto.
Qed.

Lemma represents_tx_scan i lower upper (s : Session) m :
  represents s m -> request_ok (TxScan i lower upper) s ->
  exists rows s' tm, serve (TxScan i lower upper) s = (Ok (Rows rows), s') /\ mo_txs m !! i = Some tm /\
    view_rows lower upper (tm_sees tm) rows /\
    represents s' (model_with_txs (<[i := tm_scan lower upper tm]> (mo_txs m)) m).
Proof.
  intros (tables & l0 & levels & batches & Hst) [Hi Hl].
  destruct (tx_lookup _ _ _ _ _ _ _ Hst Hi) as (t & tm & Et & Em & Hr).
  pose proof (settled_ok _ _ _ _ _ (sf_settled _ _ _ _ _ _ Hst)) as Hok.
  destruct (tx_scan_ok (D := Db SM) _ _ (HD := db_database_ok _ _ _ _ Hok) lower upper t (se_db s)
    (ra_open _ _ _ _ _ Hr) (ra_seq _ _ _ _ _ Hr) (read_from_start _ _ _ _ Hok)) as (rows & d' & E & Hrd & _ & Hw & Hrows).
  destruct (visited_reads _ _ _ _ i t d' s m Hst Hl Hrd Hw) as (Hst' & Est & Ei).
  eexists rows, _, tm. split; [exact (on_tx_ok i (tx_scan lower upper) Rows s t _ _ d' Et E)|]. split; [exact Em|].
  split; [eapply view_rows_same; [|exact Hrows]; intros key; by apply runs_view|].
  exists tables, l0, levels, batches.
  eapply (stands_tx tables l0 levels batches i t _ _ (with_se_db d' s) m Hst'); [by rewrite Ei | done |].
  cbn [with_se_db se_db]. rewrite Est. destruct Hr as [Ho Hq Hse Hws Hso Hk Hrg Hro Hc]. constructor; try done.
  cbn [tx_with_reads tx_read_ranges tm_scan tm_ranges]. by rewrite Hrg.
Qed.

Definition tx_buffer (r : BatchRecord) : M (Transaction * Db SM) unit :=
  match r with BPut key value => tx_put key value | BDelete key => tx_delete key end.

Lemma tx_buffer_ok r t (d : Db SM) :
  tx_closed t = false ->
  tx_buffer r (t, d)
  = if read_only (tx_opts t) then (Err (InvalidArgument "read-only transaction cannot write"), (t, d))
    else (Ok tt, (tx_with_writes (mkWriteBatch (records (tx_writes t) ++ [r])) t, d)).
Proof.
  intros Hcl. destruct r; cbn [tx_buffer]; unfold tx_put, tx_delete, ensure_open, ensure_writable, mbind, M_bind, get_state;
    cbn [fst snd]; rewrite Hcl; unfold mret, M_ret; cbv beta iota; cbn [fst snd];
    by destruct (read_only (tx_opts t)).
Qed.

Lemma represents_buffer i r (s : Session) m :
  represents s m -> (i < length (se_txs s))%nat ->
  exists x s' tm, attempt (on_tx i (tx_buffer r) (fun _ => Done)) s = (Ok x, s') /\ mo_txs m !! i = Some tm /\
    (tm_read_only tm = false /\ x = Done /\
       represents s' (model_with_txs (<[i := tm_write r tm]> (mo_txs m)) m) \/
     tm_read_only tm = true /\ x = Failed (InvalidArgument "read-only transaction cannot write") /\
       represents s' m).
Proof.
  intros (tables & l0 & levels & batches & Hst) Hi.
  destruct (tx_lookup _ _ _ _ _ _ _ Hst Hi) as (t & tm & Et & Em & Hr).
  pose proof (tx_buffer_ok r t (se_db s) (ra_open _ _ _ _ _ Hr)) as E.
  rewrite (ra_read_only _ _ _ _ _ Hr) in E. unfold attempt, on_tx, at_tx. rewrite Et, E.
  destruct (tm_read_only tm) eqn:Ero; eexists _, _, tm; (split; [reflexivity|]); (split; [exact Em|]).
  - right. split; [done|]. split; [done|]. exists tables, l0, levels, batches.
    rewrite list_insert_id by done. by destruct s.
  - left. split; [done|]. split; [done|]. exists tables, l0, levels, batches.
    eapply (stands_tx tables l0 levels batches i t _ _ (with_se_db (se_db s) s) m); [by destruct s | exact Et | done |].
    destruct Hr as [Ho Hq Hse Hws Hso Hk Hrg Hro Hc]. constructor; try done.
    cbn [tx_with_writes tx_writes records tm_write tm_writes]. by rewrite Hws.
Qed.

(** The end of a transaction: its handle is dropped. *)
Lemma stands_end tables l0 levels batches i t (s : Session) m :
  stands_for tables l0 levels batches s m -> se_txs s !! i = Some t ->
  stands_for tables l0 levels batches
    (with_txs (delete i (se_txs s)) (with_se_db (drop_transaction t (se_db s)) s))
    (model_with_txs (delete i (mo_txs m)) m).
Proof.
  intros Hst Hi.
  eapply stands_handles; [exact Hst | reflexivity | reflexivity | apply Hst | apply Forall2_delete, Hst |].
  unfold handles_of. cbn [with_txs with_se_db se_snapshots se_txs].
  rewrite delete_take_drop, map_app, app_assoc. apply watermark_remove_inv.
  pose proof (sf_handles _ _ _ _ _ _ Hst) as Hw. unfold handles_of in Hw.
  rewrite <- (take_drop_middle _ _ _ Hi), map_app in Hw. by rewrite <- app_assoc.
Qed.

Lemma commit_runs t (d : Db SM) r d' :
  tx_closed t = false ->
  commit_transaction (tx_read_seq t) (tx_writes t) (tx_read_keys t) (tx_read_ranges t) d = (r, d') ->
  commit t d = (r, drop_transaction t d').
Proof.
  intros Hcl E. unfold commit, commit_body, ensure_open, modify_tx, on_tx_db, zoom, mbind, M_bind, get_state, modify.
  cbn [fst snd]. rewrite Hcl. unfold mret, M_ret. cbv beta iota. cbn [fst snd tx_close tx_read_seq tx_writes tx_read_keys tx_read_ranges].
  cbn [db_commit_transaction db_database]. by rewrite E.
Qed.

Lemma rollback_runs t (d : Db SM) :
  tx_closed t = false -> rollback t d = (Ok tt, drop_transaction t d).
Proof.
  intros Hcl. unfold rollback, rollback_body, ensure_open, modify_tx, mbind, M_bind, get_state, modify.
  cbn [fst snd]. by rewrite Hcl.
Qed.

Lemma represents_rollback i (s : Session) m :
  represents s m -> (i < length (se_txs s))%nat ->
  exists s', attempt (end_tx i rollback) s = (Ok Done, s') /\
    represents s' (model_with_txs (delete i (mo_txs m)) m).
Proof.
  intros (tables & l0 & levels & batches & Hst) Hi.
  destruct (tx_lookup _ _ _ _ _ _ _ Hst Hi) as (t & tm & Et & Em & Hr).
  eexists. split.
  - unfold attempt, end_tx, at_tx. rewrite Et, rollback_runs by apply Hr. reflexivity.
  - exists tables, l0, levels, batches. by apply stands_end.
Qed.

Lemma model_commit i rs m :
  model_write rs (model_with_txs (delete i (mo_txs m)) m)
  = model_with_txs (delete i (mo_txs (model_write rs m))) (model_write rs m).
Proof.
  unfold model_write, model_with_txs. cbn [mo_view mo_snapshots mo_txs]. f_equal.
  apply (list_fmap_delete (tm_disturb rs)).
Qed.

Lemma represents_commit i (s : Session) m :
  represents s m -> request_ok (TxCommit i) s ->
  exists x s' tm, attempt (end_tx i commit) s = (Ok x, s') /\ mo_txs m !! i = Some tm /\
    (tm_serializable tm /\ x = Done /\
       represents s' (model_write (tm_writes tm) (model_with_txs (delete i (mo_txs m)) m)) \/
     ~ tm_serializable tm /\ (exists message, x = Failed (TransactionConflict message)) /\
       represents s' (model_with_txs (delete i (mo_txs m)) m)).
Proof.
  intros (tables & l0 & levels & batches & Hst) [Hi Hg].
  destruct (tx_lookup _ _ _ _ _ _ _ Hst Hi) as (t & tm & Et & Em & Hr). destruct (Hg t Et) as [Hguard Hlog].
  pose proof (live_protected _ _ _ (sf_handles _ _ _ _ _ _ Hst) (tx_handle _ _ _ Et)) as Hp.
  destruct (ra_sees _ _ _ _ _ Hr) as [Hle _]. rewrite <- (ra_seq _ _ _ _ _ Hr) in Hp, Hle.
  destruct (commit_transaction_ok tables l0 levels batches (se_db s) (tx_read_seq t) (tx_writes t) (tx_read_keys t)
    (tx_read_ranges t) (sf_settled _ _ _ _ _ _ Hst) Hguard Hlog (sf_wal _ _ _ _ _ _ Hst) Hp Hle)
    as (r & d' & tables' & l0' & levels' & batches' & E & Hs' & Hres).
  assert (undisturbed ((tx_read_keys t).*1 ++ map record_key (records (tx_writes t))) (tx_read_ranges t)
    (fun key => changed_since key (tx_read_seq t) (contents (db_state (se_db s)) l0 levels)) <-> tm_serializable tm) as Hf.
  { unfold tm_serializable. rewrite (ra_ranges _ _ _ _ _ Hr), (ra_writes _ _ _ _ _ Hr), (ra_seq _ _ _ _ _ Hr).
    apply undisturbed_iff; [|apply Hr]. intros key. rewrite !elem_of_app, (ra_keys _ _ _ _ _ Hr). done. }
  rewrite Hf in Hres. apply (commit_runs t _ _ _ (ra_open _ _ _ _ _ Hr)) in E.
  unfold attempt, end_tx, at_tx. rewrite Et, E.
  destruct Hres as [(-> & Hser & Hw)|([message ->] & Hser & Hw)]; eexists _, _, tm;
    (split; [reflexivity|]); (split; [exact Em|]); [left | right]; (split; [exact Hser|]).
  - split; [done|]. exists tables', l0', levels', batches'. rewrite model_commit.
    eapply (stands_end tables' l0' levels' batches' i t (with_se_db d' s)); [|exact Et].
    rewrite <- (ra_writes _ _ _ _ _ Hr). by eapply stands_written.
  - split; [by exists message|]. exists tables', l0', levels', batches'.
    eapply (stands_end tables' l0' levels' batches' i t (with_se_db d' s)); [|exact Et]. by eapply stands_kept.
Qed.

(** ** Sessions *)

(** A call on the database alone. *)
Lemma serve_db {A} (c : M (Db SM) A) (f : A -> response) (s : Session) m a m' r :
  (exists d', c (se_db s) = (Ok a, d') /\ represents (with_se_db d' s) m') -> model_step r m (f a) m' ->
  exists x s' m', (x ← on_db c; mret (f x)) s = (Ok x, s') /\ model_step r m x m' /\ represents s' m'.
Proof.
  intros (d' & E & Hrep) Hm. exists (f a), (with_se_db d' s), m'. split; [by apply on_db_ok | done].
Qed.

(** One call is answered the way the model answers it. *)
Lemma serve_step r s m :
  represents s m -> request_ok r s ->
  exists x s' m', serve r s = (Ok x, s') /\ model_step r m x m' /\ represents s' m'.
Proof.
  intros Hrep Hok. pose proof Hrep as (tables & l0 & levels & batches & Hst).
  assert (forall i, (i < length (se_snapshots s))%nat -> exists snap w, se_snapshots s !! i = Some snap /\
    mo_snapshots m !! i = Some w /\ sees l0 levels (db_state (se_db s)) snap w) as Hsnap.
  { intros i Hi. destruct (lookup_lt_is_Some_2 _ i Hi) as [snap Es].
    destruct (Forall2_lookup_l _ _ _ _ _ (sf_snapshots _ _ _ _ _ _ Hst) Es) as (w & Ew & Hw). by exists snap, w. }
  destruct r as [batch opts|key value|key|key|i key|lower upper|i lower upper| |i|opts|i key|i lower upper|i key value
    |i key|i|i| |lower upper|options now].
  - eapply (serve_db (db_write batch opts) (fun _ => Done)); [by apply represents_write | constructor].
  - eapply (serve_db (db_put key value) (fun _ => Done)); [by apply represents_write | constructor].
  - eapply (serve_db (db_delete key) (fun _ => Done)); [by apply represents_write | constructor].
  - eapply (serve_db (db_get key) Value); [eapply (represents_get key default_read_options); [exact Hst | apply (sf_view _ _ _ _ _ _ Hst)] | constructor].
  - destruct (Hsnap i Hok) as (snap & w & Es & Ew & [_ Hw]). cbn [serve]. unfold at_snapshot. rewrite Es.
    eapply (serve_db (get_opt key (options_at snap)) Value); [eapply represents_get; [exact Hst | apply Hw] | by constructor].
  - edestruct (represents_scan lower upper default_read_options) as (rows & d' & E & Hrows & Hrep'); [exact Hst | apply (sf_view _ _ _ _ _ _ Hst) |].
    eapply (serve_db (db_scan lower upper) Rows); [by exists d' | by constructor].
  - destruct (Hsnap i Hok) as (snap & w & Es & Ew & [_ Hw]). cbn [serve]. unfold at_snapshot. rewrite Es.
    edestruct (represents_scan lower upper (options_at snap)) as (rows & d' & E & Hrows & Hrep'); [exact Hst | apply Hw |].
    eapply (serve_db (scan_opt lower upper (options_at snap)) Rows); [by exists d' | by econstructor].
  - destruct (represents_snapshot s m Hrep Hok) as (snap & d' & E & Hrep'). eexists Done, _, _.
    split; [|split; [constructor | exact Hrep']]. cbn [serve]. unfold on_db, zoom, mbind, M_bind. by rewrite E.
  - destruct (Hsnap i Hok) as (snap & w & Es & _). eexists Done, _, _.
    split; [|split; [constructor | by apply (represents_drop snap)]]. cbn [serve]. unfold at_snapshot. by rewrite Es.
  - destruct (represents_begin opts s m Hrep Hok) as (t & d' & E & Hrep'). eexists Done, _, _.
    split; [|split; [constructor | exact Hrep']]. cbn [serve]. unfold on_db, zoom, mbind, M_bind. by rewrite E.
  - destruct (represents_tx_get i key s m Hrep Hok) as (s' & tm & E & Em & Hrep'). eexists _, s', _.
    split; [exact E|]. split; [by constructor | exact Hrep'].
  - destruct (represents_tx_scan i lower upper s m Hrep Hok) as (rows & s' & tm & E & Em & Hrows & Hrep').
    eexists _, s', _. split; [exact E|]. split; [by constructor | exact Hrep'].
  - destruct (represents_buffer i (BPut key value) s m Hrep Hok) as (x & s' & tm & E & Em & [(Hro & -> & Hr')|(Hro & -> & Hr')]);
      eexists _, s', _; (split; [exact E|]); (split; [|exact Hr']); by econstructor.
  - destruct (represents_buffer i (BDelete key) s m Hrep Hok) as (x & s' & tm & E & Em & [(Hro & -> & Hr')|(Hro & -> & Hr')]);
      eexists _, s', _; (split; [exact E|]); (split; [|exact Hr']); by econstructor.
  - destruct (represents_commit i s m Hrep Hok) as (x & s' & tm & E & Em & [(Hser & -> & Hr')|(Hser & [message ->] & Hr')]);
      eexists _, s', _; (split; [exact E|]); (split; [|exact Hr']); by econstructor.
  - destruct (represents_rollback i s m Hrep Hok) as (s' & E & Hrep'). eexists Done, s', _.
    split; [exact E|]. split; [constructor | exact Hrep'].
  - eapply (serve_db flush (fun _ => Done)); [by apply represents_flush | constructor].
  - eapply (serve_db (compact_range lower upper) (fun _ => Done)); [by apply represents_compact | constructor].
  - destruct (represents_reopen options now s m Hrep Hok) as (d' & E & Hrep'). eexists Done, _, _.
    split; [|split; [constructor | exact Hrep']]. cbn [serve]. by rewrite E.
Qed.

(** A new database is empty. *)
Lemma represents_new options now fs :
  fresh_dir path fs -> create_if_missing options = true -> error_if_exists options = false ->
  compression_succeeds (table_compression options) -> wal_enabled options = true ->
  exists d fs', open_db path options now fs = (Ok d, fs') /\ represents (mkSession d [] []) empty_model.
Proof.
  intros Hf Hc He Hcomp Hwal.
  destruct (open_new_ok path options now fs Hf Hc He Hcomp) as (vs & tc & fs' & E & _ & Hs).
  eexists _, fs'. split; [exact E|]. eexists _, _, _, _. constructor; [exact Hs | exact Hwal | done | |constructor | constructor | apply watermark_new_inv].
  intros key. cbn [empty_model se_db mo_view].
  unfold now_view, contents, runs, mem_runs. cbn [new_db db_state st_mutable st_immutables map rev].
  rewrite mt_new_entries. unfold live. cbn [concat app]. fold (table_contents [] (empty_levels options)).
  pose proof (empty_levels_contents options) as E0. unfold table_contents in E0. cbn [app] in E0.
  by rewrite E0.
Qed.

(** What a session leaves. *)
Lemma represents_all rs s m :
  represents s m -> session_ok rs s -> exists m', represents (serve_all rs s).2 m'.
Proof.
  revert s m. induction rs as [|r rs IH]; intros s m Hrep Hok; [by exists m|].
  destruct Hok as [Hr Hok]. destruct (serve_step r s m Hrep Hr) as (x & s1 & m1 & E & _ & Hrep1).
  rewrite E in Hok. destruct (IH s1 m1 Hrep1 Hok) as (m2 & Hrep2). exists m2.
  cbn [serve_all]. rewrite (bind_ok _ _ _ _ _ E). cbn [snd] in Hrep2.
  unfold mbind, M_bind. destruct (serve_all rs s1) as [[xs| |] s2]; exact Hrep2.
Qed.

(** C1: a sequence of writes, reads, scans, snapshots, transactions,
    flushes, compactions and reopenings of a database, each of whose calls meets
    [request_ok] when it is made, succeeds and is answered the way a map with snapshots and
    transactions answers it: reads see the writes so far, reads through a
    snapshot see what was there when it was taken, a transaction sees its
    snapshot and its own writes, commits exactly when nobody wrote what it read
    or writes, and then takes effect as one write of now; a database opened
    again on its files holds what was acknowledged.  [request_ok] asks that the
    log is on and no write opts out of it, that a write has room in the widths
    of the formats and counters, and that the compaction a call makes, by
    [compact_range] or for write pressure, has a task on all of level 0 or on
    one table of a deeper level, with outputs that fit: a manual range that
    cuts level 0 is not among these calls. *)
Theorem session_refines_map rs s m :
  represents s m -> session_ok rs s ->
  exists xs s' m', serve_all rs s = (Ok xs, s') /\ model_run rs m xs m' /\ represents s' m'.
Proof.
  revert s m. induction rs as [|r rs IH]; intros s m Hrep Hok.
  - exists [], s, m. split; [done|]. split; [apply mr_nil | exact Hrep].
  - destruct Hok as [Hr Hok]. destruct (serve_step r s m Hrep Hr) as (x & s1 & m1 & E & Hm & Hrep1).
    rewrite E in Hok. destruct (IH s1 m1 Hrep1 Hok) as (xs & s2 & m2 & E2 & Hm2 & Hrep2).
    exists (x :: xs), s2, m2. split; [|split; [by econstructor | done]].
    cbn [serve_all]. by rewrite (bind_ok _ _ _ _ _ E), (bind_ok _ _ _ _ _ E2).
Qed.
End session.

(** ** A session on a new database *)

Section session_examples.
#[local] Existing Instance toy_externals.
#[local] Existing Instance toy_hash_order.
#[local] Existing Instance toy_number_hash_order.
#[local] Existing Instance toy_skip_map.
#[local] Existing Instance toy_os_messages.

Definition example_session : Session := mkSession example_new [] [].

(** A database whose memtables are full after one write. *)
Definition small_memtables : Options :=
  mkOptions true false 1 3 4096 (64 * 1024 * 1024) 7 4 12 20 (256 * 1024 * 1024) (f64_of 10)
    true SyncNever (f64_div (f64_of 1) (f64_of 100)) (64 * 1024 * 1024) 1 1 1 KBTree CNone None 250.

Definition small_session : Session :=
  match open_db "db" small_memtables 0 empty_fs with
  | (Ok d, _) => mkSession d [] []
  | _ => example_session
  end.

(** Two transactions overlap: the first to commit writes what the second read. *)
Definition example_requests : list request :=
  [Put [1] [10]; Put [2] [20]; TakeSnapshot; Delete [1]; Get [1]; GetAt 0 [1]; Flush;
   Put [3] [30]; GetAt 0 [3]; CompactRange Unbounded Unbounded; GetAt 0 [1]; DropSnapshot 0;
   TxBegin (mkTransactionOptions false); TxBegin (mkTransactionOptions false);
   TxBegin (mkTransactionOptions true); TxGet 1 [2]; TxPut 0 [2] [21]; TxGet 0 [2]; Get [2];
   TxScan 0 Unbounded Unbounded; TxPut 2 [7] [70]; TxCommit 0; Flush;
   CompactRange Unbounded Unbounded; TxPut 0 [4] [40]; TxCommit 0; TxGet 0 [2]; TxRollback 0;
   Reopen default_options 5; Scan Unbounded Unbounded; Get [1]].

Definition conflict_message : string := "read key changed after snapshot: " ++ from_utf8_lossy [2].

Definition example_responses : list response :=
  [Done; Done; Done; Done; Value None; Value (Some [10]); Done; Done; Value None; Done;
   Value (Some [10]); Done; Done; Done; Done; Value (Some [20]); Done; Value (Some [21]);
   Value (Some [20]); Rows [([2], [21]); ([3], [30])];
   Failed (InvalidArgument "read-only transaction cannot write"); Done; Done; Done; Done;
   Failed (TransactionConflict conflict_message); Value (Some [20]); Done; Done;
   Rows [([2], [21]); ([3], [30])]; Value None].

Lemma example_guard_ok r (d : Db toy_skip_map) :
  record_storable r -> len (record_bytes r) < 2 ^ 31 ->
  (st_last_sequence (db_state d) + 2 <? 2 ^ 64) = true ->
  (vs_next_file_number (db_versions d) <? 2 ^ 62) = true ->
  limiter_waits (db_write_rate_limiter d) (batch_user_write_bytes (mkWriteBatch [r])) ->
  (len (st_l0_tables (db_state d)) <? level0_stop_writes_trigger (db_options d)) = true ->
  bool_decide (table_bounded (db_options d) (mt_entries (st_mutable (apply_batch
    (st_last_sequence (db_state d) + 1) (mkWriteBatch [r]) (db_state d))))) = true ->
  write_guard (mkWriteBatch [r]) d /\ batch_loggable (mkWriteBatch [r]).
Proof.
  intros Hr Hl Hs Hn Hw Hp Ht. split; [constructor; [constructor|..]|].
  - by repeat constructor.
  - cbn [records]. change (len [r]) with 1. lia.
  - lia.
  - by apply bool_decide_eq_true_1 in Ht.
  - done.
  - lia.
  - apply batch_loggable_small; [by repeat constructor|]. cbn [records map concat]. rewrite app_nil_r. lia.
Qed.

Lemma example_write_ok r (d : Db toy_skip_map) :
  write_guard (mkWriteBatch [r]) d /\ batch_loggable (mkWriteBatch [r]) ->
  write_ok (mkWriteBatch [r]) default_write_options d.
Proof. intros [Hg Hl]. by right. Qed.

Lemma example_commit_ok i r (s : Session) :
  option_map tx_writes (se_txs s !! i) = Some (mkWriteBatch [r]) ->
  write_guard (mkWriteBatch [r]) (se_db s) /\ batch_loggable (mkWriteBatch [r]) -> commit_guard i s.
Proof. intros Hi Hg t Et. rewrite Et in Hi. injection Hi as ->. exact Hg. Qed.
End session_examples.

(** The needs of a session on the small database, by computation. *)
Ltac check_session :=
  cbn [session_ok]; repeat apply conj;
    lazymatch goal with
    | |- request_ok (Put _ _) _ => apply example_write_ok, example_guard_ok; [| by vm_compute..]
    | |- request_ok (Delete _) _ => apply example_write_ok, example_guard_ok; [| by vm_compute..]
    | |- commit_guard _ _ =>
        eapply example_commit_ok; [vm_compute; reflexivity | apply example_guard_ok; [| by vm_compute..]]
    | |- request_ok (CompactRange _ _) _ => apply full_range_fits_ok; by vm_compute
    | |- _ => try first [apply Nat.ltb_lt; by vm_compute | by vm_compute]
    end;
  cbn [record_storable]; repeat first [apply List.Forall_cons | apply List.Forall_nil | split];
    unfold len, u8_ok; cbn; lia.

Section session_witness.
#[local] Existing Instance toy_externals.
#[local] Existing Instance toy_hash_order.
#[local] Existing Instance toy_number_hash_order.
#[local] Existing Instance toy_skip_map.
#[local] Existing Instance toy_os_messages.

Lemma example_session_ok : session_ok example_requests example_session.
Proof. unfold example_requests. check_session. Qed.

Lemma session_refines_map_witness :
  (exists fs, open_db "db" default_options 0 empty_fs = (Ok (se_db example_session), fs)) /\
  exists s' m', serve_all example_requests example_session = (Ok example_responses, s') /\
    model_run example_requests empty_model example_responses m'.
Proof.
  destruct (represents_new "db" default_options 0 empty_fs empty_fs_fresh eq_refl eq_refl
    ltac:(done) eq_refl) as (d & fs' & E & Hrep).
  assert (example_session = mkSession d [] []) as Es by (unfold example_session, example_new; by rewrite E).
  split; [exists fs'; by rewrite Es|].
  destruct (session_refines_map "db" example_requests example_session empty_model)
    as (xs & s' & m' & Er & Hm & _).
  - by rewrite Es.
  - exact example_session_ok.
  - assert ((serve_all example_requests example_session).1 = Ok example_responses) as Ev by by vm_compute.
    rewrite Er in Ev. cbn [fst] in Ev. injection Ev as Ev. subst xs.
    exists s', m'. split; [exact Er | exact Hm].
Defined.
End session_witness.
