(* ===== verification/DbFlushCrash.v ===== *)
(** * A crash in the middle of a flush

    A flush writes a table, logs three edits one by one and starts a new log;
    any of its operations can be the last one.  Wherever it stops, the files
    say one of four things ([FlushStage]), and the database that is opened on
    them has everything the database had, some of it perhaps twice: in the new
    table and, replayed, in the memtable. *)

From Stdlib Require Import Sorting.Sorted.
From stdpp Require Import base list gmap strings sorting.
From S2P Require Import Prelude Key Spec Memtable Coding Batch Env Externals Wal Block Cache.
From S2P Require Import Format Properties Table Reader TableCache Version Options Metrics.
From S2P Require Import Compact Mvcc DbState DbRead DbMem DbFlush DbInv DbFlushOk DbCompact.
From S2P Require Import DbWrite DbSettled DbGroup DbWriteOk DbOpen DbCrash DbSession DbSessionOk DbFaults.

Section flush_crash.
Context `{X : Externals} `{HX : !ExternalsOk X} `{H : HashOrder} `{N : NumberHashOrder}
  `{SM : arena_skip_map} `{!SkipMapOk SM} `{O : OsMessages}.

(** ** What the manifest says *)

(** How far the edits of a flush got. *)
Inductive FlushStage : Type :=
  | NotAdded
  | TableAdded
  | SequenceLogged
  | LogSwitched.

Definition with_table (meta : FileMeta) (v : Version) : Version :=
  mkVersion (meta :: v_l0_files v) (v_levels v).

(** The version set at each stage; [vs] is the one before the flush's edits. *)
Definition stage_versions (stage : FlushStage) (meta : FileMeta) (last_sequence : u64)
    (vs : VersionSet) : VersionSet :=
  let k := vs_next_file_number vs in
  let last := Z.max (vs_last_sequence vs) last_sequence in
  match stage with
  | NotAdded => vs
  | TableAdded => vs_with_current (with_table meta (vs_current vs)) vs
  | SequenceLogged => vs_with_current (with_table meta (vs_current vs))
      (vs_with_numbers k last (vs_log_number vs) vs)
  | LogSwitched => vs_with_current (with_table meta (vs_current vs)) (vs_with_numbers (k + 1) last k vs)
  end.

Lemma db_log_faulty n edits e (d : Db SM) vs1 r d' :
  manifest_inv (db_path d) (max_levels (db_options d)) n edits (db_versions d) (db_fs d) ->
  edit_ok e -> apply_edit e (db_versions d) = (Ok tt, vs1) -> db_log_and_apply e d = (r, d') ->
  d' = set_versions (db_versions d') (db_fs d') d /\
  only_files [manifest_path d n] (db_fs d) (db_fs d') /\
  match r with
  | Ok _ => (exists w, db_versions d' = vs_with_writer w vs1) /\
      manifest_inv (db_path d) (max_levels (db_options d)) n (edits ++ [e]) (db_versions d') (db_fs d')
  | _ => manifest_on_disk (db_path d) (max_levels (db_options d)) n (db_versions d) (db_fs d') \/
      manifest_on_disk (db_path d) (max_levels (db_options d)) n vs1 (db_fs d')
  end.
Proof.
  intros Hm He Ha E. unfold db_log_and_apply, on_versions, zoom in E.
  destruct (log_and_apply e (db_versions d, db_fs d)) as [r1 [vs' fs']] eqn:El. injection E as <- <-.
  destruct (log_and_apply_faulty _ _ _ _ _ _ _ _ _ _ _ Hm He Ha El) as [Hf Hr].
  split; [done|]. split; [|exact Hr]. intros p Hp. apply Hf. intros ->. apply Hp. by left.
Qed.

Lemma wal_create_faulty path fs r fs' :
  fs_files fs !! path = None -> wal_create path fs = (r, fs') ->
  only_files [path] fs fs' /\
  match r with
  | Ok w => wf_path (ww_file w) = path /\ fs_files fs' !! path = Some []
  | _ => fs_files fs' = fs_files fs
  end.
Proof.
  intros Hn. unfold wal_create, open_writable, mbind, M_bind.
  match goal with |- context [fallible ?m fs] =>
    destruct (fallible_inv m fs) as (fs1 & Hf & _ & [-> | ->]) end.
  - intros [= <- <-]. split; [intros p _; by rewrite Hf | done].
  - rewrite Hf, Hn. cbn [wo_create writable_append]. intros [= <- <-]. cbn [set_files fs_files].
    split; [|split; [done | apply lookup_insert_eq]].
    apply (only_files_insert path []); [by left | cbn; by rewrite Hf].
Qed.

Lemma bind_cases {S A B} (m : M S A) (f : A -> M S B) s b s' :
  mbind f m s = (b, s') ->
  (exists a s1, m s = (Ok a, s1) /\ f a s1 = (b, s')) \/
  (exists r, m s = (r, s') /\ (forall a, r <> Ok a) /\ (forall x, b <> Ok x)).
Proof.
  unfold mbind, M_bind. destruct (m s) as [[a|e|] s1]; intros E.
  - left. by exists a, s1.
  - right. injection E as <- <-. by eexists.
  - right. injection E as <- <-. by eexists.
Qed.

(** What [publish_l0_table] leaves, however far it gets. *)
Record published (d : Db SM) (n : u64) (meta : FileMeta) (last_sequence : u64) (r : res unit) (d' : Db SM)
    (stage : FlushStage) : Prop := mkPublished {
  pu_state : db_state d' = db_state d;
  pu_files : only_files [manifest_path d n; wal_path d (vs_next_file_number (db_versions d))]
    (db_fs d) (db_fs d');
  pu_manifest : manifest_on_disk (db_path d) (max_levels (db_options d)) n
    (stage_versions stage meta last_sequence (db_versions d)) (db_fs d');
  pu_log : stage = LogSwitched ->
    fs_files (db_fs d') !! wal_path d (vs_next_file_number (db_versions d)) = Some [];
  pu_ok : r = Ok tt -> stage = LogSwitched
}.

#[export] Instance flush_stage_dec : EqDecision FlushStage.
Proof. solve_decision. Defined.

Section publish.
Context (d : Db SM) (n : u64) (meta : FileMeta) (last_sequence : u64).
Let vs := db_versions d.
Let k := vs_next_file_number vs.

(** A state on the way: it has what [stage] says, and is in step with its
    manifest. *)
Record on_the_way (stage : FlushStage) (edits : list VersionEdit) (d1 : Db SM) : Prop := mkOnTheWay {
  ow_path : db_path d1 = db_path d;
  ow_options : db_options d1 = db_options d;
  ow_state : db_state d1 = db_state d;
  ow_files : only_files [manifest_path d n; wal_path d k] (db_fs d) (db_fs d1);
  ow_versions : same_state (db_versions d1) (stage_versions stage meta last_sequence vs);
  ow_manifest : manifest_inv (db_path d) (max_levels (db_options d)) n edits (db_versions d1) (db_fs d1)
}.

(** One more edit takes it to the next stage, or the flush stops at one of
    the two. *)
Lemma log_next before after edits d1 e vs2 {B} (f : unit -> M (Db SM) B) r d' :
  on_the_way before edits d1 -> before <> LogSwitched ->
  (after = LogSwitched -> wal_path d k <> manifest_path d n /\
    fs_files (db_fs d1) !! wal_path d k = Some []) ->
  edit_ok e -> apply_edit e (db_versions d1) = (Ok tt, vs2) ->
  same_state vs2 (stage_versions after meta last_sequence vs) ->
  mbind f (db_log_and_apply e) d1 = (r, d') ->
  (exists d2 w, f tt d2 = (r, d') /\ d2 = set_versions (vs_with_writer w vs2) (db_fs d2) d1 /\
    only_files [manifest_path d n] (db_fs d1) (db_fs d2) /\ on_the_way after (edits ++ [e]) d2) \/
  (exists stage, forall r', (forall x, r' <> Ok x) -> published d n meta last_sequence r' d' stage) /\
    (forall x, r <> Ok x).
Proof.
  intros [Hp Ho Hs Hf Hv Hm] Hb Ha He Hap Hv2 E.
  assert (manifest_path d1 n = manifest_path d n) as Emp by (unfold manifest_path; by rewrite Hp).
  rewrite <- Hp, <- Ho in Hm.
  apply bind_cases in E as [([] & d2 & E1 & E) | (r1 & E1 & Hr1 & Hr)];
    destruct (db_log_faulty n edits e d1 vs2 _ _ Hm He Hap E1) as (Ed & F & R);
    rewrite ?Emp, ?Hp, ?Ho in *;
    (assert (only_files [manifest_path d n; wal_path d k] (db_fs d1) (db_fs d2)) as F'
      by (eapply only_files_weaken; [|exact F]; intros p; rewrite !elem_of_cons; tauto)) ||
    (assert (only_files [manifest_path d n; wal_path d k] (db_fs d1) (db_fs d')) as F'
      by (eapply only_files_weaken; [|exact F]; intros p; rewrite !elem_of_cons; tauto)).
  - left. destruct R as [[w Ev] M]. exists d2, w. split; [exact E|]. rewrite Ev in Ed.
    split; [exact Ed|]. split; [exact F|].
    constructor; [by rewrite Ed.. | by eapply only_files_trans | rewrite Ev; by apply same_state_writer | exact M].
  - right. split; [|exact Hr].
    assert (db_state d' = db_state d) as Es by by rewrite Ed.
    pose proof (only_files_trans _ _ _ _ Hf F') as Hf'.
    assert (manifest_on_disk (db_path d) (max_levels (db_options d)) n (db_versions d1) (db_fs d') \/
      manifest_on_disk (db_path d) (max_levels (db_options d)) n vs2 (db_fs d')) as [R'|R']
      by (destruct r1 as [[]|x|]; [by destruct (Hr1 tt) | exact R | exact R]).
    + exists before. intros r' Hr'. constructor; [done | done | | done | intros E'; by destruct (Hr' tt)].
      by eapply manifest_on_disk_frame.
    + exists after. intros r' Hr'. constructor; [done | done | | | intros E'; by destruct (Hr' tt)].
      * by eapply manifest_on_disk_frame.
      * intros [Hne Hw]%Ha. rewrite <- Hw. apply F. by intros ?%list_elem_of_singleton.
Qed.

(** The new log, once the last sequence number is logged. *)
Lemma switch_faulty edits d2 r d' :
  on_the_way SequenceLogged edits d2 -> vs_next_file_number (db_versions d2) = k -> 0 <= k < 2 ^ 63 ->
  only_files [manifest_path d n] (db_fs d) (db_fs d2) -> wal_path d k <> manifest_path d n ->
  fs_files (db_fs d) !! wal_path d k = None ->
  (new_log_number ← db_allocate_file_number;
   self ← get_state;
   new_wal ← on_env (wal_create (path_join (db_path self) (wal_file_name new_log_number)));
   _ ← db_log_and_apply (LogNumber new_log_number);
   modify (fun d => set_wal new_wal (db_fs d) d)) d2 = (r, d') ->
  exists stage, published d n meta last_sequence r d' stage.
Proof.
  intros W2 Ek Hk F12 Hpne Hfree E2. pose proof W2 as [P2 O2 S2 _ V2 M2].
  rewrite (bind_ok _ _ _ _ _ (allocate_number d2 ltac:(rewrite Ek; lia))), Ek, bind_get_state in E2. cbv zeta in E2.
  set (vs3 := vs_with_numbers (k + 1) _ _ _) in E2. set (d3 := set_versions vs3 (db_fs d2) d2) in E2.
  assert (path_join (db_path d3) (wal_file_name k) = wal_path d k) as Ew
    by (unfold wal_path; by rewrite <- P2).
  rewrite Ew in E2. unfold on_env at 1, zoom at 1, mbind at 1, M_bind at 1 in E2.
  change (db_fs d3) with (db_fs d2) in E2.
  destruct (wal_create (wal_path d k) (db_fs d2)) as [rw fs4] eqn:Ec.
  assert (fs_files (db_fs d2) !! wal_path d k = None) as Hfree2
    by (rewrite <- Hfree; apply F12; by intros ?%list_elem_of_singleton).
  destruct (wal_create_faulty _ _ _ _ Hfree2 Ec) as [F4 R4].
  set (d4 := set_wal (db_wal d3) fs4 d3) in E2.
  assert (only_files [manifest_path d n; wal_path d k] (db_fs d) fs4) as Ff
    by (apply (only_files_app [_] [_] _ _ _ F12 F4)).
  assert (fs_files fs4 !! path_join (db_path d) CURRENT_FILE = fs_files (db_fs d2) !! path_join (db_path d) CURRENT_FILE
    /\ fs_files fs4 !! manifest_path d n = fs_files (db_fs d2) !! manifest_path d n) as [Fc Fm].
  { split; apply F4; intros Ex%list_elem_of_singleton; revert Ex; apply not_eq_sym; [apply wal_current_ne | done]. }
  assert (same_state (db_versions d2) vs3) as V3 by done.
  assert (on_the_way SequenceLogged edits d4) as W4.
  { constructor; [done | done | done | exact Ff | done |].
    by apply (manifest_inv_frame _ _ _ _ _ _ _ _ M2 V3). }
  destruct rw as [w|x|].
  - assert (apply_edit (LogNumber k) vs3
      = (Ok tt, vs_with_numbers (k + 1) (vs_last_sequence vs3) k vs3)) as A5 by (apply apply_log_number; [lia | done]).
    assert (edit_ok (LogNumber k)) as He5 by (apply edit_short_ok; [unfold edit_fits, u64_ok; lia | done]).
    assert (same_state (vs_with_numbers (k + 1) (vs_last_sequence vs3) k vs3)
      (stage_versions LogSwitched meta last_sequence vs)) as V5
      by (destruct V2 as (Vc & Vl & _ & Vm); repeat split; [exact Vc | exact Vl | exact Vm]).
    destruct (log_next SequenceLogged LogSwitched _ d4 _ _ _ _ _ W4 ltac:(done) (fun _ => conj Hpne (proj2 R4)) He5 A5
      V5 E2) as [(d5 & w5 & E5 & Ed5 & F5 & W5) | [[stage Hst] Hr]]; [|by exists stage; apply Hst].
    injection E5 as <- <-. exists LogSwitched. destruct W5 as [P5 O5 S5 Ff5 V6 M5].
    constructor; [exact S5 | exact Ff5 | | intros _ | done].
    + eapply manifest_on_disk_frame; [by eapply manifest_inv_on_disk | exact V6 | done | done].
    + cbn [set_wal db_fs]. rewrite F5; [apply R4 | by intros ?%list_elem_of_singleton].
  - injection E2 as <- <-. exists SequenceLogged. constructor; [done | exact Ff | | done | done].
    eapply manifest_on_disk_frame; [eapply manifest_inv_on_disk, W4 | apply W4 | done | done].
  - injection E2 as <- <-. exists SequenceLogged. constructor; [done | exact Ff | | done | done].
    eapply manifest_on_disk_frame; [eapply manifest_inv_on_disk, W4 | apply W4 | done | done].
Qed.

Lemma publish_faulty edits r d' :
  manifest_inv (db_path d) (max_levels (db_options d)) n edits vs (db_fs d) ->
  edit_ok (AddFile 0 meta) -> u64_ok last_sequence -> 0 <= fm_number meta < k -> k < 2 ^ 63 ->
  fs_files (db_fs d) !! wal_path d k = None ->
  publish_l0_table meta last_sequence d = (r, d') ->
  exists stage, published d n meta last_sequence r d' stage.
Proof.
  intros Hm He Hls Hn Hk Hfree E. assert (u64_ok n) as Hnn by apply Hm.
  assert (wal_path d k <> manifest_path d n) as Hpne by by apply wal_manifest_ne.
  assert (on_the_way NotAdded edits d) as W0 by by constructor.
  pose proof (apply_add_l0 meta vs Hn Hk) as A1. fold k in A1. set (vs1 := vs_with_current _ _) in A1.
  unfold publish_l0_table in E.
  destruct (log_next NotAdded TableAdded edits d _ vs1 _ _ _ W0 ltac:(done) ltac:(done) He A1 ltac:(done) E)
    as [(d1 & w1 & E1 & Ed1 & F1 & W1) | [[stage Hst] Hr]]; [clear E | by exists stage; apply Hst].
  set (vs2 := vs_with_numbers k (Z.max (vs_last_sequence vs) last_sequence) (vs_log_number vs) (vs_with_writer w1 vs1)).
  assert (apply_edit (LastSequence last_sequence) (db_versions d1) = (Ok tt, vs2)) as A2 by by rewrite Ed1.
  assert (edit_ok (LastSequence last_sequence)) as He2 by by apply edit_short_ok.
  destruct (log_next TableAdded SequenceLogged _ d1 _ vs2 _ _ _ W1 ltac:(done) ltac:(done)
    He2 A2 ltac:(done) E1)
    as [(d2 & w2 & E2 & Ed2 & F2 & W2) | [[stage Hst] Hr]]; [clear E1 | by exists stage; apply Hst].
  apply (switch_faulty _ d2 _ _ W2); [by rewrite Ed2 | lia | by eapply only_files_trans | exact Hpne
    | exact Hfree | exact E2].
Qed.
End publish.

(** ** A flush that stops *)

Lemma hushed_faulty oracle (d : Db SM) : fs_oracle (db_fs d) = [] -> hushed (faulty oracle d) = d.
Proof.
  intros Ho. destruct d as [p o st vs bc tc sn me rl w [files dirs orc] now]. cbn in Ho. by subst orc.
Qed.

Section flush_one.
Context (tables : Tables) (l0 : list (list entry)) (levels : list (list (list entry))) (d : Db SM)
  (m : MemTable SM) (src : FlushSource) (st' : DBState SM).
Let n := vs_next_file_number (db_versions d).
(** The files of a database whose flush stopped before or after its table
    was recorded in the manifest [mn]. *)
Record table_recorded (mn : u64) (fs : Fs) (stage : FlushStage) (t : TableRef)
    (tables' : Tables) : Prop := mkTableRecorded {
  tr_stage : stage <> NotAdded;
  tr_manifest : manifest_on_disk (db_path d) (max_levels (db_options d)) mn
    (stage_versions stage t.1 (st_last_sequence (db_state d)) (numbered_versions d)) fs;
  tr_log : stage = LogSwitched -> fs_files fs !! wal_path d (n + 1) = Some [];
  tr_holds : table_holds tables' t (mt_entries m);
  tr_files : fs_files fs !! table_path d n = fs_files (tb_fs tables') !! table_path d n;
  tr_number : fm_number t.1 = n;
  tr_path : sr_path t.2 = table_path d n;
  tr_blocks : forall k, k <> n -> tables' k = tables k
}.

Context (Hinv : db_inv tables l0 levels d)
  (Ht : take_oldest_flushable_memtable (memtable_kind (db_options d)) (db_state d) = (Some (m, src), st'))
  (Hbound : n < 2 ^ 62) (Hfits : table_bounded (db_options d) (mt_entries m)).

Lemma table_number_ok : 0 < n /\ u64_ok n.
Proof.
  pose proof Hinv as [_ Hly]. pose proof (ly_next _ _ _ _ Hly) as Hn0. fold n in Hn0.
  split; [done | unfold u64_ok; lia].
Qed.

(** The table is written as without failures, or not at all. *)
Lemma write_faulty oracle r d1 :
  write_l0_table m n (faulty oracle (taken_db d st')) = (r, d1) ->
  same_base (faulty oracle (taken_db d st')) d1 /\
  only_files [table_path d n; table_tmp_path d n] (db_fs d) (db_fs d1) /\
  match r with
  | Ok (reader, meta) => exists tables', table_holds tables' (meta, reader) (mt_entries m) /\
      fs_files (tb_fs tables') = fs_files (db_fs d1) /\ (forall k, k <> n -> tables' k = tables k) /\
      meta_describes meta n (mt_entries m) /\ sr_path reader = table_path d n
  | _ => True
  end.
Proof.
  intros E. pose proof Hinv as [[_ Hw _] Hly]. destruct (ly_readers _ _ _ _ Hly) as (readers & Htc & _ & Hrn).
  assert (fs_oracle (db_fs d) = []) as Ho by apply Hw.
  destruct (write_taken tables l0 levels d m src st' Hinv Ht Hbound Hfits readers Htc (Hrn n ltac:(unfold n; lia)))
    as (meta & reader & c & tc & mt & fs2 & tables' & Ew & [Hf2 Hw2 Hb2 Htc2 Hh Hmd Hrp]).
  destruct (careful_write_l0_table (faulty oracle (taken_db d st')) m n (faulty oracle (taken_db d st')) ltac:(done))
    as (Hr & Hbase & Hfiles).
  rewrite hushed_faulty, E in Hr by done. rewrite E in Hbase, Hfiles. cbn [fst snd] in *.
  split; [exact Hbase|]. split; [exact Hfiles|].
  destruct r as [[reader1 meta1]|x|]; [|done..]. destruct Hr as [Hr | Hr]; [done|].
  fold n in Ew. rewrite Ew in Hr. pose proof (f_equal (fun x => fs_files (db_fs x.2)) Hr) as Ed.
  apply (f_equal fst) in Hr. injection Hr as <- <-. exists tables'. split; [exact Hh|].
  split; [|done]. destruct Hw2 as [[_ <-] _]. exact Ed.
Qed.

Section after_write.
Context (dw : Db SM) (oracle : list io_event) (mn : u64) (edits : list VersionEdit)
  (Hm : manifest_inv (db_path d) (max_levels (db_options d)) mn edits (db_versions d) (db_fs d))
  (Hbase : same_base (faulty oracle (taken_db d st')) dw)
  (Fw : only_files [table_path d n; table_tmp_path d n] (db_fs d) (db_fs dw)).

(** What a flush may touch. *)
Definition flush_files : list string :=
  [table_path d n; table_tmp_path d n; manifest_path d mn; wal_path d (n + 1)].

(** Before anything is published the manifest says what it said. *)
Lemma manifest_kept :
  fs_files (db_fs dw) !! path_join (db_path d) CURRENT_FILE = fs_files (db_fs d) !! path_join (db_path d) CURRENT_FILE /\
  fs_files (db_fs dw) !! manifest_path d mn = fs_files (db_fs d) !! manifest_path d mn.
Proof.
  destruct table_number_ok as [Hn0 Hn]. assert (u64_ok mn) as Hmn by apply Hm.
  split; apply Fw; not_among; apply not_eq_sym;
    [apply table_current_ne | apply tmp_current_ne | by apply table_manifest_ne | by apply tmp_manifest_ne].
Qed.

Lemma unpublished : only_files flush_files (db_fs d) (db_fs dw) /\
  manifest_on_disk (db_path d) (max_levels (db_options d)) mn (db_versions d) (db_fs dw).
Proof.
  destruct manifest_kept as [Fc Fm]. split.
  - revert Fw. apply only_files_weaken. intros p. unfold flush_files. rewrite !elem_of_cons. tauto.
  - eapply manifest_on_disk_frame; [by eapply manifest_inv_on_disk | done | exact Fc | exact Fm].
Qed.

(** The table is published, or the publication stops. *)
Lemma publish_taken tables' meta reader r d' :
  table_holds tables' (meta, reader) (mt_entries m) -> fs_files (tb_fs tables') = fs_files (db_fs dw) ->
  (forall k, k <> n -> tables' k = tables k) -> meta_describes meta n (mt_entries m) ->
  sr_path reader = table_path d n -> publish_l0_table meta (st_last_sequence st') dw = (r, d') ->
  db_state d' = st' /\ only_files flush_files (db_fs d) (db_fs d') /\
  (manifest_on_disk (db_path d) (max_levels (db_options d)) mn (db_versions d) (db_fs d') \/
   exists stage t tables', table_recorded mn (db_fs d') stage t tables').
Proof.
  intros Hh Hfs Hb Hmd Hrp Ep. pose proof Hinv as [[Hok Hw Hopen] Hly]. destruct table_number_ok as [Hn0 Hn].
  destruct Hbase as (Pp & Po & Ps & Pv & _), manifest_kept as [Fc Fm]. assert (u64_ok mn) as Hmn by apply Hm.
  cbn [faulty set_wal db_path db_options db_state db_versions taken_db set_versions set_state] in Pp, Po, Ps, Pv.
  destruct (take_runs _ _ _ _ _ Ht) as (_ & _ & _ & _ & Els & _). pose proof (md_number _ _ _ Hmd) as Hnum.
  assert (wal_path dw (n + 1) = wal_path d (n + 1) /\ manifest_path dw mn = manifest_path d mn) as [Epw Epm]
    by (unfold wal_path, manifest_path; by rewrite Pp).
  assert (fs_files (db_fs dw) !! wal_path d (n + 1) = None) as Hfree.
  { rewrite (Fw (wal_path d (n + 1))).
    - destruct (ly_free _ _ _ _ Hly (n + 1)) as [_ ->]; [fold n; lia | unfold u64_ok; lia | done].
    - not_among; [apply not_eq_sym, table_wal_ne | apply wal_tmp_ne]. }
  pose proof (flushed_storable tables l0 levels d m src st' Hinv Ht) as Hst.
  assert (vs_next_file_number (db_versions dw) = n + 1) as Enext by by rewrite Pv.
  destruct (publish_faulty dw mn meta (st_last_sequence st') edits r d') as (stage & [Us Uf Um Ul _]).
  { rewrite Pp, Po. eapply manifest_inv_frame; [exact Hm | by rewrite Pv | by rewrite Pv | exact Fc | exact Fm]. }
  { by apply (add_table_edit_ok 0 meta n _ Hmd Hn). }
  { rewrite Els. apply (so_last _ _ _ _ Hok). }
  { rewrite Enext, Hnum. lia. }
  { rewrite Enext. lia. }
  { by rewrite Enext, Epw. }
  { exact Ep. }
  rewrite Enext, Epw, Epm in Uf. rewrite Pp, Po, Pv, Els in Um. rewrite Enext, Epw in Ul.
  split; [by rewrite Us, Ps|]. split; [exact (only_files_app _ _ _ _ _ Fw Uf)|].
  destruct (decide (stage = NotAdded)) as [->|Hst'].
  - left. eapply manifest_on_disk_frame; [exact Um | done | done | done].
  - right. exists stage, (meta, reader), tables'. constructor; try done.
    rewrite Hfs. apply Uf. not_among; [by apply table_manifest_ne | apply table_wal_ne].
Qed.
End after_write.

Lemma flush_faulty oracle mn edits r d1 :
  manifest_inv (db_path d) (max_levels (db_options d)) mn edits (db_versions d) (db_fs d) ->
  flush (faulty oracle d) = (r, d1) ->
  only_files (flush_files mn) (db_fs d) (db_fs d1) /\
  (manifest_on_disk (db_path d) (max_levels (db_options d)) mn (db_versions d) (db_fs d1) \/
   exists stage t tables', table_recorded mn (db_fs d1) stage t tables') /\
  (forall e, r = Err e -> db_state d1 = db_state d).
Proof.
  intros Hm E. pose proof Hinv as [[_ _ Hopen] _]. destruct table_number_ok as [Hn0 Hn].
  destruct (take_runs _ _ _ _ _ Ht) as (_ & Erestore & _).
  unfold flush in E. rewrite bind_get_state in E. cbn [faulty set_wal db_state db_options] in E.
  rewrite Hopen, Ht, bind_modify in E.
  rewrite (bind_ok _ _ _ _ _ (allocate_number (set_state st' (faulty oracle d)) ltac:(cbn; fold n; lia))) in E.
  change (set_versions _ _ _) with (faulty oracle (taken_db d st')) in E.
  change (vs_next_file_number _) with n in E.
  unfold mbind at 1, M_bind at 1, or_restore at 1 in E.
  destruct (write_l0_table m n (faulty oracle (taken_db d st'))) as [rw dw] eqn:Ew.
  destruct (write_faulty oracle rw dw Ew) as (Hbase & Fw & Rw).
  assert (db_state dw = st') as Ps by apply Hbase.
  destruct (unpublished dw mn edits Hm Fw) as [Ff Fm].
  destruct rw as [[reader meta]|x|].
  2: { injection E as <- <-. split; [exact Ff|]. split; [by left|].
       intros e _. cbn [set_state db_state]. by rewrite Ps, Erestore. }
  2: { injection E as <- <-. split; [exact Ff|]. split; [by left | done]. }
  destruct Rw as (tables' & Hh & Hfs & Hb & Hmd & Hrp). cbn [snd fst] in E. unfold mbind, M_bind, or_restore in E.
  destruct (publish_l0_table meta (st_last_sequence st') dw) as [rp dp] eqn:Ep.
  destruct (publish_taken dw oracle mn edits Hm Hbase Fw _ _ _ _ _ Hh Hfs Hb Hmd Hrp Ep) as (Us & Hall & Hdisk).
  destruct rp as [[]|x|]; injection E as <- <-; cbn [db_fs db_state set_state];
    (split; [exact Hall|]); (split; [exact Hdisk|]); try done.
  intros e _. by rewrite Us, Erestore.
Qed.
End flush_one.

(** ** The database opened on the files *)

Section reopened.
Context (tables : Tables) (l0 : list (list entry)) (levels : list (list (list entry))) (d : Db SM).
Let m := mt_entries (st_mutable (db_state d)).

(** The tables and the memtable of a new state cover what [d] had: the
    memtable replayed from the log is that of [d], or the first table is. *)
Definition covers (replayed : list entry) (l0' : list (list entry)) : Prop :=
  (forall e, e ∈ replayed <-> e ∈ m) /\ (l0' = l0 \/ l0' = m :: l0) \/
  replayed = [] /\ l0' = m :: l0.

Context (Hok : state_ok tables (db_state d) l0 levels) (Himm : st_immutables (db_state d) = []).

Lemma mutable_only : mem_runs (db_state d) = [m].
Proof. unfold mem_runs. by rewrite Himm. Qed.

Lemma covers_contents (st2 : DBState SM) l0' e :
  st_immutables st2 = [] -> covers (mt_entries (st_mutable st2)) l0' ->
  e ∈ contents st2 l0' levels <-> e ∈ contents (db_state d) l0 levels.
Proof.
  intros Hi Hc. unfold contents, runs. rewrite mutable_only. unfold mem_runs. rewrite Hi. cbn [rev map app concat].
  destruct Hc as [[Hm [->| ->]] | [-> ->]]; cbn [app concat]; rewrite !elem_of_app, ?Hm; tauto.
Qed.

Lemma covers_first (st2 : DBState SM) l0' key s :
  st_immutables st2 = [] -> covers (mt_entries (st_mutable st2)) l0' ->
  first_newest key s (runs st2 l0' levels) = first_newest key s (runs (db_state d) l0 levels).
Proof.
  intros Hi Hc. unfold runs. rewrite mutable_only. unfold mem_runs. rewrite Hi. cbn [rev map app].
  assert (consistent m) as Hcm.
  { intros e e' He He'. apply (so_consistent _ _ _ _ Hok); unfold contents, runs; rewrite mutable_only;
      cbn [app concat]; apply elem_of_app; by left. }
  destruct Hc as [[Hm Hl] | [-> ->]]; [|done].
  assert (newest key s (mt_entries (st_mutable st2)) = newest key s m) as En.
  { symmetry. apply newest_ext; [done|]. intros e _. symmetry. apply Hm. }
  destruct Hl as [-> | ->]; cbn [app first_newest]; rewrite En; [done|]. by destruct (newest key s m).
Qed.

Lemma covered_readable tables2 (st2 : DBState SM) l0' :
  Forall2 (table_holds tables2) (st_l0_tables st2) l0' ->
  Forall2 (Forall2 (table_holds tables2)) (st_level_tables st2) levels ->
  st_level_tables st2 = st_level_tables (db_state d) -> st_immutables st2 = [] ->
  StronglySorted (key_lt ikey_cmp) (mt_entries (st_mutable st2)) ->
  covers (mt_entries (st_mutable st2)) l0' -> readable tables2 st2 l0' levels.
Proof.
  intros Hl0 Hl El Hi Hs Hc. pose proof (fun e => covers_contents st2 l0' e Hi Hc) as Hin.
  pose proof (state_ok_readable _ _ _ _ Hok) as [_ _ _ Hz Hd Hf Hcons Hseq].
  constructor; try done.
  - unfold mem_runs. rewrite Hi. by repeat constructor.
  - by rewrite El.
  - intros key s. rewrite (covers_first _ _ _ _ Hi Hc), <- Hf. symmetry. apply newest_ext; [done|].
    intros e _. symmetry. apply Hin.
  - intros e e' He%Hin He'%Hin. by apply Hcons.
  - rewrite Forall_forall in Hseq |- *. intros e He%Hin. by apply Hseq.
Qed.

Lemma reopen_covers tables2 vs mn ts0 l0' readers q bs options now fs :
  manifest_on_disk (db_path d) (max_levels (db_options d)) mn vs fs ->
  fs_oracle fs = [] -> db_path d ∈ fs_dirs fs -> reopen_options d options ->
  v_l0_files (vs_current vs) = ts0.*1 ->
  v_levels (vs_current vs) = map (fmap fst) (st_level_tables (db_state d)) ->
  Forall (opens (db_path d) readers fs) (ts0 ++ concat (st_level_tables (db_state d))) ->
  fs_files fs !! wal_path d (vs_log_number vs) = Some (log_bytes (log_payloads q bs)) ->
  Forall batch_loggable bs -> 0 <= q -> q + len (all_records bs) < 2 ^ 64 -> q - 1 <= vs_last_sequence vs ->
  Z.max (vs_last_sequence vs) (q + len (all_records bs) - 1) = st_last_sequence (db_state d) ->
  tb_fs tables2 = fs -> Forall2 (table_holds tables2) ts0 l0' ->
  Forall2 (Forall2 (table_holds tables2)) (st_level_tables (db_state d)) levels ->
  (forall es, (forall e, e ∈ es <-> e ∈ written_entries q (all_records bs)) -> covers es l0') ->
  exists d2, open_db (db_path d) options now fs = (Ok d2, fs) /\
    answers (now_view l0 levels (db_state d)) d2.
Proof.
  intros Hm Ho Hd (Hex & Hlev & _) E0 El Hopens Hlog Hbs Hq Hlt Hql Hlast Hfs Hh0 Hhl Hcov.
  destruct (manifest_on_disk_recovers _ _ _ _ _ Hm Ho) as (vs' & Erec & Hcur & Hls & Hln & _).
  destruct (open_version_tables_ok (db_path d) readers fs (vs_current vs') ts0
    (st_level_tables (db_state d)) (table_cache_new 512)) as (tc & Et & _);
    [done | done | by rewrite Hcur | by rewrite Hcur |].
  set (st1 := mkDBState (mt_new (memtable_kind options)) [] ts0 (st_level_tables (db_state d))
    (vs_last_sequence vs') false : DBState SM).
  assert (mt_entries (st_mutable st1) = []) as Enew by apply mt_new_entries.
  destruct (recover_payloads_mutable st1 q bs) as (st2 & Er & Hs2 & Hin2 & Hl2 & Est2);
    [by eapply Forall_impl; [exact Hbs | intros b []] | done | done | cbn; by rewrite Hls
    | rewrite Enew; constructor | by rewrite Enew |].
  pose proof (log_payloads_fit q bs Hbs Hq Hlt) as Hfit.
  assert (recover_wal (wal_path d (vs_log_number vs)) st1 fs = (Ok st2, fs)) as Ew.
  { eapply (recover_wal_replays _ _ _ []); [exact Er | | by left | by rewrite app_nil_r | | exact Ho].
    - apply log_payloads_loggable; [done | done | by eapply Forall_impl; [exact Hfit | intros p []]].
    - rewrite app_nil_r. apply log_bytes_u8. by eapply Forall_impl; [exact Hfit | intros p []]. }
  assert (st_last_sequence st2 = st_last_sequence (db_state d)) as El2
    by (rewrite Hl2, <- Hlast; cbn [st1 st_last_sequence]; by rewrite Hls).
  eexists. split.
  - eapply open_db_from; [done | done | done | rewrite (md_current _ _ _ _ _ Hm); by eexists | by rewrite Hlev
    | exact Et | rewrite Hln; change (path_join _ _) with (wal_path d (vs_log_number vs)); rewrite Hlog; by eexists
    | rewrite Hln; exact Ew].
  - assert (covers (mt_entries (st_mutable st2)) l0') as Hc.
    { apply Hcov. intros e. rewrite Hin2, Enew, elem_of_nil. tauto. }
    pose proof (f_equal st_immutables Est2) as Hi2. pose proof (f_equal st_l0_tables Est2) as Ht2.
    pose proof (f_equal st_level_tables Est2) as Hl2'. pose proof (f_equal st_closed Est2) as Hc2.
    cbn [st1 st_immutables st_l0_tables st_level_tables st_closed] in Hi2, Ht2, Hl2', Hc2.
    apply (readable_answers tables2 l0' levels).
    + constructor; cbn [db_state db_rw db_fs db_block_cache].
      * apply covered_readable; rewrite ?Ht2, ?Hl2'; done.
      * split; [split; [done | cbn; by rewrite Hfs]|]. intros t off b. cbn. by rewrite lookup_empty.
      * exact Hc2.
    + intros key. unfold now_view. cbn [db_state]. rewrite El2. unfold live. f_equal.
      symmetry. apply newest_ext; [apply (so_consistent _ _ _ _ Hok)|]. intros e _. symmetry. by apply covers_contents.
Qed.
End reopened.

(** ** Opening after a flush that stopped *)

Section after_flush.
Context (tables : Tables) (l0 : list (list entry)) (levels : list (list (list entry)))
  (batches : list WriteBatch) (d : Db SM) (mn : u64) (fs : Fs) (options : Options) (now : instant).
Let n := vs_next_file_number (db_versions d).
Let m := st_mutable (db_state d).
Context (Hs : settled tables l0 levels batches d) (Hmn : u64_ok mn) (Hbound : n < 2 ^ 62)
  (Hlast : st_last_sequence (db_state d) + 1 < 2 ^ 64)
  (Hfiles : only_files [table_path d n; table_tmp_path d n; manifest_path d mn; wal_path d (n + 1)] (db_fs d) fs)
  (Hdirs : fs_dirs fs = fs_dirs (db_fs d)) (Ho : fs_oracle fs = []) (Hopt : reopen_options d options).

Lemma old_table (t : TableRef) :
  t ∈ all_tables (db_state d) ->
  fs_files fs !! sr_path t.2 = fs_files (db_fs d) !! sr_path t.2 /\ fm_number t.1 <> n /\
  sr_path t.2 = path_join (db_path d) (table_file_name (fm_number t.1)).
Proof.
  intros Hin. pose proof Hs as [[_ Hly] _ _ _]. pose proof (ly_paths _ _ _ _ Hly) as Hp.
  rewrite Forall_forall in Hp. destruct (Hp t Hin) as [Hpath Hk]. fold n in Hk.
  split; [|split; [lia | exact Hpath]]. rewrite Hpath. apply Hfiles.
  apply table_untouched; [unfold u64_ok; lia | unfold u64_ok; lia | done | lia].
Qed.

Lemma old_state blocks :
  (forall k, k <> n -> blocks k = tables k) -> state_ok (mkTables fs blocks) (db_state d) l0 levels.
Proof.
  intros Hb. pose proof Hs as [[[Hok [[_ Hfs] _] _] _] _ _ _]. eapply state_ok_frame; [exact Hok|].
  apply Forall_forall. intros t Hin. destruct (old_table t Hin) as (E & Hne & _). cbn [tb_fs tb_blocks].
  rewrite E, <- Hfs. split; [done | by apply Hb].
Qed.

Lemma old_opens readers :
  Forall (fun t : TableRef => readers (fm_number t.1) = Some t.2) (all_tables (db_state d)) ->
  Forall (opens (db_path d) readers fs) (all_tables (db_state d)).
Proof.
  intros Hrd. pose proof (all_tables_hold _ _ _ _ (old_state tables ltac:(done))) as Hall.
  rewrite Forall_forall in Hrd, Hall |- *. intros t Hin. destruct (Hall t Hin) as [es Hes].
  eapply holds_opens; [exact Hes | by apply Hrd | by apply old_table | done | done].
Qed.

Lemma old_log :
  fs_files fs !! wal_path d (vs_log_number (db_versions d))
  = Some (log_bytes (log_payloads (vs_last_sequence (db_versions d) + 1) batches)).
Proof.
  pose proof Hs as [[_ Hly] _ Hdur _]. destruct (du_wal _ _ _ _ Hdur) as [Hw _].
  rewrite (ly_wal _ _ _ _ Hly) in Hw. rewrite <- Hw. apply Hfiles.
  apply wal_untouched; [unfold u64_ok | | done |];
    pose proof (ly_next _ _ _ _ Hly) as H0; pose proof (ly_log_number _ _ _ _ Hly) as H1; fold n in H0, H1;
    unfold u64_ok; lia.
Qed.

Lemma mutable_entries e :
  e ∈ mt_entries m <-> e ∈ written_entries (vs_last_sequence (db_versions d) + 1) (all_records batches).
Proof.
  pose proof Hs as [_ Himm Hdur _]. rewrite <- (du_mem _ _ _ _ Hdur).
  unfold mem_runs. rewrite Himm. cbn [rev map concat]. by rewrite app_nil_r.
Qed.

(** The manifest says nothing of the flush. *)
Lemma reopen_unrecorded :
  manifest_on_disk (db_path d) (max_levels (db_options d)) mn (db_versions d) fs ->
  exists d2, open_db (db_path d) options now fs = (Ok d2, fs) /\
    answers (now_view l0 levels (db_state d)) d2.
Proof.
  intros Hm. pose proof Hs as [[[Hok _ _] Hly] Himm Hdur _].
  destruct (ly_readers _ _ _ _ Hly) as (readers & _ & Hrd & _).
  pose proof (old_state tables ltac:(done)) as [_ Hl0 Hl _ _ _ _ _ _].
  pose proof (du_last _ _ _ _ Hdur). pose proof (du_manifest_last _ _ _ _ Hdur).
  pose proof (len_nonneg (all_records batches)).
  eapply (reopen_covers tables l0 levels d Hok Himm (mkTables fs tables) (db_versions d) mn
    (st_l0_tables (db_state d)) l0 readers (vs_last_sequence (db_versions d) + 1) batches);
    [exact Hm | exact Ho | rewrite Hdirs; apply Hly | exact Hopt | apply Hly | apply Hly | by apply old_opens
    | exact old_log | apply Hdur | lia | lia | lia | lia | done | exact Hl0 | exact Hl |].
  intros es Hes. left. split; [|by left]. intros e. rewrite Hes. symmetry. apply mutable_entries.
Qed.

(** The manifest has the new table. *)
Lemma reopen_recorded stage t tables' :
  table_recorded tables d m mn fs stage t tables' ->
  exists d2, open_db (db_path d) options now fs = (Ok d2, fs) /\
    answers (now_view l0 levels (db_state d)) d2.
Proof.
  intros [Hst Hm Hlog Hh Hfile Hnum Hpath Hb]. pose proof Hs as [[[Hok _ _] Hly] Himm Hdur _].
  destruct (ly_readers _ _ _ _ Hly) as (readers & _ & Hrd & Hrn).
  pose proof (old_state tables' Hb) as [_ Hl0 Hl _ _ _ _ _ _].
  pose proof (du_last _ _ _ _ Hdur). pose proof (du_manifest_last _ _ _ _ Hdur).
  pose proof (len_nonneg (all_records batches)).
  assert (table_holds (mkTables fs tables') t (mt_entries m)) as Hh'
    by (eapply table_holds_frame; [exact Hh | by rewrite Hpath | done]).
  assert (Forall (opens (db_path d) (readers_with readers n t.2) fs) (t :: all_tables (db_state d))) as Hopens.
  { apply Forall_cons. split.
    - eapply holds_opens; [exact Hh' | unfold readers_with; by rewrite Hnum, decide_True | by rewrite Hnum
        | done | done].
    - apply old_opens. rewrite Forall_forall in Hrd |- *. intros t0 Hin. unfold readers_with.
      rewrite decide_False by by apply old_table. by apply Hrd. }
  assert (forall vs q bs, manifest_on_disk (db_path d) (max_levels (db_options d)) mn vs fs ->
    vs_current vs = with_table t.1 (vs_current (db_versions d)) ->
    fs_files fs !! wal_path d (vs_log_number vs) = Some (log_bytes (log_payloads q bs)) ->
    Forall batch_loggable bs -> 0 <= q -> q + len (all_records bs) < 2 ^ 64 -> q - 1 <= vs_last_sequence vs ->
    Z.max (vs_last_sequence vs) (q + len (all_records bs) - 1) = st_last_sequence (db_state d) ->
    (forall es, (forall e, e ∈ es <-> e ∈ written_entries q (all_records bs)) ->
      covers l0 d es (mt_entries m :: l0)) ->
    exists d2, open_db (db_path d) options now fs = (Ok d2, fs) /\
      answers (now_view l0 levels (db_state d)) d2) as Hgo.
  { intros vs q bs Hd Hcur Hw Hbs Hq Hlt Hql Hmax Hcov.
    eapply (reopen_covers tables l0 levels d Hok Himm (mkTables fs tables') vs mn
      (t :: st_l0_tables (db_state d)) (mt_entries m :: l0) (readers_with readers n t.2) q bs);
      [exact Hd | exact Ho | rewrite Hdirs; apply Hly | exact Hopt | | | exact Hopens | exact Hw
      | exact Hbs | exact Hq | exact Hlt | exact Hql | exact Hmax | done | by constructor | exact Hl | exact Hcov];
      rewrite Hcur; cbn [with_table v_l0_files v_levels].
    - by rewrite (ly_l0_files _ _ _ _ Hly).
    - apply Hly. }
  assert (forall es, (forall e, e ∈ es <-> e ∈ written_entries (vs_last_sequence (db_versions d) + 1)
    (all_records batches)) -> covers l0 d es (mt_entries m :: l0)) as Hcov.
  { intros es Hes. left. split; [|by right]. intros e. rewrite Hes. symmetry. apply mutable_entries. }
  destruct stage; [done | | |].
  - eapply (Hgo _ _ batches Hm); [done | exact old_log | apply Hdur | lia | lia | cbn; lia | cbn; lia | exact Hcov].
  - eapply (Hgo _ _ batches Hm); [done | exact old_log | apply Hdur | lia | lia | cbn; lia | cbn; lia | exact Hcov].
  - eapply (Hgo _ (st_last_sequence (db_state d) + 1) [] Hm); [done | by apply Hlog | done | lia
      | change (len (all_records [])) with 0; lia | cbn; lia | change (len (all_records [])) with 0; cbn; lia |].
    intros es Hes. right. split; [|done]. apply elem_of_nil_inv. intros e He%Hes. by apply elem_of_nil in He.
Qed.

(** Either way. *)
Lemma reopen_stopped d1 :
  manifest_on_disk (db_path d) (max_levels (db_options d)) mn (db_versions d) (db_fs d1) \/
    (exists stage t tables', table_recorded tables d m mn (db_fs d1) stage t tables') ->
  fs_files fs = fs_files (db_fs d1) ->
  exists d2, open_db (db_path d) options now fs = (Ok d2, fs) /\
    answers (now_view l0 levels (db_state d)) d2.
Proof.
  intros [Hd | (stage & t & tables' & [Hst Hd Hl Hh Hf Hn Hp Hb])] Hff.
  - apply reopen_unrecorded. by eapply manifest_on_disk_frame; [exact Hd | done | by rewrite Hff..].
  - apply (reopen_recorded stage t tables').
    constructor; [exact Hst | | intros Es; rewrite Hff; by apply Hl | exact Hh | by rewrite Hff
      | exact Hn | exact Hp | exact Hb].
    eapply manifest_on_disk_frame; [exact Hd | by repeat split | by rewrite Hff..].
Qed.
End after_flush.

(** ** The memtable may have been frozen before *)

(** What a write leaves: the memtable is frozen when it has [size] bytes. *)
Definition frozen_db (size : usize) (d : Db SM) : Db SM :=
  set_state (freeze_mutable_if_needed size (memtable_kind (db_options d)) (db_state d)).2 d.

Definition rotated (d : Db SM) : DBState SM :=
  with_memtables (mt_new (memtable_kind (db_options d))) [st_mutable (db_state d)] (db_state d).

Lemma frozen_cases size (d : Db SM) :
  st_immutables (db_state d) = [] ->
  frozen_db size d = d \/
  mt_entries (st_mutable (db_state d)) <> [] /\ frozen_db size d = set_state (rotated d) d /\
    (freeze_mutable_if_needed size (memtable_kind (db_options d)) (db_state d)).2 = rotated d.
Proof.
  intros Himm. unfold frozen_db, freeze_mutable_if_needed, rotated. rewrite mt_is_empty_entries, Himm.
  destruct (mt_entries (st_mutable (db_state d))); cbn [orb]; [left; by destruct d|].
  destruct (_ <? _); [left; by destruct d | by right].
Qed.

Lemma frozen_inv tables l0 levels size (d : Db SM) :
  db_inv tables l0 levels d -> st_immutables (db_state d) = [] -> db_inv tables l0 levels (frozen_db size d).
Proof.
  intros Hinv Himm. destruct (frozen_cases size d Himm) as [-> | (Hne & E & Est)]; [done|].
  pose proof Hinv as [[Hok Hw Hopen] Hly].
  pose proof (freeze_ok tables size (memtable_kind (db_options d)) (db_state d) l0 levels Hok) as Hf.
  destruct (freeze_mutable_if_needed _ _ _) as [b st'] eqn:Ef. cbn [snd] in Est. subst st'.
  destruct Hf as (Hok' & Hc & _). rewrite E. constructor; [by constructor|].
  destruct Hly. constructor; try done.
  - by apply List.Forall_cons.
  - change (Forall entry_storable (contents (rotated d) l0 levels)). by rewrite Hc.
Qed.

Section stopped_flush.
Context (tables : Tables) (l0 : list (list entry)) (levels : list (list (list entry)))
  (batches : list WriteBatch) (d : Db SM) (oracle : list io_event) (r : res unit) (d1 : Db SM) (fs : Fs)
  (options : Options) (now : instant).
Context (Hs : settled tables l0 levels batches d) (Hnum : vs_next_file_number (db_versions d) < 2 ^ 62)
  (Hlast : st_last_sequence (db_state d) + 1 < 2 ^ 64)
  (Hfits : table_bounded (db_options d) (mt_entries (st_mutable (db_state d))))
  (Hopt : reopen_options d options).

(** Nothing to flush. *)
Lemma flush_stopped_empty :
  mt_entries (st_mutable (db_state d)) = [] -> flush (faulty oracle d) = (r, d1) -> stopped d d1 fs ->
  (exists d2, open_db (db_path d) options now fs = (Ok d2, fs) /\
    answers (now_view l0 levels (db_state d)) d2) /\
  (forall e, r = Err e -> db_state d1 = db_state d).
Proof.
  intros Em E (Hff & Hfd & Hfo). pose proof Hs as [[[_ [[Ho _] _] Hopen] _] Himm _ _]. cbn [db_rw rw_fs] in Ho.
  assert (mem_runs (db_state d) = [[]]) as Hm by (unfold mem_runs; rewrite Himm; cbn [rev map]; by rewrite Em).
  rewrite (flush_none (faulty oracle d) Hopen Hm) in E. injection E as <- <-.
  assert (fs = db_fs d) as ->.
  { transitivity (mkFs (fs_files (db_fs d)) (fs_dirs (db_fs d)) (fs_oracle (db_fs d)));
      [destruct fs; cbn in *; congruence | by destruct (db_fs d)]. }
  destruct (reopen_settles tables l0 levels batches d options now Hs Hlast Hopt)
    as (d2 & Eo & [Hinv2 _ _ _] & _ & _ & _ & Hv).
  split; [|done]. exists d2. split; [exact Eo|]. eapply db_ok_answers; [apply Hinv2 | exact Hv].
Qed.

(** The memtable is taken from a database that is [d] but for the place of it. *)
Lemma flush_stopped_taken st src st' :
  let frz := set_state st d in
  db_inv tables l0 levels frz -> st_last_sequence st = st_last_sequence (db_state d) ->
  take_oldest_flushable_memtable (memtable_kind (db_options d)) st = (Some (st_mutable (db_state d), src), st') ->
  flush (faulty oracle frz) = (r, d1) -> stopped d d1 fs ->
  (exists d2, open_db (db_path d) options now fs = (Ok d2, fs) /\
    answers (now_view l0 levels (db_state d)) d2) /\
  (forall e, r = Err e -> db_state d1 = st).
Proof.
  intros frz Hinv Els Ht E (Hff & Hfd & Hfo). pose proof Hs as [[_ Hly] _ _ _].
  destruct (ly_manifest _ _ _ _ Hly) as (mn & edits & Hm & _). assert (u64_ok mn) as Hmn by apply Hm.
  destruct (flush_faulty tables l0 levels frz _ _ st' Hinv Ht Hnum Hfits oracle mn edits r d1 Hm E)
    as (Hfiles & Hdisk & Hstate). split; [|exact Hstate].
  apply (reopen_stopped tables l0 levels batches d mn fs options now Hs Hmn Hnum Hlast) with (d1 := d1);
    [intros p Hp; rewrite Hff; by apply Hfiles | exact Hfd | exact Hfo | exact Hopt | | exact Hff].
  destruct Hdisk as [Hd | (stage & t & tables' & [Hst Hd Hl Hh Hf Hn Hp Hb])]; [by left|].
  right. exists stage, t, tables'. constructor; try done.
  cbn [frz set_state db_state] in Hd. by rewrite Els in Hd.
Qed.

Lemma flush_stopped size :
  flush (faulty oracle (frozen_db size d)) = (r, d1) -> stopped d d1 fs ->
  (exists d2, open_db (db_path d) options now fs = (Ok d2, fs) /\
    answers (now_view l0 levels (db_state d)) d2) /\
  (forall e, r = Err e -> db_state d1 = db_state (frozen_db size d)).
Proof.
  intros E Hstop. pose proof Hs as [Hinv Himm _ _].
  pose proof (frozen_inv tables l0 levels size d Hinv Himm) as Hfrz.
  destruct (frozen_cases size d Himm) as [Efrz | (Hne & Efrz & _)]; rewrite Efrz in E, Hfrz |- *.
  - destruct (mt_is_empty (st_mutable (db_state d))) eqn:Ee.
    + apply flush_stopped_empty; [|exact E | exact Hstop]. rewrite mt_is_empty_entries in Ee.
      by destruct (mt_entries (st_mutable (db_state d))).
    + pose proof (flush_stopped_taken (db_state d) SrcMutable
        (with_mutable (mt_new (memtable_kind (db_options d))) (db_state d))) as L. cbv zeta in L.
      replace (set_state (db_state d) d) with d in L by by destruct d.
      apply L; [exact Hfrz | done | | exact E | exact Hstop].
      unfold take_oldest_flushable_memtable. by rewrite Himm, Ee.
  - by eapply flush_stopped_taken; [exact Hfrz | done | | exact E | exact Hstop].
Qed.
End stopped_flush.

End flush_crash.

(** ** A flush that stops after the table was recorded *)

Section flush_crash_examples.
#[local] Existing Instance toy_externals.
#[local] Existing Instance toy_hash_order.
#[local] Existing Instance toy_number_hash_order.
#[local] Existing Instance toy_skip_map.
#[local] Existing Instance toy_os_messages.

Definition unflushed_batch : WriteBatch := mkWriteBatch [BPut [1] [10]].
Definition unflushed_db : Db toy_skip_map := (db_write unflushed_batch default_write_options example_new).2.

(** The table is written and added to the manifest; the edit after it fails. *)
Definition stop_after_table : list io_event := replicate 35 IoDone ++ [IoFail 3].
Definition interrupted_flush : res unit * Db toy_skip_map := flush (faulty stop_after_table (frozen_db 1 unflushed_db)).

Lemma unflushed_settled : exists tables l0 levels batches, settled tables l0 levels batches unflushed_db.
Proof.
  assert (write_guard unflushed_batch example_new /\ batch_loggable unflushed_batch) as [Hg Hl]
    by (apply example_guard_ok; [cbn [record_storable];
      repeat first [apply List.Forall_cons | apply List.Forall_nil | split];
      unfold len, u8_ok; cbn; lia | by vm_compute..]).
  destruct (db_write_ok _ _ _ _ example_new unflushed_batch default_write_options example_new_settled Hg Hl)
    as (d' & tables & l0 & levels & batches & E & Hs & _); [by vm_compute..|].
  exists tables, l0, levels, batches. unfold unflushed_db. by rewrite E.
Qed.

End flush_crash_examples.
