(* ===== verification/DbWriteCrash.v ===== *)
(** * A crash in the middle of a write

    [DB::write] of one batch logs it, applies it, freezes the memtable when it
    is full and flushes it.  The process may stop, or an operation may fail,
    anywhere on that way: before the record is whole the batch is lost as a
    whole, afterwards it is kept, and what was there before is kept in any
    case. *)

From stdpp Require Import base list gmap strings.
From S2P Require Import Prelude Key Spec Memtable Coding Batch Env Externals Wal Block Cache.
From S2P Require Import Format Table Reader TableCache Version Options Metrics.
From S2P Require Import Compact Mvcc DbState DbRead DbMem DbFlush DbInv DbFlushOk DbCompact.
From S2P Require Import DbWrite DbSettled DbGroup DbWriteOk DbOpen DbCrash DbSession DbSessionOk DbFaults DbFlushCrash.

(** ** Directories *)

(** [m] leaves what [get] sees of the state. *)
Definition leaves {S A V} (get : S -> V) (m : M S A) : Prop := forall s, get (m s).2 = get s.

Section leaves.
Context {S V : Type} (get : S -> V).

Lemma leaves_ret {A} (a : A) : leaves get (mret a).
Proof. done. Qed.

Lemma leaves_bind {A B} (m : M S A) (f : A -> M S B) :
  leaves get m -> (forall a, leaves get (f a)) -> leaves get (mbind f m).
Proof.
  intros Hm Hf s. unfold mbind, M_bind. specialize (Hm s).
  destruct (m s) as [[a|e|] s1]; cbn [snd] in Hm; [by rewrite Hf | done..].
Qed.

Lemma leaves_get {B} (f : S -> M S B) : (forall s, leaves get (f s)) -> leaves get (mbind f get_state).
Proof. intros Hf s. rewrite bind_get_state. apply Hf. Qed.

Lemma leaves_for_each {A Y} (ys : list Y) (body : Y -> A -> M S A) acc :
  (forall y a, leaves get (body y a)) -> leaves get (for_each ys body acc).
Proof.
  intros Hb. revert acc. induction ys as [|y ys IH]; intros acc; [apply leaves_ret|].
  apply leaves_bind; [apply Hb | apply IH].
Qed.

Lemma leaves_zoom {T A} (getT : T -> V) (view : S -> T) (set : T -> S -> S) (m : M T A) :
  (forall s, getT (view s) = get s) -> (forall s t, get (set t s) = getT t) ->
  leaves getT m -> leaves get (zoom view set m).
Proof.
  intros Hv Hs Hm s. unfold zoom. specialize (Hm (view s)). destruct (m (view s)) as [r t]. cbn [snd] in *.
  by rewrite Hs, Hm, Hv.
Qed.
End leaves.

Lemma leaves_write_all bs : leaves (fun s : WritableFile * Fs => fs_dirs s.2) (write_all bs).
Proof.
  intros [f fs]. unfold write_all, next_event. cbn [fst snd].
  by destruct (fs_oracle fs) as [|[|n|n] o].
Qed.

Lemma leaves_sync_all : leaves (fun s : WritableFile * Fs => fs_dirs s.2) sync_all.
Proof.
  apply (leaves_zoom _ fs_dirs); [done..|]. intros fs.
  by destruct (fallible_inv (mret tt) fs) as (fs1 & _ & Hd & [-> | ->]).
Qed.

Section group.
Context `{X : Externals} `{SM : arena_skip_map}.

Lemma leaves_write_group items :
  leaves (fun d : Db SM => fs_dirs (db_fs d)) (apply_write_group_to_memtable items).
Proof.
  assert (forall A (m : M (WritableFile * Fs) A), leaves (fun s : WritableFile * Fs => fs_dirs s.2) m ->
    leaves (fun d : Db SM => fs_dirs (db_fs d)) (on_wal (on_ww m))) as Hwal.
  { intros A m Hm. apply (leaves_zoom _ (fun s : WalWriter * Fs => fs_dirs s.2)); [done..|].
    by apply (leaves_zoom _ (fun s : WritableFile * Fs => fs_dirs s.2)). }
  apply leaves_get. intros d. destruct (st_closed _); [done|]. cbv zeta. apply leaves_bind.
  - apply leaves_get. intros d'. destruct (wal_enabled _); [|apply leaves_ret]. apply leaves_bind.
    + apply leaves_for_each. intros i b. unfold log_item. destruct (wo_disable_wal _); [apply leaves_ret|].
      apply leaves_bind; [done|]. intros _. apply leaves_bind; [|intros _; apply leaves_ret].
      apply Hwal. repeat (apply leaves_bind; [apply leaves_write_all | intros _]). apply leaves_write_all.
    + intros []; [|apply leaves_ret]. apply leaves_bind; [apply Hwal, leaves_sync_all | done].
  - intros _. apply leaves_for_each. intros i b. apply leaves_bind; [|intros fz; apply leaves_ret].
    intros d'. unfold apply_and_freeze. by destruct (freeze_mutable_if_needed _ _ _).
Qed.
End group.

Section write_crash.
Context `{X : Externals} `{HX : !ExternalsOk X} `{H : HashOrder} `{N : NumberHashOrder}
  `{SM : arena_skip_map} `{!SkipMapOk SM} `{O : OsMessages}.

Lemma answers_ext (v v' : view) (d : Db SM) : (forall key, v key = v' key) -> answers v d -> answers v' d.
Proof.
  intros Hv [Hg Hsc]. split; [intros key; by rewrite <- Hv|]. intros lower upper.
  destruct (Hsc lower upper) as (rows & E & Hr). exists rows. split; [exact E|].
  by eapply view_rows_same; [|exact Hr].
Qed.

(** ** What precedes the log *)

Lemma faulty_waited oracle (d d' : Db SM) :
  waited (faulty oracle d) d' -> exists d0, waited d d0 /\ d' = faulty oracle d0.
Proof.
  intros (m & l & now & ->). eexists. split; [by exists m, l, now|]. reflexivity.
Qed.

(** Waiting for the group, the counters, the rate limiter and a pause touch no
    file, unless level 0 has so many tables that the writer compacts. *)
Lemma admitted {A} batch (d : Db SM) (work : M (Db SM) A) :
  limiter_waits (db_write_rate_limiter d) (batch_user_write_bytes batch) ->
  len (st_l0_tables (db_state d)) < level0_stop_writes_trigger (db_options d) ->
  exists d', (_ ← on_metrics (record_user_write (batch_user_write_bytes batch));
     _ ← apply_write_rate_limit (batch_user_write_bytes batch);
     _ ← apply_write_pressure; work) d = work d' /\ waited d d'.
Proof.
  intros Hl Hp. set (n := batch_user_write_bytes batch).
  set (d1 := set_metrics (record_user_write n (db_metrics d)) d).
  assert (waited d d1) as W1 by (by eexists _, (db_write_rate_limiter d), (db_now d)).
  destruct (rate_limit_waited n d1 Hl) as (d2 & E2 & W2). pose proof (waited_trans _ _ _ W1 W2) as W.
  assert (exists d3, apply_write_pressure d2 = (Ok tt, d3) /\ waited d2 d3) as (d3 & E3 & W3).
  { unfold apply_write_pressure. rewrite bind_get_state. cbv zeta.
    assert ((level0_stop_writes_trigger (db_options d2) <=? len (st_l0_tables (db_state d2))) = false) as ->.
    { destruct W as (m & l & now & ->). cbn. by apply Z.leb_gt. }
    destruct (_ <=? _); [apply sleep_waited|]. exists d2. split; [done | apply waited_refl]. }
  exists d3. split; [|by eapply waited_trans].
  erewrite bind_ok by exact (eq_refl (Ok tt, d1)).
  by rewrite (bind_ok _ _ _ _ _ E2), (bind_ok _ _ _ _ _ E3).
Qed.

(** ** The group was logged *)

Section logged.
Context (tables : Tables) (l0 : list (list entry)) (levels : list (list (list entry)))
  (batches : list WriteBatch) (d : Db SM) (batch : WriteBatch) (opts : WriteOptions) (bytes : Z).
Context (Hs : settled tables l0 levels batches d) (Hroom : write_room batch d) (Hlog : batch_loggable batch)
  (Hwal : wal_enabled (db_options d) = true) (Hdis : wo_disable_wal opts = false).
Let item := mkGroupWriteItem batch opts bytes 0.
Let st1 := apply_batch (st_last_sequence (db_state d) + 1) batch (db_state d).

Lemma batch_applied : applies tables l0 levels (records batch) (db_state d) st1.
Proof. pose proof Hs as [[[Hok _ _] _] _ _ _]. apply apply_batch_applies; [exact Hok | apply Hroom]. Qed.

(** The group leaves a database that is in order, with a memtable that may be
    frozen. *)
Lemma group_leaves oracle flag dg :
  apply_write_group_to_memtable [item] (faulty oracle d) = (Ok flag, dg) ->
  exists d0 tables' rest, dg = faulty rest (frozen_db (memtable_size (db_options d)) d0) /\
    settled tables' l0 levels (batches ++ [batch]) d0 /\ db_state d0 = st1 /\
    db_path d0 = db_path d /\ db_options d0 = db_options d /\ db_versions d0 = db_versions d /\
    fs_dirs (db_fs d0) = fs_dirs (db_fs d).
Proof.
  intros E. pose proof Hs as [Hinv Himm Hdur Hold]. pose proof Hinv as [[Hok [[Ho _] _] Hopen] Hly].
  cbn [db_rw rw_fs] in Ho. destruct (so_last _ _ _ _ Hok) as [Hl0 _]. pose proof Hroom as [Hb Hseq _ _].
  pose proof (len_nonneg (records batch)).
  assert (group_records [item] = records batch) as Egr by apply app_nil_r.
  destruct (group_outcome tables l0 levels [item] (faulty oracle d) _ Hok Hopen ltac:(rewrite Egr; exact Hseq)
    (du_wal _ _ _ _ Hdur)) as (r0 & d' & dl & b & st' & E0 & Ed & (w & fs & m & El & Hp & Hwe & Hf) & _ & Hr & _).
  rewrite E in E0. injection E0 as <- <-. destruct Hr as [Hbw _].
  pose proof (group_one_state batch opts bytes (faulty oracle d) dg flag ltac:(cbn; lia) Hopen
    (ex_intro _ _ (du_wal _ _ _ _ Hdur)) E) as Est. fold st1 in Est. cbn [faulty set_wal db_options db_state] in Est.
  pose proof (leaves_write_group [item] (faulty oracle d)) as Hdirs. rewrite E in Hdirs.
  rewrite Ed, El in Est, Hdirs. cbn in Est, Hdirs.
  set (fs0 := mkFs (fs_files fs) (fs_dirs (db_fs d)) []).
  set (d0 := set_state st1 (set_metrics m (set_wal w fs0 d))).
  cbn [faulty set_wal db_options] in Hbw. rewrite Hwal, group_log_payloads in Hbw by by apply Forall_singleton.
  cbn [map gi_batch item log_payloads] in Hbw.
  assert (wrote (log_bytes (log_payloads (vs_last_sequence (db_versions d) + 1) batches)
    ++ wal_record (encode_with_sequence batch (st_last_sequence (db_state d) + 1))) d d0) as Hwr.
  { constructor; try done.
    - rewrite Hbw in Hwe. rewrite log_bytes_cons in Hwe. change (log_bytes []) with (@nil Z) in Hwe.
      by rewrite app_nil_r in Hwe.
    - split; [by rewrite Ho|]. split; [done|]. intros p Hp'. cbn. rewrite Hf. apply lookup_insert_ne.
      intros <-. apply Hp'. by left. }
  pose proof batch_applied as A.
  destruct (wrote_inv tables l0 levels d d0 _ (records batch) st1 Hinv Hwr eq_refl eq_refl eq_refl A Hb)
    as [Hinv0 A0].
  exists d0. eexists _, (fs_oracle fs). split; [|split; [|by repeat split]].
  - apply (f_equal snd) in Est. cbn [snd] in Est. rewrite Ed, El, Est. unfold frozen_db, d0, fs0, faulty.
    cbn. by rewrite <- Hdirs; destruct fs.
  - constructor; [exact Hinv0 | | by eapply durable_wrote |].
    + pose proof (apply_batch_tables (st_last_sequence (db_state d) + 1) (records batch) (db_state d))
        as (_ & _ & Ei). etransitivity; [exact Ei | exact Himm].
    + intros o Hoo. apply Hold in Hoo. change (db_state d0) with st1. rewrite (ap_last _ _ _ _ _ _ A). lia.
Qed.

Lemma batch_view key :
  now_view l0 levels st1 key = view_after (records batch) (now_view l0 levels (db_state d)) key.
Proof.
  pose proof batch_applied as A. pose proof Hs as [[[Hok _ _] _] _ _ _]. unfold now_view at 1.
  rewrite (ap_new _ _ _ _ _ _ A) by done. apply view_after_ext. pose proof (ap_last _ _ _ _ _ _ A).
  pose proof (len_nonneg (records batch)). eapply live_now; [exact Hok | lia].
Qed.

(** The log, the memtable and, when it is full, its flush. *)
Lemma work_crash oracle r d1 fs options now :
  st_last_sequence (db_state d) + 2 + len (records batch) < 2 ^ 64 ->
  (should_flush ← apply_write_group_to_memtable [item];
   if (should_flush : bool) then flush else mret tt) (faulty oracle d) = (r, d1) ->
  stopped d d1 fs -> reopen_options d options ->
  exists d2, open_db (db_path d) options now fs = (Ok d2, fs) /\
    (answers (view_after (records batch) (now_view l0 levels (db_state d))) d2 \/
     answers (now_view l0 levels (db_state d)) d2 /\ r <> Ok tt).
Proof.
  intros Hlast E Hstop Hopt. pose proof Hroom as [Hb _ Hnum Htab].
  assert (group_records [item] = records batch) as Egr by apply app_nil_r.
  assert (forall rg dg, apply_write_group_to_memtable [item] (faulty oracle d) = (rg, dg) -> stopped d dg fs ->
    exists d2, open_db (db_path d) options now fs = (Ok d2, fs) /\
      (answers (view_after (records batch) (now_view l0 levels (db_state d))) d2 \/
       answers (now_view l0 levels (db_state d)) d2 /\ forall flag, rg <> Ok flag)) as Hcut.
  { intros rg dg Eg Hstg.
    destruct (group_crash_ok tables l0 levels batches d [item] oracle rg dg fs options now Hs Hwal)
      as (k & d2 & Eo & Hk & Ha); [by apply Forall_singleton | by apply Forall_singleton | by rewrite Egr
        | rewrite Egr; lia | exact Eg | exact Hstg | exact Hopt |].
    exists d2. split; [exact Eo|]. destruct k as [|k]; cbn [take] in Ha.
    - right. split; [exact Ha|]. intros flag Er. by apply Hk in Er.
    - left. by rewrite take_nil, Egr in Ha. }
  unfold mbind, M_bind in E.
  destruct (apply_write_group_to_memtable [item] (faulty oracle d)) as [[flag|e|] dg] eqn:Eg;
    [destruct flag | |].
  - destruct (group_leaves oracle true dg Eg) as (d0 & tables' & rest & -> & Hs0 & Est & Ep & Eo & Ev & Ed).
    destruct (flush_stopped tables' l0 levels (batches ++ [batch]) d0 rest r d1 fs options now Hs0)
      with (size := memtable_size (db_options d)) as [(d2 & Eopen & Ha) _].
    + by rewrite Ev.
    + rewrite Est, (ap_last _ _ _ _ _ _ batch_applied). lia.
    + rewrite Eo, Est. exact Htab.
    + destruct Hopt as (? & ? & ?). split; [done|]. by rewrite Eo.
    + exact E.
    + destruct Hstop as (? & ? & ?). split; [done|]. split; [congruence | done].
    + exists d2. rewrite <- Ep. split; [exact Eopen|]. left. rewrite Est in Ha.
      by eapply answers_ext; [intros key; apply batch_view | exact Ha].
  - injection E as <- <-. destruct (Hcut _ _ eq_refl Hstop) as (d2 & Eo & [Ha | [_ Hne]]);
      [|by destruct (Hne false)]. exists d2. split; [exact Eo | by left].
  - injection E as <- <-. destruct (Hcut _ _ eq_refl Hstop) as (d2 & Eo & [Ha | [Ha _]]);
      exists d2; (split; [exact Eo|]); [by left | by right].
  - injection E as <- <-. destruct (Hcut _ _ eq_refl Hstop) as (d2 & Eo & [Ha | [Ha _]]);
      exists d2; (split; [exact Eo|]); [by left | by right].
Qed.
End logged.

(** ** Properties *)

(** C4: [DB::write] of one batch, alone, to a database in order with few
    enough tables in level 0 that the writer does not compact, on a file system
    that may fail at any operation and whose process may stop at any of them
    and in the middle of a write: while logging, between the log and the flush
    that a full memtable causes, or anywhere in that flush. The database that
    is then opened on the files answers every read and scan like the database
    before the write or like it with the whole batch written; the latter if the
    write returned success. *)
Theorem write_crash_keeps_whole tables l0 levels batches (d : Db SM) batch opts oracle r d1 fs options now :
  settled tables l0 levels batches d -> write_room batch d ->
  st_last_sequence (db_state d) + 2 + len (records batch) < 2 ^ 64 ->
  limiter_waits (db_write_rate_limiter d) (batch_user_write_bytes batch) ->
  len (st_l0_tables (db_state d)) < level0_stop_writes_trigger (db_options d) ->
  batch_loggable batch -> wal_enabled (db_options d) = true -> wo_disable_wal opts = false ->
  batch_is_empty batch = false ->
  db_write batch opts (faulty oracle d) = (r, d1) -> stopped d d1 fs -> reopen_options d options ->
  exists d2, open_db (db_path d) options now fs = (Ok d2, fs) /\
    (answers (view_after (records batch) (now_view l0 levels (db_state d))) d2 \/
     answers (now_view l0 levels (db_state d)) d2 /\ r <> Ok tt).
Proof.
  intros Hs Hroom Hlast Hlim Hp Hlog Hwal Hdis Hne E Hstop Hopt.
  unfold db_write in E. rewrite Hne, bind_get_state in E.
  set (pause := if _ || _ then _ else _ : M (Db SM) unit) in E.
  assert (exists d0, pause (faulty oracle d) = (Ok tt, d0) /\ waited (faulty oracle d) d0 /\
    db_write_rate_limiter d0 = db_write_rate_limiter d) as (d0 & E0 & W0 & El).
  { unfold pause. destruct (_ || _).
    - destruct (sleep_waited (write_group_max_delay_micros (db_options (faulty oracle d)) * 1000) (faulty oracle d))
        as (d0 & E0 & W0). exists d0. split; [exact E0|]. split; [exact W0|]. by injection E0 as <-.
    - exists (faulty oracle d). split; [done|]. split; [apply waited_refl | done]. }
  rewrite (bind_ok _ _ _ _ _ E0) in E. unfold apply_write_group in E. cbv zeta in E. rewrite group_of_one_bytes in E.
  unfold mbind at 1, M_bind at 1 in E.
  set (work := (should_flush ← apply_write_group_to_memtable (map group_item [(batch, opts)]);
     if (should_flush : bool) then flush else mret tt) : M (Db SM) unit) in E.
  destruct (admitted batch d0 work) as (d' & Ea & W1);
    [by rewrite El | by destruct W0 as (m & l & now0 & ->) |].
  rewrite Ea in E. destruct (faulty_waited oracle d d' (waited_trans _ _ _ W0 W1)) as (dw & W & ->).
  destruct (work (faulty oracle dw)) as [rw d1w] eqn:Ew.
  assert (d1 = d1w /\ (r = Ok tt -> rw = Ok tt)) as [-> Hr]
    by (destruct rw as [[]|[]|]; cbn [length replicate repeat_group_error] in E; unfold lift in E;
      injection E as <- <-; by split).
  destruct (work_crash tables l0 levels batches dw batch opts (batch_user_write_bytes batch)
    (waited_settled _ _ _ _ _ _ Hs W) (waited_room _ _ _ W Hroom) Hlog) with (oracle := oracle) (r := rw) (d1 := d1w)
    (fs := fs) (options := options) (now := now) as (d2 & Eo & Ha); try exact Hdis; try exact Ew;
    [by destruct W as (m & l & now0 & ->)..|].
  destruct W as (m & l & now0 & ->). exists d2. split; [exact Eo|].
  destruct Ha as [Ha | [Ha Hn]]; [by left|]. right. split; [exact Ha|]. intros Er. by apply Hn, Hr.
Qed.
End write_crash.

(** ** A write that stops inside the flush it caused *)

Section write_crash_examples.
#[local] Existing Instance toy_externals.
#[local] Existing Instance toy_hash_order.
#[local] Existing Instance toy_number_hash_order.
#[local] Existing Instance toy_skip_map.
#[local] Existing Instance toy_os_messages.

(** One record fills the memtable of these options. *)
Definition small_db : Db toy_skip_map :=
  match open_db "db" small_memtables 0 empty_fs with (Ok d, _) => d | _ => example_new end.

Lemma small_settled : exists tables l0 levels, settled tables l0 levels [] small_db.
Proof.
  destruct (open_new_ok "db" small_memtables 0 empty_fs empty_fs_fresh eq_refl eq_refl ltac:(done))
    as (vs & tc & fs' & E & _ & Hs).
  assert (small_db = new_db "db" small_memtables 0 vs tc fs') as -> by (unfold small_db; by rewrite E).
  by eexists _, _, _.
Qed.

(** The record is whole and the memtable frozen; a write of the table fails. *)
Definition stop_in_flush : list io_event := replicate 39 IoDone ++ [IoFail 3].

Definition interrupted_write : res unit * Db toy_skip_map :=
  db_write unflushed_batch default_write_options (faulty stop_in_flush small_db).

Lemma write_crash_keeps_whole_witness :
  interrupted_write.1 = Err (Corruption "I/O error") /\
  length (st_immutables (db_state interrupted_write.2)) = 1%nat /\
  exists l0 levels d2, open_db "db" small_memtables 5 (stop_fs small_db interrupted_write.2)
      = (Ok d2, stop_fs small_db interrupted_write.2) /\
    (answers (view_after (records unflushed_batch) (now_view l0 levels (db_state small_db))) d2 \/
     answers (now_view l0 levels (db_state small_db)) d2 /\ interrupted_write.1 <> Ok tt) /\
    (db_get [1] d2).1 = Ok (Some [10]).
Proof.
  split; [by vm_compute|]. split; [by vm_compute|]. destruct small_settled as (tables & l0 & levels & Hs).
  assert (write_guard unflushed_batch small_db /\ batch_loggable unflushed_batch) as [[Hroom Hlim _] Hl]
    by (apply example_guard_ok; [cbn [record_storable];
      repeat first [apply List.Forall_cons | apply List.Forall_nil | split];
      unfold len, u8_ok; cbn; lia | by vm_compute..]).
  destruct (write_crash_keeps_whole tables l0 levels [] small_db unflushed_batch default_write_options stop_in_flush
    interrupted_write.1 interrupted_write.2 (stop_fs small_db interrupted_write.2) small_memtables 5 Hs Hroom)
    as (d2 & E & Ha).
  - by vm_compute.
  - exact Hlim.
  - by vm_compute.
  - exact Hl.
  - by vm_compute.
  - done.
  - done.
  - pose proof (surjective_pairing interrupted_write) as Ep. unfold interrupted_write at 1 in Ep. exact Ep.
  - apply stop_fs_stopped.
  - split; [exact eq_refl|]. split; [vm_compute; reflexivity|]. intros block. reflexivity.
  - assert (db_path small_db = "db"%string) as Ep by by vm_compute. rewrite Ep in E.
    exists l0, levels, d2. split; [exact E|]. split; [exact Ha|].
    assert (forall key v, (match (open_db "db" small_memtables 5 (stop_fs small_db interrupted_write.2)).1 with
      | Ok d => (db_get key d).1 | _ => Panic end) = Ok v -> (db_get key d2).1 = Ok v) as Hg
      by (intros key v Hv; rewrite E in Hv; exact Hv).
    apply Hg; vm_compute; reflexivity.
Defined.
End write_crash_examples.
