(* ===== verification/DbReadFaults.v ===== *)
(** * Reads on a file system that fails

    A read that meets an I/O error reports it: it never takes the error for
    the absence of a key, never returns an older version, and leaves the block
    cache in step with the files.  The rules of [DbFaults.v] are applied to the
    reads of a table, to the iterators of a scan and to the reads of the
    database. *)

From stdpp Require Import base list gmap strings.
From S2P Require Import Prelude Key Spec Memtable Iterators Coding Batch Env Externals Wal Block Cache.
From S2P Require Import Format Properties Table Reader TableCache Version Options Metrics.
From S2P Require Import Compact Mvcc DbState DbRead DbFlush DbSettled DbWrite DbCrash DbFaults DbFlushCrash.

Section table_reads.
Context `{X : Externals} `{HX : !ExternalsOk X} `{H : HashOrder} (tables : Tables).

(** The cache agrees with the files, whatever the oracle says. *)
Definition sound (w : RW) : Prop := rw_inv tables (hushed w).

Lemma sound_fs w fs : hush fs = hush (rw_fs w) -> sound w -> sound (mkRW fs (rw_cache w)).
Proof. intros E [[_ Hfs] Hc]. split; [|exact Hc]. cbn in *. by rewrite E. Qed.

(** ** The blocks of a table *)

Section one_table.
Context (comp : CompressionType) (Hcomp : compression_succeeds comp) (chunks : list (list entry))
  (Hfits : table_fits comp chunks) (t : u64) (bc fill : bool)
  (Ht : fill && bc = true -> tables t = blocks_at comp 0 chunks).

Definition on_table (s : ReadableFile * RW) : Prop :=
  rf_data s.1 = table_bytes comp chunks /\ sound s.2.
Definition indexed (ie : IndexEntry) : Prop := exists c, index_points comp 0 chunks ie c /\ c ∈ chunks.

Lemma index_indexed : Forall indexed (chunk_index comp 0 chunks).
Proof.
  destruct (index_points_to comp chunks Hfits) as [Hp Hin]. apply Forall_lookup. intros i ie Hi.
  destruct (Forall2_lookup_l _ _ _ _ _ Hp Hi) as (c & Hc & Hie). exists c. split; [done|].
  by eapply list_elem_of_lookup_2.
Qed.

(** What the files and one open file say. *)
Definition table_open (s : ReadableFile * Fs) : Prop :=
  rf_data s.1 = table_bytes comp chunks /\ hush s.2 = tb_fs tables.

Lemma careful_on_file {A} (m : M (ReadableFile * Fs) A) :
  careful table_open [] m -> careful on_table [] (on_file m).
Proof.
  apply careful_zoom; try done.
  - intros s [Hd [[_ Hf] _]]. by split.
  - intros s f [_ [_ Hc]] [Hd Hf]. split; [done|]. by split.
Qed.

Lemma careful_table_cache {A} (m : BlockCache -> A * BlockCache) :
  (forall w, sound w -> sound (mkRW (rw_fs w) (m (rw_cache w)).2)) -> careful on_table [] (on_cache m).
Proof.
  intros Hm. apply careful_pure; unfold on_cache.
  - intros [f [fs c]]. cbn [rw_cache fst snd hushed local_on_disk rw_on_disk rw_fs]. by destruct (m c).
  - intros [f w] [Hd Hw]. specialize (Hm w Hw). cbn [fst snd] in *.
    destruct (m (rw_cache w)). by split.
  - intros [f [fs c]]. cbn [rw_cache fst snd rw_fs]. by destruct (m c).
Qed.

(** A block that was read is the block of the table. *)
Lemma read_block_same ie c s bs s' :
  index_points comp 0 chunks ie c -> c ∈ chunks -> table_open s ->
  read_block (ie_handle ie) s = (Ok bs, s') -> bs = chunk_block c.
Proof.
  intros (pre & post & f & l & Hd & _ & _ & -> & _) Hin Hs E. destruct s as [rf fs].
  destruct (careful_read_block table_open [] ltac:(intros ? ? ? ? H1 H2 [Hd' Hf'];
    split; cbn in *; congruence) (ie_handle (mkIndexEntry f.1 l.1 (mkBlockHandle (0 + len pre)
      (len (cblock comp (chunk_block c)))))) (rf, fs) Hs) as ([Hr | Hr] & _ & _); rewrite E in Hr; [done|].
  destruct (chunk_in_table comp chunks Hfits _ _ _ Hd) as (Hl & post' & Htb). destruct Hs as [Hrf _].
  cbn [fst] in Hrf. rewrite Htb in Hrf.
  destruct (read_block_ok comp Hcomp (chunk_block c) pre post' rf (hush fs) Hrf Hl eq_refl) as (f' & Er & _).
  cbn [ie_handle hushed local_on_disk fst snd fs_on_disk] in Hr. rewrite Z.add_0_l, Er in Hr.
  apply (f_equal fst) in Hr. by injection Hr as <-.
Qed.

Lemma careful_block ie : indexed ie -> careful on_table [] (read_decoded_block ie t bc fill).
Proof.
  intros (c & Hie & Hin). pose proof Hie as (pre & post & f & l & _ & _ & _ & Eie & Hb).
  rewrite Z.add_0_l in Hb. apply careful_bind.
  { destruct (fill && bc); [|apply careful_ret]. apply careful_table_cache. intros w [Hf Hc]. split; [exact Hf|].
    intros t'. exact (Hc t'). }
  intros [block|]; [apply careful_ret|].
  apply (careful_bind_post _ _ (fun bs => bs = chunk_block c)).
  - apply careful_on_file, careful_read_block. intros ? ? ? ? H1 H2 [Hd' Hf']. split; cbn in *; congruence.
  - intros [rf w] bs s' [Hd Hw] E. unfold on_file, zoom in E. cbn [fst snd] in E.
    destruct (read_block _ _) as [r t'] eqn:Er. injection E as -> _.
    eapply read_block_same; [exact Hie | exact Hin | | exact Er]. split; [exact Hd | apply Hw].
  - intros bs ->. rewrite (chunk_decodes comp chunks Hfits c Hin).
    apply (careful_bind_post _ _ (fun b => b = mkBlock c)); [apply careful_lift | by intros s b s' _ [= <- _]|].
    intros b ->. apply careful_bind; [|intros _; apply careful_ret].
    destruct (fill && bc) eqn:Ef; [|apply careful_ret]. apply careful_table_cache. intros w Hw.
    apply (rw_inv_insert tables t _ _ (hushed w) Hw). rewrite (Ht eq_refl), Eie. cbn [ie_handle bh_offset].
    by rewrite Z.add_0_l.
Qed.

Lemma careful_get_blocks key s ies :
  Forall indexed ies -> careful on_table [] (get_blocks key s t bc fill ies).
Proof.
  induction 1 as [|ie ies Hie _ IH]; cbn [get_blocks]; [apply careful_ret|]. cbv zeta.
  destruct (negb _); [exact IH|]. apply careful_bind; [by apply careful_block|].
  intros b. destruct (find_visible _ _ _); [apply careful_ret | exact IH].
Qed.

(** ** The reads of a table *)

Context (path : string) (Hfile : fs_files (tb_fs tables) !! path = Some (table_bytes comp chunks)).
Let reader := table_reader comp chunks path.

Lemma opened_data w f w' :
  sound w -> on_fs (open_readable path) w = (Ok f, w') -> rf_data f = table_bytes comp chunks.
Proof.
  intros [[_ Hf] _] E. unfold on_fs, zoom, open_readable in E.
  match type of E with context [fallible ?g ?fs] =>
    destruct (fallible_inv g fs) as (fs1 & Hf1 & _ & [E1 | E1]); rewrite E1 in E end; [done|].
  assert (fs_files (rw_fs w) !! path = Some (table_bytes comp chunks)) as Hp by (rewrite <- Hfile, <- Hf; done).
  rewrite Hf1, Hp in E. by injection E as <- _.
Qed.

Lemma careful_open : careful sound [] (on_fs (open_readable path)).
Proof.
  apply (careful_zoom _ _ (fun fs => hush fs = tb_fs tables)); try done.
  - intros w [[_ Hf] _]. exact Hf.
  - intros w fs [_ Hc] Hf. by split.
  - apply careful_open_readable. intros fs fs' E. congruence.
Qed.

(** A method that opens the table's file and runs on it. *)
Lemma careful_opened {A} (m : ReadableFile -> M RW A) :
  (forall f, rf_data f = table_bytes comp chunks -> careful sound [] (m f)) ->
  careful sound [] (file ← on_fs (open_readable path); m file).
Proof.
  intros Hm. apply (careful_bind_post _ _ (fun f => rf_data f = table_bytes comp chunks));
    [apply careful_open | exact opened_data | exact Hm].
Qed.

Lemma careful_get_with_cache key s : careful sound [] (get_with_cache reader key s t bc fill).
Proof.
  apply careful_bind; [apply careful_lift|]. intros may. destruct (negb may); [apply careful_ret|].
  apply careful_opened. intros f Hf. apply (careful_local _ _ on_table); [done | by intros s' [_ Hs']|].
  apply careful_get_blocks, index_indexed.
Qed.

Lemma careful_entries_with_cache : careful sound [] (entries_with_cache reader t bc fill).
Proof.
  apply careful_opened. intros f Hf. apply (careful_local _ _ on_table); [done | by intros s' [_ Hs']|].
  apply careful_for_each. intros ie es Hie. pose proof index_indexed as Hall. rewrite Forall_forall in Hall.
  apply careful_bind; [by apply careful_block, Hall | intros b; apply careful_ret].
Qed.

(** ** The iterator over a table *)

Definition runs_on (s : SSTableStorageIterator * RW) : Prop :=
  rf_data (si_file s.1) = table_bytes comp chunks /\ si_index s.1 = chunk_index comp 0 chunks /\
  si_table_number s.1 = t /\ si_block_cache s.1 = bc /\ si_fill_cache s.1 = fill /\ sound s.2.

Lemma careful_position f :
  (forall i w, runs_on (i, w) -> runs_on (f i, w)) -> careful runs_on [] (modify_si f).
Proof. intros Hf. apply careful_pure; try done. intros [i w]. apply Hf. Qed.

Lemma careful_load_blocks n rest : Forall indexed rest -> careful runs_on [] (load_blocks n rest).
Proof.
  intros Hr. revert n. induction Hr as [|ie rest Hie _ IH]; intros n; cbn [load_blocks]; [apply careful_ret|].
  apply careful_get; [|done]. intros s (_ & _ & -> & -> & -> & _). cbv zeta. apply careful_bind.
  - apply (careful_zoom _ _ on_table); try done.
    + intros s' (Hd & _ & _ & _ & _ & Hw). by split.
    + intros s' [f w] (_ & Hi & Hn & Hb & Hc & _) [Hd Hw]. done.
    + by apply careful_block.
  - intros b. destruct (block_entries b); [|by apply careful_position].
    apply careful_bind; [by apply careful_position | intros _; apply IH].
Qed.

Lemma careful_load_block_at n : careful runs_on [] (load_block_at n).
Proof.
  apply careful_bind; [by apply careful_position|]. intros _.
  apply careful_get; [|done]. intros s (_ & -> & _). apply careful_load_blocks, Forall_drop, index_indexed.
Qed.

Lemma careful_advance : careful runs_on [] advance_to_next_block.
Proof. apply careful_get; [|done]. intros s _. apply careful_load_block_at. Qed.

Lemma careful_si_next : careful runs_on [] si_next.
Proof.
  apply careful_get; [|done]. intros s _. destruct (negb _); [apply careful_ret|].
  apply careful_bind; [by apply careful_position|]. intros _.
  apply careful_get; [|done]. intros s' _. destruct (negb _); [apply careful_advance | apply careful_ret].
Qed.

Lemma careful_si_seek key : careful runs_on [] (si_seek key).
Proof.
  apply careful_get; [|done]. intros s _. cbv zeta. apply careful_bind; [apply careful_load_block_at|]. intros _.
  apply careful_get; [|done]. intros s' _. destruct (si_current_block _); [|apply careful_ret]. cbv zeta.
  apply careful_bind; [by apply careful_position|]. intros _.
  destruct (bool_decide _); [apply careful_advance | apply careful_ret].
Qed.

Lemma careful_storage_iter : careful sound [] (storage_iter reader t bc fill).
Proof.
  apply careful_opened. intros f Hf. cbv zeta.
  apply (careful_local _ _ runs_on); [done | by intros s' (_ & _ & _ & _ & _ & Hs')|].
  apply careful_bind; [apply careful_load_block_at|]. intros _. apply careful_get; [|done].
  intros s _. apply careful_ret.
Qed.

Lemma storage_iter_runs w i w' : sound w -> storage_iter reader t bc fill w = (Ok i, w') -> runs_on (i, w').
Proof.
  intros Hw E. apply bind_inv in E as (f & w1 & E1 & E). change (sr_path reader) with path in E1.
  pose proof (opened_data _ _ _ Hw E1) as Hf.
  destruct (careful_open w Hw) as (_ & Hw1 & _). rewrite E1 in Hw1.
  by eapply (careful_local_result []); [apply careful_load_block_at | | exact E].
Qed.
End one_table.
End table_reads.

(** ** Iterators *)

(** What an iterator promises when the operations of its world may fail: its
    methods are careful and keep an invariant of their own. *)
Class CarefulIterator (I : Type) {W : Type} `{OnDisk W} `{!StorageIterator I W} (ok : W -> Prop) : Type := {
  kept : I -> Prop;
  careful_next : careful (fun s : I * W => kept s.1 /\ ok s.2) [] it_next;
  careful_seek : forall key, careful (fun s : I * W => kept s.1 /\ ok s.2) [] (it_seek key)
}.

#[export] Instance careful_entry_iterator {W} `{OnDisk W} (ok : W -> Prop) : CarefulIterator EntryIterator ok.
Proof. by refine {| kept _ := True |}; intros; apply careful_pure. Defined.

Section table_iterator.
Context `{X : Externals} `{HX : !ExternalsOk X} `{H : HashOrder} (tables : Tables).

(** An iterator over some table. *)
Definition over_table (i : SSTableStorageIterator) : Prop :=
  exists comp chunks, compression_succeeds comp /\ table_fits comp chunks /\ si_table comp tables chunks i.

Lemma careful_over_table {A} (m : M (SSTableStorageIterator * RW) A) :
  (forall comp chunks t bc fill, compression_succeeds comp -> table_fits comp chunks ->
    (fill && bc = true -> tables t = blocks_at comp 0 chunks) ->
    careful (runs_on tables comp chunks t bc fill) [] m) ->
  careful (fun s => over_table s.1 /\ sound tables s.2) [] m.
Proof.
  intros Hm. apply careful_each. intros [i w] [(comp & chunks & Hc & Hf & Hd & Hi & Ht) Hw].
  eexists. split; [|split; [exact (Hm comp chunks _ _ _ Hc Hf Ht)|]]; [done|].
  intros [i' w'] (Hd' & Hi' & En & Eb & Ef & Hw'). cbn [fst snd] in *. split; [|done].
  exists comp, chunks. split; [done|]. split; [done|]. split; [done|]. split; [done|]. by rewrite En, Eb, Ef.
Qed.

#[export] Instance careful_table_iterator : CarefulIterator SSTableStorageIterator (sound tables).
Proof.
  refine {| kept := over_table |}; intros; apply careful_over_table; intros comp chunks t bc fill Hc Hf Ht;
    [by apply careful_si_next | by apply careful_si_seek].
Defined.
End table_iterator.

Section combined.
Context {W : Type} `{OnDisk W} (ok : W -> Prop).

(** A method of a part of an object. *)
Lemma careful_part {C L A} (P : C -> Prop) (Q : L -> Prop) (put : C -> L) (m : M (C * W) A) c w :
  careful (fun s : C * W => P s.1 /\ ok s.2) [] m -> P c -> ok w -> (forall c', P c' -> Q (put c')) ->
  let out w := let '(r, (c', w')) := m (c, w) in (r, (put c', w')) in
  ((out w).1 = Err (Io OtherIo) \/ out (hushed w) = ((out w).1, hushed (out w).2)) /\
  (Q (out w).2.1 /\ ok (out w).2.2) /\ only_files [] (disk w) (disk (out w).2.2).
Proof.
  intros Hm Hc Hw Hput out. destruct (Hm (c, w) (conj Hc Hw)) as (Hr & [Hc' Hw'] & Hf). unfold out.
  change (c, hushed w) with (hushed (c, w)). destruct (m (c, w)) as [r [c' w']]. cbn [fst snd] in *.
  split; [|split; [split; [by apply Hput | done] | exact Hf]].
  destruct Hr as [Hr | ->]; [by left | by right].
Qed.

(** *** One of two kinds *)

Section sum.
Context {I J : Type} `{!StorageIterator I W, !StorageIterator J W} `{!CarefulIterator I ok, !CarefulIterator J ok}.

Definition sum_kept (c : I + J) : Prop := match c with inl i => kept i | inr j => kept j end.

#[export] Instance careful_sum_iterator : CarefulIterator (I + J) ok.
Proof.
  refine {| kept := sum_kept |}.
  - intros [[i|j] w] [Hk Hw];
      [apply (careful_part kept sum_kept inl it_next) | apply (careful_part kept sum_kept inr it_next)];
      done || apply careful_next.
  - intros key [[i|j] w] [Hk Hw];
      [apply (careful_part kept sum_kept inl (it_seek key)) | apply (careful_part kept sum_kept inr (it_seek key))];
      done || apply careful_seek.
Defined.
End sum.

(** *** The merging iterator *)

Section merge.
Context {I : Type} `{!StorageIterator I W} `{!CarefulIterator I ok}.

Definition merge_kept (m : MergeIterator I) : Prop := Forall kept (mi_children m).
Definition merge_ok (s : MergeIterator I * W) : Prop := merge_kept s.1 /\ ok s.2.

Lemma careful_on_child i (m : M (I * W) unit) :
  careful (fun s : I * W => kept s.1 /\ ok s.2) [] m -> careful merge_ok [] (on_child i m).
Proof.
  intros Hm [self w] [Hk Hw]. unfold on_child. cbn [fst snd hushed local_on_disk] in *.
  destruct (mi_children self !! i) as [c|] eqn:Ec; [|by split; [right | split]].
  refine (careful_part kept merge_kept
    (fun c => mkMergeIterator (<[i := c]> (mi_children self)) (mi_current self)) m c w Hm _ Hw _).
  - unfold merge_kept in Hk. rewrite Forall_lookup in Hk. by eapply Hk.
  - intros c' Hc'. by apply Forall_insert.
Qed.

Lemma careful_repick : careful merge_ok [] merge_repick.
Proof.
  apply careful_get; [|done]. intros s _. apply careful_bind; [apply careful_lift|]. intros current.
  by apply careful_pure.
Qed.

#[export] Instance careful_merge_iterator : CarefulIterator (MergeIterator I) ok.
Proof.
  refine {| kept := merge_kept |}.
  - apply careful_get; [|done]. intros s _. apply careful_bind; [|intros _; apply careful_repick].
    destruct (mi_current s.1); [apply careful_on_child, careful_next | apply careful_ret].
  - intros key. apply careful_get; [|done]. intros s _. apply careful_bind; [|intros _; apply careful_repick].
    apply careful_for_each. intros i [] _. apply careful_on_child, careful_seek.
Defined.
End merge.

(** *** The rows of the database *)

Section rows.
Context {I : Type} `{!StorageIterator I W} `{!CarefulIterator I ok}.

Definition row_kept (s : DBIterator I * W) : Prop := kept (dbi_inner s.1) /\ ok s.2.

Lemma careful_on_inner (m : M (I * W) unit) :
  careful (fun s : I * W => kept s.1 /\ ok s.2) [] m -> careful row_kept [] (on_inner m).
Proof. by apply careful_zoom. Qed.

Lemma careful_modify_dbi f :
  (forall i : DBIterator I, dbi_inner (f i) = dbi_inner i) -> careful row_kept [] (modify_dbi (W := W) f).
Proof. intros Hf. apply careful_pure; try done. intros [i w] [Hk Hw]. split; [|done]. cbn. by rewrite Hf. Qed.

Lemma careful_advance_loop fuel : careful row_kept [] (advance_loop (I := I) (W := W) fuel).
Proof.
  induction fuel as [|fuel IH]; cbn [advance_loop]; [apply careful_panic|].
  apply careful_get; [|done]. intros s _. cbv zeta. destruct (negb _); [apply careful_ret|].
  apply careful_bind; [apply careful_lift|]. intros k. apply careful_bind; [apply careful_lift|]. intros v.
  apply careful_bind; [apply careful_on_inner, careful_next|]. intros _.
  destruct (_ <? _); [exact IH|]. destruct (negb _); [exact IH|]. destruct (bool_decide _); [exact IH|].
  apply careful_bind; [by apply careful_modify_dbi|]. intros _.
  destruct v; [by apply careful_modify_dbi | exact IH].
Qed.

Lemma careful_advance_visible fuel : careful row_kept [] (advance_to_next_visible (I := I) (W := W) fuel).
Proof.
  apply careful_bind; [by apply careful_modify_dbi|]. intros _. apply careful_advance_loop.
Qed.

Lemma careful_lower_bound : careful row_kept [] (seek_to_lower_bound (I := I) (W := W)).
Proof.
  apply careful_get; [|done]. intros s _. destruct (lower_bound_seek_key _); [|apply careful_ret].
  apply careful_on_inner, careful_seek.
Qed.

Lemma careful_collect_loop fuel n rows : careful row_kept [] (dbi_collect_loop (I := I) (W := W) fuel n rows).
Proof.
  revert rows. induction n as [|n IH]; intros rows; cbn [dbi_collect_loop]; [apply careful_panic|].
  apply careful_get; [|done]. intros s _. destruct (dbi_is_valid _); [|apply careful_ret].
  destruct (dbi_key s.1), (dbi_value s.1); try apply careful_panic. apply careful_bind; [|intros _; apply IH].
  apply careful_get; [|done]. intros s' _. destruct (dbi_current _); [apply careful_advance_visible | apply careful_ret].
Qed.

Lemma careful_try_new fuel (inner : I) lower upper s :
  kept inner -> careful ok [] (dbi_try_new fuel inner lower upper s).
Proof.
  intros Hk. apply (careful_local _ _ row_kept); [done | by intros s' [_ Hs']|].
  apply careful_bind; [apply careful_lower_bound|]. intros _.
  apply careful_bind; [apply careful_advance_visible|]. intros _.
  apply careful_get; [|done]. intros s' _. apply careful_ret.
Qed.

Lemma try_new_kept fuel (inner : I) lower upper s w it w' :
  kept inner -> ok w -> dbi_try_new fuel inner lower upper s w = (Ok it, w') -> kept (dbi_inner it).
Proof.
  intros Hk Hw E. unfold dbi_try_new in E.
  assert (careful row_kept [] (_ ← seek_to_lower_bound (I := I) (W := W); advance_to_next_visible fuel)) as Hm
    by (apply careful_bind; [apply careful_lower_bound | intros _; apply careful_advance_visible]).
  destruct (careful_local_result [] row_kept (mkDBIterator inner lower upper s ∅ None) _ w it w' Hm) as [Hk' _];
    [done | | exact Hk'].
  unfold with_local. rewrite bind_assoc. exact E.
Qed.

Lemma careful_collect fuel (it : DBIterator I) :
  kept (dbi_inner it) -> careful ok [] (with_local it (dbi_collect (W := W) fuel)).
Proof.
  intros Hk. apply (careful_local _ _ row_kept); [done | by intros s [_ Hs]|]. apply careful_collect_loop.
Qed.
End rows.
End combined.

(** ** The reads of the database *)

Section db_reads.
Context `{X : Externals} `{HX : !ExternalsOk X} `{H : HashOrder} `{N : NumberHashOrder}
  `{SM : arena_skip_map} (tables : Tables) (st : DBState SM).

Definition held_table (t : TableRef) : Prop := exists es, table_holds tables t es.

Context (Hl0 : Forall held_table (st_l0_tables st)) (Hlevels : Forall (Forall held_table) (st_level_tables st)).

(** The state of the database is [st] and its cache agrees with the files. *)
Definition honest (d : Db SM) : Prop := sound tables (db_rw d) /\ db_state d = st.

Lemma careful_on_rw {A} (m : M RW A) : careful (sound tables) [] m -> careful honest [] (on_rw m).
Proof.
  apply careful_zoom; try done.
  - by intros d [Hw _].
  - intros d [fs c] [_ Hst] Hw. by split.
Qed.

Lemma careful_probe key s fill t : held_table t -> careful honest [] (probe_table key s fill t).
Proof.
  intros (es & [(comp & chunks & path & Hc & Hf & _ & Er & Hfile & Hb) _ _ _ _]). unfold probe_table. rewrite Er.
  apply careful_bind; [apply careful_lift|]. intros may. destruct (negb may).
  { apply careful_bind; [by apply careful_pure | intros _; apply careful_ret]. }
  apply careful_bind; [apply careful_on_rw; by apply careful_get_with_cache|].
  intros [r|]; [apply careful_ret|]. apply careful_bind; [by apply careful_pure | intros _; apply careful_ret].
Qed.

Lemma careful_get_l0 key s fill ts : Forall held_table ts -> careful honest [] (get_l0 key s fill ts).
Proof.
  induction 1 as [|t ts Ht _ IH]; cbn [get_l0]; [apply careful_ret|]. destruct (negb _); [exact IH|].
  apply careful_bind; [by apply careful_probe|]. intros [r|]; [apply careful_ret | exact IH].
Qed.

Lemma careful_get_levels key s fill levels :
  Forall (Forall held_table) levels -> careful honest [] (get_levels key s fill levels).
Proof.
  induction 1 as [|ts levels Hts _ IH]; cbn [get_levels]; [apply careful_ret|].
  destruct (filter _ ts) as [|t l] eqn:Ef; [exact IH|].
  apply careful_bind; [apply careful_probe | intros [r|]; [apply careful_ret | exact IH]].
  rewrite Forall_forall in Hts. apply Hts.
  assert (t ∈ filter (fun t : TableRef => file_overlaps_user_key t.1 key = true) ts) as Ht by (rewrite Ef; by left).
  by apply list_elem_of_filter in Ht as [_ Ht].
Qed.

Lemma careful_get_opt key opts : careful honest [] (get_opt key opts).
Proof.
  apply careful_get; [|done]. intros d [_ ->]. cbv zeta. destruct (st_closed st); [apply careful_fail|].
  destruct (get_memtables _ _ _); [apply careful_ret|].
  apply careful_bind; [by apply careful_get_l0|]. intros [r|]; [apply careful_ret|].
  apply careful_bind; [by apply careful_get_levels, Forall_drop|]. intros [r|]; apply careful_ret.
Qed.

Lemma careful_table_child fill t : held_table t -> careful honest [] (table_child fill t).
Proof.
  intros (es & [(comp & chunks & path & Hc & Hf & _ & Er & Hfile & Hb) _ _ _ _]). unfold table_child. rewrite Er.
  apply careful_bind; [apply careful_on_rw; by apply careful_storage_iter | intros i; apply careful_ret].
Qed.

Lemma table_child_kept fill t d c d' :
  held_table t -> honest d -> table_child fill t d = (Ok c, d') -> sum_kept (sound tables) c.
Proof.
  intros (es & [(comp & chunks & path & Hc & Hf & _ & Er & Hfile & Hb) _ _ _ _]) [Hw _] E.
  unfold table_child in E. rewrite Er in E. apply bind_inv in E as (i & d1 & E & [= <- <-]).
  unfold on_rw, zoom in E. destruct (storage_iter _ _ _ _ _) as [r w'] eqn:Ei. injection E as -> _.
  destruct (storage_iter_runs tables comp Hc chunks Hf (fm_number t.1) true fill ltac:(done) path Hfile _ _ _ Hw Ei)
    as (Hd & Hi & En & Eb & Ef & _); [done..|].
  exists comp, chunks. split; [done|]. split; [done|]. split; [done|]. split; [done|]. intros _. cbn in En. by rewrite En.
Qed.

Lemma tables_held : Forall held_table (st_l0_tables st ++ concat (st_level_tables st)).
Proof. apply Forall_app. split; [done|]. by apply Forall_concat. Qed.

Abbreviation children_kept := (Forall (kept (I := EntryIterator + SSTableStorageIterator) (ok := sound tables))).

Lemma careful_children fill ts acc :
  Forall held_table ts -> careful honest []
    (for_each ts (fun t children => c ← table_child fill t; mret (children ++ [c])) acc).
Proof.
  intros Hts. apply careful_for_each. intros t cs Ht. rewrite Forall_forall in Hts.
  apply careful_bind; [by apply careful_table_child, Hts | intros c; apply careful_ret].
Qed.

Lemma children_post fill ts acc d cs d' :
  Forall held_table ts -> children_kept acc -> honest d ->
  for_each ts (fun t children => c ← table_child fill t; mret (children ++ [c])) acc d = (Ok cs, d') ->
  children_kept cs.
Proof.
  intros Hts Ha Hd E. pose proof Hts as Hall. rewrite Forall_forall in Hall.
  refine (for_each_post honest [] _ _ _ _ _ _ _ _ _ Ha Hd E).
  - intros t c Ht. apply careful_bind; [by apply careful_table_child, Hall | intros c'; apply careful_ret].
  - intros t c d1 c' d2 Ht Hc Hd1 E1. apply bind_inv in E1 as (x & d3 & E1 & [= <- _]).
    apply Forall_app. split; [exact Hc|]. apply List.Forall_cons; [|constructor].
    by apply (table_child_kept fill t d1 x d3 (Hall t Ht)).
Qed.

(** A scan of [st] with its steps in a row. *)
Definition scan_in_a_row (lower upper : Bound) (opts : ReadOptions) : M (Db SM) (list (bytes * bytes)) :=
  let mem := concat (mem_runs st) in
  let ts := st_l0_tables st ++ concat (st_level_tables st) in
  children ← for_each ts (fun t children => c ← table_child (fill_cache opts) t; mret (children ++ [c]))
    match mem with [] => [] | _ => [inl (entry_iter_new mem)] end;
  merge ← lift (merge_iter_new (W := RW) children);
  iter ← on_rw (dbi_try_new (scan_fuel mem ts) merge lower upper (read_seq_of opts st));
  on_rw (with_local iter (dbi_collect (scan_fuel mem ts))).

Lemma scan_opt_steps lower upper opts d :
  db_state d = st -> st_closed st = false -> scan_opt lower upper opts d = scan_in_a_row lower upper opts d.
Proof.
  intros Hst Hopen. unfold scan_opt, scan_iter_opt. rewrite bind_assoc, bind_get_state. cbv zeta.
  rewrite Hst, Hopen, mem_entries_runs, bind_assoc. apply bind_ext. intros cs d1. rewrite bind_assoc.
  apply bind_ext. intros m d2. by rewrite bind_assoc.
Qed.

Lemma careful_scan_in_a_row lower upper opts : careful honest [] (scan_in_a_row lower upper opts).
Proof.
  unfold scan_in_a_row. cbv zeta. apply (careful_bind_post _ _ children_kept).
  { apply careful_children, tables_held. }
  { intros d cs d' Hd E. eapply children_post; [apply tables_held | | exact Hd | exact E].
    destruct (concat (mem_runs st)); [constructor|]. by repeat constructor. }
  intros cs Hcs. apply (careful_bind_post _ _ (fun m => mi_children m = cs)); [apply careful_lift | |].
  { intros d m d' _ E. unfold lift, merge_iter_new in E. destruct (pick_current cs); [by injection E as <- _ | done..]. }
  intros m Hm. assert (merge_kept (sound tables) m) as Hk by (unfold merge_kept; by rewrite Hm).
  apply (careful_bind_post _ _ (fun it => merge_kept (sound tables) (dbi_inner it))).
  - apply careful_on_rw. by apply (careful_try_new (sound tables)).
  - intros d it d' [Hw _] E. unfold on_rw, zoom in E. destruct (dbi_try_new _ _ _ _ _ _) as [r w'] eqn:Ei.
    injection E as -> _. exact (try_new_kept (sound tables) _ m _ _ _ _ it w' Hk Hw Ei).
  - intros it Hit. apply careful_on_rw. by apply (careful_collect (sound tables)).
Qed.

Lemma careful_scan_opt lower upper opts : st_closed st = false -> careful honest [] (scan_opt lower upper opts).
Proof.
  intros Hopen. eapply careful_same; [|apply careful_scan_in_a_row].
  intros d [_ Hst]. split; by apply scan_opt_steps.
Qed.

Lemma careful_tables_after seq p ts : Forall held_table ts -> careful honest [] (tables_after seq p ts).
Proof.
  induction 1 as [|t ts Ht _ IH]; cbn [tables_after]; [apply careful_ret|]. destruct (_ <=? _); [exact IH|].
  destruct Ht as (es & [(comp & chunks & path & Hc & Hf & _ & Er & Hfile & Hb) _ _ _ _]). rewrite Er.
  apply careful_bind; [apply careful_on_rw; by apply careful_entries_with_cache|].
  intros es'. destruct (entry_after _ _ _); [apply careful_ret | exact IH].
Qed.

Lemma careful_any_after seq p : careful honest [] (any_entry_after seq p).
Proof.
  apply careful_get; [|done]. intros d [_ ->]. cbv zeta. destruct (entry_after _ _ _); [apply careful_ret|].
  destruct (existsb _ _); [apply careful_ret | apply careful_tables_after, tables_held].
Qed.

Lemma careful_changed {K} (changed : K -> M (Db SM) bool) (msg : K -> string) ks :
  (forall k, careful honest [] (changed k)) -> careful honest []
    (for_each ks (fun k _ => c ← changed k; if (c : bool) then fail (TransactionConflict (msg k)) else mret tt) tt).
Proof.
  intros Hc. apply careful_for_each. intros k [] _. apply careful_bind; [apply Hc|].
  intros []; [apply careful_fail | apply careful_ret].
Qed.

Lemma careful_conflicts seq read_keys read_ranges write_keys :
  careful honest [] (ensure_no_transaction_conflicts seq read_keys read_ranges write_keys).
Proof.
  apply careful_bind; [apply careful_changed; intros k; apply careful_any_after|]. intros _.
  apply careful_bind; [apply careful_changed; intros k; apply careful_any_after|]. intros _.
  apply (careful_changed (fun r : ReadRange => range_changed_after r.1 r.2 seq)
    (fun _ => "scanned range changed after snapshot"%string)). intros r. apply careful_any_after.
Qed.
End db_reads.

(** ** Properties *)

Section properties.
Context `{X : Externals} `{HX : !ExternalsOk X} `{H : HashOrder} `{N : NumberHashOrder}
  `{SM : arena_skip_map} `{!SkipMapOk SM} (tables : Tables) (l0 : list (list entry))
  (levels : list (list (list entry))).

(** A run of [m] reports an I/O error or has a good result; either way the
    files and the state of the database are as they were, and its cache agrees
    with the files. *)
Definition honestly {A} (m : M (Db SM) A) (good : res A -> Prop) (d : Db SM) : Prop :=
  ((m d).1 = Err (Io OtherIo) \/ good (m d).1) /\
  db_ok tables l0 levels (hushed (m d).2) /\ db_state (m d).2 = db_state d /\
  fs_files (db_fs (m d).2) = fs_files (db_fs d).

Lemma careful_honestly {A} (m : M (Db SM) A) good d r d' :
  db_ok tables l0 levels (hushed d) -> careful (honest tables (db_state d)) [] m ->
  m (hushed d) = (r, d') -> good r -> honestly m good d.
Proof.
  intros [Hok Hw Hopen] Hm E Hg. destruct (Hm d) as (Hr & [Hw' Hst] & Hf); [by split|].
  split; [|split; [constructor; [|exact Hw'|]|split; [exact Hst|]]].
  - destruct Hr as [Hr | Hr]; [by left|]. right. rewrite E in Hr. by injection Hr as <- _.
  - change (state_ok tables (db_state (m d).2) l0 levels). by rewrite Hst.
  - change (st_closed (db_state (m d).2) = false). by rewrite Hst.
  - apply map_eq. intros p. apply Hf. by intros ?%elem_of_nil.
Qed.

Lemma tables_of_held st :
  state_ok tables st l0 levels -> Forall (held_table tables) (st_l0_tables st) /\
    Forall (Forall (held_table tables)) (st_level_tables st).
Proof.
  assert (forall ts ess, Forall2 (table_holds tables) ts ess -> Forall (held_table tables) ts) as Hh.
  { intros ts ess. induction 1; constructor; [by eexists | done]. }
  intros Hok. split; [by eapply Hh, Hok|].
  pose proof (so_levels _ _ _ _ Hok) as Hl. revert Hl. generalize (st_level_tables st) levels.
  induction 1; constructor; [by eapply Hh | done].
Qed.

(** C8: on a file system whose operations fail at any time, a point
    read, a scan or the conflict check of a transaction on a database in order
    reports the I/O error or gives exactly the answer it gives without
    failures: an error is never taken for an absent key, an older version or
    the end of a table. The files and the state are untouched, and the block
    cache still agrees with the files. *)
Theorem failing_reads_honest (d : Db SM) :
  db_ok tables l0 levels (hushed d) ->
  let es := contents (db_state d) l0 levels in
  (forall key opts, honestly (get_opt key opts)
    (fun r => r = Ok (live key (read_seq_of opts (db_state d)) es)) d) /\
  (forall lower upper opts, honestly (scan_opt lower upper opts)
    (fun r => exists rows, r = Ok rows /\ scan_spec lower upper (read_seq_of opts (db_state d)) es rows) d) /\
  (forall seq read_keys read_ranges write_keys,
    let free := no_conflict es seq (read_keys.*1 ++ write_keys.*1) read_ranges in
    honestly (ensure_no_transaction_conflicts seq read_keys read_ranges write_keys)
      (fun r => r = Ok tt /\ free \/ (exists m, r = Err (TransactionConflict m)) /\ ~ free) d).
Proof.
  intros Hok es. destruct (tables_of_held (db_state d)) as [Hl0 Hl]; [apply Hok|]. split; [|split].
  - intros key opts. destruct (get_opt_live tables l0 levels _ key opts Hok) as (d' & E & _).
    eapply careful_honestly; [exact Hok | by apply careful_get_opt | exact E | done].
  - intros lower upper opts. destruct (scan_opt_rows tables l0 levels _ lower upper opts Hok) as (rows & d' & E & _ & Hs).
    eapply careful_honestly; [exact Hok | apply careful_scan_opt; [done..|apply Hok] | exact E | by exists rows].
  - intros seq rk rr wk free.
    destruct (ensure_no_conflicts_ok tables l0 levels seq rk rr wk _ Hok) as (r & d' & E & _ & Hr).
    eapply careful_honestly; [exact Hok | by apply careful_conflicts | exact E | exact Hr].
Qed.
End properties.

(** ** A read that fails and one that does not *)

Section read_examples.
#[local] Existing Instance toy_externals.
#[local] Existing Instance toy_hash_order.
#[local] Existing Instance toy_number_hash_order.
#[local] Existing Instance toy_skip_map.
#[local] Existing Instance toy_os_messages.

(** The only version of the key is in a table. *)
Definition flushed_db : Db toy_skip_map := (flush unflushed_db).2.

Lemma flushed_settled : exists tables l0 levels batches, settled tables l0 levels batches flushed_db.
Proof.
  destruct unflushed_settled as (tables & l0 & levels & batches & Hs).
  destruct (flush_now_ok _ _ _ _ unflushed_db Hs) as (d' & tables' & l0' & batches' & E & Hs' & _).
  - by vm_compute.
  - apply (bool_decide_unpack _). by vm_compute.
  - exists tables', l0', levels, batches'. unfold flushed_db. by rewrite E.
Qed.

Definition failing_db : Db toy_skip_map := faulty [IoFail 0] flushed_db.

Lemma failing_reads_honest_witness :
  (db_get [1] flushed_db).1 = Ok (Some [10]) /\ (db_get [1] failing_db).1 = Err (Io OtherIo) /\
  exists tables l0 levels, honestly tables l0 levels (get_opt [1] default_read_options)
    (fun r => r = Ok (live [1] (read_seq_of default_read_options (db_state failing_db))
      (contents (db_state failing_db) l0 levels))) failing_db.
Proof.
  split; [by vm_compute|]. split; [by vm_compute|].
  destruct flushed_settled as (tables & l0 & levels & batches & [[[Hok Hw Hopen] _] _ _ _]).
  assert (db_ok tables l0 levels (hushed failing_db)) as Hdb.
  { unfold failing_db. rewrite hushed_faulty by by vm_compute. by constructor. }
  exists tables, l0, levels. exact (proj1 (failing_reads_honest tables l0 levels failing_db Hdb) [1] default_read_options).
Defined.
End read_examples.
