(* ===== verification/DbUnlocked.v ===== *)
(** * Reads after the release of the lock

    [DB::get_opt] and [DB::scan_iter_opt] hold the lock on the state while they
    look into the memtables and clone the lists of tables; the tables are
    searched after its release, when other threads may already have written,
    flushed or compacted.  A read answers as of the moment it held the lock as
    long as the files of its tables and their cached blocks are still there,
    which a compaction that deletes them does not ensure. *)

From stdpp Require Import base list gmap strings.
From S2P Require Import Prelude Key Spec Memtable Iterators Coding Batch Env Externals Wal Block Cache.
From S2P Require Import Format Table Reader TableCache Version Options Metrics.
From S2P Require Import Compact Mvcc DbState DbRead DbMem DbFlush DbInv DbFlushOk DbCompact.
From S2P Require Import DbWrite DbSettled DbGroup DbWriteOk DbOpen DbCrash DbSession DbSessionOk.
From S2P Require Import DbFaults DbFlushCrash DbReadFaults.

Section unlocked.
Context `{X : Externals} `{HX : !ExternalsOk X} `{H : HashOrder} `{HO : !HashOrderOk H}
  `{N : NumberHashOrder} `{SM : arena_skip_map} `{!SkipMapOk SM} `{O : OsMessages}.

(** The files and cached blocks of the tables of [d] are those of [tables']. *)
Definition keeps_tables (tables tables' : Tables) (d : Db SM) : Prop :=
  Forall (fun t : TableRef =>
    fs_files (tb_fs tables') !! sr_path t.2 = fs_files (tb_fs tables) !! sr_path t.2 /\
    tables' (fm_number t.1) = tables (fm_number t.1)) (all_tables (db_state d)).

Context (tables tables' : Tables) (l0 : list (list entry)) (levels : list (list (list entry))).

Section halves.
Context (d d' : Db SM) (Hok : db_ok tables l0 levels d) (Hkeep : keeps_tables tables tables' d)
  (Hrw : rw_inv tables' (db_rw d')).

Lemma get_halves_apart key opts : exists found d'',
  get_locked key opts d = (Ok found, d) /\
  get_unlocked key (fill_cache opts) found d'
    = (Ok (live key (read_seq_of opts (db_state d)) (contents (db_state d) l0 levels)), d'') /\
  only_reads tables' d' d''.
Proof.
  destruct Hok as [Hst _ Hopen]. pose proof (state_ok_frame _ _ _ _ _ Hst Hkeep) as Hst'.
  destruct (get_locked_ok tables' l0 levels d key opts (state_ok_readable _ _ _ _ Hst') Hopen) as [E | [E ->]].
  - eexists _, d'. split; [exact E|]. split; [done | by apply only_reads_refl].
  - destruct Hst' as [_ Hl0 Hl Hl00 Hdis _ _ _ _].
    destruct (get_unlocked_ok tables' _ _ _ _ key (read_seq_of opts (db_state d)) (fill_cache opts) d'
      Hl0 Hl Hdis Hl00 Hrw) as (d'' & E' & Hd). by eexists _, d''.
Qed.

Lemma scan_halves_apart lower upper opts : exists found rows d'',
  scan_locked opts d = (Ok found, d) /\
  (it ← scan_unlocked lower upper (fill_cache opts) found; on_rw (with_local it.2 (dbi_collect it.1))) d'
    = (Ok rows, d'') /\
  scan_spec lower upper (read_seq_of opts (db_state d)) (contents (db_state d) l0 levels) rows /\
  only_reads tables' d' d''.
Proof.
  destruct Hok as [Hst _ Hopen]. pose proof (state_ok_readable _ _ _ _ (state_ok_frame _ _ _ _ _ Hst Hkeep)) as Hst'.
  destruct Hst' as [_ Hl0 Hl _ _ _ Hcons Hseq]. rewrite contents_parts in *.
  destruct (scan_unlocked_ok tables' (concat (mem_runs (db_state d)))
    (st_l0_tables (db_state d) ++ concat (st_level_tables (db_state d))) (l0 ++ concat levels) lower upper
    (fill_cache opts) (read_seq_of opts (db_state d)) d') as (rows & d'' & E & Hd & Hs);
    [apply Forall2_app; [done | by apply concat_levels_holds] | done | done | done |].
  eexists _, rows, d''. split; [by apply scan_locked_ok|]. split; [exact E | by split].
Qed.
End halves.

(** C9: a point read, or a scan, that takes its lock on a database in order
    and searches the tables it cloned only on a later database, whatever other
    threads made of it, answers with the newest visible version, or the live
    rows, as of the moment it held the lock; provided the files of those tables
    and the blocks the cache has of them are still the same. *)
Theorem unlocked_read_same (d d' : Db SM) :
  db_ok tables l0 levels d -> keeps_tables tables tables' d -> rw_inv tables' (db_rw d') ->
  (forall key opts, exists found d'',
    get_locked key opts d = (Ok found, d) /\
    get_unlocked key (fill_cache opts) found d'
      = (Ok (live key (read_seq_of opts (db_state d)) (contents (db_state d) l0 levels)), d'') /\
    only_reads tables' d' d'') /\
  (forall lower upper opts, exists found rows d'',
    scan_locked opts d = (Ok found, d) /\
    (it ← scan_unlocked lower upper (fill_cache opts) found; on_rw (with_local it.2 (dbi_collect it.1))) d'
      = (Ok rows, d'') /\
    scan_spec lower upper (read_seq_of opts (db_state d)) (contents (db_state d) l0 levels) rows /\
    only_reads tables' d' d'').
Proof.
  intros Hok Hkeep Hrw. split; [intros key opts | intros lower upper opts].
  - by apply get_halves_apart.
  - by apply scan_halves_apart.
Qed.
End unlocked.

(** ** Another thread between the two halves *)

Section unlocked_examples.
#[local] Existing Instance toy_externals.
#[local] Existing Instance toy_hash_order.
#[local] Existing Instance toy_number_hash_order.
#[local] Existing Instance toy_skip_map.
#[local] Existing Instance toy_os_messages.

(** It overwrites the key and flushes. *)
Definition overwritten_db : Db toy_skip_map :=
  (flush (db_write (mkWriteBatch [BPut [1] [11]]) default_write_options flushed_db).2).2.

Definition late_get (d' : Db toy_skip_map) : res (option bytes) :=
  match get_locked [1] default_read_options flushed_db with
  | (Ok found, _) => (get_unlocked [1] true found d').1
  | _ => Panic
  end.

Lemma overwritten_keeps :
  Forall (fun t : TableRef => fs_files (db_fs overwritten_db) !! sr_path t.2
    = fs_files (db_fs flushed_db) !! sr_path t.2) (all_tables (db_state flushed_db)).
Proof. apply (bool_decide_unpack _). by vm_compute. Qed.

Lemma overwritten_cache : fs_oracle (db_fs overwritten_db) = [] /\
  db_block_cache overwritten_db = db_block_cache flushed_db.
Proof. split; vm_compute; reflexivity. Qed.

Lemma unlocked_read_same_witness :
  (db_get [1] overwritten_db).1 = Ok (Some [11]) /\ late_get overwritten_db = Ok (Some [10]) /\
  exists l0 levels found d'', get_locked [1] default_read_options flushed_db = (Ok found, flushed_db) /\
    get_unlocked [1] true found overwritten_db = (Ok (live [1] (read_seq_of default_read_options
      (db_state flushed_db)) (contents (db_state flushed_db) l0 levels)), d'').
Proof.
  split; [by vm_compute|]. split; [by vm_compute|].
  destruct flushed_settled as (tables & l0 & levels & batches & [[Hok _] _ _ _]).
  pose proof Hok as [_ [[_ Efs] Hcache] _]. cbn [db_rw rw_fs rw_cache] in Efs, Hcache.
  destruct overwritten_cache as [Eo Ec].
  destruct (unlocked_read_same tables (mkTables (db_fs overwritten_db) (tb_blocks tables)) l0 levels
    flushed_db overwritten_db Hok) as [Hget _].
  - unfold keeps_tables. cbn [tb_fs tb_blocks]. rewrite <- Efs. eapply Forall_impl; [exact overwritten_keeps|].
    intros t Ht. exact (conj Ht eq_refl).
  - split; [split; [exact Eo | reflexivity]|]. cbn [db_rw rw_cache tb_blocks]. rewrite Ec. exact Hcache.
  - destruct (Hget [1] default_read_options) as (found & d'' & E1 & E2 & _).
    exists l0, levels, found, d''. exact (conj E1 E2).
Defined.

(** A compaction in between deletes the table: the key is there before and
    after, and the read fails. *)
Example late_get_after_compaction :
  let compacted := (compact_range Unbounded Unbounded flushed_db).2 in
  (db_get [1] flushed_db).1 = Ok (Some [10]) /\ (db_get [1] compacted).1 = Ok (Some [10]) /\
  late_get compacted = Err (Io NotFound).
Proof. vm_compute. auto. Qed.
End unlocked_examples.
