(* ===== verification/DbCompactReads.v ===== *)
(** * Reads across a compaction

    [execute_compaction] with any task of the picker, as a client sees it. *)

From Stdlib Require Import Sorting.Sorted.
From stdpp Require Import base list gmap strings sorting.
From S2P Require Import Prelude Key Spec Memtable Coding Batch Env Externals Wal Block Cache.
From S2P Require Import Format Properties Table Reader TableCache Version Options Metrics.
From S2P Require Import Compact Mvcc DbState DbRead DbMem DbFlush DbInv DbFlushOk DbCompact.
From S2P Require Import DbWrite DbSettled DbCompactOk DbCompactRun DbGroup DbWriteOk DbCommitOk.
From S2P Require Import DbOpen DbCrash DbSession DbSessionOk.

Section compact_reads.
Context `{X : Externals} `{HX : !ExternalsOk X} `{H : HashOrder} `{N : NumberHashOrder}
  `{SM : arena_skip_map} `{!SkipMapOk SM}.

(** What point reads and scans through a snapshot return. *)
Definition answers_at (snap : Snapshot) (v : view) (d : Db SM) : Prop :=
  (forall key, (get_opt key (options_at snap) d).1 = Ok (v key)) /\
  forall lower upper, exists rows,
    (scan_opt lower upper (options_at snap) d).1 = Ok rows /\ view_rows lower upper v rows.

Lemma settled_answers_at tables l0 levels batches (d : Db SM) snap v :
  settled tables l0 levels batches d ->
  (forall key, live key (read_seq snap) (contents (db_state d) l0 levels) = v key) -> answers_at snap v d.
Proof.
  intros Hs Hv. pose proof (settled_ok _ _ _ _ _ Hs) as Hok. split.
  - intros key. destruct (get_opt_live tables l0 levels d key (options_at snap) Hok) as (d' & E & _).
    rewrite E. cbn [fst]. f_equal. apply Hv.
  - intros lower upper.
    destruct (scan_opt_rows tables l0 levels d lower upper (options_at snap) Hok) as (rows & d' & E & _ & Hs').
    exists rows. rewrite E. split; [done|]. apply scan_spec_rows in Hs'. exact (view_rows_same _ _ _ _ _ Hv Hs').
Qed.

(** C11: a compaction of a task that [task_fits] the database, whose inputs are
    all tables of level 0 or one table of a deeper level with every table
    below that shares keys with them, and whose outputs the formats hold
    (and have no empty key, which splitting for several workers cuts apart),
    succeeds and leaves a database in order in which the inputs are gone
    from their level. Reads and scans of now, and those through a snapshot that
    the watermark protects, return what they returned before. *)
Theorem compaction_keeps_reads tables l0 levels batches (d : Db SM) t :
  settled tables l0 levels batches d -> task_fits t d ->
  exists d' tables' l0' levels', execute_compaction t d = (Ok true, d') /\
    settled tables' l0' levels' batches d' /\ inputs_gone t d' /\
    answers (now_view l0 levels (db_state d)) d' /\
    forall snap, protected d (read_seq snap) -> read_seq snap <= st_last_sequence (db_state d) ->
      answers_at snap (fun key => live key (read_seq snap) (contents (db_state d) l0 levels)) d'.
Proof.
  intros Hs Hfit. destruct (execute_compaction_settles _ _ _ _ _ _ Hs Hfit)
    as (d' & tables' & l0' & levels' & E & Hs' & Hw & _ & Hgone).
  exists d', tables', l0', levels'. split; [exact E|]. split; [exact Hs'|]. split; [exact Hgone|].
  pose proof (settled_ok _ _ _ _ _ Hs') as Hok'. split.
  - apply (db_ok_answers _ _ _ _ _ Hok'). intros key. unfold now_view at 1.
    rewrite (wn_new _ _ _ _ _ _ _ Hw) by done. pose proof (wn_last _ _ _ _ _ _ _ Hw) as El.
    change (len []) with 0 in El. rewrite Z.add_0_r in El. rewrite El. reflexivity.
  - intros snap Hp Hle. eapply settled_answers_at; [exact Hs'|]. intros key.
    by apply (wn_old _ _ _ _ _ _ _ Hw).
Qed.
End compact_reads.

(** ** Two level 0 tables and a snapshot *)

Section compact_examples.
#[local] Existing Instance toy_externals.
#[local] Existing Instance toy_hash_order.
#[local] Existing Instance toy_number_hash_order.
#[local] Existing Instance toy_skip_map.
#[local] Existing Instance toy_os_messages.

Definition example_fill : list request :=
  [Put [1] [10]; Put [2] [20]; Flush; Put [1] [11]; TakeSnapshot; Delete [2]; Flush].

Definition example_filled : Session := (serve_all example_fill example_session).2.

Definition example_task : CompactionTask :=
  match pick_manual (vs_current (db_versions (se_db example_filled))) Unbounded Unbounded with
  | Ok (Some t) => t
  | _ => mkCompactionTask 0 0 [] [] [] [] true
  end.

Lemma example_fill_ok : session_ok example_fill example_session.
Proof. unfold example_fill. check_session. Qed.

Lemma example_filled_settled :
  exists tables l0 levels batches, settled tables l0 levels batches (se_db example_filled).
Proof.
  destruct (represents_new "db" default_options 0 empty_fs empty_fs_fresh eq_refl eq_refl
    ltac:(done) eq_refl) as (d & fs' & E & Hrep).
  assert (example_session = mkSession d [] []) as Es by (unfold example_session, example_new; by rewrite E).
  rewrite <- Es in Hrep.
  destruct (represents_all _ _ _ _ Hrep example_fill_ok) as (m & tables & l0 & levels & batches & Hst).
  exists tables, l0, levels, batches. exact (sf_settled _ _ _ _ _ _ _ Hst).
Qed.

Lemma compaction_keeps_reads_witness :
  exists d', execute_compaction example_task (se_db example_filled) = (Ok true, d') /\
    inputs_gone example_task d' /\ len (ct_input_files example_task) = 2 /\
    (db_get [1] d').1 = Ok (Some [11]) /\ (db_get [2] d').1 = Ok None.
Proof.
  destruct example_filled_settled as (tables & l0 & levels & batches & Hs).
  assert (range_fits Unbounded Unbounded (se_db example_filled)) as Hfit
    by (apply full_range_fits_ok; by vm_compute).
  assert (pick_manual (vs_current (db_versions (se_db example_filled))) Unbounded Unbounded = Ok (Some example_task)) as Et
    by by vm_compute.
  destruct (compaction_keeps_reads tables l0 levels batches (se_db example_filled) example_task Hs (Hfit _ Et))
    as (d' & tables' & l0' & levels' & E & _ & Hgone & _).
  exists d'. split; [exact E|]. split; [exact Hgone|]. split; [by vm_compute|].
  assert (d' = (execute_compaction example_task (se_db example_filled)).2) as -> by by rewrite E.
  split; by vm_compute.
Defined.
End compact_examples.
