(* ===== verification/Fuzz.v ===== *)
(** * The fuzz target

    [bin/fuzz_model.rs]: bytes of the input choose operations on a database and
    on an ordered map, and after each the two must agree.  Its assertions never
    fail: [run_case] returns [Ok] for every input whose calls have room. *)

From Stdlib Require Import Sorting.Sorted Strings.Ascii.
From stdpp Require Import base list gmap strings sorting.
From S2P Require Import Prelude Key Spec Memtable Coding Batch Env Externals Wal Block Cache.
From S2P Require Import Format Properties Table Reader TableCache Version Options Metrics.
From S2P Require Import Compact Mvcc DbState DbRead DbMem DbFlush DbInv DbFlushOk DbCompact.
From S2P Require Import DbWrite DbSettled DbCompactOk DbCompactRun DbGroup DbWriteOk DbCommitOk.
From S2P Require Import DbOpen DbCrash DbSession DbSessionOk.

(** ** Inputs *)

(** [input.chunks(3)]. *)
Fixpoint chunks3 (input : bytes) : list bytes :=
  match input with
  | a :: b :: c :: rest => [a; b; c] :: chunks3 rest
  | [] => []
  | rest => [rest]
  end.

(** [chunk.get(i).copied().unwrap_or_default()]. *)
Definition chunk_byte (chunk : bytes) (i : nat) : Z := default 0 (chunk !! i).

Definition fuzz_op (chunk : bytes) : Z := chunk_byte chunk 0 mod 7.

(** [format!("fk-{key_id:02}")] and [format!("fv-{value_id:03}")] of a [u8]. *)
Definition fuzz_key (chunk : bytes) : bytes :=
  let key_id := chunk_byte chunk 1 mod 32 in
  string_bytes "fk-" ++ [48 + key_id / 10; 48 + key_id mod 10].
Definition fuzz_value (chunk : bytes) : bytes :=
  let value_id := chunk_byte chunk 2 in
  string_bytes "fv-" ++ [48 + value_id / 100; 48 + value_id / 10 mod 10; 48 + value_id mod 10].

(** [{hash:016x}]. *)
Definition hex_digit (d : Z) : Z := if d <? 10 then 48 + d else 87 + d.
Definition fmt016x (n : u64) : string :=
  bytes_string (map (fun i => hex_digit (Z.land (Z.shiftr n (4 * Z.of_nat i)) 15)) (rev (seq 0 16))).

Definition fuzz_hash (input : bytes) : u64 :=
  foldl (fun hash byte => Z.lxor (wrap64 (hash * 0x1000000001b3)) byte) 0xcbf29ce484222325 input.

(** [process_id] is that of the process, in decimal. *)
Definition fuzz_dir (process_id : Z) (input : bytes) : string :=
  path_join (path_join "target" "tylsmdb-fuzz")
    ("fuzz-model-" ++ bytes_string (dec_digits 20 process_id) ++ "-" ++ fmt016x (fuzz_hash input)).

Definition fuzz_options : Options := {|
  create_if_missing := create_if_missing default_options;
  error_if_exists := error_if_exists default_options;
  memtable_size := 256;
  max_immutable_memtables := max_immutable_memtables default_options;
  block_size := 256;
  target_file_size_base := 512;
  max_levels := max_levels default_options;
  level0_file_num_compaction_trigger := level0_file_num_compaction_trigger default_options;
  level0_slowdown_writes_trigger := level0_slowdown_writes_trigger default_options;
  level0_stop_writes_trigger := level0_stop_writes_trigger default_options;
  max_bytes_for_level_base := max_bytes_for_level_base default_options;
  max_bytes_for_level_multiplier := max_bytes_for_level_multiplier default_options;
  wal_enabled := wal_enabled default_options;
  wal_sync_mode := wal_sync_mode default_options;
  bloom_false_positive_rate := bloom_false_positive_rate default_options;
  block_cache_capacity := block_cache_capacity default_options;
  max_background_flushes := max_background_flushes default_options;
  max_background_compactions := max_background_compactions default_options;
  max_subcompactions := 3;
  memtable_kind := KSkipList;
  table_compression := CZstd;
  write_rate_limit_bytes_per_sec := write_rate_limit_bytes_per_sec default_options;
  write_group_max_delay_micros := write_group_max_delay_micros default_options
|}.

(** [std::fs::remove_dir_all]: what lies under the directory, and the
    directory. *)
Definition under (path name : string) : bool := String.prefix (path ++ "/") name.

Definition remove_dir_all (path : string) : M Fs unit :=
  fallible (fun fs =>
    (Ok tt, mkFs (filter (fun f => under path f.1 = false) (fs_files fs))
       (filter (fun name => under path name = false /\ name <> path) (fs_dirs fs)) (fs_oracle fs))).

(** [let _ = ...]. *)
Definition ignore {S A} (m : M S A) : M S unit := fun s =>
  match m s with (Panic, s) => (Panic, s) | (_, s) => (Ok tt, s) end.

(** ** The loop *)

Section fuzz.
Context `{X : Externals} `{HX : !ExternalsOk X} `{H : HashOrder} `{N : NumberHashOrder}
  `{SM : arena_skip_map} `{!SkipMapOk SM} `{O : OsMessages}.

(** The database and the oracle, a [BTreeMap]. *)
Definition FuzzState : Type := Db SM * list (bytes * bytes).

Definition on_fuzz_db {A} (m : M (Db SM) A) : M FuzzState A := zoom fst (fun d s => (d, s.2)) m.
Definition on_oracle (f : list (bytes * bytes) -> list (bytes * bytes)) : M FuzzState unit :=
  modify (fun s => (s.1, f s.2)).

Definition assert_scan_matches : M FuzzState unit :=
  rows ← on_fuzz_db (db_scan Unbounded Unbounded);
  s ← get_state;
  if bool_decide (rows = s.2) then mret tt else panic.

(** [drop(db); db = DB::open(&path, fuzz_options())?]. *)
Definition fuzz_reopen (path : string) : M FuzzState unit := fun s =>
  let '(r, fs) := open_db path fuzz_options (db_now s.1) (db_fs s.1) in
  match r with
  | Ok d => (Ok tt, (d, s.2))
  | Err e => (Err e, s)
  | Panic => (Panic, s)
  end.

Definition fuzz_step (path : string) (chunk : bytes) : M FuzzState unit :=
  let op := fuzz_op chunk in
  let key := fuzz_key chunk in
  let value := fuzz_value chunk in
  _ ← (if (op =? 0) || (op =? 1) then
         _ ← on_fuzz_db (db_put key value);
         on_oracle (bt_insert bytes_cmp key value)
       else if op =? 2 then
         _ ← on_fuzz_db (db_delete key);
         on_oracle (bt_remove bytes_cmp key)
       else if op =? 3 then
         found ← on_fuzz_db (db_get key);
         s ← get_state;
         if bool_decide (found = bt_get bytes_cmp key s.2) then mret tt else panic
       else if op =? 4 then assert_scan_matches
       else if op =? 5 then on_fuzz_db flush
       else
         _ ← on_fuzz_db (compact_range Unbounded Unbounded);
         fuzz_reopen path);
  assert_scan_matches.

Definition fuzz_loop (path : string) (chunks : list bytes) : M FuzzState unit :=
  for_each chunks (fun chunk _ => fuzz_step path chunk) tt.

(** The database of a run that goes well is left behind for the file system. *)
Definition run_chunks (path : string) (now : instant) (chunks : list bytes) : M Fs unit := fun fs =>
  let '(r, fs) := open_db path fuzz_options now fs in
  match r with
  | Ok d =>
      let '(r, s) := fuzz_loop path chunks (d, []) in
      (r, db_fs s.1)
  | Err e => (Err e, fs)
  | Panic => (Panic, fs)
  end.

Definition run_case (process_id : Z) (now : instant) (input : bytes) : M Fs unit :=
  let path := fuzz_dir process_id input in
  _ ← ignore (remove_dir_all path);
  _ ← create_dir_all path;
  _ ← run_chunks path now (chunks3 input);
  ignore (remove_dir_all path).

(** ** What the calls need *)

Definition alone_with (d : Db SM) : Session := mkSession d [] [].

Definition chunk_room (chunk : bytes) (d : Db SM) : Prop :=
  let op := fuzz_op chunk in
  if (op =? 0) || (op =? 1) then request_ok (Put (fuzz_key chunk) (fuzz_value chunk)) (alone_with d)
  else if op =? 2 then request_ok (Delete (fuzz_key chunk)) (alone_with d)
  else if (op =? 3) || (op =? 4) then True
  else if op =? 5 then request_ok Flush (alone_with d)
  else
    let d' := (compact_range Unbounded Unbounded d).2 in
    request_ok (CompactRange Unbounded Unbounded) (alone_with d) /\
    request_ok (Reopen fuzz_options (db_now d')) (alone_with d').

Fixpoint fuzz_room (path : string) (chunks : list bytes) (s : FuzzState) : Prop :=
  match chunks with
  | [] => True
  | chunk :: chunks => chunk_room chunk s.1 /\ fuzz_room path chunks (fuzz_step path chunk s).2
  end.

(** ** The two agree *)

Definition agrees (path : string) (s : FuzzState) : Prop :=
  represents path (alone_with s.1) (mkModel (fun key => bt_get bytes_cmp key s.2) [] []) /\
  StronglySorted (key_lt bytes_cmp) s.2.

Lemma represents_ext path (s : Session) m m' :
  (forall key, mo_view m key = mo_view m' key) -> mo_snapshots m = mo_snapshots m' -> mo_txs m = mo_txs m' ->
  represents path s m -> represents path s m'.
Proof.
  intros Ev Es Et (tables & l0 & levels & batches & [Hs Hwal Hp Hv Hss Hts Hw]).
  exists tables, l0, levels, batches. constructor; [done | done | done | | by rewrite <- Es | by rewrite <- Et | done].
  intros key. by rewrite Hv.
Qed.

(** A call on the database. *)
Lemma on_fuzz_db_ok {A B} (m : M (Db SM) A) (f : A -> M FuzzState B) (s : FuzzState) a d' :
  m s.1 = (Ok a, d') -> (x ← on_fuzz_db m; f x) s = f a (d', s.2).
Proof. intros E. unfold on_fuzz_db, zoom, mbind, M_bind. by rewrite E. Qed.

(** All rows of a view are the view. *)
Lemma all_rows (m rows : list (bytes * bytes)) :
  StronglySorted (key_lt bytes_cmp) m ->
  view_rows Unbounded Unbounded (fun key => bt_get bytes_cmp key m) rows -> rows = m.
Proof.
  intros Hm [Hs Hr]. apply (sorted_lt_unique bytes_cmp); [done | done |]. intros [k x].
  rewrite Hr, (bt_get_in bytes_cmp) by done. tauto.
Qed.

Lemma scan_agrees path s :
  agrees path s -> exists s', assert_scan_matches s = (Ok tt, s') /\ agrees path s'.
Proof.
  intros [Hrep Hs]. pose proof Hrep as (tables & l0 & levels & batches & Hst).
  destruct (represents_scan path Unbounded Unbounded default_read_options _ _ _ _ _ _ _ Hst (sf_view _ _ _ _ _ _ _ Hst))
    as (rows & d' & E & Hrows & Hrep'). cbn [alone_with se_db mo_view] in E, Hrows.
  exists (d', s.2). split; [|by split]. unfold assert_scan_matches.
  rewrite (on_fuzz_db_ok (db_scan Unbounded Unbounded) _ s rows d' E), bind_get_state. cbn [snd].
  by rewrite bool_decide_eq_true_2 by by apply all_rows.
Qed.

(** A write and what it does to the oracle. *)
Lemma agrees_written path d (s : FuzzState) rs m :
  StronglySorted (key_lt bytes_cmp) m ->
  (forall key, view_after rs (fun key => bt_get bytes_cmp key s.2) key = bt_get bytes_cmp key m) ->
  represents path (alone_with d) (model_write rs (mkModel (fun key => bt_get bytes_cmp key s.2) [] [])) ->
  agrees path (d, m).
Proof.
  intros Hm Hv Hrep. split; [|exact Hm].
  exact (represents_ext path _ (model_write rs (mkModel (fun key => bt_get bytes_cmp key s.2) [] []))
    (mkModel (fun key => bt_get bytes_cmp key m) [] []) Hv eq_refl eq_refl Hrep).
Qed.

Lemma put_view key value (m : list (bytes * bytes)) key' :
  StronglySorted (key_lt bytes_cmp) m ->
  apply_record (fun k => bt_get bytes_cmp k m) (BPut key value) key'
  = bt_get bytes_cmp key' (bt_insert bytes_cmp key value m).
Proof.
  intros Hm. cbn [apply_record]. destruct (decide (key = key')) as [<-|Hne].
  - by rewrite bt_get_insert_eq by (done || apply _).
  - by rewrite bt_get_insert_ne by (done || apply _ || congruence).
Qed.

Lemma delete_view key (m : list (bytes * bytes)) key' :
  StronglySorted (key_lt bytes_cmp) m ->
  apply_record (fun k => bt_get bytes_cmp k m) (BDelete key) key'
  = bt_get bytes_cmp key' (bt_remove bytes_cmp key m).
Proof.
  intros Hm. cbn [apply_record]. destruct (decide (key = key')) as [<-|Hne].
  - by rewrite bt_get_remove_eq by (done || apply _).
  - by rewrite bt_get_remove_ne by (done || apply _ || congruence).
Qed.

Lemma put_agrees path key value s :
  agrees path s -> request_ok (Put key value) (alone_with s.1) ->
  exists s', (_ ← on_fuzz_db (db_put key value); on_oracle (bt_insert bytes_cmp key value)) s = (Ok tt, s') /\
    agrees path s'.
Proof.
  intros [Hrep Hs] Hok. destruct (represents_write path _ _ _ _ Hrep Hok) as (d' & E & Hrep').
  exists (d', bt_insert bytes_cmp key value s.2). split.
  - by rewrite (on_fuzz_db_ok (db_put key value) _ s tt d' E).
  - eapply agrees_written; [by apply bt_insert_sorted; [apply _|] | | exact Hrep'].
    intros key'. by apply put_view.
Qed.

Lemma delete_agrees path key s :
  agrees path s -> request_ok (Delete key) (alone_with s.1) ->
  exists s', (_ ← on_fuzz_db (db_delete key); on_oracle (bt_remove bytes_cmp key)) s = (Ok tt, s') /\
    agrees path s'.
Proof.
  intros [Hrep Hs] Hok. destruct (represents_write path _ _ _ _ Hrep Hok) as (d' & E & Hrep').
  exists (d', bt_remove bytes_cmp key s.2). split.
  - by rewrite (on_fuzz_db_ok (db_delete key) _ s tt d' E).
  - eapply agrees_written; [by apply bt_remove_sorted; [apply _|] | | exact Hrep'].
    intros key'. by apply delete_view.
Qed.

Lemma get_agrees path key s :
  agrees path s ->
  exists s', (found ← on_fuzz_db (db_get key); s ← get_state;
    if bool_decide (found = bt_get bytes_cmp key s.2) then mret tt else panic) s = (Ok tt, s') /\ agrees path s'.
Proof.
  intros [Hrep Hs]. pose proof Hrep as (tables & l0 & levels & batches & Hst).
  destruct (represents_get path key default_read_options _ _ _ _ _ _ _ Hst (sf_view _ _ _ _ _ _ _ Hst key))
    as (d' & E & Hrep'). cbn [alone_with se_db mo_view] in E.
  exists (d', s.2). split; [|by split].
  rewrite (on_fuzz_db_ok (db_get key) _ s _ d' E), bind_get_state. cbn [snd].
  by rewrite bool_decide_eq_true_2 by done.
Qed.

Lemma flush_agrees path s :
  agrees path s -> request_ok Flush (alone_with s.1) ->
  exists s', on_fuzz_db flush s = (Ok tt, s') /\ agrees path s'.
Proof.
  intros [Hrep Hs] Hok. destruct (represents_flush path _ _ Hrep Hok) as (d' & E & Hrep').
  cbn [alone_with se_db] in E. exists (d', s.2). split; [|by split].
  unfold on_fuzz_db, zoom. by rewrite E.
Qed.

Lemma reopen_agrees path s :
  agrees path s -> let d' := (compact_range Unbounded Unbounded s.1).2 in
  request_ok (CompactRange Unbounded Unbounded) (alone_with s.1) ->
  request_ok (Reopen fuzz_options (db_now d')) (alone_with d') ->
  exists s', (_ ← on_fuzz_db (compact_range Unbounded Unbounded); fuzz_reopen path) s = (Ok tt, s') /\ agrees path s'.
Proof.
  intros [Hrep Hs] d' Hfit Hok.
  destruct (represents_compact path _ _ _ _ Hrep Hfit) as (d1 & E & Hrep1). cbn [alone_with se_db] in E.
  assert (d' = d1) as Ed by (unfold d'; by rewrite E). rewrite Ed in Hok. clear d' Ed.
  change (with_se_db d1 (alone_with s.1)) with (alone_with d1) in Hrep1.
  pose proof Hrep1 as (tables & l0 & levels & batches & Hst). pose proof (sf_path _ _ _ _ _ _ _ Hst) as Hp.
  destruct (represents_reopen path fuzz_options (db_now d1) _ _ Hrep1 Hok) as (d2 & E2 & Hrep2).
  cbn [alone_with se_db] in E2, Hp. exists (d2, s.2). split; [|by split].
  rewrite (on_fuzz_db_ok (compact_range Unbounded Unbounded) _ s tt d1 E).
  unfold fuzz_reopen. cbn [fst snd]. rewrite <- Hp.
  destruct (open_db (db_path d1) fuzz_options (db_now d1) (db_fs d1)) as [r fs]. cbn [fst] in E2. by subst r.
Qed.

Lemma step_agrees path chunk s :
  agrees path s -> chunk_room chunk s.1 -> exists s', fuzz_step path chunk s = (Ok tt, s') /\ agrees path s'.
Proof.
  intros Ha Hroom. unfold fuzz_step. cbv zeta.
  match goal with |- context [mbind (fun _ => assert_scan_matches) ?op] =>
    enough (exists s1, op s = (Ok tt, s1) /\ agrees path s1) as (s1 & E1 & Ha1) end.
  { destruct (scan_agrees path s1 Ha1) as (s2 & E2 & Ha2). exists s2. by rewrite (bind_ok _ _ _ _ _ E1). }
  unfold chunk_room in Hroom. cbv zeta in Hroom.
  destruct ((fuzz_op chunk =? 0) || (fuzz_op chunk =? 1)); [by apply put_agrees|].
  destruct (fuzz_op chunk =? 2); [by apply delete_agrees|].
  destruct (fuzz_op chunk =? 3); [by apply get_agrees|].
  destruct (fuzz_op chunk =? 4); [by apply scan_agrees|].
  destruct (fuzz_op chunk =? 5); [by apply flush_agrees|].
  destruct Hroom as [Hfit Hok]. by apply reopen_agrees.
Qed.

Lemma loop_agrees path chunks s :
  agrees path s -> fuzz_room path chunks s -> exists s', fuzz_loop path chunks s = (Ok tt, s') /\ agrees path s'.
Proof.
  unfold fuzz_loop. revert s. induction chunks as [|chunk chunks IH]; intros s Ha Hroom; [by exists s|].
  destruct Hroom as [Hc Hr]. destruct (step_agrees path chunk s Ha Hc) as (s1 & E1 & Ha1). rewrite E1 in Hr.
  destruct (IH s1 Ha1 Hr) as (s2 & E2 & Ha2). exists s2. cbn [for_each]. by rewrite (bind_ok _ _ _ _ _ E1).
Qed.

(** ** The directory *)

Lemma prefix_app p t : String.prefix p (p ++ t) = true.
Proof.
  induction p as [|c p IH]; [by destruct t|].
  change ((if ascii_dec c c then String.prefix p (p ++ t) else false) = true).
  destruct (ascii_dec c c) as [|Hn]; [exact IH | by destruct Hn].
Qed.

Lemma string_app_assoc (a b c : string) : ((a ++ b) ++ c = a ++ b ++ c)%string.
Proof. induction a as [|x a IH]; [done|]. exact (f_equal (String x) IH). Qed.

Definition cleared (path : string) (fs : Fs) : Fs :=
  mkFs (filter (fun f => under path f.1 = false) (fs_files fs))
    (filter (fun name => under path name = false /\ name <> path) (fs_dirs fs)) [].

(** What a case starts from. *)
Definition emptied (path : string) (fs : Fs) : Fs :=
  mkFs (fs_files (cleared path fs)) ({[path]} ∪ fs_dirs (cleared path fs)) [].

Lemma remove_dir_all_ok path fs : fs_oracle fs = [] -> remove_dir_all path fs = (Ok tt, cleared path fs).
Proof. intros Ho. unfold remove_dir_all. rewrite fallible_ok by done. unfold cleared. by rewrite Ho. Qed.

Lemma cleared_fresh path fs :
  fresh_dir path (emptied path fs).
Proof.
  split; [done|]. intros name. apply env_exists_false. cbn [emptied fs_files fs_dirs cleared].
  assert (under path (path_join path name) = true) as Hu.
  { pose proof (prefix_app (path ++ "/") name) as Hp. rewrite string_app_assoc in Hp. exact Hp. }
  split.
  - rewrite elem_of_union, elem_of_singleton, elem_of_filter. intros [E|[[E _] _]]; [|congruence].
    by apply path_join_ne in E.
  - apply map_lookup_filter_None. right. intros bs _. cbn [fst]. congruence.
Qed.

Lemma agrees_start path now fs :
  fresh_dir path fs -> compression_succeeds CZstd ->
  exists d fs', open_db path fuzz_options now fs = (Ok d, fs') /\ agrees path (d, []).
Proof.
  intros Hf Hc. destruct (represents_new path fuzz_options now fs Hf eq_refl eq_refl Hc eq_refl) as (d & fs' & E & Hrep).
  exists d, fs'. split; [exact E|]. split; [exact Hrep | constructor].
Qed.

Lemma agrees_oracle path s : agrees path s -> fs_oracle (db_fs s.1) = [].
Proof. intros [(tables & l0 & levels & batches & [[[[_ [[Ho _] _] _] _] _ _ _] _ _ _ _ _ _]) _]. exact Ho. Qed.

(** C13: the fuzz target passes on every input whose calls have room: no call
    fails, and after each operation a read and a scan of the database give what
    the map in memory gives; afterwards nothing is left in its directory. *)
Theorem fuzz_case_passes process_id now input fs :
  fs_oracle fs = [] -> compression_succeeds CZstd ->
  let path := fuzz_dir process_id input in
  (forall d fs', open_db path fuzz_options now (emptied path fs) = (Ok d, fs') ->
     fuzz_room path (chunks3 input) (d, [])) ->
  exists fs', run_case process_id now input fs = (Ok tt, fs') /\
    forall name, env_exists (path_join path name) fs' = false.
Proof.
  intros Ho Hc path Hroom. unfold run_case. fold path. cbv zeta.
  assert (forall fs, fs_oracle fs = [] -> ignore (remove_dir_all path) fs = (Ok tt, cleared path fs)) as Hrm
    by (intros fs1 Ho1; unfold ignore; by rewrite remove_dir_all_ok).
  rewrite (bind_ok _ _ _ _ _ (Hrm fs Ho)).
  set (fs1 := emptied path fs) in *.
  erewrite bind_ok by (unfold create_dir_all; rewrite fallible_ok by done; exact (eq_refl (Ok tt, fs1))).
  destruct (agrees_start path now fs1 (cleared_fresh path fs) Hc) as (d & fs2 & E & Ha).
  destruct (loop_agrees path (chunks3 input) (d, []) Ha (Hroom d fs2 E)) as (s' & E2 & Ha').
  exists (cleared path (db_fs s'.1)). split.
  - assert (run_chunks path now (chunks3 input) fs1 = (Ok tt, db_fs s'.1)) as E3
      by (unfold run_chunks; by rewrite E, E2).
    rewrite (bind_ok _ _ _ _ _ E3). apply Hrm. by eapply agrees_oracle.
  - intros name. destruct (cleared_fresh path (db_fs s'.1)) as [_ Hn]. specialize (Hn name).
    apply env_exists_false in Hn as [Hd Hn]. apply env_exists_false. split; [|exact Hn].
    cbn [emptied fs_dirs] in Hd. set_solver.
Qed.
End fuzz.

(** ** The input of the test [fuzz_target.rs] *)

Section fuzz_example.
#[local] Existing Instance toy_externals.
#[local] Existing Instance toy_hash_order.
#[local] Existing Instance toy_number_hash_order.
#[local] Existing Instance toy_skip_map.
#[local] Existing Instance toy_os_messages.

Definition example_input : bytes :=
  [0; 1; 10; 1; 2; 11; 3; 1; 0; 5; 0; 0; 6; 0; 0; 2; 1; 0; 4; 0; 0].

Definition example_fuzz_dir : string := fuzz_dir 77 example_input.
Definition example_opened : Db toy_skip_map :=
  match open_db example_fuzz_dir fuzz_options 0 (emptied example_fuzz_dir empty_fs) with
  | (Ok d, _) => d
  | _ => example_new
  end.

Lemma example_guard r (d : Db toy_skip_map) :
  bool_decide (record_storable r) && (len (record_bytes r) <? 2 ^ 31) &&
  (st_last_sequence (db_state d) + 2 <? 2 ^ 64) && (vs_next_file_number (db_versions d) <? 2 ^ 62) &&
  match db_write_rate_limiter d with None => true | _ => false end &&
  (len (st_l0_tables (db_state d)) <? level0_stop_writes_trigger (db_options d)) &&
  bool_decide (table_bounded (db_options d) (mt_entries (st_mutable (apply_batch
    (st_last_sequence (db_state d) + 1) (mkWriteBatch [r]) (db_state d))))) = true ->
  write_ok (mkWriteBatch [r]) default_write_options d.
Proof.
  intros [[[[[[H1 H2]%andb_true_iff H3]%andb_true_iff H4]%andb_true_iff H5]%andb_true_iff H6]%andb_true_iff H7]%andb_true_iff.
  apply example_write_ok, example_guard_ok; try done; [by apply bool_decide_eq_true_1 in H1 | lia |].
  by destruct (db_write_rate_limiter d).
Qed.

(** The needs of a chunk by computation. *)
Ltac check_chunk :=
  unfold chunk_room; cbv zeta;
  match goal with |- context [fuzz_op ?c] => let v := eval vm_compute in (fuzz_op c) in change (fuzz_op c) with v end;
  cbn [Z.eqb Pos.eqb orb];
  lazymatch goal with
  | |- request_ok (Put _ _) _ => apply example_guard; by vm_compute
  | |- request_ok (Delete _) _ => apply example_guard; by vm_compute
  | |- request_ok Flush _ => split; by vm_compute
  | |- request_ok (CompactRange _ _) _ /\ _ =>
      split; [apply full_range_fits_ok; by vm_compute | repeat split; by vm_compute]
  | |- True => exact I
  end.

Lemma example_room : fuzz_room example_fuzz_dir (chunks3 example_input) (example_opened, []).
Proof. cbn [chunks3 example_input fuzz_room]. repeat match goal with |- _ /\ _ => split end; try exact I; check_chunk. Qed.

Lemma fuzz_case_passes_witness :
  exists fs', run_case 77 0 example_input empty_fs = (Ok tt, fs') /\
    env_exists (path_join example_fuzz_dir CURRENT_FILE) fs' = false.
Proof.
  assert (compression_succeeds CZstd) as Hc by done.
  destruct (fuzz_case_passes 77 0 example_input empty_fs eq_refl Hc) as (fs' & E & Hn).
  - fold example_fuzz_dir. intros d fs' E.
    assert (d = example_opened) as -> by (unfold example_opened; by rewrite E). exact example_room.
  - exists fs'. split; [exact E | apply Hn].
Defined.
End fuzz_example.
