(* ===== verification/DbQueue.v ===== *)
(** * The queue of writers

    [DB::write] of [src/db.rs] with its threads: a writer joins the group that
    gathers, the first of a group leads it, the others wait on their condition
    variable until the leader has completed them.  The state is that of all
    calls of [write]; each access to shared data under a lock is a step, and
    steps of different threads interleave.  Other threads may change the
    database between any two steps. *)

From Stdlib Require Import Sorting.Sorted.
From stdpp Require Import base list gmap strings sorting.
From S2P Require Import Prelude Key Spec Memtable Coding Batch Env Externals Wal Block Cache.
From S2P Require Import Format Properties Table Reader TableCache Version Options Metrics.
From S2P Require Import Compact Mvcc DbState DbRead DbMem DbFlush DbCompact DbWrite.

(** ** The calls *)

(** Where a call of [write] is.  [Leading]: it found the queue empty and is
    about to pause; [Gathering]: it is about to drain the queue.  Then it has
    a group: [Drained], before the batches are taken; [Admitting], before the
    limiter and the pressure of level 0; [Applying], before the group is
    logged and applied; [Flushing], before the flush if there is one.
    [Completing]: it has results to give; [Notifying i]: it has given [i] its
    result and will notify it.  [Checking] and [Asleep] are the two states of
    [PendingWrite::wait].  A panic unwinds the thread of a leader with the
    results it still owes. *)
Inductive Phase : Type :=
  | Leading
  | Gathering
  | Drained (group : list nat)
  | Admitting (group : list nat) (items : list GroupWriteItem)
  | Applying (group : list nat) (items : list GroupWriteItem)
  | Flushing (group : list nat) (should_flush : bool)
  | Completing (results : list (nat * res unit))
  | Notifying (i : nat) (results : list (nat * res unit))
  | Checking
  | Asleep
  | Returned (result : res unit)
  | Panicked (group : list nat).

(** A call; [batch], [opts] and [result] are the fields of its
    [PendingWrite]. *)
Record PendingWrite : Type := mkPendingWrite {
  pw_batch : option WriteBatch;
  pw_opts : WriteOptions;
  pw_result : option (res unit);
  pw_phase : Phase
}.

Definition pending_write_new (batch : WriteBatch) (opts : WriteOptions) (p : Phase) : PendingWrite :=
  mkPendingWrite (Some batch) opts None p.

Definition with_phase (p : Phase) (w : PendingWrite) : PendingWrite :=
  mkPendingWrite (pw_batch w) (pw_opts w) (pw_result w) p.
Definition with_result (r : option (res unit)) (w : PendingWrite) : PendingWrite :=
  mkPendingWrite (pw_batch w) (pw_opts w) r (pw_phase w).

(** [Option::take] on the batch. *)
Definition without_batch (w : PendingWrite) : PendingWrite :=
  mkPendingWrite None (pw_opts w) (pw_result w) (pw_phase w).

(** [take_batch]: the batch is there, or the call panics. *)
Definition take_batch (w : PendingWrite) : res (WriteBatch * PendingWrite) :=
  match pw_batch w with
  | Some batch => Ok (batch, without_batch w)
  | None => Panic
  end.

(** [complete], without the notification. *)
Definition complete (result : res unit) : PendingWrite -> PendingWrite := with_result (Some result).

(** A notification wakes the thread if it waits. *)
Definition notify_one (w : PendingWrite) : PendingWrite :=
  match pw_phase w with Asleep => with_phase Checking w | _ => w end.

(** One round of the loop of [wait]: the result is taken, or the call
    sleeps. *)
Definition wait_round (w : PendingWrite) : PendingWrite :=
  match pw_result w with
  | Some r => with_phase (Returned r) (with_result None w)
  | None => with_phase Asleep w
  end.

Section queue.
Context `{X : Externals} `{H : HashOrder} `{N : NumberHashOrder} `{SM : arena_skip_map}
  `{O : OsMessages}.

(** The database, the queue [write_group] and all calls so far; a call is named
    by its index. *)
Record Writers : Type := mkWriters {
  wq_db : Db SM;
  wq_group : list nat;
  wq_writes : list PendingWrite
}.

Definition on_write (i : nat) (f : PendingWrite -> PendingWrite) (s : Writers) : Writers :=
  mkWriters (wq_db s) (wq_group s) (alter f i (wq_writes s)).
Definition set_phase (i : nat) (p : Phase) : Writers -> Writers := on_write i (with_phase p).
Definition with_group (group : list nat) (s : Writers) : Writers :=
  mkWriters (wq_db s) group (wq_writes s).
Definition with_wq_db (d : Db SM) (s : Writers) : Writers := mkWriters d (wq_group s) (wq_writes s).

(** What happens to the database and to the callers. *)
Inductive event : Type :=
  | EWrite (i : nat) (batch : WriteBatch) (opts : WriteOptions)
  | EGroup (group : list nat) (items : list GroupWriteItem) (r : res bool)
  | EReturn (i : nat) (r : res unit).

(** A call begins: an empty batch returns at once, another one joins the
    queue. *)
Definition write_begin (batch : WriteBatch) (opts : WriteOptions) (s : Writers) : Writers * list event :=
  let i := length (wq_writes s) in
  if batch_is_empty batch then
    (mkWriters (wq_db s) (wq_group s) (wq_writes s ++ [pending_write_new batch opts (Returned (Ok tt))]),
     [EWrite i batch opts; EReturn i (Ok tt)])
  else
    let is_leader := match wq_group s with [] => true | _ => false end in
    (mkWriters (wq_db s) (wq_group s ++ [i])
       (wq_writes s ++ [pending_write_new batch opts (if is_leader then Leading else Checking)]),
     [EWrite i batch opts]).

(** The batches of a group. *)
Fixpoint take_batches (group : list nat) (writes : list PendingWrite) :
    res (list GroupWriteItem * list PendingWrite) :=
  match group with
  | [] => Ok ([], writes)
  | i :: group =>
      match writes !! i with
      | None => Panic
      | Some w =>
          t ← take_batch w;
          rest ← take_batches group (<[i := t.2]> writes);
          Ok (group_item (t.1, pw_opts w) :: rest.1, rest.2)
      end
  end.

(** The pause of a leader, and what its group goes through. *)
Definition group_pause (opts : WriteOptions) : M (Db SM) unit :=
  d ← get_state;
  if wo_sync opts || bool_decide (wal_sync_mode (db_options d) = PerWrite)
  then sleep (write_group_max_delay_micros (db_options d) * 1000) else mret tt.

Definition group_admission (items : list GroupWriteItem) : M (Db SM) unit :=
  let total := foldl (fun n item => wrap64 (n + gi_user_write_bytes item)) 0 items in
  _ ← on_metrics (record_user_write total);
  _ ← apply_write_rate_limit total;
  apply_write_pressure.

Definition group_flush (should_flush : bool) : M (Db SM) unit :=
  if should_flush then flush else mret tt.

(** The phase after a part of the leader's work. *)
Definition after_work {A} (group : list nat) (next : A -> Phase) (r : res A) : Phase :=
  match r with
  | Ok a => next a
  | Err e => Completing (zip group (repeat_group_error e (length group)))
  | Panic => Panicked group
  end.

Definition work {A} (i : nat) (group : list nat) (m : M (Db SM) A) (next : A -> Phase) (s : Writers) :
    Writers :=
  let '(r, d) := m (wq_db s) in set_phase i (after_work group next r) (with_wq_db d s).

(** The next step of the call [i], when it is not blocked or done. *)
Definition write_step (i : nat) (s : Writers) : option (Writers * list event) :=
  w ← wq_writes s !! i;
  match pw_phase w with
  | Leading => Some (work i [] (group_pause (pw_opts w)) (fun _ => Gathering) s, [])
  | Gathering => Some (set_phase i (Drained (wq_group s)) (with_group [] s), [])
  | Drained group =>
      match take_batches group (wq_writes s) with
      | Ok (items, writes) =>
          Some (set_phase i (Admitting group items) (mkWriters (wq_db s) (wq_group s) writes), [])
      | _ => Some (set_phase i (Panicked group) s, [])
      end
  | Admitting group items =>
      Some (work i group (group_admission items) (fun _ => Applying group items) s, [])
  | Applying group items =>
      Some (work i group (apply_write_group_to_memtable items) (Flushing group) s,
        [EGroup group items (apply_write_group_to_memtable items (wq_db s)).1])
  | Flushing group should_flush =>
      Some (work i group (group_flush should_flush)
        (fun _ => Completing (zip group (replicate (length group) (Ok tt)))) s, [])
  | Completing ((j, r) :: results) =>
      Some (set_phase i (Notifying j results) (on_write j (complete r) s), [])
  | Completing [] => Some (set_phase i Checking s, [])
  | Notifying j results => Some (set_phase i (Completing results) (on_write j notify_one s), [])
  | Checking =>
      Some (on_write i wait_round s, match pw_result w with Some r => [EReturn i r] | None => [] end)
  | Asleep | Returned _ | Panicked _ => None
  end.

(** A wake-up without a notification. *)
Definition spurious (i : nat) (s : Writers) : Writers := on_write i notify_one s.

Inductive queue_step : Writers -> list event -> Writers -> Prop :=
  | qs_begin batch opts s : queue_step s (write_begin batch opts s).2 (write_begin batch opts s).1
  | qs_advance i s s' es : write_step i s = Some (s', es) -> queue_step s es s'
  | qs_spurious i s : queue_step s [] (spurious i s)
  | qs_other d s : queue_step s [] (with_wq_db d s).

(** Runs from an open database with no call. *)
Inductive queue_run (d : Db SM) : list event -> Writers -> Prop :=
  | qr_start : queue_run d [] (mkWriters d [] [])
  | qr_step tr s es s' : queue_run d tr s -> queue_step s es s' -> queue_run d (tr ++ es) s'.

(** ** The invariant *)

(** The calls that a phase still owes a result. *)
Definition held (p : Phase) : list nat :=
  match p with
  | Drained group | Admitting group _ | Applying group _ | Flushing group _ | Panicked group => group
  | Completing results | Notifying _ results => results.*1
  | _ => []
  end.

(** Those whose batches it has not taken. *)
Definition untaken (p : Phase) : list nat := match p with Drained group => group | _ => [] end.

Definition gathers (p : Phase) : bool := match p with Leading | Gathering => true | _ => false end.

Definition phases (s : Writers) : list Phase := map pw_phase (wq_writes s).

(** Every call without a result, in the queue or with its leader. *)
Definition outstanding (s : Writers) : list nat := wq_group s ++ concat (map held (phases s)).
Definition with_batch (s : Writers) : list nat := wq_group s ++ concat (map untaken (phases s)).

(** A leader leads itself; a call that waits is outstanding or has its result,
    and when it sleeps with a result somebody is about to wake it. *)
Definition phase_ok (s : Writers) (i : nat) (w : PendingWrite) : Prop :=
  match pw_phase w with
  | Leading | Gathering | Returned _ | Panicked _ => True
  | Drained group | Admitting group _ | Applying group _ | Flushing group _ => i ∈ group
  | Completing results | Notifying _ results => i ∈ results.*1 \/ is_Some (pw_result w)
  | Checking => i ∈ outstanding s \/ is_Some (pw_result w)
  | Asleep => i ∈ outstanding s \/
      is_Some (pw_result w) /\ exists l results, phases s !! l = Some (Notifying i results)
  end.

Definition is_returned (p : Phase) : bool := match p with Returned _ => true | _ => false end.

Record queue_ok (s : Writers) : Prop := mkQueueOk {
  q_once : NoDup (outstanding s);
  q_waiting : forall i, i ∈ outstanding s -> exists w, wq_writes s !! i = Some w /\
    pw_result w = None /\ is_returned (pw_phase w) = false;
  q_batches : forall i, i ∈ with_batch s -> exists w, wq_writes s !! i = Some w /\ is_Some (pw_batch w);
  q_leader : forall i, head (wq_group s) = Some i <->
    exists p, phases s !! i = Some p /\ gathers p = true;
  q_answer : forall i w, wq_writes s !! i = Some w -> phase_ok s i w
}.

Lemma phases_lookup s i : phases s !! i = pw_phase <$> wq_writes s !! i.
Proof. apply list_lookup_fmap. Qed.

Lemma phases_on_write i f s w :
  wq_writes s !! i = Some w -> phases (on_write i f s) = alter (fun _ => pw_phase (f w)) i (phases s).
Proof.
  intros E. unfold phases, on_write. cbn [wq_writes]. apply list_eq. intros k.
  rewrite list_lookup_fmap, !list_lookup_alter, !list_lookup_fmap. case_decide as Hk; [|done].
  subst k. by rewrite E.
Qed.

Lemma phases_same_lookup i f s w k :
  wq_writes s !! i = Some w -> k <> i -> phases (on_write i f s) !! k = phases s !! k.
Proof. intros E Hk. rewrite (phases_on_write _ _ _ _ E). by apply list_lookup_alter_ne. Qed.

Lemma concat_alter_same {A} (f : Phase -> list A) g i p (l : list Phase) :
  l !! i = Some p -> f (g p) = f p -> concat (map f (alter g i l)) = concat (map f l).
Proof.
  revert i. induction l as [|x l IH]; intros [|i] E Hf; cbn in *; [done | done | |].
  - injection E as ->. by rewrite Hf.
  - by rewrite IH.
Qed.

Lemma concat_alter_sub {A} (f : Phase -> list A) g i p (l : list Phase) :
  l !! i = Some p -> f (g p) ⊆ f p -> concat (map f (alter g i l)) ⊆ concat (map f l).
Proof.
  revert i. induction l as [|x l IH]; intros [|i] E Hf; cbn in *; [done | done | |].
  - injection E as ->. set_solver.
  - specialize (IH i E Hf). set_solver.
Qed.

(** One phase changes. *)
Lemma concat_alter {A} (f : Phase -> list A) g i p (l : list Phase) :
  l !! i = Some p -> concat (map f (alter g i l)) ++ f p ≡ₚ concat (map f l) ++ f (g p).
Proof.
  revert i. induction l as [|x l IH]; intros [|i] E; cbn in *; [done | done | |].
  - injection E as ->. solve_Permutation.
  - rewrite <- !app_assoc. by rewrite IH.
Qed.

Lemma phase_lookup s i w : wq_writes s !! i = Some w -> phases s !! i = Some (pw_phase w).
Proof. intros E. by rewrite phases_lookup, E. Qed.

(** What the answer of a call depends on. *)
Lemma phase_ok_mono s s' i w :
  phase_ok s i w -> (i ∈ outstanding s -> i ∈ outstanding s') ->
  (forall l results, phases s !! l = Some (Notifying i results) ->
     exists l' results', phases s' !! l' = Some (Notifying i results')) ->
  phase_ok s' i w.
Proof.
  unfold phase_ok. intros Hp Ho Hn. destruct (pw_phase w); try exact Hp.
  - destruct Hp as [Hp|Hp]; [left; by apply Ho | by right].
  - destruct Hp as [Hp|[Hr (l & results & Hl)]]; [left; by apply Ho|]. right. split; [done|]. by eapply Hn.
Qed.

Lemma with_db_ok d s : queue_ok s -> queue_ok (with_wq_db d s).
Proof. by intros []. Qed.

(** A call changes, and perhaps the queue: nobody loses a result. *)
Lemma regroup_ok i f group s w :
  let s' := on_write i f (with_group group s) in
  queue_ok s -> wq_writes s !! i = Some w ->
  outstanding s' ≡ₚ outstanding s -> with_batch s' ⊆ with_batch s ->
  (forall k, head group = Some k <-> exists p, phases s' !! k = Some p /\ gathers p = true) ->
  pw_batch (f w) = pw_batch w ->
  (i ∈ outstanding s -> pw_result (f w) = None /\ is_returned (pw_phase (f w)) = false) ->
  (forall j results, pw_phase w <> Notifying j results) -> phase_ok s i (f w) ->
  queue_ok s'.
Proof.
  intros s' [Ho Hw Hb Hl Ha] E Eo Hunt Hg Hbatch Hres Hnot Hok. pose proof (phase_lookup _ _ _ E) as Ep.
  assert (forall k w', wq_writes s' !! k = Some w' ->
    k = i /\ w' = f w \/ k <> i /\ wq_writes s !! k = Some w') as Hlook.
  { intros k w'. unfold s'. cbn [on_write with_group wq_writes]. rewrite list_lookup_alter. case_decide; [|by right].
    subst k. rewrite E. intros [= <-]. by left. }
  assert (forall k w', wq_writes s !! k = Some w' ->
    wq_writes s' !! k = Some (if decide (k = i) then f w else w')) as Hlook'.
  { intros k w' Ek. unfold s'. cbn [on_write with_group wq_writes]. rewrite list_lookup_alter.
    repeat case_decide; try done. subst k. rewrite E in Ek |- *. by injection Ek as <-. }
  constructor.
  - by rewrite Eo.
  - intros k Hk. rewrite Eo in Hk. destruct (Hw k Hk) as (w' & Ek & Hr). eexists. split; [by apply Hlook'|].
    case_decide as Hki; [subst k; by apply Hres | exact Hr].
  - intros k Hk. destruct (Hb k (Hunt k Hk)) as (w' & Ek & Hr). eexists. split; [by apply Hlook'|].
    case_decide as Hki; [|exact Hr]. subst k. rewrite Hbatch. congruence.
  - exact Hg.
  - intros k w' Hk. apply (phase_ok_mono s); [|by rewrite Eo|].
    + destruct (Hlook k w' Hk) as [[-> ->]|[_ Ek]]; [exact Hok | by apply Ha].
    + intros l results Hn. exists l, results. unfold s'. rewrite (phases_same_lookup _ _ _ w) by
        (done || intros ->; rewrite Ep in Hn; injection Hn as Hn; by eapply Hnot). exact Hn.
Qed.

(** A call changes and owes the same results. *)
Lemma on_write_ok i f s w :
  queue_ok s -> wq_writes s !! i = Some w ->
  held (pw_phase (f w)) = held (pw_phase w) -> untaken (pw_phase (f w)) ⊆ untaken (pw_phase w) ->
  gathers (pw_phase (f w)) = gathers (pw_phase w) -> pw_batch (f w) = pw_batch w ->
  (i ∈ outstanding s -> pw_result (f w) = None /\ is_returned (pw_phase (f w)) = false) ->
  (forall j results, pw_phase w <> Notifying j results) -> phase_ok s i (f w) ->
  queue_ok (on_write i f s).
Proof.
  intros Hq E Hheld Hunt Hg. pose proof (phase_lookup _ _ _ E) as Ep.
  apply (regroup_ok i f (wq_group s) s w Hq E).
  - unfold outstanding. rewrite (phases_on_write _ _ (with_group _ s) _ E). apply reflexive_eq. f_equal.
    by eapply concat_alter_same.
  - intros k. unfold with_batch. rewrite (phases_on_write _ _ (with_group _ s) _ E). rewrite !elem_of_app.
    intros [Hk|Hk]; [by left|]. right. revert k Hk. by eapply concat_alter_sub.
  - intros k. rewrite (q_leader _ Hq). rewrite (phases_on_write _ _ (with_group _ s) _ E), list_lookup_alter.
    case_decide as Hk; [|done]. subst k. change (phases (with_group _ s)) with (phases s).
    rewrite Ep. cbn [fmap option_fmap option_map].
    split; intros (p & [= <-] & Hp); eexists; (split; [done|]); congruence.
Qed.

Lemma outstanding_result s i w :
  queue_ok s -> wq_writes s !! i = Some w -> i ∈ outstanding s -> pw_result w = None.
Proof. intros Hq E Hi. destruct (q_waiting _ Hq i Hi) as (w' & E' & Hr & _). congruence. Qed.

(** The same for a change of the phase alone. *)
Lemma set_phase_ok i p s w :
  queue_ok s -> wq_writes s !! i = Some w ->
  held p = held (pw_phase w) -> untaken p ⊆ untaken (pw_phase w) ->
  gathers p = gathers (pw_phase w) -> is_returned p = false ->
  (forall j results, pw_phase w <> Notifying j results) -> phase_ok s i (with_phase p w) ->
  queue_ok (set_phase i p s).
Proof.
  intros Hq E Hh Hu Hg Hr Hn Hok. eapply on_write_ok; try done.
  intros Hi. split; [exact (outstanding_result _ _ _ Hq E Hi) | done].
Qed.

Lemma in_outstanding s i w j : wq_writes s !! i = Some w -> j ∈ held (pw_phase w) -> j ∈ outstanding s.
Proof.
  intros E Hj. unfold outstanding. apply elem_of_app. right. apply elem_of_concat.
  exists (held (pw_phase w)). split; [done|]. apply list_elem_of_fmap_2.
  eapply list_elem_of_lookup_2. by apply phase_lookup.
Qed.

Lemma zip_results (group : list nat) (rs : list (res unit)) :
  length rs = length group -> (zip group rs).*1 = group.
Proof. intros Hl. apply fst_zip. lia. Qed.

Lemma repeat_error_length e n : length (repeat_group_error e n) = n.
Proof. destruct e; apply length_replicate. Qed.

(** The leader has done a part of its work. *)
Lemma work_ok {A} i group (m : M (Db SM) A) next s w :
  queue_ok s -> wq_writes s !! i = Some w -> held (pw_phase w) = group ->
  (forall j results, pw_phase w <> Notifying j results) -> (gathers (pw_phase w) = false) ->
  i ∈ group ->
  (forall a, held (next a) = group /\ untaken (next a) = [] /\ gathers (next a) = false /\
     is_returned (next a) = false /\ phase_ok s i (with_phase (next a) w)) ->
  queue_ok (work i group m next s).
Proof.
  intros Hq E Hh Hn Hg Hi Hnext. unfold work. destruct (m (wq_db s)) as [r d].
  assert (forall p, held p = group /\ untaken p = [] /\ gathers p = false /\ is_returned p = false /\
    phase_ok s i (with_phase p w) -> queue_ok (set_phase i p (with_wq_db d s))) as Hset.
  { intros p (H1 & H2 & H3 & H4 & H5). apply (set_phase_ok i _ (with_wq_db d s) w); try done.
    - by apply with_db_ok.
    - congruence.
    - rewrite H2. apply list_subseteq_nil.
    - congruence. }
  apply Hset. destruct r as [a|e|]; cbn [after_work]; [apply Hnext | | done].
  unfold phase_ok. cbn [with_phase pw_phase held untaken gathers is_returned].
  rewrite zip_results by apply repeat_error_length. repeat split; try done. by left.
Qed.

(** The leader takes the whole queue. *)
Lemma queue_drain_ok i s w :
  queue_ok s -> wq_writes s !! i = Some w -> pw_phase w = Gathering ->
  queue_ok (set_phase i (Drained (wq_group s)) (with_group [] s)).
Proof.
  intros Hq E Hp. pose proof (phase_lookup _ _ _ E) as Ep. rewrite Hp in Ep.
  assert (head (wq_group s) = Some i) as Hi by (apply (q_leader _ Hq); by exists Gathering).
  assert (i ∈ wq_group s) as Hin by (destruct (wq_group s); [done|]; injection Hi as ->; by left).
  unfold set_phase. assert (phases (on_write i (with_phase (Drained (wq_group s))) (with_group [] s))
    = alter (fun _ => Drained (wq_group s)) i (phases s)) as Eph
    by exact (phases_on_write i _ (with_group [] s) w E).
  apply (regroup_ok i _ [] s w Hq E); try done.
  - unfold outstanding. rewrite Eph. cbn [wq_group set_phase on_write with_group app].
    pose proof (concat_alter held (fun _ => Drained (wq_group s)) i _ _ Ep) as Hc.
    cbn [held] in Hc. rewrite app_nil_r in Hc. rewrite Hc. apply Permutation_app_comm.
  - unfold with_batch. rewrite Eph. cbn [wq_group set_phase on_write with_group app].
    pose proof (concat_alter untaken (fun _ => Drained (wq_group s)) i _ _ Ep) as Hc.
    cbn [untaken] in Hc. rewrite app_nil_r in Hc. intros k. rewrite Hc. rewrite !elem_of_app. tauto.
  - intros k. split; [done|]. intros (p & Hk & Hg).  rewrite Eph, list_lookup_alter in Hk. case_decide as Hki.
    + subst k. rewrite Ep in Hk. by injection Hk as <-.
    + assert (head (wq_group s) = Some k) as Hk' by (apply (q_leader _ Hq); by exists p). congruence.
  - intros Ho. split; [exact (outstanding_result _ _ _ Hq E Ho) | done].
  - by rewrite Hp.
Qed.

(** Taking the batches of a group. *)
Lemma take_batches_ok group writes :
  NoDup group -> (forall i, i ∈ group -> exists w, writes !! i = Some w /\ is_Some (pw_batch w)) ->
  exists items writes', take_batches group writes = Ok (items, writes') /\
    (forall k, writes' !! k = if decide (k ∈ group) then without_batch <$> writes !! k else writes !! k) /\
    Forall2 (fun i item => exists w batch, writes !! i = Some w /\ pw_batch w = Some batch /\
      item = group_item (batch, pw_opts w)) group items.
Proof.
  revert writes. induction group as [|i group IH]; intros writes Hnd Hb.
  { exists [], writes. split; [done|]. split; [done | constructor]. }
  apply NoDup_cons in Hnd as [Hi Hnd]. destruct (Hb i ltac:(by left)) as (w & E & [batch Eb]).
  destruct (IH (<[i := without_batch w]> writes) Hnd) as (items & writes' & Er & Hw & Hit).
  { intros k Hk. rewrite list_lookup_insert_ne by (intros ->; done). apply Hb. by right. }
  exists (group_item (batch, pw_opts w) :: items), writes'. split; [|split].
  - cbn [take_batches]. rewrite E.
    assert (take_batch w = Ok (batch, without_batch w)) as -> by (unfold take_batch; by rewrite Eb).
    cbn [mbind res_bind fst snd]. by rewrite Er.
  - intros k. rewrite Hw. destruct (decide (k = i)) as [->|Hk].
    + rewrite decide_False, decide_True by (done || by left).
      rewrite list_lookup_insert_eq by by eapply lookup_lt_Some. by rewrite E.
    + rewrite list_lookup_insert_ne by done. pose proof (elem_of_cons group k i).
      repeat case_decide; try done; exfalso; set_solver.
  - constructor; [by exists w, batch|].
    assert (Forall (fun k => k <> i) group) as Hne by (apply Forall_forall; intros k Hk ->; done).
    eapply Forall2_impl; [exact (Forall2_and_l _ _ _ _ Hit Hne)|].
    intros k item [(w' & b & Ek & ? & ?) Hki]. exists w', b. split; [|done].
    by rewrite list_lookup_insert_ne in Ek.
Qed.

(** Batches of calls whose batch is taken do not matter. *)
Lemma rebatch_ok s writes :
  queue_ok s ->
  (forall k, k ∈ with_batch s -> writes !! k = wq_writes s !! k) ->
  (forall k, writes !! k = wq_writes s !! k \/ writes !! k = without_batch <$> wq_writes s !! k) ->
  queue_ok (mkWriters (wq_db s) (wq_group s) writes).
Proof.
  intros [Ho Hw Hb Hl Ha] Hsame Hor. set (s' := mkWriters _ _ writes).
  assert (phases s' = phases s) as Eph.
  { apply list_eq. intros k. rewrite !phases_lookup. cbn [s' wq_writes].
    destruct (Hor k) as [->| ->]; [done|]. by destruct (wq_writes s !! k). }
  assert (forall k w, wq_writes s !! k = Some w -> exists w', writes !! k = Some w' /\
    pw_result w' = pw_result w /\ pw_phase w' = pw_phase w) as Hk.
  { intros k w E. destruct (Hor k) as [->| ->]; rewrite E; by eexists. }
  constructor; unfold outstanding, with_batch; rewrite ?Eph; try done.
  - intros k Hin. destruct (Hw k Hin) as (w & E & Hr). destruct (Hk k w E) as (w' & E' & Er & Ep).
    exists w'. by rewrite Er, Ep.
  - intros k Hin. cbn [s' wq_writes]. rewrite (Hsame k Hin). by apply Hb.
  - intros k w' E'. cbn [s' wq_writes] in E'.
    assert (exists w, wq_writes s !! k = Some w /\ pw_result w' = pw_result w /\ pw_phase w' = pw_phase w)
      as (w & E & Er & Ep).
    { destruct (Hor k) as [Eo|Eo]; rewrite E' in Eo; [by exists w'|].
      destruct (wq_writes s !! k) as [w|]; [|done]. injection Eo as ->. by exists w. }
    apply (phase_ok_mono s); [|by unfold outstanding; rewrite Eph | by rewrite Eph; eauto].
    specialize (Ha k w E). unfold phase_ok in *. by rewrite Er, Ep.
Qed.

Lemma with_batch_sub s : with_batch s `sublist_of` outstanding s.
Proof.
  unfold with_batch, outstanding. apply sublist_app; [done|].
  induction (phases s) as [|p l IH]; [done|]. cbn. apply sublist_app; [|exact IH].
  destruct p; try done; apply sublist_nil_l.
Qed.

(** The leader takes the batches of its group, and does not panic. *)
Lemma take_ok i s w group :
  queue_ok s -> wq_writes s !! i = Some w -> pw_phase w = Drained group ->
  exists items writes, take_batches group (wq_writes s) = Ok (items, writes) /\
    queue_ok (set_phase i (Admitting group items) (mkWriters (wq_db s) (wq_group s) writes)) /\
    (forall k, writes !! k = wq_writes s !! k \/ writes !! k = without_batch <$> wq_writes s !! k) /\
    Forall2 (fun j item => exists w batch, wq_writes s !! j = Some w /\ pw_batch w = Some batch /\
      item = group_item (batch, pw_opts w)) group items.
Proof.
  intros Hq E Hp. pose proof (phase_lookup _ _ _ E) as Ep. rewrite Hp in Ep.
  assert (NoDup (with_batch s)) as Hnd by (eapply sublist_NoDup; [apply Hq | apply with_batch_sub]).
  assert (forall items, with_batch s ≡ₚ group ++ with_batch (set_phase i (Admitting group items) s)) as Hu.
  { intros items. unfold with_batch, set_phase. rewrite (phases_on_write _ _ _ _ E).
    pose proof (concat_alter untaken (fun _ => Admitting group items) i _ _ Ep) as Hc. cbn [untaken] in Hc.
    rewrite app_nil_r in Hc. rewrite <- Hc. cbn [with_phase pw_phase wq_group on_write]. solve_Permutation. }
  pose proof Hnd as Hg. rewrite (Hu []) in Hg. apply NoDup_app in Hg as (Hg & _).
  destruct (take_batches_ok group (wq_writes s) Hg) as (items & writes & Et & Hw & Hit).
  { intros k Hk. apply (q_batches _ Hq). rewrite (Hu []). apply elem_of_app. by left. }
  exists items, writes. split; [exact Et|]. split; [|split; [|exact Hit]].
  2: { intros k. rewrite Hw. case_decide; auto. }
  assert (queue_ok (set_phase i (Admitting group items) s)) as Hq'.
  { apply (set_phase_ok i _ s w); rewrite ?Hp; try done. 
    - apply list_subseteq_nil.
    - pose proof (q_answer _ Hq i w E) as Ha. unfold phase_ok in Ha. by rewrite Hp in Ha. }
  assert (forall k, alter (with_phase (Admitting group items)) i writes !! k
    = if decide (k ∈ group) then without_batch <$> wq_writes (set_phase i (Admitting group items) s) !! k
      else wq_writes (set_phase i (Admitting group items) s) !! k) as Hk.
  { intros k. unfold set_phase, on_write. cbn [wq_writes]. rewrite !list_lookup_alter, !Hw.
    repeat case_decide; try done; subst; by destruct (wq_writes s !! k). }
  apply (rebatch_ok _ _ Hq').
  - intros k Hin. rewrite Hk, decide_False; [done|]. intros Hkg.
    rewrite (Hu items) in Hnd. apply NoDup_app in Hnd as (_ & Hdis & _). by apply (Hdis k Hkg).
  - intros k. rewrite Hk. case_decide; auto.
Qed.

(** The leader changes another call and then its own phase. *)
Lemma two_writes_lookup i j p f s k :
  wq_writes (set_phase i p (on_write j f s)) !! k = (fun w =>
    (if decide (k = i) then with_phase p else id) ((if decide (k = j) then f else id) w)) <$> wq_writes s !! k.
Proof.
  unfold set_phase, on_write. cbn [wq_writes]. rewrite !list_lookup_alter.
  destruct (decide (i = k)) as [->|], (decide (j = k)) as [->|]; repeat case_decide; try congruence;
    by destruct (wq_writes s !! k).
Qed.

Lemma two_writes_phases i j p f g s :
  (forall w, pw_phase (f w) = g (pw_phase w)) ->
  phases (set_phase i p (on_write j f s)) = alter (fun _ => p) i (alter g j (phases s)).
Proof.
  intros Hf. apply list_eq. intros k. rewrite phases_lookup, two_writes_lookup, !list_lookup_alter, !phases_lookup.
  destruct (decide (i = k)) as [->|], (decide (j = k)) as [->|]; repeat case_decide; try congruence;
    destruct (wq_writes s !! k); cbn; rewrite ?Hf; done.
Qed.

Section leader.
Context (s : Writers) (i j : nat) (w : PendingWrite) (E : wq_writes s !! i = Some w).

(** What both steps of a leader that gives results keep. *)
Context (p : Phase) (f : PendingWrite -> PendingWrite) (g : Phase -> Phase).
Let s' := set_phase i p (on_write j f s).
Context (Hf : forall w, pw_phase (f w) = g (pw_phase w)) (Hfb : forall w, pw_batch (f w) = pw_batch w).

Lemma leader_map {A} (h : Phase -> list A) : (forall q, h (g q) = h q) ->
  concat (map h (phases s')) ++ h (pw_phase w) ≡ₚ concat (map h (phases s)) ++ h p.
Proof.
  intros Hh. unfold s'. rewrite (two_writes_phases i j p f g s Hf).
  assert (map h (alter g j (phases s)) = map h (phases s)) as Em.
  { rewrite (list_fmap_alter h g id); [by apply list_alter_id | by apply Forall_forall]. }
  rewrite <- Em. destruct (decide (i = j)) as [->|Hij].
  - pose proof (concat_alter h (fun _ => p) j (g (pw_phase w)) (alter g j (phases s))) as Hc.
    rewrite Hh in Hc. apply Hc. rewrite list_lookup_alter_eq. by rewrite (phase_lookup _ _ _ E).
  - apply concat_alter. rewrite list_lookup_alter_ne by done. by apply phase_lookup.
Qed.

Lemma leader_lookup k w' : wq_writes s' !! k = Some w' -> exists wk, wq_writes s !! k = Some wk /\
  pw_batch w' = pw_batch wk /\ pw_result w' = pw_result ((if decide (k = j) then f else id) wk) /\
  pw_phase w' = if decide (k = i) then p else if decide (k = j) then g (pw_phase wk) else pw_phase wk.
Proof.
  unfold s'. rewrite two_writes_lookup. destruct (wq_writes s !! k) as [wk|]; [|done]. intros [= <-].
  exists wk. repeat case_decide; cbn; rewrite ?Hf, ?Hfb; done.
Qed.

Lemma leader_lookup_inv k wk : wq_writes s !! k = Some wk -> is_Some (wq_writes s' !! k).
Proof. unfold s'. rewrite two_writes_lookup. intros ->. by eexists. Qed.

Context (Hq : queue_ok s) (Hg : forall q, held (g q) = held q /\ untaken (g q) = untaken q /\ gathers (g q) = gathers q /\
    is_returned (g q) = is_returned q /\ forall k rs, g q = Notifying k rs <-> q = Notifying k rs)
  (Hw : untaken (pw_phase w) = [] /\ gathers (pw_phase w) = false)
  (Hp : untaken p = [] /\ gathers p = false /\ is_returned p = false)
  (Hout : forall k, k ∈ outstanding s' -> k ∈ outstanding s)
  (Hres : forall w, j ∈ outstanding s' -> pw_result (f w) = pw_result w).

Lemma leader_ok : NoDup (outstanding s') ->
  (forall k w', wq_writes s' !! k = Some w' -> phase_ok s' k w') -> queue_ok s'.
Proof.
  intros Hnd Ha. constructor; [exact Hnd | | | |exact Ha].
  - intros k Hk. destruct (q_waiting _ Hq k (Hout k Hk)) as (wk & Ek & Hr1 & Hr2).
    destruct (leader_lookup_inv k wk Ek) as [w' E']. exists w'. split; [done|].
    destruct (leader_lookup k w' E') as (wk' & Ek' & _ & -> & ->). rewrite Ek in Ek'. injection Ek' as <-.
    split.
    + case_decide; [subst k; by rewrite Hres | done].
    + repeat case_decide; [apply Hp | by destruct (Hg (pw_phase wk)) as (_ & _ & _ & -> & _) | done].
  - intros k Hk. destruct (q_batches _ Hq k) as (wk & Ek & Hr).
    { revert Hk. unfold with_batch. pose proof (leader_map untaken ltac:(apply Hg)) as Hm.
      destruct Hw as [Ew _], Hp as [Ep _]. rewrite Ew, Ep, !app_nil_r in Hm. by rewrite Hm. }
    destruct (leader_lookup_inv k wk Ek) as [w' E']. exists w'. split; [done|].
    destruct (leader_lookup k w' E') as (wk' & Ek' & -> & _). congruence.
  - intros k. change (wq_group s') with (wq_group s). rewrite (q_leader _ Hq).
    unfold s'. rewrite (two_writes_phases i j p f g s Hf), !list_lookup_alter.
    destruct (decide (i = k)) as [->|Hik].
    + rewrite (phase_lookup _ _ _ E).
      split; [intros (q & [= <-] & Hgq); destruct Hw as [_ Hw1]; congruence|].
      intros (q & Eq & Hgq). exfalso. destruct Hp as (_ & Hp1 & _). apply fmap_Some in Eq as (? & _ & ->). congruence.
    + case_decide as Hjk; [|done]. subst k. split; intros (q & Eq & Hgq).
      * exists (g q). rewrite Eq. split; [done|]. by destruct (Hg q) as (_ & _ & -> & _).
      * destruct (phases s !! j) as [q'|]; [|done]. injection Eq as <-. exists q'. split; [done|].
        by destruct (Hg q') as (_ & _ & <- & _).
Qed.
End leader.

(** A call gets its result. *)
Lemma complete_ok i s w j r results :
  queue_ok s -> wq_writes s !! i = Some w -> pw_phase w = Completing ((j, r) :: results) ->
  queue_ok (set_phase i (Notifying j results) (on_write j (complete r) s)).
Proof.
  intros Hq E Hp. set (s' := set_phase _ _ _).
  assert (phases s' = alter (fun _ => Notifying j results) i (phases s)) as Eph.
  { unfold s'. rewrite (two_writes_phases i j _ (complete r) id) by done. by rewrite (list_alter_id id). }
  pose proof (leader_map s i j w E (Notifying j results) (complete r) id ltac:(done) held ltac:(done)) as Hm.
  assert (outstanding s ≡ₚ j :: outstanding s') as Eo.
  { fold s' in Hm. rewrite Hp in Hm. cbn [held fmap list_fmap fst] in Hm. unfold outstanding.
    apply (Permutation_app_inv_r (results.*1)). rewrite <- app_assoc, <- Hm.
    change (wq_group s') with (wq_group s). solve_Permutation. }
  pose proof (q_once _ Hq) as Hnd. rewrite Eo in Hnd. apply NoDup_cons in Hnd as [Hj Hnd].
  apply (leader_ok s i j w E (Notifying j results) (complete r) id); fold s'; try done.
  - by rewrite Hp.
  - intros k Hk. rewrite Eo. by right.
  - intros k w' E'. destruct (leader_lookup s i j (Notifying j results) (complete r) id
      ltac:(done) ltac:(done) k w' E') as (wk & Ek & _ & Er & Ew).
    pose proof (q_answer _ Hq k wk Ek) as Hk.
    assert (k <> j -> k ∈ outstanding s -> k ∈ outstanding s') as Hko by (rewrite Eo, elem_of_cons; naive_solver).
    unfold phase_ok in *. rewrite Er, Ew. destruct (decide (k = i)) as [->|Hki].
    + rewrite E in Ek. injection Ek as <-. rewrite Hp in Hk. cbn [fmap list_fmap fst] in Hk.
      case_decide; [by right; eexists|]. destruct Hk as [Hk|Hk]; [|by right].
      apply elem_of_cons in Hk as [?|Hk]; [done | by left].
    + destruct (decide (k = j)) as [->|Hkj]; cbn [complete with_result pw_result id].
      * destruct (pw_phase wk); try done; try (right; by eexists). right. split; [by eexists|].
        exists i, results. by rewrite Eph, list_lookup_alter_eq, (phase_lookup _ _ _ E).
      * destruct (pw_phase wk); try done; destruct Hk as [Hk|Hk]; auto.
        right. destruct Hk as [Hk (l & rs & Hn)]. split; [done|]. exists l, rs.
        rewrite Eph, list_lookup_alter. case_decide; [|done]. subst l.
        rewrite (phase_lookup _ _ _ E), Hp in Hn. done.
Qed.

(** A sleeping call is woken. *)
Definition wake (p : Phase) : Phase := match p with Asleep => Checking | p => p end.

Lemma notify_ok i s w j results :
  queue_ok s -> wq_writes s !! i = Some w -> pw_phase w = Notifying j results ->
  queue_ok (set_phase i (Completing results) (on_write j notify_one s)).
Proof.
  intros Hq E Hp. set (s' := set_phase _ _ _).
  assert (forall w, pw_phase (notify_one w) = wake (pw_phase w)) as Hf
    by (intros w'; unfold notify_one; by destruct (pw_phase w') eqn:Ew).
  assert (forall w, pw_batch (notify_one w) = pw_batch w /\ pw_result (notify_one w) = pw_result w) as Hfb
    by (intros w'; unfold notify_one; by destruct (pw_phase w')).
  pose proof (leader_map s i j w E (Completing results) notify_one wake Hf held ltac:(by intros [])) as Hm.
  assert (outstanding s' ≡ₚ outstanding s) as Eo.
  { fold s' in Hm. rewrite Hp in Hm. cbn [held] in Hm. unfold outstanding.
    apply Permutation_app_inv_r in Hm. by rewrite Hm. }
  apply (leader_ok s i j w E (Completing results) notify_one wake); fold s'; try done.
  - apply Hfb.
  - by intros [].
  - by rewrite Hp.
  - intros k. by rewrite Eo.
  - intros w' _. apply Hfb.
  - rewrite Eo. apply Hq.
  - intros k w' E'. destruct (leader_lookup s i j (Completing results) notify_one wake
      Hf ltac:(apply Hfb) k w' E') as (wk & Ek & _ & Er & Ew).
    assert (pw_result w' = pw_result wk) as Er' by (rewrite Er; destruct (decide (k = j)); [apply Hfb | done]).
    pose proof (q_answer _ Hq k wk Ek) as Hk.
    assert (k ∈ outstanding s -> k ∈ outstanding s') as Hko by by rewrite Eo.
    unfold phase_ok in *. rewrite Er', Ew. destruct (decide (k = i)) as [->|Hki].
    { rewrite E in Ek. injection Ek as <-. by rewrite Hp in Hk. }
    destruct (decide (k = j)) as [->|Hkj].
    + destruct (pw_phase wk); cbn [wake]; try done; destruct Hk as [Hk|Hk]; auto. right. apply Hk.
    + destruct (pw_phase wk); try done; destruct Hk as [Hk|Hk]; auto.
      right. destruct Hk as [Hk (l & rs & Hn)]. split; [done|]. exists l, rs.
      unfold s'. rewrite (two_writes_phases i j _ notify_one wake s Hf), !list_lookup_alter.
      rewrite decide_False.
      * case_decide; [|done]. subst l. by rewrite Hn.
      * intros ->. rewrite (phase_lookup _ _ _ E), Hp in Hn. by injection Hn as ->.
Qed.

(** A new call. *)
Lemma snoc_lookup s group w0 k w' :
  wq_writes (mkWriters (wq_db s) group (wq_writes s ++ [w0])) !! k = Some w' <->
  wq_writes s !! k = Some w' \/ k = length (wq_writes s) /\ w' = w0.
Proof.
  cbn [wq_writes]. rewrite lookup_app_Some. split.
  - intros [?|[Hl Hk]]; [by left|]. right. apply list_lookup_singleton_Some in Hk as [Hk ->]. split; [lia | done].
  - intros [?|[-> ->]]; [by left|]. right. by rewrite Nat.sub_diag.
Qed.

Lemma snoc_phases s group w0 :
  phases (mkWriters (wq_db s) group (wq_writes s ++ [w0])) = phases s ++ [pw_phase w0].
Proof. apply map_app. Qed.

Lemma phases_length s : length (phases s) = length (wq_writes s).
Proof. apply length_map. Qed.

(** A call that joins the queue, or does not. *)
Lemma snoc_ok s w0 new :
  let n := length (wq_writes s) in
  let s' := mkWriters (wq_db s) (wq_group s ++ new) (wq_writes s ++ [w0]) in
  queue_ok s -> held (pw_phase w0) = [] -> untaken (pw_phase w0) = [] ->
  (new = [] /\ gathers (pw_phase w0) = false \/
   new = [n] /\ pw_result w0 = None /\ is_returned (pw_phase w0) = false /\ is_Some (pw_batch w0) /\
   gathers (pw_phase w0) = match wq_group s with [] => true | _ => false end) ->
  (outstanding s' ≡ₚ new ++ outstanding s -> phase_ok s' n w0) -> queue_ok s'.
Proof.
  intros n s' [Ho Hw Hb Hl Ha] Hh Hu Hnew Hok.
  assert (outstanding s' ≡ₚ new ++ outstanding s) as Eo.
  { unfold outstanding. unfold s' at 2. rewrite snoc_phases, map_app, concat_app. cbn [s' wq_group map concat].
    rewrite Hh, app_nil_r. solve_Permutation. }
  assert (with_batch s' ≡ₚ new ++ with_batch s) as Eb.
  { unfold with_batch. unfold s' at 2. rewrite snoc_phases, map_app, concat_app. cbn [s' wq_group map concat].
    rewrite Hu, app_nil_r. solve_Permutation. }
  assert (n ∉ outstanding s) as Hn.
  { intros Hn. destruct (Hw n Hn) as (w & E & _). apply lookup_lt_Some in E. unfold n in E. lia. }
  assert (forall k, k ∈ new -> k = n) as Hkn by (destruct Hnew as [[-> _]|[-> _]]; set_solver).
  constructor.
  - rewrite Eo. apply NoDup_app. split; [destruct Hnew as [[-> _]|[-> _]]; [apply NoDup_nil_2 | apply NoDup_singleton]|].
    split; [|done]. by intros k ->%Hkn.
  - intros k. rewrite Eo. intros [Hk|Hk]%elem_of_app.
    + exists w0. pose proof (Hkn k Hk) as ->. destruct Hnew as [[-> _]|(_ & Hr1 & Hr2 & _)]; [by apply elem_of_nil in Hk|].
      split; [apply snoc_lookup; by right | done].
    + destruct (Hw k Hk) as (w & E & Hr). exists w. split; [|done]. apply snoc_lookup. by left.
  - intros k. rewrite Eb. intros [Hk|Hk]%elem_of_app.
    + exists w0. pose proof (Hkn k Hk) as ->. destruct Hnew as [[-> _]|(_ & _ & _ & Hr & _)]; [by apply elem_of_nil in Hk|].
      split; [apply snoc_lookup; by right | done].
    + destruct (Hb k Hk) as (w & E & Hr). exists w. split; [|done]. apply snoc_lookup. by left.
  - intros k. unfold s' at 2. rewrite snoc_phases. setoid_rewrite lookup_app_Some. rewrite phases_length. fold n.
    setoid_rewrite list_lookup_singleton_Some. cbn [s' wq_group].
    transitivity (head (wq_group s) = Some k \/ k = n /\ gathers (pw_phase w0) = true).
    + destruct Hnew as [[-> ->]|(-> & _ & _ & _ & ->)]; [rewrite app_nil_r; naive_solver|].
      destruct (wq_group s) as [|g gs]; cbn [app head]; [|naive_solver]. split; [intros [= <-]; by right|].
      by intros [?|[-> _]].
    + rewrite Hl. split.
      * intros [(p & Hp & Hg)|[-> Hg]]; [exists p; split; [by left | done]|]. exists (pw_phase w0).
        split; [right; split; [done | split; [lia | done]] | done].
      * intros (p & [Hp|(Hle & Hk & <-)] & Hg); [left; by exists p|]. right. split; [lia | done].
  - intros k w [E|[-> ->]]%snoc_lookup; [|by apply Hok].
    apply (phase_ok_mono s); [by apply Ha | rewrite Eo; set_solver |].
    intros l rs Hp. exists l, rs. unfold s'. rewrite snoc_phases. apply lookup_app_Some. by left.
Qed.

Lemma begin_ok batch opts s : queue_ok s -> queue_ok (write_begin batch opts s).1.
Proof.
  intros Hq. unfold write_begin. destruct (batch_is_empty batch); cbn [fst].
  - rewrite <- (app_nil_r (wq_group s)) at 1. apply snoc_ok; try done. by left.
  - apply snoc_ok; try done; destruct (wq_group s); try done.
    + right. by repeat split.
    + right. by repeat split.
    + intros Eo. left. rewrite Eo. by left.
Qed.

(** ** Steps *)

Lemma group_pause_ok opts (d : Db SM) : exists d', group_pause opts d = (Ok tt, d').
Proof. unfold group_pause. rewrite bind_get_state. destruct (_ || _); by eexists. Qed.

Lemma pause_ok i s w :
  queue_ok s -> wq_writes s !! i = Some w -> pw_phase w = Leading ->
  queue_ok (work i [] (group_pause (pw_opts w)) (fun _ => Gathering) s).
Proof.
  intros Hq E Hp. unfold work. destruct (group_pause_ok (pw_opts w) (wq_db s)) as [d ->].
  apply (set_phase_ok i Gathering (with_wq_db d s) w); rewrite ?Hp; try done. by apply with_db_ok.
Qed.

Lemma on_write_ext i f g s w : wq_writes s !! i = Some w -> f w = g w -> on_write i f s = on_write i g s.
Proof.
  intros E Hf. unfold on_write. f_equal. apply list_alter_ext; [|done]. intros w' E'. congruence.
Qed.

Lemma wait_round_eq i s w : wq_writes s !! i = Some w ->
  on_write i wait_round s = match pw_result w with
    | Some r => on_write i (fun w => with_phase (Returned r) (with_result None w)) s
    | None => set_phase i Asleep s
    end.
Proof.
  intros E. destruct (pw_result w) as [r|] eqn:Er; apply (on_write_ext i _ _ s w E); unfold wait_round; by rewrite Er.
Qed.

(** Waiting: the result is taken, or the call goes to sleep. *)
Lemma check_ok i s w :
  queue_ok s -> wq_writes s !! i = Some w -> pw_phase w = Checking ->
  queue_ok (on_write i wait_round s).
Proof.
  intros Hq E Hp. rewrite (wait_round_eq i s w E). pose proof (q_answer _ Hq i w E) as Ha. unfold phase_ok in Ha. rewrite Hp in Ha.
  destruct (pw_result w) as [r|] eqn:Er.
  - apply (on_write_ok i _ s w); rewrite ?Hp; try done.
    intros Hi. pose proof (outstanding_result _ _ _ Hq E Hi). congruence.
  - apply (set_phase_ok i _ s w); rewrite ?Hp; try done. left. destruct Ha as [Ha|[? ?]]; done.
Qed.

Lemma on_write_id i f s : (forall w, wq_writes s !! i = Some w -> f w = w) -> on_write i f s = s.
Proof.
  intros Hf. destruct s as [d g ws]. unfold on_write. cbn in *. f_equal. apply list_eq. intros k.
  rewrite list_lookup_alter. case_decide; [|done]. subst k. destruct (ws !! i) as [w|]; [|done].
  cbn. by rewrite Hf.
Qed.

Lemma notify_one_cases w : pw_phase w = Asleep /\ notify_one w = with_phase Checking w \/ notify_one w = w.
Proof. unfold notify_one. destruct (pw_phase w) eqn:Ew; auto. Qed.

Lemma spurious_ok i s : queue_ok s -> queue_ok (spurious i s).
Proof.
  intros Hq. unfold spurious. destruct (wq_writes s !! i) as [w|] eqn:E; [|by rewrite on_write_id by congruence].
  destruct (notify_one_cases w) as [[Hp En]|En]; [|by rewrite on_write_id by congruence].
  pose proof (q_answer _ Hq i w E) as Ha. unfold phase_ok in Ha. rewrite Hp in Ha.
  apply (on_write_ok i notify_one s w); rewrite ?En, ?Hp; try done.
  - intros Hi. split; [exact (outstanding_result _ _ _ Hq E Hi) | done].
  - unfold phase_ok. cbn. destruct Ha as [?|[? _]]; auto.
Qed.

Lemma write_step_ok i s s' es : queue_ok s -> write_step i s = Some (s', es) -> queue_ok s'.
Proof.
  intros Hq Hs. unfold write_step in Hs. destruct (wq_writes s !! i) as [w|] eqn:E; [|done]. cbn [mbind option_bind] in Hs.
  pose proof (q_answer _ Hq i w E) as Ha. unfold phase_ok in Ha.
  destruct (pw_phase w) as [| |group|group items|group items|group fl|[|[j r] results]|j results| | |r|group] eqn:Hp;
    try done.
  - injection Hs as <- _. by apply pause_ok.
  - injection Hs as <- _. by eapply queue_drain_ok.
  - destruct (take_ok i s w group Hq E Hp) as (items & writes & Et & Hok & _). rewrite Et in Hs. by injection Hs as <- _.
  - injection Hs as <- _. apply (work_ok i group _ _ s w); rewrite ?Hp; try done.
  - injection Hs as <- _. apply (work_ok i group _ _ s w); rewrite ?Hp; try done.
  - injection Hs as <- _. apply (work_ok i group _ _ s w); rewrite ?Hp; try done. intros _.
    unfold phase_ok. cbn [with_phase pw_phase held untaken gathers is_returned].
    rewrite zip_results by apply length_replicate. repeat split. by left.
  - injection Hs as <- _. apply (set_phase_ok i _ s w); rewrite ?Hp; try done.
    destruct Ha as [Ha|Ha]; [by apply elem_of_nil in Ha | by right].
  - injection Hs as <- _. by eapply complete_ok.
  - injection Hs as <- _. by eapply notify_ok.
  - injection Hs as <- _. by eapply check_ok.
Qed.

Lemma start_ok (d : Db SM) : queue_ok (mkWriters d [] []).
Proof.
  constructor; [apply NoDup_nil_2 | | | |].
  - by intros i ?%elem_of_nil.
  - by intros i ?%elem_of_nil.
  - intros i. split; [done|]. by intros (p & Hp & _).
  - intros i w E. done.
Qed.

Lemma step_ok s es s' : queue_ok s -> queue_step s es s' -> queue_ok s'.
Proof.
  intros Hq Hs. destruct Hs; [by apply begin_ok | by eapply write_step_ok | by apply spurious_ok | by apply with_db_ok].
Qed.

Lemma run_ok d tr s : queue_run d tr s -> queue_ok s.
Proof. induction 1 as [|tr s es s' _ IH Hs]; [apply start_ok | by eapply step_ok]. Qed.
End queue.
