(* ===== verification/DbQueueOk.v ===== *)
(** * Writers are answered

    What the queue of [DbQueue.v] promises its callers: a batch is applied at
    most once and before its caller hears that it was written, every call ends
    unless the leader of its group panics, and a call that meets no other is
    [db_write]. *)

From stdpp Require Import base list gmap strings sorting.
From S2P Require Import Prelude Key Spec Memtable Coding Batch Env Externals Wal Block Cache.
From S2P Require Import Format Properties Table Reader TableCache Version Options Metrics.
From S2P Require Import Compact Mvcc DbState DbRead DbMem DbFlush DbCompact DbWrite DbCrash DbQueue.

Section queue_ok.
Context `{X : Externals} `{H : HashOrder} `{N : NumberHashOrder} `{SM : arena_skip_map}
  `{O : OsMessages}.

(** ** Progress *)

(** The steps a call and the calls it has to answer have left, at most. *)
Definition weight (p : Phase) : nat :=
  match p with
  | Leading => 9
  | Gathering => 8
  | Drained group => 7 + 4 * length group
  | Admitting group _ => 6 + 4 * length group
  | Applying group _ => 5 + 4 * length group
  | Flushing group _ => 4 + 4 * length group
  | Completing results => 3 + 4 * length results
  | Notifying _ results => 5 + 4 * length results
  | Checking => 2
  | Asleep => 1
  | Returned _ | Panicked _ => 0
  end.

Definition steps_left (s : Writers) : nat :=
  4 * length (wq_group s) + sum_list (map weight (phases s)).

Lemma sum_alter g i p (l : list Phase) :
  l !! i = Some p ->
  (sum_list (map weight (alter g i l)) + weight p = sum_list (map weight l) + weight (g p))%nat.
Proof.
  revert i. induction l as [|x l IH]; intros [|i] E; cbn in *; [done | done | |].
  - injection E as ->. lia.
  - specialize (IH i E). unfold sum_list in *. lia.
Qed.

Lemma phases_with_db d s : phases (with_wq_db d s) = phases s.
Proof. done. Qed.

Lemma set_phase_steps i p s w :
  wq_writes s !! i = Some w -> (weight p < weight (pw_phase w))%nat ->
  (steps_left (set_phase i p s) < steps_left s)%nat.
Proof.
  intros E Hp. unfold steps_left, set_phase. rewrite (phases_on_write _ _ _ _ E).
  pose proof (sum_alter (fun _ => p) i _ _ (phase_lookup _ _ _ E)) as Hs. cbn in Hs |- *. lia.
Qed.

Lemma work_steps {A} i group (m : M (Db SM) A) next s w :
  wq_writes s !! i = Some w -> (3 + 4 * length group < weight (pw_phase w))%nat ->
  (forall a, weight (next a) < weight (pw_phase w))%nat -> (steps_left (work i group m next s) < steps_left s)%nat.
Proof.
  intros E Hp Hn. unfold work. destruct (m (wq_db s)) as [r d].
  apply (set_phase_steps i _ (with_wq_db d s) w E). destruct r as [a|e|]; cbn [after_work weight]; [apply Hn | | lia].
  rewrite length_zip_with, repeat_error_length. lia.
Qed.

Lemma take_batches_phases group writes items writes' :
  take_batches group writes = Ok (items, writes') -> map pw_phase writes' = map pw_phase writes.
Proof.
  revert writes items. induction group as [|i group IH]; intros writes items; cbn [take_batches].
  { by intros [= _ ->]. }
  destruct (writes !! i) as [w|] eqn:E; [|done]. unfold take_batch. destruct (pw_batch w); [|done].
  cbn [mbind res_bind fst snd]. destruct (take_batches group _) as [[items' ws]| |] eqn:Et; [|done|done].
  cbn [mbind res_bind fst snd]. intros [= _ <-]. rewrite (IH _ _ Et).
  rewrite list_fmap_insert. apply list_insert_id. by rewrite list_lookup_fmap, E.
Qed.

(** Giving a result, and notifying. *)
Lemma answer_steps i j p f g s w :
  (forall w, pw_phase (f w) = g (pw_phase w)) -> (forall q, weight (g q) <= weight q + 1)%nat ->
  wq_writes s !! i = Some w -> g (pw_phase w) = pw_phase w -> (weight p + 1 < weight (pw_phase w))%nat ->
  (steps_left (set_phase i p (on_write j f s)) < steps_left s)%nat.
Proof.
  intros Hf Hg E Hi Hp. unfold steps_left. rewrite (two_writes_phases i j p f g s Hf).
  cbn [set_phase on_write wq_group]. pose proof (phase_lookup _ _ _ E) as Ep.
  assert (alter g j (phases s) !! i = Some (pw_phase w)) as Ei.
  { rewrite list_lookup_alter, Ep. case_decide as Hij; [|done]. subst j. rewrite Ep. cbn. by rewrite Hi. }
  pose proof (sum_alter (fun _ => p) i _ _ Ei) as H1. cbn in H1.
  destruct (phases s !! j) as [q|] eqn:Ej.
  - pose proof (sum_alter g j q _ Ej) as H2. specialize (Hg q). lia.
  - assert (alter g j (phases s) = phases s) as E2.
    { apply list_eq. intros k. rewrite list_lookup_alter. case_decide; [|done]. subst k. by rewrite Ej. }
    rewrite E2 in H1 |- *. lia.
Qed.

(** Every step of a call brings all of them closer to their end. *)
Lemma write_step_steps i s s' es : write_step i s = Some (s', es) -> (steps_left s' < steps_left s)%nat.
Proof.
  unfold write_step. destruct (wq_writes s !! i) as [w|] eqn:E; [|done]. cbn [mbind option_bind].
  destruct (pw_phase w) as [| |group|group items|group items|group fl|[|[j r] results]|j results| | |r|group] eqn:Hp;
    try done.
  - intros [= <- _]. apply (work_steps i [] _ _ s w E); rewrite Hp; cbn; lia.
  - intros [= <- _]. unfold steps_left, set_phase. rewrite (phases_on_write i _ (with_group [] s) w E).
    pose proof (sum_alter (fun _ => Drained (wq_group s)) i _ _ (phase_lookup _ _ _ E)) as Hs.
    rewrite Hp in Hs. cbn [weight] in Hs. cbn [on_write with_group wq_group length with_phase pw_phase].
    change (phases (with_group [] s)) with (phases s). lia.
  - destruct (take_batches group (wq_writes s)) as [[items writes]| |] eqn:Et; intros [= <- _];
      [|apply (set_phase_steps i _ s w E); rewrite Hp; cbn; lia..].
    pose proof (take_batches_phases _ _ _ _ Et) as Eph. set (s1 := mkWriters _ _ writes).
    assert (phases s1 !! i = Some (Drained group)) as Ei
      by (unfold phases; cbn [s1 wq_writes]; rewrite Eph, <- Hp; exact (phase_lookup _ _ _ E)).
    rewrite phases_lookup in Ei. destruct (wq_writes s1 !! i) as [w1|] eqn:E1; [|done]. injection Ei as Ei.
    assert (steps_left s1 = steps_left s) as <- by (unfold steps_left, phases; cbn [s1 wq_writes wq_group]; by rewrite Eph).
    apply (set_phase_steps i _ s1 w1 E1). rewrite Ei. cbn. lia.
  - intros [= <- _]. apply (work_steps i group _ _ s w E); rewrite Hp; cbn; lia.
  - intros [= <- _]. apply (work_steps i group _ _ s w E); rewrite Hp; cbn; lia.
  - intros [= <- _]. apply (work_steps i group _ _ s w E); rewrite Hp; cbn; [lia|].
    intros _. rewrite length_zip_with, length_replicate. lia.
  - intros [= <- _]. apply (set_phase_steps i _ s w E); rewrite Hp; cbn; lia.
  - intros [= <- _]. apply (answer_steps i j _ (complete r) id s w); rewrite ?Hp; try done; cbn; lia.
  - intros [= <- _]. apply (answer_steps i j _ notify_one wake s w); rewrite ?Hp; try done; [| |cbn; lia].
    + intros w'. unfold notify_one. by destruct (pw_phase w') eqn:Ew.
    + intros []; cbn; lia.
  - intros [= <- _]. rewrite (wait_round_eq i s w E). destruct (pw_result w).
    + unfold steps_left. rewrite (phases_on_write _ _ _ _ E).
      pose proof (sum_alter (fun _ => Returned r) i _ _ (phase_lookup _ _ _ E)) as Hs.
      rewrite Hp in Hs. cbn in Hs |- *. lia.
    + apply (set_phase_steps i _ s w E); rewrite Hp; cbn; lia.
Qed.

(** The calls named take a step each, in order. *)
Fixpoint schedule (calls : list nat) (s : Writers) : option Writers :=
  match calls with
  | [] => Some s
  | i :: calls => '(s, _) ← write_step i s; schedule calls s
  end.

Lemma schedule_bound calls s s' : schedule calls s = Some s' -> (length calls + steps_left s' <= steps_left s)%nat.
Proof.
  revert s. induction calls as [|i calls IH]; intros s; cbn [schedule]; [by intros [= ->]|].
  destruct (write_step i s) as [[s1 es]|] eqn:E; [|done]. cbn [mbind option_bind].
  intros Hs%IH. apply write_step_steps in E. cbn [length]. lia.
Qed.

Definition blocked (s : Writers) : Prop := forall i, write_step i s = None.

(** A call has ended, or waits for a leader that panicked. *)
Definition ended (s : Writers) (i : nat) (w : PendingWrite) : Prop :=
  match pw_phase w with
  | Returned _ | Panicked _ => True
  | Asleep => exists l group, phases s !! l = Some (Panicked group) /\ i ∈ group
  | _ => False
  end.

Lemma blocked_phase s i p :
  blocked s -> phases s !! i = Some p -> (exists r, p = Returned r) \/ (exists g, p = Panicked g) \/ p = Asleep.
Proof.
  intros Hb Hp. rewrite phases_lookup in Hp. specialize (Hb i). unfold write_step in Hb.
  destruct (wq_writes s !! i) as [w|]; [|done]. injection Hp as <-. cbn [mbind option_bind] in Hb.
  destruct (pw_phase w) as [| | | | | |[|[] ?]| | | | |]; try done; eauto.
  by destruct (take_batches _ _) as [[]| |].
Qed.

Lemma blocked_ended s i w : queue_ok s -> blocked s -> wq_writes s !! i = Some w -> ended s i w.
Proof.
  intros Hq Hb E. pose proof (blocked_phase s i _ Hb (phase_lookup _ _ _ E)) as Hp.
  pose proof (q_answer _ Hq i w E) as Ha. unfold phase_ok, ended in *.
  destruct Hp as [[r ->]|[[g ->]|Hp]]; [done | done |]. rewrite Hp in Ha |- *.
  destruct Ha as [Hi|[_ (l & rs & Hl)]].
  2: { apply (blocked_phase s _ _ Hb) in Hl as [[r ?]|[[g ?]|?]]; done. }
  unfold outstanding in Hi. apply elem_of_app in Hi as [Hi|Hi].
  - destruct (wq_group s) as [|k group] eqn:Eg; [by apply elem_of_nil in Hi|].
    destruct (proj1 (q_leader _ Hq k)) as (p & Hk & Hg); [by rewrite Eg|].
    by apply (blocked_phase s _ _ Hb) in Hk as [[r ->]|[[g ->]| ->]].
  - apply elem_of_concat in Hi as (g & Hi & Hg). apply list_elem_of_fmap in Hg as (p & -> & Hp').
    apply list_elem_of_lookup in Hp' as [l Hl]. pose proof Hl as Hl'.
    apply (blocked_phase s _ _ Hb) in Hl' as [[r ->]|[[g ->]| ->]]; try by apply elem_of_nil in Hi.
    by exists l, g.
Qed.

Lemma schedule_ok calls s s' : queue_ok s -> schedule calls s = Some s' -> queue_ok s'.
Proof.
  revert s. induction calls as [|i calls IH]; intros s Hq; cbn [schedule]; [by intros [= <-]|].
  destruct (write_step i s) as [[s1 es]|] eqn:E; [|done]. cbn [mbind option_bind].
  apply IH. by eapply write_step_ok.
Qed.

(** Some schedule runs until all calls are blocked. *)
Lemma write_step_or_blocked s : (exists i s' es, write_step i s = Some (s', es)) \/ blocked s.
Proof.
  destruct (decide (Exists (fun i => is_Some (write_step i s)) (seq 0 (length (wq_writes s))))) as [Hx|Hn].
  - left. apply List.Exists_exists in Hx as (i & _ & [[s' es] E]). by exists i, s', es.
  - right. intros i. destruct (write_step i s) as [x|] eqn:E; [|done]. exfalso. apply Hn.
    apply List.Exists_exists. exists i. split; [apply list_elem_of_In|by eexists]. apply elem_of_seq. unfold write_step in E.
    destruct (wq_writes s !! i) as [w|] eqn:Ew; [|done]. apply lookup_lt_Some in Ew. lia.
Qed.

Lemma schedule_ends s : exists calls s', schedule calls s = Some s' /\ blocked s'.
Proof.
  induction s as [s IH] using (induction_ltof1 _ steps_left). unfold ltof in IH.
  destruct (write_step_or_blocked s) as [(i & s1 & es & E)|Hb].
  - destruct (IH s1) as (calls & s' & Hs & Hb); [by eapply write_step_steps|].
    exists (i :: calls), s'. split; [|done]. cbn [schedule]. by rewrite E.
  - by exists [], s.
Qed.

(** C14: no writer is left waiting. From any state of any interleaving
    of calls of [write], their own steps end after at most [steps_left] of them,
    in any order, and when none can take a step each call has returned or
    panicked, or belongs to a group whose leader panicked: no wake-up is lost
    and nobody waits for a group that nobody leads. *)
Theorem writers_answered d tr s :
  queue_run d tr s ->
  (forall calls s', schedule calls s = Some s' -> (length calls <= steps_left s)%nat) /\
  (exists calls s', schedule calls s = Some s' /\ blocked s') /\
  (forall calls s', schedule calls s = Some s' -> blocked s' ->
     forall i w, wq_writes s' !! i = Some w -> ended s' i w).
Proof.
  intros Hr. apply run_ok in Hr as Hq. split; [|split; [apply schedule_ends|]].
  - intros calls s' Hs. apply schedule_bound in Hs. lia.
  - intros calls s' Hs Hb i w E. apply (blocked_ended s' i w); [by eapply schedule_ok | done | done].
Qed.

(** ** What was applied *)

(** The item is what the call [i] asked to write. *)
Definition asked_for (tr : list event) (i : nat) (item : GroupWriteItem) : Prop :=
  EWrite i (gi_batch item) (gi_opts item) ∈ tr.

(** The batch of [i] is empty, or its group was logged and applied. *)
Definition applied_ok (tr : list event) (i : nat) : Prop :=
  (exists batch opts, EWrite i batch opts ∈ tr /\ batch_is_empty batch = true) \/
  exists group items flag, EGroup group items (Ok flag) ∈ tr /\ i ∈ group.

Definition results_ok (tr : list event) (results : list (nat * res unit)) : Prop :=
  Forall (fun x : nat * res unit => x.2 = Ok tt -> applied_ok tr x.1) results.

Definition phase_wrote (tr : list event) (i : nat) (p : Phase) : Prop :=
  match p with
  | Admitting group items | Applying group items => Forall2 (asked_for tr) group items
  | Flushing group _ => Forall (applied_ok tr) group
  | Completing results | Notifying _ results => results_ok tr results
  | Returned r => r = Ok tt -> applied_ok tr i
  | _ => True
  end.

Record call_ok (tr : list event) (i : nat) (w : PendingWrite) : Prop := mkCallOk {
  co_batch : forall batch, pw_batch w = Some batch -> EWrite i batch (pw_opts w) ∈ tr;
  co_result : pw_result w = Some (Ok tt) -> applied_ok tr i;
  co_phase : phase_wrote tr i (pw_phase w)
}.

Record trace_ok (tr : list event) (s : Writers) : Prop := mkTraceOk {
  to_calls : forall i w, wq_writes s !! i = Some w -> call_ok tr i w;
  to_groups : forall group items r, EGroup group items r ∈ tr -> Forall2 (asked_for tr) group items;
  to_returns : forall i, EReturn i (Ok tt) ∈ tr -> applied_ok tr i
}.

Lemma applied_ok_mono tr tr' i : tr ⊆ tr' -> applied_ok tr i -> applied_ok tr' i.
Proof.
  intros Hs [(b & o & Hb & He)|(g & it & f & Hg & Hi)]; [left; exists b, o | right; exists g, it, f]; auto.
Qed.

Lemma call_ok_mono tr tr' i w : tr ⊆ tr' -> call_ok tr i w -> call_ok tr' i w.
Proof.
  intros Hs [Hb Hr Hp]. constructor; [auto | intros Hx; eapply applied_ok_mono; eauto|].
  destruct (pw_phase w); try done; cbn [phase_wrote] in *.
  - eapply Forall2_impl; [exact Hp|]. intros k it Hk. by apply Hs.
  - eapply Forall2_impl; [exact Hp|]. intros k it Hk. by apply Hs.
  - eapply Forall_impl; [exact Hp|]. intros k. by apply applied_ok_mono.
  - eapply Forall_impl; [exact Hp|]. intros k Hk Hx. eapply applied_ok_mono; eauto.
  - eapply Forall_impl; [exact Hp|]. intros k Hk Hx. eapply applied_ok_mono; eauto.
  - intros Hx. eapply applied_ok_mono; eauto.
Qed.

(** A step that changes calls as [f] says. *)
Lemma trace_step tr es s s' :
  trace_ok tr s ->
  (forall i w', wq_writes s' !! i = Some w' -> wq_writes s !! i = Some w' \/ call_ok (tr ++ es) i w') ->
  (forall group items r, EGroup group items r ∈ es -> Forall2 (asked_for tr) group items) ->
  (forall i, EReturn i (Ok tt) ∈ es -> applied_ok (tr ++ es) i) -> trace_ok (tr ++ es) s'.
Proof.
  intros [Hc Hg Hr] Hc' Hg' Hr'. assert (tr ⊆ tr ++ es) as Hsub by (intros e; rewrite elem_of_app; by left).
  constructor.
  - intros i w' E. destruct (Hc' i w' E) as [E'|?]; [|done]. eapply call_ok_mono; [exact Hsub | by apply Hc].
  - intros group items r [Hin|Hin]%elem_of_app; (eapply Forall2_impl; [by eauto|]); intros k it Hk; by apply Hsub.
  - intros i [Hin|Hin]%elem_of_app; [|by apply Hr']. eapply applied_ok_mono; [exact Hsub | by apply Hr].
Qed.

Lemma set_phase_trace tr es i p s w :
  trace_ok tr s -> wq_writes s !! i = Some w -> phase_wrote (tr ++ es) i p ->
  (forall group items r, EGroup group items r ∈ es -> Forall2 (asked_for tr) group items) ->
  (forall i, EReturn i (Ok tt) ∈ es -> applied_ok (tr ++ es) i) -> trace_ok (tr ++ es) (set_phase i p s).
Proof.
  intros Ht E Hp Hg Hr. apply (trace_step tr es s); try done.
  intros k w'. cbn [set_phase on_write wq_writes]. rewrite list_lookup_alter. case_decide; [|by left]. subst k.
  rewrite E. intros [= <-]. right. destruct (to_calls _ _ Ht i w E) as [Hb Hres _].
  constructor; cbn [with_phase pw_batch pw_result pw_opts pw_phase]; [| |exact Hp].
  - intros b Hb'. apply elem_of_app. left. by apply Hb.
  - intros Hx. eapply applied_ok_mono; [|by apply Hres]. intros e. rewrite elem_of_app. by left.
Qed.

Lemma error_results_ok tr group e : results_ok tr (zip group (repeat_group_error e (length group))).
Proof.
  apply Forall_forall. intros [i r] Hin. apply elem_of_zip_r in Hin. cbn [snd].
  intros ->. by destruct e; apply elem_of_replicate in Hin as [? _].
Qed.

Lemma work_trace {A} tr es i group (m : M (Db SM) A) next s w :
  trace_ok tr s -> wq_writes s !! i = Some w ->
  (forall a, (m (wq_db s)).1 = Ok a -> phase_wrote (tr ++ es) i (next a)) ->
  (forall group items r, EGroup group items r ∈ es -> Forall2 (asked_for tr) group items) ->
  (forall i, EReturn i (Ok tt) ∈ es -> applied_ok (tr ++ es) i) ->
  trace_ok (tr ++ es) (work i group m next s).
Proof.
  intros Ht E Hn Hg Hr. unfold work. destruct (m (wq_db s)) as [r d]. cbn [fst] in Hn.
  assert (trace_ok tr (with_wq_db d s)) as Ht' by by destruct Ht.
  apply (set_phase_trace tr es i _ (with_wq_db d s) w Ht' E); [|done|done].
  destruct r as [a|e|]; cbn [after_work]; [by apply Hn | apply error_results_ok | done].
Qed.

Lemma no_group group items (r : res bool) : EGroup group items r ∈ [] -> False.
Proof. by intros ?%elem_of_nil. Qed.

(** Taking the batches. *)
Lemma take_trace tr i s w group items writes :
  trace_ok tr s -> wq_writes s !! i = Some w -> take_batches group (wq_writes s) = Ok (items, writes) ->
  (forall k, writes !! k = wq_writes s !! k \/ writes !! k = without_batch <$> wq_writes s !! k) ->
  Forall2 (fun j item => exists w batch, wq_writes s !! j = Some w /\ pw_batch w = Some batch /\
    item = group_item (batch, pw_opts w)) group items ->
  trace_ok tr (set_phase i (Admitting group items) (mkWriters (wq_db s) (wq_group s) writes)).
Proof.
  intros Ht E Et Hw Hit. set (s1 := mkWriters _ _ writes).
  assert (trace_ok tr s1) as Ht1.
  { destruct Ht as [Hc Hg Hr]. constructor; [|done|done]. intros k w' E'. cbn [s1 wq_writes] in E'.
    destruct (Hw k) as [Ek|Ek]; rewrite E' in Ek; [by apply Hc|].
    destruct (wq_writes s !! k) as [wk|] eqn:Ewk; [|done]. injection Ek as ->.
    destruct (Hc k wk Ewk) as [_ Hres Hp]. by constructor. }
  assert (is_Some (wq_writes s1 !! i)) as [w1 E1]
    by (cbn [s1 wq_writes]; destruct (Hw i) as [->| ->]; rewrite E; by eexists).
  rewrite <- (app_nil_r tr). apply (set_phase_trace tr [] i _ s1 w1 Ht1 E1); rewrite ?app_nil_r.
  - eapply Forall2_impl; [exact Hit|]. intros k it (wk & b & Ek & Eb & ->).
    by apply (co_batch _ _ _ (to_calls _ _ Ht k wk Ek)).
  - by intros g it r ?%no_group.
  - by intros k ?%elem_of_nil.
Qed.

(** A result is given or taken. *)
Lemma complete_trace tr i s w j r results :
  trace_ok tr s -> wq_writes s !! i = Some w -> pw_phase w = Completing ((j, r) :: results) ->
  trace_ok tr (set_phase i (Notifying j results) (on_write j (complete r) s)).
Proof.
  intros Ht E Hp. pose proof (co_phase _ _ _ (to_calls _ _ Ht i w E)) as Hres. rewrite Hp in Hres.
  apply Forall_cons in Hres as [Hj Hres]. cbn [fst snd] in Hj.
  rewrite <- (app_nil_r tr). apply (trace_step tr [] s); [done | | by intros g it r' ?%no_group | by intros k ?%elem_of_nil].
  rewrite app_nil_r. intros k w'. rewrite two_writes_lookup. destruct (wq_writes s !! k) as [wk|] eqn:Ek; [|done].
  intros [= <-]. right. destruct (to_calls _ _ Ht k wk Ek) as [Hb Hr Hph].
  constructor; repeat case_decide; subst; cbn; try done; first [by apply Hb | intros [= ?]; by apply Hj].
Qed.

Lemma notify_trace tr i s w j results :
  trace_ok tr s -> wq_writes s !! i = Some w -> pw_phase w = Notifying j results ->
  trace_ok tr (set_phase i (Completing results) (on_write j notify_one s)).
Proof.
  intros Ht E Hp. pose proof (co_phase _ _ _ (to_calls _ _ Ht i w E)) as Hres. rewrite Hp in Hres.
  rewrite <- (app_nil_r tr). apply (trace_step tr [] s); [done | | by intros g it r' ?%no_group | by intros k ?%elem_of_nil].
  rewrite app_nil_r. intros k w'. rewrite two_writes_lookup. destruct (wq_writes s !! k) as [wk|] eqn:Ek; [|done].
  intros [= <-]. right. destruct (to_calls _ _ Ht k wk Ek) as [Hb Hr Hph].
  destruct (notify_one_cases wk) as [[Hw En]|En];
    constructor; repeat case_decide; subst; cbn; rewrite ?En; cbn; try done; by apply Hb.
Qed.

Lemma spurious_trace tr i s : trace_ok tr s -> trace_ok tr (spurious i s).
Proof.
  intros Ht. rewrite <- (app_nil_r tr).
  apply (trace_step tr [] s); [done | | by intros g it r' ?%no_group | by intros k ?%elem_of_nil].
  rewrite app_nil_r. intros k w'. cbn [spurious on_write wq_writes]. rewrite list_lookup_alter.
  case_decide; [|by left]. subst k. destruct (wq_writes s !! i) as [w|] eqn:E; [|done]. intros [= <-]. right.
  destruct (to_calls _ _ Ht i w E) as [Hb Hr Hp].
  destruct (notify_one_cases w) as [[Hw ->]| ->]; by constructor.
Qed.

Lemma begin_trace tr batch opts s :
  trace_ok tr s -> trace_ok (tr ++ (write_begin batch opts s).2) (write_begin batch opts s).1.
Proof.
  intros Ht. apply (trace_step tr _ s); [done | | |]; unfold write_begin;
    destruct (batch_is_empty batch) eqn:Ee; cbn [fst snd].
  - intros i w' [E|[-> ->]]%snoc_lookup; [by left|]. right. constructor; cbn; [|done|].
    + intros b [= <-]. apply elem_of_app. right. by left.
    + intros _. left. exists batch, opts. split; [|done]. apply elem_of_app. right. by left.
  - intros i w' [E|[-> ->]]%snoc_lookup; [by left|]. right. constructor; cbn; [|done|by destruct (wq_group s)].
    intros b [= <-]. apply elem_of_app. right. by left.
  - intros g it r. set_solver.
  - intros g it r. set_solver.
  - intros i Hi. assert (i = length (wq_writes s)) as -> by set_solver.
    left. exists batch, opts. split; [|done]. apply elem_of_app. right. by left.
  - intros i Hi. set_solver.
Qed.

Lemma write_step_trace tr i s s' es :
  queue_ok s -> trace_ok tr s -> write_step i s = Some (s', es) -> trace_ok (tr ++ es) s'.
Proof.
  intros Hq Ht Hs. unfold write_step in Hs. destruct (wq_writes s !! i) as [w|] eqn:E; [|done]. cbn [mbind option_bind] in Hs.
  pose proof (to_calls _ _ Ht i w E) as [_ Hres Hph].
  assert (forall group items (r : res bool), EGroup group items r ∈ [] -> Forall2 (asked_for tr) group items) as Hg0
    by by intros g it r ?%no_group.
  assert (forall k, EReturn k (Ok tt) ∈ [] -> applied_ok (tr ++ []) k) as Hr0 by by intros k ?%elem_of_nil.
  destruct (pw_phase w) as [| |group|group items|group items|group fl|[|[j r] results]|j results| | |r|group] eqn:Hp;
    try done; cbn [phase_wrote] in Hph.
  - injection Hs as <- <-. by apply (work_trace tr [] i _ _ _ s w).
  - injection Hs as <- <-. apply (set_phase_trace tr [] i _ (with_group [] s) w); try done. by destruct Ht.
  - destruct (take_ok i s w group Hq E Hp) as (items & writes & Et & _ & Hw & Hit). rewrite Et in Hs.
    injection Hs as <- <-. rewrite app_nil_r. by eapply take_trace.
  - injection Hs as <- <-. apply (work_trace tr [] i _ _ _ s w); try done. intros _ _. by rewrite app_nil_r.
  - injection Hs as <- <-. apply (work_trace tr _ i _ _ _ s w); try done.
    + intros fl Hfl. cbn [phase_wrote]. apply Forall_forall. intros k Hk. right. exists group, items, fl.
      split; [|done]. apply elem_of_app. right. rewrite Hfl. by left.
    + intros g it r [= -> -> ->]%list_elem_of_singleton. exact Hph.
    + by intros k [=]%list_elem_of_singleton.
  - injection Hs as <- <-. apply (work_trace tr [] i _ _ _ s w); try done. intros _ _. rewrite app_nil_r.
    cbn [phase_wrote]. apply Forall_forall. intros [k r] Hk _. apply elem_of_zip_l in Hk. cbn [fst].
    rewrite Forall_forall in Hph. by apply Hph.
  - injection Hs as <- <-. by apply (set_phase_trace tr [] i _ s w).
  - injection Hs as <- <-. rewrite app_nil_r. by eapply complete_trace.
  - injection Hs as <- <-. rewrite app_nil_r. by eapply notify_trace.
  - rewrite (wait_round_eq i s w E) in Hs. destruct (pw_result w) as [r|] eqn:Er; injection Hs as <- <-; [|by apply (set_phase_trace tr [] i _ s w)].
    assert (r = Ok tt -> applied_ok (tr ++ [EReturn i r]) i) as Hi.
    { intros ->. eapply applied_ok_mono; [|by apply Hres]. intros e. rewrite elem_of_app. by left. }
    apply (trace_step tr _ s); [done | | |].
    + intros k w'. cbn [on_write wq_writes]. rewrite list_lookup_alter. case_decide; [|by left]. subst k.
      rewrite E. intros [= <-]. right. destruct (to_calls _ _ Ht i w E) as [Hb _ _]. constructor; cbn; try done.
      intros b Hb'. apply elem_of_app. left. by apply Hb.
    + by intros g it r' [=]%list_elem_of_singleton.
    + intros k [= -> Hk]%list_elem_of_singleton. by apply Hi.
Qed.

Lemma run_trace d tr s : queue_run d tr s -> trace_ok tr s.
Proof.
  induction 1 as [|tr s es s' Hr IH Hs]; [constructor; [done | | ]; intros; by apply elem_of_nil in H0|].
  pose proof (run_ok _ _ _ Hr) as Hq. destruct Hs.
  - by apply begin_trace.
  - by eapply write_step_trace.
  - rewrite app_nil_r. by apply spurious_trace.
  - rewrite app_nil_r. by destruct IH.
Qed.

(** ** At most once *)

(** The calls whose batches wait to be applied. *)
Definition unapplied (p : Phase) : list nat :=
  match p with Drained group | Admitting group _ | Applying group _ => group | _ => [] end.
Definition unapplied_calls (s : Writers) : list nat := wq_group s ++ concat (map unapplied (phases s)).

(** The calls whose batches were given to the database. *)
Definition event_group (e : event) : list nat := match e with EGroup group _ _ => group | _ => [] end.
Definition applied (tr : list event) : list nat := concat (map event_group tr).

Lemma applied_app tr es : applied (tr ++ es) = applied tr ++ applied es.
Proof. unfold applied. by rewrite map_app, concat_app. Qed.

Record once_ok (tr : list event) (s : Writers) : Prop := mkOnceOk {
  oo_once : NoDup (applied tr ++ unapplied_calls s);
  oo_known : Forall (fun i => (i < length (wq_writes s))%nat) (applied tr)
}.

Lemma pending_phase i p s w :
  wq_writes s !! i = Some w -> unapplied_calls (set_phase i p s) ++ unapplied (pw_phase w) ≡ₚ unapplied_calls s ++ unapplied p.
Proof.
  intros E. unfold unapplied_calls, set_phase. rewrite (phases_on_write _ _ _ _ E). cbn [on_write wq_group].
  rewrite <- !app_assoc. f_equiv. apply (concat_alter unapplied (fun _ => p)). by apply phase_lookup.
Qed.

Lemma set_phase_length i p s : length (wq_writes (set_phase i p s)) = length (wq_writes s).
Proof. apply length_alter. Qed.

(** The phase moves on; the group is still to be applied, or never will be. *)
Lemma set_phase_once tr i p s w :
  once_ok tr s -> wq_writes s !! i = Some w ->
  unapplied p = unapplied (pw_phase w) \/ unapplied p = [] -> once_ok tr (set_phase i p s).
Proof.
  intros [Ho Hk] E Hu. pose proof (pending_phase i p s w E) as Hp. constructor.
  - destruct Hu as [Hu|Hu]; rewrite Hu in Hp.
    + apply Permutation_app_inv_r in Hp. by rewrite Hp.
    + rewrite app_nil_r in Hp. rewrite <- Hp, app_assoc in Ho. by apply NoDup_app in Ho as [? _].
  - by rewrite set_phase_length.
Qed.

(** The group is applied. *)
Lemma apply_once tr i p s w group items r :
  queue_ok s -> once_ok tr s -> wq_writes s !! i = Some w -> pw_phase w = Applying group items -> unapplied p = [] ->
  once_ok (tr ++ [EGroup group items r]) (set_phase i p s).
Proof.
  intros Hq [Ho Hk] E Hw Hu. pose proof (pending_phase i p s w E) as Hp. rewrite Hu, Hw, app_nil_r in Hp. cbn in Hp.
  assert (applied (tr ++ [EGroup group items r]) = applied tr ++ group) as Ea
    by (rewrite applied_app; unfold applied at 2; cbn; by rewrite app_nil_r).
  constructor; rewrite Ea.
  - rewrite <- Hp in Ho. eapply NoDup_Permutation_proper; [|exact Ho]. solve_Permutation.
  - rewrite set_phase_length. apply Forall_app. split; [done|]. apply Forall_forall. intros k Hin.
    destruct (q_waiting _ Hq k) as (wk & Ek & _); [|by eapply lookup_lt_Some].
    apply (in_outstanding s i w k E). by rewrite Hw.
Qed.

Lemma same_once tr s s' :
  once_ok tr s -> unapplied_calls s' ≡ₚ unapplied_calls s -> length (wq_writes s') = length (wq_writes s) -> once_ok tr s'.
Proof. intros [Ho Hk] Hp Hl. constructor; [by rewrite Hp | by rewrite Hl]. Qed.

(** Results are given to calls that are applied. *)
Lemma answer_once tr i j p f g s w :
  once_ok tr s -> wq_writes s !! i = Some w -> unapplied p = [] -> unapplied (pw_phase w) = [] ->
  (forall w, pw_phase (f w) = g (pw_phase w)) -> (forall q, unapplied (g q) = unapplied q) ->
  once_ok tr (set_phase i p (on_write j f s)).
Proof.
  intros Ho E Hp Hw Hf Hg. apply (same_once tr s); [done | |].
  - pose proof (leader_map s i j w E p f g Hf unapplied Hg) as Hm. rewrite Hp, Hw, !app_nil_r in Hm.
    unfold unapplied_calls. by rewrite Hm.
  - rewrite set_phase_length. apply length_alter.
Qed.

Lemma spurious_once tr i s : once_ok tr s -> once_ok tr (spurious i s).
Proof.
  intros Ho. destruct (wq_writes s !! i) as [w|] eqn:E; [|unfold spurious; by rewrite on_write_id by congruence].
  apply (same_once tr s); [done | | apply length_alter].
  unfold unapplied_calls, spurious. rewrite (phases_on_write _ _ _ _ E). apply reflexive_eq. f_equal.
  eapply concat_alter_same; [by apply phase_lookup|]. destruct (notify_one_cases w) as [[Hw ->]| ->]; [by rewrite Hw | done].
Qed.

Lemma begin_once tr batch opts s : queue_ok s -> once_ok tr s ->
  once_ok (tr ++ (write_begin batch opts s).2) (write_begin batch opts s).1.
Proof.
  intros Hq [Ho Hk]. assert (applied (tr ++ (write_begin batch opts s).2) = applied tr) as Ea.
  { rewrite applied_app. unfold write_begin. destruct (batch_is_empty batch); apply app_nil_r. }
  assert (length (wq_writes s) ∉ applied tr ++ unapplied_calls s) as Hn.
  { intros [Hn|Hn]%elem_of_app.
    - rewrite Forall_forall in Hk. apply Hk in Hn. lia.
    - assert (length (wq_writes s) ∈ outstanding s) as Hn'.
      { revert Hn. unfold unapplied_calls, outstanding. rewrite !elem_of_app. intros [?|Hn]; [by left|]. right.
        apply elem_of_concat in Hn as (g & Hg & (q & -> & Hq')%list_elem_of_fmap).
        apply elem_of_concat. exists (held q). split; [|by apply list_elem_of_fmap_2].
        destruct q; try exact Hg; by apply elem_of_nil in Hg. }
      destruct (q_waiting _ Hq _ Hn') as (w & E & _). apply lookup_lt_Some in E. lia. }
  constructor; rewrite Ea.
  - unfold write_begin. destruct (batch_is_empty batch); cbn [fst]; unfold unapplied_calls; rewrite snoc_phases, map_app, concat_app;
      cbn [wq_group map concat].
    + cbn. by rewrite !app_nil_r.
    + assert (NoDup (length (wq_writes s) :: applied tr ++ unapplied_calls s)) as Hnd by by apply NoDup_cons.
      eapply NoDup_Permutation_proper; [|exact Hnd]. unfold unapplied_calls.
      destruct (wq_group s); cbn [pending_write_new pw_phase unapplied]; rewrite !app_nil_r; solve_Permutation.
  - unfold write_begin. eapply Forall_impl; [exact Hk|]. intros k Hlt.
    destruct (batch_is_empty batch); cbn [fst wq_writes]; rewrite length_app; cbn [length]; cbn beta in Hlt; lia.
Qed.

Lemma write_step_once tr i s s' es :
  queue_ok s -> once_ok tr s -> write_step i s = Some (s', es) -> once_ok (tr ++ es) s'.
Proof.
  intros Hq Ho Hs. unfold write_step in Hs. destruct (wq_writes s !! i) as [w|] eqn:E; [|done]. cbn [mbind option_bind] in Hs.
  assert (forall d, once_ok tr (with_wq_db d s)) as Hd by (intros d; destruct Ho; by constructor).
  destruct (pw_phase w) as [| |group|group items|group items|group fl|[|[j r] results]|j results| | |r|group] eqn:Hp;
    try done.
  - injection Hs as <- <-. rewrite app_nil_r. unfold work. destruct (group_pause _ _) as [r d].
    apply (set_phase_once tr i _ _ w (Hd d) E). right. by destruct r.
  - injection Hs as <- <-. rewrite app_nil_r. apply (same_once tr s); [done | |exact (set_phase_length i _ (with_group [] s))].
    pose proof (pending_phase i (Drained (wq_group s)) (with_group [] s) w E) as Hpd.
    rewrite Hp in Hpd. cbn [unapplied] in Hpd. rewrite app_nil_r in Hpd. rewrite Hpd. unfold unapplied_calls.
    cbn [with_group wq_group app]. change (phases (with_group [] s)) with (phases s). apply Permutation_app_comm.
  - destruct (take_batches group (wq_writes s)) as [[items writes]| |] eqn:Et; injection Hs as <- <-; rewrite app_nil_r;
      [|apply (set_phase_once tr i _ s w Ho E); by right..].
    pose proof (take_batches_phases _ _ _ _ Et) as Eph. set (s1 := mkWriters _ _ writes).
    assert (once_ok tr s1) as Ho1.
    { apply (same_once tr s); [done | |].
      - unfold unapplied_calls, phases. cbn [s1 wq_writes wq_group]. by rewrite Eph.
      - apply (f_equal length) in Eph. by rewrite !length_map in Eph. }
    assert (phases s1 !! i = Some (Drained group)) as Ei
      by (unfold phases; cbn [s1 wq_writes]; rewrite Eph, <- Hp; exact (phase_lookup _ _ _ E)).
    rewrite phases_lookup in Ei. destruct (wq_writes s1 !! i) as [w1|] eqn:E1; [|done]. injection Ei as Ei.
    apply (set_phase_once tr i _ s1 w1 Ho1 E1). left. by rewrite Ei.
  - injection Hs as <- <-. rewrite app_nil_r. unfold work. destruct (group_admission _ _) as [r d].
    apply (set_phase_once tr i _ _ w (Hd d) E). rewrite Hp. destruct r; auto.
  - injection Hs as <- <-. unfold work. destruct (apply_write_group_to_memtable _ _) as [r d].
    apply (apply_once tr i _ (with_wq_db d s) w group items); [by apply with_db_ok | apply Hd | done | done | by destruct r].
  - injection Hs as <- <-. rewrite app_nil_r. unfold work. destruct (group_flush _ _) as [r d].
    apply (set_phase_once tr i _ _ w (Hd d) E). right. by destruct r.
  - injection Hs as <- <-. rewrite app_nil_r. apply (set_phase_once tr i _ s w Ho E). by right.
  - injection Hs as <- <-. rewrite app_nil_r.
    apply (answer_once tr i j _ (complete r) id s w); rewrite ?Hp; done.
  - injection Hs as <- <-. rewrite app_nil_r.
    apply (answer_once tr i j _ notify_one wake s w); rewrite ?Hp; try done; [|by intros []].
    intros w'. unfold notify_one. by destruct (pw_phase w') eqn:Ew.
  - rewrite (wait_round_eq i s w E) in Hs. destruct (pw_result w) as [r|]; injection Hs as <- <-.
    + assert (applied (tr ++ [EReturn i r]) = applied tr) as Ea by (rewrite applied_app; apply app_nil_r).
      constructor; rewrite Ea; [|cbn [on_write wq_writes]; rewrite length_alter; apply Ho].
      assert (unapplied_calls (on_write i (fun w => with_phase (Returned r) (with_result None w)) s) = unapplied_calls s) as ->; [|apply Ho].
      unfold unapplied_calls. rewrite (phases_on_write _ _ _ _ E). f_equal.
      eapply concat_alter_same; [by apply phase_lookup|]. by rewrite Hp.
    + rewrite app_nil_r. apply (set_phase_once tr i _ s w Ho E). by right.
Qed.

Lemma run_once d tr s : queue_run d tr s -> once_ok tr s.
Proof.
  induction 1 as [|tr s es s' Hr IH Hs]; [constructor; [apply NoDup_nil_2 | constructor]|].
  pose proof (run_ok _ _ _ Hr) as Hq. destruct Hs.
  - by apply begin_once.
  - by eapply write_step_once.
  - rewrite app_nil_r. by apply spurious_once.
  - rewrite app_nil_r. by destruct IH.
Qed.

(** C15: in every interleaving of calls of [write], with anything else
    happening to the database in between, each batch is given to the database
    at most once, in an item that holds what its caller asked_for, and a call that
    returns success asked_for nothing or was in a group that was logged and
    applied. *)
Theorem writes_exactly_once d tr s :
  queue_run d tr s ->
  NoDup (applied tr) /\
  (forall group items r, EGroup group items r ∈ tr -> Forall2 (asked_for tr) group items) /\
  (forall i, EReturn i (Ok tt) ∈ tr -> applied_ok tr i).
Proof.
  intros Hr. destruct (run_trace _ _ _ Hr) as [_ Hg Hret]. destruct (run_once _ _ _ Hr) as [Ho _].
  split; [by apply NoDup_app in Ho as [? _]|]. by split.
Qed.

(** ** A call alone *)

Definition alone (d : Db SM) (batch : option WriteBatch) (opts : WriteOptions) (r : option (res unit)) (p : Phase) :
    Writers := mkWriters d [] [mkPendingWrite batch opts r p].

Lemma schedule_app calls calls' s s1 :
  schedule calls s = Some s1 -> schedule (calls ++ calls') s = schedule calls' s1.
Proof.
  revert s. induction calls as [|i calls IH]; intros s; cbn [schedule app]; [by intros [= ->]|].
  destruct (write_step i s) as [[s2 es]|]; [|done]. cbn [mbind option_bind]. apply IH.
Qed.

(** The leader gives itself its result. *)
Lemma alone_completes d opts r :
  schedule [0; 0; 0; 0]%nat (alone d None opts None (Completing [(0%nat, r)]))
  = Some (alone d None opts None (Returned r)).
Proof. reflexivity. Qed.

(** What a part of the work leaves. *)
Definition after_part {A} (next : A -> Phase) (opts : WriteOptions) (x : res A * Db SM) : Writers :=
  alone x.2 None opts None (after_work [0%nat] next x.1).

Lemma alone_admits d batch opts :
  batch_is_empty batch = false -> exists d0, group_pause opts d = (Ok tt, d0) /\
  schedule [0; 0; 0]%nat (write_begin batch opts (mkWriters d [] [])).1
  = Some (alone d0 None opts None (Admitting [0%nat] [group_item (batch, opts)])).
Proof.
  intros He. destruct (group_pause_ok opts d) as [d0 E]. exists d0. split; [done|].
  unfold write_begin. rewrite He. cbn [fst].
  change (schedule [0; 0]%nat (work 0%nat [] (group_pause opts) (fun _ => Gathering)
    (mkWriters d [0%nat] [pending_write_new batch opts Leading]))
    = Some (alone d0 None opts None (Admitting [0%nat] [group_item (batch, opts)]))).
  unfold work. cbn [wq_db]. rewrite E. reflexivity.
Qed.

Definition group_ends (x : res unit * Db SM) (s : Writers) : Prop :=
  wq_db s = x.2 /\ match x.1 with
                  | Panic => phases s = [Panicked [0%nat]]
                  | r => phases s = [Returned r]
                  end.

Definition group_result {A} (x : res A * Db SM) (k : A -> M (Db SM) unit) : res unit * Db SM :=
  match x with
  | (Ok a, d) => k a d
  | (Err e, d) => (default Panic (head (repeat_group_error e 1)), d)
  | (Panic, d) => (Panic, d)
  end.

(** A part that fails ends the call. *)
Lemma part_fails {A} (next : A -> Phase) opts x k :
  (forall a, x.1 <> Ok a) ->
  exists calls s, schedule calls (after_part next opts x) = Some s /\ group_ends (group_result x k) s.
Proof.
  destruct x as [[a|e|] d]; intros Hx; [by destruct (Hx a) | |].
  - exists [0; 0; 0; 0]%nat, (alone d None opts None (Returned (default Panic (head (repeat_group_error e 1))))).
    split; [by destruct e|]. by destruct e.
  - exists [], (alone d None opts None (Panicked [0%nat])). by split.
Qed.

(** [apply_write_group] on one request, by its parts. *)
Lemma write_group_parts batch opts (d : Db SM) :
  batch_is_empty batch = false -> forall d0, group_pause opts d = (Ok tt, d0) ->
  let items := [group_item (batch, opts)] in
  db_write batch opts d
  = group_result (group_admission items d0) (fun _ d1 =>
      group_result (apply_write_group_to_memtable items d1) (fun should_flush d2 =>
        group_result (group_flush should_flush d2) (fun _ d3 => (Ok tt, d3)))).
Proof.
  intros He d0 E items. unfold db_write. rewrite He, bind_get_state.
  unfold group_pause in E. rewrite bind_get_state in E. rewrite (bind_ok _ _ _ _ _ E).
  unfold apply_write_group. change (map group_item [(batch, opts)]) with items. unfold mbind at 1, M_bind at 1.
  set (total := foldl _ 0 items).
  assert (forall (B : Type) (rest : M (Db SM) B), (_ ← on_metrics (record_user_write total); _ ← apply_write_rate_limit total;
    _ ← apply_write_pressure; rest) d0 = (_ ← group_admission items; rest) d0) as ->.
  { intros B rest. unfold group_admission. fold total. rewrite bind_assoc.
    unfold mbind, M_bind. destruct (on_metrics _ d0) as [[u| |] d1]; [|done|done].
    by destruct (apply_write_rate_limit total d1) as [[u'| |] d2]. }
  unfold mbind at 1, M_bind at 1. destruct (group_admission items d0) as [[u|e|] d1]; cbn [group_result]; [|by destruct e|done].
  unfold mbind at 1, M_bind at 1. destruct (apply_write_group_to_memtable items d1) as [[fl|e|] d2]; cbn [group_result];
    [|by destruct e|done].
  change (if fl then flush else mret tt) with (group_flush (N := N) fl).
  destruct (group_flush fl d2) as [[[]|e|] d3]; cbn [group_result]; [done | by destruct e | done].
Qed.

(** A part of the work, then the rest. *)
Lemma part_then {A} (next : A -> Phase) opts (x : res A * Db SM) k :
  (forall a d, x = (Ok a, d) -> exists calls s,
     schedule calls (alone d None opts None (next a)) = Some s /\ group_ends (k a d) s) ->
  exists calls s, schedule calls (after_part next opts x) = Some s /\ group_ends (group_result x k) s.
Proof.
  intros Hok. destruct x as [[a|e|] d]; [by apply Hok | by apply part_fails..].
Qed.

(** One step, then the rest. *)
Lemma step_then s s1 (x : res unit * Db SM) :
  schedule [0%nat] s = Some s1 ->
  (exists calls s', schedule calls s1 = Some s' /\ group_ends x s') ->
  exists calls s', schedule calls s = Some s' /\ group_ends x s'.
Proof.
  intros E (calls & s' & Hs & Hx). exists ([0%nat] ++ calls), s'. by rewrite (schedule_app _ _ _ _ E).
Qed.

Lemma alone_works {A} (m : M (Db SM) A) (next : A -> Phase) d opts :
  work 0%nat [0%nat] m next (alone d None opts None Checking) = after_part next opts (m d).
Proof. unfold work, after_part. cbn [wq_db alone]. by destruct (m d). Qed.

(** C17: a call that meets no other is its own leader, takes its own
    batch and returns what [db_write] returns, with the same database, or
    panics where it does. *)
Theorem lone_write_is_db_write batch opts (d : Db SM) :
  batch_is_empty batch = false ->
  exists calls s, schedule calls (write_begin batch opts (mkWriters d [] [])).1 = Some s /\
    group_ends (db_write batch opts d) s.
Proof.
  intros He. destruct (alone_admits d batch opts He) as (d0 & E & Es).
  rewrite (write_group_parts batch opts d He d0 E). set (items := [group_item (batch, opts)]) in *.
  assert (exists calls s, schedule calls (alone d0 None opts None (Admitting [0%nat] items)) = Some s /\
    group_ends (group_result (group_admission items d0) (fun _ d1 =>
      group_result (apply_write_group_to_memtable items d1) (fun should_flush d2 =>
        group_result (group_flush should_flush d2) (fun _ d3 => (Ok tt, d3))))) s) as (calls & s & Hs & Hx).
  2: { exists ([0; 0; 0]%nat ++ calls), s. by rewrite (schedule_app _ _ _ _ Es). }
  eapply step_then; [cbn [schedule write_step mbind option_bind]; exact (f_equal Some (alone_works _ (fun _ => Applying [0%nat] items) d0 opts))|].
  apply part_then. intros [] d1 _.
  eapply step_then; [cbn [schedule write_step mbind option_bind]; exact (f_equal Some (alone_works _ (Flushing [0%nat]) d1 opts))|].
  apply part_then. intros should_flush d2 _.
  eapply step_then; [cbn [schedule write_step mbind option_bind]; exact (f_equal Some (alone_works _ (fun _ => Completing [(0%nat, Ok tt)]) d2 opts))|].
  apply part_then. intros [] d3 _.
  exists [0; 0; 0; 0]%nat, (alone d3 None opts None (Returned (Ok tt))). split; [reflexivity | by split].
Qed.

(** ** The queue *)

(** C16: in every interleaving of calls of [write] the queue is well
    formed: a call without a result is in exactly one place, the queue or the
    list of one leader; a call leads the queue exactly when it is its first;
    each call that waits is in such a place, has its result, or is about to be
    woken. A leader therefore finds every batch of its group, and never panics
    where the code expects one. *)
Theorem queue_well_formed d tr s :
  queue_run d tr s ->
  queue_ok s /\
  forall i w group, wq_writes s !! i = Some w -> pw_phase w = Drained group ->
    exists items writes, take_batches group (wq_writes s) = Ok (items, writes) /\
      Forall2 (asked_for tr) group items.
Proof.
  intros Hr. apply run_ok in Hr as Hq. split; [exact Hq|]. intros i w group E Hp.
  destruct (take_ok i s w group Hq E Hp) as (items & writes & Et & _ & _ & Hit).
  exists items, writes. split; [exact Et|]. eapply Forall2_impl; [exact Hit|].
  intros j item (wj & b & Ej & Eb & ->). cbn [group_item gi_batch gi_opts fst snd].
  by apply (co_batch _ _ _ (to_calls _ _ (run_trace _ _ _ Hr) j wj Ej)).
Qed.

(** ** Runs by computation *)

Inductive action : Type :=
  | Begin (batch : WriteBatch) (opts : WriteOptions)
  | Step (i : nat)
  | Wake (i : nat).

Definition act (a : action) (s : Writers) : option (Writers * list event) :=
  match a with
  | Begin batch opts => Some (write_begin batch opts s)
  | Step i => write_step i s
  | Wake i => Some (spurious i s, [])
  end.

Fixpoint perform (actions : list action) (s : Writers) : option (Writers * list event) :=
  match actions with
  | [] => Some (s, [])
  | a :: actions => '(s, es) ← act a s; '(s, es') ← perform actions s; Some (s, es ++ es')
  end.

(** The calls that returned success, in order. *)
Definition returned (es : list event) : list nat :=
  omap (fun e => match e with EReturn i (Ok _) => Some i | _ => None end) es.

Lemma returned_elem es i : i ∈ returned es -> EReturn i (Ok tt) ∈ es.
Proof.
  unfold returned. intros (e & He & Ei)%list_elem_of_omap. by destruct e as [| |j [[]| |]]; simplify_eq.
Qed.

Lemma act_step a s s' es : act a s = Some (s', es) -> queue_step s es s'.
Proof.
  destruct a as [batch opts|i|i]; cbn [act].
  - intros [= E]. pose proof (qs_begin batch opts s) as Hs. rewrite E in Hs. exact Hs.
  - apply qs_advance.
  - intros [= <- <-]. constructor.
Qed.

Lemma perform_run d actions tr s s' es :
  queue_run d tr s -> perform actions s = Some (s', es) -> queue_run d (tr ++ es) s'.
Proof.
  revert tr s es. induction actions as [|a actions IH]; intros tr s es Hr; cbn [perform].
  { intros [= <- <-]. by rewrite app_nil_r. }
  destruct (act a s) as [[s1 es1]|] eqn:Ea; [|done]. cbn [mbind option_bind].
  destruct (perform actions s1) as [[s2 es2]|] eqn:Ep; [|done]. cbn [mbind option_bind]. intros [= <- <-].
  rewrite app_assoc. eapply IH; [|exact Ep]. eapply qr_step; [exact Hr | by eapply act_step].
Qed.
End queue_ok.

Section queue_examples.
#[local] Existing Instance toy_externals.
#[local] Existing Instance toy_hash_order.
#[local] Existing Instance toy_number_hash_order.
#[local] Existing Instance toy_skip_map.
#[local] Existing Instance toy_os_messages.

Definition put_one (k v : Z) : WriteBatch := mkWriteBatch [BPut [k] [v]].

(** The second call joins the group of the first and sleeps; the first drains
    the queue. *)
Definition gather_actions : list action :=
  [Begin (put_one 1 10) default_write_options; Step 0; Begin (put_one 2 20) default_write_options;
   Step 1; Wake 1; Step 1; Step 0].

Definition gathered : Writers * list event :=
  default (mkWriters example_new [] [], []) (perform gather_actions (mkWriters example_new [] [])).

Definition answer_calls : list nat := [0; 0; 0; 0; 0; 0; 0; 0; 1; 0; 0]%nat.

Lemma gathered_run : queue_run example_new gathered.2 gathered.1.
Proof.
  assert (match perform gather_actions (mkWriters example_new [] []) with Some _ => true | None => false end = true)
    as Hs by by vm_compute.
  unfold gathered. destruct (perform gather_actions _) as [[s es]|] eqn:E; [|done].
  by apply (perform_run example_new gather_actions [] (mkWriters example_new [] []) s es (qr_start _) E).
Qed.

Lemma queue_well_formed_witness :
  exists items writes, take_batches [0; 1]%nat (wq_writes gathered.1) = Ok (items, writes) /\
    map gi_batch items = [put_one 1 10; put_one 2 20].
Proof.
  destruct (queue_well_formed example_new gathered.2 gathered.1 gathered_run) as [_ Ht].
  assert (exists w, wq_writes gathered.1 !! 0%nat = Some w /\ pw_phase w = Drained [0; 1]%nat) as (w & E & Hp)
    by (eexists; split; by vm_compute).
  destruct (Ht 0%nat w _ E Hp) as (items & writes & Et & _). exists items, writes. split; [exact Et|].
  assert (match take_batches [0; 1]%nat (wq_writes gathered.1) with
          | Ok (items, _) => map gi_batch items | _ => [] end = [put_one 1 10; put_one 2 20]) as Ei by by vm_compute.
  by rewrite Et in Ei.
Defined.

Lemma writers_answered_witness :
  exists s', schedule answer_calls gathered.1 = Some s' /\ (length answer_calls <= steps_left gathered.1)%nat /\
    phases s' = [Returned (Ok tt); Returned (Ok tt)] /\ exists w, wq_writes s' !! 1%nat = Some w /\ ended s' 1 w.
Proof.
  destruct (writers_answered example_new gathered.2 gathered.1 gathered_run) as (Hb & _ & He).
  assert (option_map phases (schedule answer_calls gathered.1) = Some [Returned (Ok tt); Returned (Ok tt)]) as Hp
    by by vm_compute.
  destruct (schedule answer_calls gathered.1) as [s'|] eqn:E; [|done]. injection Hp as Hp.
  assert (forall i, phases s' !! i = pw_phase <$> wq_writes s' !! i) as Hl by apply phases_lookup.
  assert (blocked s') as Hblk.
  { intros i. unfold write_step. specialize (Hl i). rewrite Hp in Hl.
    destruct (wq_writes s' !! i) as [w|]; [|done]. cbn [mbind option_bind].
    destruct i as [|[|i]]; [injection Hl as <- | injection Hl as <- | done]; done. }
  exists s'. split; [done|]. split; [by apply (Hb _ _ E)|]. split; [done|].
  specialize (Hl 1%nat). rewrite Hp in Hl. destruct (wq_writes s' !! 1%nat) as [w|] eqn:Ew; [|done].
  exists w. split; [done|]. exact (He _ _ E Hblk _ _ Ew).
Defined.

Lemma writes_exactly_once_witness :
  exists tr, EReturn 1 (Ok tt) ∈ tr /\ applied tr = [0; 1]%nat /\ NoDup (applied tr) /\ applied_ok tr 1.
Proof.
  assert (match perform (map Step answer_calls) gathered.1 with Some _ => true | None => false end = true) as Hs
    by by vm_compute.
  destruct (perform (map Step answer_calls) gathered.1) as [[s es]|] eqn:E; [|done].
  pose proof (perform_run example_new _ _ _ _ _ gathered_run E) as Hr.
  destruct (writes_exactly_once example_new (gathered.2 ++ es) s Hr) as (Hn & _ & Hret).
  assert (match perform (map Step answer_calls) gathered.1 with
          | Some (_, es) => returned es | None => [] end = [1; 0]%nat) as Hev by by vm_compute.
  assert (match perform (map Step answer_calls) gathered.1 with
          | Some (_, es) => applied (gathered.2 ++ es) | None => [] end = [0; 1]%nat) as Ha by by vm_compute.
  rewrite E in Hev, Ha. clear E Hs.
  assert (EReturn 1 (Ok tt) ∈ gathered.2 ++ es) as Hin.
  { apply elem_of_app. right. apply returned_elem. rewrite Hev. by left. }
  exists (gathered.2 ++ es). exact (conj Hin (conj Ha (conj Hn (Hret _ Hin)))).
Defined.

Lemma lone_write_is_db_write_witness :
  exists calls s, schedule calls (write_begin (put_one 1 10) default_write_options (mkWriters example_new [] [])).1 = Some s /\
    phases s = [Returned (Ok tt)].
Proof.
  destruct (lone_write_is_db_write (put_one 1 10) default_write_options example_new eq_refl) as (calls & s & Hs & _ & Hr).
  assert ((db_write (put_one 1 10) default_write_options example_new).1 = Ok tt) as E by by vm_compute.
  rewrite E in Hr. exists calls, s. exact (conj Hs Hr).
Defined.
End queue_examples.
