(* ===== verification/DbLinear.v ===== *)
(** * Concurrent writers and readers

    Calls of [DB::write] and reads in any interleaving, on a database where every
    step has room: what a read returns is what the groups applied before it
    wrote, in their order, and a write returns success, after its group was
    applied.  Writes and reads of now are linearizable: they take effect in one
    step between their call and their return. *)

From Stdlib Require Import Sorting.Sorted.
From stdpp Require Import base list gmap strings sorting.
From S2P Require Import Prelude Key Spec Memtable Coding Batch Env Externals Wal Block Cache.
From S2P Require Import Format Properties Table Reader TableCache Version Options Metrics.
From S2P Require Import Compact Mvcc DbState DbRead DbMem DbFlush DbInv DbFlushOk DbCompact.
From S2P Require Import DbWrite DbSettled DbCompactOk DbCompactRun DbGroup DbWriteOk DbCommitOk.
From S2P Require Import DbOpen DbCrash DbSession DbSessionOk DbQueue DbQueueOk.

Section linear.
Context `{X : Externals} `{HX : !ExternalsOk X} `{H : HashOrder} `{N : NumberHashOrder}
  `{SM : arena_skip_map} `{!SkipMapOk SM} `{O : OsMessages}.

(** ** Runs with room *)

(** What the next step of a call needs: a limiter whose wait is a [Duration]
    and no compaction, sequence numbers for the group and records the formats
    can hold, a file number and a table for the memtable. *)
Definition step_room (p : Phase) (d : Db SM) : Prop :=
  match p with
  | Admitting _ items =>
      limiter_waits (db_write_rate_limiter d)
        (foldl (fun n item => wrap64 (n + gi_user_write_bytes item)) 0 items) /\
      len (st_l0_tables (db_state d)) < level0_stop_writes_trigger (db_options d)
  | Applying _ items =>
      st_last_sequence (db_state d) + 1 + len (group_records items) < 2 ^ 64 /\
      Forall record_storable (group_records items)
  | Flushing _ true =>
      vs_next_file_number (db_versions d) < 2 ^ 62 /\
      forall m source st', take_oldest_flushable_memtable (memtable_kind (db_options d)) (db_state d)
        = (Some (m, source), st') -> table_bounded (db_options d) (mt_entries m)
  | _ => True
  end.

(** What clients see: the events of writes, and reads with their results. *)
Inductive moment : Type :=
  | MWrite (e : event)
  | MGet (key : bytes) (r : res (option bytes))
  | MScan (lower upper : Bound) (r : res (list (bytes * bytes))).

Inductive calm_run (d : Db SM) : list moment -> Writers -> Prop :=
  | cr_start : calm_run d [] (mkWriters d [] [])
  | cr_begin tr batch opts s :
      calm_run d tr s ->
      calm_run d (tr ++ map MWrite (write_begin batch opts s).2) (write_begin batch opts s).1
  | cr_step tr i w s s' es :
      calm_run d tr s -> wq_writes s !! i = Some w -> step_room (pw_phase w) (wq_db s) ->
      write_step i s = Some (s', es) -> calm_run d (tr ++ map MWrite es) s'
  | cr_spurious tr i s : calm_run d tr s -> calm_run d tr (spurious i s)
  | cr_get tr key s :
      calm_run d tr s ->
      calm_run d (tr ++ [MGet key (db_get key (wq_db s)).1]) (with_wq_db (db_get key (wq_db s)).2 s)
  | cr_scan tr lower upper s :
      calm_run d tr s ->
      calm_run d (tr ++ [MScan lower upper (db_scan lower upper (wq_db s)).1])
        (with_wq_db (db_scan lower upper (wq_db s)).2 s).

Definition writes_of (tr : list moment) : list event :=
  omap (fun m => match m with MWrite e => Some e | _ => None end) tr.

Lemma writes_of_app tr tr' : writes_of (tr ++ tr') = writes_of tr ++ writes_of tr'.
Proof. apply omap_app. Qed.

Lemma writes_of_map es : writes_of (map MWrite es) = es.
Proof. induction es as [|e es IH]; [done|]. cbn. by f_equal. Qed.

Lemma calm_queue_run d tr s : calm_run d tr s -> queue_run d (writes_of tr) s.
Proof.
  induction 1 as [|tr batch opts s _ IH|tr i w s s' es _ IH _ _ Hs|tr i s _ IH|tr key s _ IH|tr lower upper s _ IH];
    rewrite ?writes_of_app, ?writes_of_map.
  - constructor.
  - by eapply qr_step; [|constructor].
  - eapply qr_step; [done | by eapply qs_advance].
  - rewrite <- (app_nil_r (writes_of tr)). by eapply qr_step; [|constructor].
  - cbn. by eapply qr_step; [|constructor].
  - cbn. by eapply qr_step; [|constructor].
Qed.

(** ** No step fails *)

Definition calm_phase (p : Phase) : Prop :=
  match p with
  | Completing results | Notifying _ results => Forall (fun x : nat * res unit => x.2 = Ok tt) results
  | Returned r => r = Ok tt
  | Panicked _ => False
  | _ => True
  end.

Definition calm_call (w : PendingWrite) : Prop :=
  calm_phase (pw_phase w) /\ (pw_result w = None \/ pw_result w = Some (Ok tt)).

Definition all_calm (s : Writers) : Prop := forall i w, wq_writes s !! i = Some w -> calm_call w.

Lemma calm_on_write i f s :
  all_calm s -> (forall w, wq_writes s !! i = Some w -> calm_call w -> calm_call (f w)) -> all_calm (on_write i f s).
Proof.
  intros Hc Hf k w. cbn [on_write wq_writes]. rewrite list_lookup_alter. case_decide; [|apply Hc]. subst k.
  destruct (wq_writes s !! i) as [w0|] eqn:E; [|done]. intros [= <-]. apply Hf; [done | by eapply Hc].
Qed.

Lemma calm_set_phase i p s : all_calm s -> calm_phase p -> all_calm (set_phase i p s).
Proof. intros Hc Hp. apply calm_on_write; [done|]. by intros w _ [_ Hr]. Qed.

Lemma calm_work {A} i group (m : M (Db SM) A) next s a d' :
  all_calm s -> m (wq_db s) = (Ok a, d') -> calm_phase (next a) ->
  all_calm (work i group m next s) /\ wq_db (work i group m next s) = d'.
Proof.
  intros Hc E Hp. unfold work. rewrite E. cbn [after_work]. split; [|done]. by apply calm_set_phase.
Qed.

Lemma calm_notify i s : all_calm s -> all_calm (on_write i notify_one s).
Proof.
  intros Hc. apply calm_on_write; [done|]. intros w _ Hw.
  unfold notify_one. destruct (pw_phase w); try exact Hw. by destruct Hw.
Qed.

(** ** What the database holds *)

(** The database is in order, and reads of now see [v]. *)
Definition shows (d : Db SM) (v : view) : Prop :=
  exists tables l0 levels, db_inv tables l0 levels d /\
    forall key, now_view l0 levels (db_state d) key = v key.

Lemma shows_waited d d' v : shows d v -> waited d d' -> shows d' v.
Proof.
  intros (tables & l0 & levels & Hinv & Hv) Hw. exists tables, l0, levels. split; [by eapply waited_inv|].
  by destruct Hw as (m & l & now & ->).
Qed.

Lemma shows_reads tables l0 levels d d' v :
  db_inv tables l0 levels d -> (forall key, now_view l0 levels (db_state d) key = v key) ->
  only_reads tables d d' -> shows d' v.
Proof.
  intros [Hok Hly] Hv Hr. pose proof (only_reads_ok _ _ _ _ _ Hok Hr) as Hok'. exists tables, l0, levels.
  destruct Hr as (c & m & -> & _). split; [|exact Hv]. split; [exact Hok'|]. destruct Hly. by constructor.
Qed.

Lemma shows_get d v key : shows d v -> exists d', db_get key d = (Ok (v key), d') /\ shows d' v.
Proof.
  intros (tables & l0 & levels & Hinv & Hv).
  destruct (get_opt_live tables l0 levels d key default_read_options (di_ok _ _ _ _ Hinv)) as (d' & E & Hr).
  exists d'. split; [|by eapply shows_reads]. unfold db_get. rewrite E. by rewrite <- Hv.
Qed.

Lemma shows_scan d v lower upper :
  shows d v -> exists rows d', db_scan lower upper d = (Ok rows, d') /\ view_rows lower upper v rows /\ shows d' v.
Proof.
  intros (tables & l0 & levels & Hinv & Hv).
  destruct (scan_opt_rows tables l0 levels d lower upper default_read_options (di_ok _ _ _ _ Hinv))
    as (rows & d' & E & Hr & Hrows).
  exists rows, d'. split; [exact E|]. split; [|by eapply shows_reads].
  exact (view_rows_same _ _ _ _ _ Hv (scan_spec_rows _ _ _ _ _ Hrows)).
Qed.

Lemma shows_group d v group items :
  shows d v -> step_room (Applying group items) d ->
  exists flag d', apply_write_group_to_memtable items d = (Ok flag, d') /\
    shows d' (view_after (group_records items) v).
Proof.
  intros (tables & l0 & levels & Hinv & Hv) [Hseq Hst].
  destruct (ly_wal_end _ _ _ _ (di_layout _ _ _ _ Hinv)) as [c Hw].
  destruct (group_ok tables l0 levels d items c Hinv Hseq Hst Hw) as (flag & d' & tables' & E & _ & Hinv' & A).
  exists flag, d'. split; [exact E|]. exists tables', l0, levels. split; [exact Hinv'|]. intros key.
  unfold now_view at 1. rewrite (ap_new _ _ _ _ _ _ A) by done. apply view_after_ext. rewrite <- Hv.
  apply (live_now tables); [apply Hinv|]. rewrite (ap_last _ _ _ _ _ _ A).
  pose proof (len_nonneg (group_records items)). lia.
Qed.

Lemma shows_flush d v group b :
  shows d v -> step_room (Flushing group b) d -> exists d', group_flush b d = (Ok tt, d') /\ shows d' v.
Proof.
  intros Hsh Hroom. destruct b; [|by exists d]. destruct Hroom as [Hn Hb].
  pose proof Hsh as (tables & l0 & levels & Hinv & Hv). cbn [group_flush].
  destruct (take_oldest_flushable_memtable (memtable_kind (db_options d)) (db_state d)) as [[[m src]|] st'] eqn:Et.
  - destruct (flush_ok tables l0 levels d m src st' Hinv Et Hn (Hb _ _ _ eq_refl))
      as (mn & readers & d' & tables' & t & E & Hr & Hinv' & Hc).
    exists d'. split; [exact E|]. exists tables', (mt_entries m :: l0), levels. split; [exact Hinv'|].
    intros key. unfold now_view. rewrite Hc, (fr_state _ _ _ _ _ _ _ _ _ Hr).
    destruct (take_runs _ _ _ _ _ Et) as (_ & _ & _ & _ & El & _). cbn [with_tables st_last_sequence].
    rewrite El. apply Hv.
  - exists d. split; [|exact Hsh]. unfold flush. rewrite bind_get_state, (do_open _ _ _ _ (di_ok _ _ _ _ Hinv)).
    by rewrite Et.
Qed.

Lemma shows_admission d v group items :
  shows d v -> step_room (Admitting group items) d ->
  exists d', group_admission items d = (Ok tt, d') /\ shows d' v.
Proof.
  intros Hsh [Hl Hp]. unfold group_admission. cbv zeta.
  set (n := foldl (fun n item => wrap64 (n + gi_user_write_bytes item)) 0 items) in *.
  set (d1 := set_metrics (record_user_write n (db_metrics d)) d).
  assert (waited d d1) as W1 by (by eexists _, (db_write_rate_limiter d), (db_now d)).
  destruct (rate_limit_waited n d1 Hl) as (d2 & E2 & W2). pose proof (waited_trans _ _ _ W1 W2) as W12.
  erewrite bind_ok by exact (eq_refl (Ok tt, d1)). rewrite (bind_ok _ _ _ _ _ E2).
  unfold apply_write_pressure. rewrite bind_get_state. cbv zeta.
  replace (level0_stop_writes_trigger (db_options d2) <=? len (st_l0_tables (db_state d2))) with false
    by (destruct W12 as (m & l & now & ->); cbn [db_options db_state]; lia).
  destruct (_ <=? _); [|exists d2; split; [done | by eapply shows_waited]].
  destruct (sleep_waited (5 * 10 ^ 6) d2) as (d3 & E3 & W3). exists d3. split; [exact E3|].
  eapply shows_waited; [exact Hsh|]. by eapply waited_trans.
Qed.

Lemma shows_pause d v opts : shows d v -> exists d', group_pause opts d = (Ok tt, d') /\ shows d' v.
Proof.
  intros Hsh. unfold group_pause. rewrite bind_get_state. destruct (_ || _); [|by exists d].
  destruct (sleep_waited (write_group_max_delay_micros (db_options d) * 1000) d) as (d' & E & W).
  exists d'. split; [exact E | by eapply shows_waited].
Qed.

(** ** Histories *)

(** What the groups of a history wrote, in their order. *)
Definition event_records (es : list event) : list BatchRecord :=
  concat (map (fun e => match e with EGroup _ items (Ok _) => group_records items | _ => [] end) es).

Lemma event_records_app es es' : event_records (es ++ es') = event_records es ++ event_records es'.
Proof. unfold event_records. by rewrite map_app, concat_app. Qed.

Definition records_of (tr : list moment) : list BatchRecord := event_records (writes_of tr).

Lemma records_of_app tr es : records_of (tr ++ map MWrite es) = records_of tr ++ event_records es.
Proof. unfold records_of. by rewrite writes_of_app, writes_of_map, event_records_app. Qed.

(** A moment after [pre]: reads see what was applied, a write returns success
    after its group. *)
Definition moment_ok (v : view) (pre : list moment) (m : moment) : Prop :=
  match m with
  | MGet key r => r = Ok (view_after (records_of pre) v key)
  | MScan lower upper r => exists rows, r = Ok rows /\ view_rows lower upper (view_after (records_of pre) v) rows
  | MWrite (EReturn i r) => r = Ok tt /\ applied_ok (writes_of pre) i
  | MWrite _ => True
  end.

Definition history_ok (v : view) (tr : list moment) : Prop :=
  forall pre m post, tr = pre ++ m :: post -> moment_ok v pre m.

Lemma history_nil v : history_ok v [].
Proof. intros pre m post E. by destruct pre. Qed.

Lemma history_snoc v tr m : history_ok v tr -> moment_ok v tr m -> history_ok v (tr ++ [m]).
Proof.
  intros Hh Hm pre m' post E. destruct post as [|x post _] using rev_ind.
  - by apply app_inj_tail in E as [-> ->].
  - rewrite app_comm_cons, app_assoc in E. apply app_inj_tail in E as [E _]. by apply (Hh pre m' post).
Qed.

Lemma shows_ext d v v' : (forall key, v key = v' key) -> shows d v -> shows d v'.
Proof.
  intros E (tables & l0 & levels & Hinv & Hv). exists tables, l0, levels. split; [done|].
  intros key. by rewrite Hv.
Qed.

(** What a step does. *)
Definition step_shows (v : view) (tr : list event) (s' : Writers) (es : list event) : Prop :=
  all_calm s' /\ shows (wq_db s') (view_after (event_records es) v) /\
  (es = [] \/ (exists group items r, es = [EGroup group items r]) \/
   exists i, es = [EReturn i (Ok tt)] /\ applied_ok tr i).

Lemma quiet_shows v tr s' : all_calm s' -> shows (wq_db s') v -> step_shows v tr s' [].
Proof. intros Hc Hs. split; [exact Hc|]. split; [exact Hs | by left]. Qed.

Lemma calm_step v tr i w s s' es :
  queue_ok s -> trace_ok tr s -> all_calm s -> shows (wq_db s) v -> wq_writes s !! i = Some w ->
  step_room (pw_phase w) (wq_db s) -> write_step i s = Some (s', es) -> step_shows v tr s' es.
Proof.
  intros Hq Ht Hc Hsh E Hroom Hs. unfold write_step in Hs. rewrite E in Hs. cbn [mbind option_bind] in Hs.
  destruct (Hc i w E) as [Hp Hres].
  destruct (pw_phase w) as [| |group|group items|group items|group b|results|j results| | |r|group] eqn:Ep; try done.
  - injection Hs as <- <-. destruct (shows_pause _ v (pw_opts w) Hsh) as (d' & E1 & Hsh').
    destruct (calm_work i [] (group_pause (pw_opts w)) (fun _ => Gathering) s tt d' Hc E1 I) as [Hc' Ed].
    apply quiet_shows; [exact Hc' | by rewrite Ed].
  - injection Hs as <- <-. apply quiet_shows; [by apply calm_set_phase | exact Hsh].
  - destruct (take_ok i s w group Hq E Ep) as (items & writes & E1 & _ & Hw & _). rewrite E1 in Hs.
    injection Hs as <- <-. apply quiet_shows; [|exact Hsh]. apply calm_set_phase; [|done].
    intros k w'. cbn [wq_writes]. destruct (Hw k) as [-> | ->]; [apply Hc|].
    destruct (wq_writes s !! k) as [w0|] eqn:Ek; [|done]. intros [= <-]. by apply (Hc k w0).
  - injection Hs as <- <-. destruct (shows_admission _ v group items Hsh Hroom) as (d' & E1 & Hsh').
    destruct (calm_work i group (group_admission items) (fun _ => Applying group items) s tt d' Hc E1 I) as [Hc' Ed].
    apply quiet_shows; [exact Hc' | by rewrite Ed].
  - injection Hs as <- <-. destruct (shows_group _ v group items Hsh Hroom) as (flag & d' & E1 & Hsh').
    destruct (calm_work i group (apply_write_group_to_memtable items) (Flushing group) s flag d' Hc E1 I) as [Hc' Ed].
    split; [exact Hc'|]. split; [|right; left; by eexists _, _, _]. rewrite Ed. eapply shows_ext; [|exact Hsh'].
    intros key. rewrite E1. unfold event_records. cbn [fst map concat]. by rewrite app_nil_r.
  - injection Hs as <- <-. destruct (shows_flush _ v group b Hsh Hroom) as (d' & E1 & Hsh').
    destruct (calm_work i group (group_flush b)
      (fun _ => Completing (zip group (replicate (length group) (Ok tt)))) s tt d' Hc E1) as [Hc' Ed].
    { cbn [calm_phase]. apply Forall_forall. intros [k r] Hk%elem_of_zip_r. cbn [snd].
      by apply elem_of_replicate in Hk as [-> _]. }
    apply quiet_shows; [exact Hc' | by rewrite Ed].
  - destruct results as [|[j r] results].
    + injection Hs as <- <-. apply quiet_shows; [by apply calm_set_phase | exact Hsh].
    + injection Hs as <- <-. cbn [calm_phase] in Hp. apply Forall_cons in Hp as [Hr Hp]. cbn [snd] in Hr. subst r.
      apply quiet_shows; [|exact Hsh]. apply calm_set_phase; [|exact Hp].
      apply calm_on_write; [exact Hc|]. intros w0 _ [Hp0 _]. split; [exact Hp0 | by right].
  - injection Hs as <- <-. apply quiet_shows; [|exact Hsh]. apply calm_set_phase; [by apply calm_notify | exact Hp].
  - assert (all_calm (on_write i wait_round s)) as Hc'.
    { apply calm_on_write; [exact Hc|]. intros w0 E0 [Hp0 Hr0]. unfold wait_round.
      destruct Hr0 as [E1|E1]; rewrite E1; (split; [done | by left]). }
    destruct Hres as [Er|Er]; rewrite Er in Hs; injection Hs as <- <-; [by apply quiet_shows|].
    split; [exact Hc'|]. split; [exact Hsh|]. right. right. exists i. split; [done|].
    by apply (co_result _ _ _ (to_calls _ _ Ht i w E)).
Qed.

(** The invariant of a run. *)
Lemma calm_run_ok d v tr s :
  shows d v -> calm_run d tr s ->
  all_calm s /\ shows (wq_db s) (view_after (records_of tr) v) /\ history_ok v tr.
Proof.
  intros Hd. induction 1 as [|tr batch opts s Hr IH|tr i w s s' es Hr IH E Hroom Hs|tr i s Hr IH|tr key s Hr IH|tr lower upper s Hr IH].
  - split; [by intros i w|]. split; [exact Hd | apply history_nil].
  - destruct IH as (Hc & Hsh & Hh). rewrite records_of_app.
    assert (forall g w, calm_call w -> all_calm (mkWriters (wq_db s) g (wq_writes s ++ [w]))) as Hsnoc.
    { intros g w Hw k w'. cbn [wq_writes]. intros [Ek|(_ & Ek)]%lookup_app_Some; [by eapply Hc|].
      destruct (k - _)%nat; [by injection Ek as <- | done]. }
    unfold write_begin. destruct (batch_is_empty batch) eqn:Ee; cbn [fst snd map].
    + split; [apply Hsnoc; split; [done | by left]|].
      unfold event_records. cbn [map concat]. rewrite !app_nil_r. split; [exact Hsh|].
      change [?a; ?b] with ([a] ++ [b]). rewrite app_assoc. apply history_snoc; [by apply history_snoc|].
      split; [done|]. left. exists batch, opts. split; [|done]. rewrite writes_of_app. apply elem_of_app. right. by left.
    + split; [|unfold event_records; cbn [map concat]; rewrite !app_nil_r; split; [exact Hsh | by apply history_snoc]].
      apply Hsnoc. split; [by destruct (wq_group s) | by left].
  - destruct IH as (Hc & Hsh & Hh). pose proof (calm_queue_run _ _ _ Hr) as Hqr.
    destruct (calm_step _ (writes_of tr) i w s s' es (run_ok _ _ _ Hqr) (run_trace _ _ _ Hqr) Hc Hsh E Hroom Hs)
      as (Hc' & Hsh' & Hes).
    split; [exact Hc'|]. rewrite records_of_app. split.
    + eapply shows_ext; [|exact Hsh']. intros key. by rewrite view_after_app.
    + destruct Hes as [-> | [(group & items & r & ->)|(j & -> & Ha)]]; cbn [map];
        [by rewrite app_nil_r | by apply history_snoc..].
  - destruct IH as (Hc & Hsh & Hh). split; [by apply calm_notify | done].
  - destruct IH as (Hc & Hsh & Hh). destruct (shows_get _ _ key Hsh) as (d' & E & Hsh'). rewrite E. cbn [fst snd].
    split; [exact Hc|]. unfold records_of at 1. rewrite writes_of_app. cbn. rewrite app_nil_r. split; [exact Hsh'|].
    by apply history_snoc.
  - destruct IH as (Hc & Hsh & Hh). destruct (shows_scan _ _ lower upper Hsh) as (rows & d' & E & Hrows & Hsh').
    rewrite E. cbn [fst snd]. split; [exact Hc|]. unfold records_of at 1. rewrite writes_of_app. cbn. rewrite app_nil_r.
    split; [exact Hsh'|]. apply history_snoc; [exact Hh|]. by exists rows.
Qed.

(** C12: calls of [write], reads and scans in any interleaving, where each step
    of a leader has room ([step_room]: widths and counters, and level 0 below
    the number of tables at which a writer compacts), and each read is one
    step: every read and every scan returns what the groups applied before it
    wrote, in the order they were applied; a write returns success, after the
    group it was in was applied, with its batches that do not opt out of the
    log logged before, or its batch was empty. Writes and reads are
    linearizable. *)
Theorem writes_linearize d v tr s :
  shows d v -> calm_run d tr s ->
  (forall pre key r post, tr = pre ++ MGet key r :: post ->
     r = Ok (view_after (records_of pre) v key)) /\
  (forall pre lower upper r post, tr = pre ++ MScan lower upper r :: post ->
     exists rows, r = Ok rows /\ view_rows lower upper (view_after (records_of pre) v) rows) /\
  (forall pre i r post, tr = pre ++ MWrite (EReturn i r) :: post ->
     r = Ok tt /\ applied_ok (writes_of pre) i).
Proof.
  intros Hd Hr. destruct (calm_run_ok d v tr s Hd Hr) as (_ & _ & Hh).
  split; [|split]; intros; by match goal with E : tr = _ |- _ => apply (Hh _ _ _ E) end.
Qed.

(** ** Runs by computation *)

Inductive move : Type :=
  | Act (a : action)
  | GetNow (key : bytes).

(** The guard of a step, when the limiter is off. *)
Definition room (p : Phase) (d : Db SM) : bool :=
  match p with
  | Admitting _ items =>
      match db_write_rate_limiter d with None => true | _ => false end &&
      (len (st_l0_tables (db_state d)) <? level0_stop_writes_trigger (db_options d))
  | Applying _ items =>
      (st_last_sequence (db_state d) + 1 + len (group_records items) <? 2 ^ 64) &&
      bool_decide (Forall record_storable (group_records items))
  | Flushing _ true =>
      (vs_next_file_number (db_versions d) <? 2 ^ 62) &&
      match take_oldest_flushable_memtable (memtable_kind (db_options d)) (db_state d) with
      | (Some (m, _), _) => bool_decide (table_bounded (db_options d) (mt_entries m))
      | _ => true
      end
  | _ => true
  end.

Lemma room_ok p d : room p d = true -> step_room p d.
Proof.
  destruct p as [| |group|group items|group items|group [] |results|j results| | |r|group]; try done;
    cbn [room step_room]; intros [H1 H2]%andb_true_iff.
  - destruct (db_write_rate_limiter d); [done|]. split; [done | lia].
  - split; [lia | by apply bool_decide_eq_true_1 in H2].
  - split; [lia|]. intros m src st' E. rewrite E in H2. by apply bool_decide_eq_true_1 in H2.
Qed.

Definition do_move (a : move) (s : Writers) : option (list moment * Writers) :=
  match a with
  | Act (Begin batch opts) => let '(s', es) := write_begin batch opts s in Some (map MWrite es, s')
  | Act (Step i) =>
      w ← wq_writes s !! i;
      if room (pw_phase w) (wq_db s)
      then '(s', es) ← write_step i s; Some (map MWrite es, s') else None
  | Act (Wake i) => Some ([], spurious i s)
  | GetNow key => let '(r, d) := db_get key (wq_db s) in Some ([MGet key r], with_wq_db d s)
  end.

Fixpoint do_moves (moves : list move) (s : Writers) : option (list moment * Writers) :=
  match moves with
  | [] => Some ([], s)
  | a :: moves => '(ms, s) ← do_move a s; '(ms', s) ← do_moves moves s; Some (ms ++ ms', s)
  end.

Lemma do_move_run d tr a s ms s' :
  calm_run d tr s -> do_move a s = Some (ms, s') -> calm_run d (tr ++ ms) s'.
Proof.
  intros Hr Hm. destruct a as [[batch opts|i|i]|key]; cbn [do_move] in Hm.
  - pose proof (cr_begin d tr batch opts s Hr) as Hb. destruct (write_begin batch opts s) as [s1 es].
    by injection Hm as <- <-.
  - destruct (wq_writes s !! i) as [w|] eqn:E; [|done]. cbn [mbind option_bind] in Hm.
    destruct (room (pw_phase w) (wq_db s)) eqn:Er; [|done]. apply room_ok in Er.
    destruct (write_step i s) as [[s1 es]|] eqn:Es; [|done]. cbn [mbind option_bind] in Hm. injection Hm as <- <-.
    by eapply cr_step.
  - injection Hm as <- <-. rewrite app_nil_r. by apply cr_spurious.
  - pose proof (cr_get d tr key s Hr) as Hg. destruct (db_get key (wq_db s)) as [r d']. by injection Hm as <- <-.
Qed.

Lemma do_moves_run d tr moves s ms s' :
  calm_run d tr s -> do_moves moves s = Some (ms, s') -> calm_run d (tr ++ ms) s'.
Proof.
  revert tr s ms. induction moves as [|a moves IH]; intros tr s ms Hr; cbn [do_moves].
  { intros [= <- <-]. by rewrite app_nil_r. }
  destruct (do_move a s) as [[ms1 s1]|] eqn:Ea; [|done]. cbn [mbind option_bind].
  destruct (do_moves moves s1) as [[ms2 s2]|] eqn:Em; [|done]. cbn [mbind option_bind]. intros [= <- <-].
  rewrite app_assoc. eapply IH; [|exact Em]. by eapply do_move_run.
Qed.
End linear.

Section linear_examples.
#[local] Existing Instance toy_externals.
#[local] Existing Instance toy_hash_order.
#[local] Existing Instance toy_number_hash_order.
#[local] Existing Instance toy_skip_map.
#[local] Existing Instance toy_os_messages.

Definition overlap_moves : list move :=
  [Act (Begin (put_one 1 10) default_write_options); Act (Step 0);
   Act (Begin (put_one 2 20) default_write_options); Act (Step 1); Act (Step 0); Act (Step 0); Act (Step 0);
   Act (Begin (put_one 1 11) default_write_options); GetNow [1]; Act (Step 0); GetNow [1];
   Act (Step 2); Act (Step 2); Act (Step 2); Act (Step 2); Act (Step 2); GetNow [1];
   Act (Step 0); Act (Step 0); Act (Step 2); Act (Step 0); Act (Step 0); Act (Step 0);
   Act (Step 0); Act (Step 0); Act (Step 2); Act (Step 2); Act (Step 2); Act (Step 2); Act (Step 1); GetNow [2]].

Definition reads_in (tr : list moment) : list (res (option bytes)) :=
  omap (fun m => match m with MGet _ r => Some r | _ => None end) tr.

Lemma small_shows : shows (se_db small_session) (fun _ => None).
Proof.
  destruct (represents_new "db" small_memtables 0 empty_fs empty_fs_fresh eq_refl eq_refl
    ltac:(done) eq_refl) as (d & fs' & E & tables & l0 & levels & batches & Hst).
  assert (small_session = mkSession d [] []) as -> by (unfold small_session; by rewrite E).
  exists tables, l0, levels. split; [apply (sf_settled _ _ _ _ _ _ _ Hst) | apply (sf_view _ _ _ _ _ _ _ Hst)].
Qed.

Lemma writes_linearize_witness :
  exists tr s, calm_run (se_db small_session) tr s /\
    reads_in tr = [Ok None; Ok (Some [10]); Ok (Some [11]); Ok (Some [20])] /\
    returned (writes_of tr) = [0; 2; 1]%nat /\
    forall pre key r post, tr = pre ++ MGet key r :: post ->
      r = Ok (view_after (records_of pre) (fun _ => None) key).
Proof.
  set (s0 := mkWriters (se_db small_session) [] []).
  assert (match do_moves overlap_moves s0 with
          | Some (tr, _) => (reads_in tr, returned (writes_of tr)) | None => ([], []) end
    = ([Ok None; Ok (Some [10]); Ok (Some [11]); Ok (Some [20])], [0; 2; 1]%nat)) as Hv by by vm_compute.
  destruct (do_moves overlap_moves s0) as [[tr s]|] eqn:E; [|done]. injection Hv as Hr Hw.
  pose proof (do_moves_run _ [] _ _ _ _ (cr_start _) E) as Hrun. cbn [app] in Hrun.
  destruct (writes_linearize _ _ _ _ small_shows Hrun) as [Hg _].
  exists tr, s. exact (conj Hrun (conj Hr (conj Hw Hg))).
Defined.
End linear_examples.
