(* ===== verification/DbFindings.v ===== *)
(** * Runs that go wrong

    Sequences of calls after which the database does not answer the way a map
    with snapshots would: what the preconditions of the session theorem leave
    out, and why they are there. *)

From stdpp Require Import base list gmap strings.
From S2P Require Import Prelude Key Spec Memtable Coding Batch Env Externals Wal Block Cache.
From S2P Require Import Format Table Reader TableCache Version Options Metrics.
From S2P Require Import Compact Mvcc DbState DbRead DbFlush DbCompact DbWrite DbCrash DbSession DbSessionOk.

Section findings.
#[local] Existing Instance toy_externals.
#[local] Existing Instance toy_hash_order.
#[local] Existing Instance toy_number_hash_order.
#[local] Existing Instance toy_skip_map.
#[local] Existing Instance toy_os_messages.

(** ** A compaction of a part of level 0 *)

Definition partial_requests : list request :=
  [Put [1] [10]; Put [5] [50]; Flush; Put [5] [51]; Put [9] [90]; Flush; Get [5];
   CompactRange (Included [9]) Unbounded; Get [5]; Scan Unbounded Unbounded].

(** In this run [compact_range] with a range that only the newer of two
    overlapping level 0 tables touches moves that table to level 1, below the
    older one. Point reads then return the overwritten value, while scans still
    return the new one. *)
Theorem partial_compaction_stale :
  (serve_all partial_requests example_session).1
  = Ok [Done; Done; Done; Done; Done; Done; Value (Some [51]); Done; Value (Some [50]);
        Rows [([1], [10]); ([5], [51]); ([9], [90])]].
Proof. by vm_compute. Qed.

(** ** A compaction that stops between its edits *)

Definition before_compaction : Db toy_skip_map :=
  se_db (serve_all [Put [1] [10]; Flush] example_session).2.

(** The edit that deletes the input is logged, the one that adds it a level
    below is not. *)
Definition stop_between_edits : list io_event := replicate 36 IoDone ++ [IoFail 0].

Definition interrupted_compaction : res unit * Db toy_skip_map :=
  compact_range Unbounded Unbounded (faulty stop_between_edits before_compaction).

(** A compaction logs the edit that deletes an input before the
    one that adds the output, each a record of its own: this one stops in
    between, and the database that is opened on the files has lost an
    acknowledged write that a flush had made durable. *)
Theorem interrupted_compaction_loses :
  (db_get [1] before_compaction).1 = Ok (Some [10]) /\
  interrupted_compaction.1 = Err (Io OtherIo) /\
  match (open_db "db" default_options 5 (stop_fs before_compaction interrupted_compaction.2)).1 with
  | Ok d => (db_get [1] d).1 = Ok None
  | _ => False
  end.
Proof. by vm_compute. Qed.

(** ** Two memtables frozen by one group *)

Definition frozen_group : list (WriteBatch * WriteOptions) :=
  [(mkWriteBatch [BPut [1] [10]], default_write_options);
   (mkWriteBatch [BPut [2] [20]], default_write_options)].

(** The database after the group, and opened again on its files. *)
Definition frozen_written : Db toy_skip_map := (apply_write_group frozen_group (se_db small_session)).2.
Definition frozen_reopened : M Session response := serve (Reopen small_memtables 5).

(** This group fills two memtables; only the first is flushed,
    and the log that holds the second is not read again: both writes are
    acknowledged and read, and the second is lost when the database is opened
    again. *)
Theorem frozen_memtable_lost :
  (apply_write_group frozen_group (se_db small_session)).1 = Ok [Ok tt; Ok tt] /\
  (db_get [1] frozen_written).1 = Ok (Some [10]) /\ (db_get [2] frozen_written).1 = Ok (Some [20]) /\
  let s := (frozen_reopened (mkSession frozen_written [] [])).2 in
  (frozen_reopened (mkSession frozen_written [] [])).1 = Ok Done /\
  (db_get [1] (se_db s)).1 = Ok (Some [10]) /\ (db_get [2] (se_db s)).1 = Ok None.
Proof. by vm_compute. Qed.
End findings.
